(* ===== verification/_CoqProject ===== *)
-Q . S2P
Prelude.v
Entries.v
Bytes.v
Disk.v
Replacer.v
ReplacerTheory.v
Buffer.v
BufferTheory.v
StorageProps.v
TreePages.v
TreePagesTheory.v
LeafTheory.v
InternalTheory.v
BTree.v
Engine.v
EngineRuns.v
BTreeEngine.v
BTreeSim.v
BTreeRep.v
BTreeSteps.v
BTreeLookup.v
BTreeMoves.v
BTreeInsert.v
BTreeSiblings.v
BTreeRemove.v
BTreeScan.v
BTreeEngineTheory.v
BTreeReopen.v
EngineProps.v
Mvcc.v
MvccTheory.v
MvccProps.v
Sql.v
Lexer.v
LexerTheory.v
Parser.v
ParserTheory.v
Catalog.v
CatalogTheory.v
Planner.v
Executor.v
Database.v
SqlSpec.v
PlannerTheory.v
TableRep.v
ExecutorTheory.v
DatabaseTheory.v
SqlProps.v
Structs.v
Wal.v
WalTheory.v
WalProps.v
Bloom.v
SkipList.v
SkipListTheory.v
MemTable.v
Merge.v
MergeTheory.v
SSTable.v
SSTablePages.v
SSTableFile.v
SSTableTheory.v
LsmEngine.v
LsmCursors.v
LsmTiers.v
LsmTheory.v
LsmFlush.v
LsmOps.v
LsmScan.v
LsmReopen.v
LsmRuns.v
LsmProps.v
WalEngine.v
WalSpec.v
WalPool.v
WalTree.v
WalState.v
WalSteps.v
WalRuns.v
WalEngineProps.v
