(* ===== verification/Prelude.v ===== *)
(** * cpp-database-engine: a verification development

    The program is a small relational database in C++.  SQL texts go through
    a lexer, a parser, a planner and an executor; the executor stores rows as
    key/value pairs in a storage engine.  There are three engines: a B+-tree
    on a buffer pool, the same B+-tree under a write-ahead log with
    transactions and recovery, and an LSM tree (memtable, table files,
    compaction, optional log).  Beside them stands an in-memory
    multi-version store with four isolation levels.  All paths below are
    under [src/src].

    ** Layout

    - [Prelude], [Entries], [Bytes], [Structs]: machine integers, the
      state-and-exception monad [M] (a result is [Val], [Exn], [Undef] for
      undefined behaviour of C++, or [NoFuel]), simulations between two
      stateful programs, sorted association lists, byte buffers with
      little-endian loads and stores, structs in memory.
    - [Disk] (storage/disk): the file behind open, fstat, pread, pwrite and
      fsync, each of which the system may refuse; a read or a write may also be
      cut short.
    - [Replacer], [ReplacerTheory] (buffer/lru_k_replacer, lru_replacer): the
      two policies, the class [Replacer] of buffer/replacer.h and the class
      [ReplacerSpec] of what the pool needs of it.
    - [Buffer], [BufferTheory] (buffer/buffer_pool_manager): the pool over
      any replacer; the class [Pool], and [APool], a map of pages with pin
      counts, which the pool refines.  [StorageProps] states the properties
      of disk, replacers and pool.
    - [TreePages], [TreePagesTheory], [LeafTheory], [InternalTheory]
      (index/b_plus_tree_page.h, leaf_page, internal_page): nodes as
      functions on the bytes of a page, and their meaning on entry lists.
    - [BTree] (index/b_plus_tree): lookup, insertion, removal, iterators over
      any [Pool].  [BTreeSim] shows that the tree does the same over two
      pools in simulation; [BTreeRep], [BTreeSteps], [BTreeLookup],
      [BTreeMoves], [BTreeInsert], [BTreeSiblings], [BTreeRemove] and
      [BTreeScan] verify it over [APool].
    - [Engine], [EngineRuns] (engine/storage_engine.h): the class
      [StorageEngine], its contract [EngineSpec] against an ordered map, runs
      of operations.  [BTreeEngine], [BTreeEngineTheory], [BTreeReopen],
      [EngineProps] (index/b_plus_tree_engine): the first engine, over pages
      on disk, with closing and reopening.
    - [Sql], [Lexer], [LexerTheory], [Parser], [ParserTheory] (sql/value.h,
      token.h, ast.h, lexer, parser); [Catalog], [CatalogTheory]
      (sql/catalog); [Planner], [PlannerTheory]; [Executor],
      [ExecutorTheory]; [Database], [DatabaseTheory]; [SqlSpec] (tables as
      lists of rows), [TableRep] (tables in the key space of an engine),
      [SqlProps].
    - [Mvcc], [MvccTheory], [MvccProps] (mvcc/mvcc_store).
    - [Wal], [WalTheory], [WalProps] (wal/log_record.h, log_manager): the log
      as pages of records.  [WalEngine] (wal/wal_b_plus_tree_engine): the
      engine with transactions, checkpoints and recovery; [WalSpec]: its runs
      and two specifications of transactions; [WalPool], [WalTree]: the pages
      and the tree under it; [WalState]: what the log redoes and undoes, the
      invariant of log and file, and how the two specifications agree on
      transactions that keep apart; [WalSteps],
      [WalRuns]: the engine's operations, recovery and runs;
      [WalEngineProps].
    - [Bloom], [SkipList], [SkipListTheory], [MemTable], [Merge],
      [MergeTheory], [SSTable], [SSTablePages], [SSTableFile],
      [SSTableTheory] (lsm/bloom_filter, skip_list.h, memtable.h,
      lsm_value.h, merge_iterator, sstable); [LsmEngine] (lsm/lsm_cursor.h,
      lsm_tree_engine) with [LsmCursors], [LsmTiers], [LsmTheory],
      [LsmFlush], [LsmOps], [LsmScan], [LsmReopen], [LsmRuns], [LsmProps].

    A Module carries the name of the C++ class it models; its Record has the
    fields of the class and its definitions the names of the methods.  A
    method that changes the object is a computation in [M] over that Record;
    a guard object is an explicit release on every path, exceptions included.

    ** What the theorems show

    - Storage: a page written is read back; a refused system call is an
      exception that leaves the file alone, a write cut short one that leaves
      the page torn; LRU-K and LRU give up the frame
      their definitions name, for every order in which the hash map may be
      walked; the pool refines [APool] over any policy that meets
      [ReplacerSpec]; [FlushAllPages] makes every change durable.
    - B+-tree engine: every sequence of operations is answered as by an
      ordered map, before and after closing and reopening; lookups go down at
      most log2 of the number of entries; oversize values are refused.
    - SQL: the lexer and the parser accept exactly the grammar, always end
      and never read past the tokens; plans lose no row; keys and rows
      decode to what was encoded; a statement over any engine with the
      contract, and a session over an empty file from the grammar down to the
      bytes of its pages, answers as the table specification, as long as no
      table is created beyond 65536 and the primary key is compared for
      equality only with keys in its range (the code checks neither, as
      [catalog_table_ids] and [point_lookup_wraps] show).
    - MVCC: the invariant of reachable stores, what a read answers at each
      level, repeatable reads, first-committer-wins, serializability of
      SERIALIZABLE_SNAPSHOT, exactness of garbage collection, each for calls
      in turn; and what interrupted calls can do to that: a collection inside
      [Begin] or a [Begin] inside a collection loses a snapshot's version, an
      insertion inside [Commit] goes unnoticed.
    - Log: the records appended are read back in order, also after opening
      the log again.
    - WAL engine: transactions are atomic and durable.  Whatever the calls,
      crashes and restarts, the answers are those of the specification in
      [WalSpec], as long as the pages fit the pool and no transaction writes a
      key another open one has written.  Without that last condition calls are
      still answered by a second specification, with undo logs: an abort
      writes old values over whatever was committed since.  Two runs show what
      recovery does when either condition fails.
    - LSM: a Bloom filter has no false negatives; a table file gives back
      its entries; the engine answers every sequence of writes, lookups,
      scans, compactions and restarts as an ordered map, as long as the
      manifest page has room for the tables.  For every sound state: which
      crashes inside a flush lose the memtable, what a table file left behind
      by one does to the next flush, and what two flushes that finish in the
      wrong order do.
    - Behaviour the code does not intend is stated the same way, for every
      state it concerns or with the run that shows it (the last theorems of
      each [Props] file).

    ** Bounds and fuel

    Loops that are not structural take fuel; running out is the result
    [NoFuel], which the theorems exclude.  A descent of the tree has
    [tree_fuel] = 66 levels and a put creates at most [put_pages] = 66 pages,
    enough for any tree whose pages a file can address, since every node but
    the root is at least half full.  A pool has at least 70 frames where a
    theorem asks for it: a descent pins one page per level and a split or
    merge a few more.  The lexer has one step per character and the parser
    one per token; a scan as many as there are rows; [ReadFrom] of the log
    one round per record; the search of a skip list as many as its nodes; a
    merge as many as its sources have entries and one more; the undo of a
    chain of log records as many as the log has records and one more.  Page
    ids are bounded by what a 64-bit file offset addresses
    ([APool.addressable]).  The theorem on the LSM engine bounds the run by
    fewer than 2^31 events, and asks that the manifest page, which names at most
    8 tiers of 16 tables, has room when an event comes ([LsmRuns.all_room]);
    it shows that there is room while the bytes written are fewer than 16
    memtables hold, a restart counting as one.  The theorems on the WAL engine
    bound the run by fewer than 2^20 events, which keeps the log below 2^43 records and redo
    within what the tree's pages can be addressed with.

    ** Parameters

    What the sources leave to the machine is an argument: which system call
    fails, the order of a walk over an [unordered_map], the random levels of
    the skip list, the two sizes the Bloom filter computes with [std::log],
    and the bytes behind a struct that is written as a page although it is
    shorter than one.

    ** What is not modelled

    The HTTP server and the command-line shell (sockets, threads, streams),
    the LSM branch of [Database]'s choice of an engine, the counters that
    only benchmarks read, and destructors of memory-only objects.  Calls on a
    latched object are atomic, but for these, which are split into the sections
    between which the sources hold no lock: MVCC's [Begin] (two sections),
    [Commit] (three) and [RunGarbageCollection] (two), and the stages of an LSM
    flush and compaction.  Finer interleavings are not modelled: the collector
    visits its shards, and then its chains, one lock at a time, and a read or
    write of MVCC finds its transaction under one lock and its chain under
    another.  Timestamps, transaction ids and pin counts are unbounded integers;
    [std::lower_bound] and [std::upper_bound] are linear scans, which agree with
    them on sorted data.  A crash of the WAL engine comes
    between two calls, and what was written to a file before it stays. *)

From Stdlib Require Export ZArith Lia.
From stdpp Require Export prelude gmap list sorting strings.

#[global] Open Scope Z_scope.

(** ** Machine types of common/config.h

    [int64_t], [int32_t] and [size_t] quantities are [Z]; a conversion that
    can change the value is written out with one of the functions below. *)

Abbreviation page_id_t := Z (only parsing).
Abbreviation frame_id_t := Z (only parsing).
Abbreviation KeyType := Z (only parsing).

Definition u16 (z : Z) : Z := z `mod` 2 ^ 16.
Definition u64 (z : Z) : Z := z `mod` 2 ^ 64.
Definition s64 (z : Z) : Z := (z + 2 ^ 63) `mod` 2 ^ 64 - 2 ^ 63.
Definition int64_min : Z := - 2 ^ 63.
Definition int64_max : Z := 2 ^ 63 - 1.

Definition PAGE_SIZE : Z := 4096.
Definition INVALID_PAGE_ID : page_id_t := -1.
Definition INVALID_FRAME_ID : frame_id_t := -1.
Definition INVALID_KEY : KeyType := int64_min.
Definition MAX_VALUE_SIZE : Z := 64.

(** [std::string::size] *)
Definition ssize (s : string) : Z := Z.of_nat (String.length s).

(** ** Outcomes and the state-and-exception monad

    A C++ call ends with a value, with an exception (the state reached by then
    stays), with undefined behaviour, or, in a model with fuel, it runs out of
    it. *)

Inductive exn :=
  | IOException (msg : string)
  | InvalidArgument (msg : string)
  | RuntimeError (msg : string)
  | OutOfRange (msg : string)
  | BadVariantAccess
  | SqlException (msg : string).

Inductive res (A : Type) :=
  | Val (a : A)
  | Exn (e : exn)
  | Undef
  | NoFuel.
Arguments Val {A} a.
Arguments Exn {A} e.
Arguments Undef {A}.
Arguments NoFuel {A}.

#[global] Instance res_ret : MRet res := λ A a, Val a.
#[global] Instance res_bind : MBind res := λ A B f m,
  match m with
  | Val a => f a
  | Exn e => Exn e
  | Undef => Undef
  | NoFuel => NoFuel
  end.
#[global] Instance res_fmap : FMap res := λ A B f m,
  match m with
  | Val a => Val (f a)
  | Exn e => Exn e
  | Undef => Undef
  | NoFuel => NoFuel
  end.

Definition M (S A : Type) : Type := S → res A * S.

#[global] Instance M_ret {S} : MRet (M S) := λ A a s, (Val a, s).
#[global] Instance M_bind {S} : MBind (M S) := λ A B f m s,
  match m s with
  | (Val a, s') => f a s'
  | (Exn e, s') => (Exn e, s')
  | (Undef, s') => (Undef, s')
  | (NoFuel, s') => (NoFuel, s')
  end.

Definition get {S} : M S S := λ s, (Val s, s).
Definition put {S} (s' : S) : M S () := λ _, (Val tt, s').
Definition modify {S} (f : S → S) : M S () := λ s, (Val tt, f s).
Definition throw {S A} (e : exn) : M S A := λ s, (Exn e, s).
Definition undefined {S A} : M S A := λ s, (Undef, s).

Section M_laws.
Context {S A B : Type}.
Implicit Types (m : M S A) (k : A → M S B).

Lemma bind_Val m k s a s' : m s = (Val a, s') → (m ≫= k) s = k a s'.
Proof. unfold mbind, M_bind. by intros ->. Qed.

Lemma bind_Exn m k s e s' : m s = (Exn e, s') → (m ≫= k) s = (Exn e, s').
Proof. unfold mbind, M_bind. by intros ->. Qed.

Lemma bind_get (k : S → M S B) s : (get ≫= k) s = k s s.
Proof. done. Qed.

Lemma bind_modify f (k : () → M S B) s : (modify f ≫= k) s = k tt (f s).
Proof. done. Qed.

Lemma bind_ret a k s : ((mret a : M S A) ≫= k) s = k a s.
Proof. done. Qed.

Lemma bind_assoc {C} m k (k' : B → M S C) s :
  ((m ≫= k) ≫= k') s = (m ≫= (λ a, k a ≫= k')) s.
Proof. unfold mbind, M_bind. by destruct (m s) as [[] ?]. Qed.
End M_laws.

(** Runs a monadic call: administrative steps, then the equations given. *)
Ltac mstep :=
  repeat first [rewrite bind_assoc|rewrite bind_get|rewrite bind_modify|rewrite bind_ret].

(** Runs the first call of the goal with the equation [E] for it. *)
Ltac mrun E := mstep; rewrite (bind_Val _ _ _ _ _ E); mstep.

(** Runs the first call of the goal with the tactic that finds its equation. *)
Tactic Notation "mdo" tactic3(tac) := mstep; erewrite bind_Val; [|solve [tac]]; mstep.

(** ** Simulation

    [sim Rel m m']: from related states, whatever [m'] does (unless its
    behaviour is undefined) [m] does too, with the same outcome. *)

Definition sim {C D A} (Rel : C → D → Prop) (m : M C A) (m' : M D A) : Prop :=
  ∀ c d, Rel c d →
    match m' d with
    | (Undef, _) => True
    | (r, d') => ∃ c', m c = (r, c') ∧ Rel c' d'
    end.

Section sim.
Context {C D : Type} (Rel : C → D → Prop).

Lemma sim_ret {A} (x : A) : sim Rel (mret x) (mret x).
Proof. intros c d H. simpl. eauto. Qed.

Lemma sim_throw {A} e : sim Rel (throw e : M C A) (throw e).
Proof. intros c d H. simpl. eauto. Qed.

Lemma sim_undef {A} (m : M C A) : sim Rel m undefined.
Proof. intros c d H. done. Qed.

Lemma sim_nofuel {A} : sim Rel (λ s, (NoFuel, s) : res A * C) (λ s, (NoFuel, s) : res A * D).
Proof. intros c d H. simpl. eauto. Qed.

Lemma sim_bind {A B} (m : M C A) (m' : M D A) (k : A → M C B) (k' : A → M D B) :
  sim Rel m m' → (∀ x, sim Rel (k x) (k' x)) → sim Rel (m ≫= k) (m' ≫= k').
Proof.
  intros Hm Hk c d H. specialize (Hm c d H). unfold mbind, M_bind.
  destruct (m' d) as [[x| | |] d'].
  - destruct Hm as (c' & -> & H'). by apply Hk.
  - destruct Hm as (c' & -> & H'). by exists c'.
  - done.
  - destruct Hm as (c' & -> & H'). by exists c'.
Qed.
End sim.

(** ** Loops over sequences *)

(** The first element a range-for with an early exit stops at. *)
Fixpoint find_first {A} (f : A → bool) (l : list A) : option A :=
  match l with
  | [] => None
  | x :: l => if f x then Some x else find_first f l
  end.

(** The [best == nullptr || better v best] loop: later elements replace the
    current one only when strictly better. *)
Definition best_step {A} (better : A → A → bool) (best : option A) (v : A) : option A :=
  match best with
  | None => Some v
  | Some b => if better v b then Some v else Some b
  end.

Definition fold_best {A} (better : A → A → bool) (l : list A) : option A :=
  fold_left (best_step better) l None.

Lemma find_first_Some {A} (f : A → bool) l x :
  find_first f l = Some x → x ∈ l ∧ f x = true.
Proof. induction l as [|y l IH]; simpl; [done|]. destruct (f y) eqn:?; set_solver. Qed.

Lemma find_first_None {A} (f : A → bool) l :
  find_first f l = None ↔ ∀ x, x ∈ l → f x = false.
Proof.
  induction l as [|y l IH]; simpl; [set_solver|].
  destruct (f y) eqn:?; split; intros H; try done.
  - by specialize (H y ltac:(set_solver)); congruence.
  - intros x [->|?]%elem_of_cons; [done|]. by apply IH.
  - apply IH. set_solver.
Qed.

(** ** Maps and filters over lists *)

Lemma elem_of_snoc {A} (l : list A) x y : x ∈ l ++ [y] ↔ x ∈ l ∨ x = y.
Proof. rewrite elem_of_app, list_elem_of_singleton. done. Qed.

Lemma fmap_ext_in {A B} (f g : A → B) (l : list A) :
  (∀ x, x ∈ l → f x = g x) → f <$> l = g <$> l.
Proof. intros H. apply list_fmap_ext. intros i x Hx. apply H. by eapply list_elem_of_lookup_2. Qed.

Lemma fmap_id_in {A} (f : A → A) (l : list A) : (∀ x, x ∈ l → f x = x) → f <$> l = l.
Proof. intros H. rewrite (fmap_ext_in f id) by done. apply list_fmap_id. Qed.

Lemma NoDup_fst_inj {A B} (l : list (A * B)) n m :
  NoDup l.*1 → n ∈ l → m ∈ l → n.1 = m.1 → n = m.
Proof.
  induction l as [|x l IH]; simpl; [set_solver|]. intros [Hx Hnd]%NoDup_cons Hn Hm E.
  apply elem_of_cons in Hn as [->|Hn], Hm as [->|Hm]; auto.
  - destruct Hx. rewrite E. by apply list_elem_of_fmap_2.
  - destruct Hx. rewrite <-E. by apply list_elem_of_fmap_2.
Qed.

Section filters.
Context {A : Type}.
Implicit Types (l : list A) (f : A → A).

Lemma filter_ext_in (P Q : A → Prop) (l : list A)
    `{HP : ∀ x, Decision (P x), HQ : ∀ x, Decision (Q x)} :
  (∀ x, x ∈ l → (P x ↔ Q x)) → filter P l = filter Q l.
Proof.
  induction l as [|x l IH]; intros H; [done|]. rewrite !filter_cons.
  rewrite IH by set_solver. specialize (H x ltac:(set_solver)).
  repeat case_decide; naive_solver.
Qed.

Lemma filter_filter_in (P Q : A → Prop) (l : list A)
    `{HP : ∀ x, Decision (P x), HQ : ∀ x, Decision (Q x)} :
  (∀ x, x ∈ l → P x → Q x) → filter P (filter Q l) = filter P l.
Proof. intros H. rewrite list_filter_filter. apply filter_ext_in. naive_solver. Qed.

Lemma filter_comm (P Q : A → Prop) (l : list A)
    `{HP : ∀ x, Decision (P x), HQ : ∀ x, Decision (Q x)} :
  filter P (filter Q l) = filter Q (filter P l).
Proof. rewrite !list_filter_filter. apply filter_ext_in. tauto. Qed.

Lemma filter_fmap_in (P : A → Prop) `{HP : ∀ x, Decision (P x)} f l :
  (∀ x, x ∈ l → P x → f x = x) → (∀ x, x ∈ l → P (f x) → P x) →
  filter P (f <$> l) = filter P l.
Proof.
  induction l as [|x l IH]; intros H1 H2; [done|]. rewrite fmap_cons, !filter_cons.
  rewrite IH by set_solver. specialize (H1 x ltac:(set_solver)).
  specialize (H2 x ltac:(set_solver)). repeat case_decide; try naive_solver.
  by rewrite H1. rewrite H1 in *; tauto.
Qed.

Lemma filter_none (P : A → Prop) `{HP : ∀ x, Decision (P x)} l :
  (∀ x, x ∈ l → ¬ P x) → filter P l = [].
Proof.
  induction l as [|x l IH]; intros H; [done|]. rewrite filter_cons.
  rewrite IH by set_solver. rewrite decide_False; [done|]. set_solver.
Qed.

Lemma filter_all (P : A → Prop) `{HP : ∀ x, Decision (P x)} l :
  (∀ x, x ∈ l → P x) → filter P l = l.
Proof.
  induction l as [|x l IH]; intros H; [done|]. rewrite filter_cons.
  rewrite IH by set_solver. rewrite decide_True; [done|]. set_solver.
Qed.
End filters.

(** A loop that skips the elements failing a test runs over the filtered list. *)
Lemma fold_left_skip {A B} (P : A → Prop) `{HP : ∀ x, Decision (P x)} (f g : B → A → B) l acc :
  (∀ b x, x ∈ l → P x → g b x = f b x) → (∀ b x, x ∈ l → ¬ P x → g b x = b) →
  fold_left g l acc = fold_left f (filter P l) acc.
Proof.
  revert acc; induction l as [|x l IH]; intros acc H1 H2; simpl; [done|].
  rewrite filter_cons. case_decide; simpl.
  - rewrite H1 by set_solver. apply IH; set_solver.
  - rewrite H2 by set_solver. apply IH; set_solver.
Qed.

Section fold_best.
Context {A : Type} (key : A → Z).

Let gtb (v b : A) : bool := key b <? key v.

Lemma fold_best_acc l b :
  ∃ x, fold_left (best_step gtb) l (Some b) = Some x ∧
       (x = b ∨ x ∈ l) ∧ key b ≤ key x ∧ ∀ y, y ∈ l → key y ≤ key x.
Proof.
  revert b; induction l as [|y l IH]; intros b; simpl.
  { exists b. set_solver by lia. }
  unfold gtb at 2. destruct (key b <? key y) eqn:E.
  - destruct (IH y) as (x & -> & Hx & Hle & Hall). exists x.
    split_and!; [done|set_solver|lia|].
    intros z [->|?]%elem_of_cons; eauto.
  - destruct (IH b) as (x & -> & Hx & Hle & Hall). exists x.
    split_and!; [done|set_solver|lia|].
    intros z [->|?]%elem_of_cons; [lia|eauto].
Qed.

Lemma fold_best_Some l x :
  fold_best gtb l = Some x → x ∈ l ∧ ∀ y, y ∈ l → key y ≤ key x.
Proof.
  unfold fold_best. destruct l as [|b l]; simpl; [done|].
  destruct (fold_best_acc l b) as (x' & -> & Hx & Hle & Hall).
  intros [= ->]. split; [set_solver|]. intros y [->|?]%elem_of_cons; eauto.
Qed.

Lemma fold_best_None l : fold_best gtb l = None ↔ l = [].
Proof.
  unfold fold_best. destruct l as [|b l]; simpl; [done|].
  destruct (fold_best_acc l b) as (x' & -> & _). done.
Qed.

(** With one strict maximum the loop finds it, whatever the order. *)
Lemma fold_best_max l x :
  x ∈ l → (∀ y, y ∈ l → y = x ∨ key y < key x) → fold_best gtb l = Some x.
Proof.
  intros Hx Hmax. destruct (fold_best gtb l) as [z|] eqn:E.
  - apply fold_best_Some in E as [Hz Hall]. f_equal.
    destruct (Hmax z Hz) as [?|?]; [done|]. specialize (Hall x Hx). lia.
  - apply fold_best_None in E. set_solver.
Qed.
End fold_best.
