(* ===== verification/Entries.v ===== *)
(** * Sorted association lists

    What an ordered key-value store promises, on lists of entries in ascending
    key order: look-up, insertion, removal and the position of a key. *)

From S2P Require Import Prelude.

(** ** Sorted association lists *)

(** Number of leading entries with a smaller key: the lower bound. *)
Fixpoint lb {V} (key : Z) (es : list (Z * V)) : nat :=
  match es with
  | [] => 0%nat
  | (k, _) :: es => if k <? key then S (lb key es) else 0%nat
  end.

Fixpoint ins {V} (key : Z) (v : V) (es : list (Z * V)) : list (Z * V) :=
  match es with
  | [] => [(key, v)]
  | (k, w) :: es' =>
      if k <? key then (k, w) :: ins key v es'
      else if k =? key then (key, v) :: es' else (key, v) :: es
  end.

Fixpoint look {V} (key : Z) (es : list (Z * V)) : option V :=
  match es with
  | [] => None
  | (k, w) :: es => if k =? key then Some w else look key es
  end.

Definition del {V} (key : Z) (es : list (Z * V)) : list (Z * V) := filter (λ e, e.1 ≠ key) es.

Abbreviation sorted es := (StronglySorted Z.lt (fst <$> es)) (only parsing).

Section alist.
Context {V : Type}.
Implicit Types es : list (Z * V).

Lemma sorted_cons_inv k w es :
  sorted ((k, w) :: es) → sorted es ∧ ∀ e, e ∈ es → k < e.1.
Proof.
  intros [Hs Ha]%StronglySorted_inv. split; [done|]. intros e He.
  rewrite Forall_forall in Ha. apply Ha. by apply list_elem_of_fmap_2.
Qed.

Lemma sorted_NoDup es : sorted es → NoDup es.*1.
Proof.
  induction es as [|[k w] es IH]; intros Hs; [constructor|]. apply sorted_cons_inv in Hs as [Hs Hk].
  rewrite fmap_cons. constructor; [|by apply IH]. intros (e & E & He)%list_elem_of_fmap. specialize (Hk e He). simpl in E. lia.
Qed.

Lemma sorted_lookup es i j e e' :
  sorted es → (i < j)%nat → es !! i = Some e → es !! j = Some e' → e.1 < e'.1.
Proof.
  revert i j; induction es as [|[k w] es IH]; intros i j Hs Hij Hi Hj; [done|].
  apply sorted_cons_inv in Hs as [Hs Hlt]. destruct j as [|j]; [lia|]. simpl in Hj.
  destruct i as [|i]; simpl in Hi.
  - injection Hi as <-. apply Hlt. by apply list_elem_of_lookup_2 in Hj.
  - apply (IH i j); [done|lia|done..].
Qed.

Lemma lb_le key es : (lb key es ≤ length es)%nat.
Proof. induction es as [|[k w] es IH]; simpl; [done|]. case_match; lia. Qed.

Lemma lb_unique key es r :
  sorted es → (r ≤ length es)%nat →
  (∀ i k w, es !! i = Some (k, w) → (i < r)%nat → k < key) →
  (∀ i k w, es !! i = Some (k, w) → (r ≤ i)%nat → key ≤ k) →
  r = lb key es.
Proof.
  revert r; induction es as [|[k w] es IH]; intros r Hs Hr H1 H2; simpl; [simpl in Hr; lia|].
  apply sorted_cons_inv in Hs as [Hs Hlt]. destruct (Z.ltb_spec k key).
  - destruct r as [|r]. { specialize (H2 0%nat k w eq_refl). lia. }
    f_equal. apply IH; [done|simpl in Hr; lia| |].
    + intros i k' w' Hi ?. apply (H1 (S i) k' w'); [done|lia].
    + intros i k' w' Hi ?. apply (H2 (S i) k' w'); [done|lia].
  - destruct r as [|r]; [done|]. specialize (H1 0%nat k w eq_refl). lia.
Qed.

Lemma look_lb key es :
  sorted es →
  look key es = match es !! lb key es with
                | Some (k, w) => if k =? key then Some w else None
                | None => None
                end.
Proof.
  induction es as [|[k w] es IH]; intros Hs; simpl; [done|].
  apply sorted_cons_inv in Hs as [Hs Hlt]. destruct (Z.ltb_spec k key).
  - rewrite (proj2 (Z.eqb_neq k key)) by lia. by rewrite IH.
  - simpl. destruct (Z.eqb_spec k key); [done|].
    assert (Hno : ∀ e, e ∈ es → e.1 ≠ key) by (intros e He; specialize (Hlt e He); lia).
    clear -Hno. induction es as [|[k' w'] es IH]; simpl; [done|].
    rewrite (proj2 (Z.eqb_neq k' key)); [apply IH; set_solver|]. apply (Hno (k', w')). set_solver.
Qed.

Lemma ins_lb key v es :
  sorted es →
  ins key v es =
    match es !! lb key es with
    | Some (k, w) => if k =? key then take (lb key es) es ++ (key, v) :: drop (S (lb key es)) es
                     else take (lb key es) es ++ (key, v) :: drop (lb key es) es
    | None => take (lb key es) es ++ (key, v) :: drop (lb key es) es
    end.
Proof.
  induction es as [|[k w] es IH]; intros Hs; simpl; [done|].
  apply sorted_cons_inv in Hs as [Hs Hlt]. destruct (Z.ltb_spec k key).
  - simpl. rewrite IH by done. destruct (es !! lb key es) as [[k' w']|]; [|done].
    by destruct (k' =? key).
  - simpl. by destruct (k =? key).
Qed.

Lemma del_lb key es :
  sorted es →
  del key es =
    match es !! lb key es with
    | Some (k, w) => if k =? key then take (lb key es) es ++ drop (S (lb key es)) es else es
    | None => es
    end.
Proof.
  induction es as [|[k w] es IH]; intros Hs; [done|]. unfold del in *. rewrite filter_cons. simpl.
  apply sorted_cons_inv in Hs as [Hs Hlt]. destruct (Z.ltb_spec k key).
  - rewrite decide_True by lia. simpl. rewrite IH by done.
    destruct (es !! lb key es) as [[k' w']|]; [|done]. by destruct (k' =? key).
  - simpl. rewrite (filter_all _ es).
    + destruct (Z.eqb_spec k key); [by rewrite decide_False by (simpl; lia)|].
      by rewrite decide_True by (simpl; lia).
    + intros e He. specialize (Hlt e He). lia.
Qed.

Lemma length_ins key v es :
  sorted es →
  length (ins key v es) = if look key es is Some _ then length es else S (length es).
Proof.
  induction es as [|[k w] es IH]; intros Hs; simpl; [done|].
  apply sorted_cons_inv in Hs as [Hs Hlt]. destruct (Z.ltb_spec k key).
  - rewrite (proj2 (Z.eqb_neq k key)) by lia. simpl. rewrite IH by done. by destruct (look key es).
  - destruct (Z.eqb_spec k key); [done|]. simpl.
    destruct (look key es) eqn:E; [|done]. exfalso.
    assert (Hno : ∀ e, e ∈ es → e.1 ≠ key) by (intros e He; specialize (Hlt e He); lia).
    revert E. clear -Hno. induction es as [|[k' w'] es IH]; simpl; [done|].
    destruct (Z.eqb_spec k' key); [|apply IH; set_solver].
    exfalso. apply (Hno (k', w')); set_solver.
Qed.
End alist.

(** ** Concatenation *)

Lemma sorted_app {V} (l1 l2 : list (Z * V)) m :
  sorted l1 → sorted l2 → (∀ e, e ∈ l1 → e.1 < m) → (∀ e, e ∈ l2 → m ≤ e.1) → sorted (l1 ++ l2).
Proof.
  intros H1 H2 Hl Hr. rewrite fmap_app. induction l1 as [|[k v] l1 IH]; simpl; [done|].
  apply sorted_cons_inv in H1 as [H1 Hk]. constructor; [apply IH; set_solver|].
  rewrite Forall_app. split; apply Forall_forall; intros x (e & -> & He)%list_elem_of_fmap; [by apply Hk|].
  assert (k < m) by (apply (Hl (k, v)); set_solver). specialize (Hr e He). lia.
Qed.

Lemma sorted_halves {V} (a : list (Z * V)) k v q :
  sorted (a ++ (k, v) :: q) → sorted a ∧ sorted ((k, v) :: q) ∧ (∀ e, e ∈ a → e.1 < k) ∧ (∀ e, e ∈ (k, v) :: q → k ≤ e.1).
Proof.
  induction a as [|[k0 v0] a IH].
  - simpl app. intros Hs. split_and!; [constructor|done|set_solver|]. apply sorted_cons_inv in Hs as [_ Hk].
    intros e [->|He]%elem_of_cons; [done|]. specialize (Hk e He). lia.
  - simpl app. intros [Hs Hk]%sorted_cons_inv. destruct (IH Hs) as (H1 & H2 & H3 & H4). split_and!; [|done| |done].
    + simpl. constructor; [done|]. apply Forall_forall. intros x (e & -> & He)%list_elem_of_fmap. apply Hk. set_solver.
    + intros e [->|He]%elem_of_cons; [|by apply H3]. apply (Hk (k, v)). set_solver.
Qed.

(** ** Looking up, inserting and removing in the middle *)

Section mid.
Context {V : Type} (key : Z).
Implicit Types l r es : list (Z * V).

Abbreviation apart l r := ((∀ e, e ∈ l → e.1 < key) ∧ (∀ e, e ∈ r → key < e.1)) (only parsing).

Lemma look_past es : (∀ e, e ∈ es → key < e.1) → look key es = None.
Proof.
  induction es as [|[k v] es IH]; simpl; intros Hes; [done|].
  assert (key < k) by (apply (Hes (k, v)); set_solver).
  rewrite (proj2 (Z.eqb_neq k key)) by lia. apply IH. set_solver.
Qed.

Lemma look_mid l r es : apart l r → look key (l ++ es ++ r) = look key es.
Proof.
  intros [Hl Hr]. induction l as [|[k v] l' IH]; simpl.
  - induction es as [|[k v] es IH]; simpl; [by apply look_past|by rewrite IH].
  - assert (k < key) by (apply (Hl (k, v)); set_solver).
    rewrite (proj2 (Z.eqb_neq k key)) by lia. apply IH. set_solver.
Qed.

Lemma ins_mid v l r es : apart l r → ins key v (l ++ es ++ r) = l ++ ins key v es ++ r.
Proof.
  intros [Hl Hr]. induction l as [|[k w] l' IH]; simpl.
  - induction es as [|[k w] es IH]; simpl.
    + destruct r as [|[k w] r']; simpl; [done|]. assert (key < k) by (apply (Hr (k, w)); set_solver).
      rewrite (proj2 (Z.ltb_ge k key)), (proj2 (Z.eqb_neq k key)) by lia. done.
    + rewrite IH. by destruct (k <? key), (k =? key).
  - assert (k < key) by (apply (Hl (k, w)); set_solver).
    rewrite (proj2 (Z.ltb_lt k key)) by lia. rewrite IH by set_solver. done.
Qed.

Lemma elem_of_ins v es e : e ∈ ins key v es → e = (key, v) ∨ e ∈ es.
Proof.
  induction es as [|[k w] es IH]; simpl; [set_solver|]. destruct (k <? key); [set_solver|].
  destruct (k =? key); set_solver.
Qed.

Lemma sorted_ins v es : sorted es → sorted (ins key v es).
Proof.
  induction es as [|[k w] es IH]; simpl; [repeat constructor|]. intros Hs.
  pose proof (sorted_cons_inv k w es Hs) as [Hs' Hk].
  destruct (Z.ltb_spec k key); [|destruct (Z.eqb_spec k key) as [->|]]; simpl.
  - constructor; [by apply IH|]. apply Forall_forall. intros x (e & -> & He)%list_elem_of_fmap.
    destruct (elem_of_ins _ _ _ He) as [->|He']; [done|by apply Hk].
  - by simpl in Hs.
  - constructor; [done|]. apply Forall_forall. intros x [->|(e & -> & He)%list_elem_of_fmap]%elem_of_cons; [lia|].
    specialize (Hk e He). lia.
Qed.

Lemma elem_of_del es e : e ∈ del key es ↔ e ∈ es ∧ e.1 ≠ key.
Proof. unfold del. rewrite list_elem_of_filter. tauto. Qed.

Lemma sorted_del es : sorted es → sorted (del key es).
Proof.
  unfold del. induction es as [|[k w] es IH]; [done|]. intros [Hs Hk]%sorted_cons_inv.
  rewrite filter_cons. case_decide; [|by apply IH]. simpl. constructor; [by apply IH|].
  apply Forall_forall. intros x (e & -> & He)%list_elem_of_fmap. apply list_elem_of_filter in He as [_ He]. by apply Hk.
Qed.

Lemma del_none es : (∀ e, e ∈ es → e.1 ≠ key) → del key es = es.
Proof.
  unfold del. induction es as [|e es IH]; intros Hes; [done|].
  rewrite filter_cons_True by (apply Hes; set_solver). rewrite IH by set_solver. done.
Qed.

Lemma del_mid l r es : apart l r → del key (l ++ es ++ r) = l ++ del key es ++ r.
Proof.
  intros [Hl Hr]. unfold del. rewrite !filter_app. fold (del key l) (del key r) (del key es).
  rewrite (del_none l), (del_none r); [done| |]; intros e He; [apply Hr in He|apply Hl in He]; lia.
Qed.
End mid.

Lemma sorted_split_lb {V} key (es : list (Z * V)) :
  sorted es → (∀ e, e ∈ take (lb key es) es → e.1 < key) ∧ (∀ e, e ∈ drop (lb key es) es → key ≤ e.1).
Proof.
  induction es as [|[k v] es IH]; intros Hs; simpl; [set_solver|]. apply sorted_cons_inv in Hs as [Hs Hk].
  destruct (Z.ltb_spec k key); simpl.
  - destruct (IH Hs) as [H1 H2]. split; [|done]. intros e [->|He]%elem_of_cons; [done|by apply H1].
  - split; [set_solver|]. intros e [->|He]%elem_of_cons; [done|]. specialize (Hk e He). lia.
Qed.

(** ** The map a list of entries stands for *)

Section to_map.
Context {V : Type}.
Implicit Types es : list (Z * V).

Definition to_map (es : list (Z * V)) : gmap Z V := list_to_map es.

Lemma look_to_map k es : look k es = to_map es !! k.
Proof.
  unfold to_map. induction es as [|[k' v] es IH]; simpl; [done|]. destruct (Z.eqb_spec k' k) as [->|].
  - by rewrite lookup_insert_eq.
  - by rewrite lookup_insert_ne.
Qed.

Lemma to_map_ins k v es : sorted es → to_map (ins k v es) = <[k := v]> (to_map es).
Proof.
  unfold to_map. induction es as [|[k' w] es IH]; intros Hs; simpl; [done|].
  apply sorted_cons_inv in Hs as [Hs Hk]. destruct (Z.ltb_spec k' k).
  - simpl. rewrite IH by done. apply insert_insert_ne. lia.
  - destruct (Z.eqb_spec k' k) as [->|]; simpl; [by rewrite insert_insert_eq|done].
Qed.

Lemma to_map_del k es : to_map (del k es) = delete k (to_map es).
Proof.
  apply map_eq. intros j. rewrite lookup_delete, <-!look_to_map. unfold del.
  induction es as [|[k' w] es IH]; simpl; [by case_decide|]. rewrite filter_cons. simpl.
  destruct (decide (k' ≠ k)) as [Hk|Hk%dec_stable]; simpl; rewrite IH;
    destruct (Z.eqb_spec k' j); case_decide; congruence.
Qed.

Lemma look_del k k' es : look k' (del k es) = if decide (k = k') then None else look k' es.
Proof. by rewrite !look_to_map, to_map_del, lookup_delete. Qed.

Lemma look_ins k k' v es : sorted es → look k' (ins k v es) = if decide (k = k') then Some v else look k' es.
Proof. intros. by rewrite !look_to_map, to_map_ins, lookup_insert. Qed.

Lemma look_elem k v es : sorted es → look k es = Some v ↔ (k, v) ∈ es.
Proof.
  induction es as [|[k' w] es IH]; intros Hs; simpl; [set_solver|].
  apply sorted_cons_inv in Hs as [Hs Hk]. rewrite elem_of_cons. destruct (Z.eqb_spec k' k) as [->|].
  - split; [intros [= ->]; by left|]. intros [[= ->]|He]; [done|]. specialize (Hk _ He). simpl in Hk. lia.
  - rewrite IH by done. split; [by right|]. intros [[= -> ->]|He]; done.
Qed.

(** Entries in ascending order are determined by their map. *)
Lemma sorted_ext es es' : sorted es → sorted es' → to_map es = to_map es' → es = es'.
Proof.
  revert es'; induction es as [|[k v] es IH]; intros [|[k' v'] es'] Hs Hs' E; try done.
  - apply (f_equal (lookup k')) in E. rewrite <-!look_to_map in E. simpl in E. by rewrite Z.eqb_refl in E.
  - apply (f_equal (lookup k)) in E. rewrite <-!look_to_map in E. simpl in E. by rewrite Z.eqb_refl in E.
  - pose proof (sorted_cons_inv _ _ _ Hs) as [H1 Hk]. pose proof (sorted_cons_inv _ _ _ Hs') as [H1' Hk'].
    assert (Hl : ∀ j, look j ((k, v) :: es) = look j ((k', v') :: es')).
    { intros j. by rewrite !look_to_map, E. }
    assert (k = k') as <-.
    { pose proof (Hl k) as Ek. pose proof (Hl k') as Ek'. simpl in Ek, Ek'. rewrite Z.eqb_refl in Ek, Ek'.
      destruct (Z.eqb_spec k' k); [done|]. rewrite (proj2 (Z.eqb_neq k k')) in Ek' by lia.
      symmetry in Ek. apply look_elem in Ek, Ek'; [|done..]. specialize (Hk _ Ek'). specialize (Hk' _ Ek). simpl in *. lia. }
    pose proof (Hl k) as Ek. simpl in Ek. rewrite Z.eqb_refl in Ek. injection Ek as ->. f_equal. apply IH; [done..|].
    apply map_eq. intros j. rewrite <-!look_to_map. specialize (Hl j). simpl in Hl. destruct (Z.eqb_spec k j) as [Ej|]; [|done].
    rewrite !look_past; [done|intros e He; rewrite <-Ej; by apply Hk'|intros e He; rewrite <-Ej; by apply Hk].
Qed.

Lemma sorted_length es lo hi :
  sorted es → lo ≤ hi → (∀ e, e ∈ es → lo ≤ e.1 < hi) → Z.of_nat (length es) ≤ hi - lo.
Proof.
  revert lo; induction es as [|[k v] es IH]; intros lo Hs Hlo He; simpl; [lia|].
  apply sorted_cons_inv in Hs as [Hs Hk]. pose proof (He (k, v) ltac:(set_solver)) as Hkv. simpl in Hkv.
  assert (Z.of_nat (length es) ≤ hi - (k + 1)); [|lia]. apply IH; [done|lia|].
  intros e Hin. specialize (Hk e Hin). specialize (He e ltac:(set_solver)). lia.
Qed.

Lemma look_ext es es' : sorted es → sorted es' → (∀ k, look k es = look k es') → es = es'.
Proof. intros Hs Hs' Hl. apply sorted_ext; [done..|]. apply map_eq. intros k. by rewrite <-!look_to_map. Qed.

(** ** The entries of some keys *)

Lemma sorted_filter (P : Z * V → Prop) `{!∀ e, Decision (P e)} es : sorted es → sorted (filter P es).
Proof.
  induction es as [|[k v] es IH]; intros Hs; [done|]. apply sorted_cons_inv in Hs as [Hs Hk]. rewrite filter_cons.
  case_decide; [|by apply IH]. rewrite fmap_cons. constructor; [by apply IH|]. apply Forall_fmap, Forall_forall.
  intros e [_ He]%list_elem_of_filter. by apply Hk.
Qed.

Section some_keys.
Context (P : Z → Prop) `{!∀ k, Decision (P k)}.

Lemma look_filter k es : look k (filter (λ e, P e.1) es) = if decide (P k) then look k es else None.
Proof.
  induction es as [|[k' v] es IH]; simpl; [by case_decide|]. rewrite filter_cons. simpl.
  destruct (decide (P k')); simpl; rewrite IH; destruct (Z.eqb_spec k' k) as [->|]; try done; by case_decide.
Qed.

Lemma filter_ins k v es : sorted es →
  filter (λ e, P e.1) (ins k v es) = if decide (P k) then ins k v (filter (λ e, P e.1) es) else filter (λ e, P e.1) es.
Proof.
  intros Hs. pose proof (sorted_filter (λ e, P e.1) es Hs) as Hf. apply look_ext.
  - by apply sorted_filter, sorted_ins.
  - case_decide; [by apply sorted_ins|done].
  - intros j. rewrite look_filter, look_ins by done. destruct (decide (P k)); [rewrite look_ins by done|];
      rewrite look_filter; repeat case_decide; congruence.
Qed.

Lemma filter_del k es : filter (λ e, P e.1) (del k es) = del k (filter (λ e, P e.1) es).
Proof. unfold del. rewrite !list_filter_filter. apply filter_ext_in. tauto. Qed.
End some_keys.
End to_map.
