(* ===== verification/Bytes.v ===== *)
(** * Raw memory: byte buffers, little-endian integers, [memcpy]

    Pages, log records and table files are byte buffers in the program, and
    its structs are overlaid on them with [reinterpret_cast] or [memcpy].  A
    buffer is a list of [ascii] ([char]); a field is a block of it. *)

From Stdlib Require Export Ascii.
From S2P Require Import Prelude.

Abbreviation bytes := (list ascii) (only parsing).

(** ** Definitions *)

(** [std::string] contents as bytes, and back. *)
Definition chars (s : string) : bytes := String.list_ascii_of_string s.
Definition of_chars (b : bytes) : string := String.string_of_list_ascii b.

Definition zeros (n : Z) : bytes := replicate (Z.to_nat n) Ascii.zero.

Definition blen (b : bytes) : Z := Z.of_nat (length b).

(** The [len] bytes at offset [off]. *)
Definition block (b : bytes) (off len : Z) : bytes :=
  take (Z.to_nat len) (drop (Z.to_nat off) b).

(** [memcpy(b + off, src, src.size())] *)
Definition blit (b : bytes) (off : Z) (src : bytes) : bytes :=
  take (Z.to_nat off) b ++ src ++ drop (Z.to_nat off + length src) b.

(** Loads and stores outside the buffer are undefined behaviour. *)
Definition in_range (b : bytes) (off len : Z) : bool :=
  (0 <=? off) && (0 <=? len) && (off + len <=? blen b).

Definition load (b : bytes) (off len : Z) : res bytes :=
  if in_range b off len then Val (block b off len) else Undef.

Definition store (b : bytes) (off : Z) (src : bytes) : res bytes :=
  if in_range b off (blen src) then Val (blit b off src) else Undef.

(** The bytes of an integer, least significant first. *)
Definition byte_of (z : Z) : ascii := ascii_of_N (Z.to_N (z `mod` 256)).
Definition byte_val (a : ascii) : Z := Z.of_N (N_of_ascii a).

Fixpoint le_enc (n : nat) (z : Z) : bytes :=
  match n with
  | O => []
  | S n => byte_of z :: le_enc n (z / 256)
  end.

Fixpoint le_dec (b : bytes) : Z :=
  match b with
  | [] => 0
  | a :: b => byte_val a + 256 * le_dec b
  end.

Definition s32 (z : Z) : Z := (z + 2 ^ 31) `mod` 2 ^ 32 - 2 ^ 31.

(** Fields of the widths the structs use. *)
Definition get_i64 (b : bytes) (off : Z) : Z := s64 (le_dec (block b off 8)).
Definition get_i32 (b : bytes) (off : Z) : Z := s32 (le_dec (block b off 4)).
Definition get_u64 (b : bytes) (off : Z) : Z := le_dec (block b off 8).
Definition get_u32 (b : bytes) (off : Z) : Z := le_dec (block b off 4).
Definition get_u16 (b : bytes) (off : Z) : Z := le_dec (block b off 2).
Definition get_u8 (b : bytes) (off : Z) : Z := le_dec (block b off 1).

Definition put64 (b : bytes) (off z : Z) : bytes := blit b off (le_enc 8 z).
Definition put32 (b : bytes) (off z : Z) : bytes := blit b off (le_enc 4 z).
Definition put16 (b : bytes) (off z : Z) : bytes := blit b off (le_enc 2 z).
Definition put8 (b : bytes) (off z : Z) : bytes := blit b off (le_enc 1 z).

(** Ranges of the machine types. *)
Definition is_i64 (z : Z) : Prop := int64_min ≤ z ≤ int64_max.
Definition is_i32 (z : Z) : Prop := - 2 ^ 31 ≤ z < 2 ^ 31.
Definition is_u64 (z : Z) : Prop := 0 ≤ z < 2 ^ 64.

(** ** Bytes and strings *)

Lemma of_chars_chars s : of_chars (chars s) = s.
Proof. apply String.string_of_list_ascii_of_string. Qed.

Lemma chars_of_chars b : chars (of_chars b) = b.
Proof. apply String.list_ascii_of_string_of_list_ascii. Qed.

Lemma length_chars s : length (chars s) = String.length s.
Proof. induction s; simpl; [done|]. by f_equal. Qed.

Lemma blen_chars s : blen (chars s) = ssize s.
Proof. unfold blen, ssize. by rewrite length_chars. Qed.

Lemma ssize_nonneg s : 0 ≤ ssize s.
Proof. unfold ssize. lia. Qed.

Lemma byte_val_of z : byte_val (byte_of z) = z `mod` 256.
Proof.
  unfold byte_val, byte_of. pose proof (Z.mod_pos_bound z 256).
  rewrite N_ascii_embedding by lia. lia.
Qed.

Lemma byte_val_range a : 0 ≤ byte_val a < 256.
Proof. unfold byte_val. pose proof (N_ascii_bounded a). lia. Qed.

Lemma byte_of_val a : byte_of (byte_val a) = a.
Proof.
  unfold byte_of. rewrite Z.mod_small by apply byte_val_range.
  unfold byte_val. rewrite N2Z.id. apply ascii_N_embedding.
Qed.

(** ** Decimal numerals: [std::to_string], [std::stoll] *)

Definition digit_val (c : ascii) : Z := byte_val c - 48.
Definition digit_of (z : Z) : ascii := byte_of (48 + z).

(** The value of a string of digits. *)
Definition dec_val (b : bytes) : Z := fold_left (λ v c, 10 * v + digit_val c) b 0.

Fixpoint dec_digits (fuel : nat) (z : Z) : bytes :=
  match fuel with
  | O => []
  | S fuel => if z <? 10 then [digit_of z] else dec_digits fuel (z / 10) ++ [digit_of (z `mod` 10)]
  end.

Definition dec_of (z : Z) : bytes :=
  if z <? 0 then "-"%char :: dec_digits (S (Z.to_nat (Z.log2 (- z)))) (- z) else dec_digits (S (Z.to_nat (Z.log2 z))) z.

Definition to_string (z : Z) : string := of_chars (dec_of z).

(** [text] is digits with an optional minus sign in front. *)
Definition stoll (text : bytes) : res Z :=
  let v := match text with c :: b => if (c =? "-")%char then - dec_val b else dec_val text | [] => 0 end in
  if (int64_min <=? v) && (v <=? int64_max) then Val v else Exn (OutOfRange "stoll").

(** [std::isdigit] *)
Definition isdigit (c : ascii) : bool := (48 <=? byte_val c) && (byte_val c <=? 57).

Lemma digit_val_of z : 0 ≤ z < 10 → digit_val (digit_of z) = z.
Proof. intros. unfold digit_val, digit_of. rewrite byte_val_of, Z.mod_small; lia. Qed.

Lemma isdigit_of z : 0 ≤ z < 10 → isdigit (digit_of z) = true.
Proof. intros. unfold isdigit, digit_of. rewrite byte_val_of, Z.mod_small by lia. apply andb_true_iff. lia. Qed.

Lemma dec_digits_spec fuel z :
  0 ≤ z < 2 ^ Z.of_nat fuel → (0 < fuel)%nat →
  dec_val (dec_digits fuel z) = z ∧ Forall (λ c, isdigit c = true) (dec_digits fuel z) ∧ dec_digits fuel z ≠ [].
Proof.
  revert z; induction fuel as [|fuel IH]; intros z Hz Hf; [lia|]. cbn [dec_digits].
  destruct (Z.ltb_spec z 10).
  - split_and!; [|by constructor; [apply isdigit_of; lia|]|done]. unfold dec_val. simpl. rewrite digit_val_of; lia.
  - rewrite Nat2Z.inj_succ, Z.pow_succ_r in Hz by lia.
    pose proof (Z.mod_pos_bound z 10 ltac:(lia)). pose proof (Z.div_mod z 10 ltac:(lia)).
    assert (0 < fuel)%nat by (destruct fuel; [simpl in Hz|]; lia).
    destruct (IH (z / 10)) as (Hv & Hd & _); [lia|done|]. split_and!.
    + unfold dec_val in *. rewrite fold_left_app, Hv. simpl. rewrite digit_val_of by lia. lia.
    + apply Forall_app. split; [done|]. constructor; [by apply isdigit_of|done].
    + by intros [_ ?]%app_nil.
Qed.

(** ** Little-endian integers *)

Lemma length_le_enc n z : length (le_enc n z) = n.
Proof. revert z; induction n; intros; simpl; auto. Qed.

Lemma blen_le_enc n z : blen (le_enc n z) = Z.of_nat n.
Proof. unfold blen. by rewrite length_le_enc. Qed.

Lemma le_dec_enc n z : le_dec (le_enc n z) = z `mod` 2 ^ (8 * Z.of_nat n).
Proof.
  revert z; induction n as [|n IH]; intros z; simpl le_enc; simpl le_dec.
  - by rewrite Z.mod_1_r.
  - rewrite byte_val_of, IH.
    replace (8 * Z.of_nat (S n)) with (8 + 8 * Z.of_nat n) by lia.
    rewrite Z.pow_add_r by lia. change (2 ^ 8) with 256.
    rewrite (Z.rem_mul_r z 256) by lia. lia.
Qed.

Lemma le_dec_range b : 0 ≤ le_dec b < 2 ^ (8 * blen b).
Proof.
  unfold blen. induction b as [|a b IH]; simpl le_dec; [done|].
  replace (8 * Z.of_nat (length (a :: b))) with (8 + 8 * Z.of_nat (length b)) by (simpl; lia).
  rewrite Z.pow_add_r by lia. change (2 ^ 8) with 256.
  pose proof (byte_val_range a). nia.
Qed.

Lemma le_enc_dec b : le_enc (length b) (le_dec b) = b.
Proof.
  induction b as [|a b IH]; simpl; [done|]. pose proof (byte_val_range a).
  f_equal.
  - rewrite <-(byte_of_val a) at 2. unfold byte_of. do 2 f_equal.
    rewrite Z.mul_comm, Z_mod_plus_full. done.
  - rewrite <-IH at 3. f_equal.
    rewrite Z.mul_comm, Z_div_plus_full by lia. rewrite Z.div_small by lia. done.
Qed.

Lemma s64_mod z : is_i64 z → s64 (z `mod` 2 ^ 64) = z.
Proof.
  unfold is_i64, s64, int64_min, int64_max. intros.
  rewrite Zplus_mod_idemp_l. rewrite Z.mod_small; lia.
Qed.

Lemma s32_mod z : is_i32 z → s32 (z `mod` 2 ^ 32) = z.
Proof.
  unfold is_i32, s32. intros. rewrite Zplus_mod_idemp_l. rewrite Z.mod_small; lia.
Qed.

Lemma s64_range z : is_i64 (s64 z).
Proof. unfold is_i64, s64, int64_min, int64_max. pose proof (Z.mod_pos_bound (z + 2 ^ 63) (2 ^ 64)). lia. Qed.

Lemma s64_id z : is_i64 z → s64 z = z.
Proof. unfold is_i64, s64, int64_min, int64_max. intros. rewrite Z.mod_small; lia. Qed.

(** ** Blocks *)

Lemma blen_nonneg b : 0 ≤ blen b.
Proof. unfold blen. lia. Qed.

Lemma blen_app b c : blen (b ++ c) = blen b + blen c.
Proof. unfold blen. rewrite length_app. lia. Qed.

Lemma blen_zeros n : 0 ≤ n → blen (zeros n) = n.
Proof. unfold blen, zeros. rewrite length_replicate. lia. Qed.

Lemma blen_block b off len :
  0 ≤ off → 0 ≤ len → off + len ≤ blen b → blen (block b off len) = len.
Proof. unfold blen, block. rewrite length_take, length_drop. lia. Qed.

Lemma blen_blit b off src :
  0 ≤ off → off + blen src ≤ blen b → blen (blit b off src) = blen b.
Proof. unfold blen, blit. rewrite !length_app, length_take, length_drop. lia. Qed.

Lemma block_all b : block b 0 (blen b) = b.
Proof. unfold block, blen. rewrite Nat2Z.id. simpl. apply take_ge. done. Qed.

Lemma block_block b off len off' len' :
  0 ≤ off → 0 ≤ off' → off' + len' ≤ len →
  block (block b off len) off' len' = block b (off + off') len'.
Proof.
  intros. unfold block. rewrite skipn_firstn_comm, drop_drop, take_take.
  f_equal; [lia|]. f_equal. lia.
Qed.

Lemma block_blit_eq b off src :
  0 ≤ off → off + blen src ≤ blen b → block (blit b off src) off (blen src) = src.
Proof.
  unfold blen. intros. unfold block, blit. rewrite drop_app_length', take_app_length'; [done| |].
  - by rewrite Nat2Z.id.
  - rewrite length_take. lia.
Qed.

Lemma block_blit_ne b off src off' len :
  0 ≤ off → off + blen src ≤ blen b → 0 ≤ off' → 0 ≤ len →
  off' + len ≤ off ∨ off + blen src ≤ off' →
  block (blit b off src) off' len = block b off' len.
Proof.
  unfold blen. intros ???? Hd. unfold block, blit.
  apply list_eq. intros i. destruct (decide (i < Z.to_nat len)%nat) as [Hi|Hi].
  - rewrite !lookup_take_lt, !lookup_drop by done.
    destruct Hd as [Hd|Hd].
    + rewrite lookup_app_l by (rewrite length_take; lia). rewrite lookup_take_lt by lia. done.
    + rewrite lookup_app_r by (rewrite length_take; lia). rewrite length_take.
      rewrite lookup_app_r by lia. rewrite lookup_drop. f_equal. lia.
  - rewrite !lookup_take_ge by lia. done.
Qed.

Lemma block_app_l b c off len :
  0 ≤ off → off + len ≤ blen b → block (b ++ c) off len = block b off len.
Proof.
  unfold blen. intros. unfold block. destruct (decide (len ≤ 0)).
  { replace (Z.to_nat len) with O by lia. done. }
  rewrite drop_app_le by lia. rewrite take_app_le; [done|]. rewrite length_drop. lia.
Qed.

Lemma block_app_r b c off len :
  blen b ≤ off → block (b ++ c) off len = block c (off - blen b) len.
Proof.
  unfold blen. intros. unfold block. rewrite drop_app_ge by lia. do 2 f_equal. lia.
Qed.

Lemma block_zeros n off len :
  0 ≤ off → 0 ≤ len → off + len ≤ n → block (zeros n) off len = zeros len.
Proof.
  intros. unfold block, zeros. rewrite drop_replicate, take_replicate. f_equal. lia.
Qed.

Lemma le_dec_zeros n : le_dec (zeros n) = 0.
Proof. unfold zeros. induction (Z.to_nat n) as [|m IH]; simpl; [done|]. by rewrite IH. Qed.

Lemma in_range_true b off len :
  in_range b off len = true ↔ 0 ≤ off ∧ 0 ≤ len ∧ off + len ≤ blen b.
Proof. unfold in_range. rewrite !andb_true_iff, !Z.leb_le. tauto. Qed.

Lemma load_ok b off len :
  0 ≤ off → 0 ≤ len → off + len ≤ blen b → load b off len = Val (block b off len).
Proof. intros. unfold load. by rewrite (proj2 (in_range_true b off len)). Qed.

Lemma store_ok b off src :
  0 ≤ off → off + blen src ≤ blen b → store b off src = Val (blit b off src).
Proof.
  intros. unfold store. rewrite (proj2 (in_range_true b off (blen src))); [done|].
  pose proof (blen_nonneg src). lia.
Qed.

(** ** Fields *)

Section fields.
Context (b : bytes) (off : Z).
Hypothesis Hoff : 0 ≤ off.

Lemma get_put64_eq z : off + 8 ≤ blen b → is_i64 z → get_i64 (put64 b off z) off = z.
Proof using Hoff.
  intros. unfold get_i64, put64. change 8 with (blen (le_enc 8 z)).
  rewrite block_blit_eq by (done || by rewrite blen_le_enc). rewrite le_dec_enc. by apply s64_mod.
Qed.

Lemma get_put64u_eq z : off + 8 ≤ blen b → is_u64 z → get_u64 (put64 b off z) off = z.
Proof using Hoff.
  intros. unfold get_u64, put64. change 8 with (blen (le_enc 8 z)).
  rewrite block_blit_eq by (done || by rewrite blen_le_enc). rewrite le_dec_enc. by apply Z.mod_small.
Qed.

Lemma get_put32_eq z : off + 4 ≤ blen b → is_i32 z → get_i32 (put32 b off z) off = z.
Proof using Hoff.
  intros. unfold get_i32, put32. change 4 with (blen (le_enc 4 z)).
  rewrite block_blit_eq by (done || by rewrite blen_le_enc). rewrite le_dec_enc. by apply s32_mod.
Qed.

Lemma get_put32u_eq z : off + 4 ≤ blen b → 0 ≤ z < 2 ^ 32 → get_u32 (put32 b off z) off = z.
Proof using Hoff.
  intros. unfold get_u32, put32. change 4 with (blen (le_enc 4 z)).
  rewrite block_blit_eq by (done || by rewrite blen_le_enc). rewrite le_dec_enc. by apply Z.mod_small.
Qed.

Lemma get_put16_eq z : off + 2 ≤ blen b → 0 ≤ z < 2 ^ 16 → get_u16 (put16 b off z) off = z.
Proof using Hoff.
  intros. unfold get_u16, put16. change 2 with (blen (le_enc 2 z)).
  rewrite block_blit_eq by (done || by rewrite blen_le_enc). rewrite le_dec_enc. by apply Z.mod_small.
Qed.

Lemma get_put8_eq z : off + 1 ≤ blen b → 0 ≤ z < 2 ^ 8 → get_u8 (put8 b off z) off = z.
Proof using Hoff.
  intros. unfold get_u8, put8. change 1 with (blen (le_enc 1 z)).
  rewrite block_blit_eq by (done || by rewrite blen_le_enc). rewrite le_dec_enc. by apply Z.mod_small.
Qed.
End fields.
