(* ===== verification/Disk.v ===== *)
(** * DiskManager (storage/disk/disk_manager.h, disk_manager.cpp)

    The heap file is a byte sequence behind [pread], [pwrite], [fsync] and
    [fstat]; page [i] is its bytes from [i * PAGE_SIZE].  What the operating
    system does to a call is part of the file's state: [f_faults] lists, for the
    calls to come, those that it refuses or carries out in part. *)

From S2P Require Import Prelude Bytes.

Module DiskManager.

(** ** The file *)

(** A refused call sets [errno]; a call that transfers only the first [n]
    bytes leaves [errno] as it was.  [e] is the [strerror] text. *)
Inductive fault :=
  | Refused (e : string)
  | Short (n : Z) (e : string).

Record file := File {
  f_data : bytes;
  f_faults : list (option fault);
}.

Definition EINVAL : string := "Invalid argument".

(** Each system call first meets the next entry of [f_faults]; [body] is given
    the count and the [errno] text of a partial transfer. *)
Definition syscall {A} (body : option (Z * string) → bytes → option string + A * bytes) (f : file) :
    (string + A) * file :=
  let fs := tail (f_faults f) in
  let carry_out limit :=
    match body limit (f_data f) with
    | inl e => (inl (default EINVAL e), File (f_data f) fs)
    | inr (a, b) => (inr a, File b fs)
    end in
  match f_faults f with
  | Some (Refused e) :: _ => (inl e, File (f_data f) fs)
  | Some (Short n e) :: _ => carry_out (Some (n, e))
  | _ => carry_out None
  end.

(** A read returns the bytes before the end of the file, at most [count]. *)
Definition pread (count off : Z) : file → (string + bytes) * file :=
  syscall (λ limit b, if off <? 0 then inl None else
    let data := block b off count in
    inr (match limit with Some (n, _) => block data 0 n | None => data end, b)).

(** A write past the end fills the gap with zero bytes. *)
Definition extend (b : bytes) (n : Z) : bytes := b ++ zeros (n - blen b).

(** The count of the bytes written, and the [errno] text the caller finds. *)
Definition pwrite (src : bytes) (off : Z) : file → (string + Z * string) * file :=
  syscall (λ limit b, if off <? 0 then inl None else
    let '(src, e) := match limit with Some (n, e) => (block src 0 n, e) | None => (src, EmptyString) end in
    inr ((blen src, e), blit (extend b (off + blen src)) off src)).

Definition fstat_size : file → (string + Z) * file :=
  syscall (λ _ b, inr (blen b, b)).

Definition fsync : file → (string + ()) * file :=
  syscall (λ _ b, inr (tt, b)).

Definition open_ : file → (string + ()) * file :=
  syscall (λ _ b, inr (tt, b)).

(** ** The class *)

Record t := mk {
  fd_ : file;
  file_name_ : string;
  next_page_id_ : page_id_t;
  num_reads_ : Z;
  num_writes_ : Z;
}.

Definition set_fd (f : file) (d : t) : t :=
  mk f (file_name_ d) (next_page_id_ d) (num_reads_ d) (num_writes_ d).
Definition count_read (d : t) : t :=
  mk (fd_ d) (file_name_ d) (next_page_id_ d) (num_reads_ d + 1) (num_writes_ d).
Definition count_write (d : t) : t :=
  mk (fd_ d) (file_name_ d) (next_page_id_ d) (num_reads_ d) (num_writes_ d + 1).

(** The constructor, run on the file as the operating system has it. *)
Definition Open (db_file : string) (f : file) : res t * file :=
  let '(r, f) := open_ f in
  match r with
  | inl e =>
      (Exn (IOException ("DiskManager: failed to open db file '" +:+ db_file +:+ "': " +:+ e)), f)
  | inr _ =>
      let '(r, f) := fstat_size f in
      match r with
      | inl e =>
          (Exn (IOException ("DiskManager: fstat failed for '" +:+ db_file +:+ "': " +:+ e)), f)
      | inr st_size => (Val (mk f db_file ((st_size + PAGE_SIZE - 1) / PAGE_SIZE) 0 0), f)
      end
  end.

(** Runs a system call on the descriptor. *)
Definition on_fd {A} (call : file → (string + A) * file) : M t (string + A) := λ d,
  let '(r, f) := call (fd_ d) in (Val r, set_fd f d).

(** [static_cast<off_t>(page_id) * static_cast<off_t>(PAGE_SIZE)]: signed
    overflow is undefined. *)
Definition offset_of (page_id : page_id_t) : M t Z :=
  let off := page_id * PAGE_SIZE in
  if (int64_min <=? off) && (off <=? int64_max) then mret off else undefined.

Definition ReadPage (page_id : page_id_t) : M t bytes :=
  offset ← offset_of page_id;
  r ← on_fd (pread PAGE_SIZE offset);
  match r with
  | inl e =>
      throw (IOException ("DiskManager: read failed for page " +:+ to_string page_id +:+ ": " +:+ e))
  | inr data =>
      modify count_read;;
      mret (if blen data <? PAGE_SIZE then data ++ zeros (PAGE_SIZE - blen data) else data)
  end.

(** [page_data] points to at least [PAGE_SIZE] bytes, or [pwrite] reads past
    the buffer. *)
Definition WritePage (page_id : page_id_t) (page_data : bytes) : M t () :=
  offset ← offset_of page_id;
  if blen page_data <? PAGE_SIZE then undefined else
  r ← on_fd (pwrite (block page_data 0 PAGE_SIZE) offset);
  let fail e :=
    throw (IOException ("DiskManager: write failed for page " +:+ to_string page_id +:+ ": " +:+ e)) in
  match r with
  | inl e => fail e
  | inr (n, e) => if n =? PAGE_SIZE then modify count_write else fail e
  end.

Definition Sync : M t () :=
  r ← on_fd fsync;
  match r with
  | inl e => throw (IOException ("DiskManager: fsync failed: " +:+ e))
  | inr _ => mret tt
  end.

Definition AllocatePage : M t page_id_t :=
  d ← get;
  put (mk (fd_ d) (file_name_ d) (next_page_id_ d + 1) (num_reads_ d) (num_writes_ d));;
  mret (next_page_id_ d).

Definition GetNumPages (d : t) : Z := next_page_id_ d.

(** ** What the file says *)

(** Page [p] as a reader sees it: bytes the file does not have are zero. *)
Definition page_of (b : bytes) (p : page_id_t) : bytes :=
  let d := block b (p * PAGE_SIZE) PAGE_SIZE in d ++ zeros (PAGE_SIZE - blen d).

Definition contents (d : t) : page_id_t → bytes := page_of (f_data (fd_ d)).

Definition healthy (d : t) : Prop := f_faults (fd_ d) = [].

(** Calls succeed and the file ends before the pages not yet allocated. *)
Definition sound (d : t) : Prop := healthy d ∧ blen (f_data (fd_ d)) ≤ next_page_id_ d * PAGE_SIZE.

(** Page ids whose byte offsets fit [off_t]. *)
Definition valid_id (p : page_id_t) : Prop := 0 ≤ p ∧ p * PAGE_SIZE + PAGE_SIZE ≤ int64_max.

(** ** Theory *)

Lemma blen_page_of b p : 0 ≤ p → blen (page_of b p) = PAGE_SIZE.
Proof.
  intros. unfold page_of. rewrite blen_app.
  assert (blen (block b (p * PAGE_SIZE) PAGE_SIZE) ≤ PAGE_SIZE).
  { unfold blen, block. rewrite length_take. unfold PAGE_SIZE. lia. }
  rewrite blen_zeros by lia. lia.
Qed.

Lemma offset_of_ok p d : valid_id p → offset_of p d = (Val (p * PAGE_SIZE), d).
Proof.
  intros [??]. unfold offset_of, PAGE_SIZE in *.
  rewrite (proj2 (andb_true_iff _ _)); [done|].
  unfold int64_min, int64_max in *. rewrite !Z.leb_le. lia.
Qed.

Lemma ReadPage_ok p d :
  healthy d → valid_id p →
  ReadPage p d = (Val (contents d p), count_read d).
Proof.
  intros Hh Hp. unfold ReadPage, mbind, M_bind. rewrite offset_of_ok by done.
  destruct d as [[data fs] nm nx nr nw]; unfold healthy in Hh; simpl in Hh; subst.
  unfold on_fd, pread, syscall. cbn -[PAGE_SIZE]. destruct Hp as [??].
  rewrite (proj2 (Z.ltb_ge (p * PAGE_SIZE) 0)) by (unfold PAGE_SIZE; lia).
  cbn -[PAGE_SIZE]. unfold contents, page_of. cbn -[PAGE_SIZE]. unfold count_read, set_fd; simpl.
  do 2 f_equal.
  set (x := block data (p * PAGE_SIZE) PAGE_SIZE).
  assert (blen x ≤ PAGE_SIZE).
  { unfold x, blen, block. rewrite length_take. unfold PAGE_SIZE. lia. }
  destruct (Z.ltb_spec (blen x) PAGE_SIZE); [done|].
  replace (PAGE_SIZE - blen x) with 0 by lia. by rewrite app_nil_r.
Qed.

(** The file after a page has been written. *)
Definition write_file (b : bytes) (p : page_id_t) (x : bytes) : bytes :=
  blit (extend b (p * PAGE_SIZE + blen x)) (p * PAGE_SIZE) x.

Lemma WritePage_ok p x d :
  healthy d → valid_id p → blen x = PAGE_SIZE →
  WritePage p x d =
    (Val tt, count_write (set_fd (File (write_file (f_data (fd_ d)) p x) []) d)).
Proof.
  intros Hh Hp Hx. unfold WritePage, mbind, M_bind. rewrite offset_of_ok by done.
  destruct d as [[data fs] nm nx nr nw]; unfold healthy in Hh; simpl in Hh; subst.
  rewrite (proj2 (Z.ltb_ge _ _)) by lia. replace (block x 0 PAGE_SIZE) with x by (rewrite <-Hx; symmetry; apply block_all).
  unfold on_fd, pwrite, syscall. cbn -[PAGE_SIZE]. destruct Hp as [??].
  rewrite (proj2 (Z.ltb_ge (p * PAGE_SIZE) 0)) by (unfold PAGE_SIZE; lia).
  cbn -[PAGE_SIZE]. rewrite Hx, Z.eqb_refl. cbn -[PAGE_SIZE].
  unfold write_file, modify. by rewrite Hx.
Qed.

Lemma blen_extend b n : blen (extend b n) = Z.max (blen b) n.
Proof.
  unfold extend. rewrite blen_app. destruct (decide (0 ≤ n - blen b)).
  - rewrite blen_zeros by lia. lia.
  - unfold zeros. replace (Z.to_nat (n - blen b)) with O by lia.
    replace (blen (replicate 0 zero)) with 0 by done. lia.
Qed.

Lemma blen_write_file b p x :
  0 ≤ p → blen (write_file b p x) = Z.max (blen b) (p * PAGE_SIZE + blen x).
Proof.
  intros Hp. unfold write_file. pose proof (blen_extend b (p * PAGE_SIZE + blen x)) as He.
  rewrite blen_blit; [done|unfold PAGE_SIZE; lia|lia].
Qed.

(** Reading page bytes: the file's, or zero past its end. *)
Lemma lookup_page_of b p i :
  0 ≤ p → (i < Z.to_nat PAGE_SIZE)%nat →
  page_of b p !! i = Some (default zero (b !! (Z.to_nat (p * PAGE_SIZE) + i)%nat)).
Proof.
  intros Hp Hi. unfold page_of, block, zeros, blen.
  destruct (decide (Z.to_nat (p * PAGE_SIZE) + i < length b)%nat) as [Hlt|Hge].
  - rewrite lookup_app_l by (rewrite length_take, length_drop; lia).
    rewrite lookup_take_lt, lookup_drop by done.
    apply lookup_lt_is_Some in Hlt as [x Hx]. by rewrite Hx.
  - rewrite lookup_app_r by (rewrite length_take, length_drop; lia).
    rewrite length_take, length_drop. rewrite (proj2 (lookup_ge_None b _)) by lia.
    rewrite lookup_replicate_2; [done|]. lia.
Qed.

Lemma page_of_ext b b' p :
  0 ≤ p →
  (∀ i, (i < Z.to_nat PAGE_SIZE)%nat →
     default zero (b !! (Z.to_nat (p * PAGE_SIZE) + i)%nat) =
     default zero (b' !! (Z.to_nat (p * PAGE_SIZE) + i)%nat)) →
  page_of b p = page_of b' p.
Proof.
  intros Hp H. apply list_eq. intros i.
  destruct (decide (i < Z.to_nat PAGE_SIZE)%nat) as [Hi|Hi].
  - rewrite !lookup_page_of by done. by rewrite H.
  - pose proof (blen_page_of b p Hp). pose proof (blen_page_of b' p Hp). unfold blen in *.
    rewrite !(proj2 (lookup_ge_None _ _)) by lia. done.
Qed.

Lemma lookup_extend b n j : default zero (extend b n !! j) = default zero (b !! j).
Proof.
  unfold extend, zeros. rewrite lookup_app. destruct (b !! j); [done|]. simpl.
  destruct (replicate _ _ !! _) eqn:E; [|done]. by apply lookup_replicate in E as [-> _].
Qed.

Lemma page_of_write_eq b p x :
  0 ≤ p → blen x = PAGE_SIZE → page_of (write_file b p x) p = x.
Proof.
  intros Hp Hx. unfold page_of.
  assert (block (write_file b p x) (p * PAGE_SIZE) PAGE_SIZE = x) as ->.
  { unfold write_file. rewrite <-Hx at 4.
    apply block_blit_eq; rewrite ?blen_extend; unfold PAGE_SIZE in *; lia. }
  rewrite Hx, Z.sub_diag. apply app_nil_r.
Qed.

Lemma page_of_write_ne b p q x :
  0 ≤ p → 0 ≤ q → p ≠ q → blen x = PAGE_SIZE →
  page_of (write_file b p x) q = page_of b q.
Proof.
  intros Hp Hq Hne Hx. apply page_of_ext; [done|]. intros i Hi.
  rewrite <-(lookup_extend b (p * PAGE_SIZE + blen x)). unfold write_file.
  pose proof (blen_extend b (p * PAGE_SIZE + blen x)) as Hlen.
  set (e := extend b _) in *. f_equal. unfold blit, blen, PAGE_SIZE in *.
  destruct (decide (q < p)).
  - rewrite lookup_app_l by (rewrite length_take; lia). rewrite lookup_take_lt by lia. done.
  - rewrite lookup_app_r by (rewrite length_take; lia). rewrite length_take.
    rewrite lookup_app_r by lia. rewrite lookup_drop. f_equal. lia.
Qed.

End DiskManager.
