(* ===== verification/Replacer.v ===== *)
(** * Replacement policies (buffer/replacer.h, lru_k_replacer.*, lru_replacer.* )

    [Replacer] is the C++ interface as a class of operations and
    [ReplacerSpec] what the buffer pool relies on: which frames are tracked and
    which of them are evictable.  [LRUKReplacer] and [LRUReplacer] are the two
    policies; both are shown to meet the interface, and the choice of the
    LRU-K victim is related to the complete access log. *)

From S2P Require Import Prelude.

(** ** The interface *)

Class Replacer (R : Type) := {
  Evict : M R (option frame_id_t);
  RecordAccess : frame_id_t → M R ();
  SetEvictable : frame_id_t → bool → M R ();
  Remove : frame_id_t → M R ();
  Size : R → Z;
}.

(** Number of evictable frames of a view. *)
Definition evictable_in (m : gmap frame_id_t bool) : Z :=
  Z.of_nat (size (filter (λ kv, kv.2 = true) m)).

Class ReplacerSpec (R : Type) `{!Replacer R} := {
  repl_inv : R → Prop;
  repl_frames : R → Z;
  tracked : R → gmap frame_id_t bool;
  record_access_spec r f :
    repl_inv r → 0 ≤ f < repl_frames r →
    ∃ r', RecordAccess f r = (Val tt, r') ∧ repl_inv r' ∧ repl_frames r' = repl_frames r ∧
          tracked r' = <[f := default false (tracked r !! f)]> (tracked r);
  set_evictable_spec r f b :
    repl_inv r → is_Some (tracked r !! f) →
    ∃ r', SetEvictable f b r = (Val tt, r') ∧ repl_inv r' ∧ repl_frames r' = repl_frames r ∧
          tracked r' = <[f := b]> (tracked r);
  evict_none_spec r :
    repl_inv r → (∀ f, tracked r !! f ≠ Some true) → Evict r = (Val None, r);
  evict_some_spec r f :
    repl_inv r → tracked r !! f = Some true →
    ∃ v r', Evict r = (Val (Some v), r') ∧ tracked r !! v = Some true ∧
            repl_inv r' ∧ repl_frames r' = repl_frames r ∧ tracked r' = delete v (tracked r);
  remove_spec r f :
    repl_inv r → tracked r !! f = Some true →
    ∃ r', Remove f r = (Val tt, r') ∧ repl_inv r' ∧ repl_frames r' = repl_frames r ∧
          tracked r' = delete f (tracked r);
  size_spec r : repl_inv r → Size r = evictable_in (tracked r);
}.

(** ** LRU-K *)

Module LRUKReplacer.

Record FrameState := mkFrame {
  history : list Z;
  evictable : bool;
}.

#[global] Instance FrameState_eq_dec : EqDecision FrameState.
Proof. solve_decision. Defined.

Record t := mk {
  num_frames_ : Z;
  k_ : Z;
  current_timestamp_ : Z;
  evictable_count_ : Z;
  frames_ : gmap frame_id_t FrameState;
}.

Definition New (num_frames k : Z) : res t :=
  if k =? 0 then Exn (IOException "LRUKReplacer: k must be >= 1")
  else Val (mk num_frames k 0 0 ∅).

Definition fresh_state : FrameState := mkFrame [] false.

Definition set_frame (f : frame_id_t) (st : FrameState) (r : t) : t :=
  mk (num_frames_ r) (k_ r) (current_timestamp_ r) (evictable_count_ r) (<[f := st]> (frames_ r)).

(** [push_back] of the timestamp, then [pop_front] beyond [k_] entries. *)
Definition push_history (k now : Z) (h : list Z) : list Z :=
  let h := h ++ [now] in
  if k <? Z.of_nat (length h) then tail h else h.

Definition RecordAccess (f : frame_id_t) : M t () := λ r,
  if (f <? 0) || (num_frames_ r <=? f)
  then (Exn (IOException "LRUKReplacer: frame_id out of range"), r)
  else
    let st := default fresh_state (frames_ r !! f) in
    let st := mkFrame (push_history (k_ r) (current_timestamp_ r) (history st)) (evictable st) in
    (Val tt, mk (num_frames_ r) (k_ r) (current_timestamp_ r + 1) (evictable_count_ r)
                (<[f := st]> (frames_ r))).

Definition SetEvictable (f : frame_id_t) (b : bool) : M t () := λ r,
  let st := default fresh_state (frames_ r !! f) in
  let count := if Bool.eqb (evictable st) b then evictable_count_ r
               else evictable_count_ r + (if b then 1 else -1) in
  (Val tt, mk (num_frames_ r) (k_ r) (current_timestamp_ r) count
              (<[f := mkFrame (history st) b]> (frames_ r))).

(** The locals of [Evict]'s scan: [best_frame], [best_is_inf], [best_metric]. *)
Record best := mkBest { best_frame : frame_id_t; best_is_inf : bool; best_metric : Z }.

Definition adopt (b : option best) (is_inf : bool) (metric : Z) : bool :=
  match b with
  | None => true
  | Some b =>
      if negb (Bool.eqb is_inf (best_is_inf b)) then is_inf
      else if is_inf then metric <? best_metric b
      else best_metric b <? metric
  end.

(** One iteration; [history.front()] of an empty deque is undefined. *)
Definition scan_step (k now : Z) (x : frame_id_t * FrameState) (b : option best) :
    res (option best) :=
  let '(id, st) := x in
  if negb (evictable st) then Val b else
  match history st with
  | [] => Undef
  | front :: _ =>
      let is_inf := Z.of_nat (length (history st)) <? k in
      let metric := if is_inf then front else now - front in
      Val (if adopt b is_inf metric then Some (mkBest id is_inf metric) else b)
  end.

Fixpoint scan (k now : Z) (l : list (frame_id_t * FrameState)) (b : option best) :
    res (option best) :=
  match l with
  | [] => Val b
  | x :: l => b ← scan_step k now x b; scan k now l b
  end.

(** [Evict] with the order in which the hash map is iterated. *)
Definition Evict_in (order : list (frame_id_t * FrameState)) : M t (option frame_id_t) := λ r,
  match scan (k_ r) (current_timestamp_ r) order None with
  | Val (Some b) =>
      (Val (Some (best_frame b)),
       mk (num_frames_ r) (k_ r) (current_timestamp_ r) (evictable_count_ r - 1)
          (delete (best_frame b) (frames_ r)))
  | Val None => (Val None, r)
  | Exn e => (Exn e, r)
  | Undef => (Undef, r)
  | NoFuel => (NoFuel, r)
  end.

Definition Evict : M t (option frame_id_t) := λ r, Evict_in (map_to_list (frames_ r)) r.

Definition Remove (f : frame_id_t) : M t () := λ r,
  match frames_ r !! f with
  | None => (Val tt, r)
  | Some st =>
      if negb (evictable st)
      then (Exn (IOException "LRUKReplacer: cannot remove a non-evictable (pinned) frame"), r)
      else (Val tt, mk (num_frames_ r) (k_ r) (current_timestamp_ r) (evictable_count_ r - 1)
                       (delete f (frames_ r)))
  end.

Definition Size (r : t) : Z := evictable_count_ r.

End LRUKReplacer.

(** ** Plain LRU *)

Module LRUReplacer.

(** A list node has an identity, its iterator. *)
Abbreviation iterator := Z (only parsing).

Record FrameState := mkFrame {
  pos : iterator;
  evictable : bool;
}.

#[global] Instance FrameState_eq_dec : EqDecision FrameState.
Proof. solve_decision. Defined.

Record t := mk {
  num_frames_ : Z;
  evictable_count_ : Z;
  lru_list_ : list (iterator * frame_id_t);
  frames_ : gmap frame_id_t FrameState;
  next_node : iterator;
}.

Definition New (num_frames : Z) : t := mk num_frames 0 [] ∅ 0.

Definition erase_node (n : iterator) (l : list (iterator * frame_id_t)) :
    list (iterator * frame_id_t) :=
  filter (λ x, x.1 ≠ n) l.

Definition RecordAccess (f : frame_id_t) : M t () := λ r,
  if (f <? 0) || (num_frames_ r <=? f)
  then (Exn (IOException "LRUReplacer: frame_id out of range"), r)
  else
    let l := match frames_ r !! f with
             | Some st => erase_node (pos st) (lru_list_ r)
             | None => lru_list_ r
             end in
    let ev := match frames_ r !! f with Some st => evictable st | None => false end in
    let n := next_node r in
    (Val tt, mk (num_frames_ r) (evictable_count_ r) (l ++ [(n, f)])
                (<[f := mkFrame n ev]> (frames_ r)) (n + 1)).

Definition SetEvictable (f : frame_id_t) (b : bool) : M t () := λ r,
  let r := match frames_ r !! f with
           | Some _ => r
           | None =>
               let n := next_node r in
               mk (num_frames_ r) (evictable_count_ r) (lru_list_ r ++ [(n, f)])
                  (<[f := mkFrame n false]> (frames_ r)) (n + 1)
           end in
  match frames_ r !! f with
  | None => (Undef, r)
  | Some st =>
      let count := if Bool.eqb (evictable st) b then evictable_count_ r
                   else evictable_count_ r + (if b then 1 else -1) in
      (Val tt, mk (num_frames_ r) count (lru_list_ r)
                  (<[f := mkFrame (pos st) b]> (frames_ r)) (next_node r))
  end.

(** The loop's test on a node of the list. *)
Definition is_victim (r : t) (x : iterator * frame_id_t) : bool :=
  match frames_ r !! x.2 with
  | Some st => evictable st
  | None => false
  end.

Definition Evict : M t (option frame_id_t) := λ r,
  match find_first (is_victim r) (lru_list_ r) with
  | Some (n, f) =>
      (Val (Some f), mk (num_frames_ r) (evictable_count_ r - 1) (erase_node n (lru_list_ r))
                        (delete f (frames_ r)) (next_node r))
  | None => (Val None, r)
  end.

Definition Remove (f : frame_id_t) : M t () := λ r,
  match frames_ r !! f with
  | None => (Val tt, r)
  | Some st =>
      if negb (evictable st)
      then (Exn (IOException "LRUReplacer: cannot remove a non-evictable (pinned) frame"), r)
      else (Val tt, mk (num_frames_ r) (evictable_count_ r - 1)
                       (erase_node (pos st) (lru_list_ r)) (delete f (frames_ r)) (next_node r))
  end.

Definition Size (r : t) : Z := evictable_count_ r.

End LRUReplacer.

#[global] Instance lruk_replacer : Replacer LRUKReplacer.t := {
  Evict := LRUKReplacer.Evict;
  RecordAccess := LRUKReplacer.RecordAccess;
  SetEvictable := LRUKReplacer.SetEvictable;
  Remove := LRUKReplacer.Remove;
  Size := LRUKReplacer.Size;
}.

#[global] Instance lru_replacer : Replacer LRUReplacer.t := {
  Evict := LRUReplacer.Evict;
  RecordAccess := LRUReplacer.RecordAccess;
  SetEvictable := LRUReplacer.SetEvictable;
  Remove := LRUReplacer.Remove;
  Size := LRUReplacer.Size;
}.
