(* ===== verification/ReplacerTheory.v ===== *)
(** * Replacement policies: invariants, the interface, the LRU-K victim *)

From S2P Require Import Prelude Replacer.

(** ** Counting evictable frames *)

Lemma evictable_in_delete (m : gmap frame_id_t bool) f :
  evictable_in m = evictable_in (delete f m) + (if m !! f is Some true then 1 else 0).
Proof.
  unfold evictable_in. rewrite map_filter_delete.
  destruct (m !! f) as [b|] eqn:E.
  - destruct b.
    + assert (is_Some (filter (λ kv : frame_id_t * bool, kv.2 = true) m !! f)) as Hs.
      { exists true. by apply map_lookup_filter_Some_2. }
      rewrite map_size_delete_Some by done. pose proof (map_size_ne_0_lookup_2 _ _ Hs). lia.
    + rewrite map_size_delete_None; [lia|]. rewrite map_lookup_filter, E. done.
  - rewrite map_size_delete_None; [lia|]. rewrite map_lookup_filter, E. done.
Qed.

Lemma evictable_in_insert (m : gmap frame_id_t bool) f (b : bool) :
  evictable_in (<[f := b]> m) = evictable_in (delete f m) + (if b then 1 else 0).
Proof.
  rewrite (evictable_in_delete _ f), delete_insert_eq, lookup_insert_eq. by destruct b.
Qed.

(** ** LRU-K *)

Module LRUKTheory.
Import LRUKReplacer.

(** The complete access log: per tracked frame, every access since it was
    last untracked, oldest first, and whether it is evictable. *)
Abbreviation log := (gmap frame_id_t (list Z * bool)) (only parsing).

Definition lastn (k : Z) (h : list Z) : list Z := drop (length h - Z.to_nat k) h.

Record log_ok (n now : Z) (f : frame_id_t) (h : list Z) : Prop := {
  lk_frame : 0 ≤ f < n;
  lk_ne : h ≠ [];
  lk_range : ∀ x, x ∈ h → 0 ≤ x < now;
}.

Record rel (r : t) (L : log) : Prop := {
  rel_k : 1 ≤ k_ r;
  rel_now : 0 ≤ current_timestamp_ r;
  rel_frames : frames_ r = (λ x, mkFrame (lastn (k_ r) x.1) x.2) <$> L;
  rel_ok f h e : L !! f = Some (h, e) → log_ok (num_frames_ r) (current_timestamp_ r) f h;
  rel_disj f g h h' e e' x :
    L !! f = Some (h, e) → L !! g = Some (h', e') → x ∈ h → x ∈ h' → f = g;
  rel_count : evictable_count_ r = evictable_in (snd <$> L);
}.

Definition view (r : t) : gmap frame_id_t bool := evictable <$> frames_ r.

Lemma rel_view r L : rel r L → view r = snd <$> L.
Proof. intros H. unfold view. by rewrite (rel_frames _ _ H), <-map_fmap_compose. Qed.

(** The capped deque holds the last [k] accesses of the log. *)
Lemma push_history_lastn k now h :
  1 ≤ k → push_history k now (lastn k h) = lastn k (h ++ [now]).
Proof.
  intros Hk. unfold push_history, lastn. rewrite !length_app, length_drop. simpl.
  destruct (decide (Z.to_nat k ≤ length h)%nat) as [Hl|Hl].
  - rewrite (proj2 (Z.ltb_lt _ _)) by lia.
    replace (length h + 1 - Z.to_nat k)%nat with (S (length h - Z.to_nat k)) by lia.
    rewrite drop_app_le by lia.
    destruct (drop (length h - Z.to_nat k) h) as [|x l] eqn:E.
    { apply (f_equal length) in E. rewrite length_drop in E. simpl in E. lia. }
    simpl. f_equal. rewrite <-Nat.add_1_r, <-drop_drop, E. done.
  - rewrite (proj2 (Z.ltb_ge _ _)) by lia.
    replace (length h + 1 - Z.to_nat k)%nat with 0%nat by lia.
    replace (length h - Z.to_nat k)%nat with 0%nat by lia. done.
Qed.

Lemma rel_new n k r : 0 < k → New n k = Val r → rel r ∅.
Proof.
  unfold New. intros Hk. rewrite (proj2 (Z.eqb_neq k 0)) by lia. intros [= <-].
  split; simpl; try done; lia.
Qed.

Definition log_access (now : Z) (f : frame_id_t) (L : log) : log :=
  let '(h, e) := default ([], false) (L !! f) in <[f := (h ++ [now], e)]> L.

Definition log_set (f : frame_id_t) (b : bool) (L : log) : log :=
  let '(h, e) := default ([], false) (L !! f) in <[f := (h, b)]> L.

Lemma fst_frames r L f :
  rel r L →
  default fresh_state (frames_ r !! f) =
    let '(h, e) := default ([], false) (L !! f) in mkFrame (lastn (k_ r) h) e.
Proof. intros H. rewrite (rel_frames _ _ H), lookup_fmap. destruct (L !! f) as [[h e]|]; done. Qed.

Lemma RecordAccess_rel r L f :
  rel r L → 0 ≤ f < num_frames_ r →
  ∃ r', RecordAccess f r = (Val tt, r') ∧ num_frames_ r' = num_frames_ r ∧
        rel r' (log_access (current_timestamp_ r) f L).
Proof.
  intros H Hf. unfold RecordAccess.
  rewrite (proj2 (orb_false_iff _ _)) by (rewrite Z.ltb_ge, Z.leb_gt; lia).
  eexists. split_and!; [done|done|]. rewrite (fst_frames _ _ _ H). unfold log_access.
  pose proof (rel_now _ _ H). pose proof (rel_k _ _ H) as Hk.
  destruct (default ([], false) (L !! f)) as [h e] eqn:E. simpl.
  assert (Hh : ∀ x, x ∈ h → 0 ≤ x < current_timestamp_ r ∧ ∃ e, L !! f = Some (h, e)).
  { destruct (L !! f) as [[h0 e0]|] eqn:EL; simplify_eq/=; [|set_solver].
    intros x Hx. split; [by apply (lk_range _ _ _ _ (rel_ok _ _ H _ _ _ EL))|eauto]. }
  split; simpl; try done; try lia.
  - by rewrite fmap_insert, <-(rel_frames _ _ H), push_history_lastn.
  - intros g h' e'. rewrite lookup_insert_Some. intros [[<- [= <- <-]]|[Hne Hg]].
    + split; [done|by destruct h|]. intros x [Hx| ->]%elem_of_snoc; [|lia].
      specialize (Hh x Hx). lia.
    + destruct (rel_ok _ _ H _ _ _ Hg) as [?? Hr]. split; [done..|].
      intros x Hx. specialize (Hr x Hx). lia.
  - intros g1 g2 h1 h2 e1 e2 x. rewrite !lookup_insert_Some.
    assert (Hold : ∀ g h' e', L !! g = Some (h', e') → x ∈ h' → x ∈ h ++ [current_timestamp_ r] → f = g).
    { intros g h' e' Hg Hx [Hx'| ->]%elem_of_snoc.
      - destruct (Hh x Hx') as [_ [e0 EL]]. by eapply (rel_disj _ _ H).
      - pose proof (lk_range _ _ _ _ (rel_ok _ _ H _ _ _ Hg) _ Hx). lia. }
    intros [[<- [= <- <-]]|[? Hg1]] [[<- [= <- <-]]|[? Hg2]] Hx1 Hx2; eauto.
    + symmetry. eauto.
    + by eapply (rel_disj _ _ H).
  - rewrite fmap_insert, evictable_in_insert, (rel_count _ _ H), (evictable_in_delete _ f). simpl.
    rewrite lookup_fmap. destruct (L !! f) as [[h0 e0]|]; simplify_eq/=; [by destruct e|done].
Qed.

Lemma SetEvictable_rel r L f b :
  rel r L → is_Some (L !! f) →
  ∃ r', SetEvictable f b r = (Val tt, r') ∧ num_frames_ r' = num_frames_ r ∧ rel r' (log_set f b L).
Proof.
  intros H [[h e] Hf]. unfold SetEvictable. eexists. split_and!; [done|done|].
  rewrite (fst_frames _ _ _ H). unfold log_set. rewrite Hf. simpl.
  destruct H as [Hk Hnow Hfr Hok Hd Hc]. split; simpl; try done.
  - by rewrite fmap_insert, <-Hfr.
  - intros g h' e'. rewrite lookup_insert_Some. intros [[<- [= <- <-]]|[Hne Hg]]; eauto.
  - intros g1 g2 h1 h2 e1 e2 x. rewrite !lookup_insert_Some.
    intros [[<- [= <- <-]]|[? Hg1]] [[<- [= <- <-]]|[? Hg2]] Hx1 Hx2; eauto.
  - rewrite fmap_insert, evictable_in_insert, Hc, (evictable_in_delete _ f). simpl.
    rewrite lookup_fmap, Hf. simpl. destruct e, b; simpl; lia.
Qed.

Lemma delete_rel r L f h :
  rel r L → L !! f = Some (h, true) →
  rel (mk (num_frames_ r) (k_ r) (current_timestamp_ r) (evictable_count_ r - 1)
          (delete f (frames_ r))) (delete f L).
Proof.
  intros [Hk Hnow Hfr Hok Hd Hc] Hf. split; simpl; try done.
  - by rewrite fmap_delete, <-Hfr.
  - intros g h' e' [_ Hg]%lookup_delete_Some. eauto.
  - intros g1 g2 h1 h2 e1 e2 x [_ Hg1]%lookup_delete_Some [_ Hg2]%lookup_delete_Some. eauto.
  - rewrite fmap_delete, Hc, (evictable_in_delete _ f), lookup_fmap, Hf. simpl. lia.
Qed.

(** *** The scan *)

(** The candidate a frame gives, and its rank: frames with fewer than [k]
    accesses above all others, then by the age of the oldest kept access. *)
Definition cand (k now : Z) (x : frame_id_t * FrameState) : best :=
  let front := default 0 (head (history x.2)) in
  let is_inf := Z.of_nat (length (history x.2)) <? k in
  mkBest x.1 is_inf (if is_inf then front else now - front).

Definition rank (k now : Z) (x : frame_id_t * FrameState) : Z :=
  let front := default 0 (head (history x.2)) in
  (if Z.of_nat (length (history x.2)) <? k then now + 1 else 0) - front.

Definition scannable (now : Z) (x : frame_id_t * FrameState) : Prop :=
  history x.2 ≠ [] ∧ 0 ≤ default 0 (head (history x.2)) < now.

Lemma adopt_rank k now x y :
  scannable now x → scannable now y →
  adopt (Some (cand k now y)) (best_is_inf (cand k now x)) (best_metric (cand k now x)) =
  (rank k now y <? rank k now x).
Proof.
  intros [_ Hx] [_ Hy]. unfold adopt, cand, rank. simpl.
  destruct (Z.of_nat (length (history x.2)) <? k), (Z.of_nat (length (history y.2)) <? k);
    simpl; symmetry.
  - destruct (Z.ltb_spec (default 0 (head (history x.2))) (default 0 (head (history y.2))));
      [apply Z.ltb_lt|apply Z.ltb_ge]; lia.
  - apply Z.ltb_lt. lia.
  - apply Z.ltb_ge. lia.
  - destruct (Z.ltb_spec (now - default 0 (head (history y.2))) (now - default 0 (head (history x.2))));
      [apply Z.ltb_lt|apply Z.ltb_ge]; lia.
Qed.

Lemma scan_step_cand k now x b :
  evictable x.2 = true → history x.2 ≠ [] →
  scan_step k now x b =
    Val (if adopt b (best_is_inf (cand k now x)) (best_metric (cand k now x))
         then Some (cand k now x) else b).
Proof. destruct x as [id [[|fr h] e]]; simpl; [done|]. by intros ->. Qed.

Lemma scan_fold k now l b :
  (∀ x, x ∈ l → scannable now x) → (∀ y, b = Some y → scannable now y) →
  scan k now l (cand k now <$> b) =
    Val (cand k now <$>
      fold_left (best_step (λ v b, rank k now b <? rank k now v))
                (filter (λ x, evictable x.2 = true) l) b).
Proof.
  revert b; induction l as [|x l IH]; intros b Hl Hb; [done|].
  pose proof (Hl x ltac:(set_solver)) as Hx. rewrite filter_cons. simpl scan.
  case_decide as Ee; unfold mbind, res_bind.
  - rewrite scan_step_cand by (done || apply Hx).
    destruct b as [y|]; cbn [fmap option_fmap option_map fold_left best_step].
    + rewrite adopt_rank by auto.
      destruct (rank k now y <? rank k now x).
      * apply (IH (Some x)); [set_solver|]. by intros ? [= <-].
      * apply (IH (Some y)); [set_solver|]. intros ? [= <-]. auto.
    + apply (IH (Some x)); [set_solver|]. by intros ? [= <-].
  - destruct x as [id st]. simpl in *. rewrite (not_true_is_false _ Ee). simpl.
    apply IH; set_solver.
Qed.

(** *** The victim in terms of the complete log *)

(** The [k]-th most recent access, if there are that many. *)
Definition kth_recent (k : Z) (h : list Z) : option Z :=
  if Z.of_nat (length h) <? k then None else h !! (length h - Z.to_nat k)%nat.

(** [h] has a larger backward [k]-distance than [h'], frames with fewer than
    [k] accesses counting as infinitely distant and compared by their first
    access. *)
Definition outranks (k : Z) (h h' : list Z) : Prop :=
  match kth_recent k h, kth_recent k h' with
  | None, Some _ => True
  | None, None => default 0 (head h) < default 0 (head h')
  | Some a, Some b => a < b
  | Some _, None => False
  end.

Definition is_lruk_victim (k : Z) (L : log) (f : frame_id_t) : Prop :=
  ∃ h, L !! f = Some (h, true) ∧
  ∀ g h', L !! g = Some (h', true) → g ≠ f → outranks k h h'.

Lemma head_lastn k h :
  1 ≤ k → h ≠ [] →
  head (lastn k h) =
    if Z.of_nat (length h) <? k then head h else h !! (length h - Z.to_nat k)%nat.
Proof.
  intros Hk Hh. unfold lastn. destruct (Z.ltb_spec (Z.of_nat (length h)) k).
  - replace (length h - Z.to_nat k)%nat with 0%nat by lia. done.
  - rewrite <-(Nat.add_0_r (length h - Z.to_nat k)), <-lookup_drop.
    rewrite Nat.add_0_r. by destruct (drop _ h).
Qed.

Lemma length_lastn_lt k h :
  1 ≤ k → (Z.of_nat (length (lastn k h)) <? k) = (Z.of_nat (length h) <? k).
Proof.
  intros. unfold lastn. rewrite length_drop.
  destruct (Z.ltb_spec (Z.of_nat (length h)) k); [apply Z.ltb_lt|apply Z.ltb_ge]; lia.
Qed.

Section victim.
Context (r : t) (L : log) (H : rel r L).

Let k := k_ r.
Let now := current_timestamp_ r.
Let entry (f : frame_id_t) (h : list Z) (e : bool) := (f, mkFrame (lastn k h) e).

Lemma frame_entry f st :
  frames_ r !! f = Some st → ∃ h e, L !! f = Some (h, e) ∧ st = mkFrame (lastn k h) e.
Proof using H.
  rewrite (rel_frames _ _ H), lookup_fmap. intros ([h e] & -> & ?)%fmap_Some. by exists h, e.
Qed.

Lemma entry_front f h e :
  L !! f = Some (h, e) →
  ∃ x, head (lastn k h) = Some x ∧ x ∈ h ∧ 0 ≤ x < now.
Proof using H.
  intros Hf. destruct (rel_ok _ _ H _ _ _ Hf) as [_ Hne Hr].
  pose proof (rel_k _ _ H) as Hk. fold k in Hk.
  destruct (head (lastn k h)) as [x|] eqn:E.
  - exists x. assert (x ∈ h); [|by auto].
    rewrite head_lastn in E by done. case_match.
    + destruct h; simplify_eq/=. set_solver.
    + by apply list_elem_of_lookup_2 in E.
  - rewrite head_lastn in E by done. destruct h as [|y h]; [done|]. case_match; [done|].
    apply lookup_ge_None in E. simpl in E. lia.
Qed.

Lemma entry_scannable f h e : L !! f = Some (h, e) → scannable now (entry f h e).
Proof using H.
  intros Hf. destruct (entry_front _ _ _ Hf) as (x & Hx & _ & Hr).
  unfold scannable, entry. simpl. rewrite Hx. split; [|done]. by intros E; rewrite E in Hx.
Qed.

(** Ranks of different frames differ, and decide who outranks whom. *)
Lemma rank_outranks f g h h' e e' :
  L !! f = Some (h, e) → L !! g = Some (h', e') → f ≠ g →
  (rank k now (entry g h' e') < rank k now (entry f h e) ↔ outranks k h h') ∧
  rank k now (entry g h' e') ≠ rank k now (entry f h e).
Proof using H.
  intros Hf Hg Hne. pose proof (rel_k _ _ H) as Hk. fold k in Hk.
  destruct (entry_front _ _ _ Hf) as (x & Hx & Hxin & Hxr).
  destruct (entry_front _ _ _ Hg) as (y & Hy & Hyin & Hyr).
  assert (x ≠ y) by (intros ->; by apply Hne, (rel_disj _ _ H _ _ _ _ _ _ _ Hf Hg Hxin)).
  unfold rank, entry, outranks, kth_recent. simpl. rewrite Hx, Hy, !length_lastn_lt by done. simpl.
  rewrite head_lastn in Hx, Hy by (done || apply (rel_ok _ _ H _ _ _ Hf) || apply (rel_ok _ _ H _ _ _ Hg)).
  destruct (Z.of_nat (length h) <? k), (Z.of_nat (length h') <? k); rewrite ?Hx, ?Hy; simpl; lia.
Qed.

Lemma scan_victim order :
  order ≡ₚ map_to_list (frames_ r) →
  match scan k now order None with
  | Val (Some b) => is_lruk_victim k L (best_frame b)
  | Val None => ∀ f h, L !! f ≠ Some (h, true)
  | _ => False
  end.
Proof using H.
  intros Hp.
  assert (Hin : ∀ f st, (f, st) ∈ order ↔ frames_ r !! f = Some st).
  { intros. by rewrite Hp, elem_of_map_to_list. }
  change None with (cand k now <$> None) at 1. rewrite scan_fold; [|intros [f st] Hx|done].
  2:{ apply Hin, frame_entry in Hx as (h & e & Hf & ->). by apply entry_scannable. }
  fold (fold_best (λ v b, rank k now b <? rank k now v)
          (filter (λ x : frame_id_t * FrameState, evictable x.2 = true) order)).
  destruct (fold_best _ _) as [[f st]|] eqn:E; simpl.
  - apply (fold_best_Some (rank k now)) in E as [[Hev Hx]%list_elem_of_filter Hmax].
    apply Hin, frame_entry in Hx as (h & e & Hf & ->). simpl in Hev. subst e.
    exists h. split; [done|]. intros g h' Hg Hne.
    assert (Hgin : (g, mkFrame (lastn k h') true) ∈ order).
    { apply Hin. by rewrite (rel_frames _ _ H), lookup_fmap, Hg. }
    assert (Hle := Hmax (entry g h' true) ltac:(by apply list_elem_of_filter)).
    destruct (rank_outranks f g h h' true true Hf Hg ltac:(done)) as [Hr Hd].
    apply Hr. change (f, _) with (entry f h true) in Hle. lia.
  - apply (fold_best_None (rank k now)) in E. intros f h Hf.
    assert ((f, mkFrame (lastn k h) true) ∈
      filter (λ x : frame_id_t * FrameState, evictable x.2 = true) order) as Hx; [|rewrite E in Hx; set_solver].
    apply list_elem_of_filter. split; [done|]. apply Hin.
    by rewrite (rel_frames _ _ H), lookup_fmap, Hf.
Qed.

Lemma victim_unique f g : is_lruk_victim k L f → is_lruk_victim k L g → f = g.
Proof using H.
  intros (h & Hf & Hmax) (h' & Hg & Hmax'). destruct (decide (f = g)) as [|Hne]; [done|].
  pose proof (proj1 (rank_outranks f g h h' true true Hf Hg Hne)) as H1.
  pose proof (proj1 (rank_outranks g f h' h true true Hg Hf ltac:(done))) as H2.
  specialize (Hmax g h' Hg ltac:(done)). specialize (Hmax' f h Hf Hne).
  apply H1 in Hmax. apply H2 in Hmax'. lia.
Qed.

Lemma Evict_in_spec order :
  order ≡ₚ map_to_list (frames_ r) →
  (∃ f r', Evict_in order r = (Val (Some f), r') ∧ is_lruk_victim k L f ∧
           num_frames_ r' = num_frames_ r ∧ rel r' (delete f L)) ∨
  (Evict_in order r = (Val None, r) ∧ ∀ f h, L !! f ≠ Some (h, true)).
Proof using H.
  intros Hp. pose proof (scan_victim order Hp) as Hs. unfold Evict_in. fold k now.
  destruct (scan k now order None) as [[b|]| | |]; try done; [left|by right].
  exists (best_frame b). eexists. split_and!; [done..|].
  destruct Hs as (h & Hf & _). by eapply delete_rel.
Qed.
End victim.

(** *** The interface *)

#[global] Instance lruk_spec : ReplacerSpec LRUKReplacer.t.
Proof.
  refine {| repl_inv := λ r, ∃ L, rel r L; repl_frames := num_frames_; tracked := view |}.
  - intros r f [L H] Hf. destruct (RecordAccess_rel _ _ _ H Hf) as (r' & E & Hn & H').
    exists r'. split_and!; eauto. rewrite (rel_view _ _ H'), (rel_view _ _ H).
    unfold log_access. rewrite lookup_fmap.
    destruct (L !! f) as [[h e]|]; simpl; by rewrite fmap_insert.
  - intros r f b [L H] Hs. rewrite (rel_view _ _ H), lookup_fmap, fmap_is_Some in Hs.
    destruct (SetEvictable_rel _ _ f b H Hs) as (r' & E & Hn & H').
    exists r'. split_and!; eauto. rewrite (rel_view _ _ H'), (rel_view _ _ H).
    unfold log_set. destruct Hs as [[h e] ->]. simpl. by rewrite fmap_insert.
  - intros r [L H] Hno. destruct (Evict_in_spec r L H _ (Permutation_refl _)) as [(f & _ & _ & (h & Hf & _) & _)|[E _]].
    + destruct (Hno f). by rewrite (rel_view _ _ H), lookup_fmap, Hf.
    + exact E.
  - intros r f [L H] Hf. rewrite (rel_view _ _ H), lookup_fmap in Hf.
    apply fmap_Some in Hf as ([h e] & Hf & He). simpl in He. subst e.
    destruct (Evict_in_spec r L H _ (Permutation_refl _)) as [(v & r' & E & (h' & Hv & _) & Hn & H')|[_ Hno]].
    + exists v, r'. split_and!; eauto.
      * by rewrite (rel_view _ _ H), lookup_fmap, Hv.
      * by rewrite (rel_view _ _ H'), (rel_view _ _ H), fmap_delete.
    + by destruct (Hno f h).
  - intros r f [L H] Hf. rewrite (rel_view _ _ H), lookup_fmap in Hf.
    apply fmap_Some in Hf as ([h e] & Hf & He). simpl in He. subst e.
    simpl. unfold Remove. rewrite (rel_frames _ _ H), lookup_fmap, Hf. simpl. rewrite <-(rel_frames _ _ H).
    pose proof (delete_rel _ _ _ _ H Hf) as H'. eexists. split_and!; [done|eauto|done|].
    by rewrite (rel_view _ _ H'), (rel_view _ _ H), fmap_delete.
  - intros r [L H]. simpl. unfold Size. by rewrite (rel_view _ _ H), (rel_count _ _ H).
Defined.
End LRUKTheory.

(** ** Plain LRU *)

Module LRUTheory.
Import LRUReplacer.

(** List nodes are numbered by the access that created them, so the list is
    in the order of the last accesses. *)
Record inv (r : t) : Prop := {
  inv_sorted : StronglySorted Z.lt (lru_list_ r).*1;
  inv_next : ∀ n f, (n, f) ∈ lru_list_ r → n < next_node r;
  inv_list : ∀ n f, (n, f) ∈ lru_list_ r ↔ ∃ e, frames_ r !! f = Some (mkFrame n e);
  inv_count : evictable_count_ r = evictable_in (evictable <$> frames_ r);
}.

Lemma inv_new n : inv (New n).
Proof.
  split; simpl; [constructor|set_solver| |done].
  intros m f. rewrite lookup_empty. set_solver.
Qed.

Lemma sorted_erase n l : StronglySorted Z.lt l.*1 → StronglySorted Z.lt (erase_node n l).*1.
Proof.
  induction l as [|[m f] l IH]; simpl; [done|]. intros [Hs Ha]%StronglySorted_inv.
  unfold erase_node in *. rewrite filter_cons. case_decide; simpl; [|auto].
  constructor; [auto|]. eapply Forall_forall. intros x Hx. rewrite Forall_forall in Ha.
  apply Ha. apply list_elem_of_fmap in Hx as (y & -> & [_ Hy]%list_elem_of_filter).
  by apply list_elem_of_fmap_2.
Qed.

Lemma sorted_snoc n l :
  StronglySorted Z.lt l.*1 → (∀ x, x ∈ l → x.1 < n) → ∀ f : frame_id_t,
  StronglySorted Z.lt (l ++ [(n, f)]).*1.
Proof.
  intros Hs Hl f. induction l as [|[m g] l IH]; simpl; [repeat constructor|].
  simpl in Hs. apply StronglySorted_inv in Hs as [Hs Ha].
  constructor; [apply IH; [done|set_solver]|].
  rewrite fmap_app, Forall_app. split; [done|]. simpl. constructor; [|done].
  apply (Hl (m, g)). set_solver.
Qed.

Lemma erase_spec r f st n g :
  inv r → frames_ r !! f = Some st →
  (n, g) ∈ erase_node (pos st) (lru_list_ r) ↔ g ≠ f ∧ (n, g) ∈ lru_list_ r.
Proof.
  intros H Hf. unfold erase_node. rewrite list_elem_of_filter, (inv_list _ H). simpl.
  assert (Hin : (pos st, f) ∈ lru_list_ r).
  { apply (inv_list _ H). exists (evictable st). by destruct st. }
  split; (intros [Hne [e He]]; split; [|by exists e]).
  - intros ->. rewrite Hf in He. by simplify_eq.
  - intros ->. assert ((pos st, g) ∈ lru_list_ r) as Hin' by (apply (inv_list _ H); by exists e).
    assert (NoDup (lru_list_ r).*1) as Hnd.
    { pose proof (inv_sorted _ H) as Hs. clear -Hs.
      induction (lru_list_ r).*1 as [|x l IH]; [constructor|].
      apply StronglySorted_inv in Hs as [Hs Ha]. constructor; [|auto].
      intros Hx. rewrite Forall_forall in Ha. specialize (Ha x Hx). lia. }
    pose proof (NoDup_fst_inj _ _ _ Hnd Hin Hin' eq_refl). by simplify_eq.
Qed.

Lemma erase_inv r f st :
  inv r → frames_ r !! f = Some st → evictable st = true →
  inv (mk (num_frames_ r) (evictable_count_ r - 1) (erase_node (pos st) (lru_list_ r))
          (delete f (frames_ r)) (next_node r)).
Proof.
  intros H Hf He. split; simpl.
  - apply sorted_erase, H.
  - intros n g [_ Hin]%(erase_spec r f st n g H Hf). by apply (inv_next _ H _ _ Hin).
  - intros n g. rewrite (erase_spec r f st n g H Hf), (inv_list _ H).
    setoid_rewrite lookup_delete_Some. naive_solver.
  - rewrite fmap_delete, (inv_count _ H), (evictable_in_delete _ f), lookup_fmap, Hf. simpl.
    rewrite He. lia.
Qed.

Lemma RecordAccess_inv r f :
  inv r → 0 ≤ f < num_frames_ r →
  ∃ r', RecordAccess f r = (Val tt, r') ∧ inv r' ∧ num_frames_ r' = num_frames_ r ∧
        evictable <$> frames_ r' =
        <[f := default false ((evictable <$> frames_ r) !! f)]> (evictable <$> frames_ r).
Proof.
  intros H Hf. unfold RecordAccess.
  rewrite (proj2 (orb_false_iff _ _)) by (rewrite Z.ltb_ge, Z.leb_gt; lia).
  eexists. split_and!; [done| |done|].
  2:{ simpl. rewrite fmap_insert. simpl. f_equal. rewrite lookup_fmap. by destruct (frames_ r !! f). }
  set (l := match frames_ r !! f with Some st => erase_node (pos st) (lru_list_ r) | None => lru_list_ r end).
  assert (Hl : ∀ n g, (n, g) ∈ l ↔ g ≠ f ∧ (n, g) ∈ lru_list_ r).
  { intros n g. unfold l. destruct (frames_ r !! f) as [st|] eqn:E; [by apply erase_spec|].
    rewrite (inv_list _ H). split; [|naive_solver]. intros [e He]. split; [congruence|eauto]. }
  split; simpl.
  - apply sorted_snoc.
    + unfold l. destruct (frames_ r !! f); [apply sorted_erase|]; apply H.
    + intros [n g] [_ Hin]%Hl. simpl. by apply (inv_next _ H _ _ Hin).
  - intros n g [[_ Hin]%Hl|[= -> ->]]%elem_of_snoc; [|lia]. pose proof (inv_next _ H _ _ Hin). lia.
  - intros n g. rewrite elem_of_snoc, Hl, (inv_list _ H). setoid_rewrite lookup_insert_Some.
    split; [|naive_solver]. intros [[? [e He]]|[= -> ->]]; naive_solver.
  - rewrite fmap_insert, evictable_in_insert, (inv_count _ H), (evictable_in_delete _ f). simpl.
    rewrite lookup_fmap. destruct (frames_ r !! f) as [[p e]|]; simpl; [by destruct e|done].
Qed.

Lemma SetEvictable_inv r f b :
  inv r → is_Some (frames_ r !! f) →
  ∃ r', SetEvictable f b r = (Val tt, r') ∧ inv r' ∧ num_frames_ r' = num_frames_ r ∧
        evictable <$> frames_ r' = <[f := b]> (evictable <$> frames_ r).
Proof.
  intros H [st Hf]. unfold SetEvictable. rewrite Hf. cbn [frames_]. rewrite Hf.
  eexists. split_and!; [done| |done|by simpl; rewrite fmap_insert].
  split; simpl; [apply H|apply (inv_next _ H)| |].
  - intros n g. rewrite (inv_list _ H). setoid_rewrite lookup_insert_Some.
    destruct (decide (g = f)) as [->|]; [|naive_solver].
    rewrite Hf. destruct st as [p e0]. split.
    + intros [e [= -> ->]]. exists b. by left.
    + intros (e & [[_ [= -> ->]]|[? _]]); [by exists e0|done].
  - rewrite fmap_insert, evictable_in_insert, (inv_count _ H), (evictable_in_delete _ f). simpl.
    rewrite lookup_fmap, Hf. simpl. destruct (evictable st), b; simpl; lia.
Qed.

(** [Evict] takes the evictable frame whose last access is the oldest. *)
Lemma Evict_inv r :
  inv r →
  (∃ f st r', Evict r = (Val (Some f), r') ∧ frames_ r !! f = Some st ∧ evictable st = true ∧
     (∀ g st', frames_ r !! g = Some st' → evictable st' = true → pos st ≤ pos st') ∧
     inv r' ∧ num_frames_ r' = num_frames_ r ∧ frames_ r' = delete f (frames_ r)) ∨
  (Evict r = (Val None, r) ∧ ∀ g st, frames_ r !! g = Some st → evictable st = false).
Proof.
  intros H. unfold Evict.
  assert (Hgen : ∀ l, StronglySorted Z.lt l.*1 →
    match find_first (is_victim r) l with
    | Some x => x ∈ l ∧ is_victim r x = true ∧ ∀ y, y ∈ l → is_victim r y = true → x.1 ≤ y.1
    | None => ∀ y, y ∈ l → is_victim r y = false
    end).
  { induction l as [|x l IH]; simpl; [set_solver|]. intros [Hs Ha]%StronglySorted_inv.
    rewrite Forall_forall in Ha. destruct (is_victim r x) eqn:Ev.
    - split_and!; [set_solver|done|]. intros y [->|Hy]%elem_of_cons _; [lia|].
      assert (x.1 < y.1); [|lia]. apply Ha. by apply list_elem_of_fmap_2.
    - specialize (IH Hs). destruct (find_first _ l) as [z|]; [|set_solver].
      destruct IH as (Hz & Hv & Hmin). split_and!; [set_solver|done|].
      intros y [->|Hy]%elem_of_cons Hy'; [congruence|auto]. }
  specialize (Hgen (lru_list_ r) (inv_sorted _ H)).
  destruct (find_first _ _) as [[n f]|].
  - left. destruct Hgen as (Hin & Hv & Hmin). apply (inv_list _ H) in Hin as [e Hf].
    unfold is_victim in Hv. simpl in Hv. rewrite Hf in Hv. simpl in Hv. subst e.
    exists f, (mkFrame n true). eexists. split_and!; [done|done|done| | |done|done].
    + intros g [m e'] Hg He'. simpl in *. subst e'. apply (Hmin (m, g)).
      * apply (inv_list _ H). eauto.
      * unfold is_victim. simpl. by rewrite Hg.
    + by apply (erase_inv r f (mkFrame n true)).
  - right. split; [done|]. intros g [m e] Hg. simpl.
    specialize (Hgen (m, g)). unfold is_victim in Hgen. simpl in Hgen. rewrite Hg in Hgen.
    apply Hgen. apply (inv_list _ H). eauto.
Qed.

#[global] Instance lru_spec : ReplacerSpec LRUReplacer.t.
Proof.
  refine {| repl_inv := inv; repl_frames := num_frames_; tracked := λ r, evictable <$> frames_ r |}.
  - intros r f H Hf. by apply RecordAccess_inv.
  - intros r f b H Hs. apply SetEvictable_inv; [done|]. by rewrite lookup_fmap, fmap_is_Some in Hs.
  - intros r H Hno. destruct (Evict_inv r H) as [(f & st & _ & _ & Hf & He & _)|[E _]]; [|done].
    destruct (Hno f). by rewrite lookup_fmap, Hf; simpl; rewrite He.
  - intros r f H Hf. rewrite lookup_fmap in Hf. apply fmap_Some in Hf as (st & Hf & He).
    destruct (Evict_inv r H) as [(v & st' & r' & E & Hv & He' & _ & H' & Hn & Hfr)|[_ Hno]].
    + exists v, r'. split_and!; try done.
      * by rewrite lookup_fmap, Hv; simpl; rewrite He'.
      * by rewrite Hfr, fmap_delete.
    + specialize (Hno _ _ Hf). congruence.
  - intros r f H Hf. rewrite lookup_fmap in Hf. apply fmap_Some in Hf as (st & Hf & He).
    simpl. unfold Remove. rewrite Hf, <-He. simpl. eexists. split_and!; [done| |done|].
    + by apply erase_inv.
    + simpl. by rewrite fmap_delete.
  - intros r H. simpl. unfold Size. apply H.
Defined.
End LRUTheory.
