(* ===== verification/Buffer.v ===== *)
(** * BufferPoolManager (buffer/page.h, buffer_pool_manager.h, buffer_pool_manager.cpp)

    [BufferPoolManager] is the pool of frames over a [DiskManager] and any
    [Replacer].  [Pool] is the interface its clients use and [APool] the
    specification of that interface: a map of page contents, pins, and the pages
    whose changes nobody has announced yet. *)

From stdpp Require Import gmultiset.
From S2P Require Import Prelude Bytes Disk Replacer.

#[local] Open Scope Z_scope.

Module BufferPoolManager.

(** ** Page (buffer/page.h) *)

Record Page := mkPage {
  data_ : bytes;
  page_id_ : page_id_t;
  pin_count_ : Z;
  is_dirty_ : bool;
}.

(** [Page::Page] and [Page::ResetMemory] *)
Definition ResetMemory : Page := mkPage (zeros PAGE_SIZE) INVALID_PAGE_ID 0 false.

Section pool.
Context {R : Type} `{!Replacer R}.

(** ** State *)

Record t := mk {
  pool_size_ : Z;
  disk_manager_ : DiskManager.t;
  replacer_ : R;
  pages_ : list Page;
  page_table_ : gmap page_id_t frame_id_t;
  free_list_ : list frame_id_t;
  num_hits_ : Z;
  num_misses_ : Z;
}.

Definition New (pool_size : Z) (disk : DiskManager.t) (replacer : R) : t :=
  mk pool_size disk replacer (replicate (Z.to_nat pool_size) ResetMemory) ∅
     (Z.of_nat <$> seq 0 (Z.to_nat pool_size)) 0 0.

Definition set_disk (d : DiskManager.t) (b : t) : t :=
  mk (pool_size_ b) d (replacer_ b) (pages_ b) (page_table_ b) (free_list_ b) (num_hits_ b) (num_misses_ b).
Definition set_replacer (r : R) (b : t) : t :=
  mk (pool_size_ b) (disk_manager_ b) r (pages_ b) (page_table_ b) (free_list_ b) (num_hits_ b) (num_misses_ b).
Definition set_pages (ps : list Page) (b : t) : t :=
  mk (pool_size_ b) (disk_manager_ b) (replacer_ b) ps (page_table_ b) (free_list_ b) (num_hits_ b) (num_misses_ b).
Definition set_table (m : gmap page_id_t frame_id_t) (b : t) : t :=
  mk (pool_size_ b) (disk_manager_ b) (replacer_ b) (pages_ b) m (free_list_ b) (num_hits_ b) (num_misses_ b).
Definition set_free (l : list frame_id_t) (b : t) : t :=
  mk (pool_size_ b) (disk_manager_ b) (replacer_ b) (pages_ b) (page_table_ b) l (num_hits_ b) (num_misses_ b).
Definition count_hit (b : t) : t :=
  mk (pool_size_ b) (disk_manager_ b) (replacer_ b) (pages_ b) (page_table_ b) (free_list_ b)
     (num_hits_ b + 1) (num_misses_ b).
Definition count_miss (b : t) : t :=
  mk (pool_size_ b) (disk_manager_ b) (replacer_ b) (pages_ b) (page_table_ b) (free_list_ b)
     (num_hits_ b) (num_misses_ b + 1).

(** Calls on the members. *)
Definition on_disk {A} (m : M DiskManager.t A) : M t A := λ b,
  let '(r, d) := m (disk_manager_ b) in (r, set_disk d b).
Definition on_replacer {A} (m : M R A) : M t A := λ b,
  let '(r, x) := m (replacer_ b) in (r, set_replacer x b).

(** [pages_[frame_id]]; an index outside the vector is undefined. *)
Definition page_at (f : frame_id_t) : M t Page := λ b,
  if f <? 0 then (Undef, b) else
  match pages_ b !! Z.to_nat f with
  | Some p => (Val p, b)
  | None => (Undef, b)
  end.
Definition set_page (f : frame_id_t) (p : Page) : M t () :=
  modify (λ b, set_pages (<[Z.to_nat f := p]> (pages_ b)) b).

(** ** Operations *)

Definition AcquireFrame : M t (option frame_id_t) :=
  b ← get;
  match free_list_ b with
  | f :: l => modify (set_free l);; mret (Some f)
  | [] =>
      v ← on_replacer Evict;
      match v with
      | None => mret None
      | Some f =>
          victim ← page_at f;
          (if is_dirty_ victim
           then on_disk (DiskManager.WritePage (page_id_ victim) (data_ victim))
           else mret tt);;
          modify (λ b, set_table (delete (page_id_ victim) (page_table_ b)) b);;
          set_page f ResetMemory;;
          mret (Some f)
      end
  end.

Definition NewPage : M t (option (page_id_t * frame_id_t)) :=
  fr ← AcquireFrame;
  match fr with
  | None => mret None
  | Some f =>
      pid ← on_disk DiskManager.AllocatePage;
      page ← page_at f;
      set_page f (mkPage (data_ page) pid 1 false);;
      modify (λ b, set_table (<[pid := f]> (page_table_ b)) b);;
      on_replacer (RecordAccess f);;
      on_replacer (SetEvictable f false);;
      mret (Some (pid, f))
  end.

Definition FetchPage (pid : page_id_t) : M t (option frame_id_t) :=
  b ← get;
  match page_table_ b !! pid with
  | Some f =>
      page ← page_at f;
      set_page f (mkPage (data_ page) (page_id_ page) (pin_count_ page + 1) (is_dirty_ page));;
      on_replacer (RecordAccess f);;
      on_replacer (SetEvictable f false);;
      modify count_hit;;
      mret (Some f)
  | None =>
      modify count_miss;;
      fr ← AcquireFrame;
      match fr with
      | None => mret None
      | Some f =>
          page ← page_at f;
          data ← on_disk (DiskManager.ReadPage pid);
          set_page f (mkPage data pid 1 false);;
          modify (λ b, set_table (<[pid := f]> (page_table_ b)) b);;
          on_replacer (RecordAccess f);;
          on_replacer (SetEvictable f false);;
          mret (Some f)
      end
  end.

Definition UnpinPage (pid : page_id_t) (is_dirty : bool) : M t bool :=
  b ← get;
  match page_table_ b !! pid with
  | None => mret false
  | Some f =>
      page ← page_at f;
      if pin_count_ page <=? 0 then mret false else
      set_page f (mkPage (data_ page) (page_id_ page) (pin_count_ page - 1)
                         (is_dirty || is_dirty_ page));;
      (if pin_count_ page - 1 =? 0 then on_replacer (SetEvictable f true) else mret tt);;
      mret true
  end.

Definition FlushPage (pid : page_id_t) : M t bool :=
  b ← get;
  match page_table_ b !! pid with
  | None => mret false
  | Some f =>
      page ← page_at f;
      on_disk (DiskManager.WritePage (page_id_ page) (data_ page));;
      set_page f (mkPage (data_ page) (page_id_ page) (pin_count_ page) false);;
      mret true
  end.

(** The loop of [FlushAllPages] over the entries of the page table. *)
Fixpoint flush_entries (l : list (page_id_t * frame_id_t)) : M t () :=
  match l with
  | [] => mret tt
  | (pid, f) :: l =>
      page ← page_at f;
      (if is_dirty_ page then
         on_disk (DiskManager.WritePage pid (data_ page));;
         set_page f (mkPage (data_ page) (page_id_ page) (pin_count_ page) false)
       else mret tt);;
      flush_entries l
  end.

Definition FlushAllPages : M t () :=
  b ← get; flush_entries (map_to_list (page_table_ b)).

Definition DeletePage (pid : page_id_t) : M t bool :=
  b ← get;
  match page_table_ b !! pid with
  | None => mret true
  | Some f =>
      page ← page_at f;
      if 0 <? pin_count_ page then mret false else
      on_replacer (SetEvictable f true);;
      on_replacer (Remove f);;
      modify (λ b, set_table (delete pid (page_table_ b)) b);;
      set_page f ResetMemory;;
      modify (λ b, set_free (free_list_ b ++ [f]) b);;
      mret true
  end.

(** [page->GetData()] through a [Page*] obtained for [pid] and still pinned;
    a pointer kept past its unpin is dangling. *)
Definition pinned_frame (pid : page_id_t) : M t (frame_id_t * Page) :=
  b ← get;
  match page_table_ b !! pid with
  | None => undefined
  | Some f =>
      page ← page_at f;
      if 0 <? pin_count_ page then mret (f, page) else undefined
  end.

Definition GetData (pid : page_id_t) : M t bytes :=
  x ← pinned_frame pid; mret (data_ x.2).

(** Writing through [GetData()]: [data_] is an array of [PAGE_SIZE] bytes. *)
Definition SetData (pid : page_id_t) (data : bytes) : M t () :=
  x ← pinned_frame pid;
  if blen data =? PAGE_SIZE
  then set_page x.1 (mkPage data (page_id_ x.2) (pin_count_ x.2) (is_dirty_ x.2))
  else undefined.

End pool.
Arguments t R : clear implicits.
End BufferPoolManager.

(** ** The interface clients use *)

(** A [Page*] is known to its client by the page id it was pinned under. *)
Class Pool (S : Type) := {
  pool_new : M S (option page_id_t);
  pool_fetch : page_id_t → M S bool;
  pool_unpin : page_id_t → bool → M S bool;
  pool_delete : page_id_t → M S bool;
  pool_read : page_id_t → M S bytes;
  pool_write : page_id_t → bytes → M S ();
}.

#[global] Instance bpm_pool {R} `{!Replacer R} : Pool (BufferPoolManager.t R) := {
  pool_new := x ← BufferPoolManager.NewPage; mret (fst <$> x);
  pool_fetch pid := x ← BufferPoolManager.FetchPage pid; mret (bool_decide (is_Some x));
  pool_unpin := BufferPoolManager.UnpinPage;
  pool_delete := BufferPoolManager.DeletePage;
  pool_read := BufferPoolManager.GetData;
  pool_write := BufferPoolManager.SetData;
}.

(** ** Its specification *)

Module APool.

(** [unsaved]: pages changed since they were pinned with no dirty unpin yet.
    A page that loses its last pin in that state loses its contents, and so
    does a deleted one: using it again is undefined. *)
Record t := mk {
  cap : Z;
  pages : gmap page_id_t bytes;
  pins : gmultiset page_id_t;
  unsaved : gset page_id_t;
  next : page_id_t;
}.

Definition has_room (a : t) : bool := Z.of_nat (size (dom (pins a))) <? cap a.

(** The byte offset of the page fits [off_t]. *)
Definition addressable (p : page_id_t) : bool :=
  (0 <=? p) && (p * PAGE_SIZE + PAGE_SIZE <=? int64_max).

Definition fetch (p : page_id_t) : M t bool := λ a,
  match pages a !! p with
  | None => (Undef, a)
  | Some _ =>
      if bool_decide (p ∈ pins a) || has_room a
      then (Val true, mk (cap a) (pages a) (pins a ⊎ {[+ p +]}) (unsaved a) (next a))
      else (Val false, a)
  end.

Definition new : M t (option page_id_t) := λ a,
  if negb (has_room a) then (Val None, a) else
  if negb (addressable (next a)) then (Undef, a) else
  let p := next a in
  (Val (Some p), mk (cap a) (<[p := zeros PAGE_SIZE]> (pages a)) (pins a ⊎ {[+ p +]})
                    ({[p]} ∪ unsaved a) (p + 1)).

Definition unpin (p : page_id_t) (dirty : bool) : M t bool := λ a,
  if negb (bool_decide (p ∈ pins a)) then (Val false, a) else
  let pins' := pins a ∖ {[+ p +]} in
  let unsaved' := if dirty then unsaved a ∖ {[p]} else unsaved a in
  if bool_decide (p ∉ pins') && bool_decide (p ∈ unsaved')
  then (Val true, mk (cap a) (delete p (pages a)) pins' (unsaved' ∖ {[p]}) (next a))
  else (Val true, mk (cap a) (pages a) pins' unsaved' (next a)).

Definition del (p : page_id_t) : M t bool := λ a,
  if bool_decide (p ∈ pins a) then (Val false, a)
  else (Val true, mk (cap a) (delete p (pages a)) (pins a) (unsaved a) (next a)).

Definition read (p : page_id_t) : M t bytes := λ a,
  match pages a !! p with
  | Some d => if bool_decide (p ∈ pins a) then (Val d, a) else (Undef, a)
  | None => (Undef, a)
  end.

(** Writing the bytes that are there already changes nothing. *)
Definition write (p : page_id_t) (d : bytes) : M t () := λ a,
  if bool_decide (p ∈ pins a) && (blen d =? PAGE_SIZE)
  then if bool_decide (pages a !! p = Some d) then (Val tt, a)
       else (Val tt, mk (cap a) (<[p := d]> (pages a)) (pins a) ({[p]} ∪ unsaved a) (next a))
  else (Undef, a).

End APool.

#[global] Instance apool_pool : Pool APool.t := {
  pool_new := APool.new;
  pool_fetch := APool.fetch;
  pool_unpin := APool.unpin;
  pool_delete := APool.del;
  pool_read := APool.read;
  pool_write := APool.write;
}.
