(* ===== verification/BufferTheory.v ===== *)
(** * BufferPoolManager: the pool implements its specification *)

From stdpp Require Import gmultiset.
From S2P Require Import Prelude Bytes Disk Replacer Buffer.

#[local] Open Scope Z_scope.

Import BufferPoolManager.

(** ** The representation relation *)

Section pool.
Context {R : Type} `{!Replacer R, !ReplacerSpec R}.
Implicit Types (b : t R) (a : APool.t).

Definition disk_page (b : t R) (p : page_id_t) : bytes :=
  DiskManager.contents (disk_manager_ b) p.

(** A frame that holds page [p]. *)
Record frame_ok (b : t R) (a : APool.t) (p : page_id_t) (f : frame_id_t) (pg : Page) : Prop := {
  fo_nonneg : 0 ≤ f;
  fo_page : pages_ b !! Z.to_nat f = Some pg;
  fo_id : page_id_ pg = p;
  fo_pins : pin_count_ pg = Z.of_nat (multiplicity p (APool.pins a));
  fo_data : blen (data_ pg) = PAGE_SIZE;
  fo_tracked : tracked (replacer_ b) !! f = Some (pin_count_ pg =? 0);
  fo_valid : DiskManager.valid_id p;
  fo_next : p < APool.next a;
}.

(** [idle]: the free list, and during an operation the frame it has taken. *)
Record pool_rel (hole : list frame_id_t) (b : t R) (a : APool.t) : Prop := {
  pr_pool : 0 ≤ pool_size_ b;
  pr_size : length (pages_ b) = Z.to_nat (pool_size_ b);
  pr_sound : DiskManager.sound (disk_manager_ b);
  pr_cap : APool.cap a = pool_size_ b;
  pr_next : APool.next a = DiskManager.next_page_id_ (disk_manager_ b) ∧ 0 ≤ APool.next a;
  pr_repl : repl_inv (replacer_ b) ∧ repl_frames (replacer_ b) = pool_size_ b;
  pr_table p f : page_table_ b !! p = Some f → ∃ pg, frame_ok b a p f pg;
  pr_tracked f e : tracked (replacer_ b) !! f = Some e → ∃ p, page_table_ b !! p = Some f;
  pr_nodup : NoDup (free_list_ b ++ hole);
  pr_idle f : f ∈ free_list_ b ++ hole →
    0 ≤ f ∧ pages_ b !! Z.to_nat f = Some ResetMemory ∧ ∀ p, page_table_ b !! p ≠ Some f;
  pr_count : (length (free_list_ b ++ hole) + size (page_table_ b))%nat = Z.to_nat (pool_size_ b);
  pr_pins p : p ∈ APool.pins a → is_Some (page_table_ b !! p) ∧ is_Some (APool.pages a !! p);
  pr_unsaved p : p ∈ APool.unsaved a → p ∈ APool.pins a;
  pr_content p d : APool.pages a !! p = Some d →
    DiskManager.valid_id p ∧ p < APool.next a ∧
    match page_table_ b !! p with
    | Some f => ∃ pg, pages_ b !! Z.to_nat f = Some pg ∧ data_ pg = d ∧
                  (p ∉ APool.unsaved a → is_dirty_ pg = true ∨ disk_page b p = d)
    | None => disk_page b p = d
    end;
}.

Lemma table_inj hole b a p q f :
  pool_rel hole b a → page_table_ b !! p = Some f → page_table_ b !! q = Some f → p = q.
Proof.
  intros H Hp Hq. destruct (pr_table _ _ _ H _ _ Hp) as [pg Hpg].
  destruct (pr_table _ _ _ H _ _ Hq) as [pg' Hpg'].
  pose proof (fo_page _ _ _ _ _ Hpg). pose proof (fo_page _ _ _ _ _ Hpg'). simplify_eq.
  by rewrite <-(fo_id _ _ _ _ _ Hpg), (fo_id _ _ _ _ _ Hpg').
Qed.

Lemma frame_alloc hole b a p f pg :
  pool_rel hole b a → frame_ok b a p f pg → p < DiskManager.next_page_id_ (disk_manager_ b).
Proof. intros H Hfo. destruct (pr_next _ _ _ H) as [<- _]. apply Hfo. Qed.

Lemma page_at_ok b f pg :
  0 ≤ f → pages_ b !! Z.to_nat f = Some pg → page_at f b = (Val pg, b).
Proof. intros Hf Hpg. unfold page_at. rewrite (proj2 (Z.ltb_ge _ _)) by lia. by rewrite Hpg. Qed.

Lemma frame_range hole b a p f :
  pool_rel hole b a → page_table_ b !! p = Some f → 0 ≤ f < pool_size_ b.
Proof.
  intros H Hp. destruct (pr_table _ _ _ H _ _ Hp) as [pg [Hf Hpg _ _ _ _ _ _]].
  apply lookup_lt_Some in Hpg. rewrite (pr_size _ _ _ H) in Hpg. lia.
Qed.

(** ** Room: what the specification counts is what the frames allow *)

Lemma pinned_in_table hole b a :
  pool_rel hole b a → dom (APool.pins a) ⊆ dom (page_table_ b).
Proof.
  intros H p Hp. apply elem_of_dom. apply (pr_pins _ _ _ H).
  by apply gmultiset_elem_of_dom.
Qed.

Lemma has_room_spec b a :
  pool_rel [] b a →
  APool.has_room a = false ↔
  free_list_ b = [] ∧ ∀ p f pg, page_table_ b !! p = Some f → frame_ok b a p f pg → pin_count_ pg ≠ 0.
Proof.
  intros H. unfold APool.has_room. rewrite Z.ltb_ge, (pr_cap _ _ _ H).
  pose proof (pr_pool _ _ _ H).
  pose proof (pinned_in_table _ _ _ H) as Hsub. pose proof (pr_count _ _ _ H) as Hc.
  rewrite app_nil_r in Hc. rewrite <-(size_dom (page_table_ b)) in Hc.
  split.
  - intros Hge. pose proof (subseteq_size _ _ Hsub). split; [apply length_zero_iff_nil; lia|].
    assert (dom (page_table_ b) ⊆ dom (APool.pins a)) as Hsup.
    { destruct (decide (dom (page_table_ b) ⊆ dom (APool.pins a))) as [|Hn]; [done|].
      assert (dom (APool.pins a) ⊂ dom (page_table_ b)) as Hss%subset_size by (split; done). lia. }
    intros p f pg Hp [_ _ _ Hpin _ _ _ _].
    assert (p ∈ dom (APool.pins a)) as Hin by (apply Hsup, elem_of_dom; eauto).
    rewrite gmultiset_elem_of_dom, elem_of_multiplicity in Hin. lia.
  - intros [Hf Hall]. rewrite Hf in Hc. simpl in Hc.
    assert (dom (page_table_ b) ⊆ dom (APool.pins a)) as Hsup%subseteq_size; [|lia].
    intros p [f Hp]%elem_of_dom. destruct (pr_table _ _ _ H _ _ Hp) as [pg Hpg].
    specialize (Hall _ _ _ Hp Hpg). rewrite (fo_pins _ _ _ _ _ Hpg) in Hall.
    apply gmultiset_elem_of_dom, elem_of_multiplicity. lia.
Qed.

(** ** Acquiring a frame *)

(** A frame's page and its data survive a change elsewhere. *)
Lemma frame_ok_frame b a p f pg b' a' :
  frame_ok b a p f pg →
  pages_ b' !! Z.to_nat f = pages_ b !! Z.to_nat f →
  tracked (replacer_ b') !! f = tracked (replacer_ b) !! f →
  multiplicity p (APool.pins a') = multiplicity p (APool.pins a) →
  APool.next a ≤ APool.next a' →
  frame_ok b' a' p f pg.
Proof. intros [] Hp Ht Hm Hn. split; try congruence; try lia. Qed.

Lemma to_nat_ne (f g : Z) : 0 ≤ f → 0 ≤ g → f ≠ g → Z.to_nat f ≠ Z.to_nat g.
Proof. lia. Qed.

Lemma unpinned_frame b a :
  pool_rel [] b a → APool.has_room a = true → free_list_ b = [] →
  ∃ p f pg, page_table_ b !! p = Some f ∧ frame_ok b a p f pg ∧ pin_count_ pg = 0.
Proof.
  intros H Hr Hf. pose proof (pinned_in_table _ _ _ H) as Hsub.
  pose proof (pr_pool _ _ _ H). unfold APool.has_room in Hr. apply Z.ltb_lt in Hr.
  rewrite (pr_cap _ _ _ H) in Hr. pose proof (pr_count _ _ _ H) as Hc.
  rewrite Hf in Hc. simpl in Hc. rewrite <-(size_dom (page_table_ b)) in Hc.
  destruct (decide (dom (page_table_ b) ∖ dom (APool.pins a) = ∅)) as [E|E].
  { assert (dom (page_table_ b) ⊆ dom (APool.pins a)) as Hle%subseteq_size; [|lia].
    intros p Hp. destruct (decide (p ∈ dom (APool.pins a))); [done|]. set_solver. }
  apply set_choose_L in E as [p [Hp Hn]%elem_of_difference].
  apply elem_of_dom in Hp as [f Hp]. destruct (pr_table _ _ _ H _ _ Hp) as [pg Hpg].
  exists p, f, pg. split_and!; [done..|]. rewrite (fo_pins _ _ _ _ _ Hpg).
  rewrite gmultiset_elem_of_dom, not_elem_of_multiplicity in Hn. lia.
Qed.

(** Writing a page back, as eviction and flushing do it. *)
Lemma write_back b q x :
  DiskManager.sound (disk_manager_ b) → DiskManager.valid_id q →
  q < DiskManager.next_page_id_ (disk_manager_ b) → blen x = PAGE_SIZE →
  ∃ d', on_disk (DiskManager.WritePage q x) b = (Val tt, set_disk d' b) ∧
    DiskManager.sound d' ∧
    DiskManager.next_page_id_ d' = DiskManager.next_page_id_ (disk_manager_ b) ∧
    DiskManager.contents d' q = x ∧
    ∀ p, 0 ≤ p → p ≠ q → DiskManager.contents d' p = disk_page b p.
Proof.
  intros [Hh Hend] Hv Hq Hx. unfold on_disk. rewrite DiskManager.WritePage_ok by done.
  eexists. split_and!; [done| |done| |].
  - split; [done|]. simpl. rewrite DiskManager.blen_write_file, Hx by apply Hv. unfold PAGE_SIZE in *. lia.
  - apply DiskManager.page_of_write_eq; [apply Hv|done].
  - intros p ??. apply DiskManager.page_of_write_ne; [apply Hv|done..].
Qed.

Definition acquired (b : t R) (a : APool.t) (f : frame_id_t) (b' : t R) : Prop :=
  pool_rel [f] b' a ∧ 0 ≤ f < pool_size_ b' ∧
  ∀ p, page_table_ b !! p = None → page_table_ b' !! p = None.

Lemma acquire_free b a f l :
  pool_rel [] b a → free_list_ b = f :: l → acquired b a f (set_free l b).
Proof.
  intros H Hf. pose proof (pr_idle _ _ _ H f) as Hi. rewrite Hf in Hi.
  destruct Hi as (Hge & Hpg & Hno); [set_solver|].
  split_and!; [|done| |done].
  - assert (Hperm : l ++ [f] ≡ₚ free_list_ b ++ []).
    { rewrite Hf, app_nil_r. by rewrite Permutation_app_comm. }
    split; simpl; try by apply H.
    + intros p g Hp. destruct (pr_table _ _ _ H _ _ Hp) as [pg Hfo]. exists pg.
      by eapply frame_ok_frame.
    + rewrite Hperm. apply H.
    + intros g. rewrite Hperm. apply H.
    + rewrite Hperm. apply H.
  - apply lookup_lt_Some in Hpg. rewrite (pr_size _ _ _ H) in Hpg. simpl. lia.
Qed.

(** The state after frame [v], holding the unpinned page [q], is vacated. *)
Lemma acquire_evict b a q v pg r' d' :
  pool_rel [] b a → free_list_ b = [] → page_table_ b !! q = Some v → frame_ok b a q v pg →
  pin_count_ pg = 0 →
  repl_inv r' → repl_frames r' = repl_frames (replacer_ b) →
  tracked r' = delete v (tracked (replacer_ b)) →
  DiskManager.sound d' →
  DiskManager.next_page_id_ d' = DiskManager.next_page_id_ (disk_manager_ b) →
  DiskManager.contents d' q = (if is_dirty_ pg then data_ pg else disk_page b q) →
  (∀ p, 0 ≤ p → p ≠ q → DiskManager.contents d' p = disk_page b p) →
  acquired b a v (set_pages (<[Z.to_nat v := ResetMemory]> (pages_ b))
    (set_table (delete q (page_table_ b)) (set_disk d' (set_replacer r' b)))).
Proof.
  intros H Hfree Hq Hfo Hpin Hri Hrf Htr Hdh Hdn Hdq Hdo.
  pose proof (frame_range _ _ _ _ _ H Hq) as Hv.
  assert (Hlt : (Z.to_nat v < length (pages_ b))%nat) by (rewrite (pr_size _ _ _ H); lia).
  assert (Hne : ∀ p f, page_table_ b !! p = Some f → p ≠ q → f ≠ v).
  { intros p f Hp Hpq ->. by apply Hpq, (table_inj _ _ _ _ _ _ H Hp). }
  assert (Hqp : q ∉ APool.pins a).
  { apply not_elem_of_multiplicity. pose proof (fo_pins _ _ _ _ _ Hfo). lia. }
  split_and!; [|simpl; lia..|].
  2:{ intros p Hp. simpl. by rewrite lookup_delete_None; right. }
  split; simpl; try first [done|by apply H].
  - rewrite length_insert. apply H.
  - destruct (pr_next _ _ _ H). split; congruence.
  - split; [done|]. destruct (pr_repl _ _ _ H). congruence.
  - intros p f [Hpq Hp]%lookup_delete_Some.
    destruct (pr_table _ _ _ H _ _ Hp) as [pg' Hpg']. exists pg'.
    assert (f ≠ v) by eauto. pose proof (fo_nonneg _ _ _ _ _ Hpg').
    eapply frame_ok_frame; [exact Hpg'| | |done|done]; simpl.
    + by rewrite list_lookup_insert_ne by lia.
    + by rewrite Htr, lookup_delete_ne.
  - intros f e. rewrite Htr. intros [Hfv Ht]%lookup_delete_Some.
    destruct (pr_tracked _ _ _ H _ _ Ht) as [p Hp]. exists p.
    apply lookup_delete_Some. split; [|done]. intros ->. congruence.
  - rewrite Hfree. simpl. apply NoDup_singleton.
  - intros f. rewrite Hfree. simpl. intros ->%list_elem_of_singleton.
    split_and!; [lia|by rewrite list_lookup_insert_eq|].
    intros p [Hpq Hp]%lookup_delete_Some. by eapply Hne.
  - pose proof (pr_count _ _ _ H) as Hc. rewrite Hfree in *. simpl in *.
    rewrite map_size_delete_Some by eauto.
    assert (size (page_table_ b) ≠ 0%nat); [|lia]. apply map_size_ne_0_lookup. eauto.
  - intros p Hp. destruct (pr_pins _ _ _ H p Hp) as [[f Hf] ?]. split; [|done].
    exists f. apply lookup_delete_Some. split; [|done]. by intros ->.
  - intros p d Hp. destruct (pr_content _ _ _ H p d Hp) as (Hval & Hnx & Hc).
    split_and!; [done..|]. unfold disk_page. simpl.
    destruct (decide (p = q)) as [->|Hpq].
    + rewrite lookup_delete_eq, Hdq. rewrite Hq in Hc.
      destruct Hc as (pg' & Hpg' & Hd & Hs). rewrite (fo_page _ _ _ _ _ Hfo) in Hpg'.
      simplify_eq. destruct (is_dirty_ pg'); [done|].
      destruct Hs as [|?]; [|done..]. intros Hu. by apply Hqp, (pr_unsaved _ _ _ H).
    + rewrite lookup_delete_ne by done. destruct Hval as [Hp0 _].
      rewrite Hdo by done. destruct (page_table_ b !! p) as [f|] eqn:Ef; [|done].
      destruct Hc as (pg' & Hpg' & Hd & Hs). exists pg'.
      assert (f ≠ v) by eauto. pose proof (frame_range _ _ _ _ _ H Ef).
      rewrite list_lookup_insert_ne by lia. done.
Qed.

Lemma AcquireFrame_room b a :
  pool_rel [] b a → APool.has_room a = true →
  ∃ f b', AcquireFrame b = (Val (Some f), b') ∧ acquired b a f b'.
Proof.
  intros H Hr. unfold AcquireFrame. mstep.
  destruct (free_list_ b) as [|f l] eqn:Hfree.
  2:{ mstep. eexists f, _. split; [done|]. by apply acquire_free. }
  destruct (unpinned_frame _ _ H Hr Hfree) as (p & f & pg & Hp & Hfo & Hpin).
  pose proof (fo_tracked _ _ _ _ _ Hfo) as Ht. rewrite Hpin in Ht. simpl in Ht.
  destruct (pr_repl _ _ _ H) as [Hri Hrf].
  destruct (evict_some_spec _ _ Hri Ht) as (v & r' & He & Hv & Hri' & Hrf' & Htr').
  assert (on_replacer Evict b = (Val (Some v), set_replacer r' b)) as Hev
    by (unfold on_replacer; by rewrite He).
  rewrite (bind_Val _ _ _ _ _ Hev). clear p f pg Hp Hfo Hpin Ht.
  destruct (pr_tracked _ _ _ H _ _ Hv) as [q Hq].
  destruct (pr_table _ _ _ H _ _ Hq) as [pg Hfo].
  assert (Hpin : pin_count_ pg = 0).
  { rewrite (fo_tracked _ _ _ _ _ Hfo) in Hv. injection Hv. intros ?%Z.eqb_eq. done. }
  assert (Hpage : page_at v (set_replacer r' b) = (Val pg, set_replacer r' b)).
  { apply page_at_ok; apply Hfo. }
  mstep. rewrite (bind_Val _ _ _ _ _ Hpage). mstep.
  rewrite (fo_id _ _ _ _ _ Hfo).
  destruct (is_dirty_ pg) eqn:Hd.
  - destruct (write_back (set_replacer r' b) q (data_ pg)) as (d' & Hw & Hh & Hn & Hdq & Hdo);
      [apply H|apply Hfo|by apply (frame_alloc _ _ _ _ _ _ H Hfo)|apply Hfo|].
    rewrite (bind_Val _ _ _ _ _ Hw). eexists v, _. split; [done|].
    apply (acquire_evict b a q v pg); try done. by rewrite Hd.
  - eexists v, _. split; [done|].
    apply (acquire_evict b a q v pg r' (disk_manager_ b)); try done; try apply H. by rewrite Hd.
Qed.

Lemma AcquireFrame_none b :
  free_list_ b = [] → repl_inv (replacer_ b) → (∀ f, tracked (replacer_ b) !! f ≠ Some true) → AcquireFrame b = (Val None, b).
Proof.
  intros Hfree Hri Hno. unfold AcquireFrame. mstep. rewrite Hfree.
  assert (on_replacer Evict b = (Val None, b)) as Hev.
  { unfold on_replacer. rewrite (evict_none_spec _ Hri Hno). by destruct b. }
  by rewrite (bind_Val _ _ _ _ _ Hev).
Qed.

Lemma AcquireFrame_full b a :
  pool_rel [] b a → APool.has_room a = false → AcquireFrame b = (Val None, b).
Proof.
  intros H Hr. apply (has_room_spec _ _ H) in Hr as [Hfree Hall].
  apply AcquireFrame_none; [done|apply H|]. intros f Ht.
  destruct (pr_tracked _ _ _ H _ _ Ht) as [p Hp]. destruct (pr_table _ _ _ H _ _ Hp) as [pg Hfo].
  apply (Hall _ _ _ Hp Hfo). rewrite (fo_tracked _ _ _ _ _ Hfo) in Ht. injection Ht. by intros ?%Z.eqb_eq.
Qed.

(** ** Changing a frame in use *)

Lemma access_frame b f :
  repl_inv (replacer_ b) → 0 ≤ f < repl_frames (replacer_ b) →
  ∃ r1 r', repl_inv r' ∧ repl_frames r' = repl_frames (replacer_ b) ∧
    tracked r' = <[f := false]> (tracked (replacer_ b)) ∧
    on_replacer (RecordAccess f) b = (Val tt, set_replacer r1 b) ∧
    on_replacer (SetEvictable f false) (set_replacer r1 b) = (Val tt, set_replacer r' b).
Proof.
  intros Hri Hf. destruct (record_access_spec _ _ Hri Hf) as (r1 & E1 & Hr1 & Hn1 & Ht1).
  destruct (set_evictable_spec r1 f false Hr1) as (r2 & E2 & Hr2 & Hn2 & Ht2).
  { rewrite Ht1, lookup_insert_eq. eauto. }
  exists r1, r2. split_and!; [done|congruence| | |].
  - by rewrite Ht2, Ht1, insert_insert_eq.
  - unfold on_replacer. by rewrite E1.
  - unfold on_replacer. simpl. by rewrite E2.
Qed.

(** The state with frame [f] now [pg'], the replacer [r'] and the disk [d']. *)
Definition with_frame (f : frame_id_t) (pg' : Page) (r' : R) (d' : DiskManager.t) (b : t R) : t R :=
  mk (pool_size_ b) d' r' (<[Z.to_nat f := pg']> (pages_ b)) (page_table_ b) (free_list_ b)
     (num_hits_ b) (num_misses_ b).

Lemma update_frame b a p f pg pg' r' d' a' :
  pool_rel [] b a → page_table_ b !! p = Some f → frame_ok b a p f pg →
  page_id_ pg' = p → blen (data_ pg') = PAGE_SIZE →
  pin_count_ pg' = Z.of_nat (multiplicity p (APool.pins a')) →
  repl_inv r' → repl_frames r' = repl_frames (replacer_ b) →
  tracked r' = <[f := pin_count_ pg' =? 0]> (tracked (replacer_ b)) →
  DiskManager.sound d' →
  DiskManager.next_page_id_ d' = DiskManager.next_page_id_ (disk_manager_ b) →
  (∀ q, 0 ≤ q → q ≠ p → DiskManager.contents d' q = disk_page b q) →
  APool.cap a' = APool.cap a → APool.next a' = APool.next a →
  (∀ q, q ≠ p → multiplicity q (APool.pins a') = multiplicity q (APool.pins a) ∧
                APool.pages a' !! q = APool.pages a !! q ∧
                (q ∈ APool.unsaved a' ↔ q ∈ APool.unsaved a)) →
  (p ∈ APool.pins a' → is_Some (APool.pages a' !! p)) →
  (p ∈ APool.unsaved a' → p ∈ APool.pins a') →
  (∀ d, APool.pages a' !! p = Some d →
     data_ pg' = d ∧ (p ∉ APool.unsaved a' → is_dirty_ pg' = true ∨ DiskManager.contents d' p = d)) →
  pool_rel [] (with_frame f pg' r' d' b) a'.
Proof.
  intros H Hp Hfo Hid Hlen Hpin Hri Hrf Htr Hdh Hdn Hdo Hcap Hnext Hoth Hpp Hpu Hpc.
  pose proof (frame_range _ _ _ _ _ H Hp) as Hf.
  assert (Hlt : (Z.to_nat f < length (pages_ b))%nat) by (rewrite (pr_size _ _ _ H); lia).
  assert (Hne : ∀ q g, page_table_ b !! q = Some g → q ≠ p → g ≠ f).
  { intros q g Hq Hqp ->. by apply Hqp, (table_inj _ _ _ _ _ _ H Hq). }
  assert (Hmem : ∀ q, q ≠ p → q ∈ APool.pins a' ↔ q ∈ APool.pins a).
  { intros q Hq. rewrite !elem_of_multiplicity. by rewrite (proj1 (Hoth q Hq)). }
  split; simpl; try first [done|by apply H].
  - rewrite length_insert. apply H.
  - rewrite Hcap. apply H.
  - rewrite Hnext. destruct (pr_next _ _ _ H). split; congruence.
  - split; [done|]. destruct (pr_repl _ _ _ H). congruence.
  - intros q g Hq. destruct (decide (q = p)) as [->|Hqp].
    + assert (g = f) as -> by congruence. exists pg'. destruct Hfo. split; simpl; try done.
      * by rewrite list_lookup_insert_eq.
      * by rewrite Htr, lookup_insert_eq.
      * lia.
    + destruct (pr_table _ _ _ H _ _ Hq) as [pg2 Hpg2]. exists pg2.
      assert (g ≠ f) by eauto. pose proof (fo_nonneg _ _ _ _ _ Hpg2).
      eapply frame_ok_frame; [exact Hpg2| | |by apply Hoth|lia]; simpl.
      * by rewrite list_lookup_insert_ne by lia.
      * by rewrite Htr, lookup_insert_ne.
  - intros g e. rewrite Htr. intros [[<- _]|[_ Ht]]%lookup_insert_Some; [eauto|by eapply (pr_tracked _ _ _ H)].
  - intros g Hg. destruct (pr_idle _ _ _ H g Hg) as (Hg0 & Hpg & Hno). split_and!; [done| |done].
    rewrite list_lookup_insert_ne; [done|]. assert (f ≠ g); [|lia]. intros ->. by apply (Hno p).
  - intros q Hq. destruct (decide (q = p)) as [->|Hqp].
    + split; [eauto|by apply Hpp].
    + rewrite Hmem in Hq by done. destruct (Hoth q Hqp) as (_ & -> & _). by apply H.
  - intros q Hq. destruct (decide (q = p)) as [->|Hqp]; [by apply Hpu|].
    rewrite Hmem by done. apply H. by apply Hoth.
  - intros q d Hq. destruct (decide (q = p)) as [->|Hqp].
    + split; [apply Hfo|]. split; [rewrite Hnext; apply Hfo|]. rewrite Hp. exists pg'.
      rewrite list_lookup_insert_eq by done. split; [done|by apply Hpc].
    + destruct (Hoth q Hqp) as (_ & Hq' & Hu). rewrite Hq' in Hq.
      destruct (pr_content _ _ _ H q d Hq) as (Hval & Hnx & Hc).
      split; [apply Hval|]. split; [lia|]. unfold disk_page. simpl. destruct Hval as [Hq0 _].
      rewrite Hdo by done. destruct (page_table_ b !! q) as [g|] eqn:Eg; [|done].
      destruct Hc as (pg2 & Hpg2 & Hd & Hs). exists pg2.
      assert (g ≠ f) by eauto. pose proof (frame_range _ _ _ _ _ H Eg).
      rewrite list_lookup_insert_ne by lia. split_and!; [done..|]. by rewrite Hu.
Qed.

(** The state with page [p] put into the acquired frame [f]. *)
Definition with_page (f : frame_id_t) (p : page_id_t) (data : bytes) (r' : R) (d' : DiskManager.t)
    (b : t R) : t R :=
  mk (pool_size_ b) d' r' (<[Z.to_nat f := mkPage data p 1 false]> (pages_ b))
     (<[p := f]> (page_table_ b)) (free_list_ b) (num_hits_ b) (num_misses_ b).

Lemma install_frame b a p f data r' d' a' :
  pool_rel [f] b a → 0 ≤ f < pool_size_ b → page_table_ b !! p = None →
  DiskManager.valid_id p → p < APool.next a' → blen data = PAGE_SIZE →
  repl_inv r' → repl_frames r' = repl_frames (replacer_ b) →
  tracked r' = <[f := false]> (tracked (replacer_ b)) →
  DiskManager.sound d' → DiskManager.next_page_id_ d' = APool.next a' →
  (∀ q, 0 ≤ q → DiskManager.contents d' q = disk_page b q) →
  APool.cap a' = APool.cap a → APool.next a ≤ APool.next a' →
  APool.pins a' = APool.pins a ⊎ {[+ p +]} →
  (∀ q, q ≠ p → APool.pages a' !! q = APool.pages a !! q ∧
                (q ∈ APool.unsaved a' ↔ q ∈ APool.unsaved a)) →
  APool.pages a' !! p = Some data →
  (p ∉ APool.unsaved a' → disk_page b p = data) →
  pool_rel [] (with_page f p data r' d' b) a'.
Proof.
  intros H Hf Hp Hval Hpn Hlen Hri Hrf Htr Hdh Hdn Hdo Hcap Hnext Hpins Hoth Hpd Hpu.
  assert (Hlt : (Z.to_nat f < length (pages_ b))%nat) by (rewrite (pr_size _ _ _ H); lia).
  assert (Hno : ∀ q, page_table_ b !! q ≠ Some f) by (apply (pr_idle _ _ _ H f); set_solver).
  assert (Hp0 : multiplicity p (APool.pins a) = 0%nat).
  { apply not_elem_of_multiplicity. intros [[g Hg] _]%(pr_pins _ _ _ H). congruence. }
  split; simpl; try first [done|by apply H].
  - rewrite length_insert. apply H.
  - rewrite Hcap. apply H.
  - destruct (pr_next _ _ _ H). split; [done|lia].
  - split; [done|]. destruct (pr_repl _ _ _ H). congruence.
  - intros q g. rewrite lookup_insert_Some. intros [[<- <-]|[Hqp Hq]].
    + exists (mkPage data p 1 false). split; simpl; try done; try lia.
      * by rewrite list_lookup_insert_eq.
      * rewrite Hpins, multiplicity_disj_union, Hp0, multiplicity_singleton_eq. done.
      * by rewrite Htr, lookup_insert_eq.
    + destruct (pr_table _ _ _ H _ _ Hq) as [pg2 Hpg2]. exists pg2.
      assert (g ≠ f) by congruence. pose proof (fo_nonneg _ _ _ _ _ Hpg2).
      eapply frame_ok_frame; [exact Hpg2| | | |done]; simpl.
      * by rewrite list_lookup_insert_ne by lia.
      * by rewrite Htr, lookup_insert_ne.
      * rewrite Hpins, multiplicity_disj_union, multiplicity_singleton_ne by done. lia.
  - intros g e. rewrite Htr. intros [[<- _]|[Hg Ht]]%lookup_insert_Some.
    + exists p. by rewrite lookup_insert_eq.
    + destruct (pr_tracked _ _ _ H _ _ Ht) as [q Hq]. exists q.
      rewrite lookup_insert_ne by congruence. done.
  - rewrite app_nil_r. pose proof (pr_nodup _ _ _ H) as Hnd.
    by apply NoDup_app in Hnd as [? _].
  - intros g. rewrite app_nil_r. intros Hg.
    destruct (pr_idle _ _ _ H g) as (Hg0 & Hpg & Hno'); [set_solver|].
    assert (g ≠ f). { intros ->. pose proof (pr_nodup _ _ _ H) as Hnd.
      apply NoDup_app in Hnd as (_ & Hd & _). apply (Hd f Hg). set_solver. }
    split_and!; [done| |].
    + by rewrite list_lookup_insert_ne by lia.
    + intros q. rewrite lookup_insert_Some. intros [[_ ?]|[_ Hq]]; [by subst|by apply (Hno' q)].
  - rewrite app_nil_r, map_size_insert_None by done.
    pose proof (pr_count _ _ _ H) as Hc. rewrite length_app in Hc. simpl in Hc. lia.
  - intros q. rewrite Hpins, gmultiset_elem_of_disj_union, gmultiset_elem_of_singleton.
    destruct (decide (q = p)) as [->|Hqp]; intros Hq.
    + rewrite lookup_insert_eq, Hpd. eauto.
    + rewrite lookup_insert_ne by done. destruct (Hoth q Hqp) as [-> _]. apply H. naive_solver.
  - intros q Hq. rewrite Hpins, gmultiset_elem_of_disj_union, gmultiset_elem_of_singleton.
    destruct (decide (q = p)) as [->|Hqp]; [by right|left]. apply H. by apply Hoth.
  - intros q d Hq. destruct (decide (q = p)) as [->|Hqp].
    + split; [done|]. split; [done|]. rewrite lookup_insert_eq. eexists.
      rewrite list_lookup_insert_eq by done. split; [done|]. simpl.
      split; [congruence|]. intros Hu. right. unfold disk_page. simpl. destruct Hval.
      rewrite Hdo by done. rewrite (Hpu Hu). congruence.
    + destruct (Hoth q Hqp) as (Hq' & Hu). rewrite Hq' in Hq.
      destruct (pr_content _ _ _ H q d Hq) as (Hval' & Hnx & Hc).
      split; [done|]. split; [lia|]. unfold disk_page. simpl. destruct Hval' as [Hq0 _].
      rewrite Hdo by done. rewrite lookup_insert_ne by done.
      destruct (page_table_ b !! q) as [g|] eqn:Eg; [|done].
      destruct Hc as (pg2 & Hpg2 & Hd & Hs). exists pg2.
      assert (g ≠ f) by congruence. pose proof (frame_range _ _ _ _ _ H Eg).
      rewrite list_lookup_insert_ne by lia. split_and!; [done..|]. by rewrite Hu.
Qed.

(** The counters do not matter. *)
Lemma pool_rel_counters hole b a h m :
  pool_rel hole b a →
  pool_rel hole (mk (pool_size_ b) (disk_manager_ b) (replacer_ b) (pages_ b) (page_table_ b)
                    (free_list_ b) h m) a.
Proof.
  intros H. split; simpl; try by apply H. intros p f Hp.
  destruct (pr_table _ _ _ H p f Hp) as [pg Hfo]. exists pg. by eapply frame_ok_frame.
Qed.

(** ** The operations *)

Lemma pinned_spec b a p f pg :
  frame_ok b a p f pg → p ∈ APool.pins a ↔ 0 < pin_count_ pg.
Proof. intros Hfo. rewrite elem_of_multiplicity, (fo_pins _ _ _ _ _ Hfo). lia. Qed.

Lemma addressable_spec p : APool.addressable p = true ↔ DiskManager.valid_id p.
Proof. unfold APool.addressable, DiskManager.valid_id. rewrite andb_true_iff, !Z.leb_le. done. Qed.

Lemma sim_new : sim (pool_rel []) pool_new pool_new.
Proof.
  intros b a H. cbn [pool_new apool_pool bpm_pool]. unfold APool.new.
  destruct (APool.has_room a) eqn:Hr; simpl.
  2:{ exists b. split; [|done]. unfold NewPage. mstep.
      by rewrite (bind_Val _ _ _ _ _ (AcquireFrame_full _ _ H Hr)). }
  destruct (APool.addressable (APool.next a)) eqn:Hadr; simpl; [|done].
  apply addressable_spec in Hadr.
  destruct (AcquireFrame_room _ _ H Hr) as (f & b1 & Hacq & H1 & Hf & Hnone).
  destruct (pr_next _ _ _ H1) as [Hnx Hnx0]. destruct (pr_repl _ _ _ H1) as [Hri Hrf].
  assert (Hnew : page_table_ b1 !! APool.next a = None).
  { destruct (page_table_ b1 !! APool.next a) as [g|] eqn:E; [|done].
    destruct (pr_table _ _ _ H1 _ _ E) as [pg Hfo]. pose proof (fo_next _ _ _ _ _ Hfo). lia. }
  destruct (pr_idle _ _ _ H1 f) as (_ & Hpg & _); [set_solver|].
  unfold NewPage. mstep. rewrite (bind_Val _ _ _ _ _ Hacq). mstep.
  set (d' := DiskManager.mk (DiskManager.fd_ (disk_manager_ b1)) (DiskManager.file_name_ (disk_manager_ b1))
    (APool.next a + 1) (DiskManager.num_reads_ (disk_manager_ b1)) (DiskManager.num_writes_ (disk_manager_ b1))).
  rewrite (bind_Val _ _ b1 (APool.next a) (set_disk d' b1)) by (unfold d'; rewrite Hnx; done).
  rewrite bind_assoc, (bind_Val _ _ _ _ _ (page_at_ok (set_disk d' b1) f _ (proj1 Hf) Hpg)).
  unfold set_page. mstep.
  destruct (access_frame (with_page f (APool.next a) (zeros PAGE_SIZE) (replacer_ b1) d' b1) f)
    as (r1 & r' & Hri' & Hrf' & Htr' & E1 & E2); [done|simpl; lia|].
  mrun E1. mrun E2. eexists. split; [done|].
  apply (install_frame b1 a (APool.next a) f (zeros PAGE_SIZE) r' d'); simpl; try done; try lia.
  - destruct (pr_sound _ _ _ H1) as [Hhh Hend]. split; [done|]. simpl. rewrite <-Hnx in Hend. unfold PAGE_SIZE in *. lia.
  - intros q Hq. rewrite lookup_insert_ne by done. split; [done|set_solver].
  - by rewrite lookup_insert_eq.
  - set_solver.
Qed.

Lemma sim_fetch p : sim (pool_rel []) (pool_fetch p) (pool_fetch p).
Proof.
  intros b a H. cbn [pool_fetch apool_pool bpm_pool]. unfold APool.fetch.
  destruct (APool.pages a !! p) as [d|] eqn:Hpd; [|done].
  destruct (pr_content _ _ _ H p d Hpd) as (Hval & Hnx & Hc).
  unfold FetchPage. mstep. destruct (page_table_ b !! p) as [f|] eqn:Hp.
  - destruct (pr_table _ _ _ H _ _ Hp) as [pg Hfo]. pose proof (frame_range _ _ _ _ _ H Hp) as Hf.
    assert (bool_decide (p ∈ APool.pins a) || APool.has_room a = true) as ->.
    { destruct (APool.has_room a) eqn:Hr; [apply orb_true_r|].
      apply (has_room_spec _ _ H) in Hr as [_ Hall]. specialize (Hall _ _ _ Hp Hfo).
      rewrite orb_false_r. apply bool_decide_eq_true. apply (pinned_spec _ _ _ _ _ Hfo).
      rewrite (fo_pins _ _ _ _ _ Hfo) in *. lia. }
    rewrite bind_assoc, (bind_Val _ _ _ _ _ (page_at_ok b f pg (proj1 Hf) (fo_page _ _ _ _ _ Hfo))).
    unfold set_page. mstep. destruct (pr_repl _ _ _ H) as [Hri Hrf].
    set (pg' := mkPage (data_ pg) (page_id_ pg) (pin_count_ pg + 1) (is_dirty_ pg)).
    destruct (access_frame (with_frame f pg' (replacer_ b) (disk_manager_ b) b) f)
      as (r1 & r' & Hri' & Hrf' & Htr' & E1 & E2); [done|simpl; lia|].
    mrun E1. mrun E2. eexists. split; [done|].
    set (a' := APool.mk _ _ _ _ _).
    assert (Hm : multiplicity p (APool.pins a') = S (multiplicity p (APool.pins a))).
    { simpl. rewrite multiplicity_disj_union, multiplicity_singleton_eq. lia. }
    pose proof (fo_pins _ _ _ _ _ Hfo) as Hpin.
    apply (pool_rel_counters [] (with_frame f pg' r' (disk_manager_ b) b) a').
    apply (update_frame b a p f pg); try done; simpl; try by apply Hfo.
    + rewrite Hpin. unfold a' in Hm. simpl in Hm. lia.
    + rewrite (proj2 (Z.eqb_neq _ 0)) by lia. done.
    + apply H.
    + intros q Hq. rewrite multiplicity_disj_union, multiplicity_singleton_ne by done.
      split_and!; [lia|done..].
    + intros Hu%(pr_unsaved _ _ _ H). multiset_solver.
    + intros d' Hd'. rewrite Hpd in Hd'. simplify_eq.
      destruct Hc as (pg2 & Hpg2 & Hd & Hs). rewrite (fo_page _ _ _ _ _ Hfo) in Hpg2. by simplify_eq.
  - assert (bool_decide (p ∈ APool.pins a) = false) as ->.
    { apply bool_decide_eq_false. intros [[g Hg] _]%(pr_pins _ _ _ H). congruence. }
    simpl. mstep.
    assert (H0 : pool_rel [] (count_miss b) a) by (by apply pool_rel_counters).
    destruct (APool.has_room a) eqn:Hr.
    2:{ eexists. split; [|exact H0]. by rewrite (bind_Val _ _ _ _ _ (AcquireFrame_full _ _ H0 Hr)). }
    destruct (AcquireFrame_room _ _ H0 Hr) as (f & b1 & Hacq & H1 & Hf & Hnone).
    assert (Hp1 : page_table_ b1 !! p = None) by (by apply Hnone).
    destruct (pr_repl _ _ _ H1) as [Hri Hrf].
    destruct (pr_idle _ _ _ H1 f) as (_ & Hpg & _); [set_solver|].
    destruct (pr_content _ _ _ H1 p d Hpd) as (_ & _ & Hc1). rewrite Hp1 in Hc1.
    rewrite (bind_Val _ _ _ _ _ Hacq). mstep.
    rewrite (bind_Val _ _ _ _ _ (page_at_ok b1 f _ (proj1 Hf) Hpg)). mstep.
    rewrite (bind_Val _ _ b1 (disk_page b1 p) (set_disk (DiskManager.count_read (disk_manager_ b1)) b1)).
    2:{ unfold on_disk. rewrite DiskManager.ReadPage_ok by (done || apply H1). done. }
    unfold set_page. mstep. rewrite Hc1.
    assert (Hlen : blen d = PAGE_SIZE).
    { rewrite <-Hc1. unfold disk_page, DiskManager.contents. apply DiskManager.blen_page_of, Hval. }
    destruct (access_frame (with_page f p d (replacer_ b1) (DiskManager.count_read (disk_manager_ b1)) b1) f)
      as (r1 & r' & Hri' & Hrf' & Htr' & E1 & E2); [done|simpl; lia|].
    mrun E1. mrun E2. eexists. split; [done|].
    apply (install_frame b1 a p f d r'); simpl; try done; try lia.
    + by apply H1.
    + destruct (pr_next _ _ _ H1). done.
Qed.

Lemma on_replacer_set b f e :
  repl_inv (replacer_ b) → is_Some (tracked (replacer_ b) !! f) →
  ∃ r', on_replacer (SetEvictable f e) b = (Val tt, set_replacer r' b) ∧ repl_inv r' ∧
    repl_frames r' = repl_frames (replacer_ b) ∧ tracked r' = <[f := e]> (tracked (replacer_ b)).
Proof.
  intros Hri Ht. destruct (set_evictable_spec _ _ e Hri Ht) as (r' & E & ? & ? & ?).
  exists r'. split_and!; try done. unfold on_replacer. by rewrite E.
Qed.

(** What the specification's unpin leaves. *)
Lemma unpin_frame b a p f pg dirty r' :
  pool_rel [] b a → page_table_ b !! p = Some f → frame_ok b a p f pg → p ∈ APool.pins a →
  repl_inv r' → repl_frames r' = repl_frames (replacer_ b) →
  tracked r' = <[f := pin_count_ pg - 1 =? 0]> (tracked (replacer_ b)) →
  ∃ a', APool.unpin p dirty a = (Val true, a') ∧
    pool_rel [] (with_frame f (mkPage (data_ pg) (page_id_ pg) (pin_count_ pg - 1)
                   (dirty || is_dirty_ pg)) r' (disk_manager_ b) b) a'.
Proof.
  intros H Hp Hfo Hin Hri Hrf Htr. unfold APool.unpin.
  rewrite bool_decide_eq_true_2 by done. simpl.
  destruct (pr_pins _ _ _ H p Hin) as [_ [d Hd]].
  pose proof (fo_pins _ _ _ _ _ Hfo) as Hpin. pose proof (proj1 (elem_of_multiplicity _ _) Hin) as Hm.
  destruct (pr_content _ _ _ H p d Hd) as (_ & _ & Hc). rewrite Hp in Hc.
  destruct Hc as (pg2 & Hpg2 & Hdata & Hs). rewrite (fo_page _ _ _ _ _ Hfo) in Hpg2.
  injection Hpg2 as <-.
  set (pins' := APool.pins a ∖ {[+ p +]}).
  assert (Hm' : multiplicity p pins' = (multiplicity p (APool.pins a) - 1)%nat).
  { unfold pins'. by rewrite multiplicity_difference, multiplicity_singleton_eq. }
  assert (Hmo : ∀ q, q ≠ p → multiplicity q pins' = multiplicity q (APool.pins a)).
  { intros q Hq. unfold pins'. rewrite multiplicity_difference, multiplicity_singleton_ne by done. lia. }
  set (uns' := if dirty then APool.unsaved a ∖ {[p]} else APool.unsaved a).
  assert (Huo : ∀ q, q ≠ p → q ∈ uns' ↔ q ∈ APool.unsaved a) by (unfold uns'; destruct dirty; set_solver).
  destruct (bool_decide (p ∉ pins') && bool_decide (p ∈ uns')) eqn:El;
    (eexists; split; [done|]); apply (update_frame b a p f pg); simpl; try done;
    try (by apply Hfo); try (by apply H); try (rewrite Hpin, Hm'; lia).
  - intros q Hq. rewrite lookup_delete_ne by done. split_and!; [by apply Hmo|done|].
    rewrite elem_of_difference, not_elem_of_singleton, Huo by done. tauto.
  - apply andb_true_iff in El as [El _]. apply bool_decide_eq_true in El. done.
  - intros Hu. set_solver.
  - intros d'. by rewrite lookup_delete_eq.
  - intros q Hq. split_and!; [by apply Hmo|done|by apply Huo].
  - intros Hu. apply andb_false_iff in El as [El|El]; apply bool_decide_eq_false in El; [|done].
    destruct (decide (p ∈ pins')); [done|]. by destruct El.
  - intros d' Hd'. rewrite Hd in Hd'. simplify_eq. split; [done|]. intros Hu.
    unfold uns' in Hu. destruct dirty; simpl; [by left|]. by apply Hs.
Qed.

Lemma sim_unpin p dirty : sim (pool_rel []) (pool_unpin p dirty) (pool_unpin p dirty).
Proof.
  intros b a H. cbn [pool_unpin apool_pool bpm_pool].
  destruct (decide (p ∈ APool.pins a)) as [Hin|Hin].
  - destruct (pr_pins _ _ _ H p Hin) as [[f Hp] _]. destruct (pr_table _ _ _ H _ _ Hp) as [pg Hfo].
    destruct (pr_repl _ _ _ H) as [Hri Hrf]. pose proof (proj1 (pinned_spec _ _ _ _ _ Hfo) Hin) as Hpin.
    assert (∃ r', repl_inv r' ∧ repl_frames r' = repl_frames (replacer_ b) ∧
      tracked r' = <[f := pin_count_ pg - 1 =? 0]> (tracked (replacer_ b)) ∧
      UnpinPage p dirty b = (Val true, with_frame f (mkPage (data_ pg) (page_id_ pg) (pin_count_ pg - 1)
                   (dirty || is_dirty_ pg)) r' (disk_manager_ b) b)) as (r' & Hri' & Hrf' & Htr' & E).
    { unfold UnpinPage. mstep. rewrite Hp.
      mrun (page_at_ok b f pg (fo_nonneg _ _ _ _ _ Hfo) (fo_page _ _ _ _ _ Hfo)).
      rewrite (proj2 (Z.leb_gt _ _)) by lia. unfold set_page. mstep.
      destruct (Z.eqb_spec (pin_count_ pg - 1) 0) as [E|E].
      - destruct (on_replacer_set (with_frame f (mkPage (data_ pg) (page_id_ pg) (pin_count_ pg - 1)
                   (dirty || is_dirty_ pg)) (replacer_ b) (disk_manager_ b) b) f true)
          as (r' & Er & ? & ? & ?); [done|simpl; rewrite (fo_tracked _ _ _ _ _ Hfo); eauto|].
        exists r'. split_and!; try done. by mrun Er.
      - exists (replacer_ b). split_and!; [done|done| |done].
        rewrite insert_id; [done|]. rewrite (fo_tracked _ _ _ _ _ Hfo). f_equal. lia. }
    destruct (unpin_frame b a p f pg dirty r') as (a' & Ea & H'); [done..|].
    rewrite Ea. eauto.
  - unfold APool.unpin. rewrite bool_decide_eq_false_2 by done. simpl.
    exists b. split; [|done]. unfold UnpinPage. mstep.
    destruct (page_table_ b !! p) as [f|] eqn:Hp; [|done].
    destruct (pr_table _ _ _ H _ _ Hp) as [pg Hfo].
    mrun (page_at_ok b f pg (fo_nonneg _ _ _ _ _ Hfo) (fo_page _ _ _ _ _ Hfo)).
    rewrite (proj2 (Z.leb_le _ _)); [done|]. rewrite (pinned_spec _ _ _ _ _ Hfo) in Hin. lia.
Qed.

(** A page that is not pinned may be forgotten. *)
Lemma forget_page hole b a p :
  pool_rel hole b a → p ∉ APool.pins a →
  pool_rel hole b (APool.mk (APool.cap a) (delete p (APool.pages a)) (APool.pins a)
                     (APool.unsaved a) (APool.next a)).
Proof.
  intros H Hp. split; simpl; try by apply H.
  - intros q f Hq. destruct (pr_table _ _ _ H q f Hq) as [pg Hfo]. exists pg. by eapply frame_ok_frame.
  - intros q Hq. destruct (pr_pins _ _ _ H q Hq) as [? ?]. split; [done|].
    rewrite lookup_delete_ne; [done|]. by intros ->.
  - intros q d [_ Hq]%lookup_delete_Some. by apply H.
Qed.

Lemma drop_frame b a p f r' :
  pool_rel [] b a → page_table_ b !! p = Some f → p ∉ APool.pins a → APool.pages a !! p = None →
  repl_inv r' → repl_frames r' = repl_frames (replacer_ b) →
  tracked r' = delete f (tracked (replacer_ b)) →
  pool_rel [] (mk (pool_size_ b) (disk_manager_ b) r' (<[Z.to_nat f := ResetMemory]> (pages_ b))
     (delete p (page_table_ b)) (free_list_ b ++ [f]) (num_hits_ b) (num_misses_ b)) a.
Proof.
  intros H Hp Hin Hpd Hri Hrf Htr. pose proof (frame_range _ _ _ _ _ H Hp) as Hf.
  assert (Hlt : (Z.to_nat f < length (pages_ b))%nat) by (rewrite (pr_size _ _ _ H); lia).
  assert (Hne : ∀ q g, page_table_ b !! q = Some g → q ≠ p → g ≠ f).
  { intros q g Hq Hqp ->. by apply Hqp, (table_inj _ _ _ _ _ _ H Hq). }
  pose proof (pr_idle _ _ _ H) as Hidle. rewrite app_nil_r in Hidle.
  split; simpl; rewrite ?app_nil_r; try first [done|by apply H].
  - rewrite length_insert. apply H.
  - split; [done|]. destruct (pr_repl _ _ _ H). congruence.
  - intros q g [Hqp Hq]%lookup_delete_Some.
    destruct (pr_table _ _ _ H _ _ Hq) as [pg' Hpg']. exists pg'.
    assert (g ≠ f) by eauto. pose proof (fo_nonneg _ _ _ _ _ Hpg').
    eapply frame_ok_frame; [exact Hpg'| | |done|done]; simpl.
    + by rewrite list_lookup_insert_ne by lia.
    + by rewrite Htr, lookup_delete_ne.
  - intros g e. rewrite Htr. intros [Hfv Ht]%lookup_delete_Some.
    destruct (pr_tracked _ _ _ H _ _ Ht) as [q Hq]. exists q.
    apply lookup_delete_Some. split; [|done]. intros ->. congruence.
  - apply NoDup_app. pose proof (pr_nodup _ _ _ H) as Hnd. rewrite app_nil_r in Hnd.
    split_and!; [done| |apply NoDup_singleton]. intros g Hg ->%list_elem_of_singleton.
    by apply (Hidle f Hg) in Hp.
  - intros g [Hg| ->]%elem_of_snoc.
    + destruct (Hidle g Hg) as (Hg0 & Hpg & Hno). split_and!; [done| |].
      * rewrite list_lookup_insert_ne; [done|]. assert (f ≠ g); [|lia]. intros ->. by apply (Hno p).
      * intros q [_ Hq]%lookup_delete_Some. by apply (Hno q).
    + split_and!; [lia|by rewrite list_lookup_insert_eq|].
      intros q [Hqp Hq]%lookup_delete_Some. by eapply Hne.
  - pose proof (pr_count _ _ _ H) as Hc. rewrite app_nil_r in Hc. rewrite length_app. simpl.
    rewrite map_size_delete_Some by eauto.
    assert (size (page_table_ b) ≠ 0%nat); [|lia]. apply map_size_ne_0_lookup. eauto.
  - intros q Hq. destruct (pr_pins _ _ _ H q Hq) as [[g Hg] ?]. split; [|done].
    exists g. apply lookup_delete_Some. split; [|done]. by intros ->.
  - intros q d Hq. destruct (pr_content _ _ _ H q d Hq) as (Hval & Hnx & Hc).
    split; [done|]. split; [done|]. assert (q ≠ p) by congruence.
    rewrite lookup_delete_ne by done. destruct (page_table_ b !! q) as [g|] eqn:Eg; [|done].
    destruct Hc as (pg' & Hpg' & Hd & Hs). exists pg'.
    assert (g ≠ f) by eauto. pose proof (frame_range _ _ _ _ _ H Eg).
    rewrite list_lookup_insert_ne by lia. done.
Qed.

Lemma sim_delete p : sim (pool_rel []) (pool_delete p) (pool_delete p).
Proof.
  intros b a H. cbn [pool_delete apool_pool bpm_pool]. unfold APool.del, DeletePage.
  case_bool_decide as Hin.
  - exists b. split; [|done]. mstep. destruct (pr_pins _ _ _ H p Hin) as [[f Hp] _]. rewrite Hp.
    destruct (pr_table _ _ _ H _ _ Hp) as [pg Hfo].
    mrun (page_at_ok b f pg (fo_nonneg _ _ _ _ _ Hfo) (fo_page _ _ _ _ _ Hfo)).
    by rewrite (proj2 (Z.ltb_lt _ _)) by (by apply (pinned_spec _ _ _ _ _ Hfo)).
  - mstep. pose proof (forget_page [] b a p H Hin) as H0.
    destruct (page_table_ b !! p) as [f|] eqn:Hp; [|by exists b].
    destruct (pr_table _ _ _ H _ _ Hp) as [pg Hfo].
    mrun (page_at_ok b f pg (fo_nonneg _ _ _ _ _ Hfo) (fo_page _ _ _ _ _ Hfo)).
    rewrite (proj2 (Z.ltb_ge _ _)) by (rewrite (pinned_spec _ _ _ _ _ Hfo) in Hin; lia).
    destruct (pr_repl _ _ _ H) as [Hri Hrf].
    destruct (on_replacer_set b f true) as (r1 & E1 & Hr1 & Hn1 & Ht1);
      [done|rewrite (fo_tracked _ _ _ _ _ Hfo); eauto|].
    destruct (remove_spec r1 f Hr1) as (r2 & E2 & Hr2 & Hn2 & Ht2); [by rewrite Ht1, lookup_insert_eq|].
    assert (on_replacer (Remove f) (set_replacer r1 b) = (Val tt, set_replacer r2 b)) as E2'.
    { unfold on_replacer. simpl. by rewrite E2. }
    mrun E1. mrun E2'. eexists. split; [done|].
    apply (drop_frame b); try done; simpl; [by rewrite lookup_delete_eq|congruence|].
    by rewrite Ht2, Ht1, delete_insert_eq.
Qed.

Lemma pinned_frame_ok b a p :
  pool_rel [] b a → p ∈ APool.pins a →
  ∃ f pg, page_table_ b !! p = Some f ∧ frame_ok b a p f pg ∧ pinned_frame p b = (Val (f, pg), b) ∧
    APool.pages a !! p = Some (data_ pg).
Proof.
  intros H Hin. destruct (pr_pins _ _ _ H p Hin) as [[f Hp] [d Hd]].
  destruct (pr_table _ _ _ H _ _ Hp) as [pg Hfo]. exists f, pg. split_and!; try done.
  - unfold pinned_frame. mstep. rewrite Hp.
    mrun (page_at_ok b f pg (fo_nonneg _ _ _ _ _ Hfo) (fo_page _ _ _ _ _ Hfo)).
    by rewrite (proj2 (Z.ltb_lt _ _)) by (by apply (pinned_spec _ _ _ _ _ Hfo)).
  - destruct (pr_content _ _ _ H p d Hd) as (_ & _ & Hc). rewrite Hp in Hc.
    destruct Hc as (pg2 & Hpg2 & Hdata & _). rewrite (fo_page _ _ _ _ _ Hfo) in Hpg2.
    simplify_eq. done.
Qed.

Lemma sim_read p : sim (pool_rel []) (pool_read p) (pool_read p).
Proof.
  intros b a H. cbn [pool_read apool_pool bpm_pool]. unfold APool.read, GetData.
  destruct (APool.pages a !! p) as [d|] eqn:Hd; [|done]. case_bool_decide as Hin; [|done].
  destruct (pinned_frame_ok b a p H Hin) as (f & pg & Hp & Hfo & E & Hpd).
  exists b. split; [|done]. mrun E. by simplify_eq.
Qed.

Lemma sim_write p d : sim (pool_rel []) (pool_write p d) (pool_write p d).
Proof.
  intros b a H. cbn [pool_write apool_pool bpm_pool]. unfold APool.write, SetData.
  case_bool_decide as Hin; [|done]. destruct (Z.eqb_spec (blen d) PAGE_SIZE) as [Hlen|]; [|done]. simpl.
  destruct (pinned_frame_ok b a p H Hin) as (f & pg & Hp & Hfo & E & Hpd).
  destruct (pr_repl _ _ _ H) as [Hri Hrf]. case_bool_decide as Hsame.
  { mrun E. eexists. split; [done|]. rewrite Hpd in Hsame. injection Hsame as <-.
    destruct pg as [pd pid pc pdirty]. simpl. rewrite list_insert_id by apply Hfo. by destruct b. }
  mrun E. eexists. split; [done|].
  apply (update_frame b a p f pg _ (replacer_ b) (disk_manager_ b)); simpl; try done;
    try (by apply Hfo); try (by apply H).
  - rewrite insert_id; [done|]. by apply Hfo.
  - intros q Hq. rewrite lookup_insert_ne by done. split_and!; [done..|set_solver].
  - intros _. rewrite lookup_insert_eq. eauto.
  - intros d'. rewrite lookup_insert_eq. intros [= ->]. split; [done|]. set_solver.
Qed.

(** ** Flushing *)

(** Writing the page of one frame back, as both flushes do. *)
Lemma flush_frame b a p f pg d' :
  pool_rel [] b a → page_table_ b !! p = Some f → frame_ok b a p f pg →
  DiskManager.sound d' →
  DiskManager.next_page_id_ d' = DiskManager.next_page_id_ (disk_manager_ b) →
  DiskManager.contents d' p = data_ pg →
  (∀ q, 0 ≤ q → q ≠ p → DiskManager.contents d' q = disk_page b q) →
  pool_rel [] (with_frame f (mkPage (data_ pg) (page_id_ pg) (pin_count_ pg) false)
                 (replacer_ b) d' b) a.
Proof.
  intros H Hp Hfo Hh Hn Hdp Hdo. destruct (pr_repl _ _ _ H) as [Hri Hrf].
  apply (update_frame b a p f pg _ (replacer_ b) d'); simpl; try done;
    try (by apply Hfo); try (by apply H).
  - rewrite insert_id; [done|]. by apply Hfo.
  - intros d Hd. destruct (pr_content _ _ _ H p d Hd) as (_ & _ & Hc). rewrite Hp in Hc.
    destruct Hc as (pg2 & Hpg2 & Hdata & _). rewrite (fo_page _ _ _ _ _ Hfo) in Hpg2.
    simplify_eq. auto.
Qed.

Lemma FlushPage_rel b a p :
  pool_rel [] b a →
  ∃ b', FlushPage p b = (Val (bool_decide (is_Some (page_table_ b !! p))), b') ∧ pool_rel [] b' a ∧
    (∀ d, APool.pages a !! p = Some d → disk_page b' p = d) ∧
    (∀ q, 0 ≤ q → q ≠ p → disk_page b' q = disk_page b q).
Proof.
  intros H. unfold FlushPage. mstep. destruct (page_table_ b !! p) as [f|] eqn:Hp.
  2:{ exists b. split_and!; [done..| |done]. intros d Hd.
      destruct (pr_content _ _ _ H p d Hd) as (_ & _ & Hc). by rewrite Hp in Hc. }
  destruct (pr_table _ _ _ H _ _ Hp) as [pg Hfo].
  mrun (page_at_ok b f pg (fo_nonneg _ _ _ _ _ Hfo) (fo_page _ _ _ _ _ Hfo)).
  rewrite (fo_id _ _ _ _ _ Hfo).
  destruct (write_back b p (data_ pg)) as (d' & Hw & Hh & Hn & Hdp & Hdo);
        [apply H|apply Hfo|by eapply frame_alloc|apply Hfo|].
  mrun Hw. eexists. split; [done|]. split_and!; [| |done].
  - rewrite <-(fo_id _ _ _ _ _ Hfo) at 1. by apply (flush_frame b a p f pg).
  - intros d Hd. destruct (pr_content _ _ _ H p d Hd) as (_ & _ & Hc). rewrite Hp in Hc.
    destruct Hc as (pg2 & Hpg2 & Hdata & _). rewrite (fo_page _ _ _ _ _ Hfo) in Hpg2.
    simplify_eq. done.
Qed.

Lemma flush_entries_rel l b a :
  pool_rel [] b a → NoDup l.*1 → (∀ p f, (p, f) ∈ l → page_table_ b !! p = Some f) →
  ∃ b', flush_entries l b = (Val tt, b') ∧ pool_rel [] b' a ∧ page_table_ b' = page_table_ b ∧
    (∀ p f, page_table_ b !! p = Some f → p ∉ l.*1 →
       pages_ b' !! Z.to_nat f = pages_ b !! Z.to_nat f ∧ disk_page b' p = disk_page b p) ∧
    (∀ p f pg, (p, f) ∈ l → pages_ b' !! Z.to_nat f = Some pg → is_dirty_ pg = false).
Proof.
  revert b; induction l as [|[p f] l IH]; intros b H Hnd Hin.
  { exists b. split_and!; try done. set_solver. }
  simpl in Hnd. apply NoDup_cons in Hnd as [Hpl Hnd].
  assert (Hp : page_table_ b !! p = Some f) by (apply Hin; set_solver).
  destruct (pr_table _ _ _ H _ _ Hp) as [pg Hfo]. pose proof (frame_range _ _ _ _ _ H Hp) as Hf.
  assert (Hlt : (Z.to_nat f < length (pages_ b))%nat) by (rewrite (pr_size _ _ _ H); lia).
  assert (∃ b1 pg1, (if is_dirty_ pg then
         on_disk (DiskManager.WritePage p (data_ pg));;
         set_page f (mkPage (data_ pg) (page_id_ pg) (pin_count_ pg) false)
       else mret tt) b = (Val tt, b1) ∧ pool_rel [] b1 a ∧ page_table_ b1 = page_table_ b ∧
       pages_ b1 !! Z.to_nat f = Some pg1 ∧ is_dirty_ pg1 = false ∧
       (∀ q g, page_table_ b !! q = Some g → q ≠ p →
         pages_ b1 !! Z.to_nat g = pages_ b !! Z.to_nat g ∧ disk_page b1 q = disk_page b q))
    as (b1 & pg1 & E1 & H1 & Ht1 & Hpg1 & Hd1 & Ho1).
  { destruct (is_dirty_ pg) eqn:Hd.
    - destruct (write_back b p (data_ pg)) as (d' & Hw & Hh & Hn & Hdp & Hdo);
        [apply H|apply Hfo|by eapply frame_alloc|apply Hfo|].
      eexists _, (mkPage (data_ pg) (page_id_ pg) (pin_count_ pg) false). mrun Hw.
      split; [done|]. split; [by apply (flush_frame b a p f pg)|]. simpl. split_and!; [done| |done|].
      + by rewrite list_lookup_insert_eq.
      + intros q g Hq Hqp. pose proof (frame_range _ _ _ _ _ H Hq) as Hg.
        assert (g ≠ f). { intros ->. by apply Hqp, (table_inj _ _ _ _ _ _ H Hq). }
        rewrite list_lookup_insert_ne by lia. split; [done|]. apply Hdo; [|done].
        destruct (pr_table _ _ _ H _ _ Hq) as [pg2 Hfo2]. apply Hfo2.
    - exists b, pg. split_and!; try done. apply Hfo. }
  destruct (IH b1 H1 Hnd) as (b' & E' & H' & Ht' & Ho' & Hd').
  { intros q g Hq. rewrite Ht1. apply Hin. set_solver. }
  exists b'. rewrite Ht1 in *. split_and!; [|done..| |].
  - cbn [flush_entries]. mrun (page_at_ok b f pg (fo_nonneg _ _ _ _ _ Hfo) (fo_page _ _ _ _ _ Hfo)).
    by mrun E1.
  - intros q g Hq Hql. simpl in Hql. apply not_elem_of_cons in Hql as [Hqp Hql].
    destruct (Ho' q g Hq Hql) as [-> ->]. by apply Ho1.
  - intros q g pg2. rewrite elem_of_cons. intros [[= -> ->]|Hq] Hpg2; [|by eapply Hd'].
    destruct (Ho' p f Hp Hpl) as [E _]. rewrite E in Hpg2. congruence.
Qed.

(** After [FlushAllPages] every page whose changes were announced is on disk. *)
Lemma FlushAllPages_rel b a :
  pool_rel [] b a →
  ∃ b', FlushAllPages b = (Val tt, b') ∧ pool_rel [] b' a ∧
    ∀ p d, APool.pages a !! p = Some d → p ∉ APool.unsaved a → disk_page b' p = d.
Proof.
  intros H. unfold FlushAllPages. mstep.
  destruct (flush_entries_rel (map_to_list (page_table_ b)) b a H) as (b' & E & H' & Ht & _ & Hd).
  - apply NoDup_fst_map_to_list.
  - intros p f. by rewrite elem_of_map_to_list.
  - exists b'. split_and!; [done..|]. intros p d Hp Hu.
    destruct (pr_content _ _ _ H' p d Hp) as (_ & _ & Hc).
    destruct (page_table_ b' !! p) as [f|] eqn:Ef; [|done].
    destruct Hc as (pg & Hpg & Hdata & Hs). destruct (Hs Hu) as [Hdirty|]; [|done].
    rewrite (Hd p f pg) in Hdirty; [done| |done]. apply elem_of_map_to_list. by rewrite <-Ht.
Qed.

(** ** A fresh pool *)

(** What a pool just built over a disk stands for: every allocated page. *)
Definition boot (n : Z) (d : DiskManager.t) : APool.t :=
  APool.mk n
    (list_to_map ((λ i, (i, DiskManager.contents d i)) <$> seqZ 0 (DiskManager.next_page_id_ d)))
    ∅ ∅ (DiskManager.next_page_id_ d).

Lemma boot_pages n d p x :
  APool.pages (boot n d) !! p = Some x ↔
  0 ≤ p < DiskManager.next_page_id_ d ∧ x = DiskManager.contents d p.
Proof.
  simpl. rewrite <-elem_of_list_to_map.
  - rewrite list_elem_of_fmap. setoid_rewrite elem_of_seqZ. split.
    + intros (i & [= -> ->] & ?). split; [lia|done].
    + intros [? ->]. exists p. split; [done|lia].
  - rewrite <-list_fmap_compose. replace (fst ∘ _) with (@id Z) by done.
    rewrite list_fmap_id. apply NoDup_seqZ.
Qed.

Lemma pool_rel_new n d r :
  0 ≤ n → DiskManager.sound d → 0 ≤ DiskManager.next_page_id_ d →
  DiskManager.next_page_id_ d * PAGE_SIZE ≤ int64_max →
  repl_inv r → repl_frames r = n → tracked r = ∅ →
  pool_rel [] (New n d r) (boot n d).
Proof.
  intros Hn Hh Hnx Hmax Hri Hrf Htr. split; try done.
  - simpl. by rewrite length_replicate.
  - intros f e. simpl. by rewrite Htr, lookup_empty.
  - simpl. rewrite app_nil_r. apply NoDup_fmap_2; [apply _|]. apply NoDup_seq.
  - intros f. simpl. rewrite app_nil_r, list_elem_of_fmap. intros (i & -> & Hi%elem_of_seq).
    split_and!; [lia| |done]. rewrite lookup_replicate_2; [done|lia].
  - simpl. rewrite app_nil_r, length_fmap, length_seq, map_size_empty. lia.
  - intros p. simpl. set_solver.
  - intros p x [Hp ->]%boot_pages. split_and!; [|simpl; lia|done].
    split; [lia|]. unfold PAGE_SIZE in *. nia.
Qed.
End pool.
