(* ===== verification/StorageProps.v ===== *)
(** * Disk, replacement policies and buffer pool: properties *)

From stdpp Require Import gmultiset.
From S2P Require Import Prelude Bytes Disk Replacer ReplacerTheory Buffer BufferTheory.

#[local] Open Scope Z_scope.

(** ** The disk *)

(** C27: a page written is the page read back, the other pages read as before,
    whatever the file held and wherever it ended. *)
Theorem disk_read_after_write p q x d :
  DiskManager.healthy d → DiskManager.valid_id p → DiskManager.valid_id q → blen x = PAGE_SIZE →
  ∃ d', DiskManager.WritePage p x d = (Val tt, d') ∧
    DiskManager.ReadPage p d' = (Val x, DiskManager.count_read d') ∧
    (q ≠ p → (DiskManager.ReadPage q d').1 = (DiskManager.ReadPage q d).1).
Proof.
  intros Hh Hp Hq Hx. eexists. split; [by apply DiskManager.WritePage_ok|].
  rewrite !DiskManager.ReadPage_ok by done. split.
  - assert (DiskManager.contents (DiskManager.count_write (DiskManager.set_fd (DiskManager.File
      (DiskManager.write_file (DiskManager.f_data (DiskManager.fd_ d)) p x) []) d)) p = x) as ->; [|done].
    apply DiskManager.page_of_write_eq; [apply Hp|done].
  - intros Hne. simpl. apply (f_equal Val). apply DiskManager.page_of_write_ne; [apply Hp|apply Hq|done|done].
Qed.

Definition blank_disk : DiskManager.t := DiskManager.mk (DiskManager.File [] []) "db" 0 0 0.

Lemma disk_read_after_write_witness :
  ∃ d', DiskManager.WritePage 2 (zeros PAGE_SIZE) blank_disk = (Val tt, d') ∧
    DiskManager.ReadPage 2 d' = (Val (zeros PAGE_SIZE), DiskManager.count_read d') ∧
    (1 ≠ 2 → (DiskManager.ReadPage 1 d').1 = (DiskManager.ReadPage 1 blank_disk).1).
Proof. apply (disk_read_after_write 2 1 (zeros PAGE_SIZE) blank_disk); by vm_compute. Defined.

(** C29: a read that the system refuses raises [IOException] with its reason and
    leaves the counters alone; so do a refused write and a refused [fsync], and
    none of them changes the file. *)
Theorem disk_errors_reported p x d e fs :
  DiskManager.f_faults (DiskManager.fd_ d) = Some (DiskManager.Refused e) :: fs → DiskManager.valid_id p → PAGE_SIZE ≤ blen x →
  let d' := DiskManager.set_fd (DiskManager.File (DiskManager.f_data (DiskManager.fd_ d)) fs) d in
  DiskManager.ReadPage p d =
    (Exn (IOException ("DiskManager: read failed for page " +:+ to_string p +:+ ": " +:+ e)), d') ∧
  DiskManager.WritePage p x d =
    (Exn (IOException ("DiskManager: write failed for page " +:+ to_string p +:+ ": " +:+ e)), d') ∧
  DiskManager.Sync d = (Exn (IOException ("DiskManager: fsync failed: " +:+ e)), d').
Proof.
  intros Hf Hp Hx d'.
  assert (Hs : ∀ A (body : option (Z * string) → bytes → option string + A * bytes),
    DiskManager.on_fd (DiskManager.syscall body) d = (Val (inl e), d')).
  { intros A body. unfold DiskManager.on_fd, DiskManager.syscall. by rewrite Hf. }
  split_and!.
  - unfold DiskManager.ReadPage. mrun (DiskManager.offset_of_ok p d Hp). mdo (apply Hs). done.
  - unfold DiskManager.WritePage. mrun (DiskManager.offset_of_ok p d Hp).
    rewrite (proj2 (Z.ltb_ge _ _)) by done. mdo (apply Hs). done.
  - unfold DiskManager.Sync. mdo (apply Hs). done.
Qed.

Definition failing_disk : DiskManager.t :=
  DiskManager.mk (DiskManager.File [] [Some (DiskManager.Refused "Input/output error")]) "db" 1 0 0.

Lemma disk_errors_reported_witness :
  let d' := DiskManager.set_fd (DiskManager.File [] []) failing_disk in
  DiskManager.ReadPage 0 failing_disk =
    (Exn (IOException ("DiskManager: read failed for page " +:+ to_string 0 +:+ ": " +:+ "Input/output error")), d') ∧
  DiskManager.WritePage 0 (zeros PAGE_SIZE) failing_disk =
    (Exn (IOException ("DiskManager: write failed for page " +:+ to_string 0 +:+ ": " +:+ "Input/output error")), d') ∧
  DiskManager.Sync failing_disk = (Exn (IOException ("DiskManager: fsync failed: " +:+ "Input/output error")), d').
Proof. apply (disk_errors_reported 0 (zeros PAGE_SIZE) failing_disk "Input/output error" []); by vm_compute. Defined.

(** A write carried out in part raises [IOException] and leaves the page torn:
    its first [n] bytes are the new ones. *)
Theorem disk_short_write p x d n e fs :
  DiskManager.f_faults (DiskManager.fd_ d) = Some (DiskManager.Short n e) :: fs → DiskManager.valid_id p →
  blen x = PAGE_SIZE → 0 ≤ n < PAGE_SIZE →
  DiskManager.WritePage p x d =
    (Exn (IOException ("DiskManager: write failed for page " +:+ to_string p +:+ ": " +:+ e)),
     DiskManager.set_fd (DiskManager.File
       (DiskManager.write_file (DiskManager.f_data (DiskManager.fd_ d)) p (block x 0 n)) fs) d).
Proof.
  intros Hf Hp Hx Hn. unfold DiskManager.WritePage. mrun (DiskManager.offset_of_ok p d Hp).
  rewrite (proj2 (Z.ltb_ge _ _)) by lia. unfold DiskManager.on_fd, DiskManager.pwrite, DiskManager.syscall, mbind, M_bind.
  rewrite Hf. replace (block x 0 PAGE_SIZE) with x by (rewrite <-Hx; symmetry; apply block_all).
  rewrite (proj2 (Z.ltb_ge _ _)) by (destruct Hp; unfold PAGE_SIZE; lia). cbn -[PAGE_SIZE].
  rewrite (proj2 (Z.eqb_neq (blen (block x 0 n)) PAGE_SIZE)) by (rewrite blen_block; lia). done.
Qed.

(** A read cut short before the end of the page is taken for the end of the
    file: the rest reads as zeros. *)
Theorem disk_short_read p d n e fs :
  DiskManager.f_faults (DiskManager.fd_ d) = Some (DiskManager.Short n e) :: fs → DiskManager.valid_id p →
  0 ≤ n < PAGE_SIZE → p * PAGE_SIZE + PAGE_SIZE ≤ blen (DiskManager.f_data (DiskManager.fd_ d)) →
  (DiskManager.ReadPage p d).1 =
    Val (block (DiskManager.f_data (DiskManager.fd_ d)) (p * PAGE_SIZE) n ++ zeros (PAGE_SIZE - n)).
Proof.
  intros Hf [Hp Hv] Hn Hlen. unfold DiskManager.ReadPage. mrun (DiskManager.offset_of_ok p d (conj Hp Hv)).
  unfold DiskManager.on_fd, DiskManager.pread, DiskManager.syscall, mbind, M_bind.
  rewrite Hf. rewrite (proj2 (Z.ltb_ge _ _)) by (unfold PAGE_SIZE; lia). cbn -[PAGE_SIZE].
  rewrite block_block by (unfold PAGE_SIZE in *; lia). rewrite Z.add_0_r, blen_block by (unfold PAGE_SIZE in *; lia).
  by rewrite (proj2 (Z.ltb_lt _ _)) by lia.
Qed.

(** ** LRU-K *)

Module LRUKProps.
Import LRUKReplacer LRUKTheory.

(** The states the policy can be in, with the complete log of accesses kept
    aside; as the pool calls it, only frames already accessed are marked and
    only evictable ones removed. *)
Inductive reached (n k : Z) : t → gmap frame_id_t (list Z * bool) → Prop :=
  | reached_new r : New n k = Val r → reached n k r ∅
  | reached_access r L f r' : reached n k r L → 0 ≤ f < n → RecordAccess f r = (Val tt, r') →
      reached n k r' (log_access (current_timestamp_ r) f L)
  | reached_set r L f b r' : reached n k r L → is_Some (L !! f) → SetEvictable f b r = (Val tt, r') →
      reached n k r' (log_set f b L)
  | reached_remove r L f h r' : reached n k r L → L !! f = Some (h, true) → Remove f r = (Val tt, r') →
      reached n k r' (delete f L)
  | reached_evict r L f order r' : reached n k r L → order ≡ₚ map_to_list (frames_ r) →
      Evict_in order r = (Val (Some f), r') → reached n k r' (delete f L).

Lemma reached_rel n k r L : 1 ≤ k → reached n k r L → rel r L ∧ num_frames_ r = n ∧ k_ r = k.
Proof.
  intros Hk. induction 1 as [r E|r L f r' _ [IH [Hn Hkr]] Hf E|r L f b r' _ [IH [Hn Hkr]] Hf E|r L f h r' _ [IH [Hn Hkr]] Hf E|r L f order r' _ [IH [Hn Hkr]] Hp E].
  - split; [by eapply rel_new; [|exact E]; lia|]. unfold New in E. rewrite (proj2 (Z.eqb_neq k 0)) in E by lia. by simplify_eq.
  - subst n. destruct (RecordAccess_rel r L f IH Hf) as (r1 & E1 & Hn & Hr). unfold RecordAccess in E. unfold RecordAccess in E1.
    case_match; [done|]. simplify_eq/=. done.
  - destruct (SetEvictable_rel r L f b IH Hf) as (r1 & E1 & Hn1 & Hr). unfold SetEvictable in E, E1. simplify_eq/=. done.
  - unfold Remove in E. rewrite (rel_frames _ _ IH), lookup_fmap, Hf in E. simpl in E. rewrite <-(rel_frames _ _ IH) in E.
    simplify_eq/=. split; [by eapply delete_rel|done].
  - destruct (Evict_in_spec r L IH order Hp) as [(f' & r1 & E1 & _ & _ & Hr)|[E1 _]]; [|congruence].
    rewrite E1 in E. simplify_eq. split; [done|]. unfold Evict_in in E1. by destruct (scan _ _ _ _) as [[b|]| | |]; simplify_eq/=.
Qed.

(** C11: whatever the calls and the iteration order of the hash map, the victim
    is the one evictable frame whose backward k-distance, over the complete
    access log, is largest (fewer than [k] accesses counting as infinite, then
    by first access); with no evictable frame there is none.  The capped
    histories lose nothing the choice needs. *)
Theorem lruk_victim n k r L order :
  1 ≤ k → reached n k r L → order ≡ₚ map_to_list (frames_ r) →
  (∃ f r', Evict_in order r = (Val (Some f), r') ∧ is_lruk_victim k L f ∧
     (∀ g, is_lruk_victim k L g → g = f) ∧ reached n k r' (delete f L)) ∨
  (Evict_in order r = (Val None, r) ∧ ∀ f h, L !! f ≠ Some (h, true)).
Proof.
  intros Hk Hr Hp. destruct (reached_rel n k r L Hk Hr) as (Hrel & Hn & Hkr).
  destruct (Evict_in_spec r L Hrel order Hp) as [(f & r' & E & Hv & _ & _)|?]; [left|by right]. rewrite Hkr in Hv.
  exists f, r'. split_and!; [done|done| |by eapply reached_evict].
  intros g Hg. rewrite <-Hkr in Hg, Hv. by eapply (victim_unique r L).
Qed.

Definition two_frames : t := mk 4 2 3 2 {[0 := mkFrame [0; 2] true; 1 := mkFrame [1] true]}.

Lemma two_frames_reached : reached 4 2 two_frames {[0 := ([0; 2], true); 1 := ([1], true)]}.
Proof.
  pose proof (reached_new 4 2 _ eq_refl) as H.
  pose proof (reached_access _ _ _ _ 0 _ H ltac:(lia) eq_refl) as H1.
  pose proof (reached_access _ _ _ _ 1 _ H1 ltac:(lia) eq_refl) as H2.
  pose proof (reached_access _ _ _ _ 0 _ H2 ltac:(lia) eq_refl) as H3.
  pose proof (reached_set _ _ _ _ 0 true _ H3 ltac:(vm_compute; eauto) eq_refl) as H4.
  pose proof (reached_set _ _ _ _ 1 true _ H4 ltac:(vm_compute; eauto) eq_refl) as H5.
  exact H5.
Qed.

Lemma lruk_victim_witness :
  ∃ f r', Evict_in (map_to_list (frames_ two_frames)) two_frames = (Val (Some f), r') ∧ f = 1.
Proof.
  destruct (lruk_victim 4 2 two_frames _ (map_to_list (frames_ two_frames)) ltac:(lia) two_frames_reached (Permutation_refl _))
    as [(f & r' & E & _)|[E _]].
  - exists f, r'. split; [exact E|]. vm_compute in E. by simplify_eq.
  - vm_compute in E. discriminate E.
Defined.

(** A frame made evictable before its first access, as the comment in
    [SetEvictable] allows, makes the next [Evict] read the front of an empty
    history. *)
Theorem lruk_evict_without_history n k f :
  1 ≤ k → ∃ r r', New n k = Val r ∧ SetEvictable f true r = (Val tt, r') ∧ (Evict r').1 = Undef.
Proof.
  intros Hk. unfold New. rewrite (proj2 (Z.eqb_neq k 0)) by lia. eexists _, _. split; [done|]. split; [done|].
  unfold Evict, Evict_in. simpl. rewrite insert_empty, map_to_list_singleton. done.
Qed.

Lemma lruk_evict_without_history_witness :
  ∃ r r', New 4 2 = Val r ∧ SetEvictable 0 true r = (Val tt, r') ∧ (Evict r').1 = Undef.
Proof. apply (lruk_evict_without_history 4 2 0). lia. Defined.
End LRUKProps.

(** ** LRU *)

Module LRUProps.
Import LRUReplacer LRUTheory.

(** The states of the policy with the list of all accesses made. *)
Inductive reached (n : Z) : t → list frame_id_t → Prop :=
  | reached_new : reached n (New n) []
  | reached_access r l f r' : reached n r l → 0 ≤ f < n → RecordAccess f r = (Val tt, r') → reached n r' (l ++ [f])
  | reached_set r l f b r' : reached n r l → is_Some (frames_ r !! f) → SetEvictable f b r = (Val tt, r') → reached n r' l
  | reached_remove r l f st r' : reached n r l → frames_ r !! f = Some st → evictable st = true →
      Remove f r = (Val tt, r') → reached n r' l
  | reached_evict r l f r' : reached n r l → Evict r = (Val (Some f), r') → reached n r' l.

(** [i] is the place of the last access of [f] in [l]. *)
Definition last_access (l : list frame_id_t) (f : frame_id_t) (i : Z) : Prop :=
  0 ≤ i ∧ l !! Z.to_nat i = Some f ∧ ∀ j, (Z.to_nat i < j)%nat → l !! j ≠ Some f.

Record logged (r : t) (l : list frame_id_t) : Prop := {
  lg_inv : inv r;
  lg_next : next_node r = Z.of_nat (length l);
  lg_pos : ∀ f st, frames_ r !! f = Some st → last_access l f (pos st);
}.

Lemma last_access_snoc l f g i : last_access l f i → f ≠ g → last_access (l ++ [g]) f i.
Proof.
  intros (Hi & Hl & Hno) Hne. split_and!; [done|by apply lookup_app_l_Some|]. intros j Hj Hl'.
  apply lookup_app_Some in Hl' as [Hl'|[Hge Hl']]; [by apply (Hno j)|].
  apply list_lookup_singleton_Some in Hl' as [_ ->]. done.
Qed.

Lemma last_access_new l f : last_access (l ++ [f]) f (Z.of_nat (length l)).
Proof.
  split_and!; [lia|by rewrite Nat2Z.id, lookup_app_r, Nat.sub_diag|]. intros j Hj Hl.
  apply lookup_lt_Some in Hl. rewrite length_app in Hl. simpl in Hl. lia.
Qed.

Lemma last_access_unique l f i j : last_access l f i → last_access l f j → i = j.
Proof.
  intros (Hi & Hli & Hni) (Hj & Hlj & Hnj). destruct (Z.lt_trichotomy i j) as [Hlt|[->|Hlt]]; [|done|].
  - by destruct (Hni (Z.to_nat j) ltac:(lia)).
  - by destruct (Hnj (Z.to_nat i) ltac:(lia)).
Qed.

Lemma reached_logged n r l : reached n r l → logged r l ∧ num_frames_ r = n.
Proof.
  induction 1 as [|r l f r' _ [IH Hn] Hf E|r l f b r' _ [IH Hn] [st Hf] E|r l f st r' _ [IH Hn] Hf He E|r l f r' _ [IH Hn] E].
  - split; [|done]. split; [apply inv_new|done|]. intros f st. simpl. by rewrite lookup_empty.
  - subst n. destruct (RecordAccess_inv r f (lg_inv _ _ IH) Hf) as (r1 & E1 & Hi & Hn & _). rewrite E1 in E. simplify_eq.
    split; [|done]. unfold RecordAccess in E1. case_match; [done|]. simplify_eq/=. split; [done| |]; simpl.
    + rewrite (lg_next _ _ IH), length_app. simpl. lia.
    + intros g st. rewrite lookup_insert_Some. intros [[<- <-]|[Hne Hg]]; simpl.
      * rewrite (lg_next _ _ IH). apply last_access_new.
      * apply last_access_snoc; [by apply (lg_pos _ _ IH)|done].
  - destruct (SetEvictable_inv r f b (lg_inv _ _ IH) ltac:(eauto)) as (r1 & E1 & Hi & Hn1 & _). rewrite E1 in E. simplify_eq.
    split; [|done]. unfold SetEvictable in E1. rewrite Hf, Hf in E1. simplify_eq/=. split; [done|apply IH|]; simpl.
    intros g st'. rewrite lookup_insert_Some. intros [[<- <-]|[Hne Hg]]; simpl; by apply (lg_pos _ _ IH).
  - unfold Remove in E. rewrite Hf, He in E. simplify_eq/=. split; [|done]. split; [by apply erase_inv; [apply IH|..]|apply IH|]; simpl.
    intros g st' [_ Hg]%lookup_delete_Some. by apply (lg_pos _ _ IH).
  - destruct (Evict_inv r (lg_inv _ _ IH)) as [(f' & st & r1 & E1 & _ & _ & _ & Hi & Hn1 & Hfr)|[E1 _]]; [|congruence].
    rewrite E1 in E. simplify_eq. split; [|done]. split; [done| |].
    + unfold Evict in E1. destruct (find_first _ _) as [[? ?]|]; simplify_eq/=. apply IH.
    + intros g st'. rewrite Hfr. intros [_ Hg]%lookup_delete_Some. by apply (lg_pos _ _ IH).
Qed.

(** C26: whatever the calls, the LRU policy gives up the evictable frame whose
    last access is oldest, and none when no frame is evictable. *)
Theorem lru_victim n r l :
  reached n r l →
  (∃ f i r', Evict r = (Val (Some f), r') ∧ last_access l f i ∧ evictable <$> frames_ r !! f = Some true ∧
     ∀ g j, evictable <$> frames_ r !! g = Some true → g ≠ f → last_access l g j → i < j) ∨
  (Evict r = (Val None, r) ∧ ∀ g, evictable <$> frames_ r !! g ≠ Some true).
Proof.
  intros Hr. destruct (reached_logged n r l Hr) as [Hl _].
  destruct (Evict_inv r (lg_inv _ _ Hl)) as [(f & st & r' & E & Hf & He & Hmin & _)|[E Hno]].
  - left. exists f, (pos st), r'. split_and!; [done|by apply (lg_pos _ _ Hl)|by rewrite Hf; simpl; rewrite He|].
    intros g j Hg Hne Hj. apply fmap_Some in Hg as (st' & Hg & He'). pose proof (lg_pos _ _ Hl _ _ Hg) as Hj'.
    rewrite (last_access_unique _ _ _ _ Hj Hj'). specialize (Hmin _ _ Hg (eq_sym He')).
    destruct (Z.eq_dec (pos st) (pos st')) as [Eq|]; [|lia]. pose proof (lg_pos _ _ Hl _ _ Hf) as (_ & Hlf & _).
    destruct Hj' as (_ & Hlg & _). rewrite Eq in Hlf. congruence.
  - right. split; [done|]. intros g (st & Hg & He)%fmap_Some. specialize (Hno _ _ Hg). congruence.
Qed.

Definition accessed_once : t := Eval vm_compute in (RecordAccess 0 (New 4)).2.
Definition accessed_twice : t := Eval vm_compute in (RecordAccess 1 accessed_once).2.
Definition accessed_again : t := Eval vm_compute in (RecordAccess 0 accessed_twice).2.
Definition accessed : t := Eval vm_compute in (SetEvictable 1 true accessed_again).2.

Lemma accessed_reached : reached 4 accessed [0; 1; 0].
Proof.
  pose proof (reached_access 4 _ _ 0 accessed_once (reached_new 4) ltac:(lia) ltac:(by vm_compute)) as H1.
  pose proof (reached_access 4 _ _ 1 accessed_twice H1 ltac:(lia) ltac:(by vm_compute)) as H2.
  pose proof (reached_access 4 _ _ 0 accessed_again H2 ltac:(lia) ltac:(by vm_compute)) as H3.
  exact (reached_set 4 _ _ 1 true accessed H3 ltac:(by vm_compute; eexists) ltac:(by vm_compute)).
Qed.

Lemma lru_victim_witness :
  (∃ f i r', Evict accessed = (Val (Some f), r') ∧ last_access [0; 1; 0] f i ∧ evictable <$> frames_ accessed !! f = Some true ∧
     ∀ g j, evictable <$> frames_ accessed !! g = Some true → g ≠ f → last_access [0; 1; 0] g j → i < j) ∨
  (Evict accessed = (Val None, accessed) ∧ ∀ g, evictable <$> frames_ accessed !! g ≠ Some true).
Proof. apply (lru_victim 4 accessed [0; 1; 0] accessed_reached). Defined.
End LRUProps.

(** ** The buffer pool *)

Inductive pcall :=
  | PNew
  | PFetch (p : page_id_t)
  | PUnpin (p : page_id_t) (dirty : bool)
  | PDelete (p : page_id_t)
  | PRead (p : page_id_t)
  | PWrite (p : page_id_t) (d : bytes).

Inductive panswer := RPage (p : option page_id_t) | RBool (b : bool) | RBytes (d : bytes) | RUnit.

Section calls.
Context {S : Type} `{!Pool S}.

Definition pool_call (c : pcall) : M S panswer :=
  match c with
  | PNew => x ← pool_new; mret (RPage x)
  | PFetch p => x ← pool_fetch p; mret (RBool x)
  | PUnpin p b => x ← pool_unpin p b; mret (RBool x)
  | PDelete p => x ← pool_delete p; mret (RBool x)
  | PRead p => x ← pool_read p; mret (RBytes x)
  | PWrite p d => pool_write p d;; mret RUnit
  end.

Fixpoint pool_calls (l : list pcall) : M S (list panswer) :=
  match l with
  | [] => mret []
  | c :: l => a ← pool_call c; as_ ← pool_calls l; mret (a :: as_)
  end.
End calls.

Section pool.
Context {R : Type} `{!Replacer R, !ReplacerSpec R}.

Lemma sim_pool_calls l : sim (pool_rel (R := R) []) (pool_calls l) (pool_calls l).
Proof.
  induction l as [|c l IH]; [apply sim_ret|]. apply sim_bind; [|intros; apply sim_bind; [exact IH|intros; apply sim_ret]].
  destruct c; (apply sim_bind; [|intros; apply sim_ret]);
    [apply sim_new|apply sim_fetch|apply sim_unpin|apply sim_delete|apply sim_read|apply sim_write].
Qed.
End pool.

(** C7: the pool, with frames, eviction and write-back, implements its
    specification, a map of pages with pins: over any healthy disk and with any
    replacement policy that meets its interface, every sequence of calls that
    the specification defines gets the same answers. *)
Theorem pool_refines_spec {R} `{!Replacer R, !ReplacerSpec R} size d (r : R) calls answers a :
  0 ≤ size → DiskManager.sound d → 0 ≤ DiskManager.next_page_id_ d →
  DiskManager.next_page_id_ d * PAGE_SIZE ≤ int64_max → repl_inv r → repl_frames r = size → tracked r = ∅ →
  pool_calls calls (boot size d) = (Val answers, a) →
  ∃ b, pool_calls calls (BufferPoolManager.New size d r) = (Val answers, b) ∧ pool_rel [] b a.
Proof.
  intros Hs Hd Hn Hm Hri Hrf Htr E. pose proof (pool_rel_new size d r Hs Hd Hn Hm Hri Hrf Htr) as Hrel.
  pose proof (sim_pool_calls calls _ _ Hrel) as Hsim. by rewrite E in Hsim.
Qed.

Definition lruk4 : LRUKReplacer.t := LRUKReplacer.mk 4 2 0 0 ∅.

Lemma lruk4_ok : repl_inv lruk4 ∧ repl_frames lruk4 = 4 ∧ tracked lruk4 = ∅.
Proof. split; [|done]. exists ∅. by apply (LRUKTheory.rel_new 4 2). Qed.

Lemma blank_sound : DiskManager.sound blank_disk.
Proof. by vm_compute. Qed.

Lemma pool_refines_spec_witness :
  ∃ b, pool_calls [PNew; PUnpin 0 true; PFetch 0] (BufferPoolManager.New 4 blank_disk lruk4) =
    (Val [RPage (Some 0); RBool true; RBool true], b) ∧
    pool_rel [] b (APool.mk 4 {[0 := zeros PAGE_SIZE]} {[+ 0 +]} ∅ 1).
Proof.
  destruct lruk4_ok as (H1 & H2 & H3).
  apply (pool_refines_spec 4 blank_disk lruk4 [PNew; PUnpin 0 true; PFetch 0]
    [RPage (Some 0); RBool true; RBool true]); [lia|exact blank_sound|by vm_compute|by vm_compute|done|done|done|reflexivity].
Defined.

(** C15: [FlushAllPages], which the destructor runs, puts on disk every page
    whose changes were announced by a dirty unpin, so that a pool opened later
    over that disk reads the same contents. *)
Theorem flush_makes_durable {R} `{!Replacer R, !ReplacerSpec R} (b : BufferPoolManager.t R) a :
  pool_rel [] b a →
  ∃ b', BufferPoolManager.FlushAllPages b = (Val tt, b') ∧ pool_rel [] b' a ∧
    ∀ p x size, APool.pages a !! p = Some x → p ∉ APool.unsaved a →
      APool.pages (boot size (BufferPoolManager.disk_manager_ b')) !! p = Some x.
Proof.
  intros H. destruct (FlushAllPages_rel b a H) as (b' & E & H' & Hd). exists b'. split_and!; [done|done|].
  intros p x size Hp Hu. apply boot_pages. destruct (pr_content _ _ _ H' p x Hp) as ([Hv _] & Hn & _).
  destruct (pr_next _ _ _ H') as [En _]. split; [lia|]. symmetry. by apply Hd.
Qed.

Definition page_of_xs : bytes := replicate (Z.to_nat PAGE_SIZE) "x"%char.

(** A page is allocated, filled, and unpinned as dirty; no byte of it is on disk
    until the pool is flushed. *)
Lemma flush_makes_durable_witness :
  ∃ b b', pool_calls [PNew; PWrite 0 page_of_xs; PUnpin 0 true] (BufferPoolManager.New 4 blank_disk lruk4) =
      (Val [RPage (Some 0); RUnit; RBool true], b) ∧
    disk_page b 0 = zeros PAGE_SIZE ∧
    BufferPoolManager.FlushAllPages b = (Val tt, b') ∧ disk_page b' 0 = page_of_xs.
Proof.
  destruct lruk4_ok as (H1 & H2 & H3).
  assert (pool_rel [] (BufferPoolManager.New 4 blank_disk lruk4) (boot 4 blank_disk)) as Hrel.
  { apply pool_rel_new; [lia|exact blank_sound|by vm_compute|by vm_compute|done|done|done]. }
  pose proof (sim_pool_calls [PNew; PWrite 0 page_of_xs; PUnpin 0 true] _ _ Hrel) as Hsim.
  remember (pool_calls [PNew; PWrite 0 page_of_xs; PUnpin 0 true] (boot 4 blank_disk)) as o eqn:Eo.
  assert (o = (Val [RPage (Some 0); RUnit; RBool true], APool.mk 4 {[0 := page_of_xs]} ∅ ∅ 1)) as ->
    by (rewrite Eo; vm_compute; reflexivity).
  destruct Hsim as (b & E & Hb). exists b.
  destruct (flush_makes_durable b _ Hb) as (b' & Ef & _ & Hd). exists b'. split; [exact E|]. split.
  - change b with (Val [RPage (Some 0); RUnit; RBool true], b).2. rewrite <-E. vm_compute. reflexivity.
  - split; [exact Ef|]. destruct (proj1 (boot_pages 4 (BufferPoolManager.disk_manager_ b') 0 page_of_xs)) as [_ Hx]; [|symmetry; exact Hx].
    apply Hd; [apply lookup_singleton_eq|apply not_elem_of_empty].
Defined.

(** ** A write-back that fails *)

Section lost_frame.
Import BufferPoolManager.
Context {R : Type} `{!Replacer R, !ReplacerSpec R}.

Lemma evicted_tracked (r : R) f r' :
  repl_inv r → Evict r = (Val (Some f), r') → repl_inv r' ∧ repl_frames r' = repl_frames r ∧ tracked r' = delete f (tracked r).
Proof.
  intros Hi E. destruct (decide (map_Forall (λ _ e, e = false) (tracked r))) as [Hall|Hn].
  - rewrite evict_none_spec in E; [done|done|]. intros g Hg. by specialize (Hall g true Hg).
  - apply map_not_Forall in Hn as (g & e & Hg & He); [|apply _]. destruct e; [|done].
    destruct (evict_some_spec r g Hi Hg) as (v & r1 & E1 & _ & H1 & H2 & H3). rewrite E1 in E. by simplify_eq.
Qed.

(** A pool whose victim is dirty and whose disk refuses the next write. *)
Context (b : t R) (f : frame_id_t) (pg : Page) (r' : R) (e : string) (fs : list (option DiskManager.fault)).
Context (Hfree : free_list_ b = []) (Hinv : repl_inv (replacer_ b)) (Hev : Evict (replacer_ b) = (Val (Some f), r')).
Context (Hf : 0 ≤ f) (Hpg : pages_ b !! Z.to_nat f = Some pg) (Hdirty : is_dirty_ pg = true).
Context (Hid : DiskManager.valid_id (page_id_ pg)) (Hlen : PAGE_SIZE ≤ blen (data_ pg)).
Context (Hfault : DiskManager.f_faults (DiskManager.fd_ (disk_manager_ b)) = Some (DiskManager.Refused e) :: fs).

Definition refused : exn := IOException ("DiskManager: write failed for page " +:+ to_string (page_id_ pg) +:+ ": " +:+ e).
Definition after_refusal : t R :=
  set_disk (DiskManager.set_fd (DiskManager.File (DiskManager.f_data (DiskManager.fd_ (disk_manager_ b))) fs) (disk_manager_ b))
    (set_replacer r' b).

Lemma AcquireFrame_refused : AcquireFrame b = (Exn refused, after_refusal).
Proof using Hfree Hev Hf Hpg Hdirty Hid Hlen Hfault.
  unfold AcquireFrame. mstep. rewrite Hfree.
  assert (on_replacer Evict b = (Val (Some f), set_replacer r' b)) as E by (unfold on_replacer; by rewrite Hev).
  mrun E. mrun (page_at_ok (set_replacer r' b) f pg Hf Hpg). rewrite Hdirty. apply bind_Exn.
  unfold on_disk. cbn [disk_manager_ set_replacer].
  assert (DiskManager.WritePage (page_id_ pg) (data_ pg) (disk_manager_ b) =
    (Exn refused, DiskManager.set_fd (DiskManager.File (DiskManager.f_data (DiskManager.fd_ (disk_manager_ b))) fs) (disk_manager_ b)))
    as ->; [|done].
  unfold DiskManager.WritePage. mrun (DiskManager.offset_of_ok _ (disk_manager_ b) Hid).
  rewrite (proj2 (Z.ltb_ge _ _)) by done. unfold DiskManager.on_fd, DiskManager.pwrite, DiskManager.syscall, mbind, M_bind.
  rewrite Hfault. done.
Qed.

Lemma NewPage_refused : NewPage b = (Exn refused, after_refusal).
Proof using Hfree Hev Hf Hpg Hdirty Hid Hlen Hfault. unfold NewPage. apply bind_Exn, AcquireFrame_refused. Qed.

Lemma tracked_refused : repl_inv r' ∧ tracked r' = delete f (tracked (replacer_ b)).
Proof using Hinv Hev. destruct (evicted_tracked _ _ _ Hinv Hev) as (? & _ & ?). done. Qed.

(** With no other frame to give away the pool is starved ... *)
Section starved.
Context (Hno : ∀ g, g ≠ f → tracked (replacer_ b) !! g ≠ Some true).

Lemma none_evictable g : tracked r' !! g ≠ Some true.
Proof using Hinv Hev Hno.
  destruct tracked_refused as [_ ->]. intros [Hne Hg]%lookup_delete_Some. by apply (Hno g).
Qed.

Lemma NewPage_starved : (NewPage after_refusal).1 = Val None.
Proof using Hfree Hinv Hev Hno.
  unfold NewPage. mrun (AcquireFrame_none after_refusal Hfree (proj1 tracked_refused) none_evictable). done.
Qed.

Lemma FetchPage_starved p : page_table_ b !! p = None → (FetchPage p after_refusal).1 = Val None.
Proof using Hfree Hinv Hev Hno.
  intros Hp. unfold FetchPage. mstep. simpl. rewrite Hp.
  mrun (AcquireFrame_none (count_miss after_refusal) Hfree (proj1 tracked_refused) none_evictable). done.
Qed.
End starved.

(** ... until the page itself is fetched and unpinned again. *)
Lemma frame_recovered :
  page_table_ b !! page_id_ pg = Some f → f < repl_frames (replacer_ b) → pin_count_ pg = 0 →
  ∃ b2, (x ← FetchPage (page_id_ pg); UnpinPage (page_id_ pg) false) after_refusal = (Val true, b2) ∧
    tracked (replacer_ b2) !! f = Some true.
Proof using Hinv Hev Hf Hpg.
  intros Ht Hr Hpin. destruct (evicted_tracked _ _ _ Hinv Hev) as (Hi & Hfr & _).
  destruct (record_access_spec r' f Hi ltac:(lia)) as (r1 & E1 & Hi1 & _ & Ht1).
  destruct (set_evictable_spec r1 f false Hi1) as (r2 & E2 & Hi2 & _ & Ht2); [rewrite Ht1, lookup_insert_eq; eauto|].
  destruct (set_evictable_spec r2 f true Hi2) as (r3 & E3 & _ & _ & Ht3); [rewrite Ht2, lookup_insert_eq; eauto|].
  assert (Z.to_nat f < length (pages_ b))%nat as Hlt by (by eapply lookup_lt_Some).
  set (pg1 := mkPage (data_ pg) (page_id_ pg) (pin_count_ pg + 1) (is_dirty_ pg)).
  assert (FetchPage (page_id_ pg) after_refusal = (Val (Some f),
    count_hit (set_replacer r2 (set_pages (<[Z.to_nat f := pg1]> (pages_ b)) after_refusal)))) as Ef.
  { unfold FetchPage. mstep. cbn [page_table_ after_refusal set_disk set_replacer]. rewrite Ht.
    mrun (page_at_ok after_refusal f pg Hf Hpg). unfold set_page. mstep. unfold on_replacer.
    mdo (cbn; by rewrite E1). mdo (cbn; by rewrite E2). done. }
  mrun Ef. unfold UnpinPage. mstep. cbn [page_table_ count_hit set_replacer set_pages after_refusal set_disk]. rewrite Ht.
  mdo (apply page_at_ok; [exact Hf|cbn; by rewrite list_lookup_insert_eq]).
  cbn [pin_count_ pg1]. rewrite Hpin. change (0 + 1 <=? 0) with false. change (0 + 1 - 1 =? 0) with true. cbn match.
  unfold set_page. mstep. unfold on_replacer.
  mdo (cbn; by rewrite E3). eexists. split; [done|]. cbn. by rewrite Ht3, lookup_insert_eq.
Qed.
End lost_frame.

(** C40: when the disk refuses the write-back of a dirty victim, whatever the
    pool and the replacement policy, the caller gets the error and the victim's
    frame is lost: it still holds its page, but it is neither free nor known to
    the replacer.  If no other frame was evictable, the pool can then allocate
    no page and fetch none that is not resident, although the frame is not
    pinned, until that very page is fetched and unpinned again. *)
Theorem failed_write_back_loses_frame {R} `{!Replacer R, !ReplacerSpec R} (b : BufferPoolManager.t R) f pg r' e fs :
  BufferPoolManager.free_list_ b = [] → repl_inv (BufferPoolManager.replacer_ b) →
  Evict (BufferPoolManager.replacer_ b) = (Val (Some f), r') → 0 ≤ f < repl_frames (BufferPoolManager.replacer_ b) →
  BufferPoolManager.pages_ b !! Z.to_nat f = Some pg → BufferPoolManager.is_dirty_ pg = true → BufferPoolManager.pin_count_ pg = 0 →
  BufferPoolManager.page_table_ b !! BufferPoolManager.page_id_ pg = Some f →
  DiskManager.valid_id (BufferPoolManager.page_id_ pg) → PAGE_SIZE ≤ blen (BufferPoolManager.data_ pg) →
  DiskManager.f_faults (DiskManager.fd_ (BufferPoolManager.disk_manager_ b)) = Some (DiskManager.Refused e) :: fs →
  ∃ b', BufferPoolManager.NewPage b = (Exn (refused pg e), b') ∧
    BufferPoolManager.page_table_ b' = BufferPoolManager.page_table_ b ∧ BufferPoolManager.pages_ b' = BufferPoolManager.pages_ b ∧
    BufferPoolManager.free_list_ b' = [] ∧ tracked (BufferPoolManager.replacer_ b') !! f = None ∧
    ((∀ g, g ≠ f → tracked (BufferPoolManager.replacer_ b) !! g ≠ Some true) →
      (BufferPoolManager.NewPage b').1 = Val None ∧
      ∀ p, BufferPoolManager.page_table_ b !! p = None → (BufferPoolManager.FetchPage p b').1 = Val None) ∧
    ∃ b2, (x ← BufferPoolManager.FetchPage (BufferPoolManager.page_id_ pg);
           BufferPoolManager.UnpinPage (BufferPoolManager.page_id_ pg) false) b' = (Val true, b2) ∧
      tracked (BufferPoolManager.replacer_ b2) !! f = Some true.
Proof.
  intros Hfree Hinv Hev [Hf Hr] Hpg Hd Hpin Htab Hid Hlen Hfault. exists (after_refusal b r' fs). split_and!; try done.
  - by apply (NewPage_refused b f pg r' e fs).
  - simpl. destruct (tracked_refused b f r' Hinv Hev) as [_ ->]. apply lookup_delete_eq.
  - intros Hno. split; [by apply (NewPage_starved b f)|]. intros p. by apply (FetchPage_starved b f).
  - by apply (frame_recovered b f pg r').
Qed.

(** A pool of one frame, whose page has been unpinned as dirty. *)
Definition one_dirty_frame : BufferPoolManager.t LRUKReplacer.t :=
  (pool_calls [PNew; PUnpin 0 true]
    (BufferPoolManager.New 1 (DiskManager.mk (DiskManager.File [] [Some (DiskManager.Refused "No space left on device")]) "db" 0 0 0)
      (LRUKReplacer.mk 1 2 0 0 ∅))).2.

Lemma one_dirty_frame_inv : repl_inv (BufferPoolManager.replacer_ one_dirty_frame).
Proof.
  pose proof (LRUKTheory.rel_new 1 2 (LRUKReplacer.mk 1 2 0 0 ∅) ltac:(lia) eq_refl) as H0.
  assert (repl_inv (LRUKReplacer.mk 1 2 0 0 ∅)) as Hi by (exists ∅; exact H0).
  destruct (record_access_spec _ 0 Hi ltac:(vm_compute; done)) as (r1 & E1 & H1 & _ & T1).
  destruct (set_evictable_spec r1 0 false H1) as (r2 & E2 & H2 & _ & T2); [rewrite T1, lookup_insert_eq; eauto|].
  destruct (set_evictable_spec r2 0 true H2) as (r3 & E3 & H3 & _ & _); [rewrite T2, lookup_insert_eq; eauto|].
  vm_compute in E1. injection E1 as <-. vm_compute in E2. injection E2 as <-. vm_compute in E3. injection E3 as <-. exact H3.
Qed.

Lemma failed_write_back_loses_frame_witness :
  ∃ b', BufferPoolManager.NewPage one_dirty_frame =
      (Exn (IOException ("DiskManager: write failed for page " +:+ to_string 0 +:+ ": " +:+ "No space left on device")), b') ∧
    (BufferPoolManager.NewPage b').1 = Val None ∧ (BufferPoolManager.FetchPage 1 b').1 = Val None.
Proof.
  destruct (failed_write_back_loses_frame one_dirty_frame 0
    (BufferPoolManager.mkPage (zeros PAGE_SIZE) 0 0 true) (LRUKReplacer.mk 1 2 1 0 ∅) "No space left on device" [])
    as (b' & E & _ & _ & _ & _ & H & _);
    [vm_compute; reflexivity|exact one_dirty_frame_inv|vm_compute; reflexivity|vm_compute; split; congruence|vm_compute; reflexivity..
    |vm_compute; split; congruence|vm_compute; congruence|vm_compute; reflexivity|].
  exists b'. split; [exact E|]. destruct H as [Hn Hf].
  - intros g Hg. replace (tracked _) with ({[0 := true]} : gmap frame_id_t bool) by (vm_compute; reflexivity).
    rewrite lookup_singleton_ne by congruence. congruence.
  - split; [exact Hn|]. apply Hf. vm_compute. reflexivity.
Defined.
