(* ===== verification/TreePages.v ===== *)
(** * B+-tree pages (index/b_plus_tree_page.h, leaf_page.*, internal_page.* )

    The node classes are overlaid on a page's bytes, so their methods are
    functions on byte buffers: fields are read and written at their offsets in
    the struct, array elements are moved one by one as the loops do.  An index
    outside [array_] is undefined behaviour. *)

From S2P Require Import Prelude Bytes.

(** ** [std::lower_bound], [std::upper_bound]

    The binary search over the positions [first .. first + len), [before i]
    telling whether position [i] comes before the one looked for. *)

Fixpoint partition_point (fuel : nat) (before : Z → res bool) (first len : Z) : res Z :=
  if len <=? 0 then Val first else
  match fuel with
  | O => NoFuel
  | S fuel =>
      let half := len / 2 in
      b ← before (first + half);
      if b : bool then partition_point fuel before (first + half + 1) (len - half - 1)
      else partition_point fuel before first half
  end.

Definition binary_search (before : Z → res bool) (lo hi : Z) : res Z :=
  partition_point (Z.to_nat (hi - lo)) before lo (hi - lo).

(** ** The common header *)

Module BPlusTreePage.

Definition PageType_LEAF : Z := 1.
Definition PageType_INTERNAL : Z := 2.

(** Offsets of [page_type_], [size_], [max_size_], [parent_page_id_] and the
    size of the struct: three [int32_t], four bytes of padding, an [int64_t]. *)
Definition page_type_off : Z := 0.
Definition size_off : Z := 4.
Definition max_size_off : Z := 8.
Definition parent_off : Z := 16.
Definition sizeof : Z := 24.

Definition IsLeafPage (d : bytes) : bool := get_i32 d page_type_off =? PageType_LEAF.
Definition SetPageType (ty : Z) (d : bytes) : bytes := put32 d page_type_off ty.
Definition GetSize (d : bytes) : Z := get_i32 d size_off.
Definition SetSize (n : Z) (d : bytes) : bytes := put32 d size_off n.
Definition IncreaseSize (delta : Z) (d : bytes) : bytes := SetSize (GetSize d + delta) d.
Definition GetMaxSize (d : bytes) : Z := get_i32 d max_size_off.
Definition SetMaxSize (n : Z) (d : bytes) : bytes := put32 d max_size_off n.
Definition GetMinSize (d : bytes) : Z := Z.quot (GetMaxSize d + 1) 2.
Definition GetParentPageId (d : bytes) : page_id_t := get_i64 d parent_off.
Definition SetParentPageId (p : page_id_t) (d : bytes) : bytes := put64 d parent_off p.
Definition IsRootPage (d : bytes) : bool := GetParentPageId d =? INVALID_PAGE_ID.

End BPlusTreePage.

(** ** Fixed-size arrays of structs *)

Section arrays.
(** [base]: offset of the array; [width]: size of an element; [count]: its
    number of elements. *)
Context (base width count : Z).

Definition slot (i : Z) : res Z :=
  if (0 <=? i) && (i <? count) then Val (base + width * i) else Undef.

(** [array_[dst] = array_[src]], between two pages or in one. *)
Definition load_slot (d : bytes) (i : Z) : res bytes := off ← slot i; load d off width.
Definition store_slot (d : bytes) (i : Z) (e : bytes) : res bytes := off ← slot i; store d off e.
Definition copy_slot (d : bytes) (dst src : Z) : res bytes :=
  e ← load_slot d src; store_slot d dst e.

(** [for (i = hi; i > lo; --i) array_[i] = array_[i - 1];] *)
Fixpoint shift_right (n : nat) (hi : Z) (d : bytes) : res bytes :=
  match n with
  | O => Val d
  | S n => d ← copy_slot d hi (hi - 1); shift_right n (hi - 1) d
  end.

(** [for (i = lo; i < lo + n; ++i) array_[i] = array_[i + 1];] *)
Fixpoint shift_left (n : nat) (lo : Z) (d : bytes) : res bytes :=
  match n with
  | O => Val d
  | S n => d ← copy_slot d lo (lo + 1); shift_left n (lo + 1) d
  end.

(** [for (i = 0; i < n; ++i) to->array_[dst + i] = from->array_[src + i];] *)
Fixpoint copy_range (n : nat) (from : bytes) (src : Z) (to : bytes) (dst : Z) : res bytes :=
  match n with
  | O => Val to
  | S n =>
      e ← load_slot from src;
      to ← store_slot to dst e;
      copy_range n from (src + 1) to (dst + 1)
  end.
End arrays.

(** ** Leaves *)

Module LeafPage.
Import BPlusTreePage.

(** [next_page_id_] follows the header, [array_] follows it; an [Entry] is a
    key, a 16-bit length and [MAX_VALUE_SIZE] characters, padded to a multiple
    of eight. *)
Definition next_off : Z := sizeof.
Definition array_off : Z := sizeof + 8.
Definition entry_size : Z := 80.
Definition len_off : Z := 8.
Definition value_off : Z := 10.
Definition kMaxSize : Z := (PAGE_SIZE - sizeof - 8) / entry_size.
Definition Capacity : Z := kMaxSize.

Definition GetNextPageId (d : bytes) : page_id_t := get_i64 d next_off.
Definition SetNextPageId (p : page_id_t) (d : bytes) : bytes := put64 d next_off p.

Definition Init (parent_id : page_id_t) (max_size : Z) (d : bytes) : bytes :=
  SetNextPageId INVALID_PAGE_ID
    (SetParentPageId parent_id (SetMaxSize max_size (SetSize 0 (SetPageType PageType_LEAF d)))).

Definition at_index : Z → res Z := slot array_off entry_size kMaxSize.

Definition KeyAt (d : bytes) (i : Z) : res KeyType := off ← at_index i; Val (get_i64 d off).

(** A length beyond the field would read past it. *)
Definition ValueAt (d : bytes) (i : Z) : res string :=
  off ← at_index i;
  let n := get_u16 d (off + len_off) in
  if n <=? MAX_VALUE_SIZE then Val (of_chars (block d (off + value_off) n)) else Undef.

Definition KeyIndex (key : KeyType) (d : bytes) : res Z :=
  binary_search (λ i, k ← KeyAt d i; Val (k <? key)) 0 (GetSize d).

(** Whether [array_[idx]] exists and has this key. *)
Definition found_at (key : KeyType) (d : bytes) (idx : Z) : res bool :=
  if GetSize d <=? idx then Val false else k ← KeyAt d idx; Val (k =? key).

Definition Lookup (key : KeyType) (d : bytes) : res (option string) :=
  idx ← KeyIndex key d;
  found ← found_at key d idx;
  if found : bool then v ← ValueAt d idx; Val (Some v) else Val None.

(** [value_len = value.size(); memcpy(array_[idx].value, ...)] *)
Definition put_value (idx : Z) (value : string) (d : bytes) : res bytes :=
  off ← at_index idx;
  d ← store d (off + len_off) (le_enc 2 (u16 (ssize value)));
  store d (off + value_off) (chars value).

Definition put_key (idx : Z) (key : KeyType) (d : bytes) : res bytes :=
  off ← at_index idx; store d off (le_enc 8 key).

Definition Insert (key : KeyType) (value : string) (d : bytes) : res (Z * bytes) :=
  if MAX_VALUE_SIZE <? ssize value
  then Exn (InvalidArgument "LeafPage::Insert: value exceeds MAX_VALUE_SIZE")
  else
    idx ← KeyIndex key d;
    found ← found_at key d idx;
    if found : bool then
      d ← put_value idx value d;
      Val (GetSize d, d)
    else
      d ← shift_right array_off entry_size kMaxSize (Z.to_nat (GetSize d - idx)) (GetSize d) d;
      d ← put_key idx key d;
      d ← put_value idx value d;
      let d := IncreaseSize 1 d in
      Val (GetSize d, d).

Definition Remove (key : KeyType) (d : bytes) : res (bool * bytes) :=
  idx ← KeyIndex key d;
  found ← found_at key d idx;
  if found : bool then
    d ← shift_left array_off entry_size kMaxSize (Z.to_nat (GetSize d - 1 - idx)) idx d;
    Val (true, IncreaseSize (-1) d)
  else Val (false, d).

(** The moves return this page and the recipient. *)
Definition MoveHalfTo (recipient_page_id : page_id_t) (d to : bytes) : res (bytes * bytes) :=
  let start := Z.quot (GetSize d) 2 in
  let count := GetSize d - start in
  to ← copy_range array_off entry_size kMaxSize (Z.to_nat count) d start to 0;
  let to := SetSize count to in
  let d' := SetSize start d in
  let to := SetNextPageId (GetNextPageId d') to in
  Val (SetNextPageId recipient_page_id d', to).

Definition MoveAllTo (d to : bytes) : res (bytes * bytes) :=
  to ← copy_range array_off entry_size kMaxSize (Z.to_nat (GetSize d)) d 0 to (GetSize to);
  let to := IncreaseSize (GetSize d) to in
  let to := SetNextPageId (GetNextPageId d) to in
  Val (SetSize 0 d, to).

Definition MoveFirstToEndOf (d to : bytes) : res (bytes * bytes) :=
  e ← load_slot array_off entry_size kMaxSize d 0;
  to ← store_slot array_off entry_size kMaxSize to (GetSize to) e;
  let to := IncreaseSize 1 to in
  d ← shift_left array_off entry_size kMaxSize (Z.to_nat (GetSize d - 1)) 0 d;
  Val (IncreaseSize (-1) d, to).

Definition MoveLastToFrontOf (d to : bytes) : res (bytes * bytes) :=
  last ← load_slot array_off entry_size kMaxSize d (GetSize d - 1);
  let d := IncreaseSize (-1) d in
  to ← shift_right array_off entry_size kMaxSize (Z.to_nat (GetSize to)) (GetSize to) to;
  to ← store_slot array_off entry_size kMaxSize to 0 last;
  Val (d, IncreaseSize 1 to).

End LeafPage.

(** ** Internal nodes

    The methods that also fix up the children's parent pointers are in
    [BTree]: they go through the buffer pool. *)

Module InternalPage.
Import BPlusTreePage.

(** A [MappingType] is a key and a child page id. *)
Definition array_off : Z := sizeof.
Definition entry_size : Z := 16.
Definition value_off : Z := 8.
Definition kMaxSize : Z := (PAGE_SIZE - sizeof) / entry_size.
Definition Capacity : Z := kMaxSize.

Definition Init (parent_id : page_id_t) (max_size : Z) (d : bytes) : bytes :=
  SetParentPageId parent_id (SetMaxSize max_size (SetSize 0 (SetPageType PageType_INTERNAL d))).

Definition at_index : Z → res Z := slot array_off entry_size kMaxSize.

Definition KeyAt (d : bytes) (i : Z) : res KeyType := off ← at_index i; Val (get_i64 d off).
Definition SetKeyAt (i : Z) (key : KeyType) (d : bytes) : res bytes :=
  off ← at_index i; store d off (le_enc 8 key).
Definition ValueAt (d : bytes) (i : Z) : res page_id_t :=
  off ← at_index i; Val (get_i64 d (off + value_off)).
Definition SetValueAt (i : Z) (value : page_id_t) (d : bytes) : res bytes :=
  off ← at_index i; store d (off + value_off) (le_enc 8 value).

(** [array_[i] = {key, value}] *)
Definition SetEntryAt (i : Z) (key : KeyType) (value : page_id_t) (d : bytes) : res bytes :=
  d ← SetKeyAt i key d; SetValueAt i value d.

Fixpoint value_index_from (n : nat) (i : Z) (value : page_id_t) (d : bytes) : res Z :=
  match n with
  | O => Val (-1)
  | S n =>
      v ← ValueAt d i;
      if v =? value then Val i else value_index_from n (i + 1) value d
  end.

Definition ValueIndex (value : page_id_t) (d : bytes) : res Z :=
  value_index_from (Z.to_nat (GetSize d)) 0 value d.

Definition Lookup (key : KeyType) (d : bytes) : res page_id_t :=
  i ← binary_search (λ i, k ← KeyAt d i; Val (negb (key <? k))) 1 (GetSize d);
  ValueAt d (i - 1).

Definition PopulateNewRoot (old_value : page_id_t) (new_key : KeyType) (new_value : page_id_t)
    (d : bytes) : res bytes :=
  d ← SetValueAt 0 old_value d;
  d ← SetEntryAt 1 new_key new_value d;
  Val (SetSize 2 d).

Definition InsertNodeAfter (old_value : page_id_t) (new_key : KeyType) (new_value : page_id_t)
    (d : bytes) : res (Z * bytes) :=
  idx ← ValueIndex old_value d;
  d ← shift_right array_off entry_size kMaxSize (Z.to_nat (GetSize d - (idx + 1))) (GetSize d) d;
  d ← SetEntryAt (idx + 1) new_key new_value d;
  let d := IncreaseSize 1 d in
  Val (GetSize d, d).

Definition Remove (index : Z) (d : bytes) : res bytes :=
  d ← shift_left array_off entry_size kMaxSize (Z.to_nat (GetSize d - 1 - index)) index d;
  Val (IncreaseSize (-1) d).

Definition RemoveAndReturnOnlyChild (d : bytes) : res (page_id_t * bytes) :=
  only ← ValueAt d 0; Val (only, SetSize 0 d).

End InternalPage.
