(* ===== verification/TreePagesTheory.v ===== *)
(** * B+-tree pages: what the byte-level methods do to the entries of a node *)

From S2P Require Import Prelude Entries Bytes TreePages.

(** ** Binary search *)

Lemma partition_point_spec fuel before P first len :
  (Z.to_nat len ≤ fuel)%nat → 0 ≤ len →
  (∀ i, first ≤ i < first + len → before i = Val (P i : bool)) →
  (∀ i j, first ≤ i < j → j < first + len → P j = true → P i = true) →
  ∃ r, partition_point fuel before first len = Val r ∧ first ≤ r ≤ first + len ∧
    (∀ i, first ≤ i < r → P i = true) ∧ (∀ i, r ≤ i < first + len → P i = false).
Proof.
  revert first len; induction fuel as [|fuel IH]; intros first len Hfuel Hlen Hb Hmono; simpl.
  - assert (len = 0) as -> by lia. simpl. exists first. split_and!; [done|lia..|lia].
  - destruct (Z.leb_spec len 0) as [Hl|Hl].
    { exists first. split_and!; [done|lia|lia|lia|lia]. }
    assert (0 ≤ len / 2 < len) by (split; [apply Z.div_pos; lia|apply Z.div_lt; lia]).
    rewrite Hb by lia. simpl. destruct (P (first + len / 2)) eqn:EP.
    + destruct (IH (first + len / 2 + 1) (len - len / 2 - 1)) as (r & -> & Hr & Hlo & Hhi).
      * lia.
      * lia.
      * intros i Hi. apply Hb. lia.
      * intros i j Hi Hj. apply Hmono; lia.
      * exists r. split_and!; [done|lia|lia| |].
        -- intros i Hi. destruct (decide (i < first + len / 2)); [apply (Hmono i (first + len / 2)); [lia|lia|done]|].
           destruct (decide (i = first + len / 2)) as [->|]; [done|]. apply Hlo. lia.
        -- intros i Hi. apply Hhi. lia.
    + destruct (IH first (len / 2)) as (r & -> & Hr & Hlo & Hhi).
      * lia.
      * lia.
      * intros i Hi. apply Hb. lia.
      * intros i j Hi Hj. apply Hmono; lia.
      * exists r. split_and!; [done|lia|lia|done|].
        intros i Hi. destruct (decide (i < first + len / 2)); [apply Hhi; lia|].
        destruct (P i) eqn:E; [|done]. rewrite (Hmono (first + len / 2) i) in EP; [done| |lia|done].
        destruct (decide (i = first + len / 2)) as [->|]; [|lia]. congruence.
Qed.

Lemma binary_search_spec before P lo hi :
  lo ≤ hi →
  (∀ i, lo ≤ i < hi → before i = Val (P i : bool)) →
  (∀ i j, lo ≤ i < j → j < hi → P j = true → P i = true) →
  ∃ r, binary_search before lo hi = Val r ∧ lo ≤ r ≤ hi ∧
    (∀ i, lo ≤ i < r → P i = true) ∧ (∀ i, r ≤ i < hi → P i = false).
Proof.
  intros Hle Hb Hmono. unfold binary_search.
  destruct (partition_point_spec (Z.to_nat (hi - lo)) before P lo (hi - lo)) as (r & -> & Hr & H1 & H2).
  - done.
  - lia.
  - intros i Hi. apply Hb. lia.
  - intros i j Hi Hj. apply Hmono; lia.
  - exists r. split_and!; [done|lia|lia|done|]. intros i Hi. apply H2. lia.
Qed.

(** ** Arrays of structs *)

Section arrays.
Context (base width count : Z).
Hypothesis Hbase : 0 ≤ base.
Hypothesis Hwidth : 0 < width.
Hypothesis Hcount : 0 ≤ count.
Hypothesis Hfits : base + width * count ≤ PAGE_SIZE.

Definition elem (d : bytes) (i : Z) : bytes := block d (base + width * i) width.
Definition elems (d : bytes) (n : nat) : list bytes := elem d ∘ Z.of_nat <$> seq 0 n.

(** [d'] is [d] with other array elements: same length, same header. *)
Definition same_header (d d' : bytes) : Prop :=
  blen d' = PAGE_SIZE ∧
  ∀ off len, 0 ≤ off → 0 ≤ len → off + len ≤ base → block d' off len = block d off len.

Lemma same_header_refl d : blen d = PAGE_SIZE → same_header d d.
Proof. done. Qed.

Lemma same_header_trans d1 d2 d3 : same_header d1 d2 → same_header d2 d3 → same_header d1 d3.
Proof. intros [_ H1] [? H2]. split; [done|]. intros. rewrite H2, H1; done. Qed.

Lemma slot_ok i : 0 ≤ i < count → slot base width count i = Val (base + width * i).
Proof.
  intros. unfold slot. rewrite (proj2 (andb_true_iff _ _)); [done|].
  rewrite Z.leb_le, Z.ltb_lt. lia.
Qed.

Lemma slot_range i : 0 ≤ i < count → 0 ≤ base + width * i ∧ base + width * i + width ≤ PAGE_SIZE.
Proof using Hbase Hwidth Hcount Hfits. nia. Qed.

Lemma load_slot_ok d i :
  blen d = PAGE_SIZE → 0 ≤ i < count → load_slot base width count d i = Val (elem d i).
Proof using Hbase Hwidth Hcount Hfits.
  intros Hd Hi. unfold load_slot. rewrite slot_ok by done. simpl.
  pose proof (slot_range i Hi). rewrite load_ok by lia. done.
Qed.

Lemma blen_elem d i : blen d = PAGE_SIZE → 0 ≤ i < count → blen (elem d i) = width.
Proof using Hbase Hwidth Hcount Hfits. intros Hd Hi. pose proof (slot_range i Hi). apply blen_block; lia. Qed.

(** Any write inside one element. *)
Lemma blit_elem d i off e :
  blen d = PAGE_SIZE → 0 ≤ i < count → 0 ≤ off → off + blen e ≤ width →
  let d' := blit d (base + width * i + off) e in
  same_header d d' ∧ elem d' i = blit (elem d i) off e ∧
  ∀ j, 0 ≤ j < count → j ≠ i → elem d' j = elem d j.
Proof using Hbase Hwidth Hcount Hfits.
  intros Hd Hi Hoff He d'. pose proof (slot_range i Hi). pose proof (blen_nonneg e).
  subst d'. split_and!.
  - split; [rewrite blen_blit by lia; done|]. intros o l ???. apply block_blit_ne; lia.
  - unfold elem, block, blit, blen in *. apply list_eq. intros k.
    destruct (decide (k < Z.to_nat width)%nat).
    + rewrite lookup_take_lt, lookup_drop by done.
      destruct (decide (k < Z.to_nat off)%nat).
      * rewrite lookup_app_l by (rewrite length_take; lia).
        rewrite lookup_take_lt by lia.
        rewrite (lookup_app_l (take _ _)) by (rewrite !length_take, length_drop; lia).
        rewrite !lookup_take_lt, lookup_drop by lia. done.
      * rewrite lookup_app_r by (rewrite length_take; lia). rewrite length_take.
        rewrite (lookup_app_r (take (Z.to_nat off) _)) by (rewrite !length_take, length_drop; lia).
        rewrite !length_take, length_drop.
        destruct (decide (k < Z.to_nat off + length e)%nat).
        -- rewrite !lookup_app_l by lia. f_equal. lia.
        -- rewrite !lookup_app_r by lia. rewrite !lookup_drop, lookup_take_lt, lookup_drop by lia.
           f_equal. lia.
    + rewrite lookup_take_ge by lia. symmetry. apply lookup_ge_None.
      rewrite !length_app, !length_take, !length_drop, !length_take, !length_drop. lia.
  - intros j Hj Hne. unfold elem. apply block_blit_ne; try lia; nia.
Qed.

Lemma blit_all (x e : bytes) : blen x = blen e → blit x 0 e = e.
Proof.
  unfold blit, blen. simpl. intros. rewrite drop_ge by lia. by rewrite app_nil_r.
Qed.

Lemma store_slot_ok d i e :
  blen d = PAGE_SIZE → 0 ≤ i < count → blen e = width →
  ∃ d', store_slot base width count d i e = Val d' ∧ same_header d d' ∧ elem d' i = e ∧
    ∀ j, 0 ≤ j < count → j ≠ i → elem d' j = elem d j.
Proof using Hbase Hwidth Hcount Hfits.
  intros Hd Hi He. unfold store_slot. rewrite slot_ok by done. simpl.
  pose proof (slot_range i Hi). rewrite store_ok by lia. eexists. split; [done|].
  pose proof (blit_elem d i 0 e Hd Hi ltac:(lia) ltac:(lia)) as (H1 & H2 & H3).
  rewrite Z.add_0_r in *. split_and!; try apply H1; [|done].
  rewrite H2. apply blit_all. by rewrite blen_elem.
Qed.

Lemma copy_slot_ok d dst src :
  blen d = PAGE_SIZE → 0 ≤ dst < count → 0 ≤ src < count →
  ∃ d', copy_slot base width count d dst src = Val d' ∧ same_header d d' ∧ elem d' dst = elem d src ∧
    ∀ j, 0 ≤ j < count → j ≠ dst → elem d' j = elem d j.
Proof using Hbase Hwidth Hcount Hfits.
  intros Hd Hdst Hsrc. unfold copy_slot. rewrite load_slot_ok by done. simpl.
  apply store_slot_ok; [done..|by apply blen_elem].
Qed.

Lemma shift_right_ok n hi d :
  blen d = PAGE_SIZE → 0 ≤ hi - Z.of_nat n → hi < count →
  ∃ d', shift_right base width count n hi d = Val d' ∧ same_header d d' ∧
    ∀ j, 0 ≤ j < count →
      elem d' j = if decide (hi - Z.of_nat n < j ≤ hi) then elem d (j - 1) else elem d j.
Proof using Hbase Hwidth Hcount Hfits.
  revert hi d; induction n as [|n IH]; intros hi d Hd Hlo Hhi; simpl.
  { exists d. split_and!; [done..|]. intros j Hj. rewrite decide_False by lia. done. }
  destruct (copy_slot_ok d hi (hi - 1)) as (d1 & -> & Hh1 & He1 & Ho1); [done|lia..|]. simpl.
  destruct (IH (hi - 1) d1) as (d' & -> & Hh' & He'); [apply Hh1|lia..|].
  exists d'. split; [done|]. split; [by eapply same_header_trans|].
  intros j Hj. rewrite He' by done. destruct (decide (j = hi)) as [->|].
  - rewrite decide_False, decide_True by lia. done.
  - case_decide.
    + rewrite decide_True by lia. apply Ho1; lia.
    + rewrite Ho1 by lia. destruct (decide (hi - Z.of_nat (S n) < j ≤ hi)); [lia|done].
Qed.

Lemma shift_left_ok n lo d :
  blen d = PAGE_SIZE → 0 ≤ lo → lo + Z.of_nat n < count →
  ∃ d', shift_left base width count n lo d = Val d' ∧ same_header d d' ∧
    ∀ j, 0 ≤ j < count →
      elem d' j = if decide (lo ≤ j < lo + Z.of_nat n) then elem d (j + 1) else elem d j.
Proof using Hbase Hwidth Hcount Hfits.
  revert lo d; induction n as [|n IH]; intros lo d Hd Hlo Hhi; simpl.
  { exists d. split_and!; [done..|]. intros j Hj. rewrite decide_False by lia. done. }
  destruct (copy_slot_ok d lo (lo + 1)) as (d1 & -> & Hh1 & He1 & Ho1); [done|lia..|]. simpl.
  destruct (IH (lo + 1) d1) as (d' & -> & Hh' & He'); [apply Hh1|lia..|].
  exists d'. split; [done|]. split; [by eapply same_header_trans|].
  intros j Hj. rewrite He' by done. destruct (decide (j = lo)) as [->|].
  - rewrite decide_False, decide_True by lia. done.
  - case_decide.
    + rewrite decide_True by lia. apply Ho1; lia.
    + rewrite Ho1 by lia. destruct (decide (lo ≤ j < lo + Z.of_nat (S n))); [lia|done].
Qed.

Lemma copy_range_ok n from src to dst :
  blen from = PAGE_SIZE → blen to = PAGE_SIZE →
  0 ≤ src → src + Z.of_nat n ≤ count → 0 ≤ dst → dst + Z.of_nat n ≤ count →
  ∃ to', copy_range base width count n from src to dst = Val to' ∧ same_header to to' ∧
    ∀ j, 0 ≤ j < count →
      elem to' j = if decide (dst ≤ j < dst + Z.of_nat n) then elem from (src + (j - dst)) else elem to j.
Proof using Hbase Hwidth Hcount Hfits.
  intros Hf. revert src to dst; induction n as [|n IH]; intros src to dst Ht Hs1 Hs2 Hd1 Hd2; simpl.
  { exists to. split_and!; [done..|]. intros j Hj. rewrite decide_False by lia. done. }
  rewrite load_slot_ok by (done || lia). simpl.
  destruct (store_slot_ok to dst (elem from src)) as (t1 & -> & Hh1 & He1 & Ho1);
    [done|lia|apply blen_elem; [done|lia]|]. simpl.
  destruct (IH (src + 1) t1 (dst + 1)) as (to' & -> & Hh' & He'); [apply Hh1|lia..|].
  exists to'. split; [done|]. split; [by eapply same_header_trans|].
  intros j Hj. rewrite He' by done. destruct (decide (j = dst)) as [->|].
  - rewrite decide_False, decide_True by lia. rewrite He1. f_equal. lia.
  - case_decide.
    + rewrite decide_True by lia. f_equal. lia.
    + rewrite Ho1 by lia. destruct (decide (dst ≤ j < dst + Z.of_nat (S n))); [lia|done].
Qed.

(** *** The first [n] elements as a list *)

Lemma length_elems d n : length (elems d n) = n.
Proof. unfold elems. by rewrite length_fmap, length_seq. Qed.

Lemma lookup_elems d n i : (i < n)%nat → elems d n !! i = Some (elem d (Z.of_nat i)).
Proof. intros. unfold elems. rewrite list_lookup_fmap, lookup_seq_lt by lia. done. Qed.

Lemma elems_spec d n l :
  length l = n → (∀ i, (i < n)%nat → l !! i = Some (elem d (Z.of_nat i))) → elems d n = l.
Proof.
  intros Hl H. apply list_eq. intros i. destruct (decide (i < n)%nat).
  - rewrite lookup_elems, H by done. done.
  - rewrite !(proj2 (lookup_ge_None _ _)) by (rewrite ?length_elems; lia). done.
Qed.

Lemma elems_take d n m : (m ≤ n)%nat → elems d m = take m (elems d n).
Proof.
  intros. apply elems_spec; [rewrite length_take, length_elems; lia|].
  intros i Hi. rewrite lookup_take_lt, lookup_elems by lia. done.
Qed.

(** Reading off the shifted array. *)
Lemma elems_insert d d' n i e :
  (i ≤ n)%nat →
  (∀ j, (j ≤ n)%nat → elem d' (Z.of_nat j) =
     if decide (j < i)%nat then elem d (Z.of_nat j)
     else if decide (j = i) then e else elem d (Z.of_nat j - 1)) →
  elems d' (S n) = take i (elems d n) ++ e :: drop i (elems d n).
Proof.
  intros Hi H. apply elems_spec.
  - rewrite length_app, length_take, length_cons, length_drop, length_elems. lia.
  - intros j Hj. rewrite H by lia. destruct (decide (j < i)%nat).
    + rewrite lookup_app_l by (rewrite length_take, length_elems; lia).
      rewrite lookup_take_lt, lookup_elems by lia. done.
    + rewrite lookup_app_r by (rewrite length_take, length_elems; lia).
      rewrite length_take, length_elems. replace (i `min` n)%nat with i by lia.
      destruct (decide (j = i)) as [->|]; [by rewrite Nat.sub_diag|].
      replace (j - i)%nat with (S (j - i - 1)) by lia. simpl.
      rewrite lookup_drop, lookup_elems by lia. do 2 f_equal. lia.
Qed.

Lemma elems_delete d d' n i :
  (i < n)%nat →
  (∀ j, (j < n - 1)%nat → elem d' (Z.of_nat j) =
     if decide (j < i)%nat then elem d (Z.of_nat j) else elem d (Z.of_nat j + 1)) →
  elems d' (n - 1) = take i (elems d n) ++ drop (S i) (elems d n).
Proof.
  intros Hi H. apply elems_spec.
  - rewrite length_app, length_take, length_drop, length_elems. lia.
  - intros j Hj. rewrite H by lia. destruct (decide (j < i)%nat).
    + rewrite lookup_app_l by (rewrite length_take, length_elems; lia).
      rewrite lookup_take_lt, lookup_elems by lia. done.
    + rewrite lookup_app_r by (rewrite length_take, length_elems; lia).
      rewrite length_take, length_elems, lookup_drop, lookup_elems by lia. do 2 f_equal. lia.
Qed.

Lemma elems_append t t' n (l : list bytes) :
  (∀ j, (j < n + length l)%nat → Some (elem t' (Z.of_nat j)) =
     if decide (j < n)%nat then Some (elem t (Z.of_nat j)) else l !! (j - n)%nat) →
  elems t' (n + length l) = elems t n ++ l.
Proof.
  intros H. apply elems_spec; [by rewrite length_app, length_elems|].
  intros j Hj. rewrite H by done. case_decide.
  - by rewrite lookup_app_l, lookup_elems by (rewrite ?length_elems; lia).
  - rewrite lookup_app_r by (rewrite length_elems; lia). by rewrite length_elems.
Qed.
End arrays.

(** ** The header *)

Section header.
Import BPlusTreePage.

Record hdr (d : bytes) (ty sz mx par : Z) : Prop := {
  hdr_len : blen d = PAGE_SIZE;
  hdr_type : get_i32 d page_type_off = ty;
  hdr_size : GetSize d = sz;
  hdr_max : GetMaxSize d = mx;
  hdr_parent : GetParentPageId d = par;
}.

Lemma hdr_parent_i64 d ty sz mx par : hdr d ty sz mx par → is_i64 par.
Proof. intros H. rewrite <-(hdr_parent _ _ _ _ _ H). apply s64_range. Qed.

Definition same_tail (d d' : bytes) : Prop :=
  ∀ off len, sizeof ≤ off → 0 ≤ len → block d' off len = block d off len.

(** Reading and writing header fields at their offsets. *)
Ltac hdr_tac :=
  unfold same_tail in *;
  unfold GetSize, GetMaxSize, GetParentPageId, SetSize, SetMaxSize, SetParentPageId, SetPageType,
    page_type_off, size_off, max_size_off, parent_off, sizeof in *;
  unfold PAGE_SIZE in *;
  first
    [ rewrite get_put32_eq by (done || lia); done
    | rewrite get_put64_eq by (done || lia); done
    | unfold put32, put64; rewrite blen_blit by (rewrite ?blen_le_enc; lia); done
    | unfold get_i32, get_i64, put32, put64 in *; intros;
      rewrite block_blit_ne by (rewrite ?blen_le_enc; lia); done ].

Lemma hdr_SetSize d ty sz mx par n :
  hdr d ty sz mx par → is_i32 n → hdr (SetSize n d) ty n mx par ∧ same_tail d (SetSize n d).
Proof. intros [] Hn. split; [split|]; hdr_tac. Qed.

Lemma hdr_SetPageType d ty sz mx par n :
  hdr d ty sz mx par → is_i32 n → hdr (SetPageType n d) n sz mx par ∧ same_tail d (SetPageType n d).
Proof. intros [] Hn. split; [split|]; hdr_tac. Qed.

Lemma hdr_SetMaxSize d ty sz mx par n :
  hdr d ty sz mx par → is_i32 n → hdr (SetMaxSize n d) ty sz n par ∧ same_tail d (SetMaxSize n d).
Proof. intros [] Hn. split; [split|]; hdr_tac. Qed.

Lemma hdr_SetParent d ty sz mx par p :
  hdr d ty sz mx par → is_i64 p → hdr (SetParentPageId p d) ty sz mx p ∧ same_tail d (SetParentPageId p d).
Proof. intros [] Hn. split; [split|]; hdr_tac. Qed.

(** Writing behind the header. *)
Lemma hdr_ext d d' ty sz mx par :
  blen d' = PAGE_SIZE →
  (∀ off len, 0 ≤ off → 0 ≤ len → off + len ≤ sizeof → block d' off len = block d off len) →
  hdr d ty sz mx par → hdr d' ty sz mx par.
Proof.
  intros Hl Hb []. unfold GetSize, GetMaxSize, GetParentPageId, get_i32, get_i64,
    page_type_off, size_off, max_size_off, parent_off, sizeof in *.
  split; [done|..]; unfold GetSize, GetMaxSize, GetParentPageId, get_i32, get_i64,
    page_type_off, size_off, max_size_off, parent_off; rewrite Hb by lia; done.
Qed.

Lemma same_tail_trans d1 d2 d3 : same_tail d1 d2 → same_tail d2 d3 → same_tail d1 d3.
Proof. intros H1 H2 off len ??. rewrite H2, H1; done. Qed.

Lemma elems_same_tail base width d d' n :
  sizeof ≤ base → 0 < width → same_tail d d' → elems base width d' n = elems base width d n.
Proof.
  intros Hb Hw H. unfold elems. apply list_fmap_ext. intros i j _. unfold compose, elem.
  apply H; lia.
Qed.
End header.
