(* ===== verification/LeafTheory.v ===== *)
(** * Leaf pages: the methods of [LeafPage] on the list of entries *)

From S2P Require Import Prelude Entries Bytes TreePages TreePagesTheory.

Import BPlusTreePage LeafPage.

(** ** Representation *)

(** An [Entry] struct holding a key and a value. *)
Record entry_rep (e : bytes) (kv : Z * string) : Prop := {
  er_len : blen e = entry_size;
  er_key : get_i64 e 0 = kv.1;
  er_size : get_u16 e len_off = ssize kv.2;
  er_max : ssize kv.2 ≤ MAX_VALUE_SIZE;
  er_value : block e value_off (ssize kv.2) = chars kv.2;
}.

Abbreviation lelem := (elem array_off entry_size) (only parsing).
Abbreviation lelems := (elems array_off entry_size) (only parsing).

(** A page holding a leaf with these entries. *)
Record leaf_rep (d : bytes) (par : page_id_t) (mx : Z) (nx : page_id_t) (es : list (Z * string)) :
    Prop := {
  lf_hdr : hdr d PageType_LEAF (Z.of_nat (length es)) mx par;
  lf_next : GetNextPageId d = nx;
  lf_cap : Z.of_nat (length es) ≤ kMaxSize;
  lf_es : Forall2 entry_rep (lelems d (length es)) es;
}.

(** ** Elements *)

Lemma leaf_fits : 0 ≤ array_off ∧ 0 < entry_size ∧ 0 ≤ kMaxSize ∧ array_off + entry_size * kMaxSize ≤ PAGE_SIZE.
Proof. by vm_compute. Qed.

(** Arithmetic on the offsets of the struct. *)
Ltac leaf_consts :=
  change kMaxSize with 50 in *; change array_off with 32 in *; change next_off with 24 in *;
  change entry_size with 80 in *; change len_off with 8 in *; change value_off with 10 in *;
  change sizeof with 24 in *; change PAGE_SIZE with 4096 in *; change MAX_VALUE_SIZE with 64 in *.
Ltac leaf_arith := first [lia|leaf_consts; lia].

Lemma lelem_field d i o len :
  0 ≤ i → 0 ≤ o → o + len ≤ entry_size →
  block (lelem d i) o len = block d (array_off + entry_size * i + o) len.
Proof. intros. unfold elem. apply block_block; leaf_arith. Qed.

Lemma at_index_ok i : 0 ≤ i < kMaxSize → at_index i = Val (array_off + entry_size * i).
Proof. apply slot_ok. Qed.

Lemma lelem_len d i : blen d = PAGE_SIZE → 0 ≤ i < kMaxSize → blen (lelem d i) = entry_size.
Proof. apply (blen_elem array_off entry_size kMaxSize); leaf_arith. Qed.

Section read.
Context (d : bytes) (par : page_id_t) (mx : Z) (nx : page_id_t) (es : list (Z * string)).
Hypothesis H : leaf_rep d par mx nx es.

Lemma leaf_blen : blen d = PAGE_SIZE.
Proof using H. apply H. Qed.

Lemma leaf_GetSize : GetSize d = Z.of_nat (length es).
Proof using H. apply H. Qed.

Lemma leaf_entry i k v :
  es !! i = Some (k, v) → entry_rep (lelem d (Z.of_nat i)) (k, v) ∧ 0 ≤ Z.of_nat i < kMaxSize.
Proof using H.
  intros Hi. pose proof (lookup_lt_Some _ _ _ Hi) as Hlt.
  pose proof (lf_cap _ _ _ _ _ H). split; [|lia].
  destruct (Forall2_lookup_r _ _ _ _ _ (lf_es _ _ _ _ _ H) Hi) as (e & He & Hr).
  rewrite lookup_elems in He by done. by simplify_eq.
Qed.

Lemma leaf_KeyAt i k v : es !! i = Some (k, v) → KeyAt d (Z.of_nat i) = Val k.
Proof using H.
  intros Hi. destruct (leaf_entry i k v Hi) as [[_ Hk _ _ _] Hr]. unfold KeyAt.
  rewrite at_index_ok by done. simpl. unfold get_i64 in *. rewrite lelem_field in Hk by leaf_arith.
  by rewrite Z.add_0_r, Hk in *.
Qed.

Lemma leaf_i64 i k v : es !! i = Some (k, v) → is_i64 k.
Proof using H. intros Hi. destruct (leaf_entry i k v Hi) as [[_ Hk _ _ _] _]. simpl in *. rewrite <-Hk. apply s64_range. Qed.

Lemma leaf_next_i64 : is_i64 nx.
Proof using H. rewrite <-(lf_next _ _ _ _ _ H). apply s64_range. Qed.

Lemma leaf_ValueAt i k v : es !! i = Some (k, v) → ValueAt d (Z.of_nat i) = Val v.
Proof using H.
  intros Hi. destruct (leaf_entry i k v Hi) as [[_ _ Hs Hm Hv] Hr]. simpl in *. unfold ValueAt.
  rewrite at_index_ok by done. simpl. unfold get_u16 in *.
  rewrite lelem_field in Hs, Hv by (unfold MAX_VALUE_SIZE in *; leaf_arith).
  rewrite Hs, (proj2 (Z.leb_le _ _)) by done. rewrite Hv, of_chars_chars. done.
Qed.

Hypothesis Hsort : sorted es.

Lemma leaf_KeyIndex key : KeyIndex key d = Val (Z.of_nat (lb key es)).
Proof using H Hsort.
  unfold KeyIndex. rewrite leaf_GetSize.
  set (P := λ i, match es !! Z.to_nat i with Some (k, _) => k <? key | None => false end).
  destruct (binary_search_spec (λ i, k ← KeyAt d i; Val (k <? key)) P 0 (Z.of_nat (length es)))
    as (r & -> & Hr & H1 & H2).
  - lia.
  - intros i Hi. unfold P. destruct (lookup_lt_is_Some_2 es (Z.to_nat i)) as [[k v] Hk]; [lia|].
    rewrite Hk. pose proof (leaf_KeyAt _ _ _ Hk) as E. rewrite Z2Nat.id in E by lia. by rewrite E.
  - intros i j Hi Hj. unfold P.
    destruct (lookup_lt_is_Some_2 es (Z.to_nat i)) as [[k v] Hk]; [lia|].
    destruct (lookup_lt_is_Some_2 es (Z.to_nat j)) as [[k' v'] Hk']; [lia|].
    rewrite Hk, Hk', !Z.ltb_lt. intros.
    pose proof (sorted_lookup es (Z.to_nat i) (Z.to_nat j) _ _ Hsort ltac:(lia) Hk Hk') as Hlt. simpl in Hlt. lia.
  - f_equal. rewrite <-(Z2Nat.id r) by lia. f_equal. apply lb_unique; [done|lia| |].
    + intros i k v Hi Hlt. specialize (H1 (Z.of_nat i)). unfold P in H1.
      rewrite Nat2Z.id, Hi in H1. apply Z.ltb_lt, H1. lia.
    + intros i k v Hi Hge. specialize (H2 (Z.of_nat i)). unfold P in H2.
      rewrite Nat2Z.id, Hi in H2. apply Z.ltb_ge, H2. pose proof (lookup_lt_Some _ _ _ Hi). lia.
Qed.

Lemma leaf_found_at key :
  found_at key d (Z.of_nat (lb key es)) = Val (bool_decide (is_Some (look key es))).
Proof using H Hsort.
  unfold found_at. rewrite leaf_GetSize, look_lb by done.
  destruct (es !! lb key es) as [[k v]|] eqn:E.
  - pose proof (lookup_lt_Some _ _ _ E). rewrite (proj2 (Z.leb_gt _ _)) by lia.
    rewrite (leaf_KeyAt _ _ _ E). simpl. by destruct (k =? key).
  - apply lookup_ge_None in E. by rewrite (proj2 (Z.leb_le _ _)) by lia.
Qed.

Lemma leaf_Lookup key : Lookup key d = Val (look key es).
Proof using H Hsort.
  unfold Lookup. rewrite leaf_KeyIndex. simpl. rewrite leaf_found_at. simpl.
  rewrite look_lb by done. destruct (es !! lb key es) as [[k v]|] eqn:E; [|done].
  destruct (k =? key) eqn:Ek; [|done]. simpl. by rewrite (leaf_ValueAt _ _ _ E).
Qed.
End read.

(** ** Writing one entry *)

Lemma u16_ssize v : ssize v ≤ MAX_VALUE_SIZE → u16 (ssize v) = ssize v.
Proof. unfold u16, MAX_VALUE_SIZE, ssize. intros. apply Z.mod_small. lia. Qed.

Lemma entry_put e k v :
  blen e = entry_size → get_i64 e 0 = k → ssize v ≤ MAX_VALUE_SIZE →
  entry_rep (blit (blit e len_off (le_enc 2 (u16 (ssize v)))) value_off (chars v)) (k, v).
Proof.
  intros He Hk Hv. pose proof (ssize_nonneg v). rewrite u16_ssize by done.
  pose proof (blen_chars v) as Hc. pose proof (blen_le_enc 2 (ssize v)) as Hl.
  unfold MAX_VALUE_SIZE, len_off, value_off, entry_size in *.
  assert (Hb : blen (blit e 8 (le_enc 2 (ssize v))) = 80) by (rewrite blen_blit; lia).
  split; cbn [fst snd]; unfold len_off, value_off, entry_size, MAX_VALUE_SIZE; try done.
  - rewrite blen_blit; lia.
  - unfold get_i64 in *. rewrite block_blit_ne by lia. by rewrite block_blit_ne by lia.
  - unfold get_u16. rewrite block_blit_ne by lia.
    change 2 with (blen (le_enc 2 (ssize v))). rewrite block_blit_eq by lia.
    rewrite le_dec_enc. apply Z.mod_small. simpl. lia.
  - pose proof (block_blit_eq (blit e 8 (le_enc 2 (ssize v))) 10 (chars v)) as E.
    rewrite Hc in E. apply E; lia.
Qed.

Lemma put_value_ok d i k v :
  blen d = PAGE_SIZE → 0 ≤ i < kMaxSize → ssize v ≤ MAX_VALUE_SIZE → get_i64 (lelem d i) 0 = k →
  ∃ d', put_value i v d = Val d' ∧ same_header array_off d d' ∧ entry_rep (lelem d' i) (k, v) ∧
    ∀ j, 0 ≤ j < kMaxSize → j ≠ i → lelem d' j = lelem d j.
Proof.
  intros Hd Hi Hv Hk. pose proof (ssize_nonneg v). pose proof (blen_chars v) as Hc.
  pose proof (blen_le_enc 2 (u16 (ssize v))) as Hl.
  unfold put_value. rewrite at_index_ok by done. cbn [mbind res_bind].
  assert (Hr : array_off + entry_size * i + entry_size ≤ PAGE_SIZE) by leaf_arith.
  assert (H0 : 0 ≤ array_off + entry_size * i) by leaf_arith.
  unfold MAX_VALUE_SIZE in Hv.
  rewrite store_ok by leaf_arith. cbn [mbind res_bind].
  set (d1 := blit d _ _).
  destruct (blit_elem array_off entry_size kMaxSize ltac:(leaf_arith) ltac:(leaf_arith) ltac:(leaf_arith)
    ltac:(leaf_arith) d i len_off (le_enc 2 (u16 (ssize v))) Hd Hi ltac:(leaf_arith) ltac:(leaf_arith))
    as (Hh1 & He1 & Ho1). fold d1 in Hh1, He1, Ho1.
  rewrite store_ok; [|leaf_arith|rewrite (proj1 Hh1); leaf_arith]. eexists. split; [done|].
  destruct (blit_elem array_off entry_size kMaxSize ltac:(leaf_arith) ltac:(leaf_arith) ltac:(leaf_arith)
    ltac:(leaf_arith) d1 i value_off (chars v) (proj1 Hh1) Hi ltac:(leaf_arith) ltac:(leaf_arith))
    as (Hh2 & He2 & Ho2).
  split; [by eapply same_header_trans|]. split.
  - rewrite He2, He1. apply entry_put; [by apply lelem_len|done..].
  - intros j Hj Hne. rewrite Ho2, Ho1 by done. done.
Qed.

Lemma put_key_ok d i key :
  blen d = PAGE_SIZE → 0 ≤ i < kMaxSize → is_i64 key →
  ∃ d', put_key i key d = Val d' ∧ same_header array_off d d' ∧ get_i64 (lelem d' i) 0 = key ∧
    ∀ j, 0 ≤ j < kMaxSize → j ≠ i → lelem d' j = lelem d j.
Proof.
  intros Hd Hi Hk. pose proof (blen_le_enc 8 key) as Hl.
  unfold put_key. rewrite at_index_ok by done. cbn [mbind res_bind].
  rewrite store_ok by leaf_arith. eexists. split; [done|].
  destruct (blit_elem array_off entry_size kMaxSize ltac:(leaf_arith) ltac:(leaf_arith) ltac:(leaf_arith)
    ltac:(leaf_arith) d i 0 (le_enc 8 key) Hd Hi ltac:(leaf_arith) ltac:(leaf_arith))
    as (Hh1 & He1 & Ho1). rewrite Z.add_0_r in *.
  split; [done|]. split; [|done]. rewrite He1. apply get_put64_eq; [done| |done].
  rewrite lelem_len by done. leaf_arith.
Qed.

(** ** Rebuilding the representation *)

(** A change of array elements only. *)
Lemma leaf_same_header d d' par mx nx es :
  leaf_rep d par mx nx es → same_header array_off d d' →
  hdr d' PageType_LEAF (Z.of_nat (length es)) mx par ∧ GetNextPageId d' = nx.
Proof.
  intros H [Hl Hb]. split.
  - eapply hdr_ext; [done| |apply H]. intros. apply Hb; leaf_arith.
  - unfold GetNextPageId, get_i64. rewrite Hb by leaf_arith. apply H.
Qed.

(** Setting [size_] once the array holds the entries. *)
Lemma leaf_resize d ty sz mx par nx es n :
  hdr d ty sz mx par → ty = PageType_LEAF → GetNextPageId d = nx → n = Z.of_nat (length es) →
  n ≤ kMaxSize → Forall2 entry_rep (lelems d (length es)) es →
  leaf_rep (SetSize n d) par mx nx es.
Proof.
  intros H -> Hn -> Hc Hes. destruct (hdr_SetSize _ _ _ _ _ (Z.of_nat (length es)) H) as [H' Ht].
  { unfold is_i32. leaf_arith. }
  split; [done| |done|].
  - unfold GetNextPageId, get_i64 in *. rewrite Ht by leaf_arith. done.
  - rewrite elems_same_tail with (d := d); [done|leaf_arith|leaf_arith|done].
Qed.

Lemma leaf_SetNext d par mx nx es nx' :
  leaf_rep d par mx nx es → is_i64 nx' → leaf_rep (SetNextPageId nx' d) par mx nx' es.
Proof.
  intros H Hn. pose proof (leaf_blen _ _ _ _ _ H) as Hd. pose proof (blen_le_enc 8 nx') as Hl.
  assert (Hb : blen (SetNextPageId nx' d) = PAGE_SIZE).
  { unfold SetNextPageId, put64. rewrite blen_blit; [done|leaf_arith|]. unfold next_off. leaf_arith. }
  destruct H as [H1 H2 H3 H4]. split; [| |done|].
  - eapply hdr_ext; [done| |exact H1]. intros. unfold SetNextPageId, put64.
    apply block_blit_ne; unfold next_off; leaf_arith.
  - unfold GetNextPageId, SetNextPageId. apply get_put64_eq; unfold next_off; [leaf_arith..|done].
  - assert (lelems (SetNextPageId nx' d) (length es) = lelems d (length es)) as ->; [|done].
    unfold elems. apply list_fmap_ext. intros i j _. unfold compose, elem, SetNextPageId, put64.
    apply block_blit_ne; unfold next_off; leaf_arith.
Qed.

Lemma leaf_SetParent d par mx nx es par' :
  leaf_rep d par mx nx es → is_i64 par' → leaf_rep (SetParentPageId par' d) par' mx nx es.
Proof.
  intros [H1 H2 H3 H4] Hp. destruct (hdr_SetParent _ _ _ _ _ _ H1 Hp) as [H1' Ht].
  split; [done| |done|].
  - unfold GetNextPageId, get_i64 in *. rewrite Ht by leaf_arith. done.
  - rewrite elems_same_tail with (d := d); [done|leaf_arith|leaf_arith|done].
Qed.

Lemma leaf_Init d par mx :
  blen d = PAGE_SIZE → is_i64 par → is_i32 mx → leaf_rep (Init par mx d) par mx INVALID_PAGE_ID [].
Proof.
  intros Hd Hp Hm. unfold Init.
  assert (hdr d (get_i32 d page_type_off) (GetSize d) (GetMaxSize d) (GetParentPageId d)) as H0 by done.
  destruct (hdr_SetPageType _ _ _ _ _ PageType_LEAF H0) as [H1 _]; [done|].
  destruct (hdr_SetSize _ _ _ _ _ 0 H1) as [H2 _]; [done|].
  destruct (hdr_SetMaxSize _ _ _ _ _ mx H2) as [H3 _]; [done|].
  destruct (hdr_SetParent _ _ _ _ _ par H3) as [H4 _]; [done|].
  apply (leaf_SetNext _ par mx (GetNextPageId (SetParentPageId par (SetMaxSize mx
    (SetSize 0 (SetPageType PageType_LEAF d)))))); [|by vm_compute].
  split; [exact H4|done|done|constructor].
Qed.

(** ** The methods that change a leaf *)

Lemma Forall2_insert_at (l : list bytes) (es : list (Z * string)) i e kv :
  Forall2 entry_rep l es → entry_rep e kv →
  Forall2 entry_rep (take i l ++ e :: drop i l) (take i es ++ kv :: drop i es).
Proof. intros. apply Forall2_app; [by apply Forall2_take|]. constructor; [done|]. by apply Forall2_drop. Qed.

Lemma Forall2_delete_at (l : list bytes) (es : list (Z * string)) i :
  Forall2 entry_rep l es →
  Forall2 entry_rep (take i l ++ drop (S i) l) (take i es ++ drop (S i) es).
Proof. intros. apply Forall2_app; [by apply Forall2_take|by apply Forall2_drop]. Qed.

Lemma Forall2_replace_at (l l' : list bytes) (es : list (Z * string)) i e kv :
  Forall2 entry_rep l es → (i < length es)%nat → length l' = length l →
  l' !! i = Some e → entry_rep e kv → (∀ j, j ≠ i → l' !! j = l !! j) →
  Forall2 entry_rep l' (take i es ++ kv :: drop (S i) es).
Proof.
  intros H Hi Hl He Hr Ho. assert (l' = <[i := e]> l) as ->.
  { apply list_eq. intros j. destruct (decide (j = i)) as [->|].
    - rewrite list_lookup_insert_eq; [done|]. apply lookup_lt_Some in He. lia.
    - rewrite list_lookup_insert_ne by done. auto. }
  rewrite <-insert_take_drop by done. by apply Forall2_insert.
Qed.

(** Upsert in sorted position; the page must have a free slot for a new key. *)
Lemma leaf_Insert d par mx nx es key v :
  leaf_rep d par mx nx es → sorted es → is_i64 key → ssize v ≤ MAX_VALUE_SIZE →
  Z.of_nat (length es) < kMaxSize →
  ∃ d', Insert key v d = Val (Z.of_nat (length (ins key v es)), d') ∧
        leaf_rep d' par mx nx (ins key v es).
Proof.
  intros H Hs Hk Hv Hcap. unfold Insert. rewrite (proj2 (Z.ltb_ge _ _)) by done.
  rewrite (leaf_KeyIndex _ _ _ _ _ H Hs). cbn [mbind res_bind].
  rewrite (leaf_found_at _ _ _ _ _ H Hs). cbn [mbind res_bind].
  pose proof (leaf_blen _ _ _ _ _ H) as Hd. pose proof (lb_le key es) as Hlb.
  rewrite ins_lb by done. rewrite look_lb by done. set (i := lb key es) in *.
  assert (Hfresh : ∃ d', (d ← shift_right array_off entry_size kMaxSize (Z.to_nat (GetSize d - Z.of_nat i)) (GetSize d) d;
      d ← put_key (Z.of_nat i) key d; d ← put_value (Z.of_nat i) v d;
      let d := IncreaseSize 1 d in Val (GetSize d, d)) =
      Val (Z.of_nat (length (take i es ++ (key, v) :: drop i es)), d') ∧
      leaf_rep d' par mx nx (take i es ++ (key, v) :: drop i es)).
  { rewrite (leaf_GetSize _ _ _ _ _ H).
    destruct (shift_right_ok array_off entry_size kMaxSize ltac:(leaf_arith) ltac:(leaf_arith)
      ltac:(leaf_arith) ltac:(leaf_arith) (Z.to_nat (Z.of_nat (length es) - Z.of_nat i))
      (Z.of_nat (length es)) d Hd) as (d1 & -> & Hh1 & He1); [lia|lia|]. cbn [mbind res_bind].
    destruct (put_key_ok d1 (Z.of_nat i) key (proj1 Hh1)) as (d2 & -> & Hh2 & Hk2 & Ho2); [lia|done|].
    cbn [mbind res_bind].
    destruct (put_value_ok d2 (Z.of_nat i) key v (proj1 Hh2)) as (d3 & -> & Hh3 & Hr3 & Ho3); [lia|done|done|].
    cbn [mbind res_bind].
    assert (Hh : same_header array_off d d3) by (eauto using same_header_trans).
    destruct (leaf_same_header _ _ _ _ _ _ H Hh) as [Hhd Hnx].
    unfold IncreaseSize. rewrite (hdr_size _ _ _ _ _ Hhd).
    assert (Hlen : length (take i es ++ (key, v) :: drop i es) = S (length es)).
    { rewrite length_app, length_cons, length_take, length_drop. lia. }
    assert (Hr : leaf_rep (SetSize (Z.of_nat (length es) + 1) d3) par mx nx (take i es ++ (key, v) :: drop i es)).
    { eapply leaf_resize; [exact Hhd|done|done|rewrite Hlen; lia|leaf_arith|].
      rewrite Hlen. rewrite (elems_insert array_off entry_size d d3 (length es) i (lelem d3 (Z.of_nat i))); [|done|].
      - apply Forall2_insert_at; [apply H|done].
      - intros j Hj. destruct (decide (j = i)) as [->|Hji].
        { by rewrite decide_False by lia. }
        rewrite Ho3, Ho2, He1 by (leaf_arith || lia). destruct (decide (j < i)%nat).
        + by rewrite decide_False by lia.
        + by rewrite decide_True by lia. }
    eexists. split; [|exact Hr]. by rewrite (leaf_GetSize _ _ _ _ _ Hr). }
  destruct (es !! i) as [[k w]|] eqn:Ei; [|by rewrite bool_decide_eq_false_2 by (by intros [? ?])].
  destruct (Z.eqb_spec k key) as [->|]; [|by rewrite bool_decide_eq_false_2 by (by intros [? ?])].
  rewrite bool_decide_eq_true_2 by eauto. pose proof (lookup_lt_Some _ _ _ Ei) as Hi.
  destruct (leaf_entry _ _ _ _ _ H _ _ _ Ei) as [[_ Hkey _ _ _] Hrange].
  destruct (put_value_ok d (Z.of_nat i) key v Hd) as (d1 & -> & Hh1 & Hr1 & Ho1); [done..|].
  cbn [mbind res_bind]. destruct (leaf_same_header _ _ _ _ _ _ H Hh1) as [Hhd Hnx].
  assert (Hlen : length (take i es ++ (key, v) :: drop (S i) es) = length es).
  { rewrite length_app, length_cons, length_take, length_drop. lia. }
  exists d1. split; [by rewrite (hdr_size _ _ _ _ _ Hhd), Hlen|].
  split; [by rewrite Hlen|done|rewrite Hlen; lia|]. rewrite Hlen.
  apply (Forall2_replace_at (lelems d (length es)) _ _ i (lelem d1 (Z.of_nat i))); try done.
  - apply H.
  - by rewrite !length_elems.
  - by rewrite lookup_elems.
  - intros j Hj. destruct (decide (j < length es)%nat).
    + rewrite !lookup_elems by done. f_equal. apply Ho1; lia.
    + rewrite !(proj2 (lookup_ge_None _ _)) by (rewrite length_elems; lia). done.
Qed.

Lemma leaf_Insert_large d key v :
  MAX_VALUE_SIZE < ssize v →
  Insert key v d = Exn (InvalidArgument "LeafPage::Insert: value exceeds MAX_VALUE_SIZE").
Proof. intros. unfold Insert. by rewrite (proj2 (Z.ltb_lt _ _)). Qed.

Lemma leaf_Remove d par mx nx es key :
  leaf_rep d par mx nx es → sorted es →
  ∃ d', Remove key d = Val (bool_decide (is_Some (look key es)), d') ∧
        leaf_rep d' par mx nx (del key es).
Proof.
  intros H Hs. unfold Remove. rewrite (leaf_KeyIndex _ _ _ _ _ H Hs). cbn [mbind res_bind].
  rewrite (leaf_found_at _ _ _ _ _ H Hs). cbn [mbind res_bind].
  pose proof (leaf_blen _ _ _ _ _ H) as Hd. pose proof (lf_cap _ _ _ _ _ H) as Hcap.
  rewrite del_lb by done. rewrite look_lb by done. set (i := lb key es) in *.
  destruct (es !! i) as [[k w]|] eqn:Ei; [|by exists d; rewrite bool_decide_eq_false_2 by (by intros [? ?])].
  destruct (Z.eqb_spec k key) as [->|]; [|by exists d; rewrite bool_decide_eq_false_2 by (by intros [? ?])].
  rewrite bool_decide_eq_true_2 by eauto. pose proof (lookup_lt_Some _ _ _ Ei) as Hi.
  rewrite (leaf_GetSize _ _ _ _ _ H).
  destruct (shift_left_ok array_off entry_size kMaxSize ltac:(leaf_arith) ltac:(leaf_arith)
    ltac:(leaf_arith) ltac:(leaf_arith) (Z.to_nat (Z.of_nat (length es) - 1 - Z.of_nat i))
    (Z.of_nat i) d Hd) as (d1 & -> & Hh1 & He1); [lia|lia|]. cbn [mbind res_bind].
  destruct (leaf_same_header _ _ _ _ _ _ H Hh1) as [Hhd Hnx].
  eexists. split; [done|]. unfold IncreaseSize. rewrite (hdr_size _ _ _ _ _ Hhd).
  assert (Hlen : length (take i es ++ drop (S i) es) = (length es - 1)%nat).
  { rewrite length_app, length_take, length_drop. lia. }
  eapply leaf_resize; [exact Hhd|done|done|rewrite Hlen; lia|lia|]. rewrite Hlen.
  rewrite (elems_delete array_off entry_size d d1 (length es) i); [|done|].
  - apply Forall2_delete_at, H.
  - intros j Hj. rewrite He1 by lia. destruct (decide (j < i)%nat).
    + by rewrite decide_False by lia.
    + by rewrite decide_True by lia.
Qed.

Lemma leaf_Remove_none d par mx nx es key :
  leaf_rep d par mx nx es → sorted es → look key es = None → Remove key d = Val (false, d).
Proof.
  intros H Hs Hl. unfold Remove. rewrite (leaf_KeyIndex _ _ _ _ _ H Hs). cbn [mbind res_bind].
  rewrite (leaf_found_at _ _ _ _ _ H Hs). by rewrite Hl.
Qed.

(** *** Moves between leaves *)

Section moves.
Context (d to : bytes) (par par' mx mx' nx nx' : Z) (es es' : list (Z * string)).
Hypothesis H : leaf_rep d par mx nx es.
Hypothesis H' : leaf_rep to par' mx' nx' es'.

Lemma leaf_MoveHalfTo rid :
  es' = [] → is_i64 rid → is_i64 nx →
  ∃ d1 to1, MoveHalfTo rid d to = Val (d1, to1) ∧
    leaf_rep d1 par mx rid (take (length es / 2) es) ∧
    leaf_rep to1 par' mx' nx (drop (length es / 2) es).
Proof using H H'.
  intros -> Hrid Hnx. unfold MoveHalfTo.
  pose proof (leaf_blen _ _ _ _ _ H) as Hd. pose proof (leaf_blen _ _ _ _ _ H') as Ht.
  pose proof (lf_cap _ _ _ _ _ H) as Hcap.
  rewrite (leaf_GetSize _ _ _ _ _ H).
  assert (Hq : Z.quot (Z.of_nat (length es)) 2 = Z.of_nat (length es / 2)).
  { rewrite Z.quot_div_nonneg by lia. rewrite Nat2Z.inj_div. done. }
  rewrite Hq. set (h := (length es / 2)%nat) in *.
  assert (Hh : (h ≤ length es)%nat) by (apply Nat.Div0.div_le_upper_bound; lia).
  destruct (copy_range_ok array_off entry_size kMaxSize ltac:(leaf_arith) ltac:(leaf_arith)
    ltac:(leaf_arith) ltac:(leaf_arith) (Z.to_nat (Z.of_nat (length es) - Z.of_nat h)) d (Z.of_nat h) to 0)
    as (t1 & -> & Hh1 & He1); [done|done|lia..|]. cbn [mbind res_bind].
  destruct (leaf_same_header _ _ _ _ _ _ H' Hh1) as [Hhd _].
  eexists _, _. split; [done|]. split.
  - apply (leaf_SetNext _ par mx nx); [|done].
    eapply leaf_resize; [apply H|done|apply H| |lia|].
    + rewrite length_take. lia.
    + rewrite length_take. replace (h `min` length es)%nat with h by lia.
      rewrite (elems_take _ _ d (length es)) by lia. apply Forall2_take, H.
  - assert (Hnx' : GetNextPageId (SetSize (Z.of_nat h) d) = nx).
    { destruct (hdr_SetSize _ _ _ _ _ (Z.of_nat h) (lf_hdr _ _ _ _ _ H)) as [_ Htail].
      { unfold is_i32. leaf_arith. }
      unfold GetNextPageId, get_i64. rewrite Htail by leaf_arith. apply H. }
    rewrite Hnx'. apply (leaf_SetNext _ par' mx' (GetNextPageId t1)); [|done].
    eapply leaf_resize; [exact Hhd|done|done| | |]; rewrite ?length_drop; [lia..|].
    apply Forall2_same_length_lookup. split; [by rewrite length_elems, length_drop|].
    intros i e kv. rewrite lookup_drop. intros He Hkv.
    assert (Hi : (i < length es - h)%nat) by (apply lookup_lt_Some in Hkv; lia).
    rewrite lookup_elems in He by done. simplify_eq.
    rewrite He1 by lia. rewrite decide_True by lia. destruct kv as [k v].
    destruct (leaf_entry _ _ _ _ _ H _ _ _ Hkv) as [Hr _].
    replace (Z.of_nat h + (Z.of_nat i - 0)) with (Z.of_nat (h + i)) by lia. done.
Qed.

Lemma leaf_MoveAllTo :
  Z.of_nat (length es' + length es) ≤ kMaxSize → is_i64 nx →
  ∃ d1 to1, MoveAllTo d to = Val (d1, to1) ∧ leaf_rep d1 par mx nx [] ∧
    leaf_rep to1 par' mx' nx (es' ++ es).
Proof using H H'.
  intros Hcap Hnx. unfold MoveAllTo.
  pose proof (leaf_blen _ _ _ _ _ H) as Hd. pose proof (leaf_blen _ _ _ _ _ H') as Ht.
  rewrite (leaf_GetSize _ _ _ _ _ H), (leaf_GetSize _ _ _ _ _ H').
  destruct (copy_range_ok array_off entry_size kMaxSize ltac:(leaf_arith) ltac:(leaf_arith)
    ltac:(leaf_arith) ltac:(leaf_arith) (Z.to_nat (Z.of_nat (length es))) d 0 to (Z.of_nat (length es')))
    as (t1 & -> & Hh1 & He1); [done|done|lia..|]. cbn [mbind res_bind].
  destruct (leaf_same_header _ _ _ _ _ _ H' Hh1) as [Hhd _].
  eexists _, _. split; [done|]. split.
  - eapply leaf_resize; [apply H|done|apply H|done|leaf_arith|]. constructor.
  - unfold IncreaseSize. rewrite (hdr_size _ _ _ _ _ Hhd), (lf_next _ _ _ _ _ H).
    apply (leaf_SetNext _ par' mx' (GetNextPageId t1)); [|done].
    eapply leaf_resize; [exact Hhd|done|done| | |]; rewrite ?length_app; [lia..|].
    rewrite <-(length_elems array_off entry_size d (length es)) at 1.
    rewrite (elems_append array_off entry_size to t1).
    + apply Forall2_app; [apply H'|apply H].
    + rewrite length_elems. intros j Hj. rewrite He1 by lia. case_decide.
      * rewrite decide_False by lia. rewrite lookup_elems by lia. do 2 f_equal. lia.
      * rewrite decide_True by lia. done.
Qed.

Lemma leaf_MoveFirstToEndOf e es1 :
  es = e :: es1 → Z.of_nat (length es') < kMaxSize →
  ∃ d1 to1, MoveFirstToEndOf d to = Val (d1, to1) ∧ leaf_rep d1 par mx nx es1 ∧
    leaf_rep to1 par' mx' nx' (es' ++ [e]).
Proof using H H'.
  intros Hes Hcap. unfold MoveFirstToEndOf.
  pose proof (leaf_blen _ _ _ _ _ H) as Hd. pose proof (leaf_blen _ _ _ _ _ H') as Ht.
  pose proof (lf_cap _ _ _ _ _ H) as Hc.
  assert (Hlen : length es = S (length es1)) by (by rewrite Hes).
  rewrite (leaf_GetSize _ _ _ _ _ H), (leaf_GetSize _ _ _ _ _ H').
  rewrite (load_slot_ok array_off entry_size kMaxSize) by (done || leaf_arith). cbn [mbind res_bind].
  destruct (store_slot_ok array_off entry_size kMaxSize ltac:(leaf_arith) ltac:(leaf_arith)
    ltac:(leaf_arith) ltac:(leaf_arith) to (Z.of_nat (length es')) (lelem d 0) Ht)
    as (t1 & -> & Hh1 & He1 & Ho1); [lia|apply lelem_len; [done|leaf_arith]|]. cbn [mbind res_bind].
  destruct (shift_left_ok array_off entry_size kMaxSize ltac:(leaf_arith) ltac:(leaf_arith)
    ltac:(leaf_arith) ltac:(leaf_arith) (Z.to_nat (Z.of_nat (length es) - 1)) 0 d Hd)
    as (d1 & -> & Hh2 & He2); [lia|lia|]. cbn [mbind res_bind].
  destruct (leaf_same_header _ _ _ _ _ _ H' Hh1) as [Hhd1 Hnx1].
  destruct (leaf_same_header _ _ _ _ _ _ H Hh2) as [Hhd2 Hnx2].
  eexists _, _. split; [done|]. unfold IncreaseSize.
  rewrite (hdr_size _ _ _ _ _ Hhd1), (hdr_size _ _ _ _ _ Hhd2). split.
  - eapply leaf_resize; [exact Hhd2|done|done|lia|lia|].
    replace (length es1) with (length es - 1)%nat by lia.
    rewrite (elems_delete array_off entry_size d d1 (length es) 0); [|lia|].
    + simpl. replace es1 with (drop 1 es) by (by rewrite Hes). apply (Forall2_drop _ _ _ 1), H.
    + intros j Hj. rewrite He2 by lia. rewrite decide_True by lia. by rewrite decide_False by lia.
  - eapply leaf_resize; [exact Hhd1|done|done| | |]; rewrite ?length_app; [simpl; lia..|].
    change (length [e]) with (length [lelem d 0]).
    rewrite (elems_append array_off entry_size to t1 (length es') [lelem d 0]).
    + apply Forall2_app; [apply H'|]. constructor; [|constructor].
      destruct e as [k v]. assert (E0 : es !! 0%nat = Some (k, v)) by (by rewrite Hes).
      apply (leaf_entry _ _ _ _ _ H _ _ _ E0).
    + simpl. intros j Hj. case_decide.
      * by rewrite Ho1 by lia.
      * replace j with (length es') by lia. by rewrite He1, Nat.sub_diag.
Qed.

Lemma leaf_MoveLastToFrontOf e es1 :
  es = es1 ++ [e] → Z.of_nat (length es') < kMaxSize →
  ∃ d1 to1, MoveLastToFrontOf d to = Val (d1, to1) ∧ leaf_rep d1 par mx nx es1 ∧
    leaf_rep to1 par' mx' nx' (e :: es').
Proof using H H'.
  intros Hes Hcap. unfold MoveLastToFrontOf.
  pose proof (leaf_blen _ _ _ _ _ H) as Hd. pose proof (leaf_blen _ _ _ _ _ H') as Ht.
  pose proof (lf_cap _ _ _ _ _ H) as Hc.
  assert (Hlen : length es = S (length es1)) by (rewrite Hes, length_app; simpl; lia).
  rewrite (leaf_GetSize _ _ _ _ _ H), (leaf_GetSize _ _ _ _ _ H').
  rewrite (load_slot_ok array_off entry_size kMaxSize) by (done || leaf_arith). cbn [mbind res_bind].
  destruct (shift_right_ok array_off entry_size kMaxSize ltac:(leaf_arith) ltac:(leaf_arith)
    ltac:(leaf_arith) ltac:(leaf_arith) (Z.to_nat (Z.of_nat (length es'))) (Z.of_nat (length es')) to Ht)
    as (t1 & -> & Hh1 & He1); [lia|lia|]. cbn [mbind res_bind].
  destruct (store_slot_ok array_off entry_size kMaxSize ltac:(leaf_arith) ltac:(leaf_arith)
    ltac:(leaf_arith) ltac:(leaf_arith) t1 0 (lelem d (Z.of_nat (length es) - 1)) (proj1 Hh1))
    as (t2 & -> & Hh2 & He2 & Ho2); [lia|apply lelem_len; [done|leaf_arith]|]. cbn [mbind res_bind].
  assert (Hh : same_header array_off to t2) by (by eapply same_header_trans).
  destruct (leaf_same_header _ _ _ _ _ _ H' Hh) as [Hhd1 Hnx1].
  eexists _, _. split; [done|]. unfold IncreaseSize.
  rewrite (leaf_GetSize _ _ _ _ _ H), (hdr_size _ _ _ _ _ Hhd1). split.
  - eapply leaf_resize; [apply H|done|apply H|lia|lia|].
    rewrite (elems_take _ _ d (length es)) by lia.
    replace es1 with (take (length es1) es) at 2 by (by rewrite Hes, take_app_length).
    apply Forall2_take, H.
  - eapply leaf_resize; [exact Hhd1|done|done|simpl; lia|simpl; lia|]. simpl length.
    rewrite (elems_insert array_off entry_size to t2 (length es') 0 (lelem t2 0)); [|lia|].
    + simpl. constructor; [|apply H']. rewrite He2. destruct e as [k v].
      replace (Z.of_nat (length es) - 1) with (Z.of_nat (length es1)) by lia.
      destruct (leaf_entry _ _ _ _ _ H (length es1) k v) as [? _]; [|done].
      by rewrite Hes, lookup_app_r, Nat.sub_diag by lia.
    + intros j Hj. rewrite decide_False by lia. case_decide as Hj0; [by rewrite Hj0|].
      rewrite Ho2, He1 by lia. by rewrite decide_True by lia.
Qed.
End moves.
