(* ===== verification/InternalTheory.v ===== *)
(** * Internal pages: the methods of [InternalPage] on the list of entries *)

From S2P Require Import Prelude Entries Bytes TreePages TreePagesTheory.

Import BPlusTreePage InternalPage.

(** ** Representation *)

(** A [MappingType] struct. *)
Record map_rep (e : bytes) (kc : Z * page_id_t) : Prop := {
  mr_len : blen e = entry_size;
  mr_key : get_i64 e 0 = kc.1;
  mr_value : get_i64 e value_off = kc.2;
}.

Abbreviation ielem := (elem array_off entry_size) (only parsing).
Abbreviation ielems := (elems array_off entry_size) (only parsing).

(** A page whose array starts with these entries, [size_] being [sz]. *)
Record int_raw (d : bytes) (par : page_id_t) (mx sz : Z) (es : list (Z * page_id_t)) : Prop := {
  ir_hdr : hdr d PageType_INTERNAL sz mx par;
  ir_cap : Z.of_nat (length es) ≤ kMaxSize;
  ir_es : Forall2 map_rep (ielems d (length es)) es;
}.

(** A page holding an internal node with these entries. *)
Definition int_rep (d : bytes) (par : page_id_t) (mx : Z) (es : list (Z * page_id_t)) : Prop :=
  int_raw d par mx (Z.of_nat (length es)) es.

(** ** Elements *)

Ltac int_consts :=
  change kMaxSize with 254 in *; change array_off with 24 in *;
  change entry_size with 16 in *; change value_off with 8 in *;
  change sizeof with 24 in *; change PAGE_SIZE with 4096 in *.
Ltac int_arith := first [lia|int_consts; lia].

Lemma ielem_field d i o len :
  0 ≤ i → 0 ≤ o → o + len ≤ entry_size →
  block (ielem d i) o len = block d (array_off + entry_size * i + o) len.
Proof. intros. unfold elem. apply block_block; int_arith. Qed.

Lemma iat_index_ok i : 0 ≤ i < kMaxSize → at_index i = Val (array_off + entry_size * i).
Proof. apply slot_ok. Qed.

Lemma ielem_len d i : blen d = PAGE_SIZE → 0 ≤ i < kMaxSize → blen (ielem d i) = entry_size.
Proof. apply (blen_elem array_off entry_size kMaxSize); int_arith. Qed.

Section read.
Context (d : bytes) (par : page_id_t) (mx sz : Z) (es : list (Z * page_id_t)).
Hypothesis H : int_raw d par mx sz es.

Lemma int_blen : blen d = PAGE_SIZE.
Proof using H. apply H. Qed.

Lemma int_GetSize : GetSize d = sz.
Proof using H. apply H. Qed.

Lemma int_entry i k c :
  es !! i = Some (k, c) → map_rep (ielem d (Z.of_nat i)) (k, c) ∧ 0 ≤ Z.of_nat i < kMaxSize.
Proof using H.
  intros Hi. pose proof (lookup_lt_Some _ _ _ Hi) as Hlt.
  pose proof (ir_cap _ _ _ _ _ H). split; [|lia].
  destruct (Forall2_lookup_r _ _ _ _ _ (ir_es _ _ _ _ _ H) Hi) as (e & He & Hr).
  rewrite lookup_elems in He by done. by simplify_eq.
Qed.

Lemma int_KeyAt i k c : es !! i = Some (k, c) → KeyAt d (Z.of_nat i) = Val k.
Proof using H.
  intros Hi. destruct (int_entry i k c Hi) as [[_ Hk _] Hr]. unfold KeyAt.
  rewrite iat_index_ok by done. simpl. unfold get_i64 in *. rewrite ielem_field in Hk by int_arith.
  by rewrite Z.add_0_r, Hk in *.
Qed.

Lemma int_ValueAt i k c : es !! i = Some (k, c) → ValueAt d (Z.of_nat i) = Val c.
Proof using H.
  intros Hi. destruct (int_entry i k c Hi) as [[_ _ Hv] Hr]. unfold ValueAt.
  rewrite iat_index_ok by done. simpl. unfold get_i64 in *. rewrite ielem_field in Hv by int_arith.
  by rewrite Hv.
Qed.

Lemma int_i64 i k c : es !! i = Some (k, c) → is_i64 k ∧ is_i64 c.
Proof using H.
  intros Hi. destruct (int_entry i k c Hi) as [[_ Hk Hv] Hr]. simpl in *.
  rewrite <-Hk, <-Hv. split; apply s64_range.
Qed.

Lemma int_load i k c :
  es !! i = Some (k, c) →
  load_slot array_off entry_size kMaxSize d (Z.of_nat i) = Val (ielem d (Z.of_nat i)) ∧
  map_rep (ielem d (Z.of_nat i)) (k, c).
Proof using H.
  intros Hi. destruct (int_entry i k c Hi) as [Hr ?]. split; [|done].
  apply load_slot_ok; [int_arith..|apply int_blen|done].
Qed.
End read.

(** Position of a child. *)
Lemma int_ValueIndex d par mx es i k c :
  int_rep d par mx es → es !! i = Some (k, c) → NoDup (snd <$> es) →
  ValueIndex c d = Val (Z.of_nat i).
Proof.
  intros H Hi Hnd. unfold ValueIndex. rewrite (int_GetSize _ _ _ _ _ H), Nat2Z.id.
  assert (Hgen : ∀ n j, (n + j = length es)%nat → (j ≤ i)%nat →
    value_index_from n (Z.of_nat j) c d = Val (Z.of_nat i)); [|by apply (Hgen _ 0%nat); lia].
  induction n as [|n IH]; intros j Hn Hj; simpl.
  { apply lookup_lt_Some in Hi. lia. }
  destruct (lookup_lt_is_Some_2 es j) as [[kj cj] Hj']; [lia|].
  rewrite (int_ValueAt _ _ _ _ _ H _ _ _ Hj'). simpl.
  destruct (Z.eqb_spec cj c) as [->|Hne].
  - do 2 f_equal. apply (NoDup_lookup _ _ _ c Hnd); by rewrite list_lookup_fmap, ?Hj', ?Hi.
  - replace (Z.of_nat j + 1) with (Z.of_nat (S j)) by lia. apply IH; [lia|].
    assert (j ≠ i); [|lia]. intros ->. congruence.
Qed.

(** The child a key is routed to: the last one whose separator is not above it. *)
Fixpoint route {A} (key : Z) (c : A) (rest : list (Z * A)) : A :=
  match rest with
  | [] => c
  | (k, c') :: rest => if key <? k then c else route key c' rest
  end.

Lemma route_spec {A} key (e : Z * A) rest i :
  (i ≤ length rest)%nat →
  (∀ j k c, rest !! j = Some (k, c) → (j < i)%nat → k ≤ key) →
  (∀ k c, rest !! i = Some (k, c) → key < k) →
  snd <$> (e :: rest) !! i = Some (route key e.2 rest).
Proof.
  revert e i; induction rest as [|[k c] rest IH]; intros e i Hi H1 H2.
  - simpl in Hi. assert (i = 0%nat) as -> by lia. done.
  - simpl. destruct i as [|i].
    + specialize (H2 k c eq_refl). rewrite (proj2 (Z.ltb_lt _ _)) by done. done.
    + pose proof (H1 0%nat k c eq_refl ltac:(lia)) as Hk. rewrite (proj2 (Z.ltb_ge _ _)) by done.
      apply (IH (k, c) i); [simpl in Hi; lia| |].
      * intros j k' c' Hj ?. apply (H1 (S j) k' c' Hj). lia.
      * intros k' c' Hk'. apply (H2 k' c' Hk').
Qed.

Lemma int_Lookup d par mx e rest key :
  int_rep d par mx (e :: rest) →
  (∀ i j k k' c c', (i < j)%nat → rest !! i = Some (k, c) → rest !! j = Some (k', c') → k ≤ k') →
  Lookup key d = Val (route key e.2 rest).
Proof.
  intros H Hs. unfold Lookup. rewrite (int_GetSize _ _ _ _ _ H). simpl length.
  set (P := λ i, match rest !! Z.to_nat (i - 1) with Some (k, _) => negb (key <? k) | None => false end).
  destruct (binary_search_spec (λ i, k ← KeyAt d i; Val (negb (key <? k))) P 1 (Z.of_nat (S (length rest))))
    as (r & -> & Hr & H1 & H2).
  - lia.
  - intros i Hi. unfold P.
    destruct (lookup_lt_is_Some_2 rest (Z.to_nat (i - 1))) as [[k c] Hk]; [lia|].
    rewrite Hk. assert ((e :: rest) !! Z.to_nat i = Some (k, c)) as Hk'.
    { replace (Z.to_nat i) with (S (Z.to_nat (i - 1))) by lia. done. }
    pose proof (int_KeyAt _ _ _ _ _ H _ _ _ Hk') as E. rewrite Z2Nat.id in E by lia. by rewrite E.
  - intros i j Hi Hj. unfold P.
    destruct (lookup_lt_is_Some_2 rest (Z.to_nat (i - 1))) as [[k c] Hk]; [lia|].
    destruct (lookup_lt_is_Some_2 rest (Z.to_nat (j - 1))) as [[k' c'] Hk']; [lia|].
    rewrite Hk, Hk', !negb_true_iff, !Z.ltb_ge. intros.
    pose proof (Hs (Z.to_nat (i - 1)) (Z.to_nat (j - 1)) _ _ _ _ ltac:(lia) Hk Hk'). lia.
  - cbn [mbind res_bind]. destruct (lookup_lt_is_Some_2 (e :: rest) (Z.to_nat (r - 1))) as [[k c] Hk].
    { simpl. lia. }
    pose proof (int_ValueAt _ _ _ _ _ H _ _ _ Hk) as E. rewrite Z2Nat.id in E by lia. rewrite E.
    f_equal. pose proof (route_spec key e rest (Z.to_nat (r - 1)) ltac:(lia)) as Hro.
    rewrite Hk in Hro. simpl in Hro.
    assert (Some c = Some (route key e.2 rest)) as [= <-]; [|done]. apply Hro.
    + intros j k' c' Hj ?. specialize (H1 (Z.of_nat j + 1)). unfold P in H1.
      replace (Z.to_nat (Z.of_nat j + 1 - 1)) with j in H1 by lia. rewrite Hj in H1.
      rewrite negb_true_iff, Z.ltb_ge in H1. apply H1. lia.
    + intros k' c' Hk'. specialize (H2 r). unfold P in H2. rewrite Hk' in H2.
      rewrite negb_false_iff, Z.ltb_lt in H2. apply H2. split; [lia|].
      apply lookup_lt_Some in Hk'. lia.
Qed.

(** ** Changing a page *)

Lemma int_same_header d d' par mx sz es es' :
  int_raw d par mx sz es → same_header array_off d d' →
  Z.of_nat (length es') ≤ kMaxSize → Forall2 map_rep (ielems d' (length es')) es' →
  int_raw d' par mx sz es'.
Proof.
  intros H [Hl Hb] Hc Hes. split; [|done..].
  eapply hdr_ext; [done| |apply H]. intros. apply Hb; int_arith.
Qed.

Lemma int_take d par mx sz es n : int_raw d par mx sz es → int_raw d par mx sz (take n es).
Proof.
  intros [H1 H2 H3]. split; [done|rewrite length_take; lia|].
  rewrite length_take. rewrite (elems_take _ _ d (length es)) by lia.
  replace (take (n `min` length es) (ielems d (length es))) with (take n (ielems d (length es))).
  - by apply Forall2_take.
  - destruct (decide (n ≤ length es)%nat).
    + by replace (n `min` length es)%nat with n by lia.
    + rewrite !take_ge; [done|rewrite length_elems; lia..].
Qed.

Lemma int_SetSize d par mx sz es n :
  int_raw d par mx sz es → is_i32 n → int_raw (SetSize n d) par mx n es.
Proof.
  intros [H1 H2 H3] Hn. destruct (hdr_SetSize _ _ _ _ _ _ H1 Hn) as [H1' Ht].
  split; [done|done|]. rewrite elems_same_tail with (d := d); [done|int_arith|int_arith|done].
Qed.

Lemma int_SetParent d par mx sz es par' :
  int_raw d par mx sz es → is_i64 par' → int_raw (SetParentPageId par' d) par' mx sz es.
Proof.
  intros [H1 H2 H3] Hp. destruct (hdr_SetParent _ _ _ _ _ _ H1 Hp) as [H1' Ht].
  split; [done|done|]. rewrite elems_same_tail with (d := d); [done|int_arith|int_arith|done].
Qed.

Lemma int_Init d par mx :
  blen d = PAGE_SIZE → is_i64 par → is_i32 mx → int_raw (Init par mx d) par mx 0 [].
Proof.
  intros Hd Hp Hm. unfold Init.
  assert (hdr d (get_i32 d page_type_off) (GetSize d) (GetMaxSize d) (GetParentPageId d)) as H0 by done.
  destruct (hdr_SetPageType _ _ _ _ _ PageType_INTERNAL H0) as [H1 _]; [done|].
  destruct (hdr_SetSize _ _ _ _ _ 0 H1) as [H2 _]; [done|].
  destruct (hdr_SetMaxSize _ _ _ _ _ mx H2) as [H3 _]; [done|].
  destruct (hdr_SetParent _ _ _ _ _ par H3) as [H4 _]; [done|].
  split; [exact H4|done|constructor].
Qed.

(** Writing a 64-bit field of element [i]. *)
Lemma int_put d i o z :
  blen d = PAGE_SIZE → 0 ≤ i < kMaxSize → 0 ≤ o → o + 8 ≤ entry_size →
  ∃ d', store d (array_off + entry_size * i + o) (le_enc 8 z) = Val d' ∧
    same_header array_off d d' ∧ ielem d' i = put64 (ielem d i) o z ∧
    ∀ j, 0 ≤ j < kMaxSize → j ≠ i → ielem d' j = ielem d j.
Proof.
  intros Hd Hi Ho Hw. pose proof (blen_le_enc 8 z) as Hl.
  rewrite store_ok by int_arith. eexists. split; [done|].
  apply (blit_elem array_off entry_size kMaxSize); (done || int_arith).
Qed.

Lemma map_put_key e k c z :
  map_rep e (k, c) → is_i64 z → map_rep (put64 e 0 z) (z, c).
Proof.
  intros [Hl Hk Hv] Hz. pose proof (blen_le_enc 8 z) as He. cbn [fst snd] in *.
  split; cbn [fst snd].
  - unfold put64. rewrite blen_blit; int_arith.
  - apply get_put64_eq; int_arith || done.
  - unfold get_i64, put64 in *. rewrite block_blit_ne; int_arith || done.
Qed.

Lemma map_put_value e k c z :
  map_rep e (k, c) → is_i64 z → map_rep (put64 e value_off z) (k, z).
Proof.
  intros [Hl Hk Hv] Hz. pose proof (blen_le_enc 8 z) as He. cbn [fst snd] in *.
  split; cbn [fst snd].
  - unfold put64. rewrite blen_blit; int_arith.
  - unfold get_i64, put64 in *. rewrite block_blit_ne; int_arith || done.
  - apply get_put64_eq; int_arith || done.
Qed.

(** What is in a slot reads as some entry. *)
Lemma map_any e : blen e = entry_size → map_rep e (get_i64 e 0, get_i64 e value_off).
Proof. done. Qed.

(** Element [i] replaced, [i] at most one past the entries. *)
Lemma int_replace d d' par mx sz es i kc :
  int_raw d par mx sz es → same_header array_off d d' → (i ≤ length es)%nat →
  Z.of_nat i < kMaxSize → map_rep (ielem d' (Z.of_nat i)) kc →
  (∀ j, 0 ≤ j < kMaxSize → j ≠ Z.of_nat i → ielem d' j = ielem d j) →
  int_raw d' par mx sz (take i es ++ kc :: drop (S i) es).
Proof.
  intros H Hh Hi Hm Hkc Ho. pose proof (ir_cap _ _ _ _ _ H) as Hc.
  assert (Hlen : length (take i es ++ kc :: drop (S i) es) = (length es `max` S i)%nat).
  { rewrite length_app, length_cons, length_take, length_drop. lia. }
  eapply int_same_header; [done..|lia|]. rewrite Hlen.
  apply Forall2_same_length_lookup. split; [by rewrite length_elems|].
  intros j e kc' He Hkc'. assert (Hj : (j < length es `max` S i)%nat).
  { apply lookup_lt_Some in He. by rewrite length_elems in He. }
  rewrite lookup_elems in He by done. injection He as <-.
  destruct (decide (j = i)) as [->|Hji].
  - rewrite lookup_app_r in Hkc' by (rewrite length_take; lia).
    rewrite length_take in Hkc'. replace (i - i `min` length es)%nat with 0%nat in Hkc' by lia.
    simpl in Hkc'. by simplify_eq.
  - rewrite Ho by lia. assert (es !! j = Some kc') as Hkj.
    { destruct (decide (j < i)%nat).
      - rewrite lookup_app_l in Hkc' by (rewrite length_take; lia).
        by rewrite lookup_take_lt in Hkc' by lia.
      - rewrite lookup_app_r in Hkc' by (rewrite length_take; lia). rewrite length_take in Hkc'.
        replace (j - i `min` length es)%nat with (S (j - S i)) in Hkc' by lia. simpl in Hkc'.
        rewrite lookup_drop in Hkc'. by replace (S i + (j - S i))%nat with j in Hkc' by lia. }
    destruct kc' as [k c]. by destruct (int_entry _ _ _ _ _ H _ _ _ Hkj) as [? _].
Qed.

Lemma int_SetKeyAt d par mx sz es i k c key :
  int_raw d par mx sz es → es !! i = Some (k, c) → is_i64 key →
  ∃ d', SetKeyAt (Z.of_nat i) key d = Val d' ∧ int_raw d' par mx sz (<[i := (key, c)]> es).
Proof.
  intros H Hi Hk. destruct (int_entry _ _ _ _ _ H _ _ _ Hi) as [Hr Hm].
  pose proof (lookup_lt_Some _ _ _ Hi) as Hlt.
  unfold SetKeyAt. rewrite iat_index_ok by done. cbn [mbind res_bind].
  destruct (int_put d (Z.of_nat i) 0 key) as (d' & E & Hh & He & Ho);
    [apply H|done|lia|int_arith|]. rewrite Z.add_0_r in E. rewrite E.
  exists d'. split; [done|]. rewrite insert_take_drop by done.
  eapply int_replace; [done|done|lia|lia| |done]. rewrite He. by eapply map_put_key.
Qed.

Lemma int_SetValueAt d par mx sz es i k c v :
  int_raw d par mx sz es → es !! i = Some (k, c) → is_i64 v →
  ∃ d', SetValueAt (Z.of_nat i) v d = Val d' ∧ int_raw d' par mx sz (<[i := (k, v)]> es).
Proof.
  intros H Hi Hk. destruct (int_entry _ _ _ _ _ H _ _ _ Hi) as [Hr Hm].
  pose proof (lookup_lt_Some _ _ _ Hi) as Hlt.
  unfold SetValueAt. rewrite iat_index_ok by done. cbn [mbind res_bind].
  destruct (int_put d (Z.of_nat i) value_off v) as (d' & E & Hh & He & Ho);
    [apply H|done|int_arith|int_arith|]. rewrite E.
  exists d'. split; [done|]. rewrite insert_take_drop by done.
  eapply int_replace; [done|done|lia|lia| |done]. rewrite He. by eapply map_put_value.
Qed.

(** The slot after the entries holds something. *)
Lemma int_extend d par mx sz es :
  int_raw d par mx sz es → Z.of_nat (length es) < kMaxSize → ∃ kc, int_raw d par mx sz (es ++ [kc]).
Proof.
  intros H Hm. pose proof (int_blen _ _ _ _ _ H) as Hd.
  pose proof (int_replace d d par mx sz es (length es) _ H (same_header_refl _ _ Hd) (Nat.le_refl _) Hm
    (map_any _ (ielem_len d (Z.of_nat (length es)) Hd ltac:(lia))) (λ _ _ _, eq_refl)) as H'.
  rewrite firstn_all, drop_ge in H' by lia. eauto.
Qed.

Lemma int_SetEntryAt d par mx sz es i key v :
  int_raw d par mx sz es → (i ≤ length es)%nat → Z.of_nat i < kMaxSize → is_i64 key → is_i64 v →
  ∃ d', SetEntryAt (Z.of_nat i) key v d = Val d' ∧
        int_raw d' par mx sz (take i es ++ (key, v) :: drop (S i) es).
Proof.
  intros H Hi Hm Hk Hv. pose proof (int_blen _ _ _ _ _ H) as Hd.
  assert (∃ es0 k c, int_raw d par mx sz es0 ∧ es0 !! i = Some (k, c) ∧
            take i es0 = take i es ∧ drop (S i) es0 = drop (S i) es) as (es0 & k & c & H0 & Hi0 & Ht & Hdr).
  { destruct (decide (i = length es)) as [->|].
    - destruct (int_extend _ _ _ _ _ H Hm) as [[k c] H']. exists (es ++ [(k, c)]), k, c.
      split_and!; [done| | |].
      + by rewrite lookup_app_r, Nat.sub_diag by lia.
      + by rewrite take_app_le by lia.
      + rewrite !drop_ge; [done|lia|]. rewrite length_app. simpl. lia.
    - destruct (lookup_lt_is_Some_2 es i) as [[k c] Hi']; [lia|]. exists es, k, c. done. }
  pose proof (lookup_lt_Some _ _ _ Hi0) as Hlt.
  destruct (int_SetKeyAt _ _ _ _ _ _ _ _ key H0 Hi0 Hk) as (d1 & E1 & H1).
  destruct (int_SetValueAt _ _ _ _ _ i key c v H1) as (d2 & E2 & H2);
    [by rewrite list_lookup_insert_eq|done|].
  exists d2. unfold SetEntryAt. rewrite E1. cbn [mbind res_bind]. split; [done|].
  rewrite list_insert_insert_eq, insert_take_drop in H2 by done. by rewrite Ht, Hdr in H2.
Qed.

Lemma int_store_append d par mx sz es e kc :
  int_raw d par mx sz es → Z.of_nat (length es) < kMaxSize → map_rep e kc →
  ∃ d', store_slot array_off entry_size kMaxSize d (Z.of_nat (length es)) e = Val d' ∧
        int_raw d' par mx sz (es ++ [kc]).
Proof.
  intros H Hm He. pose proof (int_blen _ _ _ _ _ H) as Hd.
  destruct (store_slot_ok array_off entry_size kMaxSize ltac:(int_arith) ltac:(int_arith)
    ltac:(int_arith) ltac:(int_arith) d (Z.of_nat (length es)) e Hd) as (d' & E & Hh & He' & Ho);
    [lia|apply He|].
  exists d'. split; [done|].
  pose proof (int_replace d d' par mx sz es (length es) kc H Hh ltac:(lia) Hm) as H'.
  rewrite firstn_all, drop_ge in H' by lia. apply H'; [by rewrite He'|done].
Qed.

(** *** Shifts *)

Lemma int_shift_right d par mx sz es e i :
  int_raw d par mx sz es → es !! i = Some e → Z.of_nat (length es) < kMaxSize →
  ∃ d', shift_right array_off entry_size kMaxSize (length es - i) (Z.of_nat (length es)) d = Val d' ∧
        int_raw d' par mx sz (take i es ++ e :: drop i es).
Proof.
  intros H Hi Hm. pose proof (int_blen _ _ _ _ _ H) as Hd. pose proof (lookup_lt_Some _ _ _ Hi) as Hlt.
  destruct (shift_right_ok array_off entry_size kMaxSize ltac:(int_arith) ltac:(int_arith)
    ltac:(int_arith) ltac:(int_arith) (length es - i) (Z.of_nat (length es)) d Hd)
    as (d' & E & Hh & He); [lia|lia|].
  exists d'. split; [done|].
  assert (Hlen : length (take i es ++ e :: drop i es) = S (length es)).
  { rewrite length_app, length_cons, length_take, length_drop. lia. }
  eapply int_same_header; [done..|lia|]. rewrite Hlen.
  rewrite (elems_insert array_off entry_size d d' (length es) i (ielem d (Z.of_nat i))); [|lia|].
  - apply Forall2_app; [apply Forall2_take, H|]. constructor; [|apply Forall2_drop, H].
    destruct e as [k c]. by destruct (int_entry _ _ _ _ _ H _ _ _ Hi).
  - intros j Hj. rewrite He by lia. destruct (decide (j < i)%nat).
    + by rewrite decide_False by lia.
    + destruct (decide (j = i)) as [->|]; [by rewrite decide_False by lia|by rewrite decide_True by lia].
Qed.

Lemma int_shift_left d par mx sz es i :
  int_raw d par mx sz es → (i < length es)%nat →
  ∃ d', shift_left array_off entry_size kMaxSize (length es - 1 - i) (Z.of_nat i) d = Val d' ∧
        int_raw d' par mx sz (take i es ++ drop (S i) es).
Proof.
  intros H Hi. pose proof (int_blen _ _ _ _ _ H) as Hd. pose proof (ir_cap _ _ _ _ _ H) as Hc.
  destruct (shift_left_ok array_off entry_size kMaxSize ltac:(int_arith) ltac:(int_arith)
    ltac:(int_arith) ltac:(int_arith) (length es - 1 - i) (Z.of_nat i) d Hd)
    as (d' & E & Hh & He); [lia|lia|].
  exists d'. split; [done|].
  assert (Hlen : length (take i es ++ drop (S i) es) = (length es - 1)%nat).
  { rewrite length_app, length_take, length_drop. lia. }
  eapply int_same_header; [done..|lia|]. rewrite Hlen.
  rewrite (elems_delete array_off entry_size d d' (length es) i); [|lia|].
  - apply Forall2_app; [apply Forall2_take, H|apply Forall2_drop, H].
  - intros j Hj. rewrite He by lia. destruct (decide (j < i)%nat).
    + by rewrite decide_False by lia.
    + by rewrite decide_True by lia.
Qed.

(** ** The methods *)

Lemma int_PopulateNewRoot d par mx l key r :
  int_raw d par mx 0 [] → is_i64 l → is_i64 key → is_i64 r →
  ∃ d' k0, PopulateNewRoot l key r d = Val d' ∧ int_rep d' par mx [(k0, l); (key, r)].
Proof.
  intros H Hl Hk Hr. destruct (int_extend _ _ _ _ _ H ltac:(simpl; int_arith)) as [[k0 c0] H0].
  destruct (int_SetValueAt _ _ _ _ _ 0%nat k0 c0 l H0 eq_refl Hl) as (d1 & E1 & H1). simpl in H1.
  destruct (int_SetEntryAt _ _ _ _ _ 1%nat key r H1 ltac:(simpl; lia) ltac:(int_arith) Hk Hr)
    as (d2 & E2 & H2). simpl in H2.
  unfold PopulateNewRoot. change 0 with (Z.of_nat 0). rewrite E1. cbn [mbind res_bind].
  change 1 with (Z.of_nat 1). rewrite E2. cbn [mbind res_bind]. eexists _, k0. split; [done|].
  by apply (int_SetSize _ _ _ 0).
Qed.

Lemma int_InsertNodeAfter d par mx es i k c key v :
  int_rep d par mx es → es !! i = Some (k, c) → NoDup (snd <$> es) →
  Z.of_nat (length es) < kMaxSize → is_i64 key → is_i64 v →
  ∃ d', InsertNodeAfter c key v d = Val (Z.of_nat (S (length es)), d') ∧
        int_rep d' par mx (take (S i) es ++ (key, v) :: drop (S i) es).
Proof.
  intros H Hi Hnd Hm Hk Hv. pose proof (lookup_lt_Some _ _ _ Hi) as Hlt.
  unfold InsertNodeAfter. rewrite (int_ValueIndex _ _ _ _ _ _ _ H Hi Hnd). cbn [mbind res_bind].
  rewrite (int_GetSize _ _ _ _ _ H).
  replace (Z.to_nat (Z.of_nat (length es) - (Z.of_nat i + 1))) with (length es - S i)%nat by lia.
  replace (Z.of_nat i + 1) with (Z.of_nat (S i)) by lia.
  assert (∃ d1 es1, shift_right array_off entry_size kMaxSize (length es - S i) (Z.of_nat (length es)) d = Val d1 ∧
     int_raw d1 par mx (Z.of_nat (length es)) es1 ∧ (S i ≤ length es1)%nat ∧ take (S i) es1 = take (S i) es ∧
     drop (S (S i)) es1 = drop (S i) es) as (d1 & es1 & -> & H1 & Hl1 & Ht & Hd).
  { destruct (decide (S i = length es)) as [E|].
    - rewrite E, Nat.sub_diag. simpl. exists d, es. split_and!; [done|done|lia|done|].
      by rewrite !drop_ge by lia.
    - destruct (lookup_lt_is_Some_2 es (S i)) as [e He]; [lia|].
      destruct (int_shift_right _ _ _ _ _ _ _ H He Hm) as (d1 & E1 & H1).
      exists d1, (take (S i) es ++ e :: drop (S i) es). split_and!; [done|done| | |].
      + rewrite length_app, length_take. lia.
      + rewrite take_app_le by (rewrite length_take; lia). rewrite take_take. f_equal. lia.
      + rewrite drop_app_ge by (rewrite length_take; lia). rewrite length_take.
        by replace (S (S i) - S i `min` length es)%nat with 1%nat by lia. }
  cbn [mbind res_bind].
  destruct (int_SetEntryAt _ _ _ _ _ (S i) key v H1 Hl1 ltac:(lia) Hk Hv) as (d2 & -> & H2).
  cbn [mbind res_bind]. unfold IncreaseSize. rewrite (int_GetSize _ _ _ _ _ H2).
  rewrite Ht, Hd in H2.
  assert (Hlen : length (take (S i) es ++ (key, v) :: drop (S i) es) = S (length es)).
  { rewrite length_app, length_cons, length_take, length_drop. lia. }
  eassert (H3 : int_rep _ par mx (take (S i) es ++ (key, v) :: drop (S i) es)).
  { unfold int_rep. rewrite Hlen. replace (Z.of_nat (S (length es))) with (Z.of_nat (length es) + 1) by lia.
    apply (int_SetSize _ _ _ _ _ _ H2). unfold is_i32. int_arith. }
  eexists. split; [|exact H3]. rewrite (int_GetSize _ _ _ _ _ H3), Hlen. do 2 f_equal.
Qed.

Lemma int_Remove d par mx es i :
  int_rep d par mx es → (i < length es)%nat →
  ∃ d', Remove (Z.of_nat i) d = Val d' ∧ int_rep d' par mx (take i es ++ drop (S i) es).
Proof.
  intros H Hi. pose proof (ir_cap _ _ _ _ _ H) as Hc.
  unfold Remove. rewrite (int_GetSize _ _ _ _ _ H).
  replace (Z.to_nat (Z.of_nat (length es) - 1 - Z.of_nat i)) with (length es - 1 - i)%nat by lia.
  destruct (int_shift_left _ _ _ _ _ _ H Hi) as (d1 & -> & H1). cbn [mbind res_bind].
  eexists. split; [done|]. unfold IncreaseSize. rewrite (int_GetSize _ _ _ _ _ H1).
  assert (Hlen : length (take i es ++ drop (S i) es) = (length es - 1)%nat).
  { rewrite length_app, length_take, length_drop. lia. }
  unfold int_rep. rewrite Hlen.
  replace (Z.of_nat (length es - 1)) with (Z.of_nat (length es) + -1) by lia.
  apply (int_SetSize _ _ _ _ _ _ H1). unfold is_i32. int_arith.
Qed.

Lemma int_RemoveOnlyChild d par mx k c :
  int_rep d par mx [(k, c)] →
  ∃ d', RemoveAndReturnOnlyChild d = Val (c, d') ∧ blen d' = PAGE_SIZE.
Proof.
  intros H. unfold RemoveAndReturnOnlyChild.
  pose proof (int_ValueAt _ _ _ _ _ H 0%nat k c eq_refl) as E. change (Z.of_nat 0) with 0 in E.
  rewrite E. cbn [mbind res_bind].
  eexists. split; [done|].
  pose proof (int_SetSize _ _ _ _ _ 0 H ltac:(unfold is_i32; lia)) as H'. apply H'.
Qed.
