(* ===== verification/BTree.v ===== *)
(** * BPlusTree (index/b_plus_tree.h, b_plus_tree.cpp, internal_page.cpp)

    The tree's code over any buffer pool with the [Pool] interface.  A [Page*]
    is the id of a pinned page; a null [Page*] that is dereferenced, and any use
    of a page that is not pinned, is undefined behaviour.  Recursion and loops
    along the height of the tree carry fuel. *)

From S2P Require Import Prelude Bytes Buffer TreePages.

Module BPlusTree.
Import BPlusTreePage.

Section tree.
Context {S : Type} `{!Pool S}.

(** ** State *)

Record t := mk {
  bpm_ : S;
  root_page_id_ : page_id_t;
  leaf_max_size_ : Z;
  internal_max_size_ : Z;
}.

Definition New (bpm : S) (root_page_id : page_id_t) (leaf_max_size internal_max_size : Z) : res t :=
  if (leaf_max_size <? 3) || (LeafPage.Capacity - 1 <? leaf_max_size)
  then Exn (InvalidArgument "BPlusTree: leaf_max_size out of range")
  else if (internal_max_size <? 3) || (InternalPage.Capacity - 1 <? internal_max_size)
  then Exn (InvalidArgument "BPlusTree: internal_max_size out of range")
  else Val (mk bpm root_page_id leaf_max_size internal_max_size).

Definition IsEmpty (tr : t) : bool := root_page_id_ tr =? INVALID_PAGE_ID.

(** ** Plumbing *)

Definition bpm {A} (m : M S A) : M t A := λ tr,
  let '(r, s) := m (bpm_ tr) in
  (r, mk s (root_page_id_ tr) (leaf_max_size_ tr) (internal_max_size_ tr)).

Definition set_root (p : page_id_t) : M t () :=
  modify (λ tr, mk (bpm_ tr) p (leaf_max_size_ tr) (internal_max_size_ tr)).

Definition lift {A} (r : res A) : M t A := λ tr, (r, tr).

Definition out_of_fuel {A} : M t A := λ tr, (NoFuel, tr).

(** [bpm_->FetchPage(p)] whose result is dereferenced at once. *)
Definition fetch (p : page_id_t) : M t () :=
  ok ← bpm (pool_fetch p); if ok : bool then mret tt else undefined.

Definition unpin (p : page_id_t) (dirty : bool) : M t () :=
  _ ← bpm (pool_unpin p dirty); mret tt.

Definition read (p : page_id_t) : M t bytes := bpm (pool_read p).
Definition write (p : page_id_t) (d : bytes) : M t () := bpm (pool_write p d).

(** A method called on the struct overlaid on page [p]. *)
Definition on_page {A} (p : page_id_t) (f : bytes → res (A * bytes)) : M t A :=
  d ← read p; x ← lift (f d); write p x.2;; mret x.1.
Definition update (p : page_id_t) (f : bytes → res bytes) : M t () :=
  d ← read p; d ← lift (f d); write p d.
Definition query {A} (p : page_id_t) (f : bytes → res A) : M t A :=
  d ← read p; lift (f d).

(** The destructor of a [PageGuard] on [p] when an exception leaves its scope;
    one that escapes the destructor ends the program. *)
Definition unwind {A} (p : page_id_t) (dirty : bool) (m : M t A) : M t A := λ tr,
  match m tr with
  | (Exn e, tr') =>
      match unpin p dirty tr' with
      | (Val _, tr'') => (Exn e, tr'')
      | (_, tr'') => (Undef, tr'')
      end
  | r => r
  end.

(** ** InternalPage: the methods that go through the buffer pool *)

Definition UpdateChildParent (child_page_id new_parent_id : page_id_t) : M t () :=
  fetch child_page_id;;
  update child_page_id (λ d, Val (SetParentPageId new_parent_id d));;
  unpin child_page_id true.

(** [for (i = 0; i < n; ++i) { to->array_[dst + i] = array_[src + i]; UpdateChildParent(...); }] *)
Fixpoint move_children (n : nat) (from : page_id_t) (src : Z) (to : page_id_t) (dst : Z) : M t () :=
  match n with
  | O => mret tt
  | Datatypes.S n =>
      e ← query from (λ d, load_slot InternalPage.array_off InternalPage.entry_size InternalPage.kMaxSize d src);
      update to (λ d, store_slot InternalPage.array_off InternalPage.entry_size InternalPage.kMaxSize d dst e);;
      child ← query to (λ d, InternalPage.ValueAt d dst);
      UpdateChildParent child to;;
      move_children n from (src + 1) to (dst + 1)
  end.

Definition MoveHalfTo (self recipient : page_id_t) : M t () :=
  size ← query self (λ d, Val (GetSize d));
  let start := Z.quot size 2 in
  let count := size - start in
  move_children (Z.to_nat count) self start recipient 0;;
  update recipient (λ d, Val (SetSize count d));;
  update self (λ d, Val (SetSize start d)).

Definition MoveAllTo (self recipient : page_id_t) (middle_key : KeyType) : M t () :=
  update self (InternalPage.SetKeyAt 0 middle_key);;
  base ← query recipient (λ d, Val (GetSize d));
  size ← query self (λ d, Val (GetSize d));
  move_children (Z.to_nat size) self 0 recipient base;;
  update recipient (λ d, Val (IncreaseSize size d));;
  update self (λ d, Val (SetSize 0 d)).

Definition MoveFirstToEndOf (self recipient : page_id_t) (middle_key : KeyType) : M t () :=
  first ← query self (λ d, InternalPage.ValueAt d 0);
  update recipient (λ d, InternalPage.SetEntryAt (GetSize d) middle_key first d);;
  update recipient (λ d, Val (IncreaseSize 1 d));;
  UpdateChildParent first recipient;;
  update self (λ d, shift_left InternalPage.array_off InternalPage.entry_size InternalPage.kMaxSize
                      (Z.to_nat (GetSize d - 1)) 0 d);;
  update self (λ d, Val (IncreaseSize (-1) d)).

Definition MoveLastToFrontOf (self recipient : page_id_t) (middle_key : KeyType) : M t () :=
  last ← query self (λ d, InternalPage.ValueAt d (GetSize d - 1));
  update self (λ d, Val (IncreaseSize (-1) d));;
  update recipient (λ d, shift_right InternalPage.array_off InternalPage.entry_size InternalPage.kMaxSize
                           (Z.to_nat (GetSize d)) (GetSize d) d);;
  update recipient (InternalPage.SetValueAt 0 last);;
  update recipient (InternalPage.SetKeyAt 1 middle_key);;
  update recipient (λ d, Val (IncreaseSize 1 d));;
  UpdateChildParent last recipient.

(** A move between two leaves. *)
Definition move_leaf (self recipient : page_id_t) (f : bytes → bytes → res (bytes * bytes)) : M t () :=
  d ← read self;
  to ← read recipient;
  x ← lift (f d to);
  write self x.1;;
  write recipient x.2.

(** ** Lookup *)

(** The loop of [FindLeafPageGuard]; [cur] is pinned. *)
Fixpoint find_leaf_from (fuel : nat) (key : KeyType) (leftmost : bool) (cur : page_id_t) : M t page_id_t :=
  d ← read cur;
  if IsLeafPage d then mret cur else
  match fuel with
  | O => out_of_fuel
  | Datatypes.S fuel =>
      child ← lift (if leftmost then InternalPage.ValueAt d 0 else InternalPage.Lookup key d);
      fetch child;;
      unpin cur false;;
      find_leaf_from fuel key leftmost child
  end.

Definition FindLeafPageGuard (fuel : nat) (key : KeyType) (leftmost : bool) : M t page_id_t :=
  tr ← get;
  fetch (root_page_id_ tr);;
  find_leaf_from fuel key leftmost (root_page_id_ tr).

Definition GetValue (fuel : nat) (key : KeyType) : M t (option string) :=
  tr ← get;
  if IsEmpty tr then mret None else
  leaf ← FindLeafPageGuard fuel key false;
  v ← query leaf (LeafPage.Lookup key);
  unpin leaf false;;
  mret v.

(** ** Insert *)

Definition exhausted {A} (msg : string) : M t A := throw (RuntimeError msg).

Fixpoint InsertIntoParent (fuel : nat) (left_id : page_id_t) (middle_key : KeyType)
    (right_id : page_id_t) : M t () :=
  match fuel with
  | O => out_of_fuel
  | Datatypes.S fuel =>
      fetch left_id;;
      parent_id ← query left_id (λ d, Val (GetParentPageId d));
      tr ← get;
      if parent_id =? INVALID_PAGE_ID then
        new_root ← unwind left_id false (bpm pool_new);
        match new_root with
        | None =>
            unwind left_id false
              (exhausted "BPlusTree::InsertIntoParent: buffer pool exhausted creating root")
        | Some new_root_id =>
            update new_root_id (λ d, Val (InternalPage.Init INVALID_PAGE_ID (internal_max_size_ tr) d));;
            update new_root_id (InternalPage.PopulateNewRoot left_id middle_key right_id);;
            unpin new_root_id true;;
            update left_id (λ d, Val (SetParentPageId new_root_id d));;
            unwind left_id true (fetch right_id);;
            update right_id (λ d, Val (SetParentPageId new_root_id d));;
            unpin right_id true;;
            set_root new_root_id;;
            unpin left_id true
        end
      else
        unwind left_id false (fetch parent_id);;
        new_size ← on_page parent_id (InternalPage.InsertNodeAfter left_id middle_key right_id);
        (if internal_max_size_ tr <? new_size then
           unwind left_id false (unwind parent_id true (
             new_internal ← bpm pool_new;
             match new_internal with
             | None =>
                 exhausted "BPlusTree::InsertIntoParent: buffer pool exhausted splitting internal node"
             | Some new_internal_id =>
                 grand ← query parent_id (λ d, Val (GetParentPageId d));
                 update new_internal_id (λ d, Val (InternalPage.Init grand (internal_max_size_ tr) d));;
                 MoveHalfTo parent_id new_internal_id;;
                 up_key ← query new_internal_id (λ d, InternalPage.KeyAt d 0);
                 unpin new_internal_id true;;
                 InsertIntoParent fuel parent_id up_key new_internal_id
             end))
         else mret tt);;
        unpin parent_id true;;
        unpin left_id false
  end.

Definition Insert (fuel : nat) (key : KeyType) (value : string) : M t bool :=
  tr ← get;
  if IsEmpty tr then
    new_page ← bpm pool_new;
    match new_page with
    | None => exhausted "BPlusTree::Insert: buffer pool exhausted creating root"
    | Some new_page_id =>
        update new_page_id (λ d, Val (LeafPage.Init INVALID_PAGE_ID (leaf_max_size_ tr) d));;
        _ ← on_page new_page_id (LeafPage.Insert key value);
        unpin new_page_id true;;
        set_root new_page_id;;
        mret true
    end
  else
    leaf ← FindLeafPageGuard fuel key false;
    old_size ← query leaf (λ d, Val (GetSize d));
    new_size ← unwind leaf false (on_page leaf (LeafPage.Insert key value));
    (if leaf_max_size_ tr <? new_size then
       unwind leaf true (
         new_leaf ← bpm pool_new;
         match new_leaf with
         | None => exhausted "BPlusTree::Insert: buffer pool exhausted splitting leaf"
         | Some new_leaf_id =>
             parent ← query leaf (λ d, Val (GetParentPageId d));
             update new_leaf_id (λ d, Val (LeafPage.Init parent (leaf_max_size_ tr) d));;
             move_leaf leaf new_leaf_id (LeafPage.MoveHalfTo new_leaf_id);;
             middle_key ← query new_leaf_id (λ d, LeafPage.KeyAt d 0);
             unwind new_leaf_id true (InsertIntoParent fuel leaf middle_key new_leaf_id);;
             unpin new_leaf_id true
         end)
     else mret tt);;
    unpin leaf true;;
    mret (old_size <? new_size).

(** ** Remove *)

(** What redistribution and merging do for each kind of node: [node] and its
    sibling are pinned, as is [parent]; [idx] is [node]'s index in it. *)
Record node_kind := mkKind {
  borrow_left : page_id_t → page_id_t → page_id_t → Z → M t ();
  borrow_right : page_id_t → page_id_t → page_id_t → Z → M t ();
  merge_into_left : page_id_t → page_id_t → page_id_t → Z → M t ();
  merge_right_in : page_id_t → page_id_t → page_id_t → Z → M t ();
}.

Definition leaf_kind : node_kind := mkKind
  (λ left node parent idx,
     move_leaf left node LeafPage.MoveLastToFrontOf;;
     k ← query node (λ d, LeafPage.KeyAt d 0);
     update parent (InternalPage.SetKeyAt idx k))
  (λ right node parent idx,
     move_leaf right node LeafPage.MoveFirstToEndOf;;
     k ← query right (λ d, LeafPage.KeyAt d 0);
     update parent (InternalPage.SetKeyAt (idx + 1) k))
  (λ left node parent idx, move_leaf node left LeafPage.MoveAllTo)
  (λ right node parent idx, move_leaf right node LeafPage.MoveAllTo).

Definition internal_kind : node_kind := mkKind
  (λ left node parent idx,
     new_separator ← query left (λ d, InternalPage.KeyAt d (GetSize d - 1));
     middle ← query parent (λ d, InternalPage.KeyAt d idx);
     MoveLastToFrontOf left node middle;;
     update parent (InternalPage.SetKeyAt idx new_separator))
  (λ right node parent idx,
     new_separator ← query right (λ d, InternalPage.KeyAt d 1);
     middle ← query parent (λ d, InternalPage.KeyAt d (idx + 1));
     MoveFirstToEndOf right node middle;;
     update parent (InternalPage.SetKeyAt (idx + 1) new_separator))
  (λ left node parent idx,
     middle ← query parent (λ d, InternalPage.KeyAt d idx);
     MoveAllTo node left middle)
  (λ right node parent idx,
     middle ← query parent (λ d, InternalPage.KeyAt d (idx + 1));
     MoveAllTo right node middle).

(** [node_guard] has dirty flag [nd]; it is released in every branch. *)
Definition HandleRootUnderflow (node_id : page_id_t) (nd : bool) : M t () :=
  d ← read node_id;
  if IsLeafPage d then
    if GetSize d =? 0 then
      unpin node_id nd;;
      _ ← bpm (pool_delete node_id);
      set_root INVALID_PAGE_ID
    else unpin node_id nd
  else if GetSize d =? 1 then
    only_child ← on_page node_id InternalPage.RemoveAndReturnOnlyChild;
    unpin node_id nd;;
    _ ← bpm (pool_delete node_id);
    fetch only_child;;
    update only_child (λ d, Val (SetParentPageId INVALID_PAGE_ID d));;
    unpin only_child true;;
    set_root only_child
  else unpin node_id nd.

(** One attempt to take an entry from a sibling that can spare one. *)
Definition try_borrow (sib_id node_id parent_id : page_id_t) (nd : bool)
    (borrow : M t ()) : M t bool :=
  unwind node_id nd (unwind parent_id false (fetch sib_id));;
  sd ← read sib_id;
  if GetMinSize sd <? GetSize sd then
    unwind node_id nd (unwind parent_id false (unwind sib_id false borrow));;
    unpin sib_id true;;
    unpin parent_id true;;
    unpin node_id true;;
    mret true
  else
    unpin sib_id false;;
    mret false.

Fixpoint HandleUnderflow (fuel : nat) (node_id : page_id_t) (nd : bool) : M t () :=
  match fuel with
  | O => out_of_fuel
  | Datatypes.S fuel =>
      d ← read node_id;
      if IsRootPage d then HandleRootUnderflow node_id nd else
      if GetMinSize d <=? GetSize d then unpin node_id nd else
      let parent_id := GetParentPageId d in
      unwind node_id nd (fetch parent_id);;
      pd ← read parent_id;
      idx ← lift (InternalPage.ValueIndex node_id pd);
      let has_left := 0 <? idx in
      let has_right := idx <? GetSize pd - 1 in
      let kind := if IsLeafPage d then leaf_kind else internal_kind in
      done_left ← (if has_left then
        left_id ← lift (InternalPage.ValueAt pd (idx - 1));
        try_borrow left_id node_id parent_id nd (borrow_left kind left_id node_id parent_id idx)
        else mret false);
      if done_left : bool then mret tt else
      done_right ← (if has_right then
        right_id ← lift (InternalPage.ValueAt pd (idx + 1));
        try_borrow right_id node_id parent_id nd (borrow_right kind right_id node_id parent_id idx)
        else mret false);
      if done_right : bool then mret tt else
      (if has_left then
        left_id ← lift (InternalPage.ValueAt pd (idx - 1));
        unwind node_id nd (unwind parent_id false (fetch left_id));;
        unwind node_id nd (unwind parent_id false (unwind left_id false
          (merge_into_left kind left_id node_id parent_id idx)));;
        update parent_id (InternalPage.Remove idx);;
        unpin node_id nd;;
        _ ← bpm (pool_delete node_id);
        unpin left_id true;;
        unpin parent_id true
      else
        right_id ← lift (InternalPage.ValueAt pd (idx + 1));
        unwind node_id nd (unwind parent_id false (fetch right_id));;
        unwind node_id nd (unwind parent_id false (unwind right_id false
          (merge_right_in kind right_id node_id parent_id idx)));;
        update parent_id (InternalPage.Remove (idx + 1));;
        unpin right_id false;;
        _ ← bpm (pool_delete right_id);
        unpin node_id true;;
        unpin parent_id true);;
      fetch parent_id;;
      HandleUnderflow fuel parent_id false
  end.

Definition Remove (fuel : nat) (key : KeyType) : M t bool :=
  tr ← get;
  if IsEmpty tr then mret false else
  leaf ← FindLeafPageGuard fuel key false;
  removed ← on_page leaf (LeafPage.Remove key);
  if removed : bool then
    HandleUnderflow fuel leaf true;;
    mret true
  else
    unpin leaf false;;
    mret false.

(** ** Iterator *)

(** [it_page] tells whether [page_] is not null. *)
Record Iterator := mkIt {
  it_page_id : page_id_t;
  it_page : bool;
  it_index : Z;
}.

Definition end_iterator : Iterator := mkIt INVALID_PAGE_ID false 0.

Definition IsEnd (it : Iterator) : bool := negb (it_page it).

Definition GetKey (it : Iterator) : M t KeyType :=
  if it_page it then query (it_page_id it) (λ d, LeafPage.KeyAt d (it_index it)) else undefined.

Definition it_GetValue (it : Iterator) : M t string :=
  if it_page it then query (it_page_id it) (λ d, LeafPage.ValueAt d (it_index it)) else undefined.

Definition Release (it : Iterator) : M t () :=
  if it_page it then unpin (it_page_id it) false else mret tt.

(** [operator++] *)
Definition Next (it : Iterator) : M t Iterator :=
  if it_page it then
    d ← read (it_page_id it);
    let index := it_index it + 1 in
    if GetSize d <=? index then
      let next := LeafPage.GetNextPageId d in
      unpin (it_page_id it) false;;
      if next =? INVALID_PAGE_ID then mret (mkIt INVALID_PAGE_ID false index)
      else
        ok ← bpm (pool_fetch next);
        mret (mkIt next ok 0)
    else mret (mkIt (it_page_id it) true index)
  else undefined.

(** [Begin()] *)
Definition Begin (fuel : nat) : M t Iterator :=
  tr ← get;
  if IsEmpty tr then mret end_iterator else
  leaf ← FindLeafPageGuard fuel INVALID_KEY true;
  mret (mkIt leaf true 0).

(** [Begin(key)] *)
Definition Begin_at (fuel : nat) (key : KeyType) : M t Iterator :=
  tr ← get;
  if IsEmpty tr then mret end_iterator else
  leaf ← FindLeafPageGuard fuel key false;
  d ← read leaf;
  idx ← lift (LeafPage.KeyIndex key d);
  if GetSize d <=? idx then
    let next := LeafPage.GetNextPageId d in
    unpin leaf false;;
    if next =? INVALID_PAGE_ID then mret end_iterator
    else
      ok ← bpm (pool_fetch next);
      mret (mkIt next ok 0)
  else mret (mkIt leaf true idx).

End tree.
Arguments t S : clear implicits.
End BPlusTree.
