(* ===== verification/Engine.v ===== *)
(** * StorageEngine (engine/storage_engine.h)

    The interface of a storage engine, as the SQL layer calls it, and the
    contract its comments state: an ordered map from 64-bit keys to values of
    at most [MAX_VALUE_SIZE] bytes, with cursors over key ranges. *)

From S2P Require Import Prelude Entries Bytes.

(** ** The interface

    A [StorageIterator] is a value; [Next] answers with the moved iterator.
    [Destroy] is the destructor its [std::unique_ptr] runs. *)

Class StorageEngine (E : Type) := {
  Iter : Type;
  Get : KeyType → M E (option string);
  Put : KeyType → string → M E ();
  Delete : KeyType → M E bool;
  Scan : KeyType → M E Iter;
  IsValid : Iter → bool;
  Next : Iter → M E Iter;
  GetKey : Iter → M E KeyType;
  GetValue : Iter → M E string;
  Destroy : Iter → M E ();
}.

(** ** The contract

    [stores n e es]: [e] holds the entries [es], in ascending key order, with
    space for [n] more calls of [Put].  [scanning n e es it rest]: it does, and
    the iterator [it] open on it has the entries [rest] in front of it.
    [opened n e es it]: [it] is still open, the entries may have been deleted
    under it, and it can only be destroyed. *)

Class EngineSpec (E : Type) `{!StorageEngine E} := {
  stores : nat → E → list (Z * string) → Prop;
  scanning : nat → E → list (Z * string) → Iter → list (Z * string) → Prop;
  opened : nat → E → list (Z * string) → Iter → Prop;

  stores_sorted n e es : stores n e es → sorted es;
  stores_keys n e es x : stores n e es → x ∈ es → is_i64 x.1;
  stores_le n n' e es : stores n e es → (n' ≤ n)%nat → stores n' e es;

  Get_spec n e es k :
    stores n e es → is_i64 k → ∃ e', Get k e = (Val (look k es), e') ∧ stores n e' es;
  Put_spec n e es k v :
    stores (S n) e es → is_i64 k → ssize v ≤ MAX_VALUE_SIZE →
    ∃ e', Put k v e = (Val tt, e') ∧ stores n e' (ins k v es);
  Delete_spec n e es k :
    stores n e es → is_i64 k →
    ∃ e', Delete k e = (Val (bool_decide (is_Some (look k es))), e') ∧ stores n e' (del k es);

  Scan_spec n e es k :
    stores n e es → is_i64 k →
    ∃ e' it before rest, Scan k e = (Val it, e') ∧ scanning n e' es it rest ∧ es = before ++ rest ∧
      (∀ x, x ∈ before → x.1 < k) ∧ (∀ x, x ∈ rest → k ≤ x.1);
  IsValid_spec n e es it rest :
    scanning n e es it rest → IsValid it = bool_decide (rest ≠ []);
  GetKey_spec n e es it k v rest :
    scanning n e es it ((k, v) :: rest) →
    ∃ e', GetKey it e = (Val k, e') ∧ scanning n e' es it ((k, v) :: rest);
  GetValue_spec n e es it k v rest :
    scanning n e es it ((k, v) :: rest) →
    ∃ e', GetValue it e = (Val v, e') ∧ scanning n e' es it ((k, v) :: rest);
  Next_spec n e es it x rest :
    scanning n e es it (x :: rest) →
    ∃ e' it', Next it e = (Val it', e') ∧ scanning n e' es it' rest;

  scanning_opened n e es it rest : scanning n e es it rest → opened n e es it;
  Delete_opened n e es it k :
    opened n e es it → is_i64 k →
    ∃ e', Delete k e = (Val (bool_decide (is_Some (look k es))), e') ∧ opened n e' (del k es) it;
  Destroy_spec n e es it :
    opened n e es it → ∃ e', Destroy it e = (Val tt, e') ∧ stores n e' es;
}.
