(* ===== verification/EngineRuns.v ===== *)
(** * Runs of a storage engine

    Sequences of calls on any storage engine, and the ordered map they are
    supposed to be calls on. *)

From S2P Require Import Prelude Entries Bytes Engine.

(** ** Calls *)

Inductive op :=
  | OGet (k : Z)
  | OPut (k : Z) (v : string)
  | ODelete (k : Z)
  | OScan (start : Z).

Inductive answer :=
  | AGet (v : option string)
  | APut
  | ADelete (existed : bool)
  | AScan (l : list (Z * string)).

(** Keys are of [KeyType], values fit. *)
Definition valid_op (o : op) : Prop :=
  match o with
  | OGet k | ODelete k | OScan k => is_i64 k
  | OPut k v => is_i64 k ∧ ssize v ≤ MAX_VALUE_SIZE
  end.

Definition put_count (o : op) : nat := match o with OPut _ _ => 1 | _ => 0 end.
Definition puts (ops : list op) : nat := sum_list_with put_count ops.

Section run.
Context {E : Type} `{!StorageEngine E}.

(** [for (auto it = Scan(start); it->IsValid(); it->Next())], collecting. *)
Fixpoint drain (fuel : nat) (it : Iter) : M E (list (Z * string)) :=
  if IsValid it then
    match fuel with
    | O => λ s, (NoFuel, s)
    | S fuel =>
        k ← GetKey it;
        v ← GetValue it;
        it ← Next it;
        l ← drain fuel it;
        mret ((k, v) :: l)
    end
  else Destroy it;; mret [].

Definition call (fuel : nat) (o : op) : M E answer :=
  match o with
  | OGet k => v ← Get k; mret (AGet v)
  | OPut k v => Put k v;; mret APut
  | ODelete k => b ← Delete k; mret (ADelete b)
  | OScan k => it ← Scan k; l ← drain fuel it; mret (AScan l)
  end.

Fixpoint run (fuel : nat) (ops : list op) : M E (list answer) :=
  match ops with
  | [] => mret []
  | o :: ops => a ← call fuel o; l ← run fuel ops; mret (a :: l)
  end.
End run.

(** ** What they should answer *)

(** On an ordered map: a scan lists, in ascending order, the entries from the
    start key on. *)
Definition answers (m : gmap Z string) (o : op) (a : answer) (m' : gmap Z string) : Prop :=
  match o, a with
  | OGet k, AGet v => v = m !! k ∧ m' = m
  | OPut k v, APut => m' = <[k := v]> m
  | ODelete k, ADelete b => b = bool_decide (is_Some (m !! k)) ∧ m' = delete k m
  | OScan k, AScan l => sorted l ∧ (∀ k' v, (k', v) ∈ l ↔ k ≤ k' ∧ m !! k' = Some v) ∧ m' = m
  | _, _ => False
  end.

Fixpoint all_answers (m : gmap Z string) (ops : list op) (l : list answer) (m' : gmap Z string) : Prop :=
  match ops, l with
  | [], [] => m' = m
  | o :: ops, a :: l => ∃ m1, answers m o a m1 ∧ all_answers m1 ops l m'
  | _, _ => False
  end.

Lemma all_answers_app m ops l m1 ops' l' m' :
  all_answers m ops l m1 → all_answers m1 ops' l' m' → all_answers m (ops ++ ops') (l ++ l') m'.
Proof.
  revert m l; induction ops as [|o ops IH]; intros m [|a l] H1 H2; simpl in *; try done; [by subst|].
  destruct H1 as (m2 & Ha & Hl). eauto.
Qed.

(** ** Any engine that meets the contract *)

Section spec.
Context {E : Type} `{!StorageEngine E, !EngineSpec E}.
Implicit Types (e : E) (es rest : list (Z * string)).

Lemma drain_spec fuel n e es it rest :
  scanning n e es it rest → (length rest ≤ fuel)%nat →
  ∃ e', drain fuel it e = (Val rest, e') ∧ stores n e' es.
Proof.
  revert e it rest; induction fuel as [|fuel IH]; intros e it rest Hs Hf.
  all: cbn [drain]; rewrite (IsValid_spec _ _ _ _ _ Hs); destruct rest as [|[k v] rest].
  1,3: destruct (Destroy_spec _ _ _ _ (scanning_opened _ _ _ _ _ Hs)) as (e' & Ed & Hst); exists e'; split; [|done];
    rewrite bool_decide_eq_false_2 by naive_solver; by mrun Ed.
  - simpl in Hf. lia.
  - destruct (GetKey_spec _ _ _ _ _ _ _ Hs) as (e1 & E1 & Hs1).
    destruct (GetValue_spec _ _ _ _ _ _ _ Hs1) as (e2 & E2 & Hs2).
    destruct (Next_spec _ _ _ _ _ _ Hs2) as (e3 & it' & E3 & Hs3).
    destruct (IH e3 it' rest Hs3) as (e4 & E4 & Hst); [simpl in Hf; lia|].
    exists e4. split; [|done]. rewrite bool_decide_eq_true_2 by done. mrun E1. mrun E2. mrun E3. by mrun E4.
Qed.

Lemma length_ins_le k v es : (length (ins k v es) ≤ S (length es))%nat.
Proof. induction es as [|[k' w] es IH]; simpl; [lia|]. case_match; [simpl; lia|]. case_match; simpl; lia. Qed.

Lemma puts_cons o ops : puts (o :: ops) = (put_count o + puts ops)%nat.
Proof. done. Qed.

Lemma call_spec fuel n e es o :
  stores (put_count o + n) e es → valid_op o → (length es ≤ fuel)%nat →
  ∃ e' a es', call fuel o e = (Val a, e') ∧ answers (to_map es) o a (to_map es') ∧ stores n e' es' ∧
    (length es' ≤ put_count o + length es)%nat.
Proof.
  intros Hs Hv Hf. pose proof (stores_sorted _ _ _ Hs) as Hsort. destruct o as [k|k v|k|k]; simpl in *.
  - destruct (Get_spec _ _ _ k Hs Hv) as (e' & E1 & Hs'). exists e', (AGet (look k es)), es.
    rewrite look_to_map. split_and!; [mrun E1; by rewrite look_to_map|done|done|done|lia].
  - destruct Hv as [Hk Hlen]. destruct (Put_spec _ _ _ k v Hs Hk Hlen) as (e' & E1 & Hs'). exists e', APut, (ins k v es).
    split_and!; [by mrun E1|by apply to_map_ins|done|apply length_ins_le].
  - destruct (Delete_spec _ _ _ k Hs Hv) as (e' & E1 & Hs'). exists e', (ADelete (bool_decide (is_Some (look k es)))), (del k es).
    split_and!; [by mrun E1|by rewrite look_to_map|apply to_map_del|done|]. apply length_filter.
  - destruct (Scan_spec _ _ _ k Hs Hv) as (e1 & it & before & rest & E1 & Hw & Hes & Hb & Hr).
    destruct (drain_spec fuel _ _ _ _ _ Hw) as (e2 & E2 & Hs2).
    { rewrite Hes, length_app in Hf. lia. }
    exists e2, (AScan rest), es. split_and!; [mrun E1; by mrun E2| | |done|done|lia].
    + rewrite Hes, fmap_app in Hsort. by apply StronglySorted_app_1_r in Hsort.
    + intros k' v. rewrite <-look_to_map, look_elem by done. rewrite Hes, elem_of_app. split.
      * intros Hin. split; [by apply (Hr _ Hin)|by right].
      * intros [Hle [Hin|Hin]]; [|done]. specialize (Hb _ Hin). simpl in Hb. lia.
Qed.

Lemma run_spec fuel n e es ops :
  stores (puts ops + n) e es → Forall valid_op ops → (length es + puts ops ≤ fuel)%nat →
  ∃ e' l es', run fuel ops e = (Val l, e') ∧ all_answers (to_map es) ops l (to_map es') ∧ stores n e' es' ∧
    (length es' ≤ length es + puts ops)%nat.
Proof.
  revert e es; induction ops as [|o ops IH]; intros e es Hs Hv Hf.
  { exists e, [], es. split_and!; [done..|lia]. }
  apply Forall_cons in Hv as [Ho Hv]. rewrite puts_cons in *.
  destruct (call_spec fuel (puts ops + n) e es o) as (e1 & a & es1 & E1 & Ha & Hs1 & Hl1); [by rewrite Nat.add_assoc|done|lia|].
  destruct (IH e1 es1 Hs1 Hv) as (e2 & l & es2 & E2 & Hl & Hs2 & Hl2); [lia|].
  exists e2, (a :: l), es2. split_and!; [simpl; mrun E1; by mrun E2|by eexists|done|lia].
Qed.
End spec.
