(* ===== verification/BTreeEngine.v ===== *)
(** * BPlusTreeEngine (index/b_plus_tree_engine.h, b_plus_tree_engine.cpp)

    The storage engine over a B+-tree.  The object is its [tree_], which refers
    to the pool; the pool owns the disk.  Page 0 holds the id of the tree's
    root.  [Open] and [Close] are the constructor and the destructor, over the
    database file. *)

From S2P Require Import Prelude Entries Bytes Disk Replacer Buffer TreePages BTree Engine.

Module BPlusTreeEngine.
Import BPlusTree.

Definition kMetaPageId : page_id_t := 0.

(** [MetaPage::root_page_id] *)
Definition meta_root (d : bytes) : page_id_t := get_i64 d 0.
Definition set_meta_root (p : page_id_t) (d : bytes) : bytes := put64 d 0 p.

Section engine.
Context {S : Type} `{!Pool S}.

(** The constructor's access to page 0. *)
Definition load_root (num_pages : Z) : M S page_id_t :=
  if num_pages =? 0 then
    meta ← pool_new;
    match meta with
    | None => undefined
    | Some meta_id =>
        d ← pool_read meta_id;
        pool_write meta_id (set_meta_root INVALID_PAGE_ID d);;
        _ ← pool_unpin meta_id true;
        mret INVALID_PAGE_ID
    end
  else
    ok ← pool_fetch kMetaPageId;
    if ok : bool then
      d ← pool_read kMetaPageId;
      _ ← pool_unpin kMetaPageId false;
      mret (meta_root d)
    else undefined.

Definition PersistRootPageIdIfChanged : M (t S) () :=
  fetch kMetaPageId;;
  mp ← read kMetaPageId;
  tr ← get;
  let changed := negb (meta_root mp =? root_page_id_ tr) in
  (if changed then write kMetaPageId (set_meta_root (root_page_id_ tr) mp) else mret tt);;
  unpin kMetaPageId changed.

Definition Get (fuel : nat) (key : KeyType) : M (t S) (option string) := BPlusTree.GetValue fuel key.

Definition Put (fuel : nat) (key : KeyType) (value : string) : M (t S) () :=
  _ ← Insert fuel key value;
  PersistRootPageIdIfChanged.

Definition Delete (fuel : nat) (key : KeyType) : M (t S) bool :=
  removed ← Remove fuel key;
  (if removed : bool then PersistRootPageIdIfChanged else mret tt);;
  mret removed.

Definition Scan (fuel : nat) (start_key : KeyType) : M (t S) Iterator :=
  if start_key =? INVALID_KEY then Begin fuel else Begin_at fuel start_key.
End engine.

(** ** Over the database file *)

Abbreviation pool := (BufferPoolManager.t LRUKReplacer.t) (only parsing).

(** The file behind a pool. *)
Definition file_of (b : pool) : DiskManager.file := DiskManager.fd_ (BufferPoolManager.disk_manager_ b).

(** [~BufferPoolManager]; an exception that leaves a destructor ends the
    program. *)
Definition destroy_pool (b : pool) : res () * DiskManager.file :=
  match BufferPoolManager.FlushAllPages b with
  | (Val _, b) => (Val tt, file_of b)
  | (_, b) => (Undef, file_of b)
  end.

(** A constructor that fails destroys the members it has built. *)
Definition abandon {A} (e : exn) (b : pool) : res A * DiskManager.file :=
  match destroy_pool b with
  | (Val _, f) => (Exn e, f)
  | (_, f) => (Undef, f)
  end.

Definition Open (db_file : string) (buffer_pool_size : Z) (f : DiskManager.file) :
    res (t pool) * DiskManager.file :=
  match DiskManager.Open db_file f with
  | (Exn e, f) => (Exn e, f)
  | (Undef, f) => (Undef, f)
  | (NoFuel, f) => (NoFuel, f)
  | (Val disk, f) =>
      match LRUKReplacer.New buffer_pool_size 2 with
      | Exn e => (Exn e, f)
      | Undef => (Undef, f)
      | NoFuel => (NoFuel, f)
      | Val replacer =>
          match load_root (DiskManager.GetNumPages disk) (BufferPoolManager.New buffer_pool_size disk replacer) with
          | (Exn e, b) => abandon e b
          | (Undef, b) => (Undef, file_of b)
          | (NoFuel, b) => (NoFuel, file_of b)
          | (Val root, b) =>
              match New b root (LeafPage.Capacity - 1) (InternalPage.Capacity - 1) with
              | Exn e => abandon e b
              | Undef => (Undef, file_of b)
              | NoFuel => (NoFuel, file_of b)
              | Val tr => (Val tr, file_of b)
              end
          end
      end
  end.

Definition Close (e : t pool) : res () * DiskManager.file := destroy_pool (bpm_ e).

End BPlusTreeEngine.

(** The loops of the tree go down its height, at most the logarithm of the
    number of entries; entries have different 64-bit keys. *)
Definition tree_fuel : nat := 66.

#[global] Instance btree_engine {S} `{!Pool S} : StorageEngine (BPlusTree.t S) := {
  Iter := BPlusTree.Iterator;
  Get := BPlusTreeEngine.Get tree_fuel;
  Put := BPlusTreeEngine.Put tree_fuel;
  Delete := BPlusTreeEngine.Delete tree_fuel;
  Scan := BPlusTreeEngine.Scan tree_fuel;
  IsValid it := negb (BPlusTree.IsEnd it);
  Next := BPlusTree.Next;
  GetKey := BPlusTree.GetKey;
  GetValue := BPlusTree.it_GetValue;
  Destroy := BPlusTree.Release;
}.
