(* ===== verification/BTreeSim.v ===== *)
(** * BPlusTree over two pools: the tree does the same on both

    Every operation of the tree respects a simulation between pools, so what
    is proved of the tree over the specification of the pool holds over the
    buffer pool manager. *)

From S2P Require Import Prelude Bytes Disk Replacer Buffer BufferTheory TreePages BTree.

Import BPlusTree.

Class PoolSim {C D : Type} `{!Pool C, !Pool D} (Rel : C → D → Prop) : Prop := {
  ps_new : sim Rel pool_new pool_new;
  ps_fetch p : sim Rel (pool_fetch p) (pool_fetch p);
  ps_unpin p b : sim Rel (pool_unpin p b) (pool_unpin p b);
  ps_delete p : sim Rel (pool_delete p) (pool_delete p);
  ps_read p : sim Rel (pool_read p) (pool_read p);
  ps_write p d : sim Rel (pool_write p d) (pool_write p d);
}.

#[global] Instance bpm_sim {R} `{!Replacer R, !ReplacerSpec R} : PoolSim (pool_rel (R := R) []).
Proof.
  split; [apply sim_new|apply sim_fetch|apply sim_unpin|apply sim_delete|apply sim_read|apply sim_write].
Qed.

Section tree.
Context {C D : Type} `{!Pool C, !Pool D} (Rel : C → D → Prop) `{!PoolSim Rel}.

Record tree_rel (x : t C) (y : t D) : Prop := {
  tl_pool : Rel (bpm_ x) (bpm_ y);
  tl_root : root_page_id_ x = root_page_id_ y;
  tl_leaf : leaf_max_size_ x = leaf_max_size_ y;
  tl_internal : internal_max_size_ x = internal_max_size_ y;
}.

Lemma sim_bpm {A} (m : M C A) (m' : M D A) : sim Rel m m' → sim tree_rel (bpm m) (bpm m').
Proof.
  intros Hm x y [Hp H1 H2 H3]. specialize (Hm _ _ Hp). unfold bpm.
  destruct (m' (bpm_ y)) as [[r| | |] s']; try done;
    destruct Hm as (c' & -> & Hr); (eexists; split; [done|by split]).
Qed.

Lemma sim_lift {A} (r : res A) : sim tree_rel (lift r) (lift r).
Proof. intros x y H. unfold lift. destruct r; eauto. Qed.

Lemma sim_get {A} (k : t C → M (t C) A) (k' : t D → M (t D) A) :
  (∀ x y, tree_rel x y → sim tree_rel (k x) (k' y)) → sim tree_rel (get ≫= k) (get ≫= k').
Proof. intros H x y Hr. unfold mbind, M_bind, get. by apply H. Qed.

Lemma sim_set_root p : sim tree_rel (set_root p) (set_root p).
Proof. intros x y [Hp H1 H2 H3]. simpl. eexists. split; [done|by split]. Qed.

Lemma sim_out {A} : sim tree_rel (out_of_fuel : M (t C) A) out_of_fuel.
Proof. intros x y H. simpl. eauto. Qed.

Lemma sim_tree_unpin p b : sim tree_rel (unpin p b) (unpin p b).
Proof. apply sim_bind; [apply sim_bpm, ps_unpin|intros; apply sim_ret]. Qed.

Lemma sim_unwind {A} p b (m : M (t C) A) (m' : M (t D) A) :
  sim tree_rel m m' → sim tree_rel (unwind p b m) (unwind p b m').
Proof.
  intros Hm x y H. specialize (Hm x y H). unfold unwind.
  destruct (m' y) as [[r|e| |] y']; try done; destruct Hm as (x' & -> & Hr); [by eauto| |by eauto].
  pose proof (sim_tree_unpin p b x' y' Hr) as Hu.
  destruct (unpin p b y') as [[r| | |] y'']; try done; destruct Hu as (x'' & -> & Hr'); eauto.
Qed.

End tree.

(** Walks both programs in step. *)
Ltac sim_step :=
  lazymatch goal with
  | |- sim _ (mret _) (mret _) => apply sim_ret
  | |- sim _ (throw _) (throw _) => apply sim_throw
  | |- sim _ (exhausted _) (exhausted _) => apply sim_throw
  | |- sim _ _ undefined => apply sim_undef
  | |- sim _ (get ≫= _) (get ≫= _) =>
      apply sim_get; intros [? ? ? ?] [? ? ? ?] [? ? ? ?]; simpl in *; subst
  | |- sim _ (_ ≫= _) (_ ≫= _) => apply sim_bind; [|intros]
  | |- sim _ (unwind _ _ _) (unwind _ _ _) => refine (sim_unwind _ _ _ _ _ _)
  | |- sim _ (lift _) (lift _) => apply sim_lift
  | |- sim _ (set_root _) (set_root _) => apply sim_set_root
  | |- sim _ out_of_fuel out_of_fuel => apply sim_out
  | |- sim _ (unpin _ _) (unpin _ _) => refine (sim_tree_unpin _ _ _)
  | |- sim _ (bpm _) (bpm _) =>
      apply sim_bpm;
      first [apply ps_new|apply ps_fetch|apply ps_unpin|apply ps_delete|apply ps_read|apply ps_write]
  | |- sim _ (if ?b then _ else _) (if ?b then _ else _) => destruct b
  | |- sim _ (match ?o with Some _ => _ | None => _ end) _ => destruct o
  | |- sim _ (fetch _) _ => unfold fetch
  | |- sim _ (read _) _ => unfold read
  | |- sim _ (write _ _) _ => unfold write
  | |- sim _ (on_page _ _) _ => unfold on_page
  | |- sim _ (update _ _) _ => unfold update
  | |- sim _ (query _ _) _ => unfold query
  | |- sim _ (move_leaf _ _ _) _ => unfold move_leaf
  | |- sim _ (UpdateChildParent _ _) _ => unfold UpdateChildParent
  end.
Ltac sim_tac := repeat (sim_step; cbv beta zeta).

Section operations.
Context {C D : Type} `{!Pool C, !Pool D} (Rel : C → D → Prop) `{!PoolSim Rel}.

Abbreviation tree_rel := (tree_rel Rel) (only parsing).

Lemma sim_find_leaf_from fuel key lm cur :
  sim tree_rel (find_leaf_from fuel key lm cur) (find_leaf_from fuel key lm cur).
Proof. revert cur; induction fuel as [|fuel IH]; intros cur; simpl; sim_tac. apply IH. Qed.

Lemma sim_FindLeaf fuel key lm :
  sim tree_rel (FindLeafPageGuard fuel key lm) (FindLeafPageGuard fuel key lm).
Proof. unfold FindLeafPageGuard. sim_tac. apply sim_find_leaf_from. Qed.

Lemma sim_GetValue fuel key : sim tree_rel (GetValue fuel key) (GetValue fuel key).
Proof. unfold GetValue, IsEmpty. sim_tac. apply sim_FindLeaf. Qed.

Lemma sim_move_children n from src to dst :
  sim tree_rel (move_children n from src to dst) (move_children n from src to dst).
Proof. revert src dst; induction n as [|n IH]; intros; simpl; sim_tac. apply IH. Qed.

Lemma sim_MoveHalfTo a b : sim tree_rel (MoveHalfTo a b) (MoveHalfTo a b).
Proof. unfold MoveHalfTo. sim_tac. apply sim_move_children. Qed.

Lemma sim_InsertIntoParent fuel l k r :
  sim tree_rel (InsertIntoParent fuel l k r) (InsertIntoParent fuel l k r).
Proof.
  revert l k r; induction fuel as [|fuel IH]; intros; simpl; sim_tac; [apply sim_MoveHalfTo|apply IH].
Qed.

Lemma sim_Insert fuel key v : sim tree_rel (Insert fuel key v) (Insert fuel key v).
Proof. unfold Insert, IsEmpty. sim_tac; [apply sim_FindLeaf|apply sim_InsertIntoParent]. Qed.

Lemma sim_borrow_left (leaf : bool) l n p i :
  sim tree_rel (borrow_left (if leaf then leaf_kind else internal_kind) l n p i)
               (borrow_left (if leaf then leaf_kind else internal_kind) l n p i).
Proof. destruct leaf; simpl; unfold MoveLastToFrontOf; sim_tac. Qed.

Lemma sim_borrow_right (leaf : bool) l n p i :
  sim tree_rel (borrow_right (if leaf then leaf_kind else internal_kind) l n p i)
               (borrow_right (if leaf then leaf_kind else internal_kind) l n p i).
Proof. destruct leaf; simpl; unfold MoveFirstToEndOf; sim_tac. Qed.

Lemma sim_merge_left (leaf : bool) l n p i :
  sim tree_rel (merge_into_left (if leaf then leaf_kind else internal_kind) l n p i)
               (merge_into_left (if leaf then leaf_kind else internal_kind) l n p i).
Proof. destruct leaf; simpl; unfold MoveAllTo; sim_tac. apply sim_move_children. Qed.

Lemma sim_merge_right (leaf : bool) l n p i :
  sim tree_rel (merge_right_in (if leaf then leaf_kind else internal_kind) l n p i)
               (merge_right_in (if leaf then leaf_kind else internal_kind) l n p i).
Proof. destruct leaf; simpl; unfold MoveAllTo; sim_tac. apply sim_move_children. Qed.

Lemma sim_HandleUnderflow fuel n b : sim tree_rel (HandleUnderflow fuel n b) (HandleUnderflow fuel n b).
Proof.
  revert n b; induction fuel as [|fuel IH]; intros; simpl; [apply sim_out|].
  sim_step; [sim_tac|]. sim_step; [unfold HandleRootUnderflow; sim_tac|].
  sim_step; [sim_tac|]. cbv zeta. sim_step; [sim_tac|]. sim_step; [sim_tac|]. sim_step; [sim_tac|].
  sim_step.
  { sim_step; [|sim_tac]. sim_step; [sim_tac|]. unfold try_borrow. sim_tac. apply sim_borrow_left. }
  sim_step; [sim_tac|]. sim_step.
  { sim_step; [|sim_tac]. sim_step; [sim_tac|]. unfold try_borrow. sim_tac. apply sim_borrow_right. }
  sim_step; [sim_tac|]. sim_step.
  - sim_tac; [apply sim_merge_left|apply sim_merge_right].
  - sim_tac. apply IH.
Qed.

Lemma sim_Remove fuel key : sim tree_rel (Remove fuel key) (Remove fuel key).
Proof. unfold Remove, IsEmpty. sim_tac; [apply sim_FindLeaf|apply sim_HandleUnderflow]. Qed.

Lemma sim_Begin fuel : sim tree_rel (Begin fuel) (Begin fuel).
Proof. unfold Begin, IsEmpty. sim_tac. apply sim_FindLeaf. Qed.

Lemma sim_Begin_at fuel key : sim tree_rel (Begin_at fuel key) (Begin_at fuel key).
Proof. unfold Begin_at, IsEmpty. sim_tac. apply sim_FindLeaf. Qed.

Lemma sim_Next it : sim tree_rel (Next it) (Next it).
Proof. unfold Next. sim_tac. Qed.

Lemma sim_GetKey it : sim tree_rel (GetKey it) (GetKey it).
Proof. unfold GetKey. sim_tac. Qed.

Lemma sim_it_GetValue it : sim tree_rel (it_GetValue it) (it_GetValue it).
Proof. unfold it_GetValue. sim_tac. Qed.

Lemma sim_Release it : sim tree_rel (Release it) (Release it).
Proof. unfold Release. sim_tac. Qed.
End operations.
