(* ===== verification/BTreeRep.v ===== *)
(** * B+-tree: the tree the pages stand for

    [tree h] is a tree of height [h]: a page id with the entries of a leaf, or
    with keyed subtrees (the first key of a node is its unused placeholder).
    [rep] says that a heap of pages holds such a tree, with parent pointers and
    the chain of leaves; [ord] is the search-tree order with the separators,
    [full] the occupancy of nodes other than the root.  [ctx] is the path above
    a subtree. *)

From S2P Require Import Prelude Entries Bytes TreePages TreePagesTheory LeafTheory InternalTheory.

(** ** Trees *)

Fixpoint tree (h : nat) : Type :=
  match h with
  | O => page_id_t * list (Z * string)
  | S h => page_id_t * list (Z * tree h)
  end.

Definition root {h} : tree h → page_id_t :=
  match h with
  | O => λ t, t.1
  | S _ => λ t, t.1
  end.

(** What [f] gives for the children, in order. *)
Definition flat {T A} (f : T → list A) (cs : list (Z * T)) : list A := concat ((λ e, f e.2) <$> cs).

Fixpoint entries (h : nat) : tree h → list (Z * string) :=
  match h with
  | O => λ t, t.2
  | S h => λ t, flat (entries h) t.2
  end.

Fixpoint pids (h : nat) : tree h → list page_id_t :=
  match h with
  | O => λ t, [t.1]
  | S h => λ t, t.1 :: flat (pids h) t.2
  end.

Fixpoint first_leaf (h : nat) : tree h → page_id_t :=
  match h with
  | O => λ t, t.1
  | S h => λ t, match t.2 with [] => INVALID_PAGE_ID | e :: _ => first_leaf h e.2 end
  end.

(** The first leaf at or after some siblings, [nx] being the one behind them. *)
Definition next_of {h} (nx : page_id_t) (cs : list (Z * tree h)) : page_id_t :=
  match cs with
  | [] => nx
  | e :: _ => first_leaf h e.2
  end.

(** The (key, child) pairs a node's page stores. *)
Definition links {h} (cs : list (Z * tree h)) : list (Z * page_id_t) := (λ e, (e.1, root e.2)) <$> cs.

(** ** Intervals of keys *)

Definition above (lo : option Z) (k : Z) : Prop := if lo is Some l then l ≤ k else True.
(** Separators lie strictly inside the interval they cut. *)
Definition over (lo : option Z) (k : Z) : Prop := if lo is Some l then l < k else True.
Definition below (hi : option Z) (k : Z) : Prop := if hi is Some u then k < u else True.

Abbreviation ivl := (option Z → option Z → Prop) (only parsing).

(** Consecutive intervals from [lo] to [hi], cut at the keys. *)
Fixpoint ordp (lo hi : option Z) (Q : ivl) (rest : list (Z * ivl)) : Prop :=
  match rest with
  | [] => Q lo hi
  | (k, Q') :: rest => Q lo (Some k) ∧ over lo k ∧ below hi k ∧ ordp (Some k) hi Q' rest
  end.

Definition ordl (lo hi : option Z) (ps : list (Z * ivl)) : Prop :=
  match ps with
  | [] => True
  | (_, Q) :: rest => ordp lo hi Q rest
  end.

Definition hole (l u : option Z) : ivl := λ lo hi, lo = l ∧ hi = u.

Definition ivls {h} (R : option Z → option Z → tree h → Prop) (cs : list (Z * tree h)) : list (Z * ivl) :=
  (λ e, (e.1, λ lo hi, R lo hi e.2)) <$> cs.

Fixpoint ord (h : nat) (lo hi : option Z) : tree h → Prop :=
  match h with
  | O => λ t, sorted t.2 ∧ ∀ e, e ∈ t.2 → above lo e.1 ∧ below hi e.1
  | S h => λ t, t.2 ≠ [] ∧ ordl lo hi (ivls (ord h) t.2)
  end.

Section intervals.
Implicit Types (lo hi l u : option Z) (Q : ivl) (A B : list (Z * ivl)).

Lemma above_le lo k k' : above lo k → k ≤ k' → above lo k'.
Proof. destruct lo; simpl; [lia|done]. Qed.

Lemma over_le lo k k' : over lo k → k ≤ k' → over lo k'.
Proof. destruct lo; simpl; [lia|done]. Qed.

Lemma over_above lo k k' : over lo k → k ≤ k' → above lo k'.
Proof. destruct lo; simpl; [lia|done]. Qed.

Lemma below_le hi k k' : below hi k' → k ≤ k' → below hi k.
Proof. destruct hi; simpl; [lia|done]. Qed.

(** What can be said of a suffix can be said of it behind any prefix. *)
Lemma ordl_ctx {X} (P : X → Prop) (F : X → ivl) lo hi A k Q B B' :
  (∀ lo, ordp lo hi Q B → ∃ x, P x ∧ ordp lo hi (F x) B') →
  ordl lo hi (A ++ (k, Q) :: B) → ∃ x, P x ∧ ordl lo hi (A ++ (k, F x) :: B').
Proof.
  intros Hf. destruct A as [|[k0 Q0] A]; simpl; [apply Hf|].
  revert lo Q0; induction A as [|[k' Q'] A IH]; intros lo Q0; simpl.
  - intros (H1 & H2 & H3 & H4). destruct (Hf _ H4) as (x & Hx & H4'). eauto 10.
  - intros (H1 & H2 & H3 & H4). destruct (IH _ _ H4) as (x & Hx & H4'). eauto 10.
Qed.

(** Splitting off one position, and filling it. *)
Lemma ordl_focus lo hi A k Q B :
  ordl lo hi (A ++ (k, Q) :: B) → ∃ l u, Q l u ∧ ordl lo hi (A ++ (k, hole l u) :: B).
Proof.
  intros H.
  destruct (ordl_ctx (λ x, Q x.1 x.2) (λ x, hole x.1 x.2) lo hi A k Q B B) as ([l u] & HQ & Ho); eauto.
  intros lo'. destruct B as [|[k' Q'] B]; simpl; unfold hole.
  - intros HQ. by exists (lo', hi).
  - intros (HQ & Ha & Ho). by exists (lo', Some k').
Qed.

Lemma ordl_fill lo hi A k l u Q B :
  ordl lo hi (A ++ (k, hole l u) :: B) → Q l u → ordl lo hi (A ++ (k, Q) :: B).
Proof.
  intros H HQ. destruct (ordl_ctx (λ _ : (), True) (λ _, Q) lo hi A k (hole l u) B B) as (_ & _ & Ho); eauto.
  intros lo'. destruct B as [|[k' Q'] B]; simpl; unfold hole.
  - intros [-> ->]. by exists ().
  - intros ([-> <-] & Ha & Ho). by exists ().
Qed.

(** Cutting one position in two. *)
Lemma ordl_split lo hi A k l u m Q1 Q2 B :
  ordl lo hi (A ++ (k, hole l u) :: B) → Q1 l (Some m) → Q2 (Some m) u → over l m → below u m →
  ordl lo hi (A ++ (k, Q1) :: (m, Q2) :: B).
Proof.
  intros H H1 H2 Hm Hm'.
  destruct (ordl_ctx (λ _ : (), True) (λ _, Q1) lo hi A k (hole l u) B ((m, Q2) :: B)) as (_ & _ & Ho); eauto.
  intros lo'. destruct B as [|[k' Q'] B]; simpl; unfold hole.
  - intros [-> ->]. by exists ().
  - intros ([-> <-] & Ha & Hb & Ho). exists (). simpl in Hm'.
    split_and!; try done. eapply below_le; [done|lia].
Qed.

(** Joining two neighbours. *)
Lemma ordl_join lo hi A k1 Q1 k2 Q2 B :
  ordl lo hi (A ++ (k1, Q1) :: (k2, Q2) :: B) →
  ∃ l u, Q1 l (Some k2) ∧ Q2 (Some k2) u ∧ over l k2 ∧ below u k2 ∧
         ordl lo hi (A ++ (k1, hole l u) :: B).
Proof.
  intros H.
  destruct (ordl_ctx (λ x, Q1 x.1 (Some k2) ∧ Q2 (Some k2) x.2 ∧ over x.1 k2 ∧ below x.2 k2)
    (λ x, hole x.1 x.2) lo hi A k1 Q1 ((k2, Q2) :: B) B) as ([l u] & (HQ1 & HQ2 & Ha & Hb) & Ho);
    [|done|eauto 10].
  intros lo'. destruct B as [|[k' Q'] B]; simpl; unfold hole.
  - intros (HQ & Ha & Hb & HQ'). by exists (lo', hi).
  - intros (HQ & Ha & Hb & HQ' & Ha' & Hb' & Ho). exists (lo', Some k'). simpl. split_and!; try done.
    simpl in Ha'. eapply over_le; [exact Ha|lia].
Qed.

(** Cutting a sequence of positions. *)
Lemma ordl_cut lo hi A k Q B :
  A ≠ [] →
  ordl lo hi (A ++ (k, Q) :: B) ↔
  ordl lo (Some k) A ∧ ordl (Some k) hi ((k, Q) :: B) ∧ over lo k ∧ below hi k.
Proof.
  destruct A as [|[k0 Q0] A]; [done|]. intros _. simpl.
  revert lo Q0; induction A as [|[k1 Q1] A IH]; intros lo Q0; simpl; [tauto|]. rewrite IH. split.
  - intros (H0 & Ho & Hb & HA & HB & Hk & Hk'). simpl in Hk. split_and!; try done.
    eapply over_le; [done|lia].
  - intros ((H0 & Ho & Hb & HA) & HB & Hk & Hk'). simpl in Hb. split_and!; try done.
    eapply below_le; [done|lia].
Qed.

(** The key in front of the first position is never looked at. *)
Lemma ordl_head lo hi k k' Q B : ordl lo hi ((k, Q) :: B) → ordl lo hi ((k', Q) :: B).
Proof. done. Qed.

(** Separators are in order. *)
Lemma ordp_sorted lo hi Q A :
  ordp lo hi Q A →
  (∀ k Q', (k, Q') ∈ A → over lo k) ∧
  ∀ i j k k' Q1 Q2, (i < j)%nat → A !! i = Some (k, Q1) → A !! j = Some (k', Q2) → k < k'.
Proof.
  revert lo Q; induction A as [|[k Q'] A IH]; intros lo Q; simpl; [set_solver|].
  intros (_ & Ha & _ & Ho). destruct (IH _ _ Ho) as [IH1 IH2]. split.
  - intros k' Q2 [[= -> ->]|Hin]%elem_of_cons; [done|]. specialize (IH1 _ _ Hin). simpl in IH1.
    eapply over_le; [done|lia].
  - intros [|i] [|j] k1 k2 Q1 Q2 Hij; try lia; simpl.
    + intros [= <- <-] Hj. apply (IH1 k2 Q2). by apply list_elem_of_lookup_2 in Hj.
    + intros Hi Hj. apply (IH2 i j k1 k2 Q1 Q2); [lia|done..].
Qed.
End intervals.

(** ** Order of the entries *)

Definition within (lo hi : option Z) {V} (es : list (Z * V)) : Prop :=
  ∀ e, e ∈ es → above lo e.1 ∧ below hi e.1.

Lemma ordp_entries {h} (R : option Z → option Z → tree h → Prop) (f : tree h → list (Z * string)) lo hi t rest :
  (∀ lo hi t, R lo hi t → sorted (f t) ∧ within lo hi (f t)) →
  ordp lo hi (λ lo hi, R lo hi t) (ivls R rest) →
  sorted (f t ++ flat f rest) ∧ within lo hi (f t ++ flat f rest).
Proof.
  intros HR. revert lo t; induction rest as [|[k t'] rest IH]; intros lo t; simpl.
  - unfold flat. simpl. rewrite app_nil_r. apply HR.
  - intros (Ht & Ha & Hb & Ho). destruct (HR _ _ _ Ht) as [Hs Hw]. destruct (IH _ _ Ho) as [Hs' Hw'].
    unfold flat in *. simpl. split.
    + apply (sorted_app _ _ k); [done..| |].
      * intros e He. by apply Hw in He as [_ ?].
      * intros e He. by apply Hw' in He as [? _].
    + intros e [He|He]%elem_of_app.
      * apply Hw in He as [? Hk]. simpl in Hk. split; [done|]. eapply below_le; [done|lia].
      * apply Hw' in He as [Ha' ?]. simpl in Ha'. split; [|done]. by eapply over_above.
Qed.

Lemma ord_entries h lo hi t : ord h lo hi t → sorted (entries h t) ∧ within lo hi (entries h t).
Proof.
  revert lo hi t; induction h as [|h IH]; intros lo hi t; simpl; [done|].
  intros [Hne Ho]. destruct t as [p [|[k t] rest]]; simpl in *; [done|].
  apply (ordp_entries (ord h) (entries h) lo hi t rest); [apply IH|done].
Qed.

(** Keys left of, and right of, an interval. *)
Definition under (lo : option Z) (k : Z) : Prop := if lo is Some l then k < l else False.
Definition past (hi : option Z) (k : Z) : Prop := if hi is Some u then u ≤ k else False.

Lemma ordp_low lo hi Q A :
  ordp lo hi Q A → (∃ u, Q lo u) ∧ ∀ k Q', (k, Q') ∈ A → ∃ u, Q' (Some k) u.
Proof.
  revert lo Q; induction A as [|[k Q'] A IH]; intros lo Q; simpl; [set_solver|].
  intros (HQ & _ & _ & Ho). destruct (IH _ _ Ho) as [[u Hu] HA]. split; [eauto|].
  intros k2 Q2 [[= -> ->]|Hin]%elem_of_cons; eauto.
Qed.

Lemma ordp_hole lo hi l u B :
  ordp lo hi (hole l u) B →
  lo = l ∧ (∀ x, past hi x → past u x) ∧ ∀ k Q, (k, Q) ∈ B → ∃ u', Q (Some k) u' ∧ past u k.
Proof.
  destruct B as [|[k1 Q1] B]; simpl.
  - intros [-> ->]. split_and!; [done|done|]. set_solver.
  - intros ([-> <-] & Ho & Hb & HB). split_and!; [done|intros x; destruct hi; simpl in *; [lia|done]|].
    destruct (ordp_low _ _ _ _ HB) as [[u1 H1] Hlow]. destruct (ordp_sorted _ _ _ _ HB) as [Hs _].
    intros k Q [[= -> ->]|Hin]%elem_of_cons; [exists u1; simpl; auto with lia|].
    destruct (Hlow _ _ Hin) as [u' ?]. exists u'. specialize (Hs _ _ Hin). simpl in *. auto with lia.
Qed.

(** What lies beside one position. *)
Definition beside (lo hi l u : option Z) (A B : list (Z * ivl)) : Prop :=
  (∀ x, under lo x → under l x) ∧ (∀ x, past hi x → past u x) ∧
  (∀ k Q, (k, Q) ∈ A → ∃ l' m, Q l' (Some m) ∧ ∀ x, x < m → under l x) ∧
  (∀ k Q, (k, Q) ∈ B → ∃ u', Q (Some k) u' ∧ past u k).

Lemma ordp_sides lo hi Q0 k0 A k l u B :
  ordp lo hi Q0 (A ++ (k, hole l u) :: B) →
  beside lo hi l u ((k0, Q0) :: A) B ∧ ∃ l0, l = Some l0 ∧ over lo l0.
Proof.
  revert lo k0 Q0; induction A as [|[k1 Q1] A IH]; intros lo k0 Q0; simpl.
  - intros (HQ & Ho & Hb & (<- & Hp & HB)%ordp_hole). split; [|eauto]. split_and!; [|done| |done].
    + intros x. destruct lo; simpl in *; [lia|done].
    + intros k2 Q2 [[= -> ->]|?]%elem_of_cons; [|set_solver]. eauto.
  - intros (HQ & Ho & Hb & ((H1 & H2 & H3 & H4) & l0 & -> & Hl)%(IH _ k1)). simpl in Hl.
    split; [|exists l0; split; [done|]; eapply over_le; [done|lia]]. split_and!; [|done| |done].
    + intros x. destruct lo; simpl in *; [lia|done].
    + intros k2 Q2 [[= -> ->]|?]%elem_of_cons; [|eauto]. exists lo, k1. split; [done|]. simpl. lia.
Qed.

Lemma ordl_sides lo hi A k l u B :
  ordl lo hi (A ++ (k, hole l u) :: B) → beside lo hi l u A B.
Proof.
  destruct A as [|[k0 Q0] A]; simpl.
  - intros (-> & H1 & H2)%ordp_hole. split_and!; [done|done|set_solver|done].
  - intros H. by destruct (ordp_sides _ _ _ k0 _ _ _ _ _ H).
Qed.

(** ** Pages *)

Section pages.
Context (lm im : Z).

Abbreviation heap := (gmap page_id_t bytes) (only parsing).

Definition leaf_at (H : heap) (p par nx : page_id_t) (es : list (Z * string)) : Prop :=
  ∃ d, H !! p = Some d ∧ leaf_rep d par lm nx es.

Definition int_at (H : heap) (p par : page_id_t) (es : list (Z * page_id_t)) : Prop :=
  ∃ d, H !! p = Some d ∧ int_rep d par im es.

(** Consecutive siblings, each linked to the next. *)
Fixpoint reps {h} (R : page_id_t → tree h → Prop) (nx : page_id_t) (cs : list (Z * tree h)) : Prop :=
  match cs with
  | [] => True
  | e :: cs => R (next_of nx cs) e.2 ∧ reps R nx cs
  end.

Fixpoint rep (h : nat) (H : heap) (par nx : page_id_t) : tree h → Prop :=
  match h with
  | O => λ t, leaf_at H t.1 par nx t.2
  | S h => λ t, int_at H t.1 par (links t.2) ∧ reps (rep h H t.1) nx t.2
  end.

Lemma rep_node h H par nx p (cs : list (Z * tree h)) :
  rep (S h) H par nx ((p, cs) : tree (S h)) ↔ int_at H p par (links cs) ∧ reps (rep h H p) nx cs.
Proof. done. Qed.

Lemma pids_node h p (cs : list (Z * tree h)) : pids (S h) ((p, cs) : tree (S h)) = p :: flat (pids h) cs.
Proof. done. Qed.

(** Occupancy: of every node but the root, and of the root. *)
Definition min_size (mx : Z) : Z := Z.quot (mx + 1) 2.

Fixpoint full (h : nat) : tree h → Prop :=
  match h with
  | O => λ t, min_size lm ≤ Z.of_nat (length t.2) ≤ lm
  | S h => λ t, min_size im ≤ Z.of_nat (length t.2) ≤ im ∧ ∀ e, e ∈ t.2 → full h e.2
  end.

Definition root_full {h} : tree h → Prop :=
  match h with
  | O => λ t, 1 ≤ Z.of_nat (length t.2) ≤ lm
  | S h => λ t, 2 ≤ Z.of_nat (length t.2) ≤ im ∧ ∀ e, e ∈ t.2 → full h e.2
  end.

(** ** Structural lemmas *)

Lemma flat_app {T A} (f : T → list A) cs cs' : flat f (cs ++ cs') = flat f cs ++ flat f cs'.
Proof. unfold flat. by rewrite fmap_app, concat_app. Qed.

Lemma flat_cons {T A} (f : T → list A) e cs : flat f (e :: cs) = f e.2 ++ flat f cs.
Proof. done. Qed.

Lemma elem_of_flat {T A} (f : T → list A) cs x : x ∈ flat f cs ↔ ∃ e, e ∈ cs ∧ x ∈ f e.2.
Proof.
  unfold flat. induction cs as [|e cs IH]; simpl; [set_solver|].
  rewrite elem_of_app, IH. set_solver.
Qed.

Lemma root_in_pids h (t : tree h) : root t ∈ pids h t.
Proof. destruct h; simpl; set_solver. Qed.

Lemma links_app {h} (cs cs' : list (Z * tree h)) : links (cs ++ cs') = links cs ++ links cs'.
Proof. apply fmap_app. Qed.

Lemma reps_app {h} (R : page_id_t → tree h → Prop) nx cs cs' :
  reps R nx (cs ++ cs') ↔ reps R (next_of nx cs') cs ∧ reps R nx cs'.
Proof.
  induction cs as [|e cs IH]; simpl; [tauto|]. rewrite IH.
  assert (next_of nx (cs ++ cs') = next_of (next_of nx cs') cs) as -> by (by destruct cs). tauto.
Qed.

Lemma reps_impl {h} (R R' : page_id_t → tree h → Prop) nx cs :
  (∀ e nx, e ∈ cs → R nx e.2 → R' nx e.2) → reps R nx cs → reps R' nx cs.
Proof.
  induction cs as [|e cs IH]; simpl; [done|]. intros Hi [H1 H2].
  split; [apply Hi; [set_solver|done]|]. apply IH; [|done]. intros e' nx' He'. apply Hi. set_solver.
Qed.

Lemma rep_frame h H H' par nx t :
  (∀ p, p ∈ pids h t → H' !! p = H !! p) → rep h H par nx t → rep h H' par nx t.
Proof.
  revert par nx t; induction h as [|h IH]; intros par nx t Hf; simpl in *.
  - intros (d & Hd & Hr). exists d. rewrite Hf by set_solver. done.
  - intros [(d & Hd & Hr) Hc]. split.
    + exists d. rewrite Hf by set_solver. done.
    + eapply reps_impl; [|exact Hc]. intros e nx' He. apply IH. intros p Hp. apply Hf.
      apply elem_of_cons. right. apply elem_of_flat. eauto.
Qed.

Lemma reps_frame h H H' par nx cs :
  (∀ p, p ∈ flat (pids h) cs → H' !! p = H !! p) →
  reps (rep h H par) nx cs → reps (rep h H' par) nx cs.
Proof.
  intros Hf. apply reps_impl. intros e nx' He. apply rep_frame. intros p Hp. apply Hf.
  apply elem_of_flat. eauto.
Qed.

(** What the root page of a subtree says. *)
Definition node_size {h} : tree h → Z :=
  match h with
  | O => λ t, Z.of_nat (length t.2)
  | S _ => λ t, Z.of_nat (length t.2)
  end.

Definition node_max (h : nat) : Z := match h with O => lm | S _ => im end.

Definition node_type (h : nat) : Z :=
  match h with
  | O => BPlusTreePage.PageType_LEAF
  | S _ => BPlusTreePage.PageType_INTERNAL
  end.

Lemma rep_hdr h H par nx t :
  rep h H par nx t →
  ∃ d, H !! root t = Some d ∧ hdr d (node_type h) (node_size t) (node_max h) par.
Proof.
  destruct h; simpl.
  - intros (d & Hd & Hr). exists d. split; [done|]. apply Hr.
  - intros [(d & Hd & Hr) _]. exists d. split; [done|]. pose proof (ir_hdr _ _ _ _ _ Hr) as Hh.
    unfold links in Hh. by rewrite length_fmap in Hh.
Qed.

Lemma rep_set_parent h H par nx t d par' :
  rep h H par nx t → NoDup (pids h t) → H !! root t = Some d → is_i64 par' →
  rep h (<[root t := BPlusTreePage.SetParentPageId par' d]> H) par' nx t.
Proof.
  destruct h; simpl.
  - intros (d' & Hd' & Hr) _ Hd Hp. simplify_eq. eexists. rewrite lookup_insert_eq.
    split; [done|]. by eapply leaf_SetParent.
  - intros [(d' & Hd' & Hr) Hc] [Hnin Hnd]%NoDup_cons Hd Hp. simplify_eq. split.
    + eexists. rewrite lookup_insert_eq. split; [done|]. by eapply int_SetParent.
    + eapply reps_frame; [|exact Hc]. intros p Hin. rewrite lookup_insert_ne; [done|].
      intros E. apply Hnin. by rewrite E.
Qed.

(** ** Contexts *)

(** The way from a subtree up to the root: at each node its page, the siblings
    to the left, the key of the subtree, the siblings to the right. *)
Inductive ctx : nat → Type :=
  | Top h : ctx h
  | Up h (p : page_id_t) (ls : list (Z * tree h)) (k : Z) (rs : list (Z * tree h)) (up : ctx (S h)) : ctx h.

Definition is_top {h} (c : ctx h) : bool := match c with Top _ => true | Up _ _ _ _ _ _ => false end.

Definition cpar {h} (c : ctx h) : page_id_t :=
  match c with Top _ => INVALID_PAGE_ID | Up _ p _ _ _ _ => p end.

(** The leaf after the subtree. *)
Fixpoint cnext {h} (c : ctx h) : page_id_t :=
  match c with
  | Top _ => INVALID_PAGE_ID
  | Up _ p ls k rs up => next_of (cnext up) rs
  end.

Fixpoint cpids {h} (c : ctx h) : list page_id_t :=
  match c with
  | Top _ => []
  | Up h p ls k rs up => p :: flat (pids h) ls ++ flat (pids h) rs ++ cpids up
  end.

(** The pages of the context, the subtree's root being [fp] and its first leaf [fl]. *)
Fixpoint crep {h} (H : heap) (c : ctx h) (fp fl : page_id_t) : Prop :=
  match c with
  | Top _ => True
  | Up h p ls k rs up =>
      int_at H p (cpar up) (links ls ++ (k, fp) :: links rs) ∧
      reps (rep h H p) fl ls ∧ reps (rep h H p) (cnext up) rs ∧
      crep H up p (next_of fl ls)
  end.

(** [lo] and [hi] are the bounds of the subtree. *)
Fixpoint cord {h} (c : ctx h) (lo hi : option Z) : Prop :=
  match c with
  | Top _ => lo = None ∧ hi = None
  | Up h p ls k rs up =>
      ∃ lo' hi', cord up lo' hi' ∧ ordl lo' hi' (ivls (ord h) ls ++ (k, hole lo hi) :: ivls (ord h) rs)
  end.

Fixpoint cfull {h} (c : ctx h) : Prop :=
  match c with
  | Top _ => True
  | Up h p ls k rs up =>
      (if is_top up then 2 else min_size im) ≤ Z.of_nat (length ls + 1 + length rs) ≤ im ∧
      (∀ e, e ∈ ls ++ rs → full h e.2) ∧ cfull up
  end.

(** Entries to the left and to the right of the subtree. *)
Fixpoint cl {h} (c : ctx h) : list (Z * string) :=
  match c with
  | Top _ => []
  | Up h p ls k rs up => cl up ++ flat (entries h) ls
  end.
Fixpoint cr {h} (c : ctx h) : list (Z * string) :=
  match c with
  | Top _ => []
  | Up h p ls k rs up => flat (entries h) rs ++ cr up
  end.

Fixpoint croot {h} (c : ctx h) (fp : page_id_t) : page_id_t :=
  match c with
  | Top _ => fp
  | Up h p ls k rs up => croot up p
  end.

(** Levels above the subtree. *)
Fixpoint depth {h} (c : ctx h) : nat :=
  match c with
  | Top _ => 0%nat
  | Up h p ls k rs up => S (depth up)
  end.

Definition fits {h} (c : ctx h) (t : tree h) : Prop := if is_top c then root_full t else full h t.

(** A whole tree at page [r] with entries [es] on pages [ps]. *)
Definition whole (H : heap) (r : page_id_t) (es : list (Z * string)) (ps : list page_id_t) : Prop :=
  ∃ h (t : tree h), root t = r ∧ rep h H INVALID_PAGE_ID INVALID_PAGE_ID t ∧ ord h None None t ∧
    root_full t ∧ NoDup (pids h t) ∧ entries h t = es ∧ pids h t ≡ₚ ps.

Lemma crep_frame h (c : ctx h) H H' fp fl :
  (∀ p, p ∈ cpids c → H' !! p = H !! p) → crep H c fp fl → crep H' c fp fl.
Proof.
  revert fp fl; induction c as [h|h p ls k rs up IH]; intros fp fl Hf; simpl in *; [done|].
  intros ((d & Hd & Hr) & Hl & Hrs & Hup). split_and!.
  - exists d. rewrite Hf by set_solver. done.
  - eapply reps_frame; [|exact Hl]. intros q Hq. apply Hf. set_solver.
  - eapply reps_frame; [|exact Hrs]. intros q Hq. apply Hf. set_solver.
  - apply IH; [|done]. intros q Hq. apply Hf. set_solver.
Qed.

(** A subtree in its context; its keys lie between [lo] and [hi]. *)
Record zip {h} (H : heap) (c : ctx h) (lo hi : option Z) (t : tree h) : Prop := {
  z_rep : rep h H (cpar c) (cnext c) t;
  z_crep : crep H c (root t) (first_leaf h t);
  z_cord : cord c lo hi;
  z_ord : ord h lo hi t;
  z_cfull : cfull c;
  z_nodup : NoDup (pids h t ++ cpids c);
}.

Lemma zip_node {h} H (c : ctx (S h)) lo hi p (cs : list (Z * tree h)) :
  zip H c lo hi ((p, cs) : tree (S h)) → int_at H p (cpar c) (links cs) ∧ reps (rep h H p) (cnext c) cs.
Proof. intros Hz. exact (z_rep _ _ _ _ _ Hz). Qed.

(** Entries around a subtree lie outside its interval. *)
Lemma cord_sides {h} (c : ctx h) lo hi :
  cord c lo hi → (∀ e, e ∈ cl c → under lo e.1) ∧ (∀ e, e ∈ cr c → past hi e.1).
Proof.
  revert lo hi; induction c as [h|h p ls k rs up IH]; intros lo hi; simpl; [set_solver|].
  intros (lo' & hi' & Hup & (H1 & H2 & H3 & H4)%ordl_sides). destruct (IH _ _ Hup) as [IHl IHr]. split.
  - intros e [He|He]%elem_of_app; [by apply H1, IHl|].
    apply elem_of_flat in He as ([k' t] & Ht & He). simpl in He.
    destruct (H3 k' (λ lo hi, ord h lo hi t)) as (l' & m & Ho & Hx).
    { apply list_elem_of_fmap. by exists (k', t). }
    apply Hx. by apply ord_entries in Ho as [_ [_ ?]%(λ f, f e He)].
  - intros e [He|He]%elem_of_app; [|by apply H2, IHr].
    apply elem_of_flat in He as ([k' t] & Ht & He). simpl in He.
    destruct (H4 k' (λ lo hi, ord h lo hi t)) as (u' & Ho & Hx).
    { apply list_elem_of_fmap. by exists (k', t). }
    apply ord_entries in Ho as [_ [Ha _]%(λ f, f e He)]. destruct hi; simpl in *; [lia|done].
Qed.

(** So a key inside it is found, inserted and removed there. *)
Lemma cord_apart {h} (c : ctx h) lo hi key :
  cord c lo hi → above lo key → below hi key →
  (∀ e, e ∈ cl c → e.1 < key) ∧ (∀ e, e ∈ cr c → key < e.1).
Proof.
  intros [Hl Hr]%cord_sides Ha Hb. split; intros e He.
  - apply Hl in He. destruct lo; simpl in *; [lia|done].
  - apply Hr in He. destruct hi; simpl in *; [lia|done].
Qed.

(** ** Height *)

Section height.
Hypothesis Hlm : 3 ≤ lm.
Hypothesis Him : 3 ≤ im.

Lemma min_size_2 mx : 3 ≤ mx → 2 ≤ min_size mx.
Proof. intros. unfold min_size. apply (Z.quot_le_lower_bound); lia. Qed.

Lemma flat_length_ge {T A} (f : T → list A) cs n :
  (∀ e, e ∈ cs → (n ≤ length (f e.2))%nat) → (length cs * n ≤ length (flat f cs))%nat.
Proof.
  induction cs as [|e cs IH]; simpl; [lia|]. intros Ha. rewrite flat_cons, length_app.
  specialize (Ha e ltac:(set_solver)) as He. specialize (IH ltac:(set_solver)). lia.
Qed.

Lemma full_entries h t : full h t → (2 ^ S h ≤ length (entries h t))%nat.
Proof using Hlm Him.
  revert t; induction h as [|h IH]; intros t; simpl.
  - pose proof (min_size_2 lm Hlm). lia.
  - pose proof (min_size_2 im Him). intros [Hs Ha].
    pose proof (flat_length_ge (entries h) t.2 (2 ^ S h) (λ e He, IH _ (Ha e He))) as Hl.
    assert (2 * 2 ^ S h ≤ length t.2 * 2 ^ S h)%nat by (apply Nat.mul_le_mono_r; lia).
    change (2 ^ S (S h) ≤ length (flat (entries h) t.2))%nat. rewrite (Nat.pow_succ_r' 2 (S h)).
    etransitivity; [|exact Hl]. done.
Qed.

Lemma root_full_entries h (t : tree h) : root_full t → (2 ^ h ≤ length (entries h t))%nat.
Proof using Hlm Him.
  destruct h as [|h]; simpl; [lia|]. intros [Hs Ha].
  pose proof (flat_length_ge (entries h) t.2 (2 ^ S h) (λ e He, full_entries _ _ (Ha e He))) as Hl.
  assert (2 * 2 ^ S h ≤ length t.2 * 2 ^ S h)%nat by (apply Nat.mul_le_mono_r; lia).
  change (2 ^ S h ≤ length (flat (entries h) t.2))%nat.
  etransitivity; [|exact Hl]. etransitivity; [|eassumption]. by apply Nat.le_mul_l.
Qed.

Lemma whole_height H r es ps :
  whole H r es ps → ∃ h (t : tree h), root t = r ∧ rep h H INVALID_PAGE_ID INVALID_PAGE_ID t ∧ ord h None None t ∧
    root_full t ∧ NoDup (pids h t) ∧ entries h t = es ∧ pids h t ≡ₚ ps ∧ (h ≤ Nat.log2 (length es))%nat.
Proof using Hlm Him.
  intros (h & t & H1 & H2 & H3 & H4 & H5 & H6 & H7). exists h, t. split_and!; try done.
  rewrite <-H6. etransitivity; [|by apply Nat.log2_le_mono, root_full_entries].
  by rewrite Nat.log2_pow2 by lia.
Qed.
End height.

Lemma first_leaf_node {h} (p : page_id_t) (ls : list (Z * tree h)) e rs :
  first_leaf (S h) (p, ls ++ e :: rs) = next_of (first_leaf h e.2) ls.
Proof. simpl. by destruct ls. Qed.

Lemma node_fits {h} (c : ctx (S h)) p (ls : list (Z * tree h)) k t (rs : list (Z * tree h)) :
  fits c ((p, ls ++ (k, t) :: rs) : tree (S h)) ↔
  (if is_top c then 2 else min_size im) ≤ Z.of_nat (length ls + 1 + length rs) ≤ im ∧
  (∀ e, e ∈ ls ++ rs → full h e.2) ∧ full h t.
Proof.
  unfold fits. assert (Hall : (∀ e, e ∈ ls ++ (k, t) :: rs → full h e.2) ↔
    (∀ e, e ∈ ls ++ rs → full h e.2) ∧ full h t).
  { split.
    - intros Ha. split; [set_solver|]. apply (Ha (k, t)). set_solver.
    - intros [Ha Ht] e. rewrite elem_of_app, elem_of_cons. intros [?|[->|?]]; [set_solver|done|set_solver]. }
  destruct (is_top c); simpl; rewrite length_app, Hall; simpl;
    replace (Z.of_nat (length ls + S (length rs))) with (Z.of_nat (length ls + 1 + length rs)) by lia; tauto.
Qed.

Lemma node_nodup {h} (c : ctx (S h)) p ls k (t : tree h) rs :
  pids (S h) (p, ls ++ (k, t) :: rs) ++ cpids c ≡ₚ pids h t ++ cpids (Up h p ls k rs c).
Proof. simpl. rewrite flat_app, flat_cons. simpl. solve_Permutation. Qed.

Lemma zip_down {h} H (c : ctx (S h)) lo hi l u p ls k t rs :
  zip H c lo hi ((p, ls ++ (k, t) :: rs) : tree (S h)) → fits c ((p, ls ++ (k, t) :: rs) : tree (S h)) →
  ord h l u t → ordl lo hi (ivls (ord h) ls ++ (k, hole l u) :: ivls (ord h) rs) →
  zip H (Up h p ls k rs c) l u t ∧ full h t.
Proof.
  intros [Hrep Hcrep Hco Ho Hcf Hnd] (Hsz & Hfull & Ht)%node_fits Hlu Hol.
  rewrite first_leaf_node in Hcrep. simpl in Hrep, Ho. destruct Hrep as [Hat Hreps].
  split; [|done]. apply reps_app in Hreps as [Hls [Ht' Hrs]]. split; simpl; [done| | |done|done|].
  - split_and!; [|done..]. by rewrite links_app in Hat.
  - exists lo, hi. done.
  - by rewrite node_nodup in Hnd.
Qed.

(** Putting a subtree back into its parent. *)
Lemma zip_in {h} H (up : ctx (S h)) lo hi p ls k t rs :
  zip H (Up h p ls k rs up) lo hi t → full h t →
  ∃ lo' hi', zip H up lo' hi' ((p, ls ++ (k, t) :: rs) : tree (S h)) ∧
    fits up ((p, ls ++ (k, t) :: rs) : tree (S h)).
Proof.
  intros [Hrep Hcrep Hco Ho Hcf Hnd] Ht. simpl in *.
  destruct Hcrep as (Hat & Hls & Hrs & Hup). destruct Hco as (lo' & hi' & Hco & Ho').
  destruct Hcf as (Hsz & Hfull & Hcf). exists lo', hi'. split; [|by apply node_fits].
  split; [| |done| |done|].
  - simpl. split; [by rewrite links_app|]. apply reps_app. split; [done|]. split; done.
  - by rewrite first_leaf_node.
  - simpl. split; [by destruct ls|]. unfold ivls. rewrite fmap_app. by apply (ordl_fill _ _ _ _ lo hi).
  - by rewrite node_nodup.
Qed.

Lemma zip_up {h} H (c : ctx h) lo hi t :
  zip H c lo hi t → fits c t →
  whole H (croot c (root t)) (cl c ++ entries h t ++ cr c) (pids h t ++ cpids c).
Proof.
  revert lo hi t; induction c as [h|h p ls k rs up IH]; intros lo hi t Hz Hfit.
  - destruct Hz as [Hrep Hcrep [-> ->] Ho Hcf Hnd]. simpl in *. rewrite app_nil_r in *.
    exists h, t. by rewrite !app_nil_r.
  - destruct (zip_in _ _ _ _ _ _ _ _ _ Hz Hfit) as (lo' & hi' & Hz' & Hfit').
    destruct (IH _ _ _ Hz' Hfit') as (h' & t' & H1 & H2 & H3 & H4 & H5 & H6 & H7). exists h', t'.
    split_and!; try done.
    + rewrite H6. simpl. by rewrite flat_app, flat_cons, <-!app_assoc.
    + by rewrite H7, node_nodup.
Qed.

(** ** Following a key *)

Lemma route_links {h} key (t : tree h) rest : route key (root t) (links rest) = root (route key t rest).
Proof.
  revert t; induction rest as [|[k t'] rest IH]; intros t; simpl; [done|]. destruct (key <? k); auto.
Qed.

Lemma route_ord {h} (R : option Z → option Z → tree h → Prop) key lo hi k0 t0 rest :
  ordp lo hi (λ lo hi, R lo hi t0) (ivls R rest) → above lo key → below hi key →
  ∃ ls k t rs l u, (k0, t0) :: rest = ls ++ (k, t) :: rs ∧ t = route key t0 rest ∧ R l u t ∧
    above l key ∧ below u key ∧ ordl lo hi (ivls R ls ++ (k, hole l u) :: ivls R rs).
Proof.
  revert lo k0 t0; induction rest as [|[k1 t1] rest IH]; intros lo k0 t0; simpl.
  - intros Ho Ha Hb. by exists [], k0, t0, [], lo, hi.
  - intros (H0 & Hov & Hbe & Ho) Ha Hb. destruct (Z.ltb_spec key k1).
    + exists [], k0, t0, ((k1, t1) :: rest), lo, (Some k1). by split_and!.
    + destruct (IH (Some k1) k1 t1 Ho) as (ls & k & t & rs & l & u & E & Et & Ht & Hla & Hub & Hol); [simpl; lia|done|].
      exists ((k0, t0) :: ls), k, t, rs, l, u. split_and!; try done; [by rewrite E|].
      destruct ls as [|[k' t'] ls]; simpl in E; simplify_eq; simpl in *; by split_and!.
Qed.

(** The chain and the placeholder: the leftmost child. *)
Lemma leftmost_ord {h} (R : option Z → option Z → tree h → Prop) lo hi k0 t0 rest :
  ordl lo hi (ivls R ((k0, t0) :: rest)) →
  ∃ l u, R l u t0 ∧ ordl lo hi ((k0, hole l u) :: ivls R rest).
Proof. apply (ordl_focus lo hi [] k0 (λ lo hi, R lo hi t0)). Qed.
End pages.
