(* ===== verification/BTreeSteps.v ===== *)
(** * B+-tree over the pool's specification: single steps

    [st H P U n r] is a tree whose pool holds the pages [H], has the pages [P]
    pinned, the pages [U] changed but not announced, allocates [n] next, and
    whose root is [r]. *)

From stdpp Require Import gmultiset.
From S2P Require Import Prelude Entries Bytes Disk Buffer BufferTheory TreePages TreePagesTheory BTree.

#[local] Open Scope Z_scope.

Import BPlusTree.

(** Goals about which changes are unannounced: only inclusions matter. *)
Ltac sub_solver :=
  repeat match goal with
         | H : ?T |- _ => lazymatch T with
             | @subseteq (gset _) _ _ _ => fail
             | @elem_of _ (gset _) _ _ _ => fail
             | _ => clear H
             end
         end; set_solver.

Section steps.
Context (cap lm im : Z).

Abbreviation heap := (gmap page_id_t bytes) (only parsing).

Definition st (H : heap) (P : gmultiset page_id_t) (U : gset page_id_t) (n r : page_id_t) :
    t APool.t := mk (APool.mk cap H P U n) r lm im.

Lemma st_im H P U n r : internal_max_size_ (st H P U n r) = im.
Proof. done. Qed.
Lemma st_lm H P U n r : leaf_max_size_ (st H P U n r) = lm.
Proof. done. Qed.
Lemma st_empty H P U n r : IsEmpty (st H P U n r) = (r =? INVALID_PAGE_ID).
Proof. done. Qed.

(** [k] more pages can be pinned. *)
Definition room (P : gmultiset page_id_t) (k : Z) : Prop := Z.of_nat (size (dom P)) + k ≤ cap.

(** Every unannounced change is on a pinned page. *)
Definition held (U : gset page_id_t) (P : gmultiset page_id_t) : Prop := ∀ p, p ∈ U → p ∈ P.

Implicit Types (H : heap) (P : gmultiset page_id_t) (U : gset page_id_t) (n r p : page_id_t).

(** ** Pins *)

Lemma room_add P p k : room P (k + 1) → room (P ⊎ {[+ p +]}) k.
Proof.
  unfold room. intros.
  assert (dom (P ⊎ {[+ p +]}) ⊆ {[p]} ∪ dom P) as Hs%subseteq_size.
  { intros q. rewrite elem_of_union, elem_of_singleton, !gmultiset_elem_of_dom.
    rewrite gmultiset_elem_of_disj_union, gmultiset_elem_of_singleton. tauto. }
  assert (size ({[p]} ∪ dom P) ≤ S (size (dom P)))%nat; [|lia].
  destruct (decide (p ∈ dom P)).
  - replace ({[p]} ∪ dom P) with (dom P) by set_solver. lia.
  - rewrite size_union, size_singleton by set_solver. lia.
Qed.

Lemma room_dup P p k : p ∈ P → room P k → room (P ⊎ {[+ p +]}) k.
Proof.
  intros Hp. unfold room. replace (dom (P ⊎ {[+ p +]})) with (dom P); [done|].
  apply set_eq. intros q. rewrite !gmultiset_elem_of_dom. rewrite gmultiset_elem_of_disj_union.
  rewrite gmultiset_elem_of_singleton. naive_solver.
Qed.

Lemma room_weaken P k k' : room P k → k' ≤ k → room P k'.
Proof. unfold room. lia. Qed.

Lemma pin_unpin P p : (P ⊎ {[+ p +]}) ∖ {[+ p +]} = P.
Proof. multiset_solver. Qed.

Lemma pin_unpin_other P p q : (P ⊎ {[+ p +]} ⊎ {[+ q +]}) ∖ {[+ p +]} = P ⊎ {[+ q +]}.
Proof.
  apply gmultiset_eq. intros x. rewrite multiplicity_difference, !multiplicity_disj_union.
  destruct (decide (x = p)) as [->|]; rewrite ?multiplicity_singleton_eq; [lia|].
  rewrite (multiplicity_singleton_ne x p) by done. lia.
Qed.

Lemma in_pins P p : p ∈ P ⊎ {[+ p +]}.
Proof. multiset_solver. Qed.

Lemma in_pins_l P p q : p ∈ P → p ∈ P ⊎ {[+ q +]}.
Proof. multiset_solver. Qed.

Lemma held_pin U P p : held U P → held U (P ⊎ {[+ p +]}).
Proof. intros Hh q Hq. apply in_pins_l. auto. Qed.

Lemma held_sub U U' P : held U P → U' ⊆ U → held U' P.
Proof. intros Hh Hs q Hq. auto. Qed.

(** ** Pool operations *)

Lemma fetch_true H P U n r p :
  is_Some (H !! p) → p ∈ P ∨ room P 1 →
  bpm (pool_fetch p) (st H P U n r) = (Val true, st H (P ⊎ {[+ p +]}) U n r).
Proof.
  intros [d Hd] Hr. unfold bpm. cbn [pool_fetch apool_pool]. unfold APool.fetch, st. simpl.
  rewrite Hd. assert (bool_decide (p ∈ P) || APool.has_room (APool.mk cap H P U n) = true) as ->; [|done].
  apply orb_true_iff. destruct Hr as [Hr|Hr]; [left; by apply bool_decide_eq_true|right].
  apply Z.ltb_lt. unfold room in Hr. simpl. lia.
Qed.

Lemma fetch_ok H P U n r p :
  is_Some (H !! p) → p ∈ P ∨ room P 1 →
  fetch p (st H P U n r) = (Val tt, st H (P ⊎ {[+ p +]}) U n r).
Proof. intros Hd Hr. unfold fetch. by mrun (fetch_true H P U n r p Hd Hr). Qed.

Lemma read_ok H P U n r p d :
  H !! p = Some d → p ∈ P → read p (st H P U n r) = (Val d, st H P U n r).
Proof.
  intros Hd Hp. unfold read, bpm. cbn [pool_read apool_pool]. unfold APool.read, st. simpl.
  rewrite Hd. by rewrite bool_decide_eq_true_2.
Qed.

Lemma write_ok H P U n r p d :
  p ∈ P → blen d = PAGE_SIZE →
  ∃ U', write p d (st H P U n r) = (Val tt, st (<[p := d]> H) P U' n r) ∧ U ⊆ U' ∧ U' ⊆ {[p]} ∪ U.
Proof.
  intros Hp Hd. unfold write, bpm. cbn [pool_write apool_pool]. unfold APool.write, st. simpl.
  rewrite bool_decide_eq_true_2 by done. rewrite Hd, Z.eqb_refl. simpl.
  case_bool_decide as Hs.
  - exists U. rewrite insert_id by done. split; [done|set_solver].
  - exists ({[p]} ∪ U). split; [done|set_solver].
Qed.

Lemma query_ok {A} H P U n r p d (f : bytes → res A) :
  H !! p = Some d → p ∈ P → query p f (st H P U n r) = (f d, st H P U n r).
Proof. intros Hd Hp. unfold query. by mrun (read_ok H P U n r p d Hd Hp). Qed.

Lemma query_val {A} H P U n r p d (f : bytes → res A) x :
  H !! p = Some d → p ∈ P → f d = Val x → query p f (st H P U n r) = (Val x, st H P U n r).
Proof. intros Hd Hp Hf. by rewrite (query_ok H P U n r p d f Hd Hp), Hf. Qed.

Lemma update_ok H P U n r p d d' (f : bytes → res bytes) :
  H !! p = Some d → p ∈ P → f d = Val d' → blen d' = PAGE_SIZE →
  ∃ U', update p f (st H P U n r) = (Val tt, st (<[p := d']> H) P U' n r) ∧ U ⊆ U' ∧ U' ⊆ {[p]} ∪ U.
Proof.
  intros Hd Hp Hf Hl. destruct (write_ok H P U n r p d' Hp Hl) as (U' & E & HU).
  exists U'. split; [|done]. unfold update. mrun (read_ok H P U n r p d Hd Hp).
  rewrite (bind_Val _ _ _ d' (st H P U n r)) by (unfold lift; by rewrite Hf). done.
Qed.

Lemma update_at H P U n r p d d' (f : bytes → res bytes) :
  H !! p = Some d → p ∈ P → f d = Val d' → blen d' = PAGE_SIZE →
  ∃ U', update p f (st H P U n r) = (Val tt, st (<[p := d']> H) P U' n r) ∧ U' ⊆ {[p]} ∪ U.
Proof. intros. edestruct update_ok as (U' & E & _ & HU); eauto. Qed.

Lemma on_page_ok {A} H P U n r p d d' (x : A) (f : bytes → res (A * bytes)) :
  H !! p = Some d → p ∈ P → f d = Val (x, d') → blen d' = PAGE_SIZE →
  ∃ U', on_page p f (st H P U n r) = (Val x, st (<[p := d']> H) P U' n r) ∧ U ⊆ U' ∧ U' ⊆ {[p]} ∪ U.
Proof.
  intros Hd Hp Hf Hl. destruct (write_ok H P U n r p d' Hp Hl) as (U' & E & HU).
  exists U'. split; [|done]. unfold on_page. mrun (read_ok H P U n r p d Hd Hp).
  rewrite (bind_Val _ _ _ (x, d') (st H P U n r)) by (unfold lift; by rewrite Hf). simpl. by mrun E.
Qed.

Lemma on_page_same {A} H P U n r p d (x : A) (f : bytes → res (A * bytes)) :
  H !! p = Some d → p ∈ P → f d = Val (x, d) → blen d = PAGE_SIZE →
  on_page p f (st H P U n r) = (Val x, st H P U n r).
Proof.
  intros Hd Hp Hf Hl. unfold on_page. mrun (read_ok H P U n r p d Hd Hp).
  rewrite (bind_Val _ _ _ (x, d) (st H P U n r)) by (unfold lift; by rewrite Hf). simpl.
  rewrite (bind_Val _ _ _ tt (st H P U n r)); [done|].
  unfold write, bpm. cbn [pool_write apool_pool]. unfold APool.write, st. simpl.
  rewrite bool_decide_eq_true_2 by done. rewrite Hl, Z.eqb_refl. simpl. by rewrite bool_decide_eq_true_2.
Qed.

Lemma unpin_dirty H P U n r p :
  p ∈ P → unpin p true (st H P U n r) = (Val tt, st H (P ∖ {[+ p +]}) (U ∖ {[p]}) n r).
Proof.
  intros Hp. unfold unpin, bpm, mbind, M_bind. cbn [pool_unpin apool_pool]. unfold APool.unpin, st. simpl.
  rewrite bool_decide_eq_true_2 by done. simpl.
  assert (bool_decide (p ∈ U ∖ {[p]}) = false) as ->; [apply bool_decide_eq_false; set_solver|].
  by rewrite andb_false_r.
Qed.

Lemma unpin_clean H P U n r p :
  p ∈ P → p ∉ U ∨ p ∈ P ∖ {[+ p +]} →
  unpin p false (st H P U n r) = (Val tt, st H (P ∖ {[+ p +]}) U n r).
Proof.
  intros Hp Hc. unfold unpin, bpm, mbind, M_bind. cbn [pool_unpin apool_pool]. unfold APool.unpin, st. simpl.
  rewrite bool_decide_eq_true_2 by done. simpl.
  assert (bool_decide (p ∉ P ∖ {[+ p +]}) && bool_decide (p ∈ U) = false) as ->; [|done].
  apply andb_false_iff. rewrite !bool_decide_eq_false. tauto.
Qed.

(** Releasing a page pinned only now, without changes of it. *)
Lemma unpin_pinned H P U n r p :
  held U P → unpin p false (st H (P ⊎ {[+ p +]}) U n r) = (Val tt, st H P U n r).
Proof.
  intros Hh. rewrite unpin_clean; [by rewrite pin_unpin|apply in_pins|]. rewrite pin_unpin.
  destruct (decide (p ∈ U)); auto.
Qed.

Lemma new_ok H P U n r :
  room P 1 → APool.addressable n = true →
  bpm pool_new (st H P U n r) =
    (Val (Some n), st (<[n := zeros PAGE_SIZE]> H) (P ⊎ {[+ n +]}) ({[n]} ∪ U) (n + 1) r).
Proof.
  intros Hr Ha. unfold bpm. cbn [pool_new apool_pool]. unfold APool.new, st. simpl.
  assert (APool.has_room (APool.mk cap H P U n) = true) as ->.
  { apply Z.ltb_lt. unfold room in Hr. simpl. lia. }
  simpl. by rewrite Ha.
Qed.

Lemma delete_ok H P U n r p :
  p ∉ P → bpm (pool_delete p) (st H P U n r) = (Val true, st (delete p H) P U n r).
Proof.
  intros Hp. unfold bpm. cbn [pool_delete apool_pool]. unfold APool.del, st. simpl.
  by rewrite bool_decide_eq_false_2.
Qed.

Lemma unwind_Val {A} p b (m : M (t APool.t) A) s x s' :
  m s = (Val x, s') → unwind p b m s = (Val x, s').
Proof. intros E. unfold unwind. by rewrite E. Qed.

(** ** Reparenting a child *)

Lemma UpdateChildParent_ok H P U n r c par d :
  H !! c = Some d → blen d = PAGE_SIZE → c ∈ P ∨ room P 1 →
  ∃ U', UpdateChildParent c par (st H P U n r) =
      (Val tt, st (<[c := BPlusTreePage.SetParentPageId par d]> H) P U' n r) ∧ U ∖ {[c]} ⊆ U' ∧ U' ⊆ U.
Proof.
  intros Hc Hl Hr. unfold UpdateChildParent.
  mrun (fetch_ok H P U n r c ltac:(eauto) Hr).
  destruct (update_ok H (P ⊎ {[+ c +]}) U n r c d (BPlusTreePage.SetParentPageId par d)
    (λ d, Val (BPlusTreePage.SetParentPageId par d))) as (U' & E & HU1 & HU2); [done|apply in_pins|done| |].
  { pose proof (blen_le_enc 8 par) as He. unfold BPlusTreePage.SetParentPageId, put64.
    rewrite blen_blit; [done|..]; unfold BPlusTreePage.parent_off, PAGE_SIZE in *; lia. }
  mrun E. rewrite unpin_dirty by apply in_pins. rewrite pin_unpin.
  eexists. split; [done|]. set_solver.
Qed.
End steps.

(** ** Between the calls: nothing pinned *)

Lemma held_nil P : held ∅ P.
Proof. intros p. set_solver. Qed.

Lemma room_nil cap k : k ≤ cap → room cap ∅ k.
Proof. intros Hk. unfold room. change (dom (∅ : gmultiset page_id_t)) with (∅ : gset page_id_t). rewrite size_empty. lia. Qed.

Lemma sub_nil (U : gset page_id_t) : U ⊆ ∅ → U = ∅.
Proof. set_solver. Qed.
