(* ===== verification/BTreeLookup.v ===== *)
(** * B+-tree: descending to a leaf, lookup *)

From stdpp Require Import gmultiset.
From S2P Require Import Prelude Entries Bytes Disk Buffer BufferTheory TreePages TreePagesTheory.
From S2P Require Import LeafTheory InternalTheory BTree BTreeRep BTreeSteps.

#[local] Open Scope Z_scope.

Import BPlusTree.

Section lookup.
Context (cap lm im : Z).

Abbreviation heap := (gmap page_id_t bytes) (only parsing).
Abbreviation st := (st cap lm im) (only parsing).
Abbreviation room := (room cap) (only parsing).
Abbreviation rep := (rep lm im) (only parsing).
Abbreviation zip := (zip lm im) (only parsing).
Abbreviation fits := (fits lm im) (only parsing).
Abbreviation whole := (whole lm im) (only parsing).

Implicit Types (H : heap) (P : gmultiset page_id_t) (U : gset page_id_t) (n r p : page_id_t).

(** ** What a page of the tree says *)

Lemma is_leaf_hdr h d sz mx par : hdr d (node_type h) sz mx par → BPlusTreePage.IsLeafPage d = bool_decide (h = 0%nat).
Proof.
  intros Hh. unfold BPlusTreePage.IsLeafPage. rewrite (hdr_type _ _ _ _ _ Hh). by destruct h.
Qed.

Lemma links_sorted {h} (R : option Z → option Z → tree h → Prop) lo hi Q rest i j k k' c c' :
  ordp lo hi Q (ivls R rest) → (i < j)%nat →
  links rest !! i = Some (k, c) → links rest !! j = Some (k', c') → k ≤ k'.
Proof.
  intros Ho Hij H1 H2. destruct (ordp_sorted _ _ _ _ Ho) as [_ Hs]. unfold links in H1, H2.
  rewrite list_lookup_fmap in H1, H2. apply fmap_Some in H1 as ([k1 t1] & H1 & [= -> ->]).
  apply fmap_Some in H2 as ([k2 t2] & H2 & [= -> ->]). apply Z.lt_le_incl.
  eapply (Hs i j k1 k2 _ _ Hij); unfold ivls; rewrite list_lookup_fmap; [by rewrite H1|by rewrite H2].
Qed.

(** Two representations of the same position: same root, entries and pages. *)
Definition same_zip {h h'} (c : ctx h) (t : tree h) (c' : ctx h') (t' : tree h') : Prop :=
  croot c' (root t') = croot c (root t) ∧
  cl c' ++ entries h' t' ++ cr c' = cl c ++ entries h t ++ cr c ∧
  pids h' t' ++ cpids c' ≡ₚ pids h t ++ cpids c ∧
  (depth c' + h' = depth c + h)%nat.

Lemma same_zip_down {h} (c : ctx (S h)) p ls k (t : tree h) rs :
  same_zip c ((p, ls ++ (k, t) :: rs) : tree (S h)) (Up h p ls k rs c) t.
Proof.
  split_and!; [done| | |simpl; lia].
  - simpl. by rewrite flat_app, flat_cons, <-!app_assoc.
  - by rewrite node_nodup.
Qed.

Lemma same_zip_trans {h1 h2 h3} (c1 : ctx h1) (c2 : ctx h2) (c3 : ctx h3) t1 t2 t3 :
  same_zip c1 t1 c2 t2 → same_zip c2 t2 c3 t3 → same_zip c1 t1 c3 t3.
Proof.
  intros (H1 & H2 & H3 & H4) (H1' & H2' & H3' & H4'). split_and!; [congruence|congruence| |lia].
  by rewrite H3'.
Qed.

(** One step down: pin the child, release the node. *)
Lemma descend {h} H (c : ctx h) lo hi t p P U n r :
  zip H c lo hi t → held U P → room P 2 → is_Some (H !! p) →
  (fetch (root t);; unpin p false) (st H (P ⊎ {[+ p +]}) U n r) =
    (Val tt, st H (P ⊎ {[+ root t +]}) U n r).
Proof.
  intros Hz Hh Hr Hp. destruct (rep_hdr _ _ _ _ _ _ _ (z_rep _ _ _ _ _ _ _ Hz)) as (d & Hd & _).
  mrun (fetch_ok cap lm im H (P ⊎ {[+ p +]}) U n r (root t) ltac:(eauto)
    (or_intror (room_add cap P p 1 Hr))).
  rewrite unpin_clean.
  - by rewrite pin_unpin_other.
  - apply in_pins_l, in_pins.
  - rewrite pin_unpin_other. destruct (decide (p ∈ U)); [right|by left]. by apply in_pins_l, Hh.
Qed.

Section find.
Context (key : Z) (n r : page_id_t) (H : heap) (P : gmultiset page_id_t) (U : gset page_id_t).
Hypothesis Hheld : held U P.
Hypothesis Hroom : room P 2.

Lemma find_leaf_ok fuel h (c : ctx h) lo hi t :
  zip H c lo hi t → fits c t → above lo key → below hi key → (h ≤ fuel)%nat →
  ∃ (c' : ctx 0) lo' hi' t',
    find_leaf_from fuel key false (root t) (st H (P ⊎ {[+ root t +]}) U n r) =
      (Val (root t'), st H (P ⊎ {[+ root t' +]}) U n r) ∧
    zip H c' lo' hi' t' ∧ fits c' t' ∧ above lo' key ∧ below hi' key ∧ same_zip c t c' t'.
Proof using Hheld Hroom.
  revert fuel c lo hi t; induction h as [|h IH]; intros fuel c lo hi t Hz Hf Ha Hb Hfuel.
  - destruct (rep_hdr _ _ _ _ _ _ _ (z_rep _ _ _ _ _ _ _ Hz)) as (d & Hd & Hh).
    exists c, lo, hi, t. split_and!; try done. destruct fuel; cbn [find_leaf_from];
      mrun (read_ok cap lm im H (P ⊎ {[+ root t +]}) U n r (root t) d Hd (in_pins _ _));
      by rewrite (is_leaf_hdr 0 d _ _ _ Hh).
  - destruct fuel as [|fuel]; [lia|]. destruct t as [p cs].
    pose proof (z_ord _ _ _ _ _ _ _ Hz) as Ho. simpl in Ho. destruct Ho as [Hne Ho].
    destruct cs as [|[k0 t0] rest]; [done|]. clear Hne.
    destruct (route_ord (ord h) key lo hi k0 t0 rest Ho Ha Hb)
      as (ls & k & t & rs & l & u & E & Et & Ht & Hla & Hub & Hol).
    pose proof (z_rep _ _ _ _ _ _ _ Hz) as Hrep. simpl in Hrep. destruct Hrep as [(d & Hd & Hr) _].
    assert (Hlook : InternalPage.Lookup key d = Val (root t)).
    { rewrite Et, <-route_links. apply (int_Lookup d (cpar c) im (k0, root t0) (links rest)); [exact Hr|].
      intros i j k1 k2 c1 c2. by apply (links_sorted (ord h) lo hi (λ lo hi, ord h lo hi t0)). }
    rewrite E in Hz, Hf.
    destruct (zip_down _ _ _ _ _ _ _ _ _ _ _ _ _ Hz Hf Ht Hol) as [Hz' Hfull].
    destruct (IH fuel (Up h p ls k rs c) l u t Hz' Hfull Hla Hub ltac:(lia))
      as (c' & lo' & hi' & t' & Erun & Hz'' & Hf'' & Ha' & Hb' & Hs).
    exists c', lo', hi', t'. split_and!; try done.
    + simpl root. cbn [find_leaf_from].
      mrun (read_ok cap lm im H (P ⊎ {[+ p +]}) U n r p d Hd (in_pins _ _)).
      rewrite (is_leaf_hdr (S h) d _ _ _ (ir_hdr _ _ _ _ _ Hr)). simpl.
      rewrite (bind_Val _ _ _ (root t) (st H (P ⊎ {[+ p +]}) U n r)) by (unfold lift; by rewrite Hlook).
      rewrite <-bind_assoc, (bind_Val _ _ _ _ _ (descend H _ _ _ _ p P U n r Hz' Hheld Hroom ltac:(eauto))).
      done.
    + eapply same_zip_trans; [|exact Hs]. rewrite E. apply same_zip_down.
Qed.

(** Descent along the first children. *)
Lemma find_first_ok fuel h (c : ctx h) lo hi t :
  zip H c lo hi t → fits c t → cl c = [] → (h ≤ fuel)%nat →
  ∃ (c' : ctx 0) lo' hi' t',
    find_leaf_from fuel key true (root t) (st H (P ⊎ {[+ root t +]}) U n r) =
      (Val (root t'), st H (P ⊎ {[+ root t' +]}) U n r) ∧
    zip H c' lo' hi' t' ∧ fits c' t' ∧ cl c' = [] ∧ same_zip c t c' t'.
Proof using Hheld Hroom.
  revert fuel c lo hi t; induction h as [|h IH]; intros fuel c lo hi t Hz Hf Hcl Hfuel.
  - destruct (rep_hdr _ _ _ _ _ _ _ (z_rep _ _ _ _ _ _ _ Hz)) as (d & Hd & Hh).
    exists c, lo, hi, t. split_and!; try done. destruct fuel; cbn [find_leaf_from];
      mrun (read_ok cap lm im H (P ⊎ {[+ root t +]}) U n r (root t) d Hd (in_pins _ _));
      by rewrite (is_leaf_hdr 0 d _ _ _ Hh).
  - destruct fuel as [|fuel]; [lia|]. destruct t as [p cs].
    pose proof (z_ord _ _ _ _ _ _ _ Hz) as Ho. simpl in Ho. destruct Ho as [Hne Ho].
    destruct cs as [|[k0 t0] rest]; [done|]. clear Hne.
    destruct (leftmost_ord (ord h) lo hi k0 t0 rest Ho) as (l & u & Ht & Hol).
    pose proof (z_rep _ _ _ _ _ _ _ Hz) as Hrep. simpl in Hrep. destruct Hrep as [(d & Hd & Hr) _].
    assert (Hlook : InternalPage.ValueAt d 0 = Val (root t0)).
    { apply (int_ValueAt _ _ _ _ _ Hr 0%nat k0). done. }
    destruct (zip_down lm im H c lo hi l u p [] k0 t0 rest Hz Hf Ht Hol) as [Hz' Hfull].
    destruct (IH fuel (Up h p [] k0 rest c) l u t0 Hz' Hfull) as (c' & lo' & hi' & t' & Erun & Hz'' & Hf'' & Hcl' & Hs);
      [simpl; by rewrite Hcl|lia|].
    exists c', lo', hi', t'. split_and!; try done.
    + simpl root. cbn [find_leaf_from].
      mrun (read_ok cap lm im H (P ⊎ {[+ p +]}) U n r p d Hd (in_pins _ _)).
      rewrite (is_leaf_hdr (S h) d _ _ _ (ir_hdr _ _ _ _ _ Hr)). simpl.
      rewrite (bind_Val _ _ _ (root t0) (st H (P ⊎ {[+ p +]}) U n r)) by (unfold lift; by rewrite Hlook).
      rewrite <-bind_assoc, (bind_Val _ _ _ _ _ (descend H _ _ _ _ p P U n r Hz' Hheld Hroom ltac:(eauto))).
      done.
    + eapply same_zip_trans; [|exact Hs]. apply (same_zip_down c p [] k0 t0 rest).
Qed.
End find.

(** ** From the root *)

Hypothesis Hlm : 3 ≤ lm.
Hypothesis Him : 3 ≤ im.

Lemma whole_zip H r es ps :
  whole H r es ps →
  ∃ h (t : tree h), root t = r ∧ zip H (Top h) None None t ∧ fits (Top h) t ∧
    entries h t = es ∧ pids h t ≡ₚ ps ∧ (h ≤ Nat.log2 (length es))%nat.
Proof using Hlm Him.
  intros (h & t & Hr & Hrep & Ho & Hf & Hnd & He & Hp & Hh)%whole_height; [|done..].
  exists h, t. split_and!; try done. split; simpl; try done. by rewrite app_nil_r.
Qed.

Lemma whole_root H r es ps : whole H r es ps → is_Some (H !! r) ∧ r ∈ ps.
Proof.
  intros (h & t & <- & Hrep & _ & _ & _ & _ & Hp).
  destruct (rep_hdr _ _ _ _ _ _ _ Hrep) as (d & Hd & _). split; [eauto|]. rewrite <-Hp. apply root_in_pids.
Qed.

(** The leaf a descent ends at, with the place it has in the tree. *)
Record at_leaf (H : heap) (r : page_id_t) (es : list (Z * string)) (ps : list page_id_t)
    (c : ctx 0) (lo hi : option Z) (t : tree 0) : Prop := {
  al_zip : zip H c lo hi t;
  al_fits : fits c t;
  al_root : croot c (root t) = r;
  al_entries : cl c ++ t.2 ++ cr c = es;
  al_pids : root t :: cpids c ≡ₚ ps;
  al_depth : (depth c ≤ Nat.log2 (length es))%nat;
}.

Lemma FindLeaf_ok fuel key H P U n r es ps :
  whole H r es ps → (Nat.log2 (length es) ≤ fuel)%nat → held U P → room P 2 →
  ∃ (c : ctx 0) lo hi t,
    FindLeafPageGuard fuel key false (st H P U n r) = (Val (root t), st H (P ⊎ {[+ root t +]}) U n r) ∧
    at_leaf H r es ps c lo hi t ∧ above lo key ∧ below hi key.
Proof using Hlm Him.
  intros Hw Hfuel Hheld Hroom. destruct (whole_root _ _ _ _ Hw) as [Hd _].
  destruct (whole_zip _ _ _ _ Hw) as (h & t & <- & Hz & Hf & He & Hp & Hh).
  destruct (find_leaf_ok key n (root t) H P U Hheld Hroom fuel h (Top h) None None t Hz Hf)
    as (c & lo & hi & t' & E & Hz' & Hf' & Ha & Hb & H1 & H2 & H3 & H4); [done|done|lia|].
  exists c, lo, hi, t'. split; [|split; [|done]].
  - unfold FindLeafPageGuard. mstep.
    mrun (fetch_ok cap lm im H P U n (root t) (root t) Hd (or_intror (room_weaken cap P 2 1 Hroom ltac:(lia)))).
    done.
  - split; [done..| | |].
    + simpl in H2. rewrite app_nil_r in H2. by rewrite H2.
    + rewrite <-Hp. simpl in H3. by rewrite app_nil_r in H3.
    + simpl in H4. lia.
Qed.

Lemma FindFirst_ok fuel key H P U n r es ps :
  whole H r es ps → (Nat.log2 (length es) ≤ fuel)%nat → held U P → room P 2 →
  ∃ (c : ctx 0) lo hi t,
    FindLeafPageGuard fuel key true (st H P U n r) = (Val (root t), st H (P ⊎ {[+ root t +]}) U n r) ∧
    at_leaf H r es ps c lo hi t ∧ cl c = [].
Proof using Hlm Him.
  intros Hw Hfuel Hheld Hroom. destruct (whole_root _ _ _ _ Hw) as [Hd _].
  destruct (whole_zip _ _ _ _ Hw) as (h & t & <- & Hz & Hf & He & Hp & Hh).
  destruct (find_first_ok key n (root t) H P U Hheld Hroom fuel h (Top h) None None t Hz Hf)
    as (c & lo & hi & t' & E & Hz' & Hf' & Hc & H1 & H2 & H3 & H4); [done|lia|].
  exists c, lo, hi, t'. split; [|split; [|done]].
  - unfold FindLeafPageGuard. mstep.
    mrun (fetch_ok cap lm im H P U n (root t) (root t) Hd (or_intror (room_weaken cap P 2 1 Hroom ltac:(lia)))).
    done.
  - split; [done..| | |].
    + simpl in H2. rewrite app_nil_r in H2. by rewrite H2.
    + rewrite <-Hp. simpl in H3. by rewrite app_nil_r in H3.
    + simpl in H4. lia.
Qed.

(** The leaf's page. *)
Lemma at_leaf_page H r es ps c lo hi t :
  at_leaf H r es ps c lo hi t →
  ∃ d, H !! root t = Some d ∧ leaf_rep d (cpar c) lm (cnext c) t.2 ∧ sorted t.2.
Proof.
  intros Ha. destruct (z_rep _ _ _ _ _ _ _ (al_zip _ _ _ _ _ _ _ _ Ha)) as (d & Hd & Hr).
  exists d. split_and!; [done|done|]. apply (z_ord _ _ _ _ _ _ _ (al_zip _ _ _ _ _ _ _ _ Ha)).
Qed.

(** ** Lookup *)

Lemma GetValue_ok fuel key H P U n r es ps :
  whole H r es ps → r ≠ INVALID_PAGE_ID → (Nat.log2 (length es) ≤ fuel)%nat → held U P → room P 2 →
  GetValue fuel key (st H P U n r) = (Val (look key es), st H P U n r).
Proof using Hlm Him.
  intros Hw Hr Hfuel Hheld Hroom.
  destruct (FindLeaf_ok fuel key H P U n r es ps Hw Hfuel Hheld Hroom) as (c & lo & hi & t & E & Ha & Hlo & Hhi).
  destruct (at_leaf_page _ _ _ _ _ _ _ _ Ha) as (d & Hd & Hrep & Hs).
  unfold GetValue. mstep. unfold IsEmpty. cbn [root_page_id_ BTreeSteps.st].
  rewrite (proj2 (Z.eqb_neq _ _)) by done. mrun E.
  mdo (eapply query_val; [exact Hd|apply in_pins|by eapply leaf_Lookup]).
  mrun (unpin_pinned cap lm im H P U n r (root t) Hheld).
  rewrite <-(al_entries _ _ _ _ _ _ _ _ Ha). rewrite look_mid; [done|].
  by apply (cord_apart _ _ _ _ (z_cord _ _ _ _ _ _ _ (al_zip _ _ _ _ _ _ _ _ Ha))).
Qed.
End lookup.
