(* ===== verification/BTreeMoves.v ===== *)
(** * B+-tree over the pool's specification: moves between nodes

    What the moves between two leaves and between two internal nodes do to the
    heap of pages; those of internal nodes reparent the children they move. *)

From stdpp Require Import gmultiset.
From S2P Require Import Prelude Entries Bytes Disk Buffer BufferTheory TreePages TreePagesTheory.
From S2P Require Import LeafTheory InternalTheory BTree BTreeRep BTreeSteps.

#[local] Open Scope Z_scope.

Import BPlusTree.

Section moves.
Context (cap lm im : Z).

Abbreviation heap := (gmap page_id_t bytes) (only parsing).
Abbreviation st := (st cap lm im) (only parsing).
Abbreviation room := (room cap) (only parsing).
Abbreviation rep := (rep lm im) (only parsing).

Implicit Types (H : heap) (P : gmultiset page_id_t) (U : gset page_id_t) (n r p : page_id_t).

(** ** Writing pages *)

(** [write_to]: [update] with the unannounced changes bounded. *)
Lemma update_sub H P U V n r p d d' (f : bytes → res bytes) :
  U ⊆ V → p ∈ V → H !! p = Some d → p ∈ P → f d = Val d' → blen d' = PAGE_SIZE →
  ∃ U', update p f (st H P U n r) = (Val tt, st (<[p := d']> H) P U' n r) ∧ U' ⊆ V.
Proof.
  intros HU Hp Hd Hpin Hf Hl. destruct (update_ok cap lm im H P U n r p d d' f Hd Hpin Hf Hl) as (U' & E & H1 & H2).
  exists U'. split; [done|]. set_solver.
Qed.

Lemma move_leaf_ok H P U V n r self rec d to d1 to1 f :
  U ⊆ V → self ∈ V → rec ∈ V → self ≠ rec →
  H !! self = Some d → H !! rec = Some to → self ∈ P → rec ∈ P →
  f d to = Val (d1, to1) → blen d1 = PAGE_SIZE → blen to1 = PAGE_SIZE →
  ∃ U', move_leaf self rec f (st H P U n r) =
      (Val tt, st (<[rec := to1]> (<[self := d1]> H)) P U' n r) ∧ U' ⊆ V.
Proof.
  intros HU Hs Hr Hne Hd Hto Hps Hpr Hf Hl1 Hl2. unfold move_leaf.
  mrun (read_ok cap lm im H P U n r self d Hd Hps). mrun (read_ok cap lm im H P U n r rec to Hto Hpr).
  rewrite (bind_Val _ _ _ (d1, to1) (st H P U n r)) by (unfold lift; by rewrite Hf). cbn [fst snd].
  destruct (write_ok cap lm im H P U n r self d1 Hps Hl1) as (U1 & E1 & _ & HU1). mrun E1.
  destruct (write_ok cap lm im (<[self := d1]> H) P U1 n r rec to1 Hpr Hl2) as (U2 & E2 & _ & HU2).
  exists U2. split; [done|]. set_solver.
Qed.

(** ** Reparenting *)

(** The pages [cs] have a new parent, and only they and the pages [ps] differ. *)
Definition reparented (par : page_id_t) (cs ps : list page_id_t) (H H' : heap) : Prop :=
  (∀ c, c ∈ cs → H' !! c = BPlusTreePage.SetParentPageId par <$> H !! c) ∧
  (∀ p, p ∉ cs → p ∉ ps → H' !! p = H !! p).

Definition roots {h} (cs : list (Z * tree h)) : list page_id_t := snd <$> links cs.

Lemma roots_app {h} (cs cs' : list (Z * tree h)) : roots (cs ++ cs') = roots cs ++ roots cs'.
Proof. unfold roots. by rewrite links_app, fmap_app. Qed.

Lemma roots_in_pids {h} (cs : list (Z * tree h)) p : p ∈ roots cs → p ∈ flat (pids h) cs.
Proof.
  intros (lk & -> & (e & -> & He)%list_elem_of_fmap)%list_elem_of_fmap. simpl.
  apply elem_of_flat. exists e. split; [done|apply root_in_pids].
Qed.

Lemma roots_nodup {h} (cs : list (Z * tree h)) : NoDup (flat (pids h) cs) → NoDup (roots cs).
Proof.
  induction cs as [|e cs IH]; [constructor|]. rewrite flat_cons.
  intros (H1 & H2 & H3)%NoDup_app. constructor; [|by apply IH].
  intros Hin%roots_in_pids. apply (H2 (root e.2)); [apply root_in_pids|done].
Qed.

Lemma roots_pages h H par nx (cs : list (Z * tree h)) p :
  reps (rep h H par) nx cs → p ∈ roots cs → ∃ d, H !! p = Some d ∧ blen d = PAGE_SIZE.
Proof.
  induction cs as [|e cs IH]; simpl; [set_solver|]. intros [He Hr]. unfold roots. simpl.
  intros [->|?]%elem_of_cons; [|by apply IH].
  destruct (rep_hdr _ _ _ _ _ _ _ He) as (d & Hd & Hh). exists d. split; [done|apply Hh].
Qed.

(** Children with their pages reparented are children of the new parent. *)
Lemma reps_reparent h H H' par par' nx (cs : list (Z * tree h)) :
  reps (rep h H par) nx cs → NoDup (flat (pids h) cs) → is_i64 par' →
  (∀ c, c ∈ roots cs → H' !! c = BPlusTreePage.SetParentPageId par' <$> H !! c) →
  (∀ p, p ∈ flat (pids h) cs → p ∉ roots cs → H' !! p = H !! p) →
  reps (rep h H' par') nx cs.
Proof.
  intros Hr Hnd Hp Hc Hf. induction cs as [|[k t] cs IH]; [done|]. simpl in Hr. destruct Hr as [Ht Hr].
  rewrite flat_cons in Hnd, Hf. apply NoDup_app in Hnd as (Hnd1 & Hd & Hnd2). simpl in *. split.
  - destruct (rep_hdr _ _ _ _ _ _ _ Ht) as (d & Hd' & _).
    eapply rep_frame, (rep_set_parent _ _ _ _ _ _ _ d); [|done..]. intros p Hin. simpl.
    destruct (decide (p = root t)) as [->|Hne].
    + rewrite lookup_insert_eq, Hc, Hd' by (unfold roots; simpl; set_solver). done.
    + rewrite lookup_insert_ne by done. apply Hf; [set_solver|]. unfold roots. simpl.
      intros [?|Hin']%elem_of_cons; [done|]. by apply (Hd p), roots_in_pids.
  - apply IH; [done|done| |].
    + intros c Hin. apply Hc. unfold roots. simpl. set_solver.
    + intros p Hin Hnin. apply Hf; [set_solver|]. unfold roots. simpl.
      intros [->|?]%elem_of_cons; [|done]. apply (Hd (root t)); [apply root_in_pids|done].
Qed.

Lemma reps_keep h H H' par nx to ps (cs mv : list (Z * tree h)) :
  reparented to (roots mv) ps H H' → (∀ x, x ∈ flat (pids h) cs → (x ∉ flat (pids h) mv) ∧ x ∉ ps) →
  reps (rep h H par) nx cs → reps (rep h H' par) nx cs.
Proof.
  intros [_ Hre] Hd. apply reps_frame. intros x Hx. destruct (Hd x Hx) as [Hmv Hps].
  apply Hre; [|done]. by intros ?%roots_in_pids.
Qed.

Lemma reps_move h H H' par nx to ps (mv : list (Z * tree h)) :
  reparented to (roots mv) ps H H' → (∀ x, x ∈ flat (pids h) mv → x ∉ ps) → NoDup (flat (pids h) mv) → is_i64 to →
  reps (rep h H par) nx mv → reps (rep h H' to) nx mv.
Proof.
  intros [Hre1 Hre2] Hps Hnd Hto Hr. eapply reps_reparent; [done|done|done|done|]. intros x Hx Hnx. by apply Hre2, Hps.
Qed.

Lemma reparented_insert to cs ps H H' p d :
  reparented to cs ps H H' → p ∉ cs → reparented to cs (p :: ps) H (<[p := d]> H').
Proof.
  intros [Hre1 Hre2] Hp. split.
  - intros c Hc. rewrite lookup_insert_ne; [by apply Hre1|]. by intros ->.
  - intros x Hx1 Hx2. rewrite elem_of_cons in Hx2. rewrite lookup_insert_ne; [apply Hre2; [done|]|]; naive_solver.
Qed.

(** Only the subtrees matter, not the keys in front of them. *)
Lemma flat_snd {T A} (f : T → list A) (cs cs' : list (Z * T)) : (snd <$> cs) = (snd <$> cs') → flat f cs = flat f cs'.
Proof.
  revert cs'; induction cs as [|[k t] cs IH]; intros [|[k' t'] cs']; try done.
  intros [= -> E]. rewrite !flat_cons. by rewrite (IH cs').
Qed.

Lemma reps_snd {h} (R : page_id_t → tree h → Prop) nx (cs cs' : list (Z * tree h)) :
  (snd <$> cs) = (snd <$> cs') → reps R nx cs → reps R nx cs'.
Proof.
  revert cs'; induction cs as [|[k t] cs IH]; intros [|[k' t'] cs']; simpl; try done.
  intros [= -> E] [Ht Hr]. split; [|by apply IH].
  by replace (next_of nx cs') with (next_of nx cs) by (destruct cs as [|[]], cs' as [|[]]; naive_solver).
Qed.

(** ** The loop over the children *)

Lemma SetParent_blen par d : blen d = PAGE_SIZE → blen (BPlusTreePage.SetParentPageId par d) = PAGE_SIZE.
Proof.
  intros Hl. pose proof (blen_le_enc 8 par) as He. unfold BPlusTreePage.SetParentPageId, put64.
  rewrite blen_blit; [done|..]; unfold BPlusTreePage.parent_off, PAGE_SIZE in *; lia.
Qed.

Section children.
Context (P : gmultiset page_id_t) (n r from to : page_id_t) (d : bytes) (par mx sz : Z) (es : list (Z * page_id_t)).
Context (par' mx' sz' : Z).
Hypothesis Hfrom : from ∈ P.
Hypothesis Hto : to ∈ P.
Hypothesis Hne : from ≠ to.
Hypothesis Hroom : room P 1.
Hypothesis Hd : int_raw d par mx sz es.

(** Pages of the children. *)
Definition child_pages (H : heap) (cs : list page_id_t) : Prop :=
  ∀ c, c ∈ cs → c ≠ from ∧ c ≠ to ∧ ∃ dc, H !! c = Some dc ∧ blen dc = PAGE_SIZE.

Lemma move_children_ok mv : ∀ H U (src : nat) d' es',
  H !! from = Some d → H !! to = Some d' → int_raw d' par' mx' sz' es' →
  (∀ i e, mv !! i = Some e → es !! (src + i)%nat = Some e) → NoDup (snd <$> mv) →
  child_pages H (snd <$> mv) → Z.of_nat (length es' + length mv) ≤ InternalPage.kMaxSize →
  ∃ H' U' d'', move_children (length mv) from (Z.of_nat src) to (Z.of_nat (length es')) (st H P U n r) =
      (Val tt, st H' P U' n r) ∧
    H' !! to = Some d'' ∧ int_raw d'' par' mx' sz' (es' ++ mv) ∧
    reparented to (snd <$> mv) [to] H H' ∧ U' ⊆ {[to]} ∪ U.
Proof using Hfrom Hto Hne Hroom Hd.
  induction mv as [|[k c] mv IH]; intros H U src d' es' Hf Ht Hr Hmv Hnd Hch Hlen.
  - exists H, U, d'. simpl. rewrite app_nil_r. split_and!; [done|done|done| |set_solver].
    split; [set_solver|done].
  - simpl length in Hlen. pose proof (Hmv 0%nat _ eq_refl) as He. rewrite Nat.add_0_r in He.
    destruct (int_load _ _ _ _ _ Hd _ _ _ He) as [Eload Hel].
    destruct (int_store_append _ _ _ _ _ _ (k, c) Hr ltac:(lia) Hel) as (d1 & E1 & H1).
    destruct (update_sub H P U ({[to]} ∪ U) n r to d' d1
      (λ d', store_slot InternalPage.array_off InternalPage.entry_size InternalPage.kMaxSize d'
         (Z.of_nat (length es')) (elem InternalPage.array_off InternalPage.entry_size d (Z.of_nat src)))
      ltac:(sub_solver) ltac:(sub_solver) Ht Hto E1 (int_blen _ _ _ _ _ H1)) as (U1 & Eu & HU1).
    destruct (Hch c) as (Hcf & Hct & dc & Hdc & Hbc); [set_solver|].
    destruct (UpdateChildParent_ok cap lm im (<[to := d1]> H) P U1 n r c to dc) as (U2 & Ep & _ & HU2);
      [by rewrite lookup_insert_ne|done|by right|].
    simpl in Hnd. apply NoDup_cons in Hnd as [Hnin Hnd].
    destruct (IH (<[c := BPlusTreePage.SetParentPageId to dc]> (<[to := d1]> H)) U2 (S src) d1 (es' ++ [(k, c)]))
      as (H' & U' & d'' & Erun & Hto' & Hr' & [Hre1 Hre2] & HU').
    + by rewrite !lookup_insert_ne by done.
    + by rewrite lookup_insert_ne, lookup_insert_eq by done.
    + done.
    + intros i e Hi. rewrite <-(Hmv (S i) e Hi). f_equal. lia.
    + done.
    + intros c' Hc'. destruct (Hch c') as (? & ? & dc' & Hdc' & ?); [set_solver|]. split_and!; [done|done|].
      exists dc'. rewrite !lookup_insert_ne by set_solver. done.
    + rewrite length_app. simpl. lia.
    + exists H', U', d''. split_and!; [|done|by rewrite <-app_assoc in Hr'| |set_solver].
      * cbn [move_children length].
        mdo (by eapply query_val). mrun Eu.
        mdo (eapply query_val; [apply lookup_insert_eq|exact Hto|];
             eapply (int_ValueAt _ _ _ _ _ H1 (length es') k); by rewrite lookup_app_r, Nat.sub_diag by lia).
        mrun Ep. rewrite length_app in Erun. simpl in Erun.
        replace (Z.of_nat src + 1) with (Z.of_nat (S src)) by lia.
        by replace (Z.of_nat (length es') + 1) with (Z.of_nat (length es' + 1)) by lia.
      * split; simpl.
        -- intros c' [->|Hin]%elem_of_cons.
           ++ rewrite Hre2 by set_solver. by rewrite lookup_insert_eq, Hdc.
           ++ rewrite Hre1 by done. rewrite lookup_insert_ne by set_solver.
              rewrite lookup_insert_ne; [done|]. destruct (Hch c') as (? & ? & ?); [set_solver|done].
        -- intros p Hp1 Hp2. rewrite Hre2 by set_solver. by rewrite !lookup_insert_ne by set_solver.
Qed.
End children.

(** ** Moves between internal nodes *)

Lemma quot_half (k : nat) : Z.quot (Z.of_nat k) 2 = Z.of_nat (k / 2).
Proof. rewrite Z.quot_div_nonneg by lia. by rewrite Nat2Z.inj_div. Qed.

Section internal.
Context (H : heap) (P : gmultiset page_id_t) (U V : gset page_id_t) (n r self rec : page_id_t).
Context (d to : bytes) (par mx par' mx' : Z) (es es' : list (Z * page_id_t)).
Hypothesis HUV : U ⊆ V.
Hypothesis HselfV : self ∈ V.
Hypothesis HrecV : rec ∈ V.
Hypothesis Hne : self ≠ rec.
Hypothesis Hself : self ∈ P.
Hypothesis Hrec : rec ∈ P.
Hypothesis Hroom : room P 1.
Hypothesis Hd : H !! self = Some d.
Hypothesis Hto : H !! rec = Some to.
Hypothesis Hes : int_rep d par mx es.

Lemma MoveHalfTo_ok :
  int_raw to par' mx' 0 [] → NoDup (snd <$> es) → child_pages self rec H (snd <$> drop (length es / 2) es) →
  ∃ H' U' d1 to1, MoveHalfTo self rec (st H P U n r) = (Val tt, st H' P U' n r) ∧
    H' !! self = Some d1 ∧ int_rep d1 par mx (take (length es / 2) es) ∧
    H' !! rec = Some to1 ∧ int_rep to1 par' mx' (drop (length es / 2) es) ∧
    reparented rec (snd <$> drop (length es / 2) es) [self; rec] H H' ∧ U' ⊆ V.
Proof using HUV HselfV HrecV Hne Hself Hrec Hroom Hd Hto Hes.
  intros Hes' Hnd Hch. set (k := (length es / 2)%nat) in *. pose proof (ir_cap _ _ _ _ _ Hes) as Hcap.
  assert (Hk : (k ≤ length es)%nat) by (apply Nat.Div0.div_le_upper_bound; lia).
  assert (Hmv : Z.of_nat (length es) - Z.of_nat k = Z.of_nat (length (drop k es))) by (rewrite length_drop; lia).
  destruct (move_children_ok P n r self rec d par mx _ es par' mx' 0 Hself Hrec Hne Hroom Hes (drop k es)
    H U k to []) as (H1 & U1 & to1 & Erun & Hto1 & Hr1 & [Hre1 Hre2] & HU1); try done.
  { intros i e He. by rewrite <-lookup_drop. }
  { rewrite fmap_drop. by eapply sublist_NoDup, sublist_drop. }
  { rewrite length_drop. simpl. lia. }
  assert (Hself1 : H1 !! self = Some d).
  { rewrite Hre2; [done| |set_solver]. intros (Hs & _)%Hch. done. }
  pose proof (int_SetSize _ _ _ _ _ (Z.of_nat (length (drop k es))) Hr1 ltac:(unfold is_i32; rewrite length_drop; int_arith)) as Hr2.
  destruct (update_sub H1 P U1 V n r rec to1 _
    (λ d, Val (BPlusTreePage.SetSize (Z.of_nat (length (drop k es))) d)) ltac:(sub_solver) HrecV Hto1 Hrec eq_refl (int_blen _ _ _ _ _ Hr2))
    as (U2 & E2 & HU2).
  pose proof (int_SetSize _ _ _ _ _ (Z.of_nat k) (int_take _ _ _ _ _ k Hes) ltac:(unfold is_i32; int_arith)) as Hd2.
  destruct (update_sub (<[rec := BPlusTreePage.SetSize (Z.of_nat (length (drop k es))) to1]> H1) P U2 V n r self d _
    (λ d, Val (BPlusTreePage.SetSize (Z.of_nat k) d)) HU2 HselfV ltac:(by rewrite lookup_insert_ne) Hself eq_refl
    (int_blen _ _ _ _ _ Hd2)) as (U3 & E3 & HU3).
  eexists _, U3, _, _. split_and!; [| |unfold int_rep; rewrite length_take_le by done; exact Hd2| |exact Hr2| |done].
  - unfold MoveHalfTo.
    mdo (eapply query_val; [done|done|by rewrite (int_GetSize _ _ _ _ _ Hes)]).
    rewrite quot_half. fold k. rewrite Hmv, Nat2Z.id. mrun Erun. mrun E2. exact E3.
  - apply lookup_insert_eq.
  - by rewrite lookup_insert_ne, lookup_insert_eq by done.
  - split.
    + intros c Hc. destruct (Hch c Hc) as (? & ? & _). rewrite !lookup_insert_ne by done. auto.
    + intros p Hp1 Hp2. rewrite !lookup_insert_ne by set_solver. apply Hre2; set_solver.
Qed.

Lemma MoveAllTo_ok k0 c0 es1 middle :
  es = (k0, c0) :: es1 → int_rep to par' mx' es' → NoDup (snd <$> es) → child_pages self rec H (snd <$> es) →
  Z.of_nat (length es' + length es) ≤ InternalPage.kMaxSize → is_i64 middle →
  ∃ H' U' d1 to1, MoveAllTo self rec middle (st H P U n r) = (Val tt, st H' P U' n r) ∧
    H' !! self = Some d1 ∧
    H' !! rec = Some to1 ∧ int_rep to1 par' mx' (es' ++ (middle, c0) :: es1) ∧
    reparented rec (snd <$> es) [self; rec] H H' ∧ U' ⊆ V.
Proof using HUV HselfV HrecV Hne Hself Hrec Hroom Hd Hto Hes.
  intros Ees Hes' Hnd Hch Hcap Hm. rewrite Ees in *.
  destruct (int_SetKeyAt _ _ _ _ _ 0%nat k0 c0 middle Hes eq_refl Hm) as (d1 & E1 & Hd1). simpl in Hd1.
  destruct (update_sub H P U V n r self d d1 (InternalPage.SetKeyAt 0 middle) HUV HselfV Hd Hself E1
    (int_blen _ _ _ _ _ Hd1)) as (U1 & Eu1 & HU1).
  destruct (move_children_ok P n r self rec d1 par mx _ ((middle, c0) :: es1) par' mx'
    (Z.of_nat (length es')) Hself Hrec Hne Hroom Hd1
    ((middle, c0) :: es1) (<[self := d1]> H) U1 0%nat to es')
    as (H1 & U2 & to1 & Erun & Hto1 & Hr1 & [Hre1 Hre2] & HU2); try done.
  { apply lookup_insert_eq. }
  { by rewrite lookup_insert_ne. }
  { intros c Hc. destruct (Hch c Hc) as (? & ? & dc & ? & ?). split_and!; [done|done|].
    exists dc. by rewrite lookup_insert_ne. }
  pose proof (int_SetSize _ _ _ _ _ (Z.of_nat (length es') + Z.of_nat (S (length es1))) Hr1
    ltac:(unfold is_i32; simpl in Hcap; int_arith)) as Hr2.
  destruct (update_sub H1 P U2 V n r rec to1 _
    (λ d, Val (BPlusTreePage.IncreaseSize (Z.of_nat (S (length es1))) d)) ltac:(sub_solver) HrecV Hto1 Hrec eq_refl)
    as (U3 & E3 & HU3).
  { unfold BPlusTreePage.IncreaseSize. rewrite (int_GetSize _ _ _ _ _ Hr1). apply (int_blen _ _ _ _ _ Hr2). }
  assert (Hs1 : H1 !! self = Some d1).
  { rewrite Hre2; [apply lookup_insert_eq| |set_solver]. simpl. intros Hin.
    destruct (Hch self) as [? _]; [simpl; set_solver|done]. }
  pose proof (int_SetSize _ _ _ _ _ 0 Hd1 ltac:(unfold is_i32; lia)) as Hd2.
  destruct (update_sub (<[rec := BPlusTreePage.IncreaseSize (Z.of_nat (S (length es1))) to1]> H1) P U3 V n r self d1 _
    (λ d, Val (BPlusTreePage.SetSize 0 d)) HU3 HselfV ltac:(by rewrite lookup_insert_ne) Hself eq_refl
    (int_blen _ _ _ _ _ Hd2)) as (U4 & E4 & HU4).
  eexists _, U4, _, _. split_and!; [| | | | |done].
  - unfold MoveAllTo. mrun Eu1.
    mdo (eapply query_val; [rewrite lookup_insert_ne by done; exact Hto|done|by rewrite (int_GetSize _ _ _ _ _ Hes')]).
    mdo (eapply query_val; [apply lookup_insert_eq|done|by rewrite (int_GetSize _ _ _ _ _ Hd1)]).
    rewrite Nat2Z.id. mrun Erun. simpl length. mrun E3. exact E4.
  - apply lookup_insert_eq.
  - by rewrite lookup_insert_ne, lookup_insert_eq by done.
  - unfold BPlusTreePage.IncreaseSize. rewrite (int_GetSize _ _ _ _ _ Hr1). unfold int_rep.
    rewrite length_app, Nat2Z.inj_add. exact Hr2.
  - split.
    + intros c Hc. destruct (Hch c Hc) as (? & ? & _). rewrite !lookup_insert_ne by done.
      rewrite Hre1 by done. by rewrite lookup_insert_ne.
    + intros p Hp1 Hp2. rewrite !lookup_insert_ne by set_solver. rewrite Hre2; [|done|set_solver].
      by rewrite lookup_insert_ne by set_solver.
Qed.

Lemma MoveFirstToEndOf_ok k0 c0 es1 middle dc :
  es = (k0, c0) :: es1 → int_rep to par' mx' es' → c0 ≠ self → c0 ≠ rec →
  H !! c0 = Some dc → blen dc = PAGE_SIZE →
  Z.of_nat (length es') < InternalPage.kMaxSize → is_i64 middle → is_i64 c0 →
  ∃ H' U' d1 to1, MoveFirstToEndOf self rec middle (st H P U n r) = (Val tt, st H' P U' n r) ∧
    H' !! self = Some d1 ∧ int_rep d1 par mx es1 ∧
    H' !! rec = Some to1 ∧ int_rep to1 par' mx' (es' ++ [(middle, c0)]) ∧
    reparented rec [c0] [self; rec] H H' ∧ U' ⊆ V.
Proof using HUV HselfV HrecV Hne Hself Hrec Hroom Hd Hto Hes.
  intros Ees Hes' Hcs Hcr Hdc Hbc Hcap Hm Hc. rewrite Ees in *. pose proof (ir_cap _ _ _ _ _ Hes) as Hcap'. simpl in Hcap'.
  destruct (int_SetEntryAt _ _ _ _ _ (length es') middle c0 Hes' ltac:(lia) Hcap Hm Hc) as (t1 & E1 & Ht1).
  rewrite firstn_all, drop_ge in Ht1 by lia.
  destruct (update_sub H P U V n r rec to t1 (λ d, InternalPage.SetEntryAt (BPlusTreePage.GetSize d) middle c0 d)
    HUV HrecV Hto Hrec ltac:(cbv beta; by rewrite (int_GetSize _ _ _ _ _ Hes')) (int_blen _ _ _ _ _ Ht1)) as (U1 & Eu1 & HU1).
  pose proof (int_SetSize _ _ _ _ _ (Z.of_nat (length es') + 1) Ht1 ltac:(unfold is_i32; int_arith)) as Ht2.
  destruct (update_sub (<[rec := t1]> H) P U1 V n r rec t1 _ (λ d, Val (BPlusTreePage.IncreaseSize 1 d))
    HU1 HrecV ltac:(apply lookup_insert_eq) Hrec eq_refl) as (U2 & Eu2 & HU2).
  { unfold BPlusTreePage.IncreaseSize. rewrite (int_GetSize _ _ _ _ _ Ht1). apply (int_blen _ _ _ _ _ Ht2). }
  unfold BPlusTreePage.IncreaseSize in Eu2. rewrite (int_GetSize _ _ _ _ _ Ht1) in Eu2.
  set (t2 := BPlusTreePage.SetSize (Z.of_nat (length es') + 1) t1) in *.
  destruct (UpdateChildParent_ok cap lm im (<[rec := t2]> (<[rec := t1]> H)) P U2 n r c0 rec dc) as (U3 & Ep & _ & HU3);
    [by rewrite !lookup_insert_ne|done|by right|].
  destruct (int_shift_left _ _ _ _ _ 0%nat Hes ltac:(simpl; lia)) as (d1 & Es & Hd1). simpl in Es, Hd1.
  rewrite drop_0 in Hd1. rewrite !Nat.sub_0_r in Es.
  set (H3 := <[c0 := BPlusTreePage.SetParentPageId rec dc]> (<[rec := t2]> (<[rec := t1]> H))) in *.
  assert (HH3 : H3 !! self = Some d) by (unfold H3; by rewrite !lookup_insert_ne).
  destruct (update_sub H3 P U3 V n r self d d1
    (λ d, shift_left InternalPage.array_off InternalPage.entry_size InternalPage.kMaxSize
                      (Z.to_nat (BPlusTreePage.GetSize d - 1)) 0 d) ltac:(sub_solver) HselfV HH3 Hself)
    as (U4 & Eu4 & HU4); [|apply (int_blen _ _ _ _ _ Hd1)|].
  { rewrite (int_GetSize _ _ _ _ _ Hes). simpl length.
    replace (Z.to_nat (Z.of_nat (S (length es1)) - 1)) with (length es1) by lia. exact Es. }
  pose proof (int_SetSize _ _ _ _ _ (Z.of_nat (length es1)) Hd1 ltac:(unfold is_i32; int_arith)) as Hd2.
  assert (Hsz : BPlusTreePage.IncreaseSize (-1) d1 = BPlusTreePage.SetSize (Z.of_nat (length es1)) d1).
  { unfold BPlusTreePage.IncreaseSize. rewrite (int_GetSize _ _ _ _ _ Hd1). f_equal. simpl. lia. }
  destruct (update_sub (<[self := d1]> H3) P U4 V n r self d1 (BPlusTreePage.IncreaseSize (-1) d1)
    (λ d, Val (BPlusTreePage.IncreaseSize (-1) d)) HU4 HselfV ltac:(apply lookup_insert_eq) Hself eq_refl)
    as (U5 & Eu5 & HU5); [rewrite Hsz; apply (int_blen _ _ _ _ _ Hd2)|]. rewrite Hsz in Eu5.
  eexists _, U5, _, t2. split_and!; [| |exact Hd2| | | |done].
  - unfold MoveFirstToEndOf.
    mdo (eapply query_val; [exact Hd|exact Hself|by apply (int_ValueAt _ _ _ _ _ Hes 0%nat k0)]).
    mrun Eu1. unfold BPlusTreePage.IncreaseSize at 1. mrun Eu2.
    mrun Ep. mrun Eu4. exact Eu5.
  - apply lookup_insert_eq.
  - unfold H3. rewrite !lookup_insert_ne by done. apply lookup_insert_eq.
  - unfold int_rep. rewrite length_app, Nat2Z.inj_add. exact Ht2.
  - split.
    + intros c [->|?]%elem_of_cons; [|set_solver]. unfold H3.
      rewrite !(lookup_insert_ne _ self) by done. by rewrite lookup_insert_eq, Hdc.
    + intros p Hp1 Hp2. unfold H3. by rewrite !lookup_insert_ne by set_solver.
Qed.

Lemma MoveLastToFrontOf_ok k0 c0 es1 k1 c1 es2 middle dc :
  es = es1 ++ [(k0, c0)] → es' = (k1, c1) :: es2 → int_rep to par' mx' es' → c0 ≠ self → c0 ≠ rec →
  H !! c0 = Some dc → blen dc = PAGE_SIZE →
  Z.of_nat (length es') < InternalPage.kMaxSize → is_i64 middle → is_i64 c0 →
  ∃ H' U' d1 to1, MoveLastToFrontOf self rec middle (st H P U n r) = (Val tt, st H' P U' n r) ∧
    H' !! self = Some d1 ∧ int_rep d1 par mx es1 ∧
    H' !! rec = Some to1 ∧ int_rep to1 par' mx' ((k1, c0) :: (middle, c1) :: es2) ∧
    reparented rec [c0] [self; rec] H H' ∧ U' ⊆ V.
Proof using HUV HselfV HrecV Hne Hself Hrec Hroom Hd Hto Hes.
  intros Ees Ees' Hes' Hcs Hcr Hdc Hbc Hcap Hm Hc. rewrite Ees in *. rewrite Ees' in *.
  pose proof (ir_cap _ _ _ _ _ Hes) as Hcap'. pose proof (int_GetSize _ _ _ _ _ Hes) as Hsize.
  rewrite length_app in Hcap', Hsize. simpl in Hcap', Hsize, Hcap.
  assert (Hlast : BPlusTreePage.GetSize d - 1 = Z.of_nat (length es1)) by lia.
  pose proof (int_SetSize _ _ _ _ _ (Z.of_nat (length es1)) (int_take _ _ _ _ _ (length es1) Hes)
    ltac:(unfold is_i32; int_arith)) as Hd1. rewrite take_app_length in Hd1.
  assert (Hsz : BPlusTreePage.IncreaseSize (-1) d = BPlusTreePage.SetSize (Z.of_nat (length es1)) d).
  { unfold BPlusTreePage.IncreaseSize. f_equal. lia. }
  destruct (update_sub H P U V n r self d (BPlusTreePage.IncreaseSize (-1) d)
    (λ d, Val (BPlusTreePage.IncreaseSize (-1) d)) HUV HselfV Hd Hself eq_refl)
    as (U1 & Eu1 & HU1); [rewrite Hsz; apply (int_blen _ _ _ _ _ Hd1)|]. rewrite Hsz in Eu1.
  set (d1 := BPlusTreePage.SetSize (Z.of_nat (length es1)) d) in *. set (H1 := <[self := d1]> H) in *.
  assert (HH1 : H1 !! rec = Some to) by (unfold H1; by rewrite lookup_insert_ne).
  destruct (int_shift_right _ _ _ _ _ (k1, c1) 0%nat Hes' eq_refl ltac:(simpl; lia)) as (t2 & Es & Ht2).
  simpl in Es, Ht2. rewrite ?drop_0, ?Nat.sub_0_r in *.
  destruct (update_sub H1 P U1 V n r rec to t2
    (λ d, shift_right InternalPage.array_off InternalPage.entry_size InternalPage.kMaxSize
            (Z.to_nat (BPlusTreePage.GetSize d)) (BPlusTreePage.GetSize d) d) HU1 HrecV HH1 Hrec)
    as (U2 & Eu2 & HU2); [|apply (int_blen _ _ _ _ _ Ht2)|].
  { rewrite (int_GetSize _ _ _ _ _ Hes'), Nat2Z.id. exact Es. }
  destruct (int_SetValueAt _ _ _ _ _ 0%nat k1 c1 c0 Ht2 eq_refl Hc) as (t3 & E3 & Ht3). simpl in E3, Ht3.
  destruct (update_sub (<[rec := t2]> H1) P U2 V n r rec t2 t3 (InternalPage.SetValueAt 0 c0) HU2 HrecV
    ltac:(apply lookup_insert_eq) Hrec E3 (int_blen _ _ _ _ _ Ht3)) as (U3 & Eu3 & HU3).
  destruct (int_SetKeyAt _ _ _ _ _ 1%nat k1 c1 middle Ht3 eq_refl Hm) as (t4 & E4 & Ht4). simpl in E4, Ht4.
  destruct (update_sub (<[rec := t3]> (<[rec := t2]> H1)) P U3 V n r rec t3 t4 (InternalPage.SetKeyAt 1 middle) HU3 HrecV
    ltac:(apply lookup_insert_eq) Hrec E4 (int_blen _ _ _ _ _ Ht4)) as (U4 & Eu4 & HU4).
  pose proof (int_SetSize _ _ _ _ _ (Z.of_nat (S (S (length es2)))) Ht4 ltac:(unfold is_i32; int_arith)) as Ht5.
  assert (Hsz' : BPlusTreePage.IncreaseSize 1 t4 = BPlusTreePage.SetSize (Z.of_nat (S (S (length es2)))) t4).
  { unfold BPlusTreePage.IncreaseSize. rewrite (int_GetSize _ _ _ _ _ Ht4). f_equal. simpl. lia. }
  destruct (update_sub (<[rec := t4]> (<[rec := t3]> (<[rec := t2]> H1))) P U4 V n r rec t4 (BPlusTreePage.IncreaseSize 1 t4)
    (λ d, Val (BPlusTreePage.IncreaseSize 1 d)) HU4 HrecV ltac:(apply lookup_insert_eq) Hrec eq_refl)
    as (U5 & Eu5 & HU5); [rewrite Hsz'; apply (int_blen _ _ _ _ _ Ht5)|]. rewrite Hsz' in Eu5.
  set (t5 := BPlusTreePage.SetSize (Z.of_nat (S (S (length es2)))) t4) in *.
  rewrite !insert_insert_eq in *.
  destruct (UpdateChildParent_ok cap lm im (<[rec := t5]> H1) P U5 n r c0 rec dc) as (U6 & Ep & _ & HU6);
    [unfold H1; by rewrite !lookup_insert_ne|done|by right|].
  eexists _, U6, d1, t5. split_and!; [| |exact Hd1| |exact Ht5| |set_solver].
  - unfold MoveLastToFrontOf.
    mdo (eapply query_val; [exact Hd|exact Hself|]; rewrite Hlast; apply (int_ValueAt _ _ _ _ _ Hes _ k0);
         by rewrite lookup_app_r, Nat.sub_diag by lia).
    mrun Eu1. mrun Eu2. mrun Eu3. mrun Eu4. mrun Eu5. exact Ep.
  - unfold H1. rewrite !(lookup_insert_ne _ _ self) by done. apply lookup_insert_eq.
  - rewrite lookup_insert_ne by done. apply lookup_insert_eq.
  - split.
    + intros c [->|?]%elem_of_cons; [|set_solver]. by rewrite lookup_insert_eq, Hdc.
    + intros p Hp1 Hp2. unfold H1. by rewrite !lookup_insert_ne by set_solver.
Qed.
End internal.

End moves.
