(* ===== verification/BTreeInsert.v ===== *)
(** * B+-tree over the pool's specification: insertion *)

From stdpp Require Import gmultiset.
From S2P Require Import Prelude Entries Bytes Disk Buffer BufferTheory TreePages TreePagesTheory.
From S2P Require Import LeafTheory InternalTheory BTree BTreeRep BTreeSteps BTreeLookup.
From S2P Require Import BTreeMoves.

#[local] Open Scope Z_scope.

Import BPlusTree.

Section insert.
Context (cap lm im : Z).
Hypothesis Hlm : 3 ≤ lm ≤ LeafPage.Capacity - 1.
Hypothesis Him : 3 ≤ im ≤ InternalPage.Capacity - 1.

Abbreviation heap := (gmap page_id_t bytes) (only parsing).
Abbreviation st := (st cap lm im) (only parsing).
Abbreviation room := (room cap) (only parsing).
Abbreviation rep := (rep lm im) (only parsing).
Abbreviation zip := (zip lm im) (only parsing).
Abbreviation full := (full lm im) (only parsing).
Abbreviation cfull := (cfull lm im) (only parsing).
Abbreviation crep := (crep lm im) (only parsing).
Abbreviation fits := (fits lm im) (only parsing).
Abbreviation whole := (whole lm im) (only parsing).

Implicit Types (H : heap) (P : gmultiset page_id_t) (U : gset page_id_t) (n r p : page_id_t).

(** ** Two halves of a subtree *)

(** A subtree that has been split at [m]; only its left half is in the parent. *)
Record twin {h} (H : heap) (c : ctx h) (lo hi : option Z) (l : tree h) (m : Z) (r : tree h) : Prop := {
  tw_l : rep h H (cpar c) (first_leaf h r) l;
  tw_r : rep h H (cpar c) (cnext c) r;
  tw_crep : crep H c (root l) (first_leaf h l);
  tw_cord : cord c lo hi;
  tw_ord_l : ord h lo (Some m) l;
  tw_ord_r : ord h (Some m) hi r;
  tw_over : over lo m;
  tw_below : below hi m;
  tw_full_l : full h l;
  tw_full_r : full h r;
  tw_cfull : cfull c;
  tw_nodup : NoDup (pids h l ++ pids h r ++ cpids c);
  tw_key : is_i64 m;
}.

Lemma not_in_ne (ps : list page_id_t) p q : p ∉ ps → q ∈ ps → p ≠ q.
Proof. by intros Hp Hq ->. Qed.

(** Page ids in use are below the next one to be allocated. *)
Definition bounded (n : page_id_t) (ps : list page_id_t) : Prop := ∀ p, p ∈ ps → 0 ≤ p < n.

Lemma bounded_i64 n ps p : APool.addressable n = true → bounded n ps → p ∈ ps → is_i64 p.
Proof.
  intros [Ha Hb]%andb_true_iff Hbd Hp%Hbd. apply Z.leb_le in Ha, Hb. unfold is_i64, int64_min, int64_max, PAGE_SIZE in *. lia.
Qed.

Lemma addressable_i64 n : APool.addressable n = true → is_i64 n.
Proof.
  intros [Ha Hb]%andb_true_iff. apply Z.leb_le in Ha, Hb. unfold is_i64, int64_min, int64_max, PAGE_SIZE in *. lia.
Qed.

Lemma addressable_le n n' : APool.addressable n' = true → 0 ≤ n ≤ n' → APool.addressable n = true.
Proof.
  intros [Ha Hb]%andb_true_iff Hn. apply Z.leb_le in Ha, Hb. apply andb_true_iff. split; apply Z.leb_le;
    unfold PAGE_SIZE in *; lia.
Qed.

(** What an insertion leaves: the tree at its new root, on its old pages and on
    newly allocated ones; other pages are as they were. *)
Record grown (H H' : heap) (n n' : page_id_t) (r' : page_id_t) (es : list (Z * string))
    (ps : list page_id_t) (k : nat) : Prop := {
  gr_whole : ∃ ps', whole H' r' es ps' ∧ ∀ p, p ∈ ps' → p ∈ ps ∨ n ≤ p < n';
  gr_next : n ≤ n' ≤ n + Z.of_nat k;
  gr_frame : ∀ p, p ∉ ps → ¬ n ≤ p < n' → H' !! p = H !! p;
}.

(** *** Above the root *)

Lemma root_full_pair h (n : page_id_t) k0 (l : tree h) m (r : tree h) :
  full h l → full h r → root_full lm im (h := S h) (n, [(k0, l); (m, r)]).
Proof using Hlm Him. intros Hl Hr. simpl. split; [lia|]. intros e [->|[->|?]%elem_of_cons]%elem_of_cons; set_solver. Qed.

Lemma new_root_whole {h} H lo hi (l : tree h) m (r : tree h) n dl dr dn k0 :
  twin H (Top h) lo hi l m r → n ∉ pids h l ++ pids h r → is_i64 n →
  H !! root l = Some dl → H !! root r = Some dr → int_rep dn INVALID_PAGE_ID im [(k0, root l); (m, root r)] →
  whole (<[root r := BPlusTreePage.SetParentPageId n dr]> (<[root l := BPlusTreePage.SetParentPageId n dl]> (<[n := dn]> H)))
    n (entries h l ++ entries h r) (n :: pids h l ++ pids h r).
Proof using Hlm Him.
  intros [Hl Hr _ [-> ->] Hol Hor _ _ Hfl Hfr _ Hnd Hkey] Hn Hni Hdl Hdr Hdn. simpl in *.
  rewrite app_nil_r in Hnd. pose proof Hnd as (Hnd1 & Hdj & Hnd2)%NoDup_app.
  pose proof (root_in_pids h l) as Hinl. pose proof (root_in_pids h r) as Hinr.
  rewrite elem_of_app in Hn.
  exists (S h), ((n, [(k0, l); (m, r)]) : tree (S h)). split_and!.
  - done.
  - split.
    + exists dn. rewrite !lookup_insert_ne by naive_solver. by rewrite lookup_insert_eq.
    + simpl. split_and!; [| |done].
      * eapply rep_frame, (rep_set_parent _ _ _ _ _ _ _ dl n); [|exact Hl|done..]. intros p Hp.
        assert (p ≠ n) by naive_solver. assert (p ≠ root r) by (intros ->; by apply (Hdj (root r))).
        destruct (decide (p = root l)) as [->|]; [by rewrite lookup_insert_ne, !lookup_insert_eq|].
        by rewrite !lookup_insert_ne.
      * eapply rep_frame, (rep_set_parent _ _ _ _ _ _ _ dr n); [|exact Hr|done..]. intros p Hp.
        assert (p ≠ n) by naive_solver. assert (p ≠ root l) by (intros ->; by apply (Hdj (root l))).
        destruct (decide (p = root r)) as [->|]; [by rewrite !lookup_insert_eq|].
        by rewrite !lookup_insert_ne.
  - split; [done|]. by simpl.
  - by apply root_full_pair.
  - simpl. unfold flat. simpl. rewrite app_nil_r. constructor; [set_solver|done].
  - simpl. unfold flat. simpl. by rewrite app_nil_r.
  - simpl. unfold flat. simpl. by rewrite app_nil_r.
Qed.
(** *** In the parent *)

Lemma links_length {h} (cs : list (Z * tree h)) : length (links cs) = length cs.
Proof. apply length_fmap. Qed.

Lemma ivls_app {h} (R : option Z → option Z → tree h → Prop) cs cs' : ivls R (cs ++ cs') = ivls R cs ++ ivls R cs'.
Proof. apply fmap_app. Qed.

Lemma twin_parent {h} H p ls k rs (up : ctx (S h)) lo hi l m (r : tree h) :
  twin H (Up h p ls k rs up) lo hi l m r → is_i64 (root r) →
  ∃ d d' lo' hi', H !! p = Some d ∧
    InternalPage.InsertNodeAfter (root l) m (root r) d = Val (Z.of_nat (length ls + length rs + 2), d') ∧
    blen d' = PAGE_SIZE ∧
    zip (<[p := d']> H) up lo' hi' ((p, ls ++ (k, l) :: (m, r) :: rs) : tree (S h)) ∧
    (∀ e, e ∈ ls ++ (k, l) :: (m, r) :: rs → full h e.2) ∧
    (if is_top up then 2 else min_size im) ≤ Z.of_nat (length ls + length rs + 1) ≤ im.
Proof using Hlm Him.
  intros [Hl Hr Hc Hco Hol Hor Hov Hbe Hfl Hfr Hcf Hnd Hkey] Hri. simpl in *.
  destruct Hc as ((d & Hd & Hes) & Hls & Hrs & Hup). destruct Hco as (lo' & hi' & Hco & Hord).
  destruct Hcf as (Hsz & Hfull & Hcf).
  assert (Hnd' : NoDup (p :: flat (pids h) (ls ++ (k, l) :: (m, r) :: rs) ++ cpids up)).
  { eapply NoDup_Permutation_proper; [|exact Hnd]. rewrite flat_app, !flat_cons. simpl. solve_Permutation. }
  apply NoDup_cons in Hnd' as [Hp Hnd'].
  assert (Hlen : length (links ls ++ (k, root l) :: links rs) = (length ls + length rs + 1)%nat).
  { rewrite length_app. simpl. rewrite !links_length. lia. }
  destruct (int_InsertNodeAfter d _ _ _ (length ls) k (root l) m (root r) Hes) as (d' & E & Hd').
  { rewrite lookup_app_r, links_length, Nat.sub_diag by (rewrite links_length; lia). done. }
  { change ((k, root l) :: links rs) with (links ((k, l) :: rs)). rewrite <-links_app. apply roots_nodup.
    eapply sublist_NoDup; [exact (proj1 (proj1 (NoDup_app _ _) Hnd'))|].
    rewrite !flat_app, !flat_cons. apply sublist_app; [done|]. apply sublist_app; [done|].
    by apply sublist_inserts_l. }
  { rewrite Hlen. change (InternalPage.Capacity) with 254 in Him. change InternalPage.kMaxSize with 254. lia. }
  { done. } { done. }
  replace (S (length (links ls ++ (k, root l) :: links rs))) with (length ls + length rs + 2)%nat in E by lia.
  replace (take (S (length ls)) _ ++ _) with (links (ls ++ (k, l) :: (m, r) :: rs)) in Hd'.
  2:{ rewrite links_app. simpl. rewrite <-(links_length ls). rewrite take_app_ge, drop_app_ge by lia.
      replace (S (length (links ls)) - length (links ls))%nat with 1%nat by lia. simpl.
      rewrite firstn_O. by rewrite <-app_assoc, drop_0. }
  assert (Hfr' : ∀ q, q ∈ flat (pids h) (ls ++ (k, l) :: (m, r) :: rs) ++ cpids up → <[p := d']> H !! q = H !! q).
  { intros q Hq. rewrite lookup_insert_ne; [done|]. by intros ->. }
  exists d, d', lo', hi'. split_and!; [done|done|apply (int_blen _ _ _ _ _ Hd')| | |lia|lia].
  - split.
    + simpl. split; [exists d'; by rewrite lookup_insert_eq|].
      eapply reps_frame; [intros q Hq; apply Hfr', elem_of_app; by left|].
      apply reps_app. split; [done|]. simpl. done.
    + rewrite first_leaf_node. eapply crep_frame; [|exact Hup]. intros q Hq. apply Hfr', elem_of_app. by right.
    + done.
    + simpl. split; [by destruct ls|]. rewrite ivls_app. simpl. by apply (ordl_split _ _ _ _ lo hi).
    + done.
    + simpl. by constructor.
  - intros e. rewrite elem_of_app, !elem_of_cons. intros [?|[->|[->|?]]]; [set_solver|done|done|set_solver].
Qed.

(** *** Splitting the parent *)

Lemma take_ne_nil {A} (k : nat) (l : list A) : (0 < k)%nat → l ≠ [] → take k l ≠ [].
Proof. destruct k; [lia|]. by destruct l. Qed.

Lemma split_twin {h} H H' (up : ctx (S h)) lo hi p (cs a b q : list (Z * tree h)) k t n d1 d2 :
  zip H up lo hi ((p, cs) : tree (S h)) → (∀ e, e ∈ cs → full h e.2) → cs = a ++ b → b = (k, t) :: q →
  a ≠ [] → min_size im ≤ Z.of_nat (length a) ≤ im → min_size im ≤ Z.of_nat (length b) ≤ im →
  n ∉ p :: flat (pids h) cs ++ cpids up → is_i64 n → is_i64 k →
  H' !! p = Some d1 → int_rep d1 (cpar up) im (links a) →
  H' !! n = Some d2 → int_rep d2 (cpar up) im (links b) →
  reparented n (roots b) [p; n] H H' →
  twin H' up lo hi ((p, a) : tree (S h)) k ((n, b) : tree (S h)).
Proof using Hlm Him.
  intros [Hrep Hcrep Hco Hord Hcf Hnd] Hfull -> -> Hane Hla Hlb Hn Hni Hk Hp1 Hd1 Hn1 Hd2 [Hre1 Hre2].
  simpl in Hrep, Hord, Hnd. destruct Hrep as [_ Hreps]. apply reps_app in Hreps as [Hra Hrb].
  destruct Hord as [_ Hord]. rewrite ivls_app in Hord. rewrite flat_app in Hnd, Hn.
  assert (Hord' := proj1 (ordl_cut _ _ _ k (λ lo hi, ord h lo hi t) (ivls (ord h) q)
    (λ E, Hane (fmap_nil_inv _ _ E))) Hord).
  destruct Hord' as (Hoa & Hob & Hov & Hbe).
  apply NoDup_cons in Hnd as [Hpn Hnd]. rewrite <-app_assoc in Hnd.
  apply NoDup_app in Hnd as (Hnda & Hdj & Hndb). pose proof Hndb as (Hndb1 & Hdjb & Hndc)%NoDup_app.
  assert (Hpx : ∀ x, x ∈ flat (pids h) a ∨ x ∈ flat (pids h) ((k, t) :: q) ∨ x ∈ cpids up → x ≠ p ∧ x ≠ n).
  { rewrite elem_of_cons, !elem_of_app in Hn. rewrite !elem_of_app in Hpn. naive_solver. }
  assert (Hout : ∀ x, x ∈ flat (pids h) a ∨ x ∈ cpids up → H' !! x = H !! x).
  { intros x Hx. apply Hre2.
    - intros Hin%roots_in_pids. destruct Hx as [Hx|Hx]; [|by apply (Hdjb x)].
      apply (Hdj x); [done|]. apply elem_of_app. by left.
    - intros Hin. destruct (Hpx x) as [? ?]; [naive_solver|]. clear -Hin H0 H1. set_solver. }
  split; [..|exact Hk].
  - simpl. split; [by exists d1|]. eapply reps_frame; [|exact Hra]. auto.
  - split; [by exists d2|].
    eapply (reps_reparent _ _ _ H); [exact Hrb|done|done|done|].
    intros x Hx Hnx. apply Hre2; [done|]. intros Hin. destruct (Hpx x) as [? ?]; [naive_solver|].
    clear -Hin H0 H1. set_solver.
  - replace (first_leaf (S h) (p, a)) with (first_leaf (S h) (p, a ++ (k, t) :: q)) by (by destruct a).
    eapply crep_frame; [|exact Hcrep]. auto.
  - done.
  - simpl. done.
  - simpl. done.
  - done.
  - done.
  - simpl. split; [done|]. set_solver.
  - simpl. split; [done|]. set_solver.
  - done.
  - simpl. rewrite elem_of_cons, !elem_of_app in Hn. rewrite !elem_of_app in Hpn. constructor.
    + rewrite elem_of_app, elem_of_cons, elem_of_app. naive_solver.
    + apply NoDup_app. split_and!; [done| |].
      * intros x Hx. rewrite elem_of_cons. intros [->|?]; [naive_solver|]. by apply (Hdj x).
      * constructor; [|done]. rewrite elem_of_app. naive_solver.
Qed.

(** ** InsertIntoParent *)

Lemma insert_top h fuel H P U n lo hi (l : tree h) m (rt : tree h) :
  twin H (Top h) lo hi l m rt → bounded n (pids h l ++ pids h rt) → APool.addressable n = true →
  held U P → root l ∈ P → room P 1 →
  ∃ H' U', InsertIntoParent (S fuel) (root l) m (root rt) (st H P U n (root l)) = (Val tt, st H' P U' (n + 1) n) ∧
    grown H H' n (n + 1) n (entries h l ++ entries h rt) (pids h l ++ pids h rt) 1 ∧ U' ⊆ U.
Proof using Hlm Him.
  intros Htw Hbd Hn Hh Hlp Hroom.
  destruct (rep_hdr _ _ _ _ _ _ _ (tw_l _ _ _ _ _ _ _ Htw)) as (dl & Hdl & Hhl).
  destruct (rep_hdr _ _ _ _ _ _ _ (tw_r _ _ _ _ _ _ _ Htw)) as (dr & Hdr & Hhr).
  pose proof (root_in_pids h l) as Hinl. pose proof (root_in_pids h rt) as Hinr.
  pose proof (tw_nodup _ _ _ _ _ _ _ Htw) as (_ & Hdj & _)%NoDup_app.
  assert (Hlr : root l ≠ root rt). { intros E. apply (Hdj (root l)); [done|]. rewrite E. set_solver. }
  assert (Hnn : n ∉ pids h l ++ pids h rt) by (intros Hin%Hbd; lia).
  assert (Hnl : n ≠ root l) by (intros ->; set_solver). assert (Hnr : n ≠ root rt) by (intros ->; set_solver).
  pose proof (addressable_i64 _ Hn) as Hni.
  assert (Hrooml : room (P ⊎ {[+ root l +]}) 1) by (by apply room_dup).
  (* the new root *)
  assert (HInit := int_Init (zeros PAGE_SIZE) INVALID_PAGE_ID im (blen_zeros PAGE_SIZE ltac:(done)) ltac:(done)
    ltac:(unfold is_i32; change InternalPage.Capacity with 254 in Him; lia)).
  destruct (int_PopulateNewRoot _ _ _ (root l) m (root rt) HInit) as (dn & k0 & Epop & Hdn).
  { apply (bounded_i64 n _ _ Hn Hbd). set_solver. }
  { apply (tw_key _ _ _ _ _ _ _ Htw). }
  { apply (bounded_i64 n _ _ Hn Hbd). set_solver. }
  set (P1 := P ⊎ {[+ root l +]}) in *.
  destruct (update_at cap lm im (<[n := zeros PAGE_SIZE]> H) (P1 ⊎ {[+ n +]}) ({[n]} ∪ U) (n + 1) (root l)
    n _ _ (λ d, Val (InternalPage.Init INVALID_PAGE_ID im d)) (lookup_insert_eq _ _ _) (in_pins _ _) eq_refl (int_blen _ _ _ _ _ HInit)) as (U1 & E1 & HU1).
  destruct (update_at cap lm im _ (P1 ⊎ {[+ n +]}) U1 (n + 1) (root l)
    n _ dn (InternalPage.PopulateNewRoot (root l) m (root rt)) (lookup_insert_eq (<[n := zeros PAGE_SIZE]> H) n _) (in_pins _ _) Epop (int_blen _ _ _ _ _ Hdn)) as (U2 & E2 & HU2).
  rewrite !insert_insert_eq in E1, E2.
  (* the halves *)
  set (H2 := <[n := dn]> H) in *.
  assert (HH2 : H2 !! root l = Some dl) by (unfold H2; by rewrite lookup_insert_ne).
  destruct (update_at cap lm im H2 P1 (U2 ∖ {[n]}) (n + 1) (root l) (root l) dl _
    (λ d, Val (BPlusTreePage.SetParentPageId n d)) HH2 (in_pins _ _) eq_refl
    (SetParent_blen _ _ (hdr_len _ _ _ _ _ Hhl))) as (U3 & E3 & HU3).
  set (H3 := <[root l := _]> H2) in *.
  assert (HH3 : H3 !! root rt = Some dr) by (unfold H3, H2; by rewrite !lookup_insert_ne).
  destruct (update_at cap lm im H3 (P1 ⊎ {[+ root rt +]}) U3 (n + 1) (root l) (root rt) dr _
    (λ d, Val (BPlusTreePage.SetParentPageId n d)) HH3 (in_pins _ _) eq_refl
    (SetParent_blen _ _ (hdr_len _ _ _ _ _ Hhr))) as (U4 & E4 & HU4).
  eexists _, _. split_and!; [| |shelve].
  - cbn [InsertIntoParent].
    mrun (fetch_ok cap lm im H P U n (root l) (root l) ltac:(eauto) (or_introl Hlp)). fold P1.
    mdo (eapply query_val; [exact Hdl|apply in_pins|by rewrite (hdr_parent _ _ _ _ _ Hhl)]).
    simpl cpar. rewrite Z.eqb_refl. rewrite st_im.
    mdo (apply unwind_Val, new_ok; [exact Hrooml|done]).
    cbn match. mrun E1. mrun E2. rewrite ?insert_insert_eq. fold H2. mdo (apply unpin_dirty, in_pins).
    rewrite pin_unpin. mrun E3.
    mdo (apply unwind_Val, fetch_ok; [eauto|by right]).
    mrun E4. mdo (apply unpin_dirty, in_pins).
    rewrite pin_unpin. unfold set_root. mstep.
    etransitivity; [apply unpin_dirty, in_pins|]. unfold P1. rewrite pin_unpin. done.
  - split.
    + exists (n :: pids h l ++ pids h rt). split; [by apply (new_root_whole H lo hi l m rt n dl dr dn k0)|].
      intros p [->|?]%elem_of_cons; [right; lia|by left].
    + lia.
    + intros p Hp Hpn. assert (p ≠ root rt ∧ p ≠ root l ∧ p ≠ n) as (? & ? & ?).
      { split_and!; [apply (not_in_ne _ _ _ Hp), elem_of_app; by right|apply (not_in_ne _ _ _ Hp), elem_of_app; by left|lia]. }
      unfold H3, H2. by rewrite !lookup_insert_ne.
  Unshelve. sub_solver.
Qed.

(** The parent has room for one more child. *)
Lemma insert_fits {h} H H' (up : ctx (S h)) lo hi p (cs : list (Z * tree h)) n ps j :
  zip H' up lo hi ((p, cs) : tree (S h)) → (∀ e, e ∈ cs → full h e.2) →
  (if is_top up then 2 else min_size im) ≤ Z.of_nat (length cs) ≤ im →
  p :: flat (pids h) cs ++ cpids up ≡ₚ ps → (∀ q, q ≠ p → H' !! q = H !! q) →
  grown H H' n n (croot up p) (cl up ++ flat (entries h) cs ++ cr up) ps j.
Proof.
  intros Hz Hf Hsz Hps Hfr. split; [|lia|].
  - exists (pids (S h) (p, cs) ++ cpids up). split; [|intros q; left; by rewrite <-Hps].
    apply (zip_up _ _ _ _ _ _ ((p, cs) : tree (S h)) Hz). unfold BTreeRep.fits. destruct (is_top up); simpl; done.
  - intros q Hq _. apply Hfr. intros ->. apply Hq. rewrite <-Hps. set_solver.
Qed.

(** The parent is full: its upper half moves to a new node. *)
Lemma split_node {h} H P U n r (up : ctx (S h)) lo hi p (cs : list (Z * tree h)) msg (K : page_id_t → Z → M (t APool.t) ()) :
  zip H up lo hi ((p, cs) : tree (S h)) → (∀ e, e ∈ cs → full h e.2) → Z.of_nat (length cs) = im + 1 →
  bounded n (p :: flat (pids h) cs ++ cpids up) → APool.addressable n = true → p ∈ P → room P 2 →
  ∃ H' U' a k t q, cs = a ++ (k, t) :: q ∧
    twin H' up lo hi ((p, a) : tree (S h)) k ((n, (k, t) :: q) : tree (S h)) ∧
    (x ← bpm pool_new;
     match x with
     | None => exhausted msg
     | Some nid =>
         grand ← query p (λ d, Val (BPlusTreePage.GetParentPageId d));
         update nid (λ d, Val (InternalPage.Init grand im d));;
         MoveHalfTo p nid;;
         up_key ← query nid (λ d, InternalPage.KeyAt d 0);
         unpin nid true;;
         K nid up_key
     end) (st H P U n r) = K n k (st H' P U' (n + 1) r) ∧
    U' ⊆ {[p]} ∪ U ∧ ∀ x, x ∉ p :: flat (pids h) cs ++ cpids up → x ≠ n → H' !! x = H !! x.
Proof using Hlm Him.
  intros Hz Hfull Hlen Hbd Hn Hp Hroom. pose proof (addressable_i64 _ Hn) as Hni.
  destruct (proj1 (rep_node _ _ _ _ _ _ _ _) (z_rep _ _ _ _ _ _ _ Hz)) as [(d & Hd & Hes) Hreps].
  pose proof (z_nodup _ _ _ _ _ _ _ Hz) as Hnd. rewrite pids_node in Hnd.
  apply NoDup_cons in Hnd as [Hpn (Hndc & _)%NoDup_app].
  assert (Hnn : n ∉ p :: flat (pids h) cs ++ cpids up) by (intros Hin%Hbd; lia).
  assert (Hnp : n ≠ p) by (by apply (not_in_ne _ _ _ Hnn), elem_of_cons; left).
  set (j := (length cs / 2)%nat).
  assert (Hmin : min_size im = Z.of_nat j).
  { unfold min_size. rewrite <-Hlen. apply quot_half. }
  assert (Hj : (2 ≤ j ∧ j + j ≤ length cs ≤ S (j + j))%nat).
  { pose proof (min_size_2 im ltac:(lia)). pose proof (Nat.div_mod_eq (length cs) 2).
    pose proof (Nat.mod_upper_bound (length cs) 2). unfold j in *. lia. }
  destruct (drop j cs) as [|[k t] q] eqn:Eb.
  { apply (f_equal length) in Eb. rewrite length_drop in Eb. simpl in Eb. lia. }
  assert (Hla : length (take j cs) = j) by (rewrite length_take_le; lia).
  assert (Hlb : length ((k, t) :: q) = (length cs - j)%nat) by (by rewrite <-Eb, length_drop).
  assert (Ecs : cs = take j cs ++ (k, t) :: q) by (by rewrite <-Eb, take_drop).
  assert (Elinks : drop (length (links cs) / 2) (links cs) = links ((k, t) :: q)).
  { rewrite links_length. fold j. unfold links at 1. by rewrite <-fmap_drop, Eb. }
  assert (Elinks' : take (length (links cs) / 2) (links cs) = links (take j cs)).
  { rewrite links_length. fold j. unfold links at 1. by rewrite <-fmap_take. }
  assert (HInit := int_Init (zeros PAGE_SIZE) (cpar up) im (blen_zeros PAGE_SIZE ltac:(done))
    (hdr_parent_i64 _ _ _ _ _ (ir_hdr _ _ _ _ _ Hes))
    ltac:(unfold is_i32; change InternalPage.Capacity with 254 in Him; lia)).
  destruct (update_at cap lm im (<[n := zeros PAGE_SIZE]> H) (P ⊎ {[+ n +]}) ({[n]} ∪ U) (n + 1) r n _ _
    (λ d, Val (InternalPage.Init (cpar up) im d)) (lookup_insert_eq _ _ _) (in_pins _ _) eq_refl
    (int_blen _ _ _ _ _ HInit)) as (U1 & E1 & HU1). rewrite insert_insert_eq in E1.
  set (H1 := <[n := InternalPage.Init _ _ _]> H) in *.
  assert (HH1 : ∀ x, x ≠ n → H1 !! x = H !! x) by (intros x Hx; unfold H1; by rewrite lookup_insert_ne).
  destruct (MoveHalfTo_ok cap lm im H1 (P ⊎ {[+ n +]}) U1 ({[p; n]} ∪ U) (n + 1) r p n d
    (InternalPage.Init (cpar up) im (zeros PAGE_SIZE)) (cpar up) im (cpar up) im (links cs))
    as (H' & U' & d1 & d2 & E2 & Hp1 & Hd1 & Hn1 & Hd2 & [Hre1 Hre2] & HU2);
    [sub_solver|sub_solver|sub_solver|done|by apply in_pins_l|apply in_pins|by apply room_add
    |by rewrite HH1 by done|apply lookup_insert_eq|done|done|by apply roots_nodup| |].
  { rewrite Elinks. intros c Hc. assert (Hc' : c ∈ roots cs).
    { rewrite Ecs, roots_app. apply elem_of_app. by right. }
    pose proof (roots_in_pids _ _ Hc') as Hin.
    assert (c ≠ n). { intros ->. apply Hnn, elem_of_cons. right. apply elem_of_app. by left. }
    split_and!; [|done|].
    - intros ->. apply Hpn, elem_of_app. by left.
    - destruct (roots_pages _ _ _ _ _ _ _ _ Hreps Hc') as (dc & Hdc & ?). exists dc. by rewrite HH1. }
  rewrite Elinks in Hd2, Hre1, Hre2. rewrite Elinks' in Hd1.
  assert (Hk : InternalPage.KeyAt d2 0 = Val k ∧ is_i64 k).
  { split; [by apply (int_KeyAt _ _ _ _ _ Hd2 0%nat k (root t))|by apply (int_i64 _ _ _ _ _ Hd2 0%nat k (root t))]. }
  assert (min_size im ≤ Z.of_nat (length (take j cs)) ≤ im) by (rewrite Hmin, Hla; lia).
  assert (min_size im ≤ Z.of_nat (length ((k, t) :: q)) ≤ im) by (rewrite Hmin, Hlb; lia).
  exists H', (U' ∖ {[n]}), (take j cs), k, t, q. split_and!; [done| | |sub_solver|].
  - eapply (split_twin H H' up lo hi p cs _ _ q k t n d1 d2); try done.
    + intros E. rewrite E in Hla. simpl in Hla. lia.
    + by destruct Hk.
    + split; [intros c Hc|intros x Hx1 Hx2].
      * rewrite Hre1 by done. rewrite HH1; [done|]. intros ->. apply Hnn, elem_of_cons. right. apply elem_of_app. left.
        apply roots_in_pids. rewrite Ecs, roots_app. apply elem_of_app. by right.
      * rewrite Hre2 by done. apply HH1. intros ->. apply Hx2. by do 2 constructor.
  - mdo (apply new_ok; [by apply (room_weaken cap P 2); [|lia]|done]). cbn match.
    mdo (eapply query_val; [rewrite lookup_insert_ne by done; exact Hd|by apply in_pins_l|
      by rewrite (hdr_parent _ _ _ _ _ (ir_hdr _ _ _ _ _ Hes))]).
    mrun E1. mrun E2. mdo (eapply query_val; [exact Hn1|apply in_pins|by destruct Hk]).
    mdo (apply unpin_dirty, in_pins). by rewrite pin_unpin.
  - intros x Hx Hxn. rewrite Hre2; [by apply HH1| |].
    + intros Hin%roots_in_pids. apply Hx, elem_of_cons. right. apply elem_of_app. left. rewrite Ecs, flat_app.
      apply elem_of_app. by right.
    + intros [->|[->|?%elem_of_nil]%elem_of_cons]%elem_of_cons; [|done..]. apply Hx, elem_of_cons. by left.
Qed.

(** Page and entry lists of a node with a new child, and of its two halves. *)
Lemma node_pids {h} p (ls : list (Z * tree h)) k l m rt rs (up : ctx (S h)) :
  p :: flat (pids h) (ls ++ (k, l) :: (m, rt) :: rs) ++ cpids up ≡ₚ
  pids h l ++ pids h rt ++ cpids (Up h p ls k rs up).
Proof. rewrite flat_app, !flat_cons. simpl. solve_Permutation. Qed.

Lemma node_entries {h} p (ls : list (Z * tree h)) k l m rt rs (up : ctx (S h)) :
  cl up ++ flat (entries h) (ls ++ (k, l) :: (m, rt) :: rs) ++ cr up =
  cl (Up h p ls k rs up) ++ (entries h l ++ entries h rt) ++ cr (Up h p ls k rs up).
Proof. rewrite flat_app, !flat_cons. simpl. by rewrite <-!app_assoc. Qed.

Lemma halves_pids {h} p n (a b : list (Z * tree h)) (up : ctx (S h)) :
  pids (S h) ((p, a) : tree (S h)) ++ pids (S h) ((n, b) : tree (S h)) ++ cpids up ≡ₚ
  n :: p :: flat (pids h) (a ++ b) ++ cpids up.
Proof. rewrite !pids_node, flat_app. simpl. solve_Permutation. Qed.

Lemma InsertIntoParent_ok h (c : ctx h) : ∀ fuel H P U n lo hi l m (rt : tree h),
  twin H c lo hi l m rt → bounded n (pids h l ++ pids h rt ++ cpids c) →
  APool.addressable (n + Z.of_nat (depth c)) = true → (depth c < fuel)%nat →
  held U P → root l ∈ P → room P (3 + Z.of_nat (depth c)) →
  ∃ H' U' n' r', InsertIntoParent fuel (root l) m (root rt) (st H P U n (croot c (root l))) =
      (Val tt, st H' P U' n' r') ∧
    grown H H' n n' r' (cl c ++ (entries h l ++ entries h rt) ++ cr c) (pids h l ++ pids h rt ++ cpids c)
      (S (depth c)) ∧ U' ⊆ U.
Proof using Hlm Him.
  induction c as [h|h p ls k rs up IH]; intros fuel H P U n lo hi l m rt Htw Hbd Hn Hfuel Hh Hlp Hroom;
    (destruct fuel as [|fuel]; [simpl in Hfuel; lia|]).
  { simpl in *. rewrite !app_nil_r in *. rewrite Z.add_0_r in Hn.
    destruct (insert_top h fuel H P U n lo hi l m rt Htw Hbd Hn Hh Hlp) as (H' & U' & E & Hg & HU);
      [by apply (room_weaken cap P 3); [|lia]|]. eauto 10. }
  change (depth (Up h p ls k rs up)) with (S (depth up)) in *.
  change (croot (Up h p ls k rs up) (root l)) with (croot up p).
  assert (Hp : 0 ≤ p < n) by (apply Hbd; simpl; rewrite !elem_of_app; right; right; by left).
  assert (Hn0 : APool.addressable n = true) by (apply (addressable_le _ _ Hn); lia).
  destruct (twin_parent _ _ _ _ _ _ _ _ _ _ _ Htw) as (d & d' & lo' & hi' & Hd & Eins & Hl' & Hz & Hfull & Hsz).
  { apply (bounded_i64 n _ _ Hn0 Hbd). rewrite !elem_of_app. right; left. apply root_in_pids. }
  set (cs := ls ++ (k, l) :: (m, rt) :: rs) in *.
  assert (Hlen : length cs = (length ls + length rs + 2)%nat) by (unfold cs; rewrite length_app; simpl; lia).
  destruct (rep_hdr _ _ _ _ _ _ _ (tw_l _ _ _ _ _ _ _ Htw)) as (dl & Hdl & Hhl). simpl in Hhl.
  set (P1 := P ⊎ {[+ root l +]}). set (P2 := P1 ⊎ {[+ p +]}).
  assert (Hr1 : room P1 (4 + Z.of_nat (depth up))).
  { apply room_dup; [done|]. eapply room_weaken; [exact Hroom|lia]. }
  destruct (on_page_ok cap lm im H P2 U n (croot up p) p d d' _ _ Hd (in_pins _ _) Eins Hl') as (U1 & E1 & _ & HU1).
  set (H1 := <[p := d']> H) in *.
  assert (Hfr1 : ∀ x, x ≠ p → H1 !! x = H !! x) by (intros x Hx; unfold H1; by rewrite lookup_insert_ne).
  assert (Hps : p :: flat (pids h) cs ++ cpids up ≡ₚ pids h l ++ pids h rt ++ cpids (Up h p ls k rs up)) by apply node_pids.
  rewrite <-(node_entries p ls k l m rt rs up). fold cs.
  (* the steps around the split *)
  assert (Hrun : ∀ (K : M (t APool.t) ()) H' U' n' r', U' ⊆ {[p]} ∪ U →
    (if im <? Z.of_nat (length cs) then K else mret tt : M (t APool.t) ()) (st H1 P2 U1 n (croot up p)) =
      (Val tt, st H' P2 U' n' r') →
    (unwind (root l) false (fetch p);; new_size ← on_page p (InternalPage.InsertNodeAfter (root l) m (root rt));
     (if im <? new_size then unwind (root l) false (unwind p true K) else mret tt);;
     unpin p true;; unpin (root l) false) (st H P1 U n (croot up p)) =
      (Val tt, st H' P (U' ∖ {[p]}) n' r')).
  { intros K H' U' n' r' HU' EK. mdo (apply unwind_Val, fetch_ok; [eauto|right; eapply room_weaken; [exact Hr1|lia]]).
    mrun E1. rewrite <-Hlen.
    rewrite (bind_Val _ _ _ tt (st H' P2 U' n' r')); [|destruct (im <? Z.of_nat (length cs)); [by do 2 apply unwind_Val|done]].
    mdo (apply unpin_dirty, in_pins). unfold P2. rewrite pin_unpin. apply unpin_pinned.
    intros x Hx. apply Hh. clear -HU' Hx. set_solver. }
  assert (Hall : ∀ H' U' n' r', U' ⊆ {[p]} ∪ U →
    (if im <? Z.of_nat (length cs) then
       new_internal ← bpm pool_new;
       match new_internal with
       | None => exhausted "BPlusTree::InsertIntoParent: buffer pool exhausted splitting internal node"
       | Some nid =>
           grand ← query p (λ d, Val (BPlusTreePage.GetParentPageId d));
           update nid (λ d, Val (InternalPage.Init grand im d));;
           MoveHalfTo p nid;;
           up_key ← query nid (λ d, InternalPage.KeyAt d 0);
           unpin nid true;;
           InsertIntoParent fuel p up_key nid
       end
     else mret tt : M (t APool.t) ()) (st H1 P2 U1 n (croot up p)) = (Val tt, st H' P2 U' n' r') →
    InsertIntoParent (S fuel) (root l) m (root rt) (st H P U n (croot up p)) = (Val tt, st H' P (U' ∖ {[p]}) n' r')).
  { intros H' U' n' r' HU' EK. cbn [InsertIntoParent].
    mrun (fetch_ok cap lm im H P U n (croot up p) (root l) ltac:(eauto) (or_introl Hlp)). fold P1.
    mdo (eapply query_val; [exact Hdl|apply in_pins|by rewrite (hdr_parent _ _ _ _ _ Hhl)]).
    rewrite st_im, (proj2 (Z.eqb_neq _ _)) by (unfold INVALID_PAGE_ID; lia). by apply Hrun. }
  destruct (Z.ltb_spec im (Z.of_nat (length cs))) as [Hgt|Hle].
  - destruct (split_node H1 P2 U1 n (croot up p) up lo' hi' p cs
      "BPlusTree::InsertIntoParent: buffer pool exhausted splitting internal node"
      (λ nid k, InsertIntoParent fuel p k nid) Hz Hfull ltac:(lia)) as (H2 & U2 & a & k' & t & q & Ecs & Htw' & E2 & HU2 & Hfr2);
      [intros x Hx; apply Hbd; by rewrite <-Hps|done|apply in_pins|by apply room_add; eapply room_weaken; [exact Hr1|lia]|].
    destruct (IH fuel H2 P2 U2 (n + 1) lo' hi' _ k' _ Htw') as (H3 & U3 & n3 & r3 & E3 & Hg & HU3).
    + intros x. rewrite halves_pids, <-Ecs, elem_of_cons. intros [->|Hx]; [lia|].
      rewrite Hps in Hx. apply Hbd in Hx. lia.
    + by replace (n + 1 + Z.of_nat (depth up)) with (n + Z.of_nat (S (depth up))) by lia.
    + lia.
    + intros x Hx. assert (x = p ∨ x ∈ U) as [->|?] by (clear -HU1 HU2 Hx; set_solver); [apply in_pins|].
      by do 2 apply in_pins_l; apply Hh.
    + apply in_pins.
    + apply room_add. eapply room_weaken; [exact Hr1|lia].
    + exists H3, (U3 ∖ {[p]}), n3, r3. split_and!; [apply Hall; [sub_solver|]; by rewrite E2| |sub_solver].
      destruct Hg as [(ps' & Hw & Hps') Hnx Hfr]. split; [exists ps'; split|lia|].
      * change (entries (S h) ((p, a) : tree (S h))) with (flat (entries h) a) in Hw.
        change (entries (S h) ((n, (k', t) :: q) : tree (S h))) with (flat (entries h) ((k', t) :: q)) in Hw.
        by rewrite <-flat_app, <-Ecs in Hw.
      * intros x Hx. apply Hps' in Hx as [Hx|?]; [|right; lia].
        rewrite halves_pids, <-Ecs, elem_of_cons in Hx. destruct Hx as [->|Hx]; [right; lia|left; by rewrite <-Hps].
      * intros x Hx Hxn. assert (x ∉ p :: flat (pids h) cs ++ cpids up) by (by rewrite Hps).
        rewrite Hfr; [rewrite Hfr2; [apply Hfr1|done|lia]| |lia].
        -- intros ->. apply H0, elem_of_cons. by left.
        -- rewrite halves_pids, <-Ecs, elem_of_cons. intros [->|?]; [lia|done].
  - exists H1, (U1 ∖ {[p]}), n, (croot up p). split_and!; [by apply Hall| |sub_solver].
    eapply insert_fits; [exact Hz|done| |exact Hps|exact Hfr1].
    rewrite Hlen in Hle |- *. destruct (is_top up); lia.
Qed.

(** ** Insert *)

(** The entries of a leaf replaced. *)
Lemma zip_leaf H (c : ctx 0) lo hi p es es' d :
  zip H c lo hi ((p, es) : tree 0) → leaf_rep d (cpar c) lm (cnext c) es' → sorted es' → within lo hi es' →
  zip (<[p := d]> H) c lo hi ((p, es') : tree 0).
Proof.
  intros [Hrep Hcrep Hco Ho Hcf Hnd] Hd Hs Hw. simpl in *. apply NoDup_cons in Hnd as [Hp Hnd]. split; simpl; try done.
  - exists d. by rewrite lookup_insert_eq.
  - eapply crep_frame; [|exact Hcrep]. intros q Hq. rewrite lookup_insert_ne; [done|]. by intros ->.
  - by constructor.
Qed.

Lemma within_ins lo hi key v (es : list (Z * string)) :
  within lo hi es → above lo key → below hi key → within lo hi (ins key v es).
Proof. intros Hw Ha Hb e [->|He]%elem_of_ins; [done|by apply Hw]. Qed.

Lemma leaf_twin H H' (c : ctx 0) lo hi p n es0 a k v q d1 d2 :
  zip H c lo hi ((p, es0) : tree 0) → sorted (a ++ (k, v) :: q) → within lo hi (a ++ (k, v) :: q) → a ≠ [] →
  min_size lm ≤ Z.of_nat (length a) ≤ lm → min_size lm ≤ Z.of_nat (length ((k, v) :: q)) ≤ lm →
  n ∉ p :: cpids c → H' !! p = Some d1 → leaf_rep d1 (cpar c) lm n a →
  H' !! n = Some d2 → leaf_rep d2 (cpar c) lm (cnext c) ((k, v) :: q) → (∀ x, x ≠ p → x ≠ n → H' !! x = H !! x) →
  twin H' c lo hi ((p, a) : tree 0) k ((n, (k, v) :: q) : tree 0).
Proof.
  intros [Hrep Hcrep Hco Ho Hcf Hnd] Hs Hw Ha Hla Hlb Hn Hp1 Hd1 Hn1 Hd2 Hfr. simpl in *.
  destruct (sorted_halves _ _ _ _ Hs) as (Hs1 & Hs2 & Hlt & Hge). apply NoDup_cons in Hnd as [Hpc Hnd].
  assert (Hk : above lo k ∧ below hi k) by (apply (Hw (k, v)); set_solver).
  split; simpl; try done.
  - by exists d1.
  - by exists d2.
  - eapply crep_frame; [|exact Hcrep]. intros x Hx. apply Hfr; intros ->; [done|]. set_solver.
  - split; [done|]. intros e He. split; [apply Hw; set_solver|by apply Hlt].
  - split; [done|]. intros e He. split; [by apply Hge|apply Hw; set_solver].
  - destruct a as [|e a]; [done|]. destruct (Hw e) as [Hae _]; [set_solver|].
    specialize (Hlt e ltac:(set_solver)). destruct lo; simpl in *; [lia|done].
  - apply Hk.
  - repeat constructor; set_solver.
  - by eapply (leaf_i64 _ _ _ _ _ Hd2 0%nat k v).
Qed.

(** An overfull leaf: its upper half moves to a new one, which stays pinned. *)
Lemma split_leaf H P U n r (c : ctx 0) lo hi p es0 es d msg (K : page_id_t → Z → M (t APool.t) ()) :
  zip H c lo hi ((p, es0) : tree 0) → H !! p = Some d → leaf_rep d (cpar c) lm (cnext c) es →
  sorted es → within lo hi es → Z.of_nat (length es) = lm + 1 →
  bounded n (p :: cpids c) → APool.addressable n = true → p ∈ P → room P 1 →
  ∃ H' U' a k v q, es = a ++ (k, v) :: q ∧
    twin H' c lo hi ((p, a) : tree 0) k ((n, (k, v) :: q) : tree 0) ∧
    (x ← bpm pool_new;
     match x with
     | None => exhausted msg
     | Some nid =>
         parent ← query p (λ d, Val (BPlusTreePage.GetParentPageId d));
         update nid (λ d, Val (LeafPage.Init parent lm d));;
         move_leaf p nid (LeafPage.MoveHalfTo nid);;
         middle_key ← query nid (λ d, LeafPage.KeyAt d 0);
         K nid middle_key
     end) (st H P U n r) = K n k (st H' (P ⊎ {[+ n +]}) U' (n + 1) r) ∧
    U' ⊆ {[p; n]} ∪ U ∧ ∀ x, x ∉ p :: cpids c → x ≠ n → H' !! x = H !! x.
Proof using Hlm Him.
  intros Hz Hd Hes Hs Hw Hlen Hbd Hn Hp Hroom. pose proof (addressable_i64 _ Hn) as Hni.
  assert (Hnn : n ∉ p :: cpids c) by (intros Hin%Hbd; lia).
  assert (Hnp : n ≠ p) by (by apply (not_in_ne _ _ _ Hnn), elem_of_cons; left).
  set (j := (length es / 2)%nat).
  assert (Hmin : min_size lm = Z.of_nat j).
  { unfold min_size. rewrite <-Hlen. apply quot_half. }
  assert (Hj : (2 ≤ j ∧ j + j ≤ length es ≤ S (j + j))%nat).
  { pose proof (min_size_2 lm ltac:(lia)). pose proof (Nat.div_mod_eq (length es) 2).
    pose proof (Nat.mod_upper_bound (length es) 2). unfold j in *. lia. }
  assert (HInit := leaf_Init (zeros PAGE_SIZE) (cpar c) lm (blen_zeros PAGE_SIZE ltac:(done))
    (hdr_parent_i64 _ _ _ _ _ (lf_hdr _ _ _ _ _ Hes))
    ltac:(unfold is_i32; change LeafPage.Capacity with 50 in Hlm; lia)).
  destruct (update_at cap lm im (<[n := zeros PAGE_SIZE]> H) (P ⊎ {[+ n +]}) ({[n]} ∪ U) (n + 1) r n _ _
    (λ d, Val (LeafPage.Init (cpar c) lm d)) (lookup_insert_eq _ _ _) (in_pins _ _) eq_refl
    (leaf_blen _ _ _ _ _ HInit)) as (U1 & E1 & HU1). rewrite insert_insert_eq in E1.
  set (H1 := <[n := LeafPage.Init _ _ _]> H) in *.
  assert (HH1 : ∀ x, x ≠ n → H1 !! x = H !! x) by (intros x Hx; unfold H1; by rewrite lookup_insert_ne).
  destruct (leaf_MoveHalfTo _ _ _ _ _ _ _ _ _ _ Hes HInit n eq_refl Hni (leaf_next_i64 _ _ _ _ _ Hes))
    as (d1 & d2 & Emv & Hd1 & Hd2). fold j in Hd1, Hd2.
  destruct (move_leaf_ok cap lm im H1 (P ⊎ {[+ n +]}) U1 ({[p; n]} ∪ U) (n + 1) r p n d
    (LeafPage.Init (cpar c) lm (zeros PAGE_SIZE)) d1 d2 (LeafPage.MoveHalfTo n))
    as (U2 & E2 & HU2); [sub_solver|sub_solver|sub_solver|done|by rewrite HH1|apply lookup_insert_eq
    |by apply in_pins_l|apply in_pins|done|apply (leaf_blen _ _ _ _ _ Hd1)|apply (leaf_blen _ _ _ _ _ Hd2)|].
  set (H2 := <[n := d2]> (<[p := d1]> H1)) in *.
  assert (Hla : length (take j es) = j) by (rewrite length_take_le; lia).
  assert (Hlb : length (drop j es) = (length es - j)%nat) by (by rewrite length_drop).
  assert (Ees : es = take j es ++ drop j es) by (by rewrite take_drop).
  destruct (drop j es) as [|[k v] q]; [simpl in Hlb; lia|].
  exists H2, U2, (take j es), k, v, q. split_and!; [done| | |done|].
  - rewrite Ees in Hs, Hw. eapply (leaf_twin H H2 c lo hi p n es0 _ k v q d1 d2); try done.
    + intros E. rewrite E in Hla. simpl in Hla. lia.
    + rewrite Hmin, Hla. lia.
    + rewrite Hmin, Hlb. lia.
    + unfold H2. by rewrite lookup_insert_ne, lookup_insert_eq.
    + apply lookup_insert_eq.
    + intros x Hx1 Hx2. unfold H2. rewrite !lookup_insert_ne by done. by apply HH1.
  - mdo (apply new_ok; done). cbn match.
    mdo (eapply query_val; [rewrite lookup_insert_ne by done; exact Hd|by apply in_pins_l|
      by rewrite (hdr_parent _ _ _ _ _ (lf_hdr _ _ _ _ _ Hes))]).
    mrun E1. mrun E2. mdo (eapply query_val; [apply lookup_insert_eq|apply in_pins|by apply (leaf_KeyAt _ _ _ _ _ Hd2 0%nat k v)]).
    done.
  - intros x Hx Hxn. unfold H2. rewrite !lookup_insert_ne; [by apply HH1| |done].
    intros ->. apply Hx, elem_of_cons. by left.
Qed.

Lemma fits_grow (c : ctx 0) p (es es' : list (Z * string)) :
  fits c ((p, es) : tree 0) → (length es ≤ length es')%nat → Z.of_nat (length es') ≤ lm → fits c ((p, es') : tree 0).
Proof. unfold BTreeRep.fits. destruct (is_top c); simpl; lia. Qed.

Lemma Insert_ok fuel key v H P U n r es ps :
  whole H r es ps → r ≠ INVALID_PAGE_ID → bounded n ps →
  APool.addressable (n + 1 + Z.of_nat (Nat.log2 (length es))) = true → (Nat.log2 (length es) < fuel)%nat →
  held U P → room P (5 + Z.of_nat (Nat.log2 (length es))) → is_i64 key → ssize v ≤ MAX_VALUE_SIZE →
  ∃ H' U' n' r', Insert fuel key v (st H P U n r) =
      (Val (bool_decide (look key es = None)), st H' P U' n' r') ∧
    grown H H' n n' r' (ins key v es) ps (2 + Nat.log2 (length es)) ∧ U' ⊆ U.
Proof using Hlm Him.
  intros Hw Hr Hbd Hn Hfuel Hh Hroom Hk Hv.
  destruct (FindLeaf_ok cap lm im ltac:(lia) ltac:(lia) fuel key H P U n r es ps Hw ltac:(lia) Hh) as (c & lo & hi & [p es0] & E & Ha & Hlo & Hhi);
    [eapply room_weaken; [exact Hroom|lia]|].
  destruct (at_leaf_page _ _ _ _ _ _ _ _ _ _ Ha) as (d & Hd & Hrep & Hs). simpl in Hd, Hrep, Hs, E.
  destruct Ha as [Hz Hf Hro Hes Hps Hdep]. simpl in Hz, Hro, Hes, Hps.
  pose proof (z_ord _ _ _ _ _ _ _ Hz) as [_ Hwi]. simpl in Hwi.
  assert (Hlk : look key es = look key es0) by (rewrite <-Hes; by apply look_mid, (cord_apart _ _ _ _ (z_cord _ _ _ _ _ _ _ Hz))).
  assert (Hins : ins key v es = cl c ++ ins key v es0 ++ cr c).
  { rewrite <-Hes. by apply ins_mid, (cord_apart _ _ _ _ (z_cord _ _ _ _ _ _ _ Hz)). }
  assert (Hle0 : Z.of_nat (length es0) ≤ lm) by (unfold BTreeRep.fits in Hf; destruct (is_top c); simpl in Hf; lia).
  destruct (leaf_Insert d _ _ _ _ key v Hrep Hs Hk Hv) as (d' & Eins & Hrep').
  { change LeafPage.kMaxSize with 50. change LeafPage.Capacity with 50 in Hlm. lia. }
  pose proof (length_ins key v es0 Hs) as Hlen.
  set (P1 := P ⊎ {[+ p +]}) in *.
  destruct (on_page_ok cap lm im H P1 U n r p d d' _ (LeafPage.Insert key v) Hd (in_pins _ _) Eins (leaf_blen _ _ _ _ _ Hrep'))
    as (U1 & E1 & _ & HU1).
  set (H1 := <[p := d']> H) in *. set (es1 := ins key v es0) in *.
  assert (Hz1 : zip H1 c lo hi ((p, es1) : tree 0)).
  { apply (zip_leaf _ _ _ _ _ es0); [done|done|by apply sorted_ins|by apply within_ins]. }
  assert (Hret : bool_decide (look key es = None) = (Z.of_nat (length es0) <? Z.of_nat (length es1))).
  { rewrite Hlk. destruct (look key es0) eqn:El; rewrite Hlen; symmetry; [apply Z.ltb_ge|apply Z.ltb_lt]; lia. }
  (* the whole call from the split on *)
  assert (Hrun : ∀ (K : M (t APool.t) ()) H' U' n' r',
    (if lm <? Z.of_nat (length es1) then K else mret tt : M (t APool.t) ()) (st H1 P1 U1 n r) = (Val tt, st H' P1 U' n' r') →
    (old_size ← query p (λ d, Val (BPlusTreePage.GetSize d));
     new_size ← unwind p false (on_page p (LeafPage.Insert key v));
     (if lm <? new_size then unwind p true K else mret tt);;
     unpin p true;;
     mret (old_size <? new_size)) (st H P1 U n r) =
      (Val (bool_decide (look key es = None)), st H' P (U' ∖ {[p]}) n' r')).
  { intros K H' U' n' r' EK.
    mdo (eapply query_val; [exact Hd|apply in_pins|by rewrite (leaf_GetSize _ _ _ _ _ Hrep)]).
    mdo (by apply unwind_Val).
    rewrite (bind_Val _ _ _ tt (st H' P1 U' n' r')); [|destruct (lm <? Z.of_nat (length es1)); [by apply unwind_Val|done]].
    mdo (apply unpin_dirty, in_pins). unfold P1. by rewrite pin_unpin, Hret. }
  unfold Insert. mstep. rewrite st_empty, (proj2 (Z.eqb_neq _ _)) by done. mrun E. simpl root. fold P1. rewrite st_lm.
  destruct (Z.ltb_spec lm (Z.of_nat (length es1))) as [Hgt|Hle].
  - assert (Hlen1 : Z.of_nat (length es1) = lm + 1) by (destruct (look key es0); lia).
    destruct (split_leaf H1 P1 U1 n r c lo hi p es1 es1 d' "BPlusTree::Insert: buffer pool exhausted splitting leaf"
      (λ nid k, unwind nid true (InsertIntoParent fuel p k nid);; unpin nid true))
      as (H2 & U2 & a & k & w & q & Ees & Htw & E2 & HU2 & Hfr2);
      [done|apply lookup_insert_eq|done|by apply sorted_ins|by apply within_ins|done| |
       apply (addressable_le _ _ Hn); destruct (whole_root _ _ _ _ _ _ Hw) as [_ Hin%Hbd]; lia|apply in_pins|
       apply room_add; eapply room_weaken; [exact Hroom|lia]|].
    { intros x Hx. apply Hbd. by rewrite <-Hps. }
    set (P2 := P1 ⊎ {[+ n +]}) in *.
    destruct (InsertIntoParent_ok 0 c fuel H2 P2 U2 (n + 1) lo hi _ k _ Htw) as (H3 & U3 & n3 & r3 & E3 & Hg & HU3).
    { intros x Hx. simpl in Hx. rewrite !elem_of_cons in Hx.
      assert (x = n ∨ x ∈ ps) as [->|Hx'%Hbd]; [|destruct (whole_root _ _ _ _ _ _ Hw) as [_ Hin%Hbd]; lia|lia].
      rewrite <-Hps, elem_of_cons. tauto. }
    { apply (addressable_le _ _ Hn). destruct (whole_root _ _ _ _ _ _ Hw) as [_ Hin%Hbd]. lia. }
    { lia. }
    { intros x Hx. assert (x = p ∨ x = n ∨ x ∈ U) as [->|[->|?]] by (clear -HU1 HU2 Hx; set_solver).
      - apply in_pins_l, in_pins.
      - apply in_pins.
      - by do 2 apply in_pins_l; apply Hh. }
    { apply in_pins_l, in_pins. }
    { do 2 apply room_add. eapply room_weaken; [exact Hroom|lia]. }
    simpl root in E3. rewrite Hro in E3.
    exists H3, (U3 ∖ {[n]} ∖ {[p]}), n3, r3. split_and!; [| |sub_solver].
    + apply Hrun. rewrite E2. mdo (by apply unwind_Val). etransitivity; [apply unpin_dirty, in_pins|].
      unfold P2. by rewrite pin_unpin.
    + destruct Hg as [(ps' & Hw' & Hps') Hnx Hfr]. split; [exists ps'; split|lia|].
      * rewrite Hins, Ees. exact Hw'.
      * intros x Hx. apply Hps' in Hx as [Hx|?]; [|right; lia]. simpl in Hx. rewrite !elem_of_cons in Hx.
        rewrite <-Hps, elem_of_cons. destruct Hx as [->|[->|?]]; [tauto|right; lia|tauto].
      * intros x Hx Hxn. rewrite <-Hps in Hx. rewrite Hfr; [rewrite Hfr2; [|done|lia]| |lia].
        -- unfold H1. rewrite lookup_insert_ne; [done|]. intros ->. apply Hx. by left.
        -- simpl. rewrite !elem_of_cons. rewrite elem_of_cons in Hx. intros [->|[->|?]]; [tauto|lia|tauto].
  - exists H1, (U1 ∖ {[p]}), n, r. split_and!; [by apply Hrun| |sub_solver].
    split; [|lia|].
    + exists (p :: cpids c). rewrite Hins. split; [|intros x; left; by rewrite <-Hps].
      rewrite <-Hro. apply (zip_up _ _ _ _ _ _ ((p, es1) : tree 0) Hz1).
      apply (fits_grow c p es0); [done| |done]. destruct (look key es0); lia.
    + intros x Hx _. unfold H1. rewrite lookup_insert_ne; [done|]. intros ->. apply Hx. rewrite <-Hps. by left.
Qed.

Lemma Insert_empty fuel key v H P U n :
  APool.addressable n = true → held U P → room P 1 → is_i64 key → ssize v ≤ MAX_VALUE_SIZE →
  ∃ H' U', Insert fuel key v (st H P U n INVALID_PAGE_ID) = (Val true, st H' P U' (n + 1) n) ∧
    grown H H' n (n + 1) n [(key, v)] [] 1 ∧ U' ⊆ U.
Proof using Hlm Him.
  intros Hn Hh Hroom Hk Hv.
  assert (HInit := leaf_Init (zeros PAGE_SIZE) INVALID_PAGE_ID lm (blen_zeros PAGE_SIZE ltac:(done)) ltac:(done)
    ltac:(unfold is_i32; change LeafPage.Capacity with 50 in Hlm; lia)).
  destruct (update_at cap lm im (<[n := zeros PAGE_SIZE]> H) (P ⊎ {[+ n +]}) ({[n]} ∪ U) (n + 1) INVALID_PAGE_ID n _ _
    (λ d, Val (LeafPage.Init INVALID_PAGE_ID lm d)) (lookup_insert_eq _ _ _) (in_pins _ _) eq_refl
    (leaf_blen _ _ _ _ _ HInit)) as (U1 & E1 & HU1). rewrite insert_insert_eq in E1.
  destruct (leaf_Insert _ _ _ _ _ key v HInit ltac:(constructor) Hk Hv ltac:(done)) as (d & Eins & Hd).
  destruct (on_page_ok cap lm im _ (P ⊎ {[+ n +]}) U1 (n + 1) INVALID_PAGE_ID n _ d _ (LeafPage.Insert key v)
    (lookup_insert_eq H n _) (in_pins _ _) Eins (leaf_blen _ _ _ _ _ Hd)) as (U2 & E2 & _ & HU2).
  rewrite insert_insert_eq in E2. exists (<[n := d]> H), (U2 ∖ {[n]}). split_and!; [| |sub_solver].
  - unfold Insert. mstep. rewrite st_empty, Z.eqb_refl. mdo (apply new_ok; done). cbn match. rewrite st_lm.
    mrun E1. mrun E2. mdo (apply unpin_dirty, in_pins). rewrite pin_unpin. done.
  - split; [|lia|].
    + exists [n]. split; [|intros p; rewrite list_elem_of_singleton; intros ->; right; lia].
      exists 0%nat, ((n, [(key, v)]) : tree 0). split_and!; simpl; try done; try lia.
      * exists d. by rewrite lookup_insert_eq.
      * repeat constructor.
      * constructor; [set_solver|constructor].
    + intros p _ Hp. rewrite lookup_insert_ne; [done|lia].
Qed.

(** A value that is too large is refused and nothing changes. *)
Lemma Insert_too_large fuel key v H P U n r es ps :
  whole H r es ps → r ≠ INVALID_PAGE_ID → (Nat.log2 (length es) ≤ fuel)%nat → held U P → room P 2 →
  MAX_VALUE_SIZE < ssize v →
  Insert fuel key v (st H P U n r) =
    (Exn (InvalidArgument "LeafPage::Insert: value exceeds MAX_VALUE_SIZE"), st H P U n r).
Proof using Hlm Him.
  intros Hw Hr Hfuel Hh Hroom Hv.
  destruct (FindLeaf_ok cap lm im ltac:(lia) ltac:(lia) fuel key H P U n r es ps Hw Hfuel Hh Hroom) as (c & lo & hi & t & E & Ha & _).
  destruct (at_leaf_page _ _ _ _ _ _ _ _ _ _ Ha) as (d & Hd & _).
  unfold Insert. mstep. rewrite st_empty, (proj2 (Z.eqb_neq _ _)) by done. mrun E.
  mdo (by eapply query_val; [exact Hd|apply in_pins|]).
  unfold mbind at 1, M_bind at 1, unwind, on_page.
  mrun (read_ok cap lm im H _ U n r (root t) d Hd (in_pins P (root t))). unfold lift, mbind at 1, M_bind at 1.
  rewrite leaf_Insert_large by done. rewrite unpin_pinned by done. done.
Qed.
End insert.
