(* ===== verification/BTreeSiblings.v ===== *)
(** * B+-tree over the pool's specification: two neighbours under one parent

    What redistribution ([rotated]) and merging ([merged]) make of two adjacent
    subtrees, for leaves and for internal nodes. *)

From stdpp Require Import gmultiset.
From S2P Require Import Prelude Entries Bytes Disk Buffer BufferTheory TreePages TreePagesTheory LeafTheory.
From S2P Require Import InternalTheory BTree BTreeRep BTreeSteps BTreeLookup BTreeMoves BTreeInsert.

#[local] Open Scope Z_scope.

Import BPlusTree.

Section siblings.
Context (cap lm im : Z).
Hypothesis Hlm : 3 ≤ lm ≤ LeafPage.Capacity - 1.
Hypothesis Him : 3 ≤ im ≤ InternalPage.Capacity - 1.

Abbreviation heap := (gmap page_id_t bytes) (only parsing).
Abbreviation st := (st cap lm im) (only parsing).
Abbreviation room := (room cap) (only parsing).
Abbreviation rep := (rep lm im) (only parsing).
Abbreviation zip := (zip lm im) (only parsing).
Abbreviation full := (full lm im) (only parsing).
Abbreviation cfull := (cfull lm im) (only parsing).
Abbreviation crep := (crep lm im) (only parsing).
Abbreviation fits := (fits lm im) (only parsing).
Abbreviation whole := (whole lm im) (only parsing).
Abbreviation node_max := (node_max lm im) (only parsing).

Implicit Types (H : heap) (P Q : gmultiset page_id_t) (U V : gset page_id_t) (n r p : page_id_t).

(** ** Two neighbours under one parent *)

Definition children_full {h} : tree h → Prop :=
  match h with
  | O => λ _, True
  | S h => λ t, ∀ e, e ∈ t.2 → full h e.2
  end.

Definition kind (h : nat) : node_kind (S := APool.t) :=
  match h with O => leaf_kind | S _ => internal_kind end.

Record pair {h} (H : heap) (p par : page_id_t) (ls : list (Z * tree h)) (ka : Z) (a : tree h) (kb : Z) (b : tree h)
    (rs : list (Z * tree h)) (nx : page_id_t) (l u : option Z) : Prop := {
  pr_par : int_at im H p par (links ls ++ (ka, root a) :: (kb, root b) :: links rs);
  pr_a : rep h H p (first_leaf h b) a;
  pr_b : rep h H p nx b;
  pr_oa : ord h l (Some kb) a;
  pr_ob : ord h (Some kb) u b;
  pr_over : over l kb;
  pr_below : below u kb;
  pr_ca : children_full a;
  pr_cb : children_full b;
  pr_nodup : NoDup (p :: pids h a ++ pids h b);
}.

(** Entries moved between the two; the separator follows. *)
Record rotated {h} (H H' : heap) (p par : page_id_t) (ls : list (Z * tree h)) (ka : Z) (a b : tree h)
    (rs : list (Z * tree h)) (nx : page_id_t) (l u : option Z) (a' : tree h) (kb' : Z) (b' : tree h) : Prop := {
  ro_pair : pair H' p par ls ka a' kb' b' rs nx l u;
  ro_root_a : root a' = root a;
  ro_root_b : root b' = root b;
  ro_entries : entries h a' ++ entries h b' = entries h a ++ entries h b;
  ro_pids : pids h a' ++ pids h b' ≡ₚ pids h a ++ pids h b;
  ro_first : first_leaf h a' = first_leaf h a;
  ro_frame : ∀ x, x ∉ p :: pids h a ++ pids h b → H' !! x = H !! x;
}.

(** The second emptied into the first. *)
Record merged {h} (H H' : heap) (p : page_id_t) (a b : tree h) (nx : page_id_t) (l u : option Z) (a' : tree h) : Prop := {
  me_rep : rep h H' p nx a';
  me_ord : ord h l u a';
  me_cf : children_full a';
  me_root : root a' = root a;
  me_size : node_size a' = node_size a + node_size b;
  me_entries : entries h a' = entries h a ++ entries h b;
  me_pids : root b :: pids h a' ≡ₚ pids h a ++ pids h b;
  me_first : first_leaf h a' = first_leaf h a;
  me_frame : ∀ x, x ∉ pids h a ++ pids h b → H' !! x = H !! x;
}.

(** The key of the second in the parent. *)
Lemma pair_SetKey {h} (ls rs : list (Z * tree h)) ka ra kb rb d par (key : Z) :
  int_rep d par im (links ls ++ (ka, ra) :: (kb, rb) :: links rs) → is_i64 key →
  ∃ d', InternalPage.SetKeyAt (Z.of_nat (length ls) + 1) key d = Val d' ∧
    int_rep d' par im (links ls ++ (ka, ra) :: (key, rb) :: links rs).
Proof.
  intros Hd Hk. destruct (int_SetKeyAt _ _ _ _ _ (S (length ls)) kb rb key Hd) as (d' & E & Hd').
  - rewrite lookup_app_r, links_length by (rewrite links_length; lia).
    by replace (S (length ls) - length ls)%nat with 1%nat by lia.
  - done.
  - exists d'. split; [by replace (Z.of_nat (length ls) + 1) with (Z.of_nat (S (length ls))) by lia|].
    unfold int_rep in *. rewrite insert_app_r_alt in Hd' by (rewrite links_length; lia).
    rewrite links_length in Hd'. replace (S (length ls) - length ls)%nat with 1%nat in Hd' by lia. simpl in Hd'.
    rewrite length_app in *. exact Hd'.
Qed.

Lemma pair_KeyAt {h} (ls rs : list (Z * tree h)) ka ra kb rb d par :
  int_rep d par im (links ls ++ (ka, ra) :: (kb, rb) :: links rs) →
  InternalPage.KeyAt d (Z.of_nat (length ls) + 1) = Val kb ∧ is_i64 kb.
Proof.
  intros Hd. assert (Hi : (links ls ++ (ka, ra) :: (kb, rb) :: links rs) !! S (length ls) = Some (kb, rb)).
  { rewrite lookup_app_r, links_length by (rewrite links_length; lia).
    by replace (S (length ls) - length ls)%nat with 1%nat by lia. }
  replace (Z.of_nat (length ls) + 1) with (Z.of_nat (S (length ls))) by lia.
  split; [by apply (int_KeyAt _ _ _ _ _ Hd _ kb rb)|apply (int_i64 _ _ _ _ _ Hd _ kb rb Hi)].
Qed.

Lemma pair_i64 {h} (ls rs : list (Z * tree h)) ka ra kb rb d par :
  int_rep d par im (links ls ++ (ka, ra) :: (kb, rb) :: links rs) → is_i64 ra ∧ is_i64 rb.
Proof.
  intros Hd. split; [apply (int_i64 _ _ _ _ _ Hd (length ls) ka)|apply (int_i64 _ _ _ _ _ Hd (S (length ls)) kb)];
    rewrite lookup_app_r, links_length by (rewrite links_length; lia).
  - by rewrite Nat.sub_diag.
  - by replace (S (length ls) - length ls)%nat with 1%nat by lia.
Qed.

(** ** Leaves *)

Section leaves.
Context (H : heap) (Q : gmultiset page_id_t) (U V : gset page_id_t) (n r p par pa pb : page_id_t).
Context (ls rs : list (Z * tree 0)) (ka kb : Z) (ea eb : list (Z * string)) (nx : page_id_t) (l u : option Z).
Hypothesis Hpair : pair H p par ls ka ((pa, ea) : tree 0) kb ((pb, eb) : tree 0) rs nx l u.

Lemma leaf_ids : pa ≠ pb ∧ p ≠ pa ∧ p ≠ pb.
Proof using Hpair. pose proof (pr_nodup _ _ _ _ _ _ _ _ _ _ _ _ Hpair) as Hnd. simpl in Hnd.
  rewrite !NoDup_cons, !elem_of_cons in Hnd. clear -Hnd. naive_solver. Qed.

Lemma leaf_moved H' ea' kb' eb' d1 d2 dp :
  H' = <[p := dp]> (<[pb := d2]> (<[pa := d1]> H)) ∨ H' = <[p := dp]> (<[pa := d1]> (<[pb := d2]> H)) →
  leaf_rep d1 p lm pb ea' → leaf_rep d2 p lm nx eb' →
  int_rep dp par im (links ls ++ (ka, pa) :: (kb', pb) :: links rs) →
  ea' ++ eb' = ea ++ eb → ea' ≠ [] → (∃ v q, eb' = (kb', v) :: q) →
  rotated H H' p par ls ka ((pa, ea) : tree 0) ((pb, eb) : tree 0) rs nx l u ((pa, ea') : tree 0) kb' ((pb, eb') : tree 0).
Proof using Hlm Him Hpair.
  intros HH' Hd1 Hd2 Hdp Hes Hne (v & q & ->). destruct leaf_ids as (Hab & Hpa & Hpb).
  assert (Hl : H' !! p = Some dp ∧ H' !! pa = Some d1 ∧ H' !! pb = Some d2 ∧ ∀ x, x ≠ p → x ≠ pa → x ≠ pb → H' !! x = H !! x).
  { destruct HH' as [->| ->]; split_and!; intros; by rewrite ?lookup_insert_ne, ?lookup_insert_eq by done. }
  destruct Hl as (Hl1 & Hl2 & Hl3 & Hfr).
  destruct Hpair as [_ _ _ [Hsa Hwa] [Hsb Hwb] Hov Hbe _ _ Hnd]. simpl in *.
  assert (Hs : sorted (ea ++ eb)) by (apply (sorted_app ea eb kb); [done|done|intros e He; by apply Hwa|intros e He; by apply Hwb]).
  assert (Hw : within l u (ea ++ eb)).
  { intros e [He|He]%elem_of_app; [apply Hwa in He as [? Hk]|apply Hwb in He as [Hk ?]]; simpl in Hk; split; try done.
    - eapply below_le; [done|lia].
    - by eapply over_above. }
  rewrite <-Hes in Hs, Hw. destruct (sorted_halves _ _ _ _ Hs) as (Hs1 & Hs2 & Hlt & Hge).
  split; simpl; try done.
  - split; simpl; try done.
    + by exists dp.
    + by exists d1.
    + by exists d2.
    + split; [done|]. intros e He. split; [apply Hw; set_solver|by apply Hlt].
    + split; [done|]. intros e He. split; [by apply Hge|apply Hw; set_solver].
    + destruct ea' as [|e ea']; [done|]. destruct (Hw e) as [Hae _]; [set_solver|].
      specialize (Hlt e ltac:(set_solver)). destruct l; simpl in *; [lia|done].
    + apply (Hw (kb', v)). set_solver.
  - intros x Hx. rewrite !elem_of_cons in Hx. apply Hfr; clear -Hx; naive_solver.
Qed.
Hypothesis HUV : U ⊆ V.
Hypothesis HaV : pa ∈ V.
Hypothesis HbV : pb ∈ V.
Hypothesis HpV : p ∈ V.
Hypothesis Ha : pa ∈ Q.
Hypothesis Hb : pb ∈ Q.
Hypothesis Hp : p ∈ Q.

Lemma leaf_pages :
  ∃ da db dp, H !! pa = Some da ∧ leaf_rep da p lm pb ea ∧ H !! pb = Some db ∧ leaf_rep db p lm nx eb ∧
    H !! p = Some dp ∧ int_rep dp par im (links ls ++ (ka, pa) :: (kb, pb) :: links rs).
Proof using Hpair.
  destruct Hpair as [(dp & Hdp & Hip) (da & Hda & Hia) (db & Hdb & Hib) _ _ _ _ _ _ _]. simpl in *.
  by exists da, db, dp.
Qed.

Lemma leaf_borrow_left :
  min_size lm < Z.of_nat (length ea) → Z.of_nat (length eb) < LeafPage.kMaxSize →
  ∃ H' U' ea' kb' eb',
    borrow_left leaf_kind pa pb p (Z.of_nat (length ls) + 1) (st H Q U n r) = (Val tt, st H' Q U' n r) ∧ U' ⊆ V ∧
    S (length ea') = length ea ∧ length eb' = S (length eb) ∧
    rotated H H' p par ls ka ((pa, ea) : tree 0) ((pb, eb) : tree 0) rs nx l u ((pa, ea') : tree 0) kb' ((pb, eb') : tree 0).
Proof using Hpair HUV HaV HbV HpV Ha Hb Hp Hlm Him.
  intros Hbig Hcap. pose proof (min_size_2 lm ltac:(lia)) as Hmin. destruct leaf_ids as (Hab & Hpa & Hpb).
  destruct leaf_pages as (da & db & dp & Hda & Hia & Hdb & Hib & Hdp & Hip).
  destruct (exists_last (l := ea)) as (ea' & [k v] & Eea); [intros ->; simpl in Hbig; lia|].
  destruct (leaf_MoveLastToFrontOf _ _ _ _ _ _ _ _ _ _ Hia Hib (k, v) ea' Eea Hcap) as (d1 & d2 & Emv & Hd1 & Hd2).
  destruct (move_leaf_ok cap lm im H Q U V n r pa pb da db d1 d2 LeafPage.MoveLastToFrontOf HUV HaV HbV Hab Hda Hdb Ha Hb Emv
    (leaf_blen _ _ _ _ _ Hd1) (leaf_blen _ _ _ _ _ Hd2)) as (U1 & E1 & HU1).
  destruct (pair_SetKey ls rs ka pa kb pb dp par k Hip (leaf_i64 _ _ _ _ _ Hd2 0%nat k v eq_refl)) as (dp' & Eset & Hip').
  destruct (update_sub cap lm im (<[pb := d2]> (<[pa := d1]> H)) Q U1 V n r p dp dp'
    (InternalPage.SetKeyAt (Z.of_nat (length ls) + 1) k) HU1 HpV ltac:(by rewrite !lookup_insert_ne) Hp Eset
    (int_blen _ _ _ _ _ Hip')) as (U2 & E2 & HU2).
  rewrite Eea, length_app in Hbig |- *. simpl in Hbig |- *.
  eexists _, U2, ea', k, ((k, v) :: eb). split_and!; [|done|lia|done|].
  - unfold leaf_kind, borrow_left. mrun E1.
    mdo (eapply query_val; [apply lookup_insert_eq|exact Hb|by apply (leaf_KeyAt _ _ _ _ _ Hd2 0%nat k v)]).
    exact E2.
  - rewrite <-Eea. eapply leaf_moved; [by left|done|done|done| | |eauto].
    + by rewrite Eea, <-app_assoc.
    + intros ->. simpl in Hbig. lia.
Qed.

Lemma leaf_borrow_right :
  min_size lm < Z.of_nat (length eb) → Z.of_nat (length ea) < LeafPage.kMaxSize →
  ∃ H' U' ea' kb' eb',
    borrow_right leaf_kind pb pa p (Z.of_nat (length ls)) (st H Q U n r) = (Val tt, st H' Q U' n r) ∧ U' ⊆ V ∧
    length ea' = S (length ea) ∧ S (length eb') = length eb ∧
    rotated H H' p par ls ka ((pa, ea) : tree 0) ((pb, eb) : tree 0) rs nx l u ((pa, ea') : tree 0) kb' ((pb, eb') : tree 0).
Proof using Hpair HUV HaV HbV HpV Ha Hb Hp Hlm Him.
  intros Hbig Hcap. pose proof (min_size_2 lm ltac:(lia)) as Hmin. destruct leaf_ids as (Hab & Hpa & Hpb).
  destruct leaf_pages as (da & db & dp & Hda & Hia & Hdb & Hib & Hdp & Hip).
  assert (∃ e k v q, eb = e :: (k, v) :: q) as (e & k & v & q & Eeb).
  { clear -Hbig Hmin. destruct eb as [|e [|[k v] q]]; [simpl in Hbig; lia..|eauto]. }
  destruct (leaf_MoveFirstToEndOf _ _ _ _ _ _ _ _ _ _ Hib Hia e ((k, v) :: q) Eeb Hcap) as (d2 & d1 & Emv & Hd2 & Hd1).
  destruct (move_leaf_ok cap lm im H Q U V n r pb pa db da d2 d1 LeafPage.MoveFirstToEndOf HUV HbV HaV (not_eq_sym Hab) Hdb Hda Hb Ha Emv
    (leaf_blen _ _ _ _ _ Hd2) (leaf_blen _ _ _ _ _ Hd1)) as (U1 & E1 & HU1).
  destruct (pair_SetKey ls rs ka pa kb pb dp par k Hip (leaf_i64 _ _ _ _ _ Hd2 0%nat k v eq_refl)) as (dp' & Eset & Hip').
  destruct (update_sub cap lm im (<[pa := d1]> (<[pb := d2]> H)) Q U1 V n r p dp dp'
    (InternalPage.SetKeyAt (Z.of_nat (length ls) + 1) k) HU1 HpV ltac:(by rewrite !lookup_insert_ne) Hp Eset
    (int_blen _ _ _ _ _ Hip')) as (U2 & E2 & HU2).
  eexists _, U2, (ea ++ [e]), k, ((k, v) :: q). split_and!; [|done|rewrite length_app; simpl; lia|by rewrite Eeb|].
  - unfold leaf_kind, borrow_right. mrun E1.
    mdo (eapply query_val; [by rewrite lookup_insert_ne by done; apply lookup_insert_eq|exact Hb|
      by apply (leaf_KeyAt _ _ _ _ _ Hd2 0%nat k v)]).
    exact E2.
  - eapply leaf_moved; [by right|done|done|done| | |eauto].
    + by rewrite Eeb, <-app_assoc.
    + intros [_ [=]]%app_nil.
Qed.

Lemma leaf_merge :
  Z.of_nat (length ea + length eb) ≤ LeafPage.kMaxSize →
  ∃ H' U', (move_leaf pb pa LeafPage.MoveAllTo) (st H Q U n r) = (Val tt, st H' Q U' n r) ∧ U' ⊆ V ∧
    merged H H' p ((pa, ea) : tree 0) ((pb, eb) : tree 0) nx l u ((pa, ea ++ eb) : tree 0).
Proof using Hpair HUV HaV HbV HpV Ha Hb Hp Hlm Him.
  intros Hcap. destruct leaf_ids as (Hab & Hpa & Hpb).
  destruct leaf_pages as (da & db & dp & Hda & Hia & Hdb & Hib & Hdp & Hip).
  destruct (leaf_MoveAllTo _ _ _ _ _ _ _ _ _ _ Hib Hia Hcap (leaf_next_i64 _ _ _ _ _ Hib)) as (d2 & d1 & Emv & Hd2 & Hd1).
  destruct (move_leaf_ok cap lm im H Q U V n r pb pa db da d2 d1 LeafPage.MoveAllTo HUV HbV HaV (not_eq_sym Hab) Hdb Hda Hb Ha Emv
    (leaf_blen _ _ _ _ _ Hd2) (leaf_blen _ _ _ _ _ Hd1)) as (U1 & E1 & HU1).
  eexists _, U1. split_and!; [exact E1|done|].
  destruct Hpair as [_ _ _ [Hsa Hwa] [Hsb Hwb] Hov Hbe _ _ Hnd]. simpl in *. split; simpl; try done.
  - exists d1. by rewrite lookup_insert_eq.
  - split; [apply (sorted_app ea eb kb); [done|done|intros e He; by apply Hwa|intros e He; by apply Hwb]|].
    intros e [He|He]%elem_of_app; [apply Hwa in He as [? Hk]|apply Hwb in He as [Hk ?]]; split; try done.
    + eapply below_le; [done|lia].
    + by eapply over_above.
  - rewrite length_app. lia.
  - constructor.
  - intros x Hx. rewrite !elem_of_cons in Hx. rewrite !lookup_insert_ne; [done|clear -Hx; naive_solver..].
Qed.
End leaves.

(** ** Internal nodes *)

Section internals.
Context {h : nat} (H : heap) (Q : gmultiset page_id_t) (U V : gset page_id_t) (n r p par pa pb : page_id_t).
Context (ls rs : list (Z * tree (S h))) (ka kb : Z) (ca cb : list (Z * tree h)) (nx : page_id_t) (l u : option Z).
Hypothesis Hpair : pair H p par ls ka ((pa, ca) : tree (S h)) kb ((pb, cb) : tree (S h)) rs nx l u.

Lemma int_pages :
  ∃ da db dp, H !! pa = Some da ∧ int_rep da p im (links ca) ∧ H !! pb = Some db ∧ int_rep db p im (links cb) ∧
    H !! p = Some dp ∧ int_rep dp par im (links ls ++ (ka, pa) :: (kb, pb) :: links rs) ∧
    reps (rep h H pa) (first_leaf (S h) ((pb, cb) : tree (S h))) ca ∧ reps (rep h H pb) nx cb.
Proof using Hpair.
  destruct Hpair as [(dp & Hdp & Hip) [(da & Hda & Hia) Hra] [(db & Hdb & Hib) Hrb] _ _ _ _ _ _ _].
  by exists da, db, dp.
Qed.

Lemma int_ids :
  pa ≠ pb ∧ p ≠ pa ∧ p ≠ pb ∧ NoDup (flat (pids h) ca ++ flat (pids h) cb) ∧
  ∀ x, x ∈ flat (pids h) ca ++ flat (pids h) cb → x ∉ [p; pa; pb].
Proof using Hpair.
  pose proof (pr_nodup _ _ _ _ _ _ _ _ _ _ _ _ Hpair) as Hnd. rewrite !pids_node in Hnd.
  assert (Hnd' : NoDup ([p; pa; pb] ++ flat (pids h) ca ++ flat (pids h) cb)).
  { eapply NoDup_Permutation_proper; [|exact Hnd]. simpl. solve_Permutation. }
  apply NoDup_app in Hnd' as (Hn1 & Hn2 & Hn3). rewrite !NoDup_cons, !elem_of_cons in Hn1.
  clear Hnd. split_and!; [clear -Hn1; naive_solver..|done|]. intros x Hx Hin. by apply (Hn2 x).
Qed.

Lemma int_moved H' ca' kb' cb' d1 d2 dp :
  H' !! pa = Some d1 → int_rep d1 p im (links ca') → H' !! pb = Some d2 → int_rep d2 p im (links cb') →
  H' !! p = Some dp → int_rep dp par im (links ls ++ (ka, pa) :: (kb', pb) :: links rs) →
  reps (rep h H' pa) (first_leaf (S h) ((pb, cb') : tree (S h))) ca' → reps (rep h H' pb) nx cb' →
  (snd <$> ca') ++ (snd <$> cb') = (snd <$> ca) ++ (snd <$> cb) → ca' ≠ [] → cb' ≠ [] →
  ordl l (Some kb') (ivls (ord h) ca') → ordl (Some kb') u (ivls (ord h) cb') → over l kb' → below u kb' →
  (∀ x, x ∉ p :: (pa :: flat (pids h) ca) ++ pb :: flat (pids h) cb → H' !! x = H !! x) →
  rotated H H' p par ls ka ((pa, ca) : tree (S h)) ((pb, cb) : tree (S h)) rs nx l u
    ((pa, ca') : tree (S h)) kb' ((pb, cb') : tree (S h)).
Proof using Hpair.
  intros Hpa Hd1 Hpb Hd2 Hp Hdp Hra Hrb Hsnd Hna Hnb Hoa Hob Hov Hbe Hfr.
  rewrite <-!fmap_app in Hsnd.
  assert (Hflat : ∀ {A} (f : tree h → list A), flat f ca' ++ flat f cb' = flat f ca ++ flat f cb).
  { intros A f. rewrite <-!flat_app. by apply flat_snd. }
  assert (Hperm : (pa :: flat (pids h) ca') ++ pb :: flat (pids h) cb' ≡ₚ (pa :: flat (pids h) ca) ++ pb :: flat (pids h) cb).
  { transitivity (pa :: pb :: flat (pids h) ca' ++ flat (pids h) cb'); [simpl; solve_Permutation|].
    rewrite Hflat. simpl. solve_Permutation. }
  destruct (int_pages) as (_ & _ & _ & _ & _ & _ & _ & _ & _ & Hra0 & _).
  destruct Hpair as [_ _ _ [Hca0 _] [Hcb0 _] _ _ Hca Hcb Hnd].
  assert (Hfull : ∀ e, e ∈ ca' ++ cb' → full h e.2).
  { intros e He. assert (e.2 ∈ snd <$> (ca ++ cb)) as (e' & -> & He')%list_elem_of_fmap.
    { rewrite <-Hsnd. by apply list_elem_of_fmap_2. }
    apply elem_of_app in He' as [?|?]; [by apply Hca|by apply Hcb]. }
  split; try done.
  - split; try done.
    + by exists dp.
    + split; [by exists d1|done].
    + split; [by exists d2|done].
    + intros e He. apply Hfull, elem_of_app. by left.
    + intros e He. apply Hfull, elem_of_app. by right.
    + rewrite !pids_node. eapply NoDup_Permutation_proper; [|exact Hnd]. rewrite !pids_node. by rewrite Hperm.
  - simpl. apply Hflat.
  - simpl in Hca0. destruct ca as [|[k1 t1] ca1], ca' as [|[k2 t2] ca2]; try done. simpl in Hsnd. simpl. by simplify_eq.
Qed.

Hypothesis HUV : U ⊆ V.
Hypothesis HaV : pa ∈ V.
Hypothesis HbV : pb ∈ V.
Hypothesis HpV : p ∈ V.
Hypothesis Ha : pa ∈ Q.
Hypothesis Hb : pb ∈ Q.
Hypothesis Hp : p ∈ Q.
Hypothesis Hroom : room Q 1.

Lemma internal_borrow_left :
  min_size im < Z.of_nat (length ca) → Z.of_nat (length cb) < InternalPage.kMaxSize → cb ≠ [] →
  ∃ H' U' ca' kb' cb',
    borrow_left internal_kind pa pb p (Z.of_nat (length ls) + 1) (st H Q U n r) = (Val tt, st H' Q U' n r) ∧ U' ⊆ V ∧
    S (length ca') = length ca ∧ length cb' = S (length cb) ∧
    rotated H H' p par ls ka ((pa, ca) : tree (S h)) ((pb, cb) : tree (S h)) rs nx l u
      ((pa, ca') : tree (S h)) kb' ((pb, cb') : tree (S h)).
Proof using Hpair HUV HaV HbV HpV Ha Hb Hp Hroom Hlm Him.
  intros Hbig Hcap Hne. pose proof (min_size_2 im ltac:(lia)) as Hmin. destruct int_ids as (Hab & Hpa & Hpb & Hnd & Hout).
  destruct int_pages as (da & db & dp & Hda & Hia & Hdb & Hib & Hdp & Hip & Hra & Hrb).
  destruct (exists_last (l := ca)) as (ca' & [ks tc] & Eca); [intros ->; simpl in Hbig; lia|].
  assert (∃ k0 t0 cb1, cb = (k0, t0) :: cb1) as (k0 & t0 & cb1 & Ecb) by (clear -Hne; destruct cb as [|[]]; [done|eauto]).
  assert (Hna : ca' ≠ []) by (intros ->; rewrite Eca in Hbig; simpl in Hbig; lia).
  assert (Hcs : root tc ∈ roots ca). { rewrite Eca, roots_app. apply elem_of_app. right. by left. }
  destruct (roots_pages _ _ _ _ _ _ _ _ Hra Hcs) as (dc & Hdc & Hbc).
  assert (Hcn : root tc ∉ [p; pa; pb]) by (apply Hout, elem_of_app; left; by apply roots_in_pids).
  rewrite !elem_of_cons in Hcn. destruct (pair_i64 _ _ _ _ _ _ _ _ Hip) as [Hia64 Hib64].
  destruct (pair_KeyAt ls rs _ _ _ _ _ _ Hip) as [Ekb Hkb].
  assert (Elc : links ca !! length ca' = Some (ks, root tc)).
  { rewrite Eca, links_app, lookup_app_r, links_length, Nat.sub_diag by (rewrite links_length; lia). done. }
  destruct (int_i64 _ _ _ _ _ Hia _ _ _ Elc) as [Hks Htc64].
  assert (Hlca : Z.of_nat (length (links ca)) - 1 = Z.of_nat (length ca')).
  { rewrite links_length, Eca, length_app. simpl. lia. }
  destruct (MoveLastToFrontOf_ok cap lm im H Q U V n r pa pb da db p im p im (links ca) (links cb) HUV HaV HbV Hab Ha Hb
    Hroom Hda Hdb Hia ks (root tc) (links ca') k0 (root t0) (links cb1) kb dc)
    as (H1 & U1 & d1 & d2 & E1 & Hd1 & Hi1 & Hd2 & Hi2 & Hre & HU1); try done.
  { by rewrite Eca, links_app. }
  { by rewrite Ecb. }
  { clear -Hcn; naive_solver. }
  { clear -Hcn; naive_solver. }
  { by rewrite links_length. }
  destruct (pair_SetKey ls rs ka pa kb pb dp par ks Hip Hks) as (dp' & Eset & Hip').
  assert (Hdp1 : H1 !! p = Some dp). { destruct Hre as [_ Hre]. rewrite Hre; [done|clear -Hcn; set_solver|]. clear -Hpa Hpb. set_solver. }
  destruct (update_sub cap lm im H1 Q U1 V n r p dp dp' (InternalPage.SetKeyAt (Z.of_nat (length ls) + 1) ks)
    HU1 HpV Hdp1 Hp Eset (int_blen _ _ _ _ _ Hip')) as (U2 & E2 & HU2).
  assert (Hre' : reparented pb (roots [(ks, tc)]) [p; pa; pb] H (<[p := dp']> H1)).
  { apply reparented_insert; [done|]. clear -Hcn. set_solver. }
  rewrite Eca in Hnd, Hout, Hra. rewrite flat_app in Hnd, Hout. apply reps_app in Hra as [Hra1 Hra2].
  rewrite <-app_assoc in Hnd. apply NoDup_app in Hnd as (Hnd1 & Hdj1 & Hnd2). apply NoDup_app in Hnd2 as (Hnd2 & Hdj2 & Hnd3).
  eexists _, U2, ca', ks, ((k0, tc) :: (kb, t0) :: cb1). split_and!; [|done|by rewrite Eca, length_app, Nat.add_comm|by rewrite Ecb|].
  - unfold internal_kind, borrow_left.
    mdo (eapply query_val; [exact Hda|exact Ha|]; rewrite (int_GetSize _ _ _ _ _ Hia), Hlca; by eapply int_KeyAt).
    mdo (eapply query_val; [exact Hdp|exact Hp|exact Ekb]). mrun E1. exact E2.
  - pose proof (pr_oa _ _ _ _ _ _ _ _ _ _ _ _ Hpair) as [_ Hoa]. pose proof (pr_ob _ _ _ _ _ _ _ _ _ _ _ _ Hpair) as [_ Hob].
    simpl in Hoa, Hob. rewrite Eca, ivls_app in Hoa.
    assert (Hna' : ivls (ord h) ca' ≠ []) by (intros E%fmap_nil_inv; done).
    apply (ordl_cut _ _ _ ks (λ lo hi, ord h lo hi tc) [] Hna') in Hoa as (Hoa & Hoc & Hov & Hbe).
    eapply int_moved.
    + by rewrite lookup_insert_ne.
    + done.
    + by rewrite lookup_insert_ne.
    + done.
    + apply lookup_insert_eq.
    + done.
    + simpl. eapply reps_keep; [exact Hre'| |exact Hra1]. intros x Hx. split.
      * intros Hx'. apply (Hdj1 x Hx), elem_of_app. by left.
      * apply Hout. rewrite !elem_of_app. auto.
    + split.
      * eapply (reps_move _ _ _ _ _ _ _ _ _ [(ks, tc)]) in Hra2 as [Hra2 _]; [|exact Hre'| |done|done].
        -- rewrite Ecb in Hra2. exact Hra2.
        -- intros x Hx. apply Hout. rewrite !elem_of_app. auto.
      * change (reps (rep h (<[p := dp']> H1) pb) nx ((kb, t0) :: cb1)).
        eapply (reps_snd _ _ cb); [by rewrite Ecb|]. eapply reps_keep; [exact Hre'| |exact Hrb]. intros x Hx. split.
        -- intros Hx'. by apply (Hdj2 x).
        -- apply Hout. rewrite !elem_of_app. auto.
    + rewrite Eca, Ecb, !fmap_app, <-app_assoc. done.
    + done.
    + done.
    + done.
    + simpl. rewrite Ecb in Hob. simpl in Hoc, Hob. pose proof (pr_below _ _ _ _ _ _ _ _ _ _ _ _ Hpair). by split_and!.
    + done.
    + pose proof (pr_below _ _ _ _ _ _ _ _ _ _ _ _ Hpair). simpl in Hbe. eapply below_le; [done|lia].
    + intros x Hx. rewrite elem_of_cons, elem_of_app, !elem_of_cons in Hx. apply Hre'.
      * intros Hin%roots_in_pids. apply Hx. right; left; right. rewrite Eca, flat_app. apply elem_of_app. by right.
      * rewrite !elem_of_cons. clear -Hx. set_solver.
Qed.

Lemma internal_borrow_right :
  min_size im < Z.of_nat (length cb) → Z.of_nat (length ca) < InternalPage.kMaxSize →
  ∃ H' U' ca' kb' cb',
    borrow_right internal_kind pb pa p (Z.of_nat (length ls)) (st H Q U n r) = (Val tt, st H' Q U' n r) ∧ U' ⊆ V ∧
    length ca' = S (length ca) ∧ S (length cb') = length cb ∧
    rotated H H' p par ls ka ((pa, ca) : tree (S h)) ((pb, cb) : tree (S h)) rs nx l u
      ((pa, ca') : tree (S h)) kb' ((pb, cb') : tree (S h)).
Proof using Hpair HUV HaV HbV HpV Ha Hb Hp Hroom Hlm Him.
  intros Hbig Hcap. pose proof (min_size_2 im ltac:(lia)) as Hmin. destruct int_ids as (Hab & Hpa & Hpb & Hnd & Hout).
  destruct int_pages as (da & db & dp & Hda & Hia & Hdb & Hib & Hdp & Hip & Hra & Hrb).
  assert (∃ k0 t0 k1 t1 cb1, cb = (k0, t0) :: (k1, t1) :: cb1) as (k0 & t0 & k1 & t1 & cb1 & Ecb).
  { clear -Hbig Hmin. destruct cb as [|[k0 t0] [|[k1 t1] q]]; [simpl in Hbig; lia..|eauto 10]. }
  assert (Hcs : root t0 ∈ roots cb) by (rewrite Ecb; by left).
  destruct (roots_pages _ _ _ _ _ _ _ _ Hrb Hcs) as (dc & Hdc & Hbc).
  assert (Hcn : root t0 ∉ [p; pa; pb]) by (apply Hout, elem_of_app; right; by apply roots_in_pids).
  rewrite !elem_of_cons in Hcn. destruct (pair_i64 _ _ _ _ _ _ _ _ Hip) as [Hia64 Hib64].
  destruct (pair_KeyAt ls rs _ _ _ _ _ _ Hip) as [Ekb Hkb].
  assert (Elc : links cb !! 0%nat = Some (k0, root t0) ∧ links cb !! 1%nat = Some (k1, root t1)) by (by rewrite Ecb).
  destruct Elc as [Elc0 Elc1].
  destruct (int_i64 _ _ _ _ _ Hib _ _ _ Elc0) as [_ Ht064]. destruct (int_i64 _ _ _ _ _ Hib _ _ _ Elc1) as [Hk1 _].
  destruct (MoveFirstToEndOf_ok cap lm im H Q U V n r pb pa db da p im p im (links cb) (links ca) HUV HbV HaV (not_eq_sym Hab) Hb Ha
    Hroom Hdb Hda Hib k0 (root t0) (links ((k1, t1) :: cb1)) kb dc)
    as (H1 & U1 & d2 & d1 & E1 & Hd2 & Hi2 & Hd1 & Hi1 & Hre & HU1); try done.
  { by rewrite Ecb. }
  { clear -Hcn; naive_solver. }
  { clear -Hcn; naive_solver. }
  { by rewrite links_length. }
  destruct (pair_SetKey ls rs ka pa kb pb dp par k1 Hip Hk1) as (dp' & Eset & Hip').
  assert (Hdp1 : H1 !! p = Some dp). { destruct Hre as [_ Hre]. rewrite Hre; [done|clear -Hcn; set_solver|]. clear -Hpa Hpb. set_solver. }
  destruct (update_sub cap lm im H1 Q U1 V n r p dp dp' (InternalPage.SetKeyAt (Z.of_nat (length ls) + 1) k1)
    HU1 HpV Hdp1 Hp Eset (int_blen _ _ _ _ _ Hip')) as (U2 & E2 & HU2).
  assert (Hre' : reparented pa (roots [(k0, t0)]) [p; pb; pa] H (<[p := dp']> H1)).
  { apply reparented_insert; [done|]. clear -Hcn. set_solver. }
  assert (Hout' : ∀ x, x ∈ flat (pids h) ca ++ flat (pids h) cb → x ∉ [p; pb; pa]).
  { intros x Hx%Hout. clear -Hx. set_solver. }
  pose proof (pr_ob _ _ _ _ _ _ _ _ _ _ _ _ Hpair) as [_ Hob]. simpl in Hob.
  rewrite Ecb in Hnd, Hout', Hrb, Hob. destruct Hrb as [Hrb1 Hrb2]. rewrite flat_cons in Hnd, Hout'.
  apply NoDup_app in Hnd as (Hnd1 & Hdj1 & Hnd2). apply NoDup_app in Hnd2 as (Hnd2 & Hdj2 & Hnd3).
  eexists _, U2, (ca ++ [(kb, t0)]), k1, ((k1, t1) :: cb1).
  split_and!; [|done|by rewrite length_app, Nat.add_comm|by rewrite Ecb|].
  - unfold internal_kind, borrow_right.
    mdo (eapply query_val; [exact Hdb|exact Hb|by apply (int_KeyAt _ _ _ _ _ Hib 1%nat k1 (root t1))]).
    mdo (eapply query_val; [exact Hdp|exact Hp|exact Ekb]). mrun E1. exact E2.
  - simpl in Hob. destruct Hob as (Ho0 & Hov & Hbe & Hob).
    pose proof (pr_oa _ _ _ _ _ _ _ _ _ _ _ _ Hpair) as [Hnca Hoa]. simpl in Hoa, Hnca.
    eapply int_moved.
    + by rewrite lookup_insert_ne.
    + by rewrite links_app.
    + by rewrite lookup_insert_ne.
    + done.
    + apply lookup_insert_eq.
    + done.
    + apply reps_app. split.
      * replace (next_of _ [(kb, t0)]) with (first_leaf (S h) ((pb, cb) : tree (S h))) by (by rewrite Ecb).
        eapply (reps_keep _ _ _ _ _ _ _ _ _ _ [(k0, t0)]); [exact Hre'| |exact Hra]. intros x Hx. split.
        -- intros Hx'. apply (Hdj1 x Hx), elem_of_app. left. unfold flat in Hx'. simpl in Hx'. by rewrite app_nil_r in Hx'.
        -- apply Hout'. rewrite !elem_of_app. auto.
      * eapply (reps_snd _ _ [(k0, t0)]); [done|].
        eapply (reps_move _ _ _ H _ pb _ _ _ [(k0, t0)]); [exact Hre'| | |done|by split].
        -- intros x Hx. apply Hout'. unfold flat in Hx. simpl in Hx. rewrite app_nil_r in Hx. rewrite !elem_of_app. auto.
        -- unfold flat. simpl. by rewrite app_nil_r.
    + eapply (reps_keep _ _ _ _ _ _ _ _ _ _ [(k0, t0)]); [exact Hre'| |exact Hrb2]. intros x Hx. split.
      * intros Hx'. unfold flat in Hx'. simpl in Hx'. rewrite app_nil_r in Hx'. by apply (Hdj2 x).
      * apply Hout'. rewrite !elem_of_app. auto.
    + by rewrite Ecb, !fmap_app, <-app_assoc.
    + intros [_ [=]]%app_nil.
    + done.
    + rewrite ivls_app. apply (ordl_cut _ _ _ kb (λ lo hi, ord h lo hi t0) []); [by intros ?%fmap_nil_inv|].
      split_and!; [done|done|apply (pr_over _ _ _ _ _ _ _ _ _ _ _ _ Hpair)|done].
    + done.
    + eapply over_le; [apply (pr_over _ _ _ _ _ _ _ _ _ _ _ _ Hpair)|]. simpl in Hov. lia.
    + done.
    + intros x Hx. rewrite elem_of_cons, elem_of_app, !elem_of_cons in Hx. apply Hre'.
      * intros Hin%roots_in_pids. apply Hx. right; right; right. rewrite Ecb, flat_cons. apply elem_of_app. left.
        unfold flat in Hin. simpl in Hin. by rewrite app_nil_r in Hin.
      * rewrite !elem_of_cons. clear -Hx. set_solver.
Qed.

Lemma internal_merge :
  Z.of_nat (length ca + length cb) ≤ InternalPage.kMaxSize →
  ∃ H' U' ca', MoveAllTo pb pa kb (st H Q U n r) = (Val tt, st H' Q U' n r) ∧ U' ⊆ V ∧
    merged H H' p ((pa, ca) : tree (S h)) ((pb, cb) : tree (S h)) nx l u ((pa, ca') : tree (S h)).
Proof using Hpair HUV HaV HbV HpV Ha Hb Hp Hroom Hlm Him.
  intros Hcap. destruct int_ids as (Hab & Hpa & Hpb & Hnd & Hout).
  destruct int_pages as (da & db & dp & Hda & Hia & Hdb & Hib & Hdp & Hip & Hra & Hrb).
  destruct (pair_i64 _ _ _ _ _ _ _ _ Hip) as [Hia64 Hib64]. destruct (pair_KeyAt ls rs _ _ _ _ _ _ Hip) as [Ekb Hkb].
  pose proof (pr_ob _ _ _ _ _ _ _ _ _ _ _ _ Hpair) as [Hncb Hob]. simpl in Hob, Hncb.
  pose proof (pr_oa _ _ _ _ _ _ _ _ _ _ _ _ Hpair) as [Hnca Hoa]. simpl in Hoa, Hnca.
  assert (∃ k0 t0 cb1, cb = (k0, t0) :: cb1) as (k0 & t0 & cb1 & Ecb) by (clear -Hncb; destruct cb as [|[]]; [done|eauto]).
  destruct (MoveAllTo_ok cap lm im H Q U V n r pb pa db da p im p im (links cb) (links ca) HUV HbV HaV (not_eq_sym Hab) Hb Ha
    Hroom Hdb Hda Hib k0 (root t0) (links cb1) kb)
    as (H1 & U1 & d2 & d1 & E1 & Hd2 & Hd1 & Hi1 & Hre & HU1); try done.
  { by rewrite Ecb. }
  { apply roots_nodup. by apply NoDup_app in Hnd as (_ & _ & ?). }
  { intros c Hc. assert (Hc' : c ∈ flat (pids h) cb) by (by apply roots_in_pids).
    assert (Hcn : c ∉ [p; pa; pb]) by (apply Hout, elem_of_app; by right).
    rewrite !elem_of_cons in Hcn. split_and!; [clear -Hcn; naive_solver..|].
    apply (roots_pages _ _ _ _ _ _ _ _ Hrb Hc). }
  { by rewrite !links_length. }
  assert (Hout' : ∀ x, x ∈ flat (pids h) ca ++ flat (pids h) cb → x ∉ [pb; pa]).
  { intros x Hx%Hout. clear -Hx. set_solver. }
  apply NoDup_app in Hnd as (Hnd1 & Hdj1 & Hnd2).
  eexists _, U1, (ca ++ (kb, t0) :: cb1). split_and!; [exact E1|done|].
  assert (Hsnd : (snd <$> cb) = (snd <$> (kb, t0) :: cb1)) by (by rewrite Ecb).
  assert (Hflat : ∀ {A} (f : tree h → list A), flat f (ca ++ (kb, t0) :: cb1) = flat f ca ++ flat f cb).
  { intros A f. rewrite flat_app. f_equal. by apply flat_snd. }
  split; try done.
  - split; [exists d1; split; [done|]|].
    + simpl. by rewrite links_app.
    + apply reps_app. split.
      * replace (next_of nx ((kb, t0) :: cb1)) with (first_leaf (S h) ((pb, cb) : tree (S h))) by (by rewrite Ecb).
        eapply (reps_keep _ _ _ _ _ _ _ _ _ _ cb); [exact Hre| |exact Hra]. intros x Hx. split; [by apply Hdj1|].
        apply Hout'. rewrite !elem_of_app. auto.
      * eapply (reps_snd _ _ cb); [done|]. eapply reps_move; [exact Hre| |done|done|exact Hrb].
        intros x Hx. apply Hout'. rewrite !elem_of_app. auto.
  - split; [intros [_ [=]]%app_nil|]. simpl. rewrite ivls_app.
    apply (ordl_cut _ _ _ kb (λ lo hi, ord h lo hi t0) (ivls (ord h) cb1)); [by intros ?%fmap_nil_inv|].
    rewrite Ecb in Hob.
    split_and!; [done|done|apply (pr_over _ _ _ _ _ _ _ _ _ _ _ _ Hpair)|apply (pr_below _ _ _ _ _ _ _ _ _ _ _ _ Hpair)].
  - intros e. simpl. rewrite elem_of_app, elem_of_cons. intros [He|He].
    + by apply (pr_ca _ _ _ _ _ _ _ _ _ _ _ _ Hpair).
    + pose proof (pr_cb _ _ _ _ _ _ _ _ _ _ _ _ Hpair) as Hcb. simpl in Hcb. rewrite Ecb in Hcb.
      destruct He as [->|He]; [apply (Hcb (k0, t0)); by left|apply Hcb; by right].
  - cbn [node_size snd]. by rewrite length_app, Nat2Z.inj_add, Ecb.
  - simpl. apply Hflat.
  - rewrite !pids_node, Hflat. simpl. solve_Permutation.
  - simpl. by destruct ca.
  - intros x Hx. rewrite elem_of_app, !pids_node, !elem_of_cons in Hx. apply Hre.
    + intros Hin%roots_in_pids. clear -Hin Hx. naive_solver.
    + rewrite !elem_of_cons. clear -Hx. set_solver.
Qed.
End internals.

(** ** Either kind of node *)

Lemma full_iff h (t : tree h) :
  full h t ↔ min_size (node_max h) ≤ node_size t ≤ node_max h ∧ children_full t.
Proof. clear Hlm Him. destruct h; simpl; tauto. Qed.

Lemma node_pos h lo hi (t : tree h) : ord h lo hi t → h ≠ 0%nat → 1 ≤ node_size t.
Proof. destruct h; [done|]. simpl. intros [Hne _] _. destruct (t.2); [done|]. simpl. lia. Qed.

Lemma size_pred (x y : nat) : S x = y → Z.of_nat x = Z.of_nat y - 1.
Proof. lia. Qed.
Lemma size_succ (x y : nat) : x = S y → Z.of_nat x = Z.of_nat y + 1.
Proof. lia. Qed.

Section kinds.
Context {h : nat} (H : heap) (Q : gmultiset page_id_t) (U V : gset page_id_t) (n r p par : page_id_t).
Context (ls rs : list (Z * tree h)) (ka kb : Z) (a b : tree h) (nx : page_id_t) (l u : option Z).
Hypothesis Hpair : pair H p par ls ka a kb b rs nx l u.
Hypothesis HUV : U ⊆ V.
Hypothesis HaV : root a ∈ V.
Hypothesis HbV : root b ∈ V.
Hypothesis HpV : p ∈ V.
Hypothesis Ha : root a ∈ Q.
Hypothesis Hb : root b ∈ Q.
Hypothesis Hp : p ∈ Q.
Hypothesis Hroom : room Q 1.

Lemma kind_borrow_left :
  min_size (node_max h) < node_size a → node_size b ≤ node_max h →
  ∃ H' U' a' kb' b',
    borrow_left (kind h) (root a) (root b) p (Z.of_nat (length ls) + 1) (st H Q U n r) = (Val tt, st H' Q U' n r) ∧ U' ⊆ V ∧
    node_size a' = node_size a - 1 ∧ node_size b' = node_size b + 1 ∧ rotated H H' p par ls ka a b rs nx l u a' kb' b'.
Proof using Hpair HUV HaV HbV HpV Ha Hb Hp Hroom Hlm Him.
  destruct h as [|h']; destruct a as [pa ca], b as [pb cb]; cbn [node_size BTreeRep.node_max snd]; intros Hbig Hcap.
  - destruct (leaf_borrow_left H Q U V n r p par pa pb ls rs ka kb ca cb nx l u Hpair HUV HaV HbV HpV Ha Hb Hp Hbig)
      as (H' & U' & ea' & kb' & eb' & E & HU & H1 & H2 & Hr).
    { eapply Z.le_lt_trans; [exact Hcap|]. change LeafPage.kMaxSize with 50. change LeafPage.Capacity with 50 in Hlm. lia. }
    exists H', U', (pa, ea'), kb', (pb, eb'). split_and!; try done; by (apply size_pred || apply size_succ).
  - destruct (internal_borrow_left H Q U V n r p par pa pb ls rs ka kb ca cb nx l u Hpair HUV HaV HbV HpV Ha Hb Hp Hroom Hbig)
      as (H' & U' & ea' & kb' & eb' & E & HU & H1 & H2 & Hr).
    { eapply Z.le_lt_trans; [exact Hcap|]. change InternalPage.kMaxSize with 254.
      change InternalPage.Capacity with 254 in Him. lia. }
    { by destruct (pr_ob _ _ _ _ _ _ _ _ _ _ _ _ Hpair) as [? _]. }
    exists H', U', (pa, ea'), kb', (pb, eb'). split_and!; try done; by (apply size_pred || apply size_succ).
Qed.

Lemma kind_borrow_right :
  min_size (node_max h) < node_size b → node_size a ≤ node_max h →
  ∃ H' U' a' kb' b',
    borrow_right (kind h) (root b) (root a) p (Z.of_nat (length ls)) (st H Q U n r) = (Val tt, st H' Q U' n r) ∧ U' ⊆ V ∧
    node_size a' = node_size a + 1 ∧ node_size b' = node_size b - 1 ∧ rotated H H' p par ls ka a b rs nx l u a' kb' b'.
Proof using Hpair HUV HaV HbV HpV Ha Hb Hp Hroom Hlm Him.
  destruct h as [|h']; destruct a as [pa ca], b as [pb cb]; cbn [node_size BTreeRep.node_max snd]; intros Hbig Hcap.
  - destruct (leaf_borrow_right H Q U V n r p par pa pb ls rs ka kb ca cb nx l u Hpair HUV HaV HbV HpV Ha Hb Hp Hbig)
      as (H' & U' & ea' & kb' & eb' & E & HU & H1 & H2 & Hr).
    { eapply Z.le_lt_trans; [exact Hcap|]. change LeafPage.kMaxSize with 50. change LeafPage.Capacity with 50 in Hlm. lia. }
    exists H', U', (pa, ea'), kb', (pb, eb'). split_and!; try done; by (apply size_pred || apply size_succ).
  - destruct (internal_borrow_right H Q U V n r p par pa pb ls rs ka kb ca cb nx l u Hpair HUV HaV HbV HpV Ha Hb Hp Hroom Hbig)
      as (H' & U' & ea' & kb' & eb' & E & HU & H1 & H2 & Hr).
    { eapply Z.le_lt_trans; [exact Hcap|]. change InternalPage.kMaxSize with 254.
      change InternalPage.Capacity with 254 in Him. lia. }
    exists H', U', (pa, ea'), kb', (pb, eb'). split_and!; try done; by (apply size_pred || apply size_succ).
Qed.

Lemma kind_merge :
  node_size a + node_size b ≤ node_max h →
  ∃ H' U' a', U' ⊆ V ∧ merged H H' p a b nx l u a' ∧
    merge_into_left (kind h) (root a) (root b) p (Z.of_nat (length ls) + 1) (st H Q U n r) = (Val tt, st H' Q U' n r) ∧
    merge_right_in (kind h) (root b) (root a) p (Z.of_nat (length ls)) (st H Q U n r) = (Val tt, st H' Q U' n r).
Proof using Hpair HUV HaV HbV HpV Ha Hb Hp Hroom Hlm Him.
  destruct h as [|h']; destruct a as [pa ca], b as [pb cb]; cbn [node_size BTreeRep.node_max snd]; intros Hcap.
  - destruct (leaf_merge H Q U V n r p par pa pb ls rs ka kb ca cb nx l u Hpair HUV HaV HbV HpV Ha Hb Hp)
      as (H' & U' & E & HU & Hm).
    { rewrite Nat2Z.inj_add. change LeafPage.kMaxSize with 50. change LeafPage.Capacity with 50 in Hlm. lia. }
    exists H', U', (pa, ca ++ cb). by split_and!.
  - destruct (internal_merge H Q U V n r p par pa pb ls rs ka kb ca cb nx l u Hpair HUV HaV HbV HpV Ha Hb Hp Hroom)
      as (H' & U' & ca' & E & HU & Hm).
    { rewrite Nat2Z.inj_add. etransitivity; [exact Hcap|]. change InternalPage.kMaxSize with 254.
      change InternalPage.Capacity with 254 in Him. lia. }
    destruct (int_pages H p par pa pb ls rs ka kb ca cb nx l u Hpair) as (da & db & dp & _ & _ & _ & _ & Hdp & Hip & _).
    destruct (pair_KeyAt ls rs _ _ _ _ _ _ Hip) as [Ekb _].
    exists H', U', (pa, ca'). split_and!; [done|done| |]; unfold kind, internal_kind; cbn [merge_into_left merge_right_in];
      (mdo (eapply query_val; [exact Hdp|exact Hp|exact Ekb])); exact E.
Qed.
End kinds.
End siblings.
