(* ===== verification/BTreeRemove.v ===== *)
(** * B+-tree over the pool's specification: removal *)

From stdpp Require Import gmultiset.
From S2P Require Import Prelude Entries Bytes Disk Buffer BufferTheory TreePages TreePagesTheory LeafTheory.
From S2P Require Import InternalTheory BTree BTreeRep BTreeSteps BTreeLookup BTreeMoves BTreeInsert.
From S2P Require Import BTreeSiblings.

#[local] Open Scope Z_scope.

Import BPlusTree.

Section remove.
Context (cap lm im : Z).
Hypothesis Hlm : 3 ≤ lm ≤ LeafPage.Capacity - 1.
Hypothesis Him : 3 ≤ im ≤ InternalPage.Capacity - 1.

Abbreviation heap := (gmap page_id_t bytes) (only parsing).
Abbreviation st := (st cap lm im) (only parsing).
Abbreviation room := (room cap) (only parsing).
Abbreviation rep := (rep lm im) (only parsing).
Abbreviation zip := (zip lm im) (only parsing).
Abbreviation full := (full lm im) (only parsing).
Abbreviation crep := (crep lm im) (only parsing).
Abbreviation fits := (fits lm im) (only parsing).
Abbreviation whole := (whole lm im) (only parsing).
Abbreviation node_max := (node_max lm im) (only parsing).
Abbreviation children_full := (children_full lm im) (only parsing).
Abbreviation pair := (pair lm im) (only parsing).
Abbreviation rotated := (rotated lm im) (only parsing).
Abbreviation merged := (merged lm im) (only parsing).

Implicit Types (H : heap) (P Q : gmultiset page_id_t) (U V : gset page_id_t) (n r p : page_id_t).

(** ** Looking at two neighbours, and putting them back *)

(** The parent of a subtree that may be underfull. *)
Lemma zip_parent {h} H (up : ctx (S h)) lo hi p ls k t rs :
  zip H (Up h p ls k rs up) lo hi t →
  ∃ lo' hi', zip H up lo' hi' ((p, ls ++ (k, t) :: rs) : tree (S h)).
Proof.
  intros [Hrep Hcrep Hco Ho Hcf Hnd]. simpl in Hcrep, Hco, Hcf.
  destruct Hcrep as (Hat & Hls & Hrs & Hup). destruct Hco as (lo' & hi' & Hco & Ho').
  destruct Hcf as (Hsz & Hfull & Hcf). exists lo', hi'.
  split; [| |done| |done|].
  - simpl. split; [by rewrite links_app|]. apply reps_app. split; [done|]. split; done.
  - by rewrite first_leaf_node.
  - simpl. split; [by destruct ls|]. rewrite ivls_app. by apply (ordl_fill _ _ _ _ lo hi).
  - by rewrite node_nodup.
Qed.

Lemma zip_pair {h} H (up : ctx (S h)) lo hi p ls ka (a : tree h) kb b rs :
  zip H up lo hi ((p, ls ++ (ka, a) :: (kb, b) :: rs) : tree (S h)) → children_full a → children_full b →
  ∃ l u, pair H p (cpar up) ls ka a kb b rs (next_of (cnext up) rs) l u ∧
    ordl lo hi (ivls (ord h) ls ++ (ka, hole l u) :: ivls (ord h) rs).
Proof.
  intros Hz Ha Hb. destruct (zip_node _ _ _ _ _ _ _ _ Hz) as [Hat Hreps]. destruct Hz as [_ Hcrep Hco Ho Hcf Hnd]. simpl in Ho. destruct Ho as [_ Ho]. rewrite ivls_app in Ho. simpl in Ho.
  apply reps_app in Hreps as [Hls (Hra & Hrb & Hrs)].
  destruct (ordl_join _ _ _ _ _ _ _ _ Ho) as (l & u & Hoa & Hob & Hov & Hbe & Hol).
  exists l, u. split; [|done]. split; try done.
  - by rewrite links_app in Hat.
  - rewrite pids_node, flat_app, !flat_cons in Hnd. simpl in Hnd.
    eapply sublist_NoDup; [exact Hnd|]. apply sublist_skip. rewrite <-!app_assoc.
    apply sublist_inserts_l. apply sublist_app; [done|]. by apply sublist_inserts_r.
Qed.

(** The pages of a node, those of two neighbours in front. *)
Lemma pair_pids {h} p (ls : list (Z * tree h)) ka a kb b rs (up : ctx (S h)) :
  pids (S h) ((p, ls ++ (ka, a) :: (kb, b) :: rs) : tree (S h)) ++ cpids up ≡ₚ
  (p :: pids h a ++ pids h b) ++ flat (pids h) ls ++ flat (pids h) rs ++ cpids up.
Proof. rewrite pids_node, flat_app, !flat_cons. simpl. solve_Permutation. Qed.

Lemma zip_rotated {h} H H' (up : ctx (S h)) lo hi p ls ka (a : tree h) kb b rs l u a' kb' b' :
  zip H up lo hi ((p, ls ++ (ka, a) :: (kb, b) :: rs) : tree (S h)) →
  ordl lo hi (ivls (ord h) ls ++ (ka, hole l u) :: ivls (ord h) rs) →
  rotated H H' p (cpar up) ls ka a b rs (next_of (cnext up) rs) l u a' kb' b' →
  zip H' up lo hi ((p, ls ++ (ka, a') :: (kb', b') :: rs) : tree (S h)).
Proof.
  intros Hz Hol [[Hat Hra Hrb Hoa Hob Hov Hbe Hca Hcb _] Ea Eb Hes Hps Hfl Hfr].
  destruct (zip_node _ _ _ _ _ _ _ _ Hz) as [_ Hreps]. destruct Hz as [_ Hcrep Hco Ho Hcf Hnd]. apply reps_app in Hreps as [Hls (_ & _ & Hrs)]. rewrite pair_pids in Hnd.
  assert (Hframe : ∀ x, x ∈ flat (pids h) ls ++ flat (pids h) rs ++ cpids up → H' !! x = H !! x).
  { intros x Hx. apply Hfr. intros Hin. by apply NoDup_app in Hnd as (_ & Hdj & _); apply (Hdj x). }
  split; [| |done| |done|].
  - apply rep_node. split; [rewrite links_app; simpl; by rewrite Ea, Eb in *|]. apply reps_app. split; [|split; [done|split; [done|]]].
    + simpl. rewrite Hfl. eapply reps_frame; [|exact Hls]. intros x Hx. apply Hframe. rewrite !elem_of_app. auto.
    + eapply reps_frame; [|exact Hrs]. intros x Hx. apply Hframe. rewrite !elem_of_app. auto.
  - rewrite first_leaf_node in Hcrep |- *. simpl in Hcrep |- *. rewrite Hfl. eapply crep_frame; [|exact Hcrep].
    intros x Hx. apply Hframe. rewrite !elem_of_app. auto.
  - simpl. split; [by destruct ls|]. rewrite ivls_app. by apply (ordl_split _ _ _ _ l u).
  - rewrite pair_pids. simpl. by rewrite Hps.
Qed.

Lemma zip_merged {h} H H' dp (up : ctx (S h)) lo hi p ls ka (a : tree h) kb b rs l u a' :
  zip H up lo hi ((p, ls ++ (ka, a) :: (kb, b) :: rs) : tree (S h)) →
  ordl lo hi (ivls (ord h) ls ++ (ka, hole l u) :: ivls (ord h) rs) →
  merged H H' p a b (next_of (cnext up) rs) l u a' →
  int_rep dp (cpar up) im (links ls ++ (ka, root a) :: links rs) →
  zip (delete (root b) (<[p := dp]> H')) up lo hi ((p, ls ++ (ka, a') :: rs) : tree (S h)).
Proof.
  intros Hz Hol [Hr Hoa Hca Ea Hsz Hes Hps Hfl Hfr] Hdp.
  destruct (zip_node _ _ _ _ _ _ _ _ Hz) as [_ Hreps]. destruct Hz as [_ Hcrep Hco Ho Hcf Hnd]. apply reps_app in Hreps as [Hls (_ & _ & Hrs)]. rewrite pair_pids in Hnd.
  pose proof (root_in_pids h b) as Hrb.
  assert (Hnd' : NoDup (root b :: p :: pids h a' ++ flat (pids h) ls ++ flat (pids h) rs ++ cpids up)).
  { eapply NoDup_Permutation_proper; [|exact Hnd]. simpl.
    transitivity (p :: (root b :: pids h a') ++ flat (pids h) ls ++ flat (pids h) rs ++ cpids up); [solve_Permutation|].
    rewrite Hps. simpl. solve_Permutation. }
  apply NoDup_cons in Hnd' as [Hbn Hnd']. pose proof Hnd' as [Hpn _]%NoDup_cons.
  assert (Hframe : ∀ x, x ∈ flat (pids h) ls ++ flat (pids h) rs ++ cpids up →
    delete (root b) (<[p := dp]> H') !! x = H !! x).
  { intros x Hx. rewrite lookup_delete_ne, lookup_insert_ne.
    - apply Hfr. intros Hin. apply NoDup_app in Hnd as (_ & Hdj & _). apply (Hdj x); [by right|done].
    - intros ->. apply Hpn, elem_of_app. by right.
    - intros <-. apply Hbn. right. apply elem_of_app. by right. }
  split; [| |done| |done|].
  - apply rep_node. split; [|apply reps_app; split; [|split]].
    + exists dp. rewrite lookup_delete_ne, lookup_insert_eq; [|intros <-; apply Hbn; by left].
      split; [done|]. rewrite links_app. simpl. by rewrite Ea.
    + simpl. rewrite Hfl. eapply reps_frame; [|exact Hls]. intros x Hx. apply Hframe. rewrite !elem_of_app. auto.
    + simpl. eapply rep_frame; [|exact Hr]. intros x Hx. rewrite lookup_delete_ne, lookup_insert_ne; [done| |].
      * intros ->. apply Hpn, elem_of_app. by left.
      * intros <-. apply Hbn. right. apply elem_of_app. by left.
    + eapply reps_frame; [|exact Hrs]. intros x Hx. apply Hframe. rewrite !elem_of_app. auto.
  - rewrite first_leaf_node in Hcrep |- *. simpl in Hcrep |- *. rewrite Hfl. eapply crep_frame; [|exact Hcrep].
    intros x Hx. apply Hframe. rewrite !elem_of_app. auto.
  - simpl. split; [by destruct ls|]. rewrite ivls_app. by apply (ordl_fill _ _ _ _ l u).
  - rewrite pids_node, flat_app, flat_cons. eapply NoDup_Permutation_proper; [|exact Hnd']. simpl. solve_Permutation.
Qed.

(** ** Releasing and dropping a node *)

Lemma unpin_either H P U n r p nd :
  nd = true ∨ p ∉ U → unpin p nd (st H (P ⊎ {[+ p +]}) U n r) = (Val tt, st H P (U ∖ {[p]}) n r).
Proof.
  intros Hnd. destruct nd.
  - rewrite unpin_dirty by apply in_pins. by rewrite pin_unpin.
  - assert (Hp : p ∉ U) by (by destruct Hnd). rewrite unpin_clean by (try apply in_pins; by left). rewrite pin_unpin.
    by replace (U ∖ {[p]}) with U by (clear -Hp; set_solver).
Qed.

(** A page about to be deleted may lose its last changes. *)
Lemma unpin_discard H P U n r p nd :
  p ∉ P → ∃ H1, unpin p nd (st H (P ⊎ {[+ p +]}) U n r) = (Val tt, st H1 P (U ∖ {[p]}) n r) ∧ delete p H1 = delete p H.
Proof.
  intros HpP. destruct (decide (nd = true ∨ p ∉ U)) as [Hnd|Hnd].
  - exists H. split; [by apply unpin_either|done].
  - assert (nd = false) as -> by (destruct nd; naive_solver).
    assert (Hp : p ∈ U) by (destruct (decide (p ∈ U)); naive_solver).
    exists (delete p H). split; [|by rewrite delete_delete_eq].
    unfold unpin, bpm, mbind, M_bind. cbn [pool_unpin apool_pool]. unfold APool.unpin, BTreeSteps.st. simpl.
    rewrite (bool_decide_eq_true_2 (p ∈ P ⊎ {[+ p +]})) by apply in_pins. simpl. rewrite pin_unpin.
    by rewrite (bool_decide_eq_true_2 (p ∉ P)), (bool_decide_eq_true_2 (p ∈ U)).
Qed.

(** Releasing a page and deleting it: a page somebody else has pinned stays,
    perhaps with changes nobody will announce. *)
Lemma delete_pinned H P U n r p :
  p ∈ P → bpm (pool_delete p) (st H P U n r) = (Val false, st H P U n r).
Proof.
  intros Hp. unfold bpm. cbn [pool_delete apool_pool]. unfold APool.del, BTreeSteps.st. simpl.
  by rewrite bool_decide_eq_true_2.
Qed.

Lemma drop_page {A} H P U n r p nd (k : M (BPlusTree.t APool.t) A) :
  ∃ H1 U1, (unpin p nd;; _ ← bpm (pool_delete p); k) (st H (P ⊎ {[+ p +]}) U n r) = k (st H1 P U1 n r) ∧
    (∀ x, x ≠ p → H1 !! x = H !! x) ∧ U1 ⊆ U ∧ (p ∈ U1 → p ∈ P).
Proof.
  destruct (decide (p ∈ P)) as [Hp|Hp].
  - exists H, (if nd then U ∖ {[p]} else U).
    assert (E : unpin p nd (st H (P ⊎ {[+ p +]}) U n r) = (Val tt, st H P (if nd then U ∖ {[p]} else U) n r)).
    { destruct nd; [apply unpin_either; by left|]. rewrite unpin_clean; [by rewrite pin_unpin|apply in_pins|]. rewrite pin_unpin. by right. }
    split_and!; [|done|destruct nd; sub_solver|done]. mrun E. by mrun (delete_pinned H P (if nd then U ∖ {[p]} else U) n r p Hp).
  - destruct (unpin_discard H P U n r p nd Hp) as (H1 & E & EH). exists (delete p H), (U ∖ {[p]}).
    split_and!; [|intros x Hx; by rewrite lookup_delete_ne|sub_solver|set_solver].
    mrun E. mrun (delete_ok cap lm im H1 P (U ∖ {[p]}) n r p Hp). by rewrite EH.
Qed.

(** What a removal leaves: the tree on some of its pages, or no tree.  Changes
    not announced are those there were before ([V]), and changes of pages that
    have left the tree and that somebody else has pinned ([P]). *)
Record shrunk (P : gmultiset page_id_t) (V U' : gset page_id_t) (H H' : heap) (r' : page_id_t)
    (es : list (Z * string)) (ps : list page_id_t) : Prop := {
  sh_tree : ∃ ps', (whole H' r' es ps' ∨ (es = [] ∧ r' = INVALID_PAGE_ID ∧ ps' = [])) ∧ ps' ⊆ ps ∧
    (∀ x, x ∈ U' → x ∈ V ∨ (x ∈ P ∧ x ∉ ps'));
  sh_frame : ∀ p, p ∉ ps → H' !! p = H !! p;
}.

Lemma full_root_full h (t : tree h) : full h t → root_full lm im t.
Proof using Hlm Him.
  destruct h; simpl; pose proof (min_size_2 lm ltac:(lia)); pose proof (min_size_2 im ltac:(lia)); [lia|].
  intros [? ?]. split; [lia|done].
Qed.

Definition least (h : nat) (top : bool) : Z :=
  if top then match h with O => 0 | S _ => 1 end else min_size (node_max h) - 1.

Lemma root_underflow h H P U V n lo hi (t : tree h) nd :
  zip H (Top h) lo hi t → children_full t → least h true ≤ node_size t ≤ node_max h →
  U ⊆ {[root t]} ∪ V → nd = true ∨ root t ∉ U → (∀ x, x ∈ pids h t → x ∉ V) → room P 1 →
  ∃ H' U' r', HandleRootUnderflow (root t) nd (st H (P ⊎ {[+ root t +]}) U n (root t)) = (Val tt, st H' P U' n r') ∧
    shrunk P V U' H H' r' (entries h t) (pids h t).
Proof using Hlm Him.
  intros Hz Hcf Hsz HU Hnd HP Hroom. pose proof (root_in_pids h t) as Hrt.
  destruct (rep_hdr _ _ _ _ _ _ _ (z_rep _ _ _ _ _ _ _ Hz)) as (d & Hd & Hh). simpl in Hh.
  (* the root stays *)
  assert (Hkeep : root_full lm im t →
    ∃ H' U' r', unpin (root t) nd (st H (P ⊎ {[+ root t +]}) U n (root t)) = (Val tt, st H' P U' n r') ∧
      shrunk P V U' H H' r' (entries h t) (pids h t)).
  { intros Hrf. exists H, (U ∖ {[root t]}), (root t). split; [by apply unpin_either|].
    split; [|done]. exists (pids h t). split_and!; [left|done|intros x Hx; left; sub_solver].
    pose proof (zip_up _ _ _ _ _ _ _ Hz Hrf) as Hw. simpl in Hw. by rewrite !app_nil_r in Hw. }
  unfold HandleRootUnderflow. mrun (read_ok cap lm im H _ U n (root t) (root t) d Hd (in_pins P (root t))).
  rewrite (is_leaf_hdr h d _ _ _ Hh). rewrite (hdr_size _ _ _ _ _ Hh).
  destruct h as [|h].
  - rewrite bool_decide_eq_true_2 by done. destruct (Z.eqb_spec (node_size t) 0) as [E0|Hne].
    + destruct (drop_page H P U n (root t) (root t) nd (set_root INVALID_PAGE_ID)) as (H1 & U1 & E1 & EH & HU1 & HbP).
      exists H1, U1, INVALID_PAGE_ID. split; [by rewrite E1|]. split.
      * exists []. split_and!; [right|set_solver|].
        -- split; [|done]. simpl. simpl in E0. destruct (t.2); [done|simpl in E0; lia].
        -- intros x Hx. destruct (decide (x = root t)) as [->|]; [right; split; [by apply HbP|apply not_elem_of_nil]|left; set_solver].
      * intros x Hx. apply EH. intros ->. by apply Hx.
    + apply Hkeep. simpl in *. lia.
  - rewrite bool_decide_eq_false_2 by done. destruct (Z.eqb_spec (node_size t) 1) as [E1|Hne].
    2:{ apply Hkeep. split; [|exact Hcf]. simpl in Hsz, Hne. lia. }
    destruct t as [p cs]. assert (∃ k c, cs = [(k, c)]) as (k & c & ->).
    { simpl in E1. destruct cs as [|[k c] [|]]; simpl in E1; [lia|eauto|lia]. }
    destruct (zip_node _ _ _ _ _ _ _ _ Hz) as [(d' & Hd' & Hir) [Hc _]]. simpl in Hd, Hc. simplify_eq.
    pose proof (z_nodup _ _ _ _ _ _ _ Hz) as Hnd'. simpl in Hnd'. unfold flat in Hnd'. simpl in Hnd'. rewrite !app_nil_r in Hnd'.
    apply NoDup_cons in Hnd' as [Hpc Hndc].
    assert (Hrc : root c ≠ p) by (intros E; apply Hpc; rewrite <-E; apply root_in_pids).
    assert (Hcp : ∀ x, x ∈ pids h c → x ∈ pids (S h) ((p, [(k, c)]) : tree (S h))).
    { intros x Hx. rewrite pids_node. right. unfold flat. simpl. by rewrite app_nil_r. }
    destruct (rep_hdr _ _ _ _ _ _ _ Hc) as (dc & Hdc & Hhc).
    destruct (int_RemoveOnlyChild _ _ _ _ _ Hir) as (d1 & Erm & Hl1).
    destruct (on_page_ok cap lm im H (P ⊎ {[+ p +]}) U n p p d d1 _ InternalPage.RemoveAndReturnOnlyChild Hd (in_pins _ _) Erm Hl1)
      as (U1 & Eo & _ & HU1).
    destruct (drop_page (<[p := d1]> H) P U1 n p p nd (fetch (root c);;
      update (root c) (λ d, Val (BPlusTreePage.SetParentPageId INVALID_PAGE_ID d));; unpin (root c) true;; set_root (root c)))
      as (H1 & U1' & Eu & EH & HU1' & HpP).
    assert (Hdc1 : H1 !! root c = Some dc) by (rewrite EH, lookup_insert_ne by done; done).
    destruct (update_at cap lm im H1 (P ⊎ {[+ root c +]}) U1' n p (root c) dc _
      (λ d, Val (BPlusTreePage.SetParentPageId INVALID_PAGE_ID d)) Hdc1 (in_pins _ _) eq_refl
      (SetParent_blen _ _ (hdr_len _ _ _ _ _ Hhc))) as (U2 & E2 & HU2).
    eexists _, (U2 ∖ {[root c]}), (root c). split; [|split].
    + simpl root. mrun Eo. etransitivity; [exact Eu|].
      mdo (apply fetch_ok; [eauto|by right]). mrun E2.
      mdo (apply unpin_dirty, in_pins). rewrite pin_unpin. done.
    + exists (pids h c). split_and!; [left|by intros x Hx; apply Hcp|].
      2:{ intros x Hx. simpl in HU. destruct (decide (x = p)) as [->|]; [right; split; [apply HpP; set_solver|done]|left; set_solver]. }
      exists h, c. pose proof (z_ord _ _ _ _ _ _ _ Hz) as [_ Ho]. pose proof (z_cord _ _ _ _ _ _ _ Hz) as [-> ->]. simpl in Ho.
      split_and!; try done.
      * eapply rep_frame, (rep_set_parent _ _ _ _ _ _ _ dc); [|exact Hc|done|done|done]. intros x Hx.
        destruct (decide (x = root c)) as [->|]; [by rewrite !lookup_insert_eq|].
        rewrite !lookup_insert_ne by done. assert (x ≠ p) by (by intros ->). by rewrite EH, lookup_insert_ne.
      * apply full_root_full. apply (Hcf (k, c)). by left.
      * simpl. unfold flat. simpl. by rewrite app_nil_r.
    + intros x Hx. assert (x ≠ p) by (intros ->; apply Hx; by left).
      rewrite lookup_insert_ne, EH, lookup_insert_ne; [done|done|done|]. intros <-. apply Hx, Hcp, root_in_pids.
Qed.

(** ** Trying to borrow *)

Section borrow.
Context (H : heap) (P : gmultiset page_id_t) (U : gset page_id_t) (n r p sib node : page_id_t) (nd : bool).
Context (d : bytes) (ty sz mx par : Z).
Hypothesis Hd : H !! sib = Some d.
Hypothesis Hh : hdr d ty sz mx par.
Hypothesis Hroom : room P 3.
Abbreviation Q := (P ⊎ {[+ node +]} ⊎ {[+ p +]}) (only parsing).

Lemma fetch_sibling : fetch sib (st H Q U n r) = (Val tt, st H (Q ⊎ {[+ sib +]}) U n r).
Proof using Hd Hroom. apply fetch_ok; [eauto|]. right. by do 2 apply room_add. Qed.

Lemma hdr_min : BPlusTreePage.GetMinSize d = min_size mx.
Proof using Hh. unfold BPlusTreePage.GetMinSize, min_size. by rewrite (hdr_max _ _ _ _ _ Hh). Qed.

Lemma try_borrow_no bor :
  sz ≤ min_size mx → sib ∉ U → try_borrow sib node p nd bor (st H Q U n r) = (Val false, st H Q U n r).
Proof using Hd Hh Hroom.
  intros Hsz Hu. unfold try_borrow. mdo (do 2 apply unwind_Val; apply fetch_sibling).
  mrun (read_ok cap lm im H (Q ⊎ {[+ sib +]}) U n r sib d Hd (in_pins _ _)).
  rewrite hdr_min, (hdr_size _ _ _ _ _ Hh), (proj2 (Z.ltb_ge _ _)) by done.
  mdo (apply unpin_either; by right). by replace (U ∖ {[sib]}) with U by (clear -Hu; set_solver).
Qed.

Lemma try_borrow_yes bor H' U' :
  min_size mx < sz → bor (st H (Q ⊎ {[+ sib +]}) U n r) = (Val tt, st H' (Q ⊎ {[+ sib +]}) U' n r) →
  try_borrow sib node p nd bor (st H Q U n r) = (Val true, st H' P (U' ∖ {[sib]} ∖ {[p]} ∖ {[node]}) n r).
Proof using Hd Hh Hroom.
  intros Hsz Eb. unfold try_borrow. mdo (do 2 apply unwind_Val; apply fetch_sibling).
  mrun (read_ok cap lm im H (Q ⊎ {[+ sib +]}) U n r sib d Hd (in_pins _ _)).
  rewrite hdr_min, (hdr_size _ _ _ _ _ Hh), (proj2 (Z.ltb_lt _ _)) by done.
  mdo (do 3 apply unwind_Val; exact Eb).
  mdo (apply unpin_either; by left). mdo (apply unpin_either; by left). mdo (apply unpin_either; by left). done.
Qed.
End borrow.

(** ** After a redistribution *)

Lemma shrunk_perm P V U H H' r es ps ps' : ps ≡ₚ ps' → shrunk P V U H H' r es ps → shrunk P V U H H' r es ps'.
Proof.
  intros Hps [Ht Hf]. split.
  - destruct Ht as (ps1 & Hw & Hs & HU). exists ps1. split_and!; [done| |done]. intros x Hx%Hs. by rewrite <-Hps.
  - intros x Hx. apply Hf. by rewrite Hps.
Qed.

Lemma node_parts {h} (up : ctx (S h)) p (ls : list (Z * tree h)) k t rs :
  cl (Up h p ls k rs up) ++ entries h t ++ cr (Up h p ls k rs up) =
    cl up ++ entries (S h) ((p, ls ++ (k, t) :: rs) : tree (S h)) ++ cr up ∧
  pids (S h) ((p, ls ++ (k, t) :: rs) : tree (S h)) ++ cpids up ≡ₚ pids h t ++ cpids (Up h p ls k rs up).
Proof. split; [|apply node_nodup]. simpl. by rewrite flat_app, flat_cons, <-!app_assoc. Qed.

Lemma shrunk_rotated {h} P V U' H H' (up : ctx (S h)) lo hi p (ls : list (Z * tree h)) ka a kb b rs l u a' kb' b' :
  zip H up lo hi ((p, ls ++ (ka, a) :: (kb, b) :: rs) : tree (S h)) →
  ordl lo hi (ivls (ord h) ls ++ (ka, hole l u) :: ivls (ord h) rs) →
  rotated H H' p (cpar up) ls ka a b rs (next_of (cnext up) rs) l u a' kb' b' →
  (if is_top up then 2 else min_size im) ≤ Z.of_nat (length ls + length rs + 2) ≤ im →
  (∀ e, e ∈ ls ++ rs → full h e.2) → full h a' → full h b' → U' ⊆ V →
  shrunk P V U' H H' (croot up p) (cl up ++ entries (S h) ((p, ls ++ (ka, a) :: (kb, b) :: rs) : tree (S h)) ++ cr up)
    (pids (S h) ((p, ls ++ (ka, a) :: (kb, b) :: rs) : tree (S h)) ++ cpids up).
Proof.
  intros Hz Hol Hro Hsz Hfull Ha' Hb' HUV. pose proof (zip_rotated _ _ _ _ _ _ _ _ _ _ _ _ _ _ _ _ _ Hz Hol Hro) as Hz'.
  destruct Hro as [_ Ea Eb Hes Hps Hfl Hfr].
  assert (Hpp : pids (S h) ((p, ls ++ (ka, a') :: (kb', b') :: rs) : tree (S h)) ++ cpids up ≡ₚ
    pids (S h) ((p, ls ++ (ka, a) :: (kb, b) :: rs) : tree (S h)) ++ cpids up).
  { rewrite !pair_pids. simpl. by rewrite Hps. }
  assert (Hee : entries (S h) ((p, ls ++ (ka, a') :: (kb', b') :: rs) : tree (S h)) =
    entries (S h) ((p, ls ++ (ka, a) :: (kb, b) :: rs) : tree (S h))).
  { simpl. rewrite !flat_app, !flat_cons. simpl. rewrite !(app_assoc (entries h _) (entries h _)). by rewrite Hes. }
  split.
  - eexists. rewrite <-Hee. split_and!; [left| |intros x Hx; left; by apply HUV].
    + apply (zip_up _ _ _ _ _ _ _ Hz'). apply node_fits. split_and!; [rewrite length_cons; lia..| |done].
      intros e. rewrite elem_of_app, elem_of_cons. intros [?|[->|?]]; [|done|]; apply Hfull, elem_of_app; auto.
    + intros x Hx. by rewrite <-Hpp.
  - intros x Hx. apply Hfr. intros Hin. apply Hx. rewrite pair_pids. apply elem_of_app. by left.
Qed.

(** ** Merging *)

Lemma pair_Remove {h} (ls rs : list (Z * tree h)) ka ra kb rb d par :
  int_rep d par im (links ls ++ (ka, ra) :: (kb, rb) :: links rs) →
  ∃ d', InternalPage.Remove (Z.of_nat (length ls) + 1) d = Val d' ∧ int_rep d' par im (links ls ++ (ka, ra) :: links rs).
Proof.
  intros Hd. destruct (int_Remove _ _ _ _ (S (length ls)) Hd) as (d' & E & Hd').
  { rewrite length_app, links_length. simpl. lia. }
  exists d'. split; [by replace (Z.of_nat (length ls) + 1) with (Z.of_nat (S (length ls))) by lia|].
  replace (links ls ++ (ka, ra) :: links rs) with
    (take (S (length ls)) (links ls ++ (ka, ra) :: (kb, rb) :: links rs) ++ drop (S (S (length ls))) (links ls ++ (ka, ra) :: (kb, rb) :: links rs));
    [done|].
  rewrite <-(links_length ls). rewrite take_app_ge, drop_app_ge by lia.
  replace (S (length (links ls)) - length (links ls))%nat with 1%nat by lia.
  replace (S (S (length (links ls))) - length (links ls))%nat with 2%nat by lia. simpl. by rewrite <-app_assoc.
Qed.

Section merge.
Context {h : nat} (H : heap) (P : gmultiset page_id_t) (U V : gset page_id_t) (n r p : page_id_t) (up : ctx (S h)).
Context (ls rs : list (Z * tree h)) (ka kb : Z) (a b : tree h) (lo hi : option Z).
Hypothesis Hz : zip H up lo hi ((p, ls ++ (ka, a) :: (kb, b) :: rs) : tree (S h)).
Hypothesis Hca : children_full a.
Hypothesis Hcb : children_full b.
Hypothesis Hroom : room P 4.
Hypothesis Hsum : node_size a + node_size b ≤ node_max h.

Lemma merge_ids : root a ≠ root b ∧ p ≠ root a ∧ p ≠ root b.
Proof using Hz Hlm Him.
  pose proof (z_nodup _ _ _ _ _ _ _ Hz) as Hnd. rewrite pair_pids in Hnd.
  apply NoDup_app in Hnd as (Hnd & _ & _). apply NoDup_cons in Hnd as [Hp (_ & Hdj & _)%NoDup_app].
  pose proof (root_in_pids h a) as Hra. pose proof (root_in_pids h b) as Hrb. rewrite elem_of_app in Hp.
  split_and!.
  - intros E. apply (Hdj (root a)); [done|]. by rewrite E.
  - intros ->. naive_solver.
  - intros ->. naive_solver.
Qed.

(** The parent drops its entry for the emptied node, whose page is deleted. *)
Lemma merge_finish H1 U1 d nd :
  H1 !! p = Some d → int_rep d (cpar up) im (links ls ++ (ka, root a) :: (kb, root b) :: links rs) →
  U1 ⊆ {[root a; root b; p]} ∪ V →
  ∃ d' H2 U2, int_rep d' (cpar up) im (links ls ++ (ka, root a) :: links rs) ∧
    (∀ x, x ≠ root b → H2 !! x = <[p := d']> H1 !! x) ∧
    (∀ x, x ∈ U2 → x ∈ V ∨ (x ∈ P ∧ x = root b)) ∧
    (update p (InternalPage.Remove (Z.of_nat (length ls) + 1));; unpin (root b) nd;;
     _ ← bpm (pool_delete (root b)); unpin (root a) true;; unpin p true)
      (st H1 (P ⊎ {[+ p +]} ⊎ {[+ root a +]} ⊎ {[+ root b +]}) U1 n r) =
    (Val tt, st H2 P U2 n r).
Proof using Hz Hlm Him.
  intros Hd Hir HU. destruct merge_ids as (Hab & Hpa & Hpb).
  destruct (pair_Remove ls rs _ _ _ _ _ _ Hir) as (d' & Erm & Hir').
  destruct (update_at cap lm im H1 (P ⊎ {[+ p +]} ⊎ {[+ root a +]} ⊎ {[+ root b +]}) U1 n r p d d'
    (InternalPage.Remove (Z.of_nat (length ls) + 1)) Hd ltac:(by do 2 apply in_pins_l; apply in_pins) Erm
    (int_blen _ _ _ _ _ Hir')) as (U2 & E2 & HU2).
  destruct (drop_page (<[p := d']> H1) (P ⊎ {[+ p +]} ⊎ {[+ root a +]}) U2 n r (root b) nd (unpin (root a) true;; unpin p true))
    as (H2 & U3 & E3 & EH & HU3 & HbP).
  exists d', H2, (U3 ∖ {[root a]} ∖ {[p]}). split_and!; [done|done| |].
  - intros x Hx. destruct (decide (x = root b)) as [->|]; [right; split; [|done]|left; clear -HU HU2 HU3 Hx n0; set_solver].
    assert (Hin : root b ∈ P ⊎ {[+ p +]} ⊎ {[+ root a +]}) by (apply HbP; clear -Hx; set_solver).
    rewrite !gmultiset_elem_of_disj_union, !gmultiset_elem_of_singleton in Hin. naive_solver.
  - mrun E2. etransitivity; [exact E3|]. mdo (apply unpin_either; by left). by apply unpin_either; left.
Qed.

Lemma zip_frame {h'} H1 H2 (c : ctx h') l u (t : tree h') :
  (∀ x, x ∈ pids h' t ++ cpids c → H2 !! x = H1 !! x) → zip H1 c l u t → zip H2 c l u t.
Proof.
  intros Hf [Hr Hc Hco Ho Hcf Hnd]. split; try done.
  - eapply rep_frame; [|exact Hr]. intros x Hx. apply Hf, elem_of_app. by left.
  - eapply crep_frame; [|exact Hc]. intros x Hx. apply Hf, elem_of_app. by right.
Qed.

(** What the parent looks like afterwards. *)
Record joined (H2 : heap) (a' : tree h) : Prop := {
  jo_zip : zip H2 up lo hi ((p, ls ++ (ka, a') :: rs) : tree (S h));
  jo_cf : children_full a';
  jo_size : node_size a' = node_size a + node_size b;
  jo_entries : flat (entries h) (ls ++ (ka, a') :: rs) = flat (entries h) (ls ++ (ka, a) :: (kb, b) :: rs);
  jo_pids : ∀ x, x ∈ pids (S h) ((p, ls ++ (ka, a') :: rs) : tree (S h)) ++ cpids up →
    x ∈ pids (S h) ((p, ls ++ (ka, a) :: (kb, b) :: rs) : tree (S h)) ++ cpids up;
  jo_gone : root b ∉ pids (S h) ((p, ls ++ (ka, a') :: rs) : tree (S h)) ++ cpids up;
  jo_frame : ∀ x, x ∉ pids (S h) ((p, ls ++ (ka, a) :: (kb, b) :: rs) : tree (S h)) ++ cpids up → H2 !! x = H !! x;
}.

Lemma merged_joined H1 H2 d' l u a' :
  ordl lo hi (ivls (ord h) ls ++ (ka, hole l u) :: ivls (ord h) rs) →
  merged H H1 p a b (next_of (cnext up) rs) l u a' →
  int_rep d' (cpar up) im (links ls ++ (ka, root a) :: links rs) →
  (∀ x, x ≠ root b → H2 !! x = <[p := d']> H1 !! x) →
  joined H2 a'.
Proof using Hz Hlm Him.
  intros Hol Hm Hir HH2. pose proof (zip_merged _ _ _ _ _ _ _ _ _ _ _ _ _ _ _ _ Hz Hol Hm Hir) as Hz'.
  destruct Hm as [Hr Hoa Hcf Ea Hsz Hes Hps Hfl Hfr]. pose proof (root_in_pids h b) as Hrb.
  assert (Hgone : root b ∉ pids (S h) ((p, ls ++ (ka, a') :: rs) : tree (S h)) ++ cpids up).
  { pose proof (z_nodup _ _ _ _ _ _ _ Hz) as Hnd. rewrite pair_pids, <-Hps in Hnd.
    rewrite pids_node, flat_app, flat_cons. intros Hin.
    assert (Hnd' : NoDup (root b :: p :: pids h a' ++ flat (pids h) ls ++ flat (pids h) rs ++ cpids up)).
    { eapply NoDup_Permutation_proper; [|exact Hnd]. simpl. solve_Permutation. }
    apply NoDup_cons in Hnd' as [Hno _]. apply Hno. revert Hin. simpl. rewrite !elem_of_cons, !elem_of_app. tauto. }
  split; try done.
  - eapply zip_frame; [|exact Hz']. intros x Hx. assert (x ≠ root b) by (by intros ->).
    rewrite HH2, (lookup_delete_ne _ (root b)) by done. done.
  - rewrite !flat_app, !flat_cons. simpl. by rewrite Hes, <-app_assoc.
  - intros x. rewrite pair_pids, pids_node, flat_app, flat_cons, elem_of_app, elem_of_cons, !elem_of_app, elem_of_cons. simpl.
    assert (Hin : x ∈ pids h a' → x ∈ pids h a ++ pids h b) by (intros Hx; rewrite <-Hps; by right).
    rewrite !elem_of_app in *. naive_solver.
  - intros x Hx. rewrite pair_pids, elem_of_app in Hx. rewrite HH2, lookup_insert_ne.
    + apply Hfr. intros Hin. apply Hx. left. by right.
    + intros <-. apply Hx. left. by left.
    + intros ->. apply Hx. left. right. apply elem_of_app. by right.
Qed.

Lemma merge_into_left_run nd :
  U ⊆ {[root b]} ∪ V →
  ∃ H2 U2 a', joined H2 a' ∧ (∀ x, x ∈ U2 → x ∈ V ∨ (x ∈ P ∧ x = root b)) ∧
    (unwind (root b) nd (unwind p false (fetch (root a)));;
     unwind (root b) nd (unwind p false (unwind (root a) false
       (merge_into_left (kind h) (root a) (root b) p (Z.of_nat (length ls) + 1))));;
     update p (InternalPage.Remove (Z.of_nat (length ls) + 1));; unpin (root b) nd;;
     _ ← bpm (pool_delete (root b)); unpin (root a) true;; unpin p true) (st H (P ⊎ {[+ root b +]} ⊎ {[+ p +]}) U n r) =
    (Val tt, st H2 P U2 n r).
Proof using Hz Hca Hcb Hroom Hsum Hlm Him.
  intros HU. destruct merge_ids as (Hab & Hpa & Hpb).
  destruct (zip_pair _ _ _ _ _ _ _ _ _ _ _ Hz Hca Hcb) as (l & u & Hpair & Hol).
  destruct (rep_hdr _ _ _ _ _ _ _ (pr_a _ _ _ _ _ _ _ _ _ _ _ _ _ _ Hpair)) as (da & Hda & _).
  destruct (pr_par _ _ _ _ _ _ _ _ _ _ _ _ _ _ Hpair) as (dp & Hdp & Hip).
  set (Q := P ⊎ {[+ p +]} ⊎ {[+ root a +]} ⊎ {[+ root b +]}).
  assert (HQ : P ⊎ {[+ root b +]} ⊎ {[+ p +]} ⊎ {[+ root a +]} = Q) by (unfold Q; multiset_solver).
  destruct (kind_merge cap lm im Hlm Him H Q U ({[root a; root b; p]} ∪ V) n r p (cpar up) ls rs ka kb a b _ l u Hpair)
    as (H1 & U1 & a' & HU1 & Hm & Em & _);
    [sub_solver|sub_solver|sub_solver|sub_solver|by apply in_pins_l, in_pins|apply in_pins
    |by do 2 apply in_pins_l; apply in_pins|by do 3 apply room_add|done|].
  destruct (merge_finish H1 U1 dp nd) as (d' & H2 & U2 & Hir' & HH2 & HU2 & Ef); [|done|done|].
  { rewrite (me_frame _ _ _ _ _ _ _ _ _ _ _ Hm); [done|]. pose proof (pr_nodup _ _ _ _ _ _ _ _ _ _ _ _ _ _ Hpair) as Hnd.
    by apply NoDup_cons in Hnd as [? _]. }
  exists H2, U2, a'. split_and!; [by eapply merged_joined|done|].
  mdo (do 2 apply unwind_Val; apply fetch_ok; [eauto|right; do 2 apply room_add; by eapply room_weaken; [exact Hroom|lia]]).
  rewrite HQ. mdo (do 3 apply unwind_Val; exact Em). exact Ef.
Qed.

Lemma merge_right_in_run nd :
  U ⊆ {[root a]} ∪ V →
  ∃ H2 U2 a', joined H2 a' ∧ (∀ x, x ∈ U2 → x ∈ V ∨ (x ∈ P ∧ x = root b)) ∧
    (unwind (root a) nd (unwind p false (fetch (root b)));;
     unwind (root a) nd (unwind p false (unwind (root b) false
       (merge_right_in (kind h) (root b) (root a) p (Z.of_nat (length ls)))));;
     update p (InternalPage.Remove (Z.of_nat (length ls) + 1));; unpin (root b) false;;
     _ ← bpm (pool_delete (root b)); unpin (root a) true;; unpin p true) (st H (P ⊎ {[+ root a +]} ⊎ {[+ p +]}) U n r) =
    (Val tt, st H2 P U2 n r).
Proof using Hz Hca Hcb Hroom Hsum Hlm Him.
  intros HU. destruct merge_ids as (Hab & Hpa & Hpb).
  destruct (zip_pair _ _ _ _ _ _ _ _ _ _ _ Hz Hca Hcb) as (l & u & Hpair & Hol).
  destruct (rep_hdr _ _ _ _ _ _ _ (pr_b _ _ _ _ _ _ _ _ _ _ _ _ _ _ Hpair)) as (db & Hdb & _).
  destruct (pr_par _ _ _ _ _ _ _ _ _ _ _ _ _ _ Hpair) as (dp & Hdp & Hip).
  set (Q := P ⊎ {[+ p +]} ⊎ {[+ root a +]} ⊎ {[+ root b +]}).
  assert (HQ : P ⊎ {[+ root a +]} ⊎ {[+ p +]} ⊎ {[+ root b +]} = Q) by (unfold Q; multiset_solver).
  destruct (kind_merge cap lm im Hlm Him H Q U ({[root a; root b; p]} ∪ V) n r p (cpar up) ls rs ka kb a b _ l u Hpair)
    as (H1 & U1 & a' & HU1 & Hm & _ & Em);
    [sub_solver|sub_solver|sub_solver|sub_solver|by apply in_pins_l, in_pins|apply in_pins
    |by do 2 apply in_pins_l; apply in_pins|by do 3 apply room_add|done|].
  destruct (merge_finish H1 U1 dp false) as (d' & H2 & U2 & Hir' & HH2 & HU2 & Ef); [|done|done|].
  { rewrite (me_frame _ _ _ _ _ _ _ _ _ _ _ Hm); [done|]. pose proof (pr_nodup _ _ _ _ _ _ _ _ _ _ _ _ _ _ Hpair) as Hnd.
    by apply NoDup_cons in Hnd as [? _]. }
  exists H2, U2, a'. split_and!; [by eapply merged_joined|done|].
  mdo (do 2 apply unwind_Val; apply fetch_ok; [eauto|right; do 2 apply room_add; by eapply room_weaken; [exact Hroom|lia]]).
  rewrite HQ. mdo (do 3 apply unwind_Val; exact Em). exact Ef.
Qed.
End merge.

(** ** An underfull node below the root *)

Lemma min_twice h : 2 ≤ min_size (node_max h) ∧ 2 * min_size (node_max h) ≤ node_max h + 1.
Proof using Hlm Him.
  assert (3 ≤ node_max h) by (destruct h; simpl; lia). split; [by apply min_size_2|].
  unfold min_size. rewrite Z.quot_div_nonneg by lia. pose proof (Z.mul_div_le (node_max h + 1) 2). lia.
Qed.

Section underfull.
Context {h : nat} (H : heap) (P : gmultiset page_id_t) (U V : gset page_id_t) (n p : page_id_t) (up : ctx (S h)).
Context (ls rs : list (Z * tree h)) (k : Z) (t : tree h) (lo hi : option Z) (nd : bool) (dp : bytes).
Abbreviation parent := ((p, ls ++ (k, t) :: rs) : tree (S h)) (only parsing).
Abbreviation r := (croot up p) (only parsing).
Hypothesis Hz : zip H up lo hi parent.
Hypothesis Hct : children_full t.
Hypothesis Hsz : node_size t = min_size (node_max h) - 1.
Hypothesis Hcount : (if is_top up then 2 else min_size im) ≤ Z.of_nat (length ls + 1 + length rs) ≤ im.
Hypothesis Hsib : ∀ e, e ∈ ls ++ rs → full h e.2.
Hypothesis HU : U ⊆ {[root t]} ∪ V.
Hypothesis HP : ∀ x, x ∈ pids (S h) parent ++ cpids up → x ∉ V.
Hypothesis Hroom : room P 4.
Hypothesis Hdp : H !! p = Some dp.
Hypothesis Hir : int_rep dp (cpar up) im (links (ls ++ (k, t) :: rs)).

Abbreviation Q := (P ⊎ {[+ root t +]} ⊎ {[+ p +]}) (only parsing).
Abbreviation done_with res := (∃ H' U', res = (Val true, st H' P U' n r) ∧
  shrunk P V U' H H' r (cl up ++ entries (S h) parent ++ cr up) (pids (S h) parent ++ cpids up)) (only parsing).

(** A sibling is unpinned and unchanged. *)
Lemma sibling_page e : e ∈ ls ++ rs →
  ∃ d, H !! root e.2 = Some d ∧ hdr d (node_type h) (node_size e.2) (node_max h) p ∧ root e.2 ∉ U.
Proof using All.
  intros He. destruct (zip_node _ _ _ _ _ _ _ _ Hz) as [_ Hreps].
  assert (Hin : e ∈ ls ++ (k, t) :: rs) by (rewrite elem_of_app, elem_of_cons; apply elem_of_app in He; tauto).
  assert (Hrep : ∃ nx, rep h H p nx e.2).
  { clear -Hreps Hin. revert Hreps. generalize (cnext up). induction (ls ++ (k, t) :: rs) as [|e' l IH]; [set_solver|].
    simpl. intros nx [Hr Hrs]. apply elem_of_cons in Hin as [->|Hin]; [eauto|]. by eapply IH. }
  destruct Hrep as [nx Hrep]. destruct (rep_hdr _ _ _ _ _ _ _ Hrep) as (d & Hd & Hh). exists d. split_and!; [done|done|].
  assert (Hre : root e.2 ∈ flat (pids h) ls ++ flat (pids h) rs).
  { rewrite <-flat_app. apply elem_of_flat. exists e. split; [done|apply root_in_pids]. }
  intros Hu. apply HU, elem_of_union in Hu as [Hu|Hu].
  - apply elem_of_singleton in Hu. pose proof (z_nodup _ _ _ _ _ _ _ Hz) as Hnd.
    rewrite pids_node, flat_app, flat_cons in Hnd. simpl in Hnd. apply NoDup_cons in Hnd as [_ Hnd].
    apply NoDup_app in Hnd as (Hnd & _ & _).
    assert (Hnd' : NoDup (pids h t ++ flat (pids h) ls ++ flat (pids h) rs)).
    { eapply NoDup_Permutation_proper; [|exact Hnd]. solve_Permutation. }
    apply NoDup_app in Hnd' as (_ & Hdj & _). apply (Hdj (root e.2)); [rewrite Hu; apply root_in_pids|done].
  - revert Hu. apply HP. rewrite pids_node, flat_app, flat_cons, elem_of_app, elem_of_cons, !elem_of_app. simpl.
    apply elem_of_app in Hre. tauto.
Qed.

Lemma try_left :
  let res := (if 0 <? Z.of_nat (length ls) then
     left_id ← lift (InternalPage.ValueAt dp (Z.of_nat (length ls) - 1));
     try_borrow left_id (root t) p nd (borrow_left (kind h) left_id (root t) p (Z.of_nat (length ls)))
     else mret false) (st H Q U n r) in
  done_with res ∨
  (res = (Val false, st H Q U n r) ∧
   ∀ ls' kl tl, ls = ls' ++ [(kl, tl)] → node_size tl ≤ min_size (node_max h)).
Proof using All.
  destruct (decide (ls = [])) as [E|Hne].
  { right. rewrite E. split; [done|]. intros ls' kl tl Hls. symmetry in Hls. by apply app_nil in Hls as [_ [=]]. }
  destruct (exists_last Hne) as (ls' & [kl tl] & Els).
  assert (Hlen : length ls = S (length ls')) by (by rewrite Els, length_app, Nat.add_comm).
  rewrite (proj2 (Z.ltb_lt _ _)) by lia.
  assert (Hval : InternalPage.ValueAt dp (Z.of_nat (length ls) - 1) = Val (root tl)).
  { replace (Z.of_nat (length ls) - 1) with (Z.of_nat (length ls')) by lia. apply (int_ValueAt _ _ _ _ _ Hir _ kl).
    rewrite Els, <-app_assoc. simpl. rewrite links_app, lookup_app_r, links_length, Nat.sub_diag by (rewrite links_length; lia). done. }
  destruct (sibling_page (kl, tl)) as (d & Hd & Hh & Hnu); [rewrite Els; set_solver|]. simpl in Hd, Hh, Hnu.
  cbn zeta. rewrite (bind_Val _ _ _ (root tl) (st H Q U n r)) by (unfold lift; by rewrite Hval).
  destruct (Z.lt_ge_cases (min_size (node_max h)) (node_size tl)) as [Hbig|Hsmall].
  2:{ right. split.
      - eapply try_borrow_no; [exact Hd|exact Hh|by eapply room_weaken; [exact Hroom|lia]|done|done].
      - intros ls1 kl1 tl1 E. rewrite Els in E. by apply app_inj_tail in E as [_ [= -> ->]]. }
  left. destruct (min_twice h) as [Hm1 Hm2].
  assert (Hcs : ls ++ (k, t) :: rs = ls' ++ (kl, tl) :: (k, t) :: rs) by (by rewrite Els, <-app_assoc).
  assert (Hftl : full h tl) by (apply (Hsib (kl, tl)); rewrite Els; set_solver).
  apply full_iff in Hftl as [Hstl Hctl].
  pose proof Hz as Hz'. rewrite Hcs in Hz'.
  destruct (zip_pair _ _ _ _ _ _ _ _ _ _ _ Hz' Hctl Hct) as (l & u & Hpair & Hol).
  destruct (kind_borrow_left cap lm im Hlm Him H (Q ⊎ {[+ root tl +]}) U ({[root tl; root t; p]} ∪ V) n r p (cpar up) ls' rs kl k
    tl t _ l u Hpair) as (H' & U' & a' & kb' & b' & Eb & HU' & Hs1 & Hs2 & Hro);
    [sub_solver|sub_solver|sub_solver|sub_solver|apply in_pins|by apply in_pins_l, in_pins_l, in_pins|by apply in_pins_l, in_pins
    |by do 3 apply room_add|done|lia|].
  exists H', (U' ∖ {[root tl]} ∖ {[p]} ∖ {[root t]}). split_and!.
  - eapply try_borrow_yes; [exact Hd|exact Hh|by eapply room_weaken; [exact Hroom|lia]|done|].
    by replace (Z.of_nat (length ls)) with (Z.of_nat (length ls') + 1) by lia.
  - rewrite Hcs. eapply shrunk_rotated; [exact Hz'|exact Hol|exact Hro| | | | |sub_solver].
    + replace (length ls' + length rs + 2)%nat with (length ls + 1 + length rs)%nat by lia. done.
    + intros e He. apply Hsib. rewrite Els. apply elem_of_app in He. rewrite !elem_of_app. tauto.
    + apply full_iff. split; [lia|]. exact (pr_ca _ _ _ _ _ _ _ _ _ _ _ _ _ _ (ro_pair _ _ _ _ _ _ _ _ _ _ _ _ _ _ _ _ _ Hro)).
    + apply full_iff. split; [lia|]. exact (pr_cb _ _ _ _ _ _ _ _ _ _ _ _ _ _ (ro_pair _ _ _ _ _ _ _ _ _ _ _ _ _ _ _ _ _ Hro)).
Qed.

Lemma try_right :
  let res := (if Z.of_nat (length ls) <? Z.of_nat (length (ls ++ (k, t) :: rs)) - 1 then
     right_id ← lift (InternalPage.ValueAt dp (Z.of_nat (length ls) + 1));
     try_borrow right_id (root t) p nd (borrow_right (kind h) right_id (root t) p (Z.of_nat (length ls)))
     else mret false) (st H Q U n r) in
  done_with res ∨
  (res = (Val false, st H Q U n r) ∧
   ∀ kr tr rs', rs = (kr, tr) :: rs' → node_size tr ≤ min_size (node_max h)).
Proof using All.
  rewrite length_app, length_cons. destruct (decide (rs = [])) as [E|Hne].
  { right. rewrite E, (proj2 (Z.ltb_ge _ _)) by (simpl; lia). done. }
  assert (∃ kr tr rs', rs = (kr, tr) :: rs') as (kr & tr & rs' & Ers) by (clear -Hne; destruct rs as [|[]]; [done|eauto]).
  assert (Hlen : length rs = S (length rs')) by (by rewrite Ers).
  rewrite (proj2 (Z.ltb_lt _ _)) by lia.
  assert (Hval : InternalPage.ValueAt dp (Z.of_nat (length ls) + 1) = Val (root tr)).
  { replace (Z.of_nat (length ls) + 1) with (Z.of_nat (S (length ls))) by lia. apply (int_ValueAt _ _ _ _ _ Hir _ kr).
    rewrite Ers, links_app, lookup_app_r, links_length by (rewrite links_length; lia).
    by replace (S (length ls) - length ls)%nat with 1%nat by lia. }
  destruct (sibling_page (kr, tr)) as (d & Hd & Hh & Hnu); [rewrite Ers; set_solver|]. simpl in Hd, Hh, Hnu.
  cbn zeta. rewrite (bind_Val _ _ _ (root tr) (st H Q U n r)) by (unfold lift; by rewrite Hval).
  destruct (Z.lt_ge_cases (min_size (node_max h)) (node_size tr)) as [Hbig|Hsmall].
  2:{ right. split.
      - eapply try_borrow_no; [exact Hd|exact Hh|by eapply room_weaken; [exact Hroom|lia]|done|done].
      - intros kr1 tr1 rs1 E. rewrite Ers in E. by simplify_eq. }
  left. destruct (min_twice h) as [Hm1 Hm2].
  assert (Hftr : full h tr) by (apply (Hsib (kr, tr)); rewrite Ers; set_solver).
  apply full_iff in Hftr as [Hstr Hctr].
  pose proof Hz as Hz'. rewrite Ers in Hz'.
  destruct (zip_pair _ _ _ _ _ _ _ _ _ _ _ Hz' Hct Hctr) as (l & u & Hpair & Hol).
  destruct (kind_borrow_right cap lm im Hlm Him H (Q ⊎ {[+ root tr +]}) U ({[root tr; root t; p]} ∪ V) n r p (cpar up) ls rs' k kr
    t tr _ l u Hpair) as (H' & U' & a' & kb' & b' & Eb & HU' & Hs1 & Hs2 & Hro);
    [sub_solver|sub_solver|sub_solver|sub_solver|by apply in_pins_l, in_pins_l, in_pins|apply in_pins|by apply in_pins_l, in_pins
    |by do 3 apply room_add|done|lia|].
  exists H', (U' ∖ {[root tr]} ∖ {[p]} ∖ {[root t]}). split_and!.
  - by eapply try_borrow_yes; [exact Hd|exact Hh|eapply room_weaken; [exact Hroom|lia]|done|].
  - rewrite Ers. eapply shrunk_rotated; [exact Hz'|exact Hol|exact Hro| | | | |sub_solver].
    + replace (length ls + length rs' + 2)%nat with (length ls + 1 + length rs)%nat by lia. done.
    + intros e He. apply Hsib. rewrite Ers. apply elem_of_app in He. rewrite !elem_of_app, elem_of_cons. tauto.
    + apply full_iff. split; [lia|]. exact (pr_ca _ _ _ _ _ _ _ _ _ _ _ _ _ _ (ro_pair _ _ _ _ _ _ _ _ _ _ _ _ _ _ _ _ _ Hro)).
    + apply full_iff. split; [lia|]. exact (pr_cb _ _ _ _ _ _ _ _ _ _ _ _ _ _ (ro_pair _ _ _ _ _ _ _ _ _ _ _ _ _ _ _ _ _ Hro)).
Qed.

(** Neither neighbour can spare an entry: one of them is merged with the node. *)
Lemma merge_either :
  (∀ ls' kl tl, ls = ls' ++ [(kl, tl)] → node_size tl ≤ min_size (node_max h)) →
  (∀ kr tr rs', rs = (kr, tr) :: rs' → node_size tr ≤ min_size (node_max h)) →
  ∃ H2 U2 cs',
    (if 0 <? Z.of_nat (length ls) then
       left_id ← lift (InternalPage.ValueAt dp (Z.of_nat (length ls) - 1));
       unwind (root t) nd (unwind p false (fetch left_id));;
       unwind (root t) nd (unwind p false (unwind left_id false
         (merge_into_left (kind h) left_id (root t) p (Z.of_nat (length ls)))));;
       update p (InternalPage.Remove (Z.of_nat (length ls)));;
       unpin (root t) nd;;
       _ ← bpm (pool_delete (root t));
       unpin left_id true;;
       unpin p true
     else
       right_id ← lift (InternalPage.ValueAt dp (Z.of_nat (length ls) + 1));
       unwind (root t) nd (unwind p false (fetch right_id));;
       unwind (root t) nd (unwind p false (unwind right_id false
         (merge_right_in (kind h) right_id (root t) p (Z.of_nat (length ls)))));;
       update p (InternalPage.Remove (Z.of_nat (length ls) + 1));;
       unpin right_id false;;
       _ ← bpm (pool_delete right_id);
       unpin (root t) true;;
       unpin p true) (st H Q U n r) = (Val tt, st H2 P U2 n r) ∧
    (∀ x, x ∈ U2 → x ∈ V ∨ (x ∈ P ∧ x ∉ pids (S h) ((p, cs') : tree (S h)) ++ cpids up)) ∧
    zip H2 up lo hi ((p, cs') : tree (S h)) ∧ (∀ e, e ∈ cs' → full h e.2) ∧
    length cs' = (length ls + length rs)%nat ∧ flat (entries h) cs' = flat (entries h) (ls ++ (k, t) :: rs) ∧
    (∀ x, x ∈ pids (S h) ((p, cs') : tree (S h)) ++ cpids up → x ∈ pids (S h) parent ++ cpids up) ∧
    (∀ x, x ∉ pids (S h) parent ++ cpids up → H2 !! x = H !! x).
Proof using All.
  intros Hl Hr. destruct (min_twice h) as [Hm1 Hm2]. destruct (decide (ls = [])) as [E|Hne].
  - (* into the node, from the right *)
    assert (∃ kr tr rs', rs = (kr, tr) :: rs') as (kr & tr & rs' & Ers).
    { clear -Hcount E Hlm Him. pose proof (min_size_2 im ltac:(lia)). rewrite E in Hcount.
      destruct rs as [|[kr tr] rs']; [simpl in Hcount; destruct (is_top up); lia|eauto]. }
    assert (Hftr : full h tr) by (apply (Hsib (kr, tr)); rewrite Ers; set_solver).
    apply full_iff in Hftr as [Hstr Hctr]. pose proof (Hr _ _ _ Ers) as Hstr'.
    pose proof Hz as Hz'. rewrite Ers in Hz'.
    assert (Hval : InternalPage.ValueAt dp (Z.of_nat (length ls) + 1) = Val (root tr)).
    { replace (Z.of_nat (length ls) + 1) with (Z.of_nat (S (length ls))) by lia. apply (int_ValueAt _ _ _ _ _ Hir _ kr).
      rewrite Ers, links_app, lookup_app_r, links_length by (rewrite links_length; lia).
      by replace (S (length ls) - length ls)%nat with 1%nat by lia. }
    destruct (merge_right_in_run H P U V n r p up ls rs' k kr t tr lo hi Hz' Hct Hctr Hroom ltac:(lia) nd HU)
      as (H2 & U2 & a' & [Jz Jc Js Je Jp Jg Jf] & HU2 & Erun).
    exists H2, U2, (ls ++ (k, a') :: rs'). split_and!; try done.
    + rewrite (proj2 (Z.ltb_ge _ _)) by (rewrite E; simpl; lia).
      rewrite (bind_Val _ _ _ (root tr) (st H Q U n r)) by (unfold lift; by rewrite Hval). exact Erun.
    + intros x [?|[? ->]]%HU2; [by left|by right].
    + intros e. rewrite elem_of_app, elem_of_cons. intros [?|[->|?]].
      * apply Hsib, elem_of_app. by left.
      * simpl. apply full_iff. split; [lia|done].
      * apply Hsib. rewrite Ers, elem_of_app, elem_of_cons. tauto.
    + rewrite Ers, length_app. simpl. lia.
    + by rewrite Ers.
    + by rewrite Ers.
    + by rewrite Ers.
  - (* into the left neighbour *)
    destruct (exists_last Hne) as (ls' & [kl tl] & Els).
    assert (Hlen : length ls = S (length ls')) by (by rewrite Els, length_app, Nat.add_comm).
    assert (Hcs : ls ++ (k, t) :: rs = ls' ++ (kl, tl) :: (k, t) :: rs) by (by rewrite Els, <-app_assoc).
    assert (Hftl : full h tl) by (apply (Hsib (kl, tl)); rewrite Els; set_solver).
    apply full_iff in Hftl as [Hstl Hctl]. pose proof (Hl _ _ _ Els) as Hstl'.
    pose proof Hz as Hz'. rewrite Hcs in Hz'.
    assert (Hval : InternalPage.ValueAt dp (Z.of_nat (length ls) - 1) = Val (root tl)).
    { replace (Z.of_nat (length ls) - 1) with (Z.of_nat (length ls')) by lia. apply (int_ValueAt _ _ _ _ _ Hir _ kl).
      rewrite Hcs, links_app, lookup_app_r, links_length, Nat.sub_diag by (rewrite links_length; lia). done. }
    destruct (merge_into_left_run H P U V n r p up ls' rs kl k tl t lo hi Hz' Hctl Hct Hroom ltac:(lia) nd HU)
      as (H2 & U2 & a' & [Jz Jc Js Je Jp Jg Jf] & HU2 & Erun).
    exists H2, U2, (ls' ++ (kl, a') :: rs). split_and!; try done.
    + rewrite (proj2 (Z.ltb_lt _ _)) by lia.
      rewrite (bind_Val _ _ _ (root tl) (st H Q U n r)) by (unfold lift; by rewrite Hval).
      replace (Z.of_nat (length ls)) with (Z.of_nat (length ls') + 1) by lia. exact Erun.
    + intros x [?|[? ->]]%HU2; [by left|by right].
    + intros e. rewrite elem_of_app, elem_of_cons. intros [?|[->|?]].
      * apply Hsib. rewrite Els, !elem_of_app. tauto.
      * simpl. apply full_iff. split; [lia|done].
      * apply Hsib, elem_of_app. by right.
    + rewrite length_app. simpl. lia.
    + by rewrite Hcs.
    + by rewrite Hcs.
    + by rewrite Hcs.
Qed.
End underfull.

(** ** HandleUnderflow *)

Lemma kind_hdr h d sz mx par : hdr d (node_type h) sz mx par →
  (if BPlusTreePage.IsLeafPage d then leaf_kind else internal_kind) = kind h.
Proof. intros Hh. rewrite (is_leaf_hdr h d _ _ _ Hh). by destruct h. Qed.

Lemma HandleUnderflow_ok h (c : ctx h) : ∀ fuel H P U V n lo hi (t : tree h) nd,
  zip H c lo hi t → children_full t → least h (is_top c) ≤ node_size t ≤ node_max h →
  U ⊆ {[root t]} ∪ V → nd = true ∨ root t ∉ U → (∀ x, x ∈ pids h t ++ cpids c → 0 ≤ x ∧ x ∉ V) →
  room P 4 → (depth c < fuel)%nat →
  ∃ H' U' r', HandleUnderflow fuel (root t) nd (st H (P ⊎ {[+ root t +]}) U n (croot c (root t))) =
      (Val tt, st H' P U' n r') ∧
    shrunk P V U' H H' r' (cl c ++ entries h t ++ cr c) (pids h t ++ cpids c).
Proof using Hlm Him.
  induction c as [h|h p ls k rs up IH]; intros fuel H P U V n lo hi t nd Hz Hcf Hsz HU Hnd HP Hroom Hfuel;
    (destruct fuel as [|fuel]; [simpl in Hfuel; lia|]);
    destruct (rep_hdr _ _ _ _ _ _ _ (z_rep _ _ _ _ _ _ _ Hz)) as (d & Hd & Hh).
  - (* the root *)
    simpl in Hh, HP, Hsz |- *. rewrite !app_nil_r in *.
    destruct (root_underflow h H P U V n lo hi t nd Hz Hcf Hsz HU Hnd) as (H' & U' & r' & E & Hs);
      [intros x Hx; by apply HP|by eapply room_weaken; [exact Hroom|lia]|].
    exists H', U', r'. split; [|done].
    mrun (read_ok cap lm im H _ U n (root t) (root t) d Hd (in_pins P (root t))).
    unfold BPlusTreePage.IsRootPage. rewrite (hdr_parent _ _ _ _ _ Hh). exact E.
  - simpl in Hh. change (croot (Up h p ls k rs up) (root t)) with (croot up p).
    assert (Hp0 : 0 ≤ p ∧ p ∉ V) by (apply HP; rewrite elem_of_app; right; by left).
    assert (Hmin : BPlusTreePage.GetMinSize d = min_size (node_max h)) by (eapply hdr_min; done).
    assert (Hread : ∀ K x, K d (st H (P ⊎ {[+ root t +]}) U n (croot up p)) = x →
      (d ← read (root t); K d : M (BPlusTree.t APool.t) ()) (st H (P ⊎ {[+ root t +]}) U n (croot up p)) = x).
    { intros K x EK. by mrun (read_ok cap lm im H _ U n (croot up p) (root t) d Hd (in_pins P (root t))). }
    assert (Hroot : BPlusTreePage.IsRootPage d = false).
    { unfold BPlusTreePage.IsRootPage. rewrite (hdr_parent _ _ _ _ _ Hh). apply Z.eqb_neq. unfold INVALID_PAGE_ID. lia. }
    destruct (Z.le_gt_cases (min_size (node_max h)) (node_size t)) as [Hok|Hlow].
    + (* enough entries *)
      exists H, (U ∖ {[root t]}), (croot up p). split.
      * cbn [HandleUnderflow]. apply Hread. rewrite Hroot, Hmin, (hdr_size _ _ _ _ _ Hh), (proj2 (Z.leb_le _ _)) by done.
        by apply unpin_either.
      * split; [|done]. exists (pids h t ++ cpids (Up h p ls k rs up)).
        split_and!; [left|done|intros x Hx; left; clear -HU Hx; set_solver]. apply (zip_up _ _ _ _ _ _ _ Hz). apply full_iff. split; [lia|done].
    + (* an underfull node *)
      assert (Hsz' : node_size t = min_size (node_max h) - 1) by (simpl in Hsz; unfold least in Hsz; lia).
      destruct (zip_parent _ _ _ _ _ _ _ _ _ Hz) as (lo' & hi' & Hzp). destruct (z_cfull _ _ _ _ _ _ _ Hz) as (Hcount & Hsib & _).
      destruct (node_parts up p ls k t rs) as [Hes Hps].
      destruct (zip_node _ _ _ _ _ _ _ _ Hzp) as [(dp & Hdp & Hir) _].
      assert (HP' : ∀ x, x ∈ pids (S h) ((p, ls ++ (k, t) :: rs)   : tree (S h)) ++ cpids up → x ∉ V).
      { intros x Hx. rewrite Hps in Hx. by apply HP. }
      assert (Hidx : InternalPage.ValueIndex (root t) dp = Val (Z.of_nat (length ls))).
      { apply (int_ValueIndex _ _ _ _ _ k _ Hir).
        - rewrite links_app, lookup_app_r, links_length, Nat.sub_diag by (rewrite links_length; lia). done.
        - apply roots_nodup. pose proof (z_nodup _ _ _ _ _ _ _ Hzp) as Hnd'. rewrite pids_node in Hnd'. simpl in Hnd'.
          by apply NoDup_cons in Hnd' as [_ (? & _ & _)%NoDup_app]. }
      rewrite Hes.
      set (Q := P ⊎ {[+ root t +]} ⊎ {[+ p +]}).
      assert (Hstart : ∀ H' P' U' r',
        (done_left ← (if 0 <? Z.of_nat (length ls) then
            left_id ← lift (InternalPage.ValueAt dp (Z.of_nat (length ls) - 1));
            try_borrow left_id (root t) p nd (borrow_left (kind h) left_id (root t) p (Z.of_nat (length ls)))
            else mret false);
         if done_left : bool then mret tt else
         done_right ← (if Z.of_nat (length ls) <? Z.of_nat (length (ls ++ (k, t) :: rs)) - 1 then
            right_id ← lift (InternalPage.ValueAt dp (Z.of_nat (length ls) + 1));
            try_borrow right_id (root t) p nd (borrow_right (kind h) right_id (root t) p (Z.of_nat (length ls)))
            else mret false);
         if done_right : bool then mret tt else
         (if 0 <? Z.of_nat (length ls) then
            left_id ← lift (InternalPage.ValueAt dp (Z.of_nat (length ls) - 1));
            unwind (root t) nd (unwind p false (fetch left_id));;
            unwind (root t) nd (unwind p false (unwind left_id false
              (merge_into_left (kind h) left_id (root t) p (Z.of_nat (length ls)))));;
            update p (InternalPage.Remove (Z.of_nat (length ls)));;
            unpin (root t) nd;;
            _ ← bpm (pool_delete (root t));
            unpin left_id true;;
            unpin p true
          else
            right_id ← lift (InternalPage.ValueAt dp (Z.of_nat (length ls) + 1));
            unwind (root t) nd (unwind p false (fetch right_id));;
            unwind (root t) nd (unwind p false (unwind right_id false
              (merge_right_in (kind h) right_id (root t) p (Z.of_nat (length ls)))));;
            update p (InternalPage.Remove (Z.of_nat (length ls) + 1));;
            unpin right_id false;;
            _ ← bpm (pool_delete right_id);
            unpin (root t) true;;
            unpin p true);;
         fetch p;;
         HandleUnderflow fuel p false) (st H Q U n (croot up p)) = (Val tt, st H' P' U' n r') →
        HandleUnderflow (S fuel) (root t) nd (st H (P ⊎ {[+ root t +]}) U n (croot up p)) = (Val tt, st H' P' U' n r')).
      { intros H' P' U' r' E. cbn [HandleUnderflow]. apply Hread.
        rewrite Hroot, Hmin, (hdr_size _ _ _ _ _ Hh), (proj2 (Z.leb_gt _ _)) by done. cbn zeta.
        rewrite (hdr_parent _ _ _ _ _ Hh), (kind_hdr h d _ _ _ Hh).
        mdo (apply unwind_Val, fetch_ok; [eauto|right; apply room_add; by eapply room_weaken; [exact Hroom|lia]]). fold Q.
        mrun (read_ok cap lm im H Q U n (croot up p) p dp Hdp (in_pins _ _)).
        rewrite (bind_Val _ _ _ (Z.of_nat (length ls)) (st H Q U n (croot up p))) by (unfold lift; by rewrite Hidx).
        rewrite (int_GetSize _ _ _ _ _ Hir), links_length. exact E. }
      destruct (try_left H P U V n p up ls rs k t lo' hi' nd dp Hzp Hcf Hsz' Hcount Hsib HU HP' Hroom Hdp Hir)
        as [(H' & U' & El & Hs)|[El Hnl]].
      { exists H', U', (croot up p). split; [|by apply (shrunk_perm _ _ _ _ _ _ _ _ _ Hps)].
        apply Hstart. by mrun El. }
      destruct (try_right H P U V n p up ls rs k t lo' hi' nd dp Hzp Hcf Hsz' Hcount Hsib HU HP' Hroom Hdp Hir)
        as [(H' & U' & Er & Hs)|[Er Hnr]].
      { exists H', U', (croot up p). split; [|by apply (shrunk_perm _ _ _ _ _ _ _ _ _ Hps)].
        apply Hstart. mrun El. by mrun Er. }
      destruct (merge_either H P U V n p up ls rs k t lo' hi' nd dp Hzp Hcf Hsz' Hcount Hsib HU HP' Hroom Hdp Hir Hnl Hnr)
        as (H2 & U2 & cs' & Em & HU2 & Hz2 & Hfull2 & Hlen2 & Hes2 & Hps2 & Hfr2).
      destruct (zip_node _ _ _ _ _ _ _ _ Hz2) as [(dp2 & Hdp2 & _) _].
      destruct (IH fuel H2 P U2 (V ∪ U2) n lo' hi' ((p, cs') : tree (S h)) false) as (H' & U' & r' & E & Hs); try done.
      { cbn [node_size BTreeRep.node_max snd]. unfold least. rewrite Hlen2. simpl BTreeRep.node_max. destruct (is_top up); lia. }
      { clear. set_solver. }
      { right. intros [?|[_ Hno]]%HU2; [by apply Hp0|]. apply Hno. by left. }
      { intros x Hx. pose proof (Hps2 _ Hx) as Hx'. rewrite Hps in Hx'. destruct (HP x Hx') as [Hx0 HxV].
        split; [done|]. intros [?|[?|[_ Hno]]%HU2]%elem_of_union; done. }
      { simpl in Hfuel. lia. }
      exists H', U', r'. split.
      * apply Hstart. mrun El. mrun Er. mrun Em. mdo (apply fetch_ok; [eauto|right; by eapply room_weaken; [exact Hroom|lia]]).
        exact E.
      * apply (shrunk_perm _ _ _ _ _ _ _ _ _ Hps). destruct Hs as [(ps' & Hw & Hsub & HU') Hf]. split.
        -- exists ps'. simpl entries in Hw |- *. rewrite <-Hes2. split_and!; [done| |].
           ++ intros x Hx%Hsub. by apply Hps2.
           ++ intros x [[?|[?|[? Hno]]%HU2]%elem_of_union|?]%HU'; [by left|by left|right|by right].
              split; [done|]. by intros ?%Hsub.
        -- intros x Hx. rewrite Hf by (intros Hin%Hps2; done). by apply Hfr2.
Qed.

(** ** Remove *)

Lemma length_del key (es : list (Z * string)) :
  sorted es → (length es ≤ S (length (del key es)))%nat.
Proof.
  intros Hs. rewrite del_lb by done. destruct (es !! lb key es) as [[k w]|] eqn:E; [|lia].
  destruct (k =? key); [|lia]. apply lookup_lt_Some in E. rewrite length_app, length_take, length_drop. lia.
Qed.

Lemma length_del_le key (es : list (Z * string)) : (length (del key es) ≤ length es)%nat.
Proof. apply length_filter. Qed.

Lemma Remove_ok fuel key H P U n r es ps :
  whole H r es ps → r ≠ INVALID_PAGE_ID → (∀ x, x ∈ ps → 0 ≤ x ∧ x ∉ U) →
  (Nat.log2 (length es) < fuel)%nat → held U P → room P 4 →
  ∃ H' U' r', Remove fuel key (st H P U n r) = (Val (bool_decide (is_Some (look key es))), st H' P U' n r') ∧
    shrunk P U U' H H' r' (del key es) ps ∧ (look key es = None → H' = H ∧ r' = r ∧ U' = U).
Proof using Hlm Him.
  intros Hw Hr HP Hfuel Hh Hroom.
  destruct (FindLeaf_ok cap lm im ltac:(lia) ltac:(lia) fuel key H P U n r es ps Hw ltac:(lia) Hh) as (c & lo & hi & [p es0] & E & Ha & Hlo & Hhi);
    [eapply room_weaken; [exact Hroom|lia]|].
  destruct (at_leaf_page _ _ _ _ _ _ _ _ _ _ Ha) as (d & Hd & Hrep & Hs). simpl in Hd, Hrep, Hs, E.
  destruct Ha as [Hz Hf Hro Hes Hps Hdep]. simpl in Hz, Hro, Hes, Hps.
  pose proof (z_ord _ _ _ _ _ _ _ Hz) as [_ Hwi]. simpl in Hwi.
  pose proof (cord_apart _ _ _ _ (z_cord _ _ _ _ _ _ _ Hz) Hlo Hhi) as Hap.
  assert (Hlk : look key es = look key es0) by (rewrite <-Hes; by apply look_mid).
  assert (Hdel : del key es = cl c ++ del key es0 ++ cr c) by (rewrite <-Hes; by apply del_mid).
  rewrite Hlk. unfold Remove. mstep. rewrite st_empty, (proj2 (Z.eqb_neq _ _)) by done. mrun E.
  destruct (look key es0) as [v|] eqn:El.
  - destruct (leaf_Remove d _ _ _ _ key Hrep Hs) as (d' & Erm & Hrep'). rewrite El in Erm.
    destruct (on_page_ok cap lm im H (P ⊎ {[+ p +]}) U n r p d d' _ (LeafPage.Remove key) Hd (in_pins _ _) Erm
      (leaf_blen _ _ _ _ _ Hrep')) as (U1 & E1 & _ & HU1).
    assert (Hz1 : zip (<[p := d']> H) c lo hi ((p, del key es0) : tree 0)).
    { apply (zip_leaf _ _ _ _ _ _ _ es0); [done|done|by apply sorted_del|]. intros e [He _]%elem_of_del. by apply Hwi. }
    pose proof (length_del key es0 Hs) as Hl1. pose proof (length_del_le key es0) as Hl2.
    destruct (HandleUnderflow_ok 0 c fuel (<[p := d']> H) P U1 U n lo hi ((p, del key es0) : tree 0) true)
      as (H' & U' & r' & E2 & Hs'); [done|done| |exact HU1|by left| |done|lia|].
    { unfold least. unfold BTreeRep.fits in Hf. cbn [node_size BTreeRep.node_max snd]. destruct (is_top c); simpl in Hf; lia. }
    { intros x Hx. apply HP. by rewrite <-Hps. }
    exists H', U', r'. split_and!; [| |done].
    + mrun E1. rewrite bool_decide_eq_true_2 by eauto. simpl root in E2. rewrite Hro in E2. by mrun E2.
    + rewrite Hdel. apply (shrunk_perm _ _ _ _ _ _ _ _ _ Hps). destruct Hs' as [Ht Hfr]. split; [exact Ht|].
      intros x Hx. rewrite Hfr by done. rewrite lookup_insert_ne; [done|]. intros ->. apply Hx. by left.
  - exists H, U, r. split_and!; [| |done].
    + mdo (eapply on_page_same; [exact Hd|apply in_pins|by eapply leaf_Remove_none|apply (leaf_blen _ _ _ _ _ Hrep)]).
      rewrite bool_decide_eq_false_2 by (by intros [? [=]]). mdo (by apply unpin_pinned). done.
    + assert (Hnone : del key es = es).
      { rewrite Hdel, <-Hes. do 2 f_equal. rewrite del_lb by done. rewrite look_lb in El by done.
        destruct (es0 !! lb key es0) as [[k w]|]; [|done]. by destruct (k =? key). }
      rewrite Hnone. split; [|done]. exists ps. split_and!; [by left|done|by left].
Qed.
End remove.
