(* ===== verification/BTreeScan.v ===== *)
(** * B+-tree over the pool's specification: scans

    [cursor] says which entries an iterator still has in front of it. *)

From stdpp Require Import gmultiset.
From S2P Require Import Prelude Entries Bytes Disk Buffer BufferTheory TreePages TreePagesTheory LeafTheory.
From S2P Require Import InternalTheory BTree BTreeRep BTreeSteps BTreeLookup.

#[local] Open Scope Z_scope.

Import BPlusTree.

Section scan.
Context (cap lm im : Z).
Hypothesis Hlm : 3 ≤ lm.
Hypothesis Him : 3 ≤ im.

Abbreviation heap := (gmap page_id_t bytes) (only parsing).
Abbreviation st := (st cap lm im) (only parsing).
Abbreviation room := (room cap) (only parsing).
Abbreviation zip := (zip lm im) (only parsing).
Abbreviation full := (full lm im) (only parsing).
Abbreviation fits := (fits lm im) (only parsing).
Abbreviation whole := (whole lm im) (only parsing).
Abbreviation at_leaf := (at_leaf lm im) (only parsing).

Implicit Types (H : heap) (P : gmultiset page_id_t) (U : gset page_id_t) (n r p : page_id_t).

(** ** The leaf after a subtree *)

(** The first leaf of a subtree. *)
Lemma first_leaf_zip h : ∀ H (c : ctx h) lo hi t,
  zip H c lo hi t → fits c t →
  ∃ (c0 : ctx 0) lo0 hi0 t0, zip H c0 lo0 hi0 t0 ∧ fits c0 t0 ∧ root t0 = first_leaf h t ∧ cl c0 = cl c ∧
    same_zip c t c0 t0.
Proof.
  induction h as [|h IH]; intros H c lo hi t Hz Hf.
  { exists c, lo, hi, t. split_and!; done. }
  destruct t as [p cs]. pose proof (z_ord _ _ _ _ _ _ _ Hz) as [Hne Ho]. simpl in Hne, Ho.
  destruct cs as [|[k0 t0] rest]; [done|].
  destruct (leftmost_ord (ord h) lo hi k0 t0 rest Ho) as (l & u & Ht & Hol).
  destruct (zip_down lm im H c lo hi l u p [] k0 t0 rest Hz Hf Ht Hol) as [Hz' Hfull].
  destruct (IH H (Up h p [] k0 rest c) l u t0 Hz' Hfull) as (c0 & lo0 & hi0 & t1 & Hz0 & Hf0 & Hr & Hcl & Hs).
  exists c0, lo0, hi0, t1. split_and!; [done|done|done| |].
  - rewrite Hcl. simpl. by rewrite app_nil_r.
  - eapply same_zip_trans; [|exact Hs]. apply (same_zip_down c p [] k0 t0 rest).
Qed.

Lemma next_leaf h (c : ctx h) : ∀ H lo hi t,
  zip H c lo hi t → fits c t →
  (cnext c = INVALID_PAGE_ID ∧ cr c = []) ∨
  ∃ (c0 : ctx 0) lo0 hi0 t0, zip H c0 lo0 hi0 t0 ∧ fits c0 t0 ∧ root t0 = cnext c ∧
    cl c0 = cl c ++ entries h t ∧ same_zip c t c0 t0.
Proof.
  induction c as [h|h p ls k rs up IH]; intros H lo hi t Hz Hf; [by left|].
  destruct (zip_in _ _ _ _ _ _ _ _ _ _ _ Hz Hf) as (lo' & hi' & Hzp & Hfp).
  destruct rs as [|[k1 t1] rs].
  - destruct (IH H lo' hi' _ Hzp Hfp) as [[Hc Hr]|(c0 & lo0 & hi0 & t0 & Hz0 & Hf0 & Hr0 & Hcl0 & Hs0)].
    + left. simpl. by rewrite Hc, Hr.
    + right. exists c0, lo0, hi0, t0. split_and!; [done|done|done| |].
      * rewrite Hcl0. simpl. rewrite flat_app, flat_cons. unfold flat at 2. simpl. by rewrite app_nil_r, app_assoc.
      * destruct Hs0 as (H1 & H2 & H3 & H4). destruct (same_zip_down up p ls k t []) as (G1 & G2 & G3 & G4).
        split_and!; [congruence|congruence| |lia]. by rewrite H3, G3.
  - right. simpl cnext.
    assert (Ecs : ls ++ (k, t) :: (k1, t1) :: rs = (ls ++ [(k, t)]) ++ (k1, t1) :: rs) by (by rewrite <-app_assoc).
    rewrite Ecs in Hzp, Hfp. pose proof (z_ord _ _ _ _ _ _ _ Hzp) as [_ Ho]. simpl in Ho. unfold ivls in Ho. rewrite fmap_app in Ho.
    destruct (ordl_focus _ _ _ k1 (λ lo hi, ord h lo hi t1) _ Ho) as (l & u & Ht1 & Hol).
    destruct (zip_down lm im H up lo' hi' l u p (ls ++ [(k, t)]) k1 t1 rs Hzp Hfp Ht1 Hol) as [Hz1 Hf1].
    destruct (first_leaf_zip h H _ l u t1 Hz1 Hf1) as (c0 & lo0 & hi0 & t0 & Hz0 & Hf0 & Hr0 & Hcl0 & Hs0).
    exists c0, lo0, hi0, t0.
    assert (Hs : same_zip (Up h p ls k ((k1, t1) :: rs) up) t c0 t0).
    { destruct Hs0 as (H1 & H2 & H3 & H4). destruct (same_zip_down up p (ls ++ [(k, t)]) k1 t1 rs) as (G1 & G2 & G3 & G4).
      destruct (same_zip_down up p ls k t ((k1, t1) :: rs)) as (F1 & F2 & F3 & F4). rewrite <-Ecs in G2, G3.
      split_and!; [congruence|congruence| |simpl in *; lia]. by rewrite H3, G3, F3. }
    split_and!; [done|done|done| |done].
    rewrite Hcl0. simpl. rewrite flat_app. unfold flat at 2. simpl. by rewrite app_nil_r, app_assoc.
Qed.

(** ** Cursors *)

(** [it] stands in front of the entries [rest] of the tree, the entries [before]
    being behind it. *)
Definition cursor (H : heap) (r : page_id_t) (es : list (Z * string)) (ps : list page_id_t)
    (it : Iterator) (before rest : list (Z * string)) : Prop :=
  before ++ rest = es ∧
  if it_page it then
    ∃ (c : ctx 0) lo hi t (j : nat), at_leaf H r es ps c lo hi t ∧ it_page_id it = root t ∧ it_index it = Z.of_nat j ∧
      (j < length t.2)%nat ∧ before = cl c ++ take j t.2 ∧ rest = drop j t.2 ++ cr c
  else rest = [].

(** The pins an iterator holds. *)
Definition pins_of (it : Iterator) : gmultiset page_id_t := if it_page it then {[+ it_page_id it +]} else ∅.

Lemma leaf_nonempty c t : fits c (t : tree 0) → (0 < length t.2)%nat.
Proof using Hlm.
  unfold BTreeRep.fits. pose proof (min_size_2 lm Hlm). destruct (is_top c); simpl; lia.
Qed.

(** Moving on from the last entry of a leaf. *)
Lemma cursor_next_leaf H r es ps c lo hi t P U n :
  at_leaf H r es ps c lo hi t → held U P → room P 1 → (∀ p, p ∈ ps → p ≠ INVALID_PAGE_ID) →
  (cnext c = INVALID_PAGE_ID ∧ cr c = []) ∨
  (cnext c ≠ INVALID_PAGE_ID ∧ bpm (pool_fetch (cnext c)) (st H P U n r) = (Val true, st H (P ⊎ {[+ cnext c +]}) U n r) ∧
   cursor H r es ps (mkIt (cnext c) true 0) (cl c ++ t.2) (cr c)).
Proof using Hlm.
  intros [Hz Hf Hr Hes Hps Hd] Hh Hroom Hval.
  destruct (next_leaf 0 c H lo hi t Hz Hf) as [?|(c0 & lo0 & hi0 & t0 & Hz0 & Hf0 & Hr0 & Hcl0 & (H1 & H2 & H3 & H4))];
    [by left|right].
  assert (Hal : at_leaf H r es ps c0 lo0 hi0 t0).
  { split; [done|done|congruence|exact (eq_trans H2 Hes)| |simpl in *; lia]. rewrite <-Hps. exact H3. }
  destruct (at_leaf_page _ _ _ _ _ _ _ _ _ _ Hal) as (d & Hd0 & _).
  assert (Hin : cnext c ∈ ps) by (rewrite <-Hr0, <-(al_pids _ _ _ _ _ _ _ _ _ _ Hal); by left).
  split_and!; [by apply Hval|apply fetch_true; [rewrite <-Hr0; eauto|by right]|].
  assert (Htail : t0.2 ++ cr c0 = cr c).
  { simpl in H2, Hcl0. rewrite Hcl0, <-app_assoc in H2. by do 2 apply app_inv_head in H2. }
  split.
  - rewrite <-app_assoc. exact Hes.
  - exists c0, lo0, hi0, t0, 0%nat. split_and!; [done|done|done|by eapply leaf_nonempty| |].
    + simpl in Hcl0. by rewrite app_nil_r.
    + by rewrite drop_0.
Qed.

Lemma drop_cons_lookup {A} (l : list A) j x : l !! j = Some x → drop j l = x :: drop (S j) l.
Proof. intros. by apply drop_S. Qed.

Section cursor.
Context (H : heap) (P : gmultiset page_id_t) (U : gset page_id_t) (n r : page_id_t).
Context (es : list (Z * string)) (ps : list page_id_t) (it : Iterator) (before rest : list (Z * string)).
Hypothesis Hc : cursor H r es ps it before rest.
Hypothesis Hh : held U P.
Hypothesis Hroom : room P 1.
Hypothesis Hval : ∀ p, p ∈ ps → p ≠ INVALID_PAGE_ID.

Lemma IsEnd_ok : IsEnd it = bool_decide (rest = []).
Proof using Hc.
  destruct Hc as [_ Hit]. unfold IsEnd. destruct (it_page it); simpl.
  - destruct Hit as (c & lo & hi & t & j & _ & _ & _ & Hj & _ & ->). symmetry. apply bool_decide_eq_false.
    intros [E _]%app_nil. apply (f_equal length) in E. rewrite length_drop in E. simpl in E. lia.
  - by rewrite bool_decide_eq_true_2.
Qed.

Lemma GetKey_ok k v rest' :
  rest = (k, v) :: rest' →
  GetKey it (st H (P ⊎ pins_of it) U n r) = (Val k, st H (P ⊎ pins_of it) U n r) ∧
  it_GetValue it (st H (P ⊎ pins_of it) U n r) = (Val v, st H (P ⊎ pins_of it) U n r).
Proof using Hc.
  intros Er. destruct Hc as [_ Hit]. unfold GetKey, it_GetValue, pins_of. destruct (it_page it); [|by rewrite Hit in Er].
  destruct Hit as (c & lo & hi & t & j & Ha & Hp & Hi & Hj & _ & Hrest).
  destruct (at_leaf_page _ _ _ _ _ _ _ _ _ _ Ha) as (d & Hd & Hr & _).
  assert (Hlk : t.2 !! j = Some (k, v)).
  { destruct (lookup_lt_is_Some_2 t.2 j Hj) as [e He]. rewrite (drop_cons_lookup _ _ _ He), Er in Hrest.
    simpl in Hrest. by injection Hrest as <- _. }
  rewrite Hp, Hi. split.
  - eapply query_val; [exact Hd|apply in_pins|by eapply leaf_KeyAt].
  - eapply query_val; [exact Hd|apply in_pins|by eapply leaf_ValueAt].
Qed.

Lemma Next_ok e rest' :
  rest = e :: rest' →
  ∃ it', Next it (st H (P ⊎ pins_of it) U n r) = (Val it', st H (P ⊎ pins_of it') U n r) ∧
    cursor H r es ps it' (before ++ [e]) rest'.
Proof using Hc Hh Hroom Hval Hlm.
  intros Er. destruct Hc as [Hes Hit]. unfold Next, pins_of at 1. destruct (it_page it); [|by rewrite Hit in Er].
  destruct Hit as (c & lo & hi & t & j & Ha & Hp & Hi & Hj & Hb & Hrest).
  destruct (at_leaf_page _ _ _ _ _ _ _ _ _ _ Ha) as (d & Hd & Hr & _).
  destruct (lookup_lt_is_Some_2 t.2 j Hj) as [e' He]. rewrite (drop_cons_lookup _ _ _ He), Er in Hrest.
  simpl in Hrest. injection Hrest as <- Hrest.
  rewrite Hp, Hi. mrun (read_ok cap lm im H _ U n r (root t) d Hd (in_pins P (root t))).
  rewrite (leaf_GetSize _ _ _ _ _ Hr). cbn zeta. rewrite (lf_next _ _ _ _ _ Hr).
  assert (Hbt : before ++ [e] = cl c ++ take (S j) t.2) by (by rewrite Hb, <-app_assoc, (take_S_r _ _ _ He)).
  destruct (Z.leb_spec (Z.of_nat (length t.2)) (Z.of_nat j + 1)) as [Hlast|Hmore].
  - mrun (unpin_pinned cap lm im H P U n r (root t) Hh).
    assert (Hfull : take (S j) t.2 = t.2) by (apply take_ge; lia). rewrite Hfull in Hbt.
    rewrite drop_ge in Hrest by lia. simpl in Hrest.
    destruct (cursor_next_leaf _ _ _ _ _ _ _ _ P U n Ha Hh Hroom Hval) as [[Hn Hcr]|(Hn & Ef & Hcur)].
    + rewrite Hn, Z.eqb_refl. exists (mkIt INVALID_PAGE_ID false (Z.of_nat j + 1)). split.
      * unfold pins_of. simpl. by rewrite gmultiset_disj_union_right_id.
      * split; [by rewrite <-app_assoc, <-Hes, Er|]. simpl. by rewrite Hrest.
    + rewrite (proj2 (Z.eqb_neq _ _)) by done. mrun Ef. exists (mkIt (cnext c) true 0). split; [done|]. by rewrite Hbt, Hrest.
  - exists (mkIt (root t) true (Z.of_nat j + 1)). split; [done|]. split; [by rewrite <-app_assoc, <-Hes, Er|].
    simpl. exists c, lo, hi, t, (S j). split_and!; [done|done|lia|lia|done|done].
Qed.

Lemma Release_ok : Release it (st H (P ⊎ pins_of it) U n r) = (Val tt, st H P U n r).
Proof using Hh.
  unfold Release, pins_of. destruct (it_page it).
  - by apply unpin_pinned.
  - by rewrite gmultiset_disj_union_right_id.
Qed.
End cursor.

(** ** Where a scan starts *)

Lemma Begin_ok fuel H P U n r es ps :
  whole H r es ps → r ≠ INVALID_PAGE_ID → (Nat.log2 (length es) ≤ fuel)%nat → held U P → room P 2 →
  ∃ it, Begin fuel (st H P U n r) = (Val it, st H (P ⊎ pins_of it) U n r) ∧ cursor H r es ps it [] es.
Proof using Hlm Him.
  intros Hw Hr Hfuel Hh Hroom.
  destruct (FindFirst_ok cap lm im Hlm Him fuel INVALID_KEY H P U n r es ps Hw Hfuel Hh Hroom) as (c & lo & hi & t & E & Ha & Hcl).
  exists (mkIt (root t) true 0). split.
  - unfold Begin. mstep. rewrite st_empty, (proj2 (Z.eqb_neq _ _)) by done. by mrun E.
  - split; [done|]. exists c, lo, hi, t, 0%nat. split_and!; [done|done|done| | |].
    + eapply leaf_nonempty, (al_fits _ _ _ _ _ _ _ _ _ _ Ha).
    + by rewrite Hcl.
    + rewrite drop_0. rewrite <-(al_entries _ _ _ _ _ _ _ _ _ _ Ha). by rewrite Hcl.
Qed.

(** [Begin(key)]: the entries behind are those below [key]. *)
Lemma Begin_at_ok fuel key H P U n r es ps :
  whole H r es ps → r ≠ INVALID_PAGE_ID → (Nat.log2 (length es) ≤ fuel)%nat → held U P → room P 2 →
  (∀ p, p ∈ ps → p ≠ INVALID_PAGE_ID) →
  ∃ it before rest, Begin_at fuel key (st H P U n r) = (Val it, st H (P ⊎ pins_of it) U n r) ∧
    cursor H r es ps it before rest ∧ (∀ e, e ∈ before → e.1 < key) ∧ (∀ e, e ∈ rest → key ≤ e.1).
Proof using Hlm Him.
  intros Hw Hr Hfuel Hh Hroom Hval.
  destruct (FindLeaf_ok cap lm im Hlm Him fuel key H P U n r es ps Hw Hfuel Hh Hroom) as (c & lo & hi & t & E & Ha & Hlo & Hhi).
  destruct (at_leaf_page _ _ _ _ _ _ _ _ _ _ Ha) as (d & Hd & Hrep & Hs).
  destruct (cord_apart _ _ _ _ (z_cord _ _ _ _ _ _ _ (al_zip _ _ _ _ _ _ _ _ _ _ Ha)) Hlo Hhi) as [Hcl Hcr].
  destruct (sorted_split_lb key t.2 Hs) as [Hlow Hhigh]. set (j := lb key t.2) in *.
  pose proof (lb_le key t.2) as Hj. fold j in Hj.
  assert (Hbefore : ∀ e, e ∈ cl c ++ take j t.2 → e.1 < key) by (intros e [?|?]%elem_of_app; auto).
  assert (Hrest : ∀ e, e ∈ drop j t.2 ++ cr c → key ≤ e.1).
  { intros e [He|He]%elem_of_app; [by apply Hhigh|]. specialize (Hcr e He). lia. }
  assert (Hes : (cl c ++ take j t.2) ++ drop j t.2 ++ cr c = es).
  { rewrite <-(al_entries _ _ _ _ _ _ _ _ _ _ Ha), <-app_assoc, (app_assoc (take _ _)), take_drop. done. }
  unfold Begin_at. mstep. rewrite st_empty, (proj2 (Z.eqb_neq _ _)) by done. mrun E.
  mrun (read_ok cap lm im H _ U n r (root t) d Hd (in_pins P (root t))).
  rewrite (bind_Val _ _ _ (Z.of_nat j) (st H (P ⊎ {[+ root t +]}) U n r)) by (unfold lift; by rewrite (leaf_KeyIndex _ _ _ _ _ Hrep Hs)).
  rewrite (leaf_GetSize _ _ _ _ _ Hrep). cbn zeta. rewrite (lf_next _ _ _ _ _ Hrep).
  destruct (Z.leb_spec (Z.of_nat (length t.2)) (Z.of_nat j)) as [Hend|Hin].
  - mrun (unpin_pinned cap lm im H P U n r (root t) Hh).
    rewrite take_ge in Hes, Hbefore by lia. rewrite drop_ge in Hes, Hrest by lia. simpl in Hes, Hrest.
    destruct (cursor_next_leaf _ _ _ _ _ _ _ _ P U n Ha Hh ltac:(by eapply room_weaken; [exact Hroom|lia]) Hval) as [[Hn Hcr0]|(Hn & Ef & Hcur)].
    + rewrite Hn, Z.eqb_refl. exists end_iterator, (cl c ++ t.2), []. split_and!; [|by rewrite Hcr0 in Hes|done|set_solver].
      unfold pins_of. simpl. by rewrite gmultiset_disj_union_right_id.
    + rewrite (proj2 (Z.eqb_neq _ _)) by done. mrun Ef. by exists (mkIt (cnext c) true 0), (cl c ++ t.2), (cr c).
  - exists (mkIt (root t) true (Z.of_nat j)), (cl c ++ take j t.2), (drop j t.2 ++ cr c). split_and!; [done| |done|done].
    split; [done|]. exists c, lo, hi, t, j. split_and!; try done. lia.
Qed.
End scan.
