(* ===== verification/BTreeEngineTheory.v ===== *)
(** * BPlusTreeEngine: the engine meets the contract of a storage engine

    First over the specification of the pool ([tree_ok], [meta]), then, by the
    simulation of [BTreeSim], over the buffer pool manager. *)

From stdpp Require Import gmultiset.
From S2P Require Import Prelude Entries Bytes Disk Replacer Buffer BufferTheory TreePages TreePagesTheory LeafTheory.
From S2P Require Import InternalTheory BTree Engine BTreeEngine BTreeSim BTreeRep BTreeSteps BTreeLookup BTreeInsert BTreeRemove BTreeScan.

#[local] Open Scope Z_scope.

Import BPlusTree.

(** ** A tree and the pages it may use *)

Definition leaf_max : Z := LeafPage.Capacity - 1.
Definition internal_max : Z := InternalPage.Capacity - 1.

Lemma leaf_max_ok : 3 ≤ leaf_max ≤ LeafPage.Capacity - 1.
Proof. by vm_compute. Qed.
Lemma internal_max_ok : 3 ≤ internal_max ≤ InternalPage.Capacity - 1.
Proof. by vm_compute. Qed.

(** Pages one insertion allocates at most: a split on every level of a tree
    with at most [2 ^ 64] entries, and a root. *)
Definition put_pages : Z := 66.

Section engine.
Context (cap : Z).
Hypothesis Hcap : 70 ≤ cap.

Abbreviation heap := (gmap page_id_t bytes) (only parsing).
Abbreviation st := (st cap leaf_max internal_max) (only parsing).
Abbreviation whole := (whole leaf_max internal_max) (only parsing).
Abbreviation room := (room cap) (only parsing).
Abbreviation cursor := (cursor leaf_max internal_max) (only parsing).

Implicit Types (H : heap) (P : gmultiset page_id_t) (U : gset page_id_t) (nx r p : page_id_t).
Implicit Types (es : list (Z * string)) (ps : list page_id_t).

(** The tree at root [r] holds [es] on the pages [ps], none of them page 0, and
    [n] more insertions find page ids. *)
Record tree_ok (n : nat) (H : heap) (nx r : page_id_t) (es : list (Z * string)) (ps : list page_id_t) : Prop := {
  ok_tree : (r ≠ INVALID_PAGE_ID ∧ whole H r es ps) ∨ (r = INVALID_PAGE_ID ∧ es = [] ∧ ps = []);
  ok_ids : ∀ p, p ∈ ps → 1 ≤ p < nx;
  ok_next : 1 ≤ nx;
  ok_space : APool.addressable (nx + put_pages * Z.of_nat n) = true;
  ok_keys : ∀ e, e ∈ es → is_i64 e.1;
}.

Lemma whole_frame H H' r es ps :
  (∀ p, p ∈ ps → H' !! p = H !! p) → whole H r es ps → whole H' r es ps.
Proof.
  intros Hf (h & t & Hr & Hrep & Ho & Hful & Hnd & He & Hp). exists h, t. split_and!; try done.
  eapply rep_frame; [|exact Hrep]. intros p Hin. apply Hf. by rewrite <-Hp.
Qed.

Lemma whole_sorted H r es ps : whole H r es ps → sorted es.
Proof. intros (h & t & _ & _ & Ho & _ & _ & <- & _). by apply (ord_entries h None None t). Qed.

Lemma ok_sorted n H nx r es ps : tree_ok n H nx r es ps → sorted es.
Proof. intros Hok. destruct (ok_tree _ _ _ _ _ _ Hok) as [[_ Hw]|(_ & -> & _)]; [by eapply whole_sorted|constructor]. Qed.

(** Different 64-bit keys: the height is bounded. *)
Lemma ok_height n H nx r es ps : tree_ok n H nx r es ps → (Nat.log2 (length es) ≤ 64)%nat.
Proof.
  intros Hok. pose proof (sorted_length es int64_min (int64_max + 1) (ok_sorted _ _ _ _ _ _ Hok) ltac:(done)) as Hl.
  assert (Z.of_nat (length es) ≤ 2 ^ 64) as Hlen.
  { etransitivity; [apply Hl|done]. intros e He. pose proof (ok_keys _ _ _ _ _ _ Hok e He) as Hk. unfold is_i64 in Hk. lia. }
  destruct (decide (length es = 0%nat)) as [->|Hne]; [by vm_compute; lia|].
  pose proof (proj1 (Nat.log2_spec (length es) ltac:(lia))) as Hpow. apply Nat2Z.inj_le in Hpow.
  rewrite Nat2Z.inj_pow in Hpow. change (Z.of_nat 2) with 2 in Hpow.
  apply Nat2Z.inj_le, (Z.pow_le_mono_r_iff 2); lia.
Qed.

Lemma ok_frame n H H' nx r es ps :
  (∀ p, p ∈ ps → H' !! p = H !! p) → tree_ok n H nx r es ps → tree_ok n H' nx r es ps.
Proof.
  intros Hf [Ht Hi Hn Hs Hk]. split; try done. destruct Ht as [[? ?]|?]; [left; split; [done|]|by right].
  by eapply whole_frame.
Qed.

Lemma ok_le n n' H nx r es ps : tree_ok n H nx r es ps → (n' ≤ n)%nat → tree_ok n' H nx r es ps.
Proof.
  intros [Ht Hi Hn Hs Hk] Hle. split; try done. eapply addressable_le; [exact Hs|]. unfold put_pages. lia.
Qed.
(** ** The calls of the tree *)

Lemma empty_tree H P U nx : IsEmpty (st H P U nx INVALID_PAGE_ID) = true.
Proof. done. Qed.

Lemma tree_Get n key H P U nx r es ps :
  tree_ok n H nx r es ps → held U P → room P 2 →
  GetValue tree_fuel key (st H P U nx r) = (Val (look key es), st H P U nx r).
Proof.
  intros Hok Hh Hroom. pose proof (ok_height _ _ _ _ _ _ Hok). pose proof leaf_max_ok. pose proof internal_max_ok.
  destruct (ok_tree _ _ _ _ _ _ Hok) as [[Hr Hw]|(-> & -> & _)]; [|done].
  apply (GetValue_ok cap leaf_max internal_max ltac:(lia) ltac:(lia) tree_fuel key H P U nx r es ps); try done.
  unfold tree_fuel. lia.
Qed.

Lemma tree_Insert n key v H P U nx r es ps :
  tree_ok (S n) H nx r es ps → held U P → room P 69 → is_i64 key → ssize v ≤ MAX_VALUE_SIZE →
  ∃ H' U' nx' r' ps', Insert tree_fuel key v (st H P U nx r) =
      (Val (bool_decide (look key es = None)), st H' P U' nx' r') ∧
    tree_ok n H' nx' r' (ins key v es) ps' ∧ U' ⊆ U ∧ H' !! 0 = H !! 0.
Proof.
  intros Hok Hh Hroom Hk Hv. pose proof (ok_height _ _ _ _ _ _ Hok) as Hht.
  pose proof (ok_space _ _ _ _ _ _ Hok) as Hsp. pose proof (ok_next _ _ _ _ _ _ Hok) as Hnx.
  assert (Hgrow : ∀ H' nx' r' k, grown leaf_max internal_max H H' nx nx' r' (ins key v es) ps k → (k ≤ 66)%nat →
    r' ≠ INVALID_PAGE_ID → ∃ ps', tree_ok n H' nx' r' (ins key v es) ps' ∧ H' !! 0 = H !! 0).
  { intros H' nx' r' k [(ps' & Hw & Hps) Hn Hf] Hk66 Hr'. exists ps'. split.
    - split; [by left| | | |].
      + intros p Hp. destruct (Hps p Hp) as [Hp'|?]; [|lia]. pose proof (ok_ids _ _ _ _ _ _ Hok p Hp'). lia.
      + lia.
      + eapply addressable_le; [exact Hsp|]. unfold put_pages. lia.
      + intros e [->|He]%elem_of_ins; [done|]. by apply (ok_keys _ _ _ _ _ _ Hok).
    - apply Hf; [|lia]. intros Hin. pose proof (ok_ids _ _ _ _ _ _ Hok 0 Hin). lia. }
  assert (Hr' : ∀ H' r' es' ps', whole H' r' es' ps' → (∀ p, p ∈ ps' → 0 ≤ p) → r' ≠ INVALID_PAGE_ID).
  { intros H' r' es' ps' Hw Hp ->. apply whole_root in Hw as [_ Hin]. specialize (Hp _ Hin). done. }
  destruct (ok_tree _ _ _ _ _ _ Hok) as [[Hr Hw]|(-> & -> & ->)].
  - destruct (Insert_ok cap leaf_max internal_max leaf_max_ok internal_max_ok tree_fuel key v H P U nx r es ps)
      as (H' & U' & nx' & r' & E & Hg & HU); try done.
    + intros p Hp. pose proof (ok_ids _ _ _ _ _ _ Hok p Hp). lia.
    + eapply addressable_le; [exact Hsp|]. unfold put_pages. lia.
    + unfold tree_fuel. lia.
    + eapply room_weaken; [exact Hroom|lia].
    + destruct (Hgrow _ _ _ _ Hg ltac:(lia)) as (ps' & Hok' & H0).
      { destruct (gr_whole _ _ _ _ _ _ _ _ _ _ Hg) as (ps' & Hw' & Hps). apply (Hr' _ _ _ _ Hw'). intros p Hp.
        destruct (Hps p Hp) as [Hp'|?]; [|lia]. pose proof (ok_ids _ _ _ _ _ _ Hok p Hp'). lia. }
      exists H', U', nx', r', ps'. done.
  - destruct (Insert_empty cap leaf_max internal_max leaf_max_ok internal_max_ok tree_fuel key v H P U nx)
      as (H' & U' & E & Hg & HU); try done.
    + eapply addressable_le; [exact Hsp|]. unfold put_pages. lia.
    + eapply room_weaken; [exact Hroom|lia].
    + destruct (Hgrow _ _ _ _ Hg ltac:(lia) ltac:(unfold INVALID_PAGE_ID; lia)) as (ps' & Hok' & H0).
      by exists H', U', (nx + 1), nx, ps'.
Qed.

(** Pages of the tree may be pinned, as long as no changes of theirs are
    unannounced. *)
Lemma tree_Remove n key H P U nx r es ps :
  tree_ok n H nx r es ps → held U P → room P 4 → (∀ p, p ∈ ps → p ∉ U) →
  ∃ H' U' r' ps', Remove tree_fuel key (st H P U nx r) =
      (Val (bool_decide (is_Some (look key es))), st H' P U' nx r') ∧
    tree_ok n H' nx r' (del key es) ps' ∧ held U' P ∧ (∀ p, p ∈ ps' → p ∉ U') ∧ H' !! 0 = H !! 0 ∧
    (look key es = None → r' = r).
Proof.
  intros Hok Hh Hroom HP. pose proof (ok_height _ _ _ _ _ _ Hok) as Hht.
  destruct (ok_tree _ _ _ _ _ _ Hok) as [[Hr Hw]|(-> & -> & ->)].
  2:{ exists H, U, INVALID_PAGE_ID, []. by split_and!. }
  destruct (Remove_ok cap leaf_max internal_max leaf_max_ok internal_max_ok tree_fuel key H P U nx r es ps)
    as (H' & U' & r' & E & [(ps' & Ht & Hps & HU) Hf] & Habs); try done.
  { intros p Hp. pose proof (ok_ids _ _ _ _ _ _ Hok p Hp). split; [lia|by apply HP]. }
  { unfold tree_fuel. lia. }
  assert (Hkeys : ∀ e, e ∈ del key es → is_i64 e.1).
  { intros e [He _]%elem_of_del. by apply (ok_keys _ _ _ _ _ _ Hok). }
  exists H', U', r', ps'. split_and!; [done| | | | |by intros (_ & ? & _)%Habs].
  - destruct Hok as [_ Hi Hn Hs Hk]. destruct Ht as [Hw'|(Hnil & -> & ->)].
    + split; try done; [|by auto]. left. split; [|done].
      intros ->. apply whole_root in Hw' as [_ Hin]. apply Hps, Hi in Hin. unfold INVALID_PAGE_ID in Hin. lia.
    + split; try done; [by right|set_solver].
  - intros x [Hx|[Hx _]]%HU; [by apply Hh|done].
  - intros p Hp [HpU|[_ Hno]]%HU; [|done]. by apply (HP p (Hps _ Hp)).
  - apply Hf. intros Hin. pose proof (ok_ids _ _ _ _ _ _ Hok 0 Hin). lia.
Qed.
(** ** The calls of the engine *)

(** [Q]: what else an engine keeps in page 0; a new root leaves it. *)
Context (Q : bytes → Prop).
Hypothesis HQ : ∀ d r, blen d = PAGE_SIZE → Q d → Q (BPlusTreeEngine.set_meta_root r d).

(** Page 0 names the root. *)
Definition meta (H : heap) (r : page_id_t) : Prop :=
  ∃ d, H !! BPlusTreeEngine.kMetaPageId = Some d ∧ blen d = PAGE_SIZE ∧ BPlusTreeEngine.meta_root d = r ∧ Q d.

Lemma meta_frame H H' r : H' !! 0 = H !! 0 → meta H r → meta H' r.
Proof. unfold meta, BPlusTreeEngine.kMetaPageId. by intros ->. Qed.

Lemma ok_root_i64 n H nx r es ps : tree_ok n H nx r es ps → is_i64 r.
Proof.
  intros Hok. destruct (ok_tree _ _ _ _ _ _ Hok) as [[Hr Hw]|(-> & _)]; [|done].
  apply whole_root in Hw as [_ Hin]. pose proof (ok_ids _ _ _ _ _ _ Hok r Hin). pose proof (ok_space _ _ _ _ _ _ Hok) as Hs.
  apply addressable_i64 in Hs. unfold is_i64, int64_min, put_pages in *. lia.
Qed.

Lemma Persist_ok H P U nx r old :
  meta H old → is_i64 r → held U P → room P 1 →
  ∃ H' U', BPlusTreeEngine.PersistRootPageIdIfChanged (st H P U nx r) = (Val tt, st H' P U' nx r) ∧
    meta H' r ∧ U' ⊆ U ∧ ∀ p, p ≠ 0 → H' !! p = H !! p.
Proof.
  intros (d & Hd & Hlen & Hold & HQd) Hr Hh Hroom. unfold BPlusTreeEngine.PersistRootPageIdIfChanged.
  set (m := BPlusTreeEngine.kMetaPageId) in *.
  mrun (fetch_ok cap leaf_max internal_max H P U nx r m ltac:(eauto) (or_intror Hroom)).
  mrun (read_ok cap leaf_max internal_max H _ U nx r m d Hd (in_pins P m)).
  rewrite Hold. cbn [root_page_id_ BTreeSteps.st].
  destruct (Z.eqb_spec old r) as [->|Hne]; simpl.
  - mstep. rewrite unpin_pinned by done. exists H, U. split_and!; try done. by exists d.
  - assert (Hlen' : blen (BPlusTreeEngine.set_meta_root r d) = PAGE_SIZE).
    { pose proof (blen_le_enc 8 r) as He. unfold BPlusTreeEngine.set_meta_root, put64.
      rewrite blen_blit; [done|..]; unfold PAGE_SIZE in *; lia. }
    destruct (write_ok cap leaf_max internal_max H (P ⊎ {[+ m +]}) U nx r m _ (in_pins P m) Hlen') as (U1 & E1 & _ & HU1).
    mrun E1. rewrite unpin_dirty, pin_unpin by apply in_pins.
    eexists _, _. split; [done|]. split_and!.
    + eexists. split; [apply lookup_insert_eq|]. split; [done|]. split; [|by apply HQ]. apply get_put64_eq; [lia|rewrite Hlen; done|done].
    + sub_solver.
    + intros p Hp. by rewrite lookup_insert_ne.
Qed.

Lemma persist_ok n H P U nx r es ps old :
  tree_ok n H nx r es ps → meta H old → held U P → room P 1 →
  ∃ H' U', BPlusTreeEngine.PersistRootPageIdIfChanged (st H P U nx r) = (Val tt, st H' P U' nx r) ∧
    meta H' r ∧ U' ⊆ U ∧ tree_ok n H' nx r es ps.
Proof.
  intros Hok Hm Hh Hroom. destruct (Persist_ok H P U nx r old Hm (ok_root_i64 _ _ _ _ _ _ Hok) Hh Hroom) as (H' & U' & E & Hm' & HU & Hf).
  exists H', U'. split_and!; try done. eapply ok_frame; [|exact Hok]. intros p Hp. apply Hf.
  pose proof (ok_ids _ _ _ _ _ _ Hok p Hp). lia.
Qed.

(** [e] holds [es], nothing pinned. *)
Definition holds (n : nat) (e : t APool.t) (es : list (Z * string)) : Prop :=
  ∃ H nx r ps, e = st H ∅ ∅ nx r ∧ tree_ok n H nx r es ps ∧ meta H r.

(** [e] holds [es]; the open iterator [it] pins its page. *)
Definition walks (n : nat) (e : t APool.t) (es : list (Z * string)) (it : Iterator) (rest : list (Z * string)) : Prop :=
  ∃ H nx r ps before, e = st H (pins_of it) ∅ nx r ∧ tree_ok n H nx r es ps ∧ meta H r ∧
    cursor H r es ps it before rest.

Lemma holds_Get n e es key :
  holds n e es → ∃ e', Get key e = (Val (look key es), e') ∧ holds n e' es.
Proof using Hcap.
  clear HQ.
  intros (H & nx & r & ps & -> & Hok & Hm). exists (st H ∅ ∅ nx r). split; [|by exists H, nx, r, ps].
  apply (tree_Get n key H ∅ ∅ nx r es ps Hok (held_nil _)), (room_nil cap). lia.
Qed.

Lemma holds_Put n e es key v :
  holds (S n) e es → is_i64 key → ssize v ≤ MAX_VALUE_SIZE →
  ∃ e', Put key v e = (Val tt, e') ∧ holds n e' (ins key v es).
Proof using Hcap HQ.
  intros (H & nx & r & ps & -> & Hok & Hm) Hk Hv.
  destruct (tree_Insert n key v H ∅ ∅ nx r es ps Hok (held_nil _) (room_nil cap 69 ltac:(lia)) Hk Hv)
    as (H1 & U1 & nx1 & r1 & ps1 & E1 & Hok1 & ->%sub_nil & H0).
  destruct (persist_ok n H1 ∅ ∅ nx1 r1 _ ps1 r Hok1 (meta_frame _ _ _ H0 Hm) (held_nil _) (room_nil cap 1 ltac:(lia)))
    as (H2 & U2 & E2 & Hm2 & ->%sub_nil & Hok2).
  exists (st H2 ∅ ∅ nx1 r1). split; [|by exists H2, nx1, r1, ps1].
  cbn [Put btree_engine]. unfold BPlusTreeEngine.Put. by mrun E1.
Qed.

(** [e] holds [es]; the iterator [it] still pins its page, which may have left
    the tree. *)
Definition idles (n : nat) (e : t APool.t) (es : list (Z * string)) (it : Iterator) : Prop :=
  ∃ H U nx r ps, e = st H (pins_of it) U nx r ∧ tree_ok n H nx r es ps ∧ meta H r ∧ held U (pins_of it) ∧
    (∀ p, p ∈ ps → p ∉ U) ∧ 0 ∉ pins_of it.

Lemma room_it it k : 0 ≤ k ≤ 69 → room (pins_of it) k.
Proof using Hcap.
  clear HQ.
  intros Hk. unfold pins_of. destruct (it_page it); [|apply room_nil; lia].
  rewrite <-(left_id ∅ (⊎) {[+ _ +]}). apply room_add, room_nil. lia.
Qed.

Lemma idles_Delete n e es it key :
  idles n e es it → ∃ e', Delete key e = (Val (bool_decide (is_Some (look key es))), e') ∧ idles n e' (del key es) it.
Proof using Hcap HQ.
  intros (H & U & nx & r & ps & -> & Hok & Hm & Hh & HU & H0).
  destruct (tree_Remove n key H (pins_of it) U nx r es ps Hok Hh (room_it it 4 ltac:(lia)) HU)
    as (H1 & U1 & r1 & ps1 & E1 & Hok1 & Hh1 & HU1 & E0 & Habs).
  destruct (persist_ok n H1 (pins_of it) U1 nx r1 _ ps1 r Hok1 (meta_frame _ _ _ E0 Hm) Hh1 (room_it it 1 ltac:(lia)))
    as (H2 & U2 & E2 & Hm2 & Hsub & Hok2).
  cbn [Delete btree_engine]. unfold BPlusTreeEngine.Delete. case_bool_decide as Hin.
  - exists (st H2 (pins_of it) U2 nx r1). split; [mrun E1; by mrun E2|].
    exists H2, U2, nx, r1, ps1. split_and!; try done; [set_solver|]. intros p Hp Hp2. by apply (HU1 p), Hsub.
  - exists (st H1 (pins_of it) U1 nx r1). split; [by mrun E1|]. exists H1, U1, nx, r1, ps1. split_and!; try done.
    rewrite Habs by (by apply eq_None_not_Some). by eapply meta_frame.
Qed.

Lemma idles_Destroy n e es it : idles n e es it → ∃ e', Destroy it e = (Val tt, e') ∧ holds n e' es.
Proof using Hcap.
  clear HQ.
  intros (H & U & nx & r & ps & -> & Hok & Hm & Hh & HU & H0). cbn [Destroy btree_engine].
  unfold Release, pins_of in *. destruct (it_page it).
  - set (p := it_page_id it) in *. 
    assert (∃ H1, unpin p false (st H {[+ p +]} U nx r) = (Val tt, st H1 ∅ (U ∖ {[p]}) nx r) ∧ ∀ x, x ∉ U → H1 !! x = H !! x)
      as (H1 & E & Hkeep).
    { assert (E0 : ∅ ⊎ {[+ p +]} = ({[+ p +]} : gmultiset page_id_t)) by apply (left_id ∅ (⊎)). destruct (decide (p ∈ U)) as [Hp|Hp].
      - destruct (unpin_discard cap leaf_max internal_max leaf_max_ok internal_max_ok H ∅ U nx r p false) as (H1 & E & EH); [multiset_solver|].
        rewrite E0 in E. exists H1. split; [done|]. intros x Hx. assert (x ≠ p) by (by intros ->).
        by rewrite <-(lookup_delete_ne H1 p x), EH, lookup_delete_ne by done.
      - exists H. split; [|done]. rewrite <-E0. apply unpin_either. by right. }
    assert (Hp0 : p ≠ 0) by (intros E0; apply H0; rewrite E0; by apply gmultiset_elem_of_singleton).
    assert (U ∖ {[p]} = ∅) as EU.
    { apply sub_nil. intros x [Hx Hne]%elem_of_difference. apply Hh, gmultiset_elem_of_singleton in Hx. set_solver. }
    eexists. split; [exact E|]. rewrite EU. exists H1, nx, r, ps. split_and!; [done| |].
    + eapply ok_frame; [|exact Hok]. intros x Hx. apply Hkeep. by apply HU.
    + apply (meta_frame H); [|done]. apply Hkeep. intros Hx. by apply H0, Hh.
  - eexists. split; [done|]. rewrite (sub_nil U) by (intros x Hx%Hh; multiset_solver). by exists H, nx, r, ps.
Qed.

Lemma holds_Delete n e es key :
  holds n e es → ∃ e', Delete key e = (Val (bool_decide (is_Some (look key es))), e') ∧ holds n e' (del key es).
Proof using Hcap HQ.
  intros (H & nx & r & ps & -> & Hok & Hm).
  destruct (idles_Delete n (st H ∅ ∅ nx r) es end_iterator key) as (e' & E & Hi).
  { exists H, ∅, nx, r, ps. split_and!; try done. set_solver. }
  exists e'. split; [done|]. by destruct (idles_Destroy _ _ _ _ Hi) as (e1 & [= <-] & Hs).
Qed.
Lemma ok_valid n H nx r es ps p : tree_ok n H nx r es ps → p ∈ ps → p ≠ INVALID_PAGE_ID.
Proof. intros Hok Hp ->. pose proof (ok_ids _ _ _ _ _ _ Hok _ Hp) as Hi. unfold INVALID_PAGE_ID in Hi. lia. Qed.

Lemma pins_start it : ∅ ⊎ pins_of it = pins_of it.
Proof. by rewrite (left_id ∅ (⊎)). Qed.

Lemma holds_Scan n e es key :
  holds n e es → is_i64 key →
  ∃ e' it before rest, Scan key e = (Val it, e') ∧ walks n e' es it rest ∧ es = before ++ rest ∧
    (∀ x, x ∈ before → x.1 < key) ∧ (∀ x, x ∈ rest → key ≤ x.1).
Proof using Hcap.
  clear HQ.
  intros (H & nx & r & ps & -> & Hok & Hm) Hk. pose proof (ok_height _ _ _ _ _ _ Hok).
  pose proof leaf_max_ok. pose proof internal_max_ok. pose proof (room_nil cap 2 ltac:(lia)) as Hroom.
  cbn [Scan btree_engine]. unfold BPlusTreeEngine.Scan.
  destruct (ok_tree _ _ _ _ _ _ Hok) as [[Hr Hw]|(-> & -> & ->)].
  2:{ exists (st H ∅ ∅ nx INVALID_PAGE_ID), end_iterator, [], []. split_and!; [by destruct (key =? INVALID_KEY)| |done|set_solver..].
      exists H, nx, INVALID_PAGE_ID, [], []. by split_and!. }
  destruct (Z.eqb_spec key INVALID_KEY) as [->|].
  - destruct (Begin_ok cap leaf_max internal_max ltac:(lia) ltac:(lia) tree_fuel H ∅ ∅ nx r es ps Hw Hr
      ltac:(unfold tree_fuel; lia) (held_nil _) Hroom) as (it & E & Hc). rewrite pins_start in E.
    exists (st H (pins_of it) ∅ nx r), it, [], es. split_and!; [done| |done|set_solver|].
    + by exists H, nx, r, ps, [].
    + intros x Hx. apply (ok_keys _ _ _ _ _ _ Hok x Hx).
  - destruct (Begin_at_ok cap leaf_max internal_max ltac:(lia) ltac:(lia) tree_fuel key H ∅ ∅ nx r es ps Hw Hr
      ltac:(unfold tree_fuel; lia) (held_nil _) Hroom (λ p, ok_valid _ _ _ _ _ _ p Hok)) as (it & before & rest & E & Hc & Hb & Hre).
    rewrite pins_start in E. exists (st H (pins_of it) ∅ nx r), it, before, rest. split_and!; [done| | |done|done].
    + by exists H, nx, r, ps, before.
    + by destruct Hc.
Qed.

Lemma walks_IsValid n e es it rest : walks n e es it rest → IsValid it = bool_decide (rest ≠ []).
Proof.
  intros (H & nx & r & ps & before & -> & Hok & Hm & Hc). cbn [IsValid btree_engine].
  rewrite (IsEnd_ok _ _ _ _ _ _ _ _ _ Hc). by destruct rest.
Qed.

Lemma walks_GetKey n e es it k v rest :
  walks n e es it ((k, v) :: rest) → Engine.GetKey it e = (Val k, e) ∧ Engine.GetValue it e = (Val v, e).
Proof.
  intros (H & nx & r & ps & before & -> & Hok & Hm & Hc).
  pose proof (GetKey_ok cap leaf_max internal_max H ∅ ∅ nx r es ps it before _ Hc k v rest eq_refl) as E.
  by rewrite pins_start in E.
Qed.

Lemma walks_Next n e es it x rest :
  walks n e es it (x :: rest) → ∃ e' it', Engine.Next it e = (Val it', e') ∧ walks n e' es it' rest.
Proof using Hcap.
  clear HQ.
  intros (H & nx & r & ps & before & -> & Hok & Hm & Hc). pose proof leaf_max_ok.
  destruct (Next_ok cap leaf_max internal_max ltac:(lia) H ∅ ∅ nx r es ps it before _ Hc (held_nil _)
    (room_nil cap 1 ltac:(lia)) (λ p, ok_valid _ _ _ _ _ _ p Hok) x rest eq_refl) as (it' & E & Hc').
  rewrite !pins_start in E. exists (st H (pins_of it') ∅ nx r), it'. split; [done|].
  by exists H, nx, r, ps, (before ++ [x]).
Qed.

Lemma walks_idles n e es it rest : walks n e es it rest → idles n e es it.
Proof using Hcap.
  clear HQ.
  intros (H & nx & r & ps & before & -> & Hok & Hm & Hc). exists H, ∅, nx, r, ps. split_and!; try done.
  destruct Hc as [_ Hit]. unfold pins_of. destruct (it_page it); [|multiset_solver].
  destruct Hit as (c & lo & hi & t & j & Ha & -> & _). intros E%gmultiset_elem_of_singleton.
  assert (Hin : 0 ∈ ps) by (rewrite <-(al_pids _ _ _ _ _ _ _ _ _ _ Ha), E; by left).
  pose proof (ok_ids _ _ _ _ _ _ Hok 0 Hin). lia.
Qed.
End engine.

(** ** Over the buffer pool manager *)

Lemma sim_Val {C D A} (Rel : C → D → Prop) (m : M C A) (m' : M D A) c d x d' :
  sim Rel m m' → Rel c d → m' d = (Val x, d') → ∃ c', m c = (Val x, c') ∧ Rel c' d'.
Proof. intros Hm Hr E. specialize (Hm c d Hr). by rewrite E in Hm. Qed.

Section sims.
Context {C D : Type} `{!Pool C, !Pool D} (Rel : C → D → Prop) `{!PoolSim Rel}.

Lemma sim_Persist :
  sim (tree_rel Rel) BPlusTreeEngine.PersistRootPageIdIfChanged BPlusTreeEngine.PersistRootPageIdIfChanged.
Proof. unfold BPlusTreeEngine.PersistRootPageIdIfChanged. sim_tac. Qed.

Lemma sim_eng_Get k : sim (tree_rel Rel) (Get k) (Get k).
Proof. refine (sim_GetValue _ _ _). Qed.

Lemma sim_eng_Put k v : sim (tree_rel Rel) (Put k v) (Put k v).
Proof. apply sim_bind; [refine (sim_Insert _ _ _ _)|intros; apply sim_Persist]. Qed.

Lemma sim_eng_Delete k : sim (tree_rel Rel) (Delete k) (Delete k).
Proof.
  apply sim_bind; [refine (sim_Remove _ _ _)|intros removed]. apply sim_bind; [|intros; apply sim_ret].
  destruct removed; [apply sim_Persist|apply sim_ret].
Qed.

Lemma sim_eng_Scan k : sim (tree_rel Rel) (Scan k) (Scan k).
Proof.
  cbn [Scan btree_engine]. unfold BPlusTreeEngine.Scan.
  destruct (k =? INVALID_KEY); [refine (sim_Begin _ _)|refine (sim_Begin_at _ _ _)].
Qed.
End sims.

Section bpm.
Context {R : Type} `{!Replacer R, !ReplacerSpec R}.

Abbreviation engine := (BPlusTree.t (BufferPoolManager.t R)) (only parsing).
Abbreviation rel := (tree_rel (pool_rel (R := R) [])) (only parsing).

Definition bt_stores (n : nat) (e : engine) (es : list (Z * string)) : Prop :=
  ∃ cap a, 70 ≤ cap ∧ rel e a ∧ holds cap (λ _, True) n a es.

Definition bt_scanning (n : nat) (e : engine) (es : list (Z * string)) (it : Iterator) (rest : list (Z * string)) : Prop :=
  ∃ cap a, 70 ≤ cap ∧ rel e a ∧ walks cap (λ _, True) n a es it rest.

Definition bt_opened (n : nat) (e : engine) (es : list (Z * string)) (it : Iterator) : Prop :=
  ∃ cap a, 70 ≤ cap ∧ rel e a ∧ idles cap (λ _, True) n a es it.

(** The engine over a buffer pool, whatever its replacement policy. *)
#[global] Program Instance btree_spec : EngineSpec engine := {
  stores := bt_stores;
  scanning := bt_scanning;
  opened := bt_opened;
}.
Next Obligation.
  intros n e es (cap & a & Hcap & Hr & H & nx & r & ps & _ & Hok & _). by eapply ok_sorted.
Qed.
Next Obligation.
  intros n e es x (cap & a & Hcap & Hr & H & nx & r & ps & _ & Hok & _). by eapply ok_keys.
Qed.
Next Obligation.
  intros n n' e es (cap & a & Hcap & Hr & H & nx & r & ps & Ea & Hok & Hm) Hle. exists cap, a. split_and!; try done.
  exists H, nx, r, ps. split_and!; try done. by eapply ok_le.
Qed.
Next Obligation.
  intros n e es k (cap & a & Hcap & Hr & Hs) Hk. destruct (holds_Get cap Hcap (λ _, True) n a es k Hs) as (a' & E & Hs').
  destruct (sim_Val _ _ _ _ _ _ _ (sim_eng_Get _ k) Hr E) as (e' & E' & Hr'). exists e'. split; [done|]. by exists cap, a'.
Qed.
Next Obligation.
  intros n e es k v (cap & a & Hcap & Hr & Hs) Hk Hv. destruct (holds_Put cap Hcap (λ _, True) (λ _ _ _ _, I) n a es k v Hs Hk Hv) as (a' & E & Hs').
  destruct (sim_Val _ _ _ _ _ _ _ (sim_eng_Put _ k v) Hr E) as (e' & E' & Hr'). exists e'. split; [done|]. by exists cap, a'.
Qed.
Next Obligation.
  intros n e es k (cap & a & Hcap & Hr & Hs) Hk. destruct (holds_Delete cap Hcap (λ _, True) (λ _ _ _ _, I) n a es k Hs) as (a' & E & Hs').
  destruct (sim_Val _ _ _ _ _ _ _ (sim_eng_Delete _ k) Hr E) as (e' & E' & Hr'). exists e'. split; [done|]. by exists cap, a'.
Qed.
Next Obligation.
  intros n e es k (cap & a & Hcap & Hr & Hs) Hk.
  destruct (holds_Scan cap Hcap (λ _, True) n a es k Hs Hk) as (a' & it & before & rest & E & Hw & Hes).
  destruct (sim_Val _ _ _ _ _ _ _ (sim_eng_Scan (pool_rel []) k) Hr E) as (e' & E' & Hr'). exists e', it, before, rest.
  split; [done|]. split; [|done]. by exists cap, a'.
Qed.
Next Obligation.
  intros n e es it rest (cap & a & Hcap & Hr & Hw). by eapply walks_IsValid.
Qed.
Next Obligation.
  intros n e es it k v rest (cap & a & Hcap & Hr & Hw). destruct (walks_GetKey _ _ _ _ _ _ _ _ _ Hw) as [E _].
  destruct (sim_Val _ _ _ _ _ _ _ (sim_GetKey _ it) Hr E) as (e' & E' & Hr'). exists e'. split; [done|]. by exists cap, a.
Qed.
Next Obligation.
  intros n e es it k v rest (cap & a & Hcap & Hr & Hw). destruct (walks_GetKey _ _ _ _ _ _ _ _ _ Hw) as [_ E].
  destruct (sim_Val _ _ _ _ _ _ _ (sim_it_GetValue _ it) Hr E) as (e' & E' & Hr'). exists e'. split; [done|]. by exists cap, a.
Qed.
Next Obligation.
  intros n e es it x rest (cap & a & Hcap & Hr & Hw). destruct (walks_Next cap Hcap (λ _, True) _ _ _ _ _ _ Hw) as (a' & it' & E & Hw').
  destruct (sim_Val _ _ _ _ _ _ _ (sim_Next _ it) Hr E) as (e' & E' & Hr'). exists e', it'. split; [done|]. by exists cap, a'.
Qed.
Next Obligation.
  intros n e es it rest (cap & a & Hcap & Hr & Hw). exists cap, a. split_and!; try done. by eapply walks_idles.
Qed.
Next Obligation.
  intros n e es it k (cap & a & Hcap & Hr & Hi) Hk. destruct (idles_Delete cap Hcap (λ _, True) (λ _ _ _ _, I) n a es it k Hi) as (a' & E & Hi').
  destruct (sim_Val _ _ _ _ _ _ _ (sim_eng_Delete _ k) Hr E) as (e' & E' & Hr'). exists e'. split; [done|]. by exists cap, a'.
Qed.
Next Obligation.
  intros n e es it (cap & a & Hcap & Hr & Hw). destruct (idles_Destroy cap Hcap (λ _, True) _ _ _ _ Hw) as (a' & E & Hs).
  destruct (sim_Val _ _ _ _ _ _ _ (sim_Release _ it) Hr E) as (e' & E' & Hr'). exists e'. split; [done|]. by exists cap, a'.
Qed.
End bpm.
