(* ===== verification/BTreeReopen.v ===== *)
(** * BPlusTreeEngine: opening and closing

    A fresh database file opens as an empty engine; an engine that is closed
    and opened again over the file it leaves holds what it held. *)

From stdpp Require Import gmultiset.
From S2P Require Import Prelude Entries Bytes Disk Replacer ReplacerTheory Buffer BufferTheory TreePages TreePagesTheory.
From S2P Require Import LeafTheory InternalTheory BTree Engine BTreeEngine BTreeSim BTreeRep BTreeSteps BTreeLookup BTreeInsert BTreeEngineTheory.

#[local] Open Scope Z_scope.

Import BPlusTree.

(** ** The file *)

(** Pages a file of [len] bytes has, the last one possibly cut short. *)
Definition pages_in (len : Z) : Z := (len + PAGE_SIZE - 1) / PAGE_SIZE.

Lemma pages_in_le len n : len ≤ n * PAGE_SIZE → pages_in len ≤ n.
Proof. intros. unfold pages_in. apply Z.lt_succ_r, Z.div_lt_upper_bound; unfold PAGE_SIZE in *; lia. Qed.

Lemma pages_in_ge len : len ≤ pages_in len * PAGE_SIZE.
Proof.
  unfold pages_in. pose proof (Z.mod_pos_bound (len + PAGE_SIZE - 1) PAGE_SIZE ltac:(done)).
  pose proof (Z.div_mod (len + PAGE_SIZE - 1) PAGE_SIZE ltac:(done)). unfold PAGE_SIZE in *. lia.
Qed.

Lemma pages_in_nonneg len : 0 ≤ len → 0 ≤ pages_in len.
Proof. intros. apply Z.div_pos; unfold PAGE_SIZE; lia. Qed.

(** A page past the end reads as zero bytes. *)
Lemma page_of_past b p : 0 ≤ p → pages_in (blen b) ≤ p → DiskManager.page_of b p = zeros PAGE_SIZE.
Proof.
  intros Hp Hge. pose proof (pages_in_ge (blen b)). unfold DiskManager.page_of.
  assert (block b (p * PAGE_SIZE) PAGE_SIZE = []) as ->; [|done].
  unfold block. rewrite drop_ge; [apply take_nil|]. unfold blen, PAGE_SIZE in *. nia.
Qed.

Lemma Open_disk name f :
  DiskManager.f_faults f = [] →
  DiskManager.Open name f = (Val (DiskManager.mk f name (pages_in (blen (DiskManager.f_data f))) 0 0), f).
Proof. intros Hf. destruct f as [data faults]. simpl in Hf. by subst. Qed.

(** ** Pages of the tree are not zero *)

Lemma zeros_type : get_i32 (zeros PAGE_SIZE) BPlusTreePage.page_type_off = 0.
Proof. by vm_compute. Qed.

Lemma zeros_meta : BPlusTreeEngine.meta_root (zeros PAGE_SIZE) = 0.
Proof. by vm_compute. Qed.

Section pages.
Context (lm im : Z).

Lemma rep_pids h H par nx (t : tree h) p :
  rep lm im h H par nx t → p ∈ pids h t → ∃ d, H !! p = Some d ∧ d ≠ zeros PAGE_SIZE.
Proof.
  revert par nx t; induction h as [|h IH]; intros par nx t Hrep Hp.
  - pose proof (rep_hdr _ _ _ _ _ _ _ Hrep) as (d & Hd & Hh). simpl in Hp. apply list_elem_of_singleton in Hp as ->.
    exists d. split; [done|]. intros ->. pose proof (hdr_type _ _ _ _ _ Hh) as Ht. by rewrite zeros_type in Ht.
  - destruct t as [q cs]. rewrite pids_node in Hp. apply elem_of_cons in Hp as [->|Hp].
    + pose proof (rep_hdr _ _ _ _ _ _ _ Hrep) as (d & Hd & Hh). exists d. split; [done|]. intros ->.
      pose proof (hdr_type _ _ _ _ _ Hh) as Ht. by rewrite zeros_type in Ht.
    + apply rep_node in Hrep as [_ Hreps]. apply elem_of_flat in Hp as (e & He & Hp). clear -IH Hreps He Hp.
      induction cs as [|e' cs IHcs]; [by apply elem_of_nil in He|]. destruct Hreps as [Hr Hreps].
      apply elem_of_cons in He as [->|He]; [by eapply IH|by apply IHcs].
Qed.
End pages.

(** ** Opening *)

Section load.
Context {C D : Type} `{!Pool C, !Pool D} (Rel : C → D → Prop) `{!PoolSim Rel}.

Lemma sim_load_root n : sim Rel (BPlusTreeEngine.load_root n) (BPlusTreeEngine.load_root n).
Proof.
  unfold BPlusTreeEngine.load_root. destruct (n =? 0).
  - apply sim_bind; [apply ps_new|intros [p|]; [|apply sim_undef]].
    apply sim_bind; [apply ps_read|intros d]. apply sim_bind; [apply ps_write|intros _].
    apply sim_bind; [apply ps_unpin|intros _; apply sim_ret].
  - apply sim_bind; [apply ps_fetch|intros [|]; [|apply sim_undef]].
    apply sim_bind; [apply ps_read|intros d]. apply sim_bind; [apply ps_unpin|intros _; apply sim_ret].
Qed.
End load.

(** The specification of the pool a file opens with. *)
Definition booted (size : Z) (name : string) (f : DiskManager.file) : APool.t :=
  boot size (DiskManager.mk f name (pages_in (blen (DiskManager.f_data f))) 0 0).

Lemma Open_rel name size f root a :
  DiskManager.f_faults f = [] → 0 ≤ size → pages_in (blen (DiskManager.f_data f)) * PAGE_SIZE ≤ int64_max →
  BPlusTreeEngine.load_root (pages_in (blen (DiskManager.f_data f))) (booted size name f) = (Val root, a) →
  ∃ e f', BPlusTreeEngine.Open name size f = (Val e, f') ∧
    tree_rel (pool_rel []) e (mk a root leaf_max internal_max).
Proof.
  intros Hf Hs Hmax E. unfold BPlusTreeEngine.Open. rewrite (Open_disk name f Hf).
  set (disk := DiskManager.mk f name _ 0 0) in *. set (rep := LRUKReplacer.mk size 2 0 0 ∅).
  assert (LRUKReplacer.New size 2 = Val rep) as Hnew by done. rewrite Hnew.
  pose proof (LRUKTheory.rel_new size 2 rep ltac:(lia) Hnew) as Hrel.
  assert (pool_rel [] (BufferPoolManager.New size disk rep) (boot size disk)) as Hpr.
  { apply pool_rel_new; [done| | |done| |done|done].
    - split; [done|]. apply pages_in_ge.
    - apply pages_in_nonneg. unfold blen. lia.
    - by exists ∅. }
  destruct (sim_Val _ _ _ _ _ _ _ (sim_load_root (pool_rel []) _) Hpr E) as (b & Eb & Hb).
  cbn [DiskManager.GetNumPages DiskManager.next_page_id_] in *. change (DiskManager.GetNumPages disk) with (pages_in (blen (DiskManager.f_data f))).
  rewrite Eb. unfold New. eexists _, _. split; [by vm_compute (_ || _)|]. by split.
Qed.

(** What the steps of the tree say about the pool alone. *)
Lemma bpm_step {A} cap lm im (m : M APool.t A) H P U n r x H' P' U' n' :
  bpm m (st cap lm im H P U n r) = (x, st cap lm im H' P' U' n' r) →
  m (APool.mk cap H P U n) = (x, APool.mk cap H' P' U' n').
Proof. unfold bpm, st. simpl. destruct (m _) as [y s]. by intros [= -> ->]. Qed.

Lemma unpin_step cap lm im H P U n r p dirty H' P' U' n' :
  unpin p dirty (st cap lm im H P U n r) = (Val tt, st cap lm im H' P' U' n' r) →
  ∃ b, pool_unpin p dirty (APool.mk cap H P U n) = (Val b, APool.mk cap H' P' U' n').
Proof.
  unfold unpin, bpm, st, mbind, M_bind. simpl. destruct (APool.unpin _ _ _) as [[b| | |] s]; try done.
  intros [= ->]. by exists b.
Qed.

Lemma load_fresh cap :
  1 ≤ cap → ∃ d, BPlusTreeEngine.load_root 0 (APool.mk cap ∅ ∅ ∅ 0) =
    (Val INVALID_PAGE_ID, APool.mk cap {[0 := d]} ∅ ∅ 1) ∧
    blen d = PAGE_SIZE ∧ BPlusTreeEngine.meta_root d = INVALID_PAGE_ID.
Proof.
  intros Hcap. set (d := BPlusTreeEngine.set_meta_root INVALID_PAGE_ID (zeros PAGE_SIZE)). exists d.
  assert (Hlen : blen d = PAGE_SIZE) by (by vm_compute). split_and!; [|done|by vm_compute].
  pose proof (room_nil cap 1 ltac:(lia)) as Hroom.
  pose proof (bpm_step _ _ _ _ _ _ _ _ _ _ _ _ _ _ (new_ok cap 3 3 ∅ ∅ ∅ 0 0 Hroom eq_refl)) as E1.
  pose proof (bpm_step _ _ _ _ _ _ _ _ _ _ _ _ _ _
    (read_ok cap 3 3 (<[0 := zeros PAGE_SIZE]> ∅) _ ({[0]} ∪ ∅) 1 0 0 _ (lookup_insert_eq _ _ _) (in_pins ∅ 0))) as E2.
  destruct (write_ok cap 3 3 (<[0 := zeros PAGE_SIZE]> ∅) (∅ ⊎ {[+ 0 +]}) ({[0]} ∪ ∅) 1 0 0 d (in_pins ∅ 0) Hlen) as (U & E3 & _ & HU).
  apply bpm_step in E3. rewrite insert_insert_eq in E3.
  destruct (unpin_step _ _ _ _ _ _ _ _ _ _ _ _ _ _ (unpin_dirty cap 3 3 (<[0 := d]> ∅) _ U 1 0 0 (in_pins ∅ 0))) as (b & E4).
  rewrite pin_unpin in E4. replace (U ∖ {[0]}) with (∅ : gset page_id_t) in E4 by (clear -HU; set_solver).
  unfold BPlusTreeEngine.load_root. simpl. mrun E1. mrun E2. mrun E3. by mrun E4.
Qed.

Lemma load_old cap H nx d :
  1 ≤ cap → nx ≠ 0 → H !! 0 = Some d →
  BPlusTreeEngine.load_root nx (APool.mk cap H ∅ ∅ nx) = (Val (BPlusTreeEngine.meta_root d), APool.mk cap H ∅ ∅ nx).
Proof.
  intros Hcap Hnx Hd.
  pose proof (room_nil cap 1 ltac:(lia)) as Hroom.
  pose proof (bpm_step _ _ _ _ _ _ _ _ _ _ _ _ _ _ (fetch_true cap 3 3 H ∅ ∅ nx 0 0 (mk_is_Some _ _ Hd) (or_intror Hroom))) as E1.
  pose proof (bpm_step _ _ _ _ _ _ _ _ _ _ _ _ _ _ (read_ok cap 3 3 H _ ∅ nx 0 0 d Hd (in_pins ∅ 0))) as E2.
  destruct (unpin_step _ _ _ _ _ _ _ _ _ _ _ _ _ _ (unpin_pinned cap 3 3 H ∅ ∅ nx 0 0 (held_nil _))) as (b & E3).
  unfold BPlusTreeEngine.load_root. rewrite (proj2 (Z.eqb_neq nx 0)) by done.
  unfold BPlusTreeEngine.kMetaPageId. mrun E1. mrun E2. by mrun E3.
Qed.

(** ** Fresh files and files left by an engine *)

Lemma open_fresh n name size faultless :
  faultless = DiskManager.File [] [] → 70 ≤ size → APool.addressable (1 + put_pages * Z.of_nat n) = true →
  ∃ e f', BPlusTreeEngine.Open name size faultless = (Val e, f') ∧ stores n e [].
Proof.
  intros -> Hs Hadr. destruct (load_fresh size ltac:(lia)) as (d & E & Hlen & Hroot).
  destruct (Open_rel name size (DiskManager.File [] []) INVALID_PAGE_ID (APool.mk size {[0 := d]} ∅ ∅ 1)) as (e & f' & Eo & Hr);
    [done|lia|done|exact E|].
  exists e, f'. split; [done|]. exists size, (st size leaf_max internal_max {[0 := d]} ∅ ∅ 1 INVALID_PAGE_ID).
  split_and!; [done|done|]. exists {[0 := d]}, 1, INVALID_PAGE_ID, []. split_and!; [done| |by exists d; auto].
  split; [by right|set_solver|done|done|set_solver].
Qed.

Lemma addressable_max nx : APool.addressable nx = true → nx * PAGE_SIZE ≤ int64_max.
Proof. intros [_ Hb]%andb_true_iff. apply Z.leb_le in Hb. unfold PAGE_SIZE in *. lia. Qed.

(** The file [f] holds the entries [es], on pages that [n] more insertions can
    add to; page 0 satisfies [Q]. *)
Definition saved (Q : bytes → Prop) (n : nat) (f : DiskManager.file) (es : list (Z * string)) : Prop :=
  DiskManager.f_faults f = [] ∧
  ∃ H nx r ps, tree_ok n H nx r es ps ∧ meta Q H r ∧ blen (DiskManager.f_data f) ≤ nx * PAGE_SIZE ∧
    ∀ p d, H !! p = Some d → DiskManager.page_of (DiskManager.f_data f) p = d.

Lemma flush_saved Q cap n (b : BPlusTreeEngine.pool) H nx r es ps :
  pool_rel [] b (APool.mk cap H ∅ ∅ nx) → tree_ok n H nx r es ps → meta Q H r →
  (∀ p d, H !! p = Some d → disk_page b p = d) → saved Q n (BPlusTreeEngine.file_of b) es.
Proof.
  intros Hb Hok Hm Hdisk. destruct (pr_sound _ _ _ Hb) as [Hfaults Hend]. pose proof (pr_next _ _ _ Hb) as [Hnx _]. simpl in Hnx.
  rewrite <-Hnx in Hend. split; [done|]. by exists H, nx, r, ps.
Qed.

(** A pool over such a file finds the tree in it. *)
Lemma saved_boot Q n f es name size :
  saved Q n f es →
  let a := booted size name f in
  ∃ r ps, tree_ok n (APool.pages a) (APool.next a) r es ps ∧ meta Q (APool.pages a) r ∧ APool.next a ≠ 0 ∧
    APool.next a * PAGE_SIZE ≤ int64_max.
Proof.
  intros (Hf & H & nx & r & ps & Hok & (d0 & Hd0 & Hlen0 & Hroot & HQ) & Hend & Hdisk) a. set (len := blen (DiskManager.f_data f)) in *.
  pose proof (pages_in_le _ _ Hend) as Hle. pose proof (addressable_max _ (ok_space _ _ _ _ _ _ Hok)) as Hmax.
  pose proof (ok_next _ _ _ _ _ _ Hok) as Hnx1.
  assert (Hin : ∀ p d, H !! p = Some d → 0 ≤ p → d ≠ zeros PAGE_SIZE → APool.pages a !! p = Some d ∧ p < pages_in len).
  { intros p d Hd Hp Hnz. pose proof (Hdisk p d Hd) as E.
    assert (p < pages_in len).
    { destruct (Z.lt_ge_cases p (pages_in len)) as [|Hge]; [done|]. destruct Hnz. rewrite <-E. by apply page_of_past. }
    split; [|done]. apply boot_pages. split; [simpl; fold len; lia|]. by rewrite <-E. }
  destruct (Hin 0 d0 Hd0 ltac:(lia)) as [H0 Hpos].
  { intros ->. rewrite zeros_meta in Hroot. subst r. destruct (ok_tree _ _ _ _ _ _ Hok) as [[_ Hw]|[? _]]; [|done].
    apply whole_root in Hw as [_ Hin0]. pose proof (ok_ids _ _ _ _ _ _ Hok 0 Hin0). lia. }
  assert (Hps : ∀ p, p ∈ ps → APool.pages a !! p = H !! p ∧ p < pages_in len).
  { intros p Hp. pose proof (ok_ids _ _ _ _ _ _ Hok p Hp).
    destruct (ok_tree _ _ _ _ _ _ Hok) as [[_ (h & t & _ & Hrep & _ & _ & _ & _ & Hpp)]|(_ & _ & ->)]; [|by apply elem_of_nil in Hp].
    rewrite <-Hpp in Hp. destruct (rep_pids _ _ _ _ _ _ _ _ Hrep Hp) as (d & Hd & Hnz). rewrite Hd. apply Hin; [done|lia|done]. }
  exists r, ps. change (APool.next a) with (pages_in len). split_and!; [|by exists d0|lia|].
  - eapply (ok_frame n H); [by intros p [? _]%Hps|]. destruct Hok as [Ht Hi _ Hsp Hk]. split; [done| |lia| |done].
    + intros p Hp. specialize (Hi p Hp). destruct (Hps p Hp). lia.
    + eapply addressable_le; [exact Hsp|]. unfold put_pages. lia.
  - unfold put_pages, PAGE_SIZE in *. lia.
Qed.

Lemma reopen n e es name size :
  stores n e es → 70 ≤ size →
  ∃ f e' f', BPlusTreeEngine.Close e = (Val tt, f) ∧
    BPlusTreeEngine.Open name size f = (Val e', f') ∧ stores n e' es.
Proof.
  intros (cap & a & Hcap & Hr & H & nx & r & ps & -> & Hok & Hm) Hs.
  destruct (FlushAllPages_rel _ _ (tl_pool _ _ _ Hr)) as (b & Eb & Hb & Hdisk). simpl in Hdisk.
  set (f := BPlusTreeEngine.file_of b).
  assert (Hsv : saved (λ _, True) n f es) by (eapply flush_saved; [exact Hb|done|done|intros p d Hd; apply Hdisk; [done|set_solver]]).
  destruct (saved_boot _ n f es name size Hsv) as (r' & ps' & Hok' & Hm' & Hne & Hmax). destruct Hm' as (d0 & Hd0 & Hlen0 & Hroot & _).
  destruct (Open_rel name size f r' (booted size name f)) as (e' & f' & Eo & Hr'); [apply Hsv|lia|done| |].
  { rewrite <-Hroot. by apply (load_old size _ _ d0); [lia|..]. }
  exists f, e', f'. split; [|split; [done|]].
  { unfold BPlusTreeEngine.Close, BPlusTreeEngine.destroy_pool. by rewrite Eb. }
  exists size, (st size leaf_max internal_max (APool.pages (booted size name f)) ∅ ∅ (APool.next (booted size name f)) r'). split_and!; [done|done|].
  exists (APool.pages (booted size name f)), (APool.next (booted size name f)), r', ps'. split_and!; [done|done|by exists d0; auto].
Qed.
