(* ===== verification/EngineProps.v ===== *)
(** * BPlusTreeEngine: properties

    From a database file to the answers of the engine, over the real buffer
    pool with the LRU-K policy. *)

From stdpp Require Import gmultiset.
From S2P Require Import Prelude Entries Bytes Disk Replacer ReplacerTheory Buffer BufferTheory TreePages TreePagesTheory LeafTheory.
From S2P Require Import BTree Engine EngineRuns BTreeEngine BTreeSim BTreeRep BTreeSteps BTreeLookup BTreeInsert BTreeEngineTheory BTreeReopen.

#[local] Open Scope Z_scope.

Import BPlusTree.

Abbreviation empty_file := (DiskManager.File [] []) (only parsing).

(** ** The engine is an ordered map *)

(** C5: an engine opened on an empty file answers every sequence of Get, Put,
    Delete and Scan calls as an ordered map that starts empty; no call fails,
    runs out of fuel or meets undefined behaviour. *)
Theorem btree_engine_refines_map name size fuel ops :
  70 ≤ size → Forall valid_op ops → (puts ops ≤ fuel)%nat →
  APool.addressable (1 + put_pages * Z.of_nat (puts ops)) = true →
  ∃ e f e' l m, BPlusTreeEngine.Open name size empty_file = (Val e, f) ∧
    run fuel ops e = (Val l, e') ∧ all_answers ∅ ops l m.
Proof.
  intros Hs Hv Hf Ha. destruct (open_fresh (puts ops) name size _ eq_refl Hs Ha) as (e & f & Eo & Hst).
  destruct (run_spec fuel 0 e [] ops) as (e' & l & es & Er & Hall & _); [by rewrite Nat.add_0_r|done|done|].
  by exists e, f, e', l, (to_map es).
Qed.

Lemma btree_engine_refines_map_witness :
  ∃ e f e' l m, BPlusTreeEngine.Open "db" 256 empty_file = (Val e, f) ∧
    run 9 [OPut 7 "a"; OPut 3 "b"; OGet 7; ODelete 7; OScan 0] e = (Val l, e') ∧
    all_answers ∅ [OPut 7 "a"; OPut 3 "b"; OGet 7; ODelete 7; OScan 0] l m.
Proof.
  apply (btree_engine_refines_map "db" 256 9); [lia| |vm_compute; lia|by vm_compute].
  repeat constructor; by vm_compute.
Defined.

(** C2: closing the engine and opening it again over the file it left loses
    nothing: the calls after the reopening are answered by the map the calls
    before it built. *)
Theorem btree_engine_durable name size size' fuel ops ops' :
  70 ≤ size → 70 ≤ size' → Forall valid_op ops → Forall valid_op ops' →
  (puts ops + puts ops' ≤ fuel)%nat →
  APool.addressable (1 + put_pages * Z.of_nat (puts ops + puts ops')) = true →
  ∃ e f1 e1 l f2 e2 f3 e3 l' m, BPlusTreeEngine.Open name size empty_file = (Val e, f1) ∧
    run fuel ops e = (Val l, e1) ∧ BPlusTreeEngine.Close e1 = (Val tt, f2) ∧
    BPlusTreeEngine.Open name size' f2 = (Val e2, f3) ∧ run fuel ops' e2 = (Val l', e3) ∧
    all_answers ∅ (ops ++ ops') (l ++ l') m.
Proof.
  intros Hs Hs' Hv Hv' Hf Ha. destruct (open_fresh (puts ops + puts ops') name size _ eq_refl Hs Ha) as (e & f1 & Eo & Hst).
  destruct (run_spec fuel (puts ops') e [] ops Hst Hv) as (e1 & l & es & Er & Hall & Hst1 & Hlen); [simpl; lia|].
  destruct (reopen _ _ _ name size' Hst1 Hs') as (f2 & e2 & f3 & Ec & Eo' & Hst2).
  destruct (run_spec fuel 0 e2 es ops') as (e3 & l' & es' & Er' & Hall' & _); [by rewrite Nat.add_0_r|done|simpl in Hlen; lia|].
  exists e, f1, e1, l, f2, e2, f3, e3, l', (to_map es'). split_and!; try done. by eapply all_answers_app.
Qed.

Lemma btree_engine_durable_witness :
  ∃ e f1 e1 l f2 e2 f3 e3 l' m, BPlusTreeEngine.Open "db" 256 empty_file = (Val e, f1) ∧
    run 9 [OPut 7 "a"; OPut 3 "b"; ODelete 7] e = (Val l, e1) ∧ BPlusTreeEngine.Close e1 = (Val tt, f2) ∧
    BPlusTreeEngine.Open "db" 70 f2 = (Val e2, f3) ∧ run 9 [OGet 3; OScan 0] e2 = (Val l', e3) ∧
    all_answers ∅ ([OPut 7 "a"; OPut 3 "b"; ODelete 7] ++ [OGet 3; OScan 0]) (l ++ l') m.
Proof.
  apply (btree_engine_durable "db" 256 70 9); [lia|lia| | |vm_compute; lia|by vm_compute]; repeat constructor; by vm_compute.
Defined.

(** ** Costs and failures *)

(** An engine that holds one entry, as the witnesses use it. *)
Lemma one_entry n :
  APool.addressable (1 + put_pages * Z.of_nat (S n)) = true →
  ∃ e f e', BPlusTreeEngine.Open "db" 256 empty_file = (Val e, f) ∧ Put 1 "a" e = (Val tt, e') ∧
    stores n e' [(1, "a")].
Proof.
  intros Ha. destruct (open_fresh (S n) "db" 256 _ eq_refl ltac:(lia) Ha) as (e & f & Eo & Hst).
  destruct (Put_spec n e [] 1 "a" Hst) as (e' & Ep & Hst'); [done|by vm_compute|]. by exists e, f, e'.
Qed.

(** C21: a lookup goes down at most [log2] of the number of entries: with that
    much fuel the descent reaches the leaf and answers. *)
Theorem btree_lookup_logarithmic n (e : t (BufferPoolManager.t LRUKReplacer.t)) es key fuel :
  stores n e es → (Nat.log2 (length es) ≤ fuel)%nat →
  ∃ e', BPlusTree.GetValue fuel key e = (Val (look key es), e') ∧ stores n e' es.
Proof.
  intros (cap & a & Hcap & Hr & H & nx & r & ps & -> & Hok & Hm) Hfuel. pose proof leaf_max_ok. pose proof internal_max_ok.
  assert (E : BPlusTree.GetValue fuel key (st cap leaf_max internal_max H ∅ ∅ nx r) =
    (Val (look key es), st cap leaf_max internal_max H ∅ ∅ nx r)).
  { destruct (ok_tree _ _ _ _ _ _ Hok) as [[Hr0 Hw]|(-> & -> & _)]; [|done].
    apply (GetValue_ok cap leaf_max internal_max ltac:(lia) ltac:(lia) fuel key H ∅ ∅ nx r es ps Hw Hr0 Hfuel (held_nil _)).
    apply room_nil. lia. }
  destruct (sim_Val _ _ _ _ _ _ _ (sim_GetValue (pool_rel []) fuel key) Hr E) as (e' & E' & Hr').
  exists e'. split; [done|]. exists cap, (st cap leaf_max internal_max H ∅ ∅ nx r). split_and!; [done|done|]. by exists H, nx, r, ps.
Qed.

Lemma btree_lookup_logarithmic_witness :
  ∃ e e' : t (BufferPoolManager.t LRUKReplacer.t), stores 5 e [(1, "a")] ∧
    BPlusTree.GetValue 0 1 e = (Val (Some "a"), e') ∧ stores 5 e' [(1, "a")].
Proof.
  destruct (one_entry 5 ltac:(by vm_compute)) as (e0 & f & e & _ & _ & Hst).
  destruct (btree_lookup_logarithmic 5 e [(1, "a")] 1 0 Hst ltac:(by vm_compute; lia)) as (e' & E & Hst').
  by exists e, e'.
Defined.

(** C28: a value over [MAX_VALUE_SIZE] is refused with [std::invalid_argument]
    and a non-empty engine keeps its contents and its room. *)
Theorem btree_put_too_large n (e : t (BufferPoolManager.t LRUKReplacer.t)) es key v :
  stores n e es → es ≠ [] → MAX_VALUE_SIZE < ssize v →
  ∃ e', Put key v e = (Exn (InvalidArgument "LeafPage::Insert: value exceeds MAX_VALUE_SIZE"), e') ∧ stores n e' es.
Proof.
  intros (cap & a & Hcap & Hr & H & nx & r & ps & -> & Hok & Hm) Hne Hv.
  pose proof (ok_height _ _ _ _ _ _ Hok). destruct (ok_tree _ _ _ _ _ _ Hok) as [[Hr0 Hw]|(_ & ? & _)]; [|done].
  pose proof (Insert_too_large cap leaf_max internal_max leaf_max_ok internal_max_ok tree_fuel key v H ∅ ∅ nx r es ps Hw Hr0
    ltac:(unfold tree_fuel; lia) (held_nil _) (room_nil cap 2 ltac:(lia)) Hv) as E.
  assert (Ep : Put key v (st cap leaf_max internal_max H ∅ ∅ nx r) =
    (Exn (InvalidArgument "LeafPage::Insert: value exceeds MAX_VALUE_SIZE"), st cap leaf_max internal_max H ∅ ∅ nx r)).
  { cbn [Put btree_engine]. unfold BPlusTreeEngine.Put, mbind, M_bind. by rewrite E. }
  pose proof (sim_eng_Put (pool_rel []) key v _ _ Hr) as Hsim. rewrite Ep in Hsim. destruct Hsim as (e' & Ep' & Hr').
  exists e'. split; [done|]. exists cap, (st cap leaf_max internal_max H ∅ ∅ nx r). split_and!; [done|done|]. by exists H, nx, r, ps.
Qed.

Definition long_value : string := String.concat EmptyString (replicate 65 "x").

Lemma btree_put_too_large_witness :
  ∃ e e' : t (BufferPoolManager.t LRUKReplacer.t),
    Put 2 long_value e = (Exn (InvalidArgument "LeafPage::Insert: value exceeds MAX_VALUE_SIZE"), e') ∧ stores 5 e' [(1, "a")].
Proof.
  destruct (one_entry 5 ltac:(by vm_compute)) as (e0 & f & e & _ & _ & Hst).
  destruct (btree_put_too_large 5 e [(1, "a")] 2 long_value Hst ltac:(done) ltac:(by vm_compute)) as (e' & E & Hst').
  by exists e, e'.
Defined.

(** ** A page is lost when the first value is too large *)

Section leak.
Context (cap : Z).
Abbreviation st := (st cap leaf_max internal_max) (only parsing).

(** [size] pages are pinned, those with ids below [nx]. *)
Definition pinned (P : gmultiset page_id_t) (nx : page_id_t) (size : nat) : Prop :=
  List.length (elements (dom P)) = size ∧ ∀ p, p ∈ P → p < nx.

Lemma pinned_size P nx k : pinned P nx k → size (dom P) = k.
Proof. by intros [<- _]. Qed.

Lemma pinned_add P nx k : pinned P nx k → pinned (P ⊎ {[+ nx +]}) (nx + 1) (S k).
Proof.
  intros [Hk Hlt]. assert (Hni : nx ∉ dom P) by (rewrite gmultiset_elem_of_dom; intros Hin; specialize (Hlt _ Hin); lia).
  assert (Hd : dom (P ⊎ {[+ nx +]}) = {[nx]} ∪ dom P).
  { apply set_eq. intros p. rewrite elem_of_union, elem_of_singleton, !gmultiset_elem_of_dom.
    rewrite gmultiset_elem_of_disj_union, gmultiset_elem_of_singleton. tauto. }
  split.
  - change (size (dom (P ⊎ {[+ nx +]})) = S k). rewrite Hd, size_union, size_singleton by set_solver.
    change (size (dom P) = k) in Hk. lia.
  - intros p. rewrite gmultiset_elem_of_disj_union, gmultiset_elem_of_singleton. intros [Hp| ->]; [specialize (Hlt p Hp)|]; lia.
Qed.

Lemma Put_leaks key v H P U nx :
  APool.addressable nx = true → room cap P 1 → MAX_VALUE_SIZE < ssize v →
  ∃ H' U', Put key v (st H P U nx INVALID_PAGE_ID) =
    (Exn (InvalidArgument "LeafPage::Insert: value exceeds MAX_VALUE_SIZE"), st H' (P ⊎ {[+ nx +]}) U' (nx + 1) INVALID_PAGE_ID).
Proof.
  intros Ha Hroom Hv.
  assert (HInit := leaf_Init (zeros PAGE_SIZE) INVALID_PAGE_ID leaf_max (blen_zeros PAGE_SIZE ltac:(done)) ltac:(done) ltac:(by vm_compute)).
  destruct (update_at cap leaf_max internal_max (<[nx := zeros PAGE_SIZE]> H) (P ⊎ {[+ nx +]}) ({[nx]} ∪ U) (nx + 1) INVALID_PAGE_ID nx _ _
    (λ d, Val (LeafPage.Init INVALID_PAGE_ID leaf_max d)) (lookup_insert_eq _ _ _) (in_pins _ _) eq_refl
    (leaf_blen _ _ _ _ _ HInit)) as (U1 & E1 & _). rewrite insert_insert_eq in E1.
  exists (<[nx := LeafPage.Init INVALID_PAGE_ID leaf_max (zeros PAGE_SIZE)]> H), U1.
  cbn [Put btree_engine]. unfold BPlusTreeEngine.Put, Insert. mstep. rewrite st_empty, Z.eqb_refl.
  mrun (new_ok cap leaf_max internal_max H P U nx INVALID_PAGE_ID Hroom Ha). mrun E1. unfold on_page.
  mrun (read_ok cap leaf_max internal_max _ (P ⊎ {[+ nx +]}) U1 (nx + 1) INVALID_PAGE_ID nx _
    (lookup_insert_eq H nx (LeafPage.Init INVALID_PAGE_ID leaf_max (zeros PAGE_SIZE))) (in_pins P nx)).
  unfold mbind, M_bind, lift. by rewrite leaf_Insert_large.
Qed.

Lemma Put_exhausted key v H P U nx :
  pinned P nx (Z.to_nat cap) → 0 ≤ cap →
  Put key v (st H P U nx INVALID_PAGE_ID) =
    (Exn (RuntimeError "BPlusTree::Insert: buffer pool exhausted creating root"), st H P U nx INVALID_PAGE_ID).
Proof.
  intros Hp Hcap. cbn [Put btree_engine]. unfold BPlusTreeEngine.Put, Insert. mstep. rewrite st_empty, Z.eqb_refl.
  assert (bpm pool_new (st H P U nx INVALID_PAGE_ID) = (Val None, st H P U nx INVALID_PAGE_ID)) as E; [|by mrun E].
  unfold bpm. cbn [pool_new apool_pool]. unfold APool.new, BTreeSteps.st. simpl.
  assert (APool.has_room (APool.mk cap H P U nx) = false) as ->; [|done].
  apply Z.ltb_ge. simpl. rewrite (pinned_size _ _ _ Hp). lia.
Qed.

Lemma Put_leaks_iter key v H nx k :
  MAX_VALUE_SIZE < ssize v → 0 ≤ nx → APool.addressable (nx + cap) = true → Z.of_nat k ≤ cap →
  ∃ H' P U, Nat.iter k (λ e, (Put key v e).2) (st H ∅ ∅ nx INVALID_PAGE_ID) = st H' P U (nx + Z.of_nat k) INVALID_PAGE_ID ∧
    pinned P (nx + Z.of_nat k) k.
Proof.
  intros Hv Hnx Ha. induction k as [|k IH]; intros Hk.
  { exists H, ∅, ∅. rewrite Z.add_0_r. split; [done|]. split; [done|]. intros p. multiset_solver. }
  destruct (IH ltac:(lia)) as (H1 & P & U & E & Hp). rewrite Nat.iter_succ, E.
  destruct (Put_leaks key v H1 P U (nx + Z.of_nat k)) as (H2 & U2 & E2); [|unfold room; rewrite (pinned_size _ _ _ Hp); lia|done|].
  { eapply addressable_le; [exact Ha|lia]. }
  rewrite E2. simpl. exists H2, (P ⊎ {[+ nx + Z.of_nat k +]}), U2. rewrite Nat2Z.inj_succ, <-Z.add_1_r, Z.add_assoc.
  split; [done|by apply pinned_add].
Qed.
End leak.

(** A call refused on the specification of the pool is refused over the pool. *)
Lemma Put_Exn k w (x : t (BufferPoolManager.t LRUKReplacer.t)) y e y' :
  tree_rel (pool_rel []) x y → Put k w y = (Exn e, y') → ∃ x', Put k w x = (Exn e, x') ∧ tree_rel (pool_rel []) x' y'.
Proof. intros Hxy E. pose proof (sim_eng_Put (pool_rel []) k w x y Hxy) as Hs. by rewrite E in Hs. Qed.

(** C39: on an empty engine every [Put] refused for the size of its value leaves
    a page pinned: after as many such calls as the pool has frames, every later
    [Put] fails. *)
Theorem btree_refused_put_pins_a_page name size key v :
  1 ≤ size → APool.addressable (1 + size) = true → MAX_VALUE_SIZE < ssize v →
  ∃ e f, BPlusTreeEngine.Open name size empty_file = (Val e, f) ∧
    (Put key v e).1 = Exn (InvalidArgument "LeafPage::Insert: value exceeds MAX_VALUE_SIZE") ∧
    ∀ k w, (Put k w (Nat.iter (Z.to_nat size) (λ e, (Put key v e).2) e)).1 =
      Exn (RuntimeError "BPlusTree::Insert: buffer pool exhausted creating root").
Proof.
  intros Hs Ha Hv. destruct (load_fresh size Hs) as (d & E & _).
  destruct (Open_rel name size empty_file INVALID_PAGE_ID (APool.mk size {[0 := d]} ∅ ∅ 1)) as (e & f & Eo & Hr); [done|lia|done|exact E|].
  assert (Hstate : ∃ e0, e0 = st size leaf_max internal_max {[0 := d]} ∅ ∅ 1 INVALID_PAGE_ID ∧ tree_rel (pool_rel []) e e0) by eauto.
  destruct Hstate as (e0 & He0 & Hr0).
  assert (Hit : ∀ k, Z.of_nat k ≤ size → tree_rel (pool_rel []) (Nat.iter k (λ e, (Put key v e).2) e) (Nat.iter k (λ e, (Put key v e).2) e0)).
  { induction k as [|k IH]; intros Hk; [done|]. rewrite !Nat.iter_succ. specialize (IH ltac:(lia)).
    destruct (Put_leaks_iter size key v {[0 := d]} 1 k Hv ltac:(lia) Ha ltac:(lia)) as (H1 & P & U & E1 & Hp). rewrite <-He0 in E1.
    rewrite E1 in IH |- *. destruct (Put_leaks size key v H1 P U (1 + Z.of_nat k)) as (H2 & U2 & E2);
      [eapply addressable_le; [exact Ha|lia]|unfold room; rewrite (pinned_size _ _ _ Hp); lia|done|].
    rewrite E2. by destruct (Put_Exn _ _ _ _ _ _ IH E2) as (e' & -> & ?). }
  exists e, f. split; [done|]. split.
  - destruct (Put_leaks size key v {[0 := d]} ∅ ∅ 1) as (H2 & U2 & E2);
      [eapply addressable_le; [exact Ha|lia]|by apply room_nil|done|].
    rewrite <-He0 in E2. by destruct (Put_Exn _ _ _ _ _ _ Hr0 E2) as (e' & -> & _).
  - intros k w. specialize (Hit (Z.to_nat size) ltac:(lia)).
    destruct (Put_leaks_iter size key v {[0 := d]} 1 (Z.to_nat size) Hv ltac:(lia) Ha ltac:(lia)) as (H1 & P & U & E1 & Hp).
    rewrite <-He0 in E1. rewrite E1 in Hit.
    by destruct (Put_Exn _ _ _ _ _ _ Hit (Put_exhausted size k w H1 P U _ Hp ltac:(lia))) as (e' & -> & _).
Qed.

Lemma btree_refused_put_pins_a_page_witness :
  ∃ e f, BPlusTreeEngine.Open "db" 256 empty_file = (Val e, f) ∧
    (Put 1 long_value e).1 = Exn (InvalidArgument "LeafPage::Insert: value exceeds MAX_VALUE_SIZE") ∧
    ∀ k w, (Put k w (Nat.iter (Z.to_nat 256) (λ e, (Put 1 long_value e).2) e)).1 =
      Exn (RuntimeError "BPlusTree::Insert: buffer pool exhausted creating root").
Proof. apply (btree_refused_put_pins_a_page "db" 256 1 long_value); [lia|by vm_compute|by vm_compute]. Defined.
