(* ===== verification/Mvcc.v ===== *)
(** * Multi-version concurrency control: src/mvcc/mvcc_store.{h,cpp} *)

From S2P Require Import Prelude.

Module MVCCStore.

Inductive IsolationLevel :=
  | READ_UNCOMMITTED
  | READ_COMMITTED
  | SNAPSHOT
  | SERIALIZABLE_SNAPSHOT.

#[global] Instance IsolationLevel_eq_dec : EqDecision IsolationLevel.
Proof. solve_decision. Defined.

Record Version := mkVersion {
  txn_id : Z;
  seq : Z;
  commit_ts : Z;
  committed : bool;
  deleted : bool;
  value : string
}.

(** A node of a [std::list<Version>]: the iterator a [WriteRecord] keeps is the
    node's address, which no other insertion or erasure invalidates. *)
Abbreviation iterator := Z (only parsing).
Abbreviation VersionChain := (list (iterator * Version)) (only parsing).

Record WriteRecord := mkWriteRecord { wr_key : KeyType; wr_it : iterator }.

#[global] Instance WriteRecord_eq_dec : EqDecision WriteRecord.
Proof. solve_decision. Defined.

Record Transaction := mkTransaction {
  isolation : IsolationLevel;
  start_ts : Z;
  write_records : list WriteRecord;
  write_set : gset KeyType;
  read_set : gset KeyType
}.

Definition kTxnShardCount : Z := 16.

Record t := mkStore {
  global_ts_ : Z;
  next_txn_id_ : Z;
  table_ : gmap KeyType VersionChain;
  txn_shards_ : list (gmap Z Transaction);
  next_node : iterator                    (* allocator of list nodes *)
}.

Definition init : t :=
  mkStore 0 0 ∅ (replicate (Z.to_nat kTxnShardCount) ∅) 0.

Definition set_global_ts (n : Z) (s : t) : t :=
  mkStore n (next_txn_id_ s) (table_ s) (txn_shards_ s) (next_node s).
Definition set_table (m : gmap KeyType VersionChain) (s : t) : t :=
  mkStore (global_ts_ s) (next_txn_id_ s) m (txn_shards_ s) (next_node s).
Definition set_shards (l : list (gmap Z Transaction)) (s : t) : t :=
  mkStore (global_ts_ s) (next_txn_id_ s) (table_ s) l (next_node s).

(** [std::atomic::fetch_add(1)] on [global_ts_]. *)
Definition fetch_ts : M t Z := λ s, (Val (global_ts_ s), set_global_ts (global_ts_ s + 1) s).

Definition ShardFor (txn : Z) : nat := Z.to_nat (u64 txn `mod` kTxnShardCount).

Definition shard_of (txn : Z) (s : t) : gmap Z Transaction :=
  default ∅ (txn_shards_ s !! ShardFor txn).

(** [shard.txns.emplace / erase / find] *)
Definition put_txn (txn : Z) (x : Transaction) (s : t) : t :=
  set_shards (<[ShardFor txn := <[txn := x]> (shard_of txn s)]> (txn_shards_ s)) s.
Definition erase_txn (txn : Z) (s : t) : t :=
  set_shards (<[ShardFor txn := delete txn (shard_of txn s)]> (txn_shards_ s)) s.
Definition find_txn (txn : Z) (s : t) : option Transaction := shard_of txn s !! txn.

(** The two atomic sections of [Begin]: drawing the identifiers, and, under the
    shard's mutex, publishing the transaction. *)
Definition Begin_draw : M t (Z * Z) := λ s,
  (Val (next_txn_id_ s, global_ts_ s),
   mkStore (global_ts_ s + 1) (next_txn_id_ s + 1) (table_ s) (txn_shards_ s) (next_node s)).

Definition Begin_publish (level : IsolationLevel) (txn ts : Z) : M t () :=
  modify (λ s,
    if decide (is_Some (find_txn txn s)) then s    (* emplace keeps an existing entry *)
    else put_txn txn (mkTransaction level ts [] ∅ ∅) s).

Definition Begin (level : IsolationLevel) : M t Z :=
  ids ← Begin_draw;
  _ ← Begin_publish level ids.1 ids.2;
  mret ids.1.

Definition GetTransaction (txn : Z) : M t Transaction := λ s,
  match find_txn txn s with
  | Some x => (Val x, s)
  | None => (Exn (OutOfRange "unordered_map::at"), s)
  end.

Definition GetOrCreateChain (key : KeyType) (create : bool) : M t (option VersionChain) := λ s,
  match table_ s !! key with
  | Some c => (Val (Some c), s)
  | None => if create then (Val (Some []), set_table (<[key := []]> (table_ s)) s)
            else (Val None, s)
  end.

Definition IsVisible (v : Version) (level : IsolationLevel) (ts : Z) : bool :=
  match level with
  | READ_COMMITTED => true
  | SNAPSHOT | SERIALIZABLE_SNAPSHOT => commit_ts v <=? ts
  | READ_UNCOMMITTED => true
  end.

Definition own_pending (txn : Z) (n : iterator * Version) : bool :=
  (txn_id n.2 =? txn) && negb (committed n.2).

Definition live_value (best : option (iterator * Version)) : option string :=
  match best with
  | None => None
  | Some n => if deleted n.2 then None else Some (value n.2)
  end.

Definition by_seq (v b : iterator * Version) : bool := seq b.2 <? seq v.2.
Definition by_commit_ts (v b : iterator * Version) : bool := commit_ts b.2 <? commit_ts v.2.

(** The scan of a chain by [Read], once the chain's mutex is held. *)
Definition read_chain (txn : Z) (x : Transaction) (c : VersionChain) : option string :=
  match find_first (own_pending txn) c with
  | Some n => if deleted n.2 then None else Some (value n.2)
  | None =>
    if decide (isolation x = READ_UNCOMMITTED) then live_value (fold_best by_seq c)
    else
      live_value (fold_left (λ best n,
        if negb (committed n.2) then best
        else if negb (IsVisible n.2 (isolation x) (start_ts x)) then best
        else best_step by_commit_ts best n) c None)
  end.

Definition Read (txn : Z) (key : KeyType) : M t (option string) :=
  x ← GetTransaction txn;
  _ ← modify (put_txn txn (mkTransaction (isolation x) (start_ts x) (write_records x)
                             (write_set x) ({[key]} ∪ read_set x)));
  chain ← GetOrCreateChain key false;
  match chain with
  | None => mret None
  | Some c => mret (read_chain txn x c)
  end.

(** In-place update of the transaction's pending version, if it has one. *)
Definition update_node (it : iterator) (f : Version → Version) (c : VersionChain) : VersionChain :=
  (λ n, if decide (n.1 = it) then (n.1, f n.2) else n) <$> c.

Definition WriteInternal (txn : Z) (key : KeyType) (del : bool) (val : string) : M t () :=
  chain ← GetOrCreateChain key true;
  let c := default [] chain in
  match find_first (own_pending txn) c with
  | Some n =>
    ts ← fetch_ts;
    modify (λ s, set_table (<[key := update_node n.1 (λ v,
      mkVersion (txn_id v) ts (commit_ts v) (committed v) del
                (if del then EmptyString else val)) c]> (table_ s)) s)
  | None =>
    ts ← fetch_ts;
    x ← GetTransaction txn;
    modify (λ s,
      let it := next_node s in
      let v := mkVersion txn ts (-1) false del (if del then EmptyString else val) in
      put_txn txn (mkTransaction (isolation x) (start_ts x)
                     (write_records x ++ [mkWriteRecord key it])
                     ({[key]} ∪ write_set x) (read_set x))
        (mkStore (global_ts_ s) (next_txn_id_ s) (<[key := c ++ [(it, v)]]> (table_ s))
                 (txn_shards_ s) (it + 1)))
  end.

Definition Write (txn : Z) (key : KeyType) (val : string) : M t () :=
  _ ← GetTransaction txn;
  WriteInternal txn key false val.

Definition Delete (txn : Z) (key : KeyType) : M t bool :=
  r ← Read txn key;
  _ ← GetTransaction txn;
  _ ← WriteInternal txn key true EmptyString;
  mret (bool_decide (is_Some r)).

(** [chain->versions.erase(it)] *)
Definition erase_node (it : iterator) (c : VersionChain) : VersionChain :=
  filter (λ n, n.1 ≠ it) c.

Definition AbortInternal (x : Transaction) : M t () :=
  modify (λ s, set_table (fold_left (λ m wr, alter (erase_node (wr_it wr)) (wr_key wr) m)
                            (write_records x) (table_ s)) s).

Definition Abort (txn : Z) : M t () := λ s,
  match find_txn txn s with
  | None => (Val tt, s)
  | Some x => AbortInternal x (erase_txn txn s)
  end.

(** [std::sort] then [std::unique] *)
Fixpoint unique (l : list Z) : list Z :=
  match l with
  | x :: ((y :: _) as l') => if x =? y then unique l' else x :: unique l'
  | _ => l
  end.

Definition check_keys (x : Transaction) : list KeyType :=
  unique (merge_sort Z.le (elements (write_set x) ++
    (if decide (isolation x = SERIALIZABLE_SNAPSHOT) then elements (read_set x) else []))).

Definition conflicting (txn : Z) (x : Transaction) (n : iterator * Version) : bool :=
  committed n.2 && negb (txn_id n.2 =? txn) && (start_ts x <? commit_ts n.2).

Definition commit_version (ts : Z) (v : Version) : Version :=
  mkVersion (txn_id v) (seq v) ts true (deleted v) (value v).

(** The sections of [Commit]: looking the chains up, one by one, under the
    table's mutex; then, with the mutexes of the chains found held, the check
    and the stamping; then leaving the transaction table.  The chain pointers
    are the keys they were found under: a chain is never removed. *)
Definition Commit_find (x : Transaction) : M t (list KeyType) :=
  s ← get;
  mret (filter (λ k, is_Some (table_ s !! k)) (check_keys x)).

Definition conflict_in (txn : Z) (x : Transaction) (chains : list KeyType) (s : t) : bool :=
  existsb (λ k, existsb (conflicting txn x) (default [] (table_ s !! k))) chains.

Definition Commit_stamp (txn : Z) (x : Transaction) (chains : list KeyType) : M t bool :=
  s ← get;
  if conflict_in txn x chains s then mret false
  else
    ts ← fetch_ts;
    _ ← modify (λ s, set_table
      (fold_left (λ m wr, alter (update_node (wr_it wr) (commit_version ts)) (wr_key wr) m)
         (write_records x) (table_ s)) s);
    mret true.

Definition Commit_leave (txn : Z) (x : Transaction) (ok : bool) : M t bool :=
  _ ← (if ok then mret tt else AbortInternal x);
  _ ← modify (erase_txn txn);
  mret ok.

Definition Commit (txn : Z) : M t bool :=
  x ← GetTransaction txn;
  chains ← Commit_find x;
  ok ← Commit_stamp txn x chains;
  Commit_leave txn x ok.

Definition GetVersionCount (key : KeyType) (s : t) : Z :=
  match table_ s !! key with
  | None => 0
  | Some c => Z.of_nat (length c)
  end.

(** Every active transaction's [start_ts], shard by shard, then sorted. *)
Definition active_starts (s : t) : list Z :=
  merge_sort Z.le (flat_map (λ sh, start_ts ∘ snd <$> map_to_list sh) (txn_shards_ s)).

Definition needed (starts : list Z) (lo hi : Z) : bool :=
  existsb (λ ts, (lo <=? ts) && (ts <? hi)) starts.

(** The addresses the reclamation loop erases, walking the sorted committed
    versions pairwise. *)
Fixpoint reclaim (starts : list Z) (vs : list (iterator * Version)) : list iterator :=
  match vs with
  | a :: ((b :: _) as vs') =>
    (if needed starts (commit_ts a.2) (commit_ts b.2) then [] else [a.1])
      ++ reclaim starts vs'
  | _ => []
  end.

Definition commit_ts_le (a b : iterator * Version) : Prop := commit_ts a.2 ≤ commit_ts b.2.
#[global] Instance commit_ts_le_dec : RelDecision commit_ts_le.
Proof. intros a b. apply Z_le_dec. Defined.

Definition gc_victims (starts : list Z) (c : VersionChain) : list iterator :=
  if (length c <=? 1)%nat then []
  else
    let cs := filter (λ n, committed n.2 = true) c in
    if (length cs <=? 1)%nat then []
    else reclaim starts (merge_sort commit_ts_le cs).

Definition gc_chain (starts : list Z) (c : VersionChain) : VersionChain :=
  fold_left (λ c it, erase_node it c) (gc_victims starts c) c.

(** The two sections of [RunGarbageCollection]: the start timestamps, read
    under the shards' mutexes, and the walk over the chains. *)
Definition GC_collect : M t (list Z) := s ← get; mret (active_starts s).

Definition GC_sweep (starts : list Z) : M t Z := λ s,
  (Val (map_fold (λ _ c n, n + Z.of_nat (length (gc_victims starts c))) 0 (table_ s)),
   set_table (gc_chain starts <$> table_ s) s).

Definition RunGarbageCollection : M t Z := starts ← GC_collect; GC_sweep starts.

End MVCCStore.
