(* ===== verification/MvccTheory.v ===== *)
(** * MVCC: invariant, snapshots, conflicts, garbage collection *)

From S2P Require Import Prelude Mvcc.
Import MVCCStore.

#[local] Arguments Begin : simpl never.
#[local] Arguments Read : simpl never.
#[local] Arguments Write : simpl never.
#[local] Arguments Delete : simpl never.
#[local] Arguments Commit : simpl never.
#[local] Arguments Abort : simpl never.
#[local] Arguments RunGarbageCollection : simpl never.

(** ** Views of the store *)

Definition chain (s : t) (k : KeyType) : VersionChain := default [] (table_ s !! k).

(** The committed versions a snapshot taken at [ts] may use. *)
Definition vis (ts : Z) (c : VersionChain) : VersionChain :=
  filter (λ n, committed n.2 = true ∧ commit_ts n.2 ≤ ts) c.

(** What a reader with snapshot [ts] and no write of its own sees. *)
Definition snap_at (ts : Z) (c : VersionChain) : option string :=
  live_value (fold_best by_commit_ts (vis ts c)).

Definition snapshot (s : t) (ts : Z) (k : KeyType) : option string := snap_at ts (chain s k).

(** The database every transaction committed so far has produced. *)
Definition latest (s : t) (k : KeyType) : option string := snapshot s (global_ts_ s) k.

(** ** The invariant *)

Record chain_wf (s : t) (k : KeyType) (c : VersionChain) : Prop := {
  cw_nodup : NoDup c.*1;
  cw_node n : n ∈ c → n.1 < next_node s;
  cw_seq n : n ∈ c → seq n.2 < global_ts_ s;
  cw_txn n : n ∈ c → 0 ≤ txn_id n.2 < next_txn_id_ s;
  cw_commit n : n ∈ c → committed n.2 = true →
    0 ≤ commit_ts n.2 < global_ts_ s ∧ find_txn (txn_id n.2) s = None;
  cw_commit_inj n m : n ∈ c → m ∈ c → committed n.2 = true → committed m.2 = true →
    commit_ts n.2 = commit_ts m.2 → n = m;
  cw_pending n : n ∈ c → committed n.2 = false →
    ∃ x, find_txn (txn_id n.2) s = Some x ∧ mkWriteRecord k n.1 ∈ write_records x
}.

Record txn_wf (s : t) (i : Z) (x : Transaction) : Prop := {
  tw_id : 0 ≤ i < next_txn_id_ s;
  tw_start : 0 ≤ start_ts x < global_ts_ s;
  tw_records wr : wr ∈ write_records x →
    ∃ v, (wr_it wr, v) ∈ chain s (wr_key wr) ∧ txn_id v = i ∧ committed v = false;
  tw_nodup : NoDup (wr_key <$> write_records x);
  tw_write_set k : k ∈ write_set x ↔ k ∈ wr_key <$> write_records x
}.

Record wf (s : t) : Prop := {
  wf_shards : length (txn_shards_ s) = Z.to_nat kTxnShardCount;
  wf_placed idx sh i x : txn_shards_ s !! idx = Some sh → sh !! i = Some x → idx = ShardFor i;
  wf_ts : 0 ≤ global_ts_ s;
  wf_next : 0 ≤ next_txn_id_ s;
  wf_chain k : chain_wf s k (chain s k);
  wf_txn i x : find_txn i s = Some x → txn_wf s i x
}.

(** ** The transaction table behaves as one map *)

Lemma ShardFor_lt i : (ShardFor i < Z.to_nat kTxnShardCount)%nat.
Proof.
  unfold ShardFor, kTxnShardCount. pose proof (Z.mod_pos_bound (u64 i) 16 ltac:(lia)). lia.
Qed.

Section shards.
Context (s : t) (Hlen : length (txn_shards_ s) = Z.to_nat kTxnShardCount).

Lemma shard_lookup i : txn_shards_ s !! ShardFor i = Some (shard_of i s).
Proof.
  unfold shard_of. pose proof (ShardFor_lt i).
  destruct (lookup_lt_is_Some_2 (txn_shards_ s) (ShardFor i)) as [sh ->]; [lia|done].
Qed.

Lemma shard_of_upd i j g :
  shard_of j (set_shards (<[ShardFor i := g]> (txn_shards_ s)) s) =
  if decide (ShardFor i = ShardFor j) then g else shard_of j s.
Proof.
  unfold shard_of; simpl. case_decide as E.
  - rewrite <-E, list_lookup_insert_eq; [done|]. pose proof (ShardFor_lt i). lia.
  - by rewrite list_lookup_insert_ne.
Qed.

Lemma find_txn_put i j x :
  find_txn j (put_txn i x s) = if decide (i = j) then Some x else find_txn j s.
Proof.
  unfold find_txn, put_txn. rewrite shard_of_upd. repeat case_decide; subst; try done.
  - by rewrite lookup_insert_eq.
  - rewrite lookup_insert_ne by done. unfold shard_of. congruence.
Qed.

Lemma find_txn_erase i j :
  find_txn j (erase_txn i s) = if decide (i = j) then None else find_txn j s.
Proof.
  unfold find_txn, erase_txn. rewrite shard_of_upd. repeat case_decide; subst; try done.
  - by rewrite lookup_delete_eq.
  - rewrite lookup_delete_ne by done. unfold shard_of. congruence.
Qed.

Definition placed (l : list (gmap Z Transaction)) : Prop :=
  ∀ idx sh i x, l !! idx = Some sh → sh !! i = Some x → idx = ShardFor i.

Lemma placed_upd i g :
  placed (txn_shards_ s) →
  (∀ j, is_Some (g !! j) → j = i ∨ is_Some (shard_of i s !! j)) →
  placed (<[ShardFor i := g]> (txn_shards_ s)).
Proof.
  intros Hp Hg idx sh j x Hidx Hj. destruct (decide (idx = ShardFor i)) as [->|Hne].
  - pose proof (ShardFor_lt i). rewrite list_lookup_insert_eq in Hidx by lia.
    injection Hidx as <-. destruct (Hg j) as [->|[y Hy]]; [eauto|done|].
    eapply Hp; [apply shard_lookup|done].
  - rewrite list_lookup_insert_ne in Hidx by done. eauto.
Qed.

Lemma placed_put i x : placed (txn_shards_ s) → placed (txn_shards_ (put_txn i x s)).
Proof.
  intros Hp. apply placed_upd; [done|]. intros j Hj.
  destruct (decide (j = i)); [by left|right]. by rewrite lookup_insert_ne in Hj.
Qed.

Lemma placed_erase i : placed (txn_shards_ s) → placed (txn_shards_ (erase_txn i s)).
Proof.
  intros Hp. apply placed_upd; [done|]. intros j Hj.
  destruct (decide (j = i)); [by left|right]. by rewrite lookup_delete_ne in Hj.
Qed.
End shards.

Lemma length_put i x s : length (txn_shards_ (put_txn i x s)) = length (txn_shards_ s).
Proof. apply length_insert. Qed.
Lemma length_erase i s : length (txn_shards_ (erase_txn i s)) = length (txn_shards_ s).
Proof. apply length_insert. Qed.
Create HintDb mvcc.
Create Rewrite HintDb mvcc.
#[local] Hint Rewrite length_put length_erase : mvcc.
#[local] Hint Resolve wf_shards placed_put placed_erase : mvcc.

(** ** Chains under the list operations *)

Lemma fold_erase (l : list WriteRecord) k (m : gmap KeyType VersionChain) :
  default [] (fold_left (λ m wr, alter (erase_node (wr_it wr)) (wr_key wr) m) l m !! k) =
  filter (λ n, mkWriteRecord k n.1 ∉ l) (default [] (m !! k)).
Proof.
  revert m; induction l as [|[k' it] l IH]; intros m; simpl.
  { rewrite filter_all; [done|]. set_solver. }
  rewrite IH. rewrite lookup_alter. case_decide as E; subst.
  - destruct (m !! k) as [c|]; simpl; [|done]. unfold erase_node.
    rewrite list_filter_filter. apply list_filter_iff. intros n. set_solver.
  - apply list_filter_iff. set_solver.
Qed.

Lemma fold_commit ts (l : list WriteRecord) k (m : gmap KeyType VersionChain) :
  default [] (fold_left (λ m wr, alter (update_node (wr_it wr) (commit_version ts)) (wr_key wr) m)
                l m !! k) =
  (λ n, if decide (mkWriteRecord k n.1 ∈ l) then (n.1, commit_version ts n.2) else n)
    <$> default [] (m !! k).
Proof.
  revert m; induction l as [|[k' it] l IH]; intros m; simpl.
  { rewrite fmap_id_in; [done|]. done. }
  rewrite IH, lookup_alter. case_decide as E; subst.
  - destruct (m !! k) as [c|]; simpl; [|done]. unfold update_node.
    rewrite <-list_fmap_compose. apply fmap_ext_in. intros [i v] _; simpl.
    repeat (case_decide; simpl); try done; set_solver.
  - apply fmap_ext_in. intros n _. repeat case_decide; set_solver.
Qed.

Lemma fold_erase_nodes (l : list iterator) (c : VersionChain) :
  fold_left (λ c it, erase_node it c) l c = filter (λ n, n.1 ∉ l) c.
Proof.
  revert c; induction l as [|it l IH]; intros c; simpl.
  { rewrite filter_all; [done|]. set_solver. }
  rewrite IH. unfold erase_node. rewrite list_filter_filter.
  apply list_filter_iff. set_solver.
Qed.

(** A transaction's write records point exactly at its pending versions. *)
Lemma own_record s i x k n :
  wf s → find_txn i s = Some x → n ∈ chain s k →
  mkWriteRecord k n.1 ∈ write_records x ↔ txn_id n.2 = i ∧ committed n.2 = false.
Proof.
  intros Hwf Hx Hn. split.
  - intros Hwr. destruct (tw_records _ _ _ (wf_txn _ Hwf _ _ Hx) _ Hwr) as (v & Hv & <- & ?).
    simpl in *. assert (n = (n.1, v)) as ->; [|done].
    eapply NoDup_fst_inj; eauto using cw_nodup, wf_chain.
  - intros [<- Hc]. destruct (cw_pending _ _ _ (wf_chain _ Hwf k) _ Hn Hc) as (x' & Hx' & ?).
    by simplify_eq.
Qed.
(** ** What each call does to the store *)

Definition with_read (k : KeyType) (x : Transaction) : Transaction :=
  mkTransaction (isolation x) (start_ts x) (write_records x) (write_set x) ({[k]} ∪ read_set x).

Definition with_write (k : KeyType) (it : iterator) (x : Transaction) : Transaction :=
  mkTransaction (isolation x) (start_ts x) (write_records x ++ [mkWriteRecord k it])
    ({[k]} ∪ write_set x) (read_set x).

Definition overwrite (ts : Z) (del : bool) (v : string) (w : Version) : Version :=
  mkVersion (txn_id w) ts (commit_ts w) (committed w) del (if del then EmptyString else v).

Definition after_begin (l : IsolationLevel) (s : t) : t :=
  put_txn (next_txn_id_ s) (mkTransaction l (global_ts_ s) [] ∅ ∅)
    (mkStore (global_ts_ s + 1) (next_txn_id_ s + 1) (table_ s) (txn_shards_ s) (next_node s)).

Definition after_write (i : Z) (k : KeyType) (del : bool) (v : string) (x : Transaction) (s : t) : t :=
  match find_first (own_pending i) (chain s k) with
  | Some n =>
    mkStore (global_ts_ s + 1) (next_txn_id_ s)
      (<[k := update_node n.1 (overwrite (global_ts_ s) del v) (chain s k)]> (table_ s))
      (txn_shards_ s) (next_node s)
  | None =>
    put_txn i (with_write k (next_node s) x)
      (mkStore (global_ts_ s + 1) (next_txn_id_ s)
        (<[k := chain s k ++ [(next_node s, mkVersion i (global_ts_ s) (-1) false del
                                              (if del then EmptyString else v))]]> (table_ s))
        (txn_shards_ s) (next_node s + 1))
  end.

Definition after_abort (i : Z) (x : Transaction) (s : t) : t :=
  erase_txn i (set_table (fold_left (λ m wr, alter (erase_node (wr_it wr)) (wr_key wr) m)
                            (write_records x) (table_ s)) s).

Definition after_commit (i : Z) (x : Transaction) (s : t) : t :=
  erase_txn i
    (mkStore (global_ts_ s + 1) (next_txn_id_ s)
      (fold_left (λ m wr, alter (update_node (wr_it wr) (commit_version (global_ts_ s))) (wr_key wr) m)
         (write_records x) (table_ s))
      (txn_shards_ s) (next_node s)).

(** Another transaction committed a key of the check set after this one began. *)
Definition conflict (i : Z) (x : Transaction) (s : t) : bool :=
  conflict_in i x (filter (λ k, is_Some (table_ s !! k)) (check_keys x)) s.

Lemma Begin_run l s :
  wf s → Begin l s = (Val (next_txn_id_ s), after_begin l s).
Proof.
  intros Hwf. unfold Begin, Begin_draw, Begin_publish, after_begin, modify, mbind, M_bind, mret, M_ret.
  simpl. rewrite decide_False; [done|]. intros [x Hx].
  assert (find_txn (next_txn_id_ s) s = Some x) as Hx' by exact Hx.
  pose proof (tw_id _ _ _ (wf_txn _ Hwf _ _ Hx')). lia.
Qed.

Lemma Read_run i k s x :
  find_txn i s = Some x →
  Read i k s = (Val (read_chain i x (chain s k)), put_txn i (with_read k x) s).
Proof.
  intros Hx. unfold Read, GetTransaction, GetOrCreateChain, modify, mbind, M_bind, mret, M_ret.
  rewrite Hx; simpl. unfold chain. destruct (table_ s !! k); simpl; [done|].
  unfold read_chain. simpl. by case_decide.
Qed.

Lemma WriteInternal_run i k del v s x :
  find_txn i s = Some x → WriteInternal i k del v s = (Val tt, after_write i k del v x s).
Proof.
  intros Hx. unfold WriteInternal, after_write, GetOrCreateChain, fetch_ts, modify, chain,
    mbind, M_bind, mret, M_ret.
  destruct (table_ s !! k) as [c|] eqn:Hk; simpl.
  - destruct (find_first (own_pending i) c); simpl; [done|].
    unfold GetTransaction. rewrite (Hx : find_txn i (set_global_ts _ s) = _). done.
  - unfold GetTransaction. rewrite (Hx : find_txn i (set_global_ts _ (set_table _ s)) = _).
    simpl. by rewrite insert_insert_eq.
Qed.

Lemma Write_run i k v s x :
  find_txn i s = Some x → Write i k v s = (Val tt, after_write i k false v x s).
Proof.
  intros Hx. unfold Write, GetTransaction, mbind, M_bind. rewrite Hx. by apply WriteInternal_run.
Qed.

Lemma Commit_run i s x :
  find_txn i s = Some x →
  Commit i s = if conflict i x s then (Val false, after_abort i x s)
               else (Val true, after_commit i x s).
Proof.
  intros Hx. unfold Commit, Commit_find, Commit_stamp, Commit_leave, conflict, GetTransaction, get, fetch_ts,
    modify, AbortInternal, mbind, M_bind, mret, M_ret. rewrite Hx. by destruct (conflict_in _ _ _ _).
Qed.

Lemma Abort_run i s x : find_txn i s = Some x → Abort i s = (Val tt, after_abort i x s).
Proof. intros Hx. unfold Abort. rewrite Hx. done. Qed.

(** ** Every call preserves the invariant *)

Lemma chain_wf_mono s s' k c :
  chain_wf s k c →
  next_node s ≤ next_node s' → global_ts_ s ≤ global_ts_ s' → next_txn_id_ s ≤ next_txn_id_ s' →
  (∀ i, 0 ≤ i < next_txn_id_ s → find_txn i s = None → find_txn i s' = None) →
  (∀ n x, n ∈ c → committed n.2 = false → find_txn (txn_id n.2) s = Some x →
     mkWriteRecord k n.1 ∈ write_records x →
     ∃ x', find_txn (txn_id n.2) s' = Some x' ∧ mkWriteRecord k n.1 ∈ write_records x') →
  chain_wf s' k c.
Proof.
  intros [H1 H2 H3 H4 H5 H6 H7] Hn Hg Hi Hnone Hsome. split; try done.
  - intros n ?. specialize (H2 n). naive_solver lia.
  - intros n ?. specialize (H3 n). naive_solver lia.
  - intros n ?. specialize (H4 n). naive_solver lia.
  - intros n Hin Hc. destruct (H5 n Hin Hc) as [? ?]. split; [lia|].
    apply Hnone; [|done]. by apply H4.
  - intros n Hin Hc. destruct (H7 n Hin Hc) as (x & ? & ?). eauto.
Qed.

(** A sub-chain of a well-formed chain is well formed. *)
Lemma chain_wf_filter s k c P `{!∀ n, Decision (P n)} :
  chain_wf s k c → chain_wf s k (filter P c).
Proof.
  intros [H1 H2 H3 H4 H5 H6 H7]. split; try (intros n [_ ?]%list_elem_of_filter; by eauto).
  - eapply sublist_NoDup; [done|]. apply fmap_sublist, sublist_filter.
  - intros n m [_ ?]%list_elem_of_filter [_ ?]%list_elem_of_filter. eauto.
Qed.

Lemma wf_init : wf init.
Proof.
  assert (∀ i, find_txn i init = None) as Hnone.
  { intros i. unfold find_txn, shard_of, init. cbn [txn_shards_].
    pose proof (ShardFor_lt i). by rewrite lookup_replicate_2 by done. }
  split; try done.
  - unfold init; cbn [txn_shards_]. intros idx sh i x [-> _]%lookup_replicate. done.
  - intros k. unfold chain, init; simpl. split; simpl; try set_solver. constructor.
  - intros i x Hx. by rewrite Hnone in Hx.
Qed.

Lemma wf_begin l s : wf s → wf (after_begin l s).
Proof.
  intros Hwf. pose proof Hwf as [Hlen Hpl Hts Hnx Hch Htx].
  set (s1 := mkStore (global_ts_ s + 1) (next_txn_id_ s + 1) (table_ s) (txn_shards_ s) (next_node s)).
  assert (∀ j, find_txn j (after_begin l s) = if decide (next_txn_id_ s = j)
            then Some (mkTransaction l (global_ts_ s) [] ∅ ∅) else find_txn j s) as Hfind.
  { intros j. unfold after_begin. by rewrite (find_txn_put s1). }
  split; simpl; try lia.
  - by rewrite length_insert.
  - by apply (placed_put s1).
  - intros k. apply (chain_wf_mono s); simpl; try lia; [apply Hch|..].
    + intros i ? Hi. rewrite Hfind, decide_False by lia. done.
    + intros n x Hn ? Hx Hr. exists x. rewrite Hfind, decide_False; [done|].
      destruct (cw_txn _ _ _ (Hch k) n Hn). lia.
  - intros i x. rewrite Hfind. case_decide as E.
    + intros [= <-]. subst. split; simpl; try lia; try set_solver. constructor.
    + intros Hx. destruct (Htx _ _ Hx) as [? ? ? ? ?]. split; simpl; try done; lia.
Qed.

Lemma wf_read i k s x :
  wf s → find_txn i s = Some x → wf (put_txn i (with_read k x) s).
Proof.
  intros Hwf Hx. pose proof Hwf as [Hlen Hpl Hts Hnx Hch Htx].
  pose proof (find_txn_put s Hlen i) as Hfind.
  split; simpl; try done.
  - by rewrite length_insert.
  - by apply placed_put.
  - intros k'. apply (chain_wf_mono s); simpl; try lia; [apply Hch|..].
    + intros j ? Hj. rewrite Hfind. case_decide; [congruence|done].
    + intros n y Hn ? Hy Hr. rewrite Hfind. case_decide; [|eauto].
      simplify_eq. eexists; split; [done|]. done.
  - intros j y. rewrite Hfind. case_decide as E.
    + intros [= <-]. subst. by destruct (Htx _ _ Hx).
    + intros Hy. by destruct (Htx _ _ Hy).
Qed.

Lemma chain_insert s s' k c :
  table_ s' = <[k := c]> (table_ s) →
  ∀ k', chain s' k' = if decide (k = k') then c else chain s k'.
Proof. intros E k'. unfold chain. rewrite E, lookup_insert. by case_decide. Qed.

Lemma update_node_fst it f (c : VersionChain) : (update_node it f c).*1 = c.*1.
Proof.
  unfold update_node. rewrite <-list_fmap_compose. apply fmap_ext_in.
  intros n _; simpl. by case_decide.
Qed.

Lemma elem_of_update_node it f (c : VersionChain) n :
  n ∈ update_node it f c ↔
  ∃ m, m ∈ c ∧ n.1 = m.1 ∧ n.2 = if decide (m.1 = it) then f m.2 else m.2.
Proof.
  unfold update_node. rewrite list_elem_of_fmap. split.
  - intros (m & -> & Hm). exists m. case_decide; done.
  - intros (m & Hm & E1 & E2). exists m. split; [|done]. destruct n, m; simpl in *.
    case_decide; congruence.
Qed.

Lemma wf_overwrite i k del v s x n :
  wf s → find_txn i s = Some x → n ∈ chain s k → own_pending i n = true →
  wf (mkStore (global_ts_ s + 1) (next_txn_id_ s)
       (<[k := update_node n.1 (overwrite (global_ts_ s) del v) (chain s k)]> (table_ s))
       (txn_shards_ s) (next_node s)).
Proof.
  intros Hwf Hx Hn Hown. pose proof Hwf as [Hlen Hpl Hts Hnx Hch Htx].
  set (s' := mkStore _ _ _ _ _). pose proof (chain_insert s s' k _ eq_refl) as Hchain.
  assert (∀ j, find_txn j s' = find_txn j s) as Hfind by done.
  split; simpl; try done; try lia.
  - intros k'. rewrite Hchain. case_decide; subst.
    2: { apply (chain_wf_mono s); simpl; try lia; naive_solver. }
    destruct (Hch k') as [H1 H2 H3 H4 H5 H6 H7].
    split; simpl.
    + by rewrite update_node_fst.
    + intros m (m0 & ? & -> & _)%elem_of_update_node. eauto.
    + intros m (m0 & Hm & _ & ->)%elem_of_update_node. specialize (H3 _ Hm).
      case_decide; simpl; lia.
    + intros m (m0 & Hm & _ & ->)%elem_of_update_node. specialize (H4 _ Hm). by case_decide.
    + intros m (m0 & Hm & _ & ->)%elem_of_update_node. specialize (H5 _ Hm).
      rewrite Hfind. case_decide; simpl; naive_solver lia.
    + intros a b (a0 & -> & Ha)%list_elem_of_fmap (b0 & -> & Hb)%list_elem_of_fmap.
      assert (∀ w, w ∈ chain s k' → w.1 = n.1 → committed w.2 = false) as Hpend.
      { intros w Hw E. assert (w = n) as -> by (eapply NoDup_fst_inj; eauto).
        unfold own_pending in Hown. destruct (committed n.2); [|done].
        by rewrite andb_false_r in Hown. }
      intros Hca Hcb Heq. assert (a0 = b0) as <-; [|done].
      apply H6; try done; repeat case_decide; simpl in *; done.
    + intros m (m0 & Hm & -> & ->)%elem_of_update_node. specialize (H7 _ Hm).
      rewrite Hfind. case_decide; simpl; naive_solver.
  - intros j y Hy. destruct (Htx _ _ Hy) as [? ? Hrec ? ?]. split; simpl; try done; [lia|].
    intros wr Hwr. destruct (Hrec wr Hwr) as (w & Hw & ? & ?). rewrite Hchain.
    case_decide; [subst k|by eauto].
    exists (if decide (wr_it wr = n.1) then overwrite (global_ts_ s) del v w else w).
    split; [|by case_decide]. apply elem_of_update_node. exists (wr_it wr, w). done.
Qed.

Lemma no_own_record s i x k :
  wf s → find_txn i s = Some x → find_first (own_pending i) (chain s k) = None →
  k ∉ wr_key <$> write_records x.
Proof.
  intros Hwf Hx Hnone (wr & -> & Hwr)%list_elem_of_fmap.
  destruct (tw_records _ _ _ (wf_txn _ Hwf _ _ Hx) wr Hwr) as (v & Hv & Hi & Hc).
  rewrite find_first_None in Hnone. specialize (Hnone _ Hv).
  unfold own_pending in Hnone; simpl in Hnone. rewrite Hi, Hc, Z.eqb_refl in Hnone. done.
Qed.

Lemma wf_append i k s x v :
  wf s → find_txn i s = Some x → find_first (own_pending i) (chain s k) = None →
  txn_id v = i → committed v = false → seq v = global_ts_ s →
  wf (put_txn i (with_write k (next_node s) x)
       (mkStore (global_ts_ s + 1) (next_txn_id_ s)
         (<[k := chain s k ++ [(next_node s, v)]]> (table_ s)) (txn_shards_ s) (next_node s + 1))).
Proof.
  intros Hwf Hx Hnone Hvi Hvc Hvs. pose proof Hwf as [Hlen Hpl Hts Hnx Hch Htx].
  set (s1 := mkStore _ _ _ _ _). set (s' := put_txn _ _ s1).
  pose proof (chain_insert s s' k _ eq_refl) as Hchain.
  pose proof (find_txn_put s1 Hlen i) as Hfind.
  assert (∀ j, find_txn j s1 = find_txn j s) as Hs1 by done.
  assert (∀ k', chain_wf s' k' (chain s k')) as Hold.
  { intros k'. apply (chain_wf_mono s); simpl; try lia; [apply Hch|..].
    - intros j ? Hj. unfold s'. rewrite Hfind, Hs1. case_decide; [congruence|done].
    - intros n y Hn ? Hy Hr. unfold s'. rewrite Hfind, Hs1. case_decide as E; [|eauto].
      rewrite <-E, Hx in Hy. injection Hy as <-. eexists; split; [done|]. simpl.
      apply elem_of_app. by left. }
  split; simpl; try done; try lia.
  - by rewrite length_insert.
  - by apply (placed_put s1).
  - intros k'. rewrite Hchain. case_decide; [subst k'|done].
    destruct (Hold k) as [H1 H2 H3 H4 H5 H6 H7].
    assert (∀ n, n ∈ chain s k → n.1 < next_node s) as Hlt by apply Hch.
    split; simpl.
    + rewrite fmap_app. apply NoDup_app. split_and!; [done| |apply NoDup_singleton].
      intros a (n & -> & Hn)%list_elem_of_fmap Ha%list_elem_of_singleton. specialize (Hlt _ Hn).
      simpl in Ha. lia.
    + intros n [Hn| ->]%elem_of_snoc; simpl; [|lia]. specialize (Hlt _ Hn). lia.
    + intros n [Hn| ->]%elem_of_snoc; simpl; [|lia]. by apply H3.
    + intros n [Hn| ->]%elem_of_snoc; simpl; [by apply H4|].
      rewrite Hvi. apply (Htx _ _ Hx).
    + intros n [Hn| ->]%elem_of_snoc; simpl; [by apply H5|]. congruence.
    + intros n m [Hn| ->]%elem_of_snoc [Hm| ->]%elem_of_snoc;
        simpl; try congruence. by apply H6.
    + intros n [Hn| ->]%elem_of_snoc; simpl; [by apply H7|]. intros _.
      rewrite Hvi. unfold s'. rewrite Hfind, decide_True by done. eexists; split; [done|].
      simpl. set_solver.
  - intros j y. unfold s' at 1. rewrite Hfind, Hs1.
    assert (∀ wr w, (wr_it wr, w) ∈ chain s (wr_key wr) → (wr_it wr, w) ∈ chain s' (wr_key wr)) as Hsub.
    { intros wr w. rewrite Hchain. case_decide; subst; set_solver. }
    case_decide as E.
    + intros [= <-]. subst j. destruct (Htx _ _ Hx) as [? ? Hrec Hnd Hws]. split; simpl; try lia.
      * intros wr [Hwr| ->]%elem_of_snoc.
        -- destruct (Hrec wr Hwr) as (w & ? & ? & ?). exists w. eauto.
        -- exists v. simpl. rewrite Hchain, decide_True by done. set_solver.
      * rewrite fmap_app. apply NoDup_app. split_and!; [done| |apply NoDup_singleton].
        pose proof (no_own_record _ _ _ _ Hwf Hx Hnone). set_solver.
      * intros k'. rewrite fmap_app, elem_of_app, elem_of_union, Hws. simpl. set_solver.
    + intros Hy. destruct (Htx _ _ Hy) as [? ? Hrec ? ?]. split; simpl; try done; [lia|].
      intros wr Hwr. destruct (Hrec wr Hwr) as (w & ? & ? & ?). eauto.
Qed.

Lemma wf_write i k del v s x :
  wf s → find_txn i s = Some x → wf (after_write i k del v x s).
Proof.
  intros Hwf Hx. unfold after_write. destruct (find_first _ _) as [n|] eqn:E.
  - apply find_first_Some in E as [??]. by eapply wf_overwrite.
  - by apply wf_append.
Qed.

(** Dropping a transaction whose pending versions have gone or are committed. *)
Lemma wf_finish i x s s1 :
  wf s → find_txn i s = Some x → txn_shards_ s1 = txn_shards_ s →
  next_txn_id_ s1 = next_txn_id_ s → next_node s1 = next_node s → global_ts_ s ≤ global_ts_ s1 →
  (∀ k n, n ∈ chain s1 k → committed n.2 = false → txn_id n.2 ≠ i ∧ n ∈ chain s k) →
  (∀ k n, n ∈ chain s k → txn_id n.2 ≠ i → committed n.2 = false → n ∈ chain s1 k) →
  (∀ k n, n ∈ chain s1 k → ∃ m, m ∈ chain s k ∧ m.1 = n.1 ∧ txn_id m.2 = txn_id n.2 ∧ seq m.2 = seq n.2) →
  (∀ k, NoDup (chain s1 k).*1) →
  (∀ k n, n ∈ chain s1 k → committed n.2 = true →
     n ∈ chain s k ∨ txn_id n.2 = i ∧ commit_ts n.2 = global_ts_ s ∧ global_ts_ s < global_ts_ s1) →
  (∀ k n m, n ∈ chain s1 k → m ∈ chain s1 k → txn_id n.2 = i → txn_id m.2 = i → n = m) →
  wf (erase_txn i s1).
Proof.
  intros Hwf Hx Esh Etx Eno Hts1 Hpend Hkeep Horig Hnd Hcom Hone.
  pose proof Hwf as [Hlen Hpl Hts Hnx Hch Htx].
  assert (length (txn_shards_ s1) = Z.to_nat kTxnShardCount) as Hlen1 by congruence.
  assert (∀ j, find_txn j (erase_txn i s1) = if decide (i = j) then None else find_txn j s) as Hfind.
  { intros j. rewrite find_txn_erase by done. case_decide; [done|].
    unfold find_txn, shard_of. by rewrite Esh. }
  split; simpl; try lia.
  - by rewrite length_insert.
  - apply placed_erase; [done|]. by rewrite Esh.
  - intros k. change (chain (erase_txn i s1) k) with (chain s1 k).
    destruct (Hch k) as [H1 H2 H3 H4 H5 H6 H7]. split; simpl.
    + done.
    + intros n Hn. destruct (Horig k n Hn) as (m & Hm & E & _). rewrite Eno, <-E. eauto.
    + intros n Hn. destruct (Horig k n Hn) as (m & Hm & _ & _ & E). specialize (H3 _ Hm). lia.
    + intros n Hn. destruct (Horig k n Hn) as (m & Hm & _ & E & _). rewrite Etx, <-E. eauto.
    + intros n Hn Hc. rewrite Hfind. destruct (Hcom k n Hn Hc) as [Hin|(E & E' & ?)].
      * destruct (H5 n Hin Hc). split; [lia|]. by case_decide.
      * split; [lia|]. by rewrite decide_True.
    + intros n m Hn Hm Hcn Hcm E.
      destruct (Hcom k n Hn Hcn) as [Hn'|(En & En' & ?)], (Hcom k m Hm Hcm) as [Hm'|(Em & Em' & ?)].
      * by apply H6.
      * destruct (H5 n Hn' Hcn). lia.
      * destruct (H5 m Hm' Hcm). lia.
      * by apply (Hone k).
    + intros n Hn Hc. destruct (Hpend k n Hn Hc) as [Hne Hin].
      destruct (H7 n Hin Hc) as (y & ? & ?). exists y. rewrite Hfind, decide_False by done. done.
  - intros j y. rewrite Hfind. case_decide; [done|]. intros Hy.
    destruct (Htx _ _ Hy) as [? ? Hrec ? ?]. split; simpl; try done; try lia.
    intros wr Hwr. destruct (Hrec wr Hwr) as (w & ? & ? & ?). exists w.
    split; [|done]. apply Hkeep; simpl; congruence.
Qed.

Abbreviation pending_of i := (λ n : iterator * Version, txn_id n.2 = i ∧ committed n.2 = false).

Lemma chain_abort i x s k :
  wf s → find_txn i s = Some x →
  chain (after_abort i x s) k = filter (λ n, ¬ pending_of i n) (chain s k).
Proof.
  intros Hwf Hx. unfold chain at 1. simpl. rewrite fold_erase. apply filter_ext_in.
  intros n Hn. by rewrite (own_record s i x k n).
Qed.

Lemma chain_commit i x s k :
  wf s → find_txn i s = Some x →
  chain (after_commit i x s) k =
    (λ n, if decide (pending_of i n) then (n.1, commit_version (global_ts_ s) n.2) else n)
      <$> chain s k.
Proof.
  intros Hwf Hx. unfold chain at 1. simpl. rewrite fold_commit. apply fmap_ext_in.
  intros n Hn. pose proof (own_record s i x k n Hwf Hx Hn) as E.
  repeat case_decide; tauto.
Qed.

Lemma active_pending s i x k n :
  wf s → find_txn i s = Some x → n ∈ chain s k → txn_id n.2 = i → committed n.2 = false.
Proof.
  intros Hwf Hx Hn E. destruct (committed n.2) eqn:Hc; [|done].
  destruct (cw_commit _ _ _ (wf_chain _ Hwf k) n Hn Hc). congruence.
Qed.

Lemma own_unique s i x k n m :
  wf s → find_txn i s = Some x → n ∈ chain s k → m ∈ chain s k →
  txn_id n.2 = i → txn_id m.2 = i → n = m.
Proof.
  intros Hwf Hx Hn Hm En Em.
  assert (mkWriteRecord k n.1 ∈ write_records x) as Hrn.
  { apply (own_record s i); eauto using active_pending. }
  assert (mkWriteRecord k m.1 ∈ write_records x) as Hrm.
  { apply (own_record s i); eauto using active_pending. }
  apply (NoDup_fst_inj (chain s k)); [apply wf_chain, Hwf|done|done|].
  pose proof (tw_nodup _ _ _ (wf_txn _ Hwf _ _ Hx)) as Hnd.
  revert Hnd Hrn Hrm. generalize (write_records x) as l. clear.
  induction l as [|w l IH]; simpl; [set_solver|]. intros [Hw Hnd]%NoDup_cons.
  intros [E1|H1]%elem_of_cons [E2|H2]%elem_of_cons; [congruence|..|auto];
    destruct Hw; subst w; simpl.
  - apply (list_elem_of_fmap_2 wr_key) in H2. done.
  - apply (list_elem_of_fmap_2 wr_key) in H1. done.
Qed.

Lemma wf_abort i x s : wf s → find_txn i s = Some x → wf (after_abort i x s).
Proof.
  intros Hwf Hx. pose proof (λ k, chain_abort i x s k Hwf Hx) as Hchain.
  unfold after_abort in *. set (s1 := set_table _ s) in *.
  assert (∀ k n, n ∈ chain s1 k ↔ ¬ pending_of i n ∧ n ∈ chain s k) as Hin.
  { intros k n. change (chain s1 k) with (chain (erase_txn i s1) k).
    by rewrite Hchain, list_elem_of_filter. }
  apply (wf_finish i x s); try done.
  - intros k n [? ?]%Hin Hc. split; [|done]. naive_solver.
  - intros k n ???. apply Hin. naive_solver.
  - intros k n [? ?]%Hin. eauto.
  - intros k. change (chain s1 k) with (chain (erase_txn i s1) k). rewrite Hchain.
    apply (chain_wf_filter s k). apply wf_chain, Hwf.
  - intros k n [? ?]%Hin ?. by left.
  - intros k n m [Hn Hn']%Hin _ E _. destruct Hn. split; [done|]. by eapply active_pending.
Qed.

Lemma wf_commit i x s : wf s → find_txn i s = Some x → wf (after_commit i x s).
Proof.
  intros Hwf Hx. pose proof (λ k, chain_commit i x s k Hwf Hx) as Hchain.
  unfold after_commit in *. set (s1 := mkStore _ _ _ _ _) in *.
  assert (∀ k n, n ∈ chain s1 k ↔ ∃ m, m ∈ chain s k ∧
    n = if decide (pending_of i m) then (m.1, commit_version (global_ts_ s) m.2) else m) as Hin.
  { intros k n. change (chain s1 k) with (chain (erase_txn i s1) k). rewrite Hchain.
    rewrite list_elem_of_fmap. naive_solver. }
  apply (wf_finish i x s); try done; simpl; try lia.
  - intros k n (m & Hm & ->)%Hin. case_decide; simpl; [done|]. naive_solver.
  - intros k n ???. apply Hin. exists n. rewrite decide_False; naive_solver.
  - intros k n (m & Hm & ->)%Hin. exists m. by case_decide.
  - intros k. change (chain s1 k) with (chain (erase_txn i s1) k). rewrite Hchain.
    rewrite <-list_fmap_compose.
    rewrite (fmap_ext_in _ fst) by (intros n _; simpl; by case_decide).
    apply wf_chain, Hwf.
  - intros k n (m & Hm & ->)%Hin. case_decide; simpl; [|by left]. intros _. right.
    split_and!; [naive_solver|done|lia].
  - intros k n m (n0 & Hn & ->)%Hin (m0 & Hm & ->)%Hin En Em.
    assert (n0 = m0) as ->; [|done]. eapply (own_unique s i x k); eauto.
    + by destruct (decide (pending_of i n0)).
    + by destruct (decide (pending_of i m0)).
Qed.

(** ** Garbage collection *)

Lemma elem_of_active_starts s ts :
  wf s → ts ∈ active_starts s ↔ ∃ i x, find_txn i s = Some x ∧ start_ts x = ts.
Proof.
  intros Hwf. unfold active_starts. rewrite merge_sort_Permutation, list_elem_of_In, in_flat_map.
  split.
  - intros (sh & Hsh%list_elem_of_In & Hts%list_elem_of_In).
    apply list_elem_of_fmap in Hts as ([i x] & -> & Hix%elem_of_map_to_list).
    apply list_elem_of_lookup in Hsh as [idx Hidx]. exists i, x. split; [|done].
    assert (idx = ShardFor i) as -> by (eapply wf_placed; eauto).
    rewrite shard_lookup in Hidx by eauto using wf_shards. unfold find_txn. congruence.
  - intros (i & x & Hx & <-). exists (shard_of i s). split.
    + apply list_elem_of_In. eapply list_elem_of_lookup_2, shard_lookup, wf_shards, Hwf.
    + apply list_elem_of_In, list_elem_of_fmap. exists (i, x). split; [done|].
      by apply elem_of_map_to_list.
Qed.

#[local] Instance commit_ts_le_total : Total commit_ts_le.
Proof. intros ? ?. unfold commit_ts_le. lia. Qed.
#[local] Instance commit_ts_le_trans : Transitive commit_ts_le.
Proof. intros ? ? ?. unfold commit_ts_le. lia. Qed.

Lemma elem_of_reclaim starts vs it :
  it ∈ reclaim starts vs →
  ∃ l1 a b l2, vs = l1 ++ a :: b :: l2 ∧ a.1 = it ∧ needed starts (commit_ts a.2) (commit_ts b.2) = false.
Proof.
  induction vs as [|a [|b vs] IH]; simpl; [set_solver..|].
  intros [Hit|Hit]%elem_of_app.
  - destruct (needed _ _ _) eqn:E; [set_solver|]. apply list_elem_of_singleton in Hit as ->.
    by exists [], a, b, vs.
  - destruct (IH Hit) as (l1 & a' & b' & l2 & E & ? & ?). exists (a :: l1), a', b', l2.
    by rewrite E.
Qed.

(** A reclaimed node is a committed version that a newer one supersedes for
    every active snapshot. *)
Lemma elem_of_victims starts c it :
  NoDup c.*1 → it ∈ gc_victims starts c →
  ∃ a b, a ∈ c ∧ b ∈ c ∧ a.1 = it ∧ a ≠ b ∧ committed a.2 = true ∧ committed b.2 = true ∧
    commit_ts a.2 ≤ commit_ts b.2 ∧ ∀ ts, ts ∈ starts → ¬ (commit_ts a.2 ≤ ts < commit_ts b.2).
Proof.
  intros Hnd. unfold gc_victims. repeat case_match; try set_solver.
  intros (l1 & a & b & l2 & E & <- & Hneed)%elem_of_reclaim.
  set (cs := filter _ c) in *.
  assert (cs ≡ₚ l1 ++ a :: b :: l2) as Hperm by (by rewrite <-E, merge_sort_Permutation).
  assert (∀ n, n ∈ l1 ++ a :: b :: l2 → committed n.2 = true ∧ n ∈ c) as Hin.
  { intros n. rewrite <-Hperm. unfold cs. by rewrite list_elem_of_filter. }
  destruct (Hin a) as [??]; [set_solver|]. destruct (Hin b) as [??]; [set_solver|].
  exists a, b. split_and!; try done.
  - assert (NoDup (l1 ++ a :: b :: l2)) as Hnd'.
    { rewrite <-Hperm. apply NoDup_filter. by eapply NoDup_fmap_1. }
    apply NoDup_app in Hnd' as (_ & _ & Hnd'). apply NoDup_cons in Hnd'. set_solver.
  - pose proof (StronglySorted_merge_sort commit_ts_le cs) as Hs. rewrite E in Hs.
    apply StronglySorted_app_1_r in Hs. apply StronglySorted_inv in Hs as [_ Hs].
    apply Forall_cons in Hs as [Hs _]. done.
  - intros ts Hts Hr. unfold needed in Hneed. rewrite <-not_true_iff_false in Hneed.
    apply Hneed, existsb_exists. exists ts. split; [by apply list_elem_of_In|lia].
Qed.

Section snap.
Context (c : VersionChain).
Hypothesis inj_c : ∀ n m, n ∈ c → m ∈ c → committed n.2 = true → committed m.2 = true →
  commit_ts n.2 = commit_ts m.2 → n = m.

Lemma elem_of_vis ts n : n ∈ vis ts c ↔ n ∈ c ∧ committed n.2 = true ∧ commit_ts n.2 ≤ ts.
Proof. unfold vis. rewrite list_elem_of_filter. tauto. Qed.

Lemma vis_max ts :
  vis ts c = [] ∨ ∃ n, n ∈ vis ts c ∧ ∀ m, m ∈ vis ts c → m = n ∨ commit_ts m.2 < commit_ts n.2.
Proof.
  destruct (fold_best by_commit_ts (vis ts c)) as [n|] eqn:E.
  - right. apply (fold_best_Some (λ n, commit_ts n.2)) in E as [Hn Hmax]. exists n. split; [done|].
    intros m Hm. specialize (Hmax m Hm). simpl in Hmax.
    destruct (Z.eq_dec (commit_ts m.2) (commit_ts n.2)); [left|right; lia].
    apply elem_of_vis in Hn, Hm. apply inj_c; naive_solver.
  - left. by apply (fold_best_None (λ n, commit_ts n.2)) in E.
Qed.
End snap.

Lemma snap_at_max ts c n :
  n ∈ vis ts c → (∀ m, m ∈ vis ts c → m = n ∨ commit_ts m.2 < commit_ts n.2) →
  snap_at ts c = live_value (Some n).
Proof.
  intros Hn Hmax. unfold snap_at. f_equal.
  by apply (fold_best_max (λ n, commit_ts n.2)).
Qed.

Lemma gc_chain_snap s k starts ts c :
  chain_wf s k c → ts ∈ starts ∨ (∀ n, n ∈ c → committed n.2 = true → commit_ts n.2 ≤ ts) →
  snap_at ts (gc_chain starts c) = snap_at ts c.
Proof.
  intros Hc Hts. unfold gc_chain. rewrite fold_erase_nodes.
  set (c' := filter _ c). assert (∀ n, (n ∈ c') ↔ (¬ (n.1 ∈ gc_victims starts c) ∧ n ∈ c)) as Hc'.
  { intros n. unfold c'. by rewrite list_elem_of_filter. }
  destruct (vis_max c (cw_commit_inj _ _ _ Hc) ts) as [E|(n & Hn & Hmax)].
  { unfold snap_at. rewrite E. replace (vis ts c') with (@nil (iterator * Version)); [done|].
    symmetry. apply filter_none. intros n [_ Hn]%Hc' ?.
    assert (n ∈ vis ts c) as Hn' by (by apply elem_of_vis). rewrite E in Hn'. set_solver. }
  rewrite (snap_at_max ts c n) by done. pose proof Hn as (Hnc & Hcom & Hle)%elem_of_vis.
  apply snap_at_max.
  - apply elem_of_vis. split; [|done]. apply Hc'. split; [|done].
    intros (a & b & Ha & Hb & E & Hne & Hca & Hcb & Hab & Hstarts)%elem_of_victims; [|apply Hc].
    assert (a = n) as -> by (eapply NoDup_fst_inj; eauto using cw_nodup).
    assert (commit_ts b.2 ≤ ts) as Hbts.
    { destruct Hts as [Hts|Hall]; [|by apply Hall]. specialize (Hstarts _ Hts). lia. }
    destruct (Hmax b) as [?|?]; [by apply elem_of_vis|congruence|lia].
  - intros m (Hm & ? & ?)%elem_of_vis. apply Hmax, elem_of_vis. split; [|done]. by apply Hc'.
Qed.

Lemma chain_sweep starts s k :
  chain (GC_sweep starts s).2 k = filter (λ n, n.1 ∉ gc_victims starts (chain s k)) (chain s k).
Proof.
  rewrite <-fold_erase_nodes. unfold chain, GC_sweep; simpl. rewrite lookup_fmap.
  by destruct (table_ s !! k).
Qed.

Lemma chain_gc s k :
  chain (RunGarbageCollection s).2 k = gc_chain (active_starts s) (chain s k).
Proof. unfold gc_chain. rewrite fold_erase_nodes. apply chain_sweep. Qed.

(** Whatever timestamps it is given, the sweep keeps the store well formed. *)
Lemma wf_sweep starts s : wf s → wf (GC_sweep starts s).2.
Proof.
  intros Hwf. pose proof Hwf as [Hlen Hpl Hts Hnx Hch Htx].
  set (s' := (GC_sweep starts s).2).
  assert (∀ j, find_txn j s' = find_txn j s) as Hfind by done.
  pose proof (chain_sweep starts s : ∀ k, chain s' k = _) as Hchain.
  split; try done.
  - intros k. rewrite Hchain. apply chain_wf_filter.
    apply (chain_wf_mono s); simpl; try lia; naive_solver.
  - intros j y Hy. destruct (Htx _ _ Hy) as [? ? Hrec ? ?]. split; try done.
    intros wr Hwr. destruct (Hrec wr Hwr) as (w & Hw & ? & ?). exists w. split; [|done].
    rewrite Hchain. apply list_elem_of_filter. split; [|done]. simpl.
    intros (a & b & Ha & _ & E & _ & Hca & _)%elem_of_victims; [|apply Hch].
    assert (a = (wr_it wr, w)) as -> by (eapply NoDup_fst_inj; eauto using cw_nodup).
    simpl in *. congruence.
Qed.

Lemma wf_gc s : wf s → wf (RunGarbageCollection s).2.
Proof. apply (wf_sweep (active_starts s)). Qed.

(** ** Runs *)

Inductive op :=
  | Op_Begin (l : IsolationLevel)
  | Op_Read (i : Z) (k : KeyType)
  | Op_Write (i : Z) (k : KeyType) (v : string)
  | Op_Delete (i : Z) (k : KeyType)
  | Op_Commit (i : Z)
  | Op_Abort (i : Z)
  | Op_GC.

(** The transaction a call is made for. *)
Definition op_txn (o : op) : option Z :=
  match o with
  | Op_Read i _ | Op_Write i _ _ | Op_Delete i _ | Op_Commit i | Op_Abort i => Some i
  | _ => None
  end.

Definition exec (s : t) (o : op) : t :=
  match o with
  | Op_Begin l => (Begin l s).2
  | Op_Read i k => (Read i k s).2
  | Op_Write i k v => (Write i k v s).2
  | Op_Delete i k => (Delete i k s).2
  | Op_Commit i => (Commit i s).2
  | Op_Abort i => (Abort i s).2
  | Op_GC => (RunGarbageCollection s).2
  end.

Definition run (s : t) (ops : list op) : t := fold_left exec ops s.

Lemma Delete_run i k s x :
  wf s → find_txn i s = Some x →
  Delete i k s = (Val (bool_decide (is_Some (read_chain i x (chain s k)))),
    after_write i k true EmptyString (with_read k x) (put_txn i (with_read k x) s)).
Proof.
  intros Hwf Hx. unfold Delete, mbind, M_bind. rewrite (Read_run i k s x) by done.
  assert (find_txn i (put_txn i (with_read k x) s) = Some (with_read k x)) as Hx'.
  { rewrite find_txn_put by apply wf_shards, Hwf. by rewrite decide_True. }
  unfold GetTransaction at 1. rewrite Hx'. by rewrite (WriteInternal_run _ _ _ _ _ _ Hx').
Qed.

Lemma missing_txn i s : find_txn i s = None →
  (∀ k, Read i k s = (Exn (OutOfRange "unordered_map::at"), s)) ∧
  (∀ k v, Write i k v s = (Exn (OutOfRange "unordered_map::at"), s)) ∧
  (∀ k, Delete i k s = (Exn (OutOfRange "unordered_map::at"), s)) ∧
  Commit i s = (Exn (OutOfRange "unordered_map::at"), s) ∧ Abort i s = (Val tt, s).
Proof.
  intros Hx. unfold Delete, Read, Write, Commit, Abort, GetTransaction, mbind, M_bind.
  by rewrite Hx.
Qed.

Lemma wf_exec s o : wf s → wf (exec s o).
Proof.
  intros Hwf.
  assert (∀ i, find_txn i s = None → op_txn o = Some i → exec s o = s) as Hmiss.
  { intros i (Hr & Hw & Hd & Hc & Ha)%missing_txn. destruct o; intros [= ->]; simpl.
    - by rewrite Hr. - by rewrite Hw. - by rewrite Hd. - by rewrite Hc. - by rewrite Ha. }
  destruct (op_txn o) as [i|] eqn:Ho; [destruct (find_txn i s) as [x|] eqn:Hx|].
  - destruct o; simplify_eq/=.
    + erewrite Read_run by done. by apply wf_read.
    + erewrite Write_run by done. by apply wf_write.
    + erewrite Delete_run by done. apply wf_write; [by apply wf_read|].
      rewrite find_txn_put by apply wf_shards, Hwf. by rewrite decide_True.
    + erewrite Commit_run by done. case_match; [by apply wf_abort|by apply wf_commit].
    + erewrite Abort_run by done. by apply wf_abort.
  - by rewrite (Hmiss i).
  - destruct o; try done; unfold exec; [|by apply wf_gc].
    rewrite Begin_run by done. by apply wf_begin.
Qed.

Lemma wf_run s ops : wf s → wf (run s ops).
Proof. revert s; induction ops as [|o ops IH]; intros s Hwf; [done|]. apply IH, wf_exec, Hwf. Qed.

(** ** What a call leaves visible *)

Lemma chain_write i k del v x s k' :
  chain (after_write i k del v x s) k' =
    if decide (k = k') then
      match find_first (own_pending i) (chain s k) with
      | Some n => update_node n.1 (overwrite (global_ts_ s) del v) (chain s k)
      | None => chain s k ++ [(next_node s, mkVersion i (global_ts_ s) (-1) false del
                                              (if del then EmptyString else v))]
      end
    else chain s k'.
Proof. unfold after_write. by destruct (find_first _ _); apply chain_insert. Qed.

(** A call for transaction [i] keeps, in order, the versions of a chain that
    satisfy a property its own pending versions do not have. *)
Section keep.
Context (i : Z) (x : Transaction) (s : t) (Hwf : wf s) (Hx : find_txn i s = Some x).
Context (Q : iterator * Version → Prop) `{HQd : ∀ n, Decision (Q n)}.
Hypothesis HQ : ∀ n, txn_id n.2 = i → Q n → committed n.2 = true.

Lemma keep_write k del v k' :
  filter Q (chain (after_write i k del v x s) k') = filter Q (chain s k').
Proof using HQ Hwf.
  rewrite chain_write. case_decide; [subst k'|done].
  destruct (find_first _ _) as [n|] eqn:E.
  - apply find_first_Some in E as [Hn Hown].
    unfold own_pending in Hown. apply andb_true_iff in Hown as [Ei%Z.eqb_eq Hc%negb_true_iff].
    assert (∀ m, m ∈ chain s k → m.1 = n.1 → m = n) as Huniq.
    { intros m Hm Em. eapply NoDup_fst_inj; eauto. apply wf_chain, Hwf. }
    apply filter_fmap_in; intros m Hm; case_decide as Em; try done;
      rewrite (Huniq m Hm Em); intros HQn.
    + specialize (HQ n Ei HQn). congruence.
    + apply HQ in HQn; simpl in *; congruence.
  - rewrite filter_app, filter_cons_False, filter_nil, app_nil_r; [done|].
    intros HQn. by apply HQ in HQn.
Qed.

Lemma keep_abort k : filter Q (chain (after_abort i x s) k) = filter Q (chain s k).
Proof using HQ Hwf Hx.
  rewrite chain_abort by done. apply filter_filter_in.
  intros n Hn HQn [Ei Hc]. specialize (HQ n Ei HQn). congruence.
Qed.

Lemma keep_commit k :
  (∀ n, txn_id n.2 = i → Q n → commit_ts n.2 ≠ global_ts_ s) →
  filter Q (chain (after_commit i x s) k) = filter Q (chain s k).
Proof using HQ Hwf Hx.
  intros Hts. rewrite chain_commit by done. apply filter_fmap_in; intros n Hn.
  - intros HQn. rewrite decide_False; [done|]. intros [Ei Hc].
    specialize (HQ n Ei HQn). congruence.
  - case_decide as E; [|done]. intros HQn. by apply Hts in HQn; destruct E.
Qed.
End keep.

Lemma vis_above ts ts' c :
  (∀ n, n ∈ c → committed n.2 = true → commit_ts n.2 ≤ ts ∧ commit_ts n.2 ≤ ts') →
  vis ts c = vis ts' c.
Proof. intros H. apply filter_ext_in. intros n Hn. specialize (H n Hn). naive_solver. Qed.

Lemma find_txn_write i k del v x s j :
  wf s → find_txn i s = Some x →
  find_txn j (after_write i k del v x s) =
    if decide (i = j) then
      match find_first (own_pending i) (chain s k) with
      | Some _ => Some x
      | None => Some (with_write k (next_node s) x)
      end
    else find_txn j s.
Proof.
  intros Hwf Hx. unfold after_write. destruct (find_first _ _) as [n|] eqn:E.
  - case_decide; [subst|done]. done.
  - rewrite find_txn_put by apply Hwf. done.
Qed.

Lemma find_txn_abort i x s j :
  wf s → find_txn j (after_abort i x s) = if decide (i = j) then None else find_txn j s.
Proof. intros Hwf. unfold after_abort. by rewrite find_txn_erase by apply Hwf. Qed.

Lemma find_txn_commit i x s j :
  wf s → find_txn j (after_commit i x s) = if decide (i = j) then None else find_txn j s.
Proof. intros Hwf. unfold after_commit. by rewrite find_txn_erase by apply Hwf. Qed.

(** The outcome of one call, for another transaction and for its snapshot. *)
Lemma exec_other_eq s o j :
  wf s → j < next_txn_id_ s → op_txn o ≠ Some j → find_txn j (exec s o) = find_txn j s.
Proof.
  intros Hwf Hj Hne. pose proof (wf_shards _ Hwf) as Hlen.
  destruct (op_txn o) as [i|] eqn:Ho; [|destruct o; try done; unfold exec].
  2: { rewrite Begin_run by done. cbn [snd]. unfold after_begin.
       rewrite (find_txn_put (mkStore _ _ _ _ _)) by done. by rewrite decide_False by lia. }
  assert (i ≠ j) as Hij by congruence.
  destruct (find_txn i s) as [x|] eqn:Hx.
  2: { pose proof (missing_txn i s Hx) as (Hr & Hw & Hd & Hc & Ha).
       destruct o; try done; injection Ho as ->; unfold exec;
         by rewrite ?Hr, ?Hw, ?Hd, ?Hc, ?Ha. }
  destruct o; try done; injection Ho as ->; unfold exec.
  - erewrite Read_run by done. cbn [snd]. rewrite find_txn_put by done. by rewrite decide_False.
  - erewrite Write_run by done. cbn [snd]. rewrite find_txn_write by done. by rewrite decide_False.
  - erewrite Delete_run by done. cbn [snd].
    rewrite find_txn_write; [|by apply wf_read|].
    + by rewrite decide_False, find_txn_put, decide_False by done.
    + by rewrite find_txn_put, decide_True by done.
  - erewrite Commit_run by done. destruct (conflict _ _ _); cbn [snd];
      rewrite ?find_txn_abort, ?find_txn_commit by done; by rewrite decide_False.
  - erewrite Abort_run by done. cbn [snd]. rewrite find_txn_abort by done. by rewrite decide_False.
Qed.

Lemma exec_other s o j y :
  wf s → find_txn j s = Some y → op_txn o ≠ Some j → find_txn j (exec s o) = Some y.
Proof.
  intros Hwf Hy Hne. rewrite exec_other_eq; [done..| |done].
  apply (wf_txn _ Hwf _ _ Hy).
Qed.

(** Any call but a collection keeps the versions with a property [Q] that no
    version touched by the call's transaction has. *)
Lemma exec_keep s o k (Q : iterator * Version → Prop) `{HQd : ∀ n, Decision (Q n)} :
  wf s → o ≠ Op_GC →
  (∀ i n, op_txn o = Some i → txn_id n.2 = i → Q n → committed n.2 = true ∧ commit_ts n.2 ≠ global_ts_ s) →
  filter Q (chain (exec s o) k) = filter Q (chain s k).
Proof.
  intros Hwf Hgc HQ.
  destruct (op_txn o) as [i|] eqn:Ho; [|destruct o; try done; unfold exec; by rewrite Begin_run].
  destruct (find_txn i s) as [x|] eqn:Hx.
  2: { pose proof (missing_txn i s Hx) as (Hr & Hw & Hd & Hc & Ha).
       destruct o; try done; injection Ho as ->; unfold exec;
         by rewrite ?Hr, ?Hw, ?Hd, ?Hc, ?Ha. }
  assert (∀ n, txn_id n.2 = i → Q n → committed n.2 = true) as HQc by (intros; by eapply HQ).
  destruct o; try done; injection Ho as ->; unfold exec.
  - by erewrite Read_run.
  - erewrite Write_run by done. by apply keep_write.
  - erewrite Delete_run by done. cbn [snd]. rewrite keep_write; [done|by apply wf_read|done].
  - erewrite Commit_run by done. destruct (conflict _ _ _); cbn [snd].
    + by apply keep_abort.
    + apply keep_commit; try done. intros; by eapply HQ.
  - erewrite Abort_run by done. by apply keep_abort.
Qed.

(** A snapshot in use survives every call. *)
Lemma exec_snapshot s o j y k :
  wf s → find_txn j s = Some y → snapshot (exec s o) (start_ts y) k = snapshot s (start_ts y) k.
Proof.
  intros Hwf Hy. unfold snapshot.
  assert (start_ts y < global_ts_ s) as Hts by apply (wf_txn _ Hwf _ _ Hy).
  assert (o = Op_GC ∨ o ≠ Op_GC) as [->|Hgc] by (destruct o; auto).
  - unfold exec. rewrite chain_gc. apply (gc_chain_snap s k); [apply wf_chain, Hwf|]. left.
    apply elem_of_active_starts; eauto.
  - unfold snap_at, vis. rewrite exec_keep; [done..|]. intros i n _ _ [? ?]. split; [done|lia].
Qed.

(** Another transaction's calls, and collections, leave [j]'s pending versions. *)
Lemma exec_pending s o j k :
  wf s → op_txn o ≠ Some j →
  filter (pending_of j) (chain (exec s o) k) = filter (pending_of j) (chain s k).
Proof.
  intros Hwf Hne. assert (o = Op_GC ∨ o ≠ Op_GC) as [->|Hgc] by (destruct o; auto).
  - unfold exec. rewrite chain_gc. unfold gc_chain. rewrite fold_erase_nodes.
    apply filter_filter_in. intros n Hn [_ Hc].
    intros (a & b & Ha & _ & E & _ & Hca & _)%elem_of_victims; [|apply wf_chain, Hwf].
    assert (a = n) as ->; [|congruence]. eapply NoDup_fst_inj; eauto. apply wf_chain, Hwf.
  - apply exec_keep; [done..|]. intros i n Hi <- [<- _]. congruence.
Qed.

Lemma run_other s ops j y :
  wf s → find_txn j s = Some y → Forall (λ o, op_txn o ≠ Some j) ops →
  find_txn j (run s ops) = Some y ∧
  ∀ k, snapshot (run s ops) (start_ts y) k = snapshot s (start_ts y) k ∧
       filter (pending_of j) (chain (run s ops) k) = filter (pending_of j) (chain s k).
Proof.
  intros Hwf Hy Hops. revert s Hwf Hy. induction Hops as [|o ops Ho Hops IH]; intros s Hwf Hy; [done|].
  destruct (IH (exec s o)) as [Hf Hs]; [by apply wf_exec|by apply exec_other|].
  split; [done|]. intros k. rewrite <-(exec_snapshot s o j), <-(exec_pending s o j) by done.
  apply Hs.
Qed.

(** ** Reads *)

Definition snapshot_level (l : IsolationLevel) : Prop :=
  l = SNAPSHOT ∨ l = SERIALIZABLE_SNAPSHOT.

Lemma find_first_app {A} (f : A → bool) l l' :
  find_first f (l ++ l') = match find_first f l with Some x => Some x | None => find_first f l' end.
Proof. induction l as [|x l IH]; simpl; [done|]. by destruct (f x). Qed.

Lemma find_own_head i (c : VersionChain) :
  find_first (own_pending i) c = head (filter (pending_of i) c).
Proof.
  induction c as [|n c IH]; simpl; [done|]. rewrite filter_cons, IH.
  unfold own_pending at 1. case_decide as E.
  - destruct E as [-> ->]. by rewrite Z.eqb_refl.
  - destruct (txn_id n.2 =? i) eqn:E1, (committed n.2) eqn:E2; simpl; try done.
    destruct E. split; [lia|done].
Qed.

(** The committed-version scan of [Read] as a filter. *)
Lemma read_chain_committed i x c :
  find_first (own_pending i) c = None → isolation x ≠ READ_UNCOMMITTED →
  read_chain i x c = live_value (fold_best by_commit_ts
    (filter (λ n, committed n.2 = true ∧ IsVisible n.2 (isolation x) (start_ts x) = true) c)).
Proof.
  intros Hown Hiso. unfold read_chain. rewrite Hown, decide_False by done. f_equal.
  apply fold_left_skip.
  - intros b n _ [-> ->]. done.
  - intros b n _ Hn. destruct (committed n.2); [|done]. simpl.
    destruct (IsVisible _ _ _); [|done]. tauto.
Qed.

Lemma read_chain_snapshot i x c :
  snapshot_level (isolation x) →
  read_chain i x c = match head (filter (pending_of i) c) with
                     | Some n => live_value (Some n)
                     | None => snap_at (start_ts x) c
                     end.
Proof.
  intros Hl. rewrite <-find_own_head. destruct (find_first _ _) as [n|] eqn:Hown.
  { unfold read_chain. by rewrite Hown. }
  rewrite read_chain_committed; [|done|destruct Hl as [-> | ->]; done].
  unfold snap_at. do 2 f_equal. apply list_filter_iff. intros n.
  destruct Hl as [-> | ->]; simpl; rewrite Z.leb_le; done.
Qed.

Lemma read_chain_RC i x s k :
  wf s → isolation x = READ_COMMITTED → find_first (own_pending i) (chain s k) = None →
  read_chain i x (chain s k) = latest s k.
Proof.
  intros Hwf Hl Hown. rewrite read_chain_committed by (done || by rewrite Hl).
  unfold latest, snapshot, snap_at. do 2 f_equal. apply filter_ext_in. intros n Hn.
  rewrite Hl. simpl. split; [|naive_solver]. intros [Hc _]. split; [done|].
  pose proof (cw_commit _ _ _ (wf_chain _ Hwf k) n Hn Hc). lia.
Qed.

(** ** Commit *)

Lemma elem_of_unique l k : k ∈ unique l ↔ k ∈ l.
Proof.
  induction l as [|x [|y l] IH]; [done..|]. simpl in *. destruct (x =? y) eqn:E.
  - rewrite IH. apply Z.eqb_eq in E. set_solver.
  - rewrite elem_of_cons, IH. set_solver.
Qed.

Lemma elem_of_check_keys x k :
  k ∈ check_keys x ↔ k ∈ write_set x ∨ isolation x = SERIALIZABLE_SNAPSHOT ∧ k ∈ read_set x.
Proof.
  unfold check_keys. rewrite elem_of_unique, merge_sort_Permutation, elem_of_app, elem_of_elements.
  case_decide; [rewrite elem_of_elements|]; set_solver.
Qed.

Lemma conflict_in_spec i x s chains :
  wf s → find_txn i s = Some x →
  conflict_in i x chains s = true ↔
  ∃ k n, k ∈ chains ∧ n ∈ chain s k ∧ committed n.2 = true ∧ start_ts x < commit_ts n.2.
Proof.
  intros Hwf Hx. unfold conflict_in. rewrite existsb_exists. split.
  - intros (k & Hk%list_elem_of_In & (n & Hn%list_elem_of_In & Hcf)%existsb_exists). exists k, n.
    unfold conflicting in Hcf. destruct (committed n.2), (_ =? _); try done. simpl in *.
    split_and!; try done. lia.
  - intros (k & n & Hk & Hn & Hc & Hts). exists k. split; [by apply list_elem_of_In|].
    apply existsb_exists. exists n. split; [by apply list_elem_of_In|]. unfold conflicting.
    assert (txn_id n.2 ≠ i) by (intros Ei; pose proof (active_pending s i x k n Hwf Hx Hn Ei); congruence).
    rewrite Hc. simpl. apply andb_true_iff. split; [|lia]. apply negb_true_iff. lia.
Qed.

Lemma conflict_spec i x s :
  wf s → find_txn i s = Some x →
  conflict i x s = true ↔
  ∃ k n, k ∈ check_keys x ∧ n ∈ chain s k ∧ committed n.2 = true ∧ start_ts x < commit_ts n.2.
Proof.
  intros Hwf Hx. unfold conflict. rewrite conflict_in_spec by done.
  setoid_rewrite list_elem_of_filter. split; [naive_solver|].
  intros (k & n & Hk & Hn & Hc). exists k, n. split_and!; try done; [|apply Hc..].
  unfold chain in Hn. destruct (table_ s !! k); [done|]. by apply not_elem_of_nil in Hn.
Qed.

Lemma no_conflict_snapshot i x s k :
  wf s → find_txn i s = Some x → conflict i x s = false → k ∈ check_keys x →
  snapshot s (start_ts x) k = latest s k.
Proof.
  intros Hwf Hx Hnc Hk. unfold latest, snapshot, snap_at. do 2 f_equal.
  apply vis_above. intros n Hn Hc. split.
  - apply Z.le_ngt. intros Hlt. rewrite <-not_true_iff_false in Hnc. apply Hnc, conflict_spec; eauto 10.
  - pose proof (cw_commit _ _ _ (wf_chain _ Hwf k) n Hn Hc). lia.
Qed.

(** What transaction [i] has written to [k], not yet committed. *)
Definition pending_write (s : t) (i : Z) (k : KeyType) : option (option string) :=
  (λ n, live_value (Some n)) <$> find_first (own_pending i) (chain s k).

Lemma latest_commit i x s k :
  wf s → find_txn i s = Some x →
  latest (after_commit i x s) k = default (latest s k) (pending_write s i k).
Proof.
  intros Hwf Hx. unfold latest, snapshot, pending_write.
  change (global_ts_ (after_commit i x s)) with (global_ts_ s + 1).
  assert (∀ m, m ∈ chain s k → committed m.2 = true → commit_ts m.2 < global_ts_ s) as Hlt.
  { intros m Hm Hc. by apply (cw_commit _ _ _ (wf_chain _ Hwf k) m Hm Hc). }
  pose proof (chain_commit i x s k Hwf Hx) as Hch.
  destruct (find_first _ _) as [n|] eqn:Hown; simpl.
  - apply find_first_Some in Hown as [Hn Hown].
    unfold own_pending in Hown. apply andb_true_iff in Hown as [Ei%Z.eqb_eq Hc%negb_true_iff].
    rewrite (snap_at_max _ _ (n.1, commit_version (global_ts_ s) n.2)); [done|..]; rewrite Hch.
    + apply elem_of_vis. simpl. split; [|split; [done|lia]]. apply list_elem_of_fmap.
      exists n. by rewrite decide_True.
    + intros m (Hm & Hmc & _)%elem_of_vis. apply list_elem_of_fmap in Hm as (m0 & -> & Hm0).
      case_decide as E; simpl; [left|right; by apply Hlt].
      by rewrite (own_unique s i x k m0 n Hwf Hx Hm0 Hn (proj1 E) Ei).
  - rewrite Hch, fmap_id_in.
    + unfold snap_at. do 2 f_equal. apply vis_above. intros m Hm Hmc. specialize (Hlt m Hm Hmc). lia.
    + intros m Hm. rewrite decide_False; [done|]. intros [Ei Hc].
      rewrite find_first_None in Hown. specialize (Hown m Hm). unfold own_pending in Hown.
      rewrite Ei, Hc, Z.eqb_refl in Hown. done.
Qed.

Lemma latest_abort i x s k :
  wf s → find_txn i s = Some x → latest (after_abort i x s) k = latest s k.
Proof.
  intros Hwf Hx. unfold latest, snapshot, snap_at, vis. by rewrite keep_abort by naive_solver.
Qed.

(** ** Observations of a run

    The reads of a run that were not answered from the reader's own pending
    write, with their results. *)
Abbreviation obs := (gmap Z (list (KeyType * option string))) (only parsing).

Definition observe (s : t) (o : op) (g : obs) : obs :=
  match o with
  | Op_Read i k | Op_Delete i k =>
    match find_txn i s, pending_write s i k with
    | Some x, None => <[i := (k, read_chain i x (chain s k)) :: default [] (g !! i)]> g
    | _, _ => g
    end
  | _ => g
  end.

Definition run_obs (s : t) (g : obs) (ops : list op) : t * obs :=
  fold_left (λ p o, (exec p.1 o, observe p.1 o p.2)) ops (s, g).

Definition obs_wf (s : t) (g : obs) : Prop :=
  (∀ i, next_txn_id_ s ≤ i → g !! i = None) ∧
  ∀ i x k r, find_txn i s = Some x → snapshot_level (isolation x) → (k, r) ∈ default [] (g !! i) →
    k ∈ read_set x ∧ r = snapshot s (start_ts x) k.

Lemma wf_bounds_exec s o : wf s → next_txn_id_ s ≤ next_txn_id_ (exec s o).
Proof.
  intros Hwf. destruct (op_txn o) as [i|] eqn:Ho.
  2: { destruct o; try done; unfold exec. rewrite Begin_run by done. simpl. lia. }
  destruct (find_txn i s) as [x|] eqn:Hx.
  2: { pose proof (missing_txn i s Hx) as (Hr & Hw & Hd & Hc & Ha).
       destruct o; try done; injection Ho as ->; unfold exec;
         by rewrite ?Hr, ?Hw, ?Hd, ?Hc, ?Ha. }
  destruct o; try done; injection Ho as ->; unfold exec.
  - by erewrite Read_run.
  - erewrite Write_run by done. cbn [snd]. unfold after_write. by case_match.
  - erewrite Delete_run by done. cbn [snd]. unfold after_write. by case_match.
  - erewrite Commit_run by done. by case_match.
  - by erewrite Abort_run.
Qed.

(** A transaction keeps its level and start; its read set only grows, and a
    [Read] or [Delete] adds its key. *)
Lemma exec_own s o i y :
  wf s → find_txn i (exec s o) = Some y → i < next_txn_id_ s →
  ∃ x, find_txn i s = Some x ∧ isolation y = isolation x ∧ start_ts y = start_ts x ∧
    read_set x ⊆ read_set y ∧
    (∀ k, o = Op_Read i k ∨ o = Op_Delete i k → k ∈ read_set y).
Proof.
  intros Hwf Hy Hlt. destruct (find_txn i s) as [x|] eqn:Hx.
  - exists x. split; [done|]. destruct (decide (op_txn o = Some i)) as [Ho|Ho].
    2: { rewrite (exec_other s o i x) in Hy by done. injection Hy as <-.
         split_and!; try done. intros k [-> | ->]; done. }
    destruct o; try done; injection Ho as ->; unfold exec in Hy.
    + erewrite Read_run in Hy by done. cbn [snd] in Hy. rewrite find_txn_put in Hy by apply Hwf.
      rewrite decide_True in Hy by done. injection Hy as <-. simpl.
      split_and!; try done; [set_solver|]. intros ? [[=]|?]; [subst; set_solver|done].
    + erewrite Write_run in Hy by done. cbn [snd] in Hy. rewrite find_txn_write in Hy by done.
      rewrite decide_True in Hy by done.
      case_match; injection Hy as <-; split_and!; try done; intros ? [?|?]; done.
    + erewrite Delete_run in Hy by done. cbn [snd] in Hy.
      rewrite find_txn_write in Hy; [|by apply wf_read|].
      2: { rewrite find_txn_put by apply Hwf. by rewrite decide_True. }
      rewrite decide_True in Hy by done.
      case_match; injection Hy as <-; simpl; split_and!; try done; set_solver.
    + erewrite Commit_run in Hy by done.
      destruct (conflict _ _ _); cbn [snd] in Hy;
        rewrite ?find_txn_abort, ?find_txn_commit in Hy by done; by rewrite decide_True in Hy.
    + erewrite Abort_run in Hy by done. cbn [snd] in Hy. rewrite find_txn_abort in Hy by done.
      by rewrite decide_True in Hy.
  - exfalso. destruct (decide (op_txn o = Some i)) as [Ho|Ho].
    + pose proof (missing_txn i s Hx) as (Hr & Hw & Hd & Hc & Ha).
      destruct o; try done; injection Ho as ->; unfold exec in Hy;
        rewrite ?Hr, ?Hw, ?Hd, ?Hc, ?Ha in Hy; cbn [snd] in Hy; congruence.
    + rewrite exec_other_eq in Hy by done. congruence.
Qed.

Lemma observe_fresh s o g i :
  wf s → next_txn_id_ s ≤ i → g !! i = None → observe s o g !! i = None.
Proof.
  intros Hwf Hi Hg. destruct o; simpl; try done; repeat case_match; try done;
    (rewrite lookup_insert_ne; [done|]; intros ->;
     match goal with H : find_txn _ _ = Some _ |- _ =>
       pose proof (tw_id _ _ _ (wf_txn _ Hwf _ _ H)) end; lia).
Qed.

Lemma obs_wf_exec s o g : wf s → obs_wf s g → obs_wf (exec s o) (observe s o g).
Proof.
  intros Hwf [Hfresh Hobs]. split.
  - intros i Hi. pose proof (wf_bounds_exec s o Hwf).
    apply observe_fresh; [done|lia|]. apply Hfresh. lia.
  - intros i y k r Hy Hl Hin. destruct (decide (i < next_txn_id_ s)) as [Hlt|Hge].
    2: { exfalso. rewrite observe_fresh in Hin; [|done|lia|apply Hfresh; lia].
         by apply not_elem_of_nil in Hin. }
    destruct (exec_own s o i y Hwf Hy Hlt) as (x & Hx & El & Et & Hsub & Hkey).
    rewrite Et, (exec_snapshot s o i x) by done. rewrite El in Hl.
    assert ((k, r) ∈ default [] (g !! i) ∨
            (o = Op_Read i k ∨ o = Op_Delete i k) ∧ pending_write s i k = None ∧
            r = read_chain i x (chain s k)) as [Hold|(Ho & Hp & ->)].
    { revert Hin. destruct o; simpl; try (by left); repeat case_match; try (by left);
        rewrite lookup_insert; (case_decide; [subst|by left]); simpl;
        (intros [[= -> ->]|?]%elem_of_cons; [right|by left]); simplify_eq; eauto. }
    + destruct (Hobs i x k r) as [? ->]; try done. set_solver.
    + split; [by apply Hkey|]. rewrite read_chain_snapshot by done.
      unfold pending_write in Hp. rewrite find_own_head in Hp.
      destruct (head _); [done|]. done.
Qed.

Lemma obs_wf_run s g ops : wf s → obs_wf s g → obs_wf (run_obs s g ops).1 (run_obs s g ops).2 ∧ wf (run_obs s g ops).1.
Proof.
  unfold run_obs. revert s g. induction ops as [|o ops IH]; intros s g Hwf Hg; [done|]. simpl.
  apply IH; [by apply wf_exec|by apply obs_wf_exec].
Qed.

(** ** The collector is exact *)

Lemma reclaim_intro starts l1 a b l2 :
  needed starts (commit_ts a.2) (commit_ts b.2) = false →
  a.1 ∈ reclaim starts (l1 ++ a :: b :: l2).
Proof.
  intros Hn. induction l1 as [|x l1 IH]; simpl.
  - rewrite Hn. set_solver.
  - destruct l1 as [|y l1]; simpl in *; apply elem_of_app; by right.
Qed.

Lemma needed_spec starts lo hi :
  needed starts lo hi = true ↔ ∃ ts, ts ∈ starts ∧ lo ≤ ts < hi.
Proof.
  unfold needed. rewrite existsb_exists. split.
  - intros (ts & Hts%list_elem_of_In & ?). exists ts. split; [done|lia].
  - intros (ts & ? & ?). exists ts. split; [by apply list_elem_of_In|lia].
Qed.

(** [n] is the version of its chain that a snapshot at [ts] resolves to. *)
Definition resolves (c : VersionChain) (ts : Z) (n : iterator * Version) : Prop :=
  commit_ts n.2 ≤ ts ∧ ∀ m, m ∈ c → committed m.2 = true →
    commit_ts m.2 ≤ commit_ts n.2 ∨ ts < commit_ts m.2.

Lemma victims_spec s k c starts n :
  chain_wf s k c → n ∈ c → committed n.2 = true →
  (n.1 ∉ gc_victims starts c) ↔
  (∀ m, m ∈ c → committed m.2 = true → commit_ts m.2 ≤ commit_ts n.2) ∨
  ∃ ts, ts ∈ starts ∧ resolves c ts n.
Proof.
  intros Hc Hn Hcom. split.
  - intros Hnv. set (cs := filter (λ n, committed n.2 = true) c).
    assert (∀ m, m ∈ cs ↔ committed m.2 = true ∧ m ∈ c) as Hcs.
    { intros m. unfold cs. by rewrite list_elem_of_filter. }
    assert (n ∈ merge_sort commit_ts_le cs) as Hin.
    { rewrite merge_sort_Permutation. by apply Hcs. }
    apply list_elem_of_split in Hin as (l1 & l2 & E).
    pose proof (StronglySorted_merge_sort commit_ts_le cs) as Hs. rewrite E in Hs.
    assert (∀ m, m ∈ c → committed m.2 = true → m ∈ l1 ++ n :: l2) as Hall.
    { intros m Hm Hmc. rewrite <-E, merge_sort_Permutation. by apply Hcs. }
    destruct l2 as [|b l2].
    { left. intros m Hm Hmc. specialize (Hall m Hm Hmc).
      apply elem_of_snoc in Hall as [Hm1| ->]; [|done].
      eapply (StronglySorted_app_1_elem_of commit_ts_le); [exact Hs|done|set_solver]. }
    right. destruct (needed starts (commit_ts n.2) (commit_ts b.2)) eqn:Hneed.
    + apply needed_spec in Hneed as (ts & Hts & Hr). exists ts. split; [done|]. split; [lia|].
      intros m Hm Hmc. specialize (Hall m Hm Hmc).
      apply elem_of_app in Hall as [Hm1|[-> |Hm2]%elem_of_cons].
      * left. eapply (StronglySorted_app_1_elem_of commit_ts_le); [exact Hs|done|set_solver].
      * left. done.
      * right. apply StronglySorted_app_1_r in Hs. apply StronglySorted_inv in Hs as [Hs _].
        apply StronglySorted_inv in Hs as [_ Hs]. apply elem_of_cons in Hm2 as [->|Hm2]; [lia|].
        rewrite Forall_forall in Hs. specialize (Hs m Hm2). unfold commit_ts_le in Hs. lia.
    + exfalso. apply Hnv. unfold gc_victims. fold cs.
      assert (length cs = length (l1 ++ n :: b :: l2)) as Hlen.
      { rewrite <-E. by rewrite merge_sort_Permutation. }
      rewrite length_app in Hlen. simpl in Hlen.
      assert (length cs ≤ length c)%nat by apply length_filter.
      rewrite !(proj2 (Nat.leb_gt _ _)) by lia. rewrite E. by apply reclaim_intro.
  - intros Hor (a & b & Ha & Hb & E & Hne & Hca & Hcb & Hab & Hst)%elem_of_victims; [|apply Hc].
    assert (a = n) as -> by (eapply NoDup_fst_inj; eauto using cw_nodup).
    assert (commit_ts n.2 ≠ commit_ts b.2).
    { intros Et. by apply Hne, (cw_commit_inj _ _ _ Hc). }
    destruct Hor as [Hmax|(ts & Hts & ? & Hr)].
    + specialize (Hmax b Hb Hcb). lia.
    + specialize (Hst ts Hts). destruct (Hr b Hb Hcb); lia.
Qed.
