(* ===== verification/MvccProps.v ===== *)
(** * MVCC: the properties of the store

    Every state is one reached from the empty store by an arbitrary sequence of
    calls of arbitrary transactions. *)

From S2P Require Import Prelude Mvcc MvccTheory.
Import MVCCStore.

(** A committed version of a key the commit checks is newer than the
    transaction's snapshot. *)
Definition has_conflict (s : t) (x : Transaction) : Prop :=
  ∃ k n, (k ∈ write_set x ∨ isolation x = SERIALIZABLE_SNAPSHOT ∧ k ∈ read_set x) ∧
    n ∈ chain s k ∧ committed n.2 = true ∧ start_ts x < commit_ts n.2.

(** What a read of [k] by the active transaction [i] may answer: its own
    pending version if it has one, and otherwise the newest, by [age], of the
    versions its level lets it see. *)
Definition contents (n : iterator * Version) : option string :=
  if deleted n.2 then None else Some (value n.2).

Definition newest (P : Version → Prop) (age : Version → Z) (c : VersionChain) (r : option string) : Prop :=
  r = None ∧ (∀ n, n ∈ c → ¬ P n.2) ∨
  ∃ n, n ∈ c ∧ P n.2 ∧ (∀ m, m ∈ c → P m.2 → age m.2 ≤ age n.2) ∧ r = contents n.

Definition read_answer (s : t) (i : Z) (x : Transaction) (k : KeyType) (r : option string) : Prop :=
  let own n := txn_id n.2 = i ∧ committed n.2 = false in
  (∃ n, n ∈ chain s k ∧ own n ∧ r = contents n) ∨
  (∀ n, n ∈ chain s k → ¬ own n) ∧
  match isolation x with
  | READ_UNCOMMITTED => newest (λ _, True) seq (chain s k) r
  | READ_COMMITTED => newest (λ v, committed v = true) commit_ts (chain s k) r
  | SNAPSHOT | SERIALIZABLE_SNAPSHOT =>
      newest (λ v, committed v = true ∧ commit_ts v ≤ start_ts x) commit_ts (chain s k) r
  end.

Lemma newest_filter (P : Version → Prop) (Q : iterator * Version → Prop) `{HQd : ∀ n, Decision (Q n)} age (c : VersionChain) :
  (∀ n, Q n ↔ P n.2) → newest P age c (live_value (fold_best (λ v b, age b.2 <? age v.2) (filter Q c))).
Proof.
  intros HQ. destruct (fold_best _ _) as [n|] eqn:E.
  - apply (fold_best_Some (λ n, age n.2)) in E as [[Hq Hn]%list_elem_of_filter Hmax]. right. exists n.
    split_and!; [done|by apply HQ| |done]. intros m Hm HP. apply Hmax, list_elem_of_filter. by rewrite HQ.
  - apply (fold_best_None (λ n, age n.2)) in E. left. split; [done|]. intros n Hn HP.
    assert (n ∈ filter Q c) as Hf by (apply list_elem_of_filter; by rewrite HQ). rewrite E in Hf. set_solver.
Qed.

(** C25: every state the store can reach is well formed: list nodes of a chain
    are distinct, commit timestamps of a chain are distinct and in the past,
    every pending version belongs to exactly one write record of an active
    transaction, the write set lists the written keys, and each transaction
    lies in its own shard. *)
Theorem mvcc_invariant ops : wf (run init ops).
Proof. apply wf_run, wf_init. Qed.

(** C24: a read answers the transaction's own pending write if it has one, and
    otherwise, of the versions of the key, the one written last by anyone
    (READ_UNCOMMITTED), the one committed last (READ_COMMITTED), or the one
    committed last among those committed when the transaction began (both
    snapshot levels), a deleted one reading as absent: no dirty read above
    READ_UNCOMMITTED. *)
Theorem mvcc_read_spec ops i x k :
  find_txn i (run init ops) = Some x →
  ∃ r, (Read i k (run init ops)).1 = Val r ∧ read_answer (run init ops) i x k r.
Proof.
  intros Hx. rewrite (Read_run _ _ _ x) by done. eexists. split; [done|]. unfold read_answer.
  destruct (find_first (own_pending i) (chain (run init ops) k)) as [n|] eqn:Hown.
  { left. unfold read_chain. rewrite Hown. apply find_first_Some in Hown as [Hn Ho]. exists n.
    unfold own_pending in Ho. apply andb_true_iff in Ho as [?%Z.eqb_eq ?%negb_true_iff]. done. }
  right. split.
  { rewrite find_first_None in Hown. intros n Hn [<- Hc]. specialize (Hown n Hn). unfold own_pending in Hown.
    by rewrite Z.eqb_refl, Hc in Hown. }
  destruct (isolation x) eqn:El; [|rewrite read_chain_committed, El by (done || by rewrite El)..].
  - unfold read_chain. rewrite Hown, El, decide_True by done.
    rewrite <-(filter_all (λ _, True) (chain _ k)) at 2 by done. by apply newest_filter.
  - apply newest_filter. simpl. naive_solver.
  - apply newest_filter. intros n. simpl. by rewrite Z.leb_le.
  - apply newest_filter. intros n. simpl. by rewrite Z.leb_le.
Qed.

Lemma mvcc_read_spec_witness :
  let s := run init [Op_Begin SNAPSHOT; Op_Write 0 7 "a"; Op_Begin READ_COMMITTED] in
  let x := mkTransaction READ_COMMITTED 2 [] ∅ ∅ in
  (Read 1 7 s).1 = Val None ∧ read_answer s 1 x 7 None.
Proof.
  intros s x. destruct (mvcc_read_spec [Op_Begin SNAPSHOT; Op_Write 0 7 "a"; Op_Begin READ_COMMITTED] 1 x 7)
    as (r & E & H); [vm_compute; reflexivity|].
  assert (r = None) as -> by (vm_compute in E; congruence). exact (conj E H).
Defined.

(** C8: repeatable reads: a transaction at a snapshot level reads the same
    value before and after any sequence of calls of other transactions (their
    begins, writes, deletes, commits and aborts) and garbage collections. *)
Theorem mvcc_repeatable_read ops0 ops i x k :
  find_txn i (run init ops0) = Some x → snapshot_level (isolation x) →
  Forall (λ o, op_txn o ≠ Some i) ops →
  (Read i k (run (run init ops0) ops)).1 = (Read i k (run init ops0)).1.
Proof.
  intros Hx Hl Hops. pose proof (wf_run init ops0 wf_init) as Hwf.
  destruct (run_other _ ops i x Hwf Hx Hops) as [Hx' Hk]. destruct (Hk k) as [Hs Hp].
  rewrite (Read_run _ _ _ x Hx), (Read_run _ _ _ x Hx'). simpl. f_equal.
  rewrite !read_chain_snapshot by done. rewrite Hp. unfold snapshot in Hs. by rewrite Hs.
Qed.

Lemma mvcc_repeatable_read_witness :
  (Read 1 7 (run (run init [Op_Begin SNAPSHOT; Op_Write 0 7 "a"; Op_Commit 0; Op_Begin SNAPSHOT])
     [Op_Begin SNAPSHOT; Op_Write 2 7 "b"; Op_Commit 2; Op_GC])).1 = Val (Some "a"%string).
Proof.
  etransitivity.
  - eapply (mvcc_repeatable_read _ _ 1 _ 7); [vm_compute; reflexivity|by left|].
    repeat constructor; discriminate.
  - vm_compute. reflexivity.
Defined.

(** C13: first committer wins: [Commit] fails exactly when some key the
    transaction wrote (or, at SERIALIZABLE_SNAPSHOT, read) has a version
    committed after it began; a failed commit leaves the committed database as
    it was and no version of the transaction behind, a successful one installs
    exactly its pending writes. *)
Theorem mvcc_commit_spec ops i x :
  find_txn i (run init ops) = Some x →
  let s := run init ops in
  (has_conflict s x ∧ (Commit i s).1 = Val false ∧
     (∀ k, latest (Commit i s).2 k = latest s k) ∧
     (∀ k n, n ∈ chain (Commit i s).2 k → txn_id n.2 ≠ i)) ∨
  (¬ has_conflict s x ∧ (Commit i s).1 = Val true ∧
     ∀ k, latest (Commit i s).2 k = default (latest s k) (pending_write s i k)).
Proof.
  intros Hx s. assert (wf s) as Hwf by apply wf_run, wf_init.
  assert (has_conflict s x ↔ conflict i x s = true) as Hc.
  { rewrite conflict_spec by done. unfold has_conflict.
    split; intros (k & n & Hk & H); exists k, n; split; try done; by apply elem_of_check_keys. }
  rewrite (Commit_run i s x) by done. rewrite Hc. destruct (conflict i x s).
  - left. split_and!; try done.
    + intros k. by apply latest_abort.
    + intros k n. cbn [snd]. rewrite chain_abort, list_elem_of_filter by done.
      intros [Hn Hin] Ei. apply Hn. split; [done|]. by eapply active_pending.
  - right. split_and!; try done. intros k. by apply latest_commit.
Qed.

Lemma mvcc_commit_spec_witness :
  let s := run init [Op_Begin SNAPSHOT; Op_Begin SNAPSHOT; Op_Write 0 7 "a"; Op_Write 1 7 "b"; Op_Commit 0] in
  (Commit 1 s).1 = Val false ∧ latest (Commit 1 s).2 7 = Some "a"%string.
Proof.
  edestruct (mvcc_commit_spec [Op_Begin SNAPSHOT; Op_Begin SNAPSHOT; Op_Write 0 7 "a";
    Op_Write 1 7 "b"; Op_Commit 0] 1) as [(_ & E & H & _)|(_ & E & _)].
  - vm_compute. reflexivity.
  - split; [exact E|]. rewrite H. vm_compute. reflexivity.
  - vm_compute in E. discriminate E.
Defined.

(** C6: serializability at SERIALIZABLE_SNAPSHOT: whatever a transaction read
    during its life (other than its own writes) is, if its commit succeeds, the
    committed database at the commit, so that it might as well have run, reads
    and writes together, at that instant. *)
Theorem mvcc_serializable ops i x k r :
  find_txn i (run_obs init ∅ ops).1 = Some x → isolation x = SERIALIZABLE_SNAPSHOT →
  (Commit i (run_obs init ∅ ops).1).1 = Val true →
  (k, r) ∈ default [] ((run_obs init ∅ ops).2 !! i) →
  r = latest (run_obs init ∅ ops).1 k.
Proof.
  destruct (obs_wf_run init ∅ ops wf_init) as [[Hfresh Hobs] Hwf].
  { split; [done|]. intros i' x' k' r' _ _ Hin. rewrite lookup_empty in Hin.
    by apply not_elem_of_nil in Hin. }
  destruct (run_obs init ∅ ops) as [s g]; simpl in *.
  intros Hx Hl Hcm Hin. destruct (Hobs i x k r) as [Hk ->]; [done|by right|done|].
  apply (no_conflict_snapshot i); [done..| |].
  - rewrite (Commit_run i s x) in Hcm by done. by destruct (conflict i x s).
  - apply elem_of_check_keys. by right.
Qed.

Lemma mvcc_serializable_witness :
  Some "a"%string = latest (run_obs init ∅ [Op_Begin SNAPSHOT; Op_Write 0 7 "a"; Op_Commit 0;
    Op_Begin SERIALIZABLE_SNAPSHOT; Op_Read 1 7; Op_Write 1 8 "b"]).1 7.
Proof.
  eapply (mvcc_serializable _ 1 _ 7).
  - vm_compute. reflexivity.
  - reflexivity.
  - vm_compute. reflexivity.
  - vm_compute. apply elem_of_cons. left. reflexivity.
Defined.

(** C14: garbage collection removes exactly the committed versions that are
    neither the newest committed version of their key nor the one some active
    transaction's snapshot resolves to; the committed database is unchanged. *)
Theorem mvcc_gc_exact ops k :
  let s := run init ops in
  let s' := (RunGarbageCollection s).2 in
  (∀ n, n ∈ chain s k →
    (n ∈ chain s' k ↔
     committed n.2 = false ∨
     (∀ m, m ∈ chain s k → committed m.2 = true → commit_ts m.2 ≤ commit_ts n.2) ∨
     ∃ i x, find_txn i s = Some x ∧ resolves (chain s k) (start_ts x) n)) ∧
  latest s' k = latest s k.
Proof.
  intros s s'. assert (wf s) as Hwf by apply wf_run, wf_init. pose proof (wf_chain _ Hwf k) as Hc.
  split.
  - intros n Hn. unfold s'. rewrite chain_gc. unfold gc_chain. rewrite fold_erase_nodes.
    rewrite list_elem_of_filter. destruct (committed n.2) eqn:Hcom.
    + rewrite (victims_spec s k) by done. setoid_rewrite (elem_of_active_starts s _ Hwf).
      naive_solver.
    + split; [by left|]. intros _. split; [|done].
      intros (a & b & Ha & _ & E & _ & Hca & _)%elem_of_victims; [|apply Hc].
      assert (a = n) as ->; [|congruence]. eapply NoDup_fst_inj; eauto using cw_nodup.
  - unfold latest, snapshot, s'. rewrite chain_gc. apply (gc_chain_snap s k); [done|]. right.
    intros n Hn Hcom. pose proof (cw_commit _ _ _ Hc n Hn Hcom). simpl. lia.
Qed.

(** ** Races

    Calls of different transactions run concurrently; the sections of [Begin],
    [Commit] and [RunGarbageCollection] are what may come between them. *)














Section collector.
Context (level : IsolationLevel) (k : KeyType) (w : string) (s : t) (Hwf : wf s) (Hl : snapshot_level level).
Let i := next_txn_id_ s.
Let x := mkTransaction level (global_ts_ s) [] ∅ ∅.





End collector.



Section committer.
Context (i : Z) (x : Transaction) (k : KeyType) (w : string) (s : t) (Hwf : wf s) (Hx : find_txn i s = Some x).
Context (Hser : isolation x = SERIALIZABLE_SNAPSHOT) (Hk : table_ s !! k = None).





End committer.


