(* ===== verification/Sql.v ===== *)
(** * SQL values, tokens and syntax (sql/value.h, sql/token.h, sql/ast.h) *)

From S2P Require Import Prelude Bytes.

(** ** Values *)

(** [std::variant<int64_t, std::string>] *)
Inductive Value :=
  | VInt (z : Z)
  | VText (s : string).

Inductive ColumnType := INTEGER | TEXT.

#[global] Instance value_eq_dec : EqDecision Value.
Proof. solve_decision. Defined.
#[global] Instance column_type_eq_dec : EqDecision ColumnType.
Proof. solve_decision. Defined.

(** [std::holds_alternative<int64_t>] and [std::get] *)
Definition is_int (v : Value) : bool := match v with VInt _ => true | VText _ => false end.
Definition get_int (v : Value) : res Z := match v with VInt z => Val z | VText _ => Exn BadVariantAccess end.
Definition get_text (v : Value) : res string := match v with VText s => Val s | VInt _ => Exn BadVariantAccess end.

Definition CompareValues (a b : Value) : res Z :=
  if is_int a then
    x ← get_int a;
    y ← get_int b;
    mret (if x <? y then -1 else if y <? x then 1 else 0)
  else
    x ← get_text a;
    y ← get_text b;
    mret (if String.ltb x y then -1 else if String.ltb y x then 1 else 0).

(** ** Tokens *)

Inductive TokenType :=
  | IDENTIFIER | INTEGER_LITERAL | STRING_LITERAL | LPAREN | RPAREN | COMMA | SEMICOLON | STAR
  | EQ | LT | LE | GT | GE | END.

#[global] Instance token_type_eq_dec : EqDecision TokenType.
Proof. solve_decision. Defined.

Record Token := mkToken {
  type : TokenType;
  text : string;
  int_value : Z;
}.

#[global] Instance token_eq_dec : EqDecision Token.
Proof. solve_decision. Defined.

(** [{type, text}]: [int_value] is 0 by default. *)
Definition tok (ty : TokenType) (tx : string) : Token := mkToken ty tx 0.

(** ** Statements *)

Record ColumnDefAst := mkColumnDef {
  col_name : string;
  col_type : ColumnType;
}.

Inductive CompareOp := OpEQ | OpLT | OpLE | OpGT | OpGE.

#[global] Instance compare_op_eq_dec : EqDecision CompareOp.
Proof. solve_decision. Defined.

Record Comparison := mkComparison {
  column : string;
  op : CompareOp;
  literal : Value;
}.

Abbreviation Predicate := (list Comparison) (only parsing).

(** [columns] of a [SELECT] is used only without [select_star]. *)
Inductive Statement :=
  | CreateTableStmt (table_name : string) (columns : list ColumnDefAst)
  | InsertStmt (table_name : string) (values : list Value)
  | SelectStmt (table_name : string) (select_star : bool) (columns : list string) (where_ : Predicate)
  | DeleteStmt (table_name : string) (where_ : Predicate).
