(* ===== verification/Lexer.v ===== *)
(** * Lexer (sql/lexer.cpp)

    [Tokenize], and the spellings it reads back. *)

From S2P Require Import Prelude Bytes Sql.

(** ** Character classes of the "C" locale *)

Definition isspace (c : ascii) : bool := ((9 <=? byte_val c) && (byte_val c <=? 13)) || (byte_val c =? 32).
Definition isalpha (c : ascii) : bool :=
  ((65 <=? byte_val c) && (byte_val c <=? 90)) || ((97 <=? byte_val c) && (byte_val c <=? 122)).
Definition isalnum (c : ascii) : bool := isalpha c || isdigit c.

(** ** Tokenize *)

Module Lexer.

(** [while (i < n && f(sql[i])) ++i]: what the loop runs over, and the rest. *)
Fixpoint span (f : ascii → bool) (s : bytes) : bytes * bytes :=
  match s with
  | [] => ([], [])
  | c :: s' => if f c then let (a, b) := span f s' in (c :: a, b) else ([], s)
  end.

(** [sql.find('\'', start)]: what is before the quote and what is after it. *)
Fixpoint until_quote (s : bytes) : option (bytes * bytes) :=
  match s with
  | [] => None
  | c :: s => if (c =? "'")%char then Some ([], s) else
      match until_quote s with
      | None => None
      | Some (a, b) => Some (c :: a, b)
      end
  end.

Definition word_char (c : ascii) : bool := isalnum c || (c =? "_")%char.

Definition starts_with (f : ascii → bool) (s : bytes) : bool := match s with c :: _ => f c | [] => false end.

(** The loop with [i] characters read and [s] in front. *)
Fixpoint loop (fuel : nat) (i : Z) (s : bytes) (tokens : list Token) : res (list Token) :=
  match s with
  | [] => Val (tokens ++ [tok END EmptyString])
  | c :: s' =>
      match fuel with
      | O => NoFuel
      | S fuel =>
          let push t n rest := loop fuel (i + n) rest (tokens ++ [t]) in
          if isspace c then loop fuel (i + 1) s' tokens else
          if (c =? "(")%char then push (tok LPAREN "(") 1 s' else
          if (c =? ")")%char then push (tok RPAREN ")") 1 s' else
          if (c =? ",")%char then push (tok COMMA ",") 1 s' else
          if (c =? ";")%char then push (tok SEMICOLON ";") 1 s' else
          if (c =? "*")%char then push (tok STAR "*") 1 s' else
          if (c =? "=")%char then push (tok EQ "=") 1 s' else
          if (c =? "<")%char then
            if starts_with (λ d, d =? "=")%char s' then push (tok LE "<=") 2 (drop 1 s') else push (tok LT "<") 1 s' else
          if (c =? ">")%char then
            if starts_with (λ d, d =? "=")%char s' then push (tok GE ">=") 2 (drop 1 s') else push (tok GT ">") 1 s' else
          if (c =? "'")%char then
            match until_quote s' with
            | None => Exn (SqlException ("unterminated string literal starting at position " +:+ to_string i))
            | Some (body, rest) => push (tok STRING_LITERAL (of_chars body)) (blen body + 2) rest
            end else
          if isdigit c || ((c =? "-")%char && starts_with isdigit s') then
            let (digits, rest) := span isdigit s' in
            v ← stoll (c :: digits);
            push (mkToken INTEGER_LITERAL (of_chars (c :: digits)) v) (blen (c :: digits)) rest else
          if isalpha c || (c =? "_")%char then
            let (w, rest) := span word_char s' in
            push (tok IDENTIFIER (of_chars (c :: w))) (blen (c :: w)) rest else
          Exn (SqlException ("unexpected character '" +:+ of_chars [c] +:+ "' at position " +:+ to_string i))
      end
  end.

Definition Tokenize (sql : string) : res (list Token) :=
  loop (String.length sql) 0 (chars sql) [].

End Lexer.
