(* ===== verification/LexerTheory.v ===== *)
(** * Lexer: the texts it accepts

    A text is read as the tokens of which it is a rendering: their spellings in
    order, with white space around them. *)

From S2P Require Import Prelude Bytes Sql Lexer.

Import Lexer.

(** ** Spellings *)

Definition spell (t : Token) : bytes :=
  match type t with
  | STRING_LITERAL => "'"%char :: chars (text t) ++ ["'"%char]
  | END => []
  | _ => chars (text t)
  end.

Definition word_start (c : ascii) : bool := isalpha c || (c =? "_")%char.

(** The tokens the lexer can produce before [END]. *)
Definition valid_token (t : Token) : bool :=
  match type t with
  | IDENTIFIER => starts_with word_start (chars (text t)) && forallb word_char (chars (text t)) && (int_value t =? 0)
  | INTEGER_LITERAL =>
      match chars (text t) with
      | c :: b => (isdigit c || ((c =? "-")%char && starts_with isdigit b)) && forallb isdigit b
      | [] => false
      end && match stoll (chars (text t)) with Val v => v =? int_value t | _ => false end
  | STRING_LITERAL => forallb (λ c, negb (c =? "'")%char) (chars (text t)) && (int_value t =? 0)
  | LPAREN => bool_decide (t = tok LPAREN "(")
  | RPAREN => bool_decide (t = tok RPAREN ")")
  | COMMA => bool_decide (t = tok COMMA ",")
  | SEMICOLON => bool_decide (t = tok SEMICOLON ";")
  | STAR => bool_decide (t = tok STAR "*")
  | EQ => bool_decide (t = tok EQ "=")
  | LT => bool_decide (t = tok LT "<")
  | LE => bool_decide (t = tok LE "<=")
  | GT => bool_decide (t = tok GT ">")
  | GE => bool_decide (t = tok GE ">=")
  | END => false
  end.

(** [rest] does not carry the token on. *)
Definition stops (t : Token) (rest : bytes) : bool :=
  negb (starts_with
    match type t with
    | IDENTIFIER => word_char
    | INTEGER_LITERAL => isdigit
    | LT | GT => λ c, (c =? "=")%char
    | _ => λ _, false
    end rest).

(** Tokens with the white space in front of them, and what follows the last. *)
Fixpoint render (l : list (bytes * Token)) (trailing : bytes) : bytes :=
  match l with
  | [] => trailing
  | (gap, t) :: l => gap ++ spell t ++ render l trailing
  end.

Fixpoint rendering (l : list (bytes * Token)) (trailing : bytes) : bool :=
  match l with
  | [] => forallb isspace trailing
  | (gap, t) :: l => forallb isspace gap && valid_token t && stops t (render l trailing) && rendering l trailing
  end.

(** ** Spans *)

Lemma span_split f s : ∀ a b, span f s = (a, b) → s = a ++ b ∧ forallb f a = true ∧ starts_with f b = false.
Proof.
  induction s as [|c s IH]; intros a b; simpl; [by intros [= <- <-]|].
  destruct (f c) eqn:Ec; [|by intros [= <- <-]].
  destruct (span f s) as [a' b'] eqn:E. intros [= <- <-]. destruct (IH a' b' eq_refl) as (-> & Ha & Hb).
  simpl. by rewrite Ec.
Qed.

Lemma span_app f a b : forallb f a = true → starts_with f b = false → span f (a ++ b) = (a, b).
Proof.
  induction a as [|c a IH]; simpl.
  - intros _. destruct b as [|c b]; simpl; [done|]. by intros ->.
  - intros [Hc Ha]%andb_true_iff Hb. by rewrite Hc, (IH Ha Hb).
Qed.

Lemma until_quote_split s : ∀ a b, until_quote s = Some (a, b) →
  s = a ++ "'"%char :: b ∧ forallb (λ c, negb (c =? "'")%char) a = true.
Proof.
  induction s as [|c s IH]; intros a b; simpl; [done|].
  destruct (Ascii.eqb_spec c "'") as [->|Hc]; [by intros [= <- <-]|].
  destruct (until_quote s) as [[a' b']|]; [|done]. intros [= <- <-]. destruct (IH a' b' eq_refl) as [-> Ha].
  simpl. by rewrite Ha, (proj2 (Ascii.eqb_neq _ _) Hc).
Qed.

Lemma until_quote_app a b :
  forallb (λ c, negb (c =? "'")%char) a = true → until_quote (a ++ "'"%char :: b) = Some (a, b).
Proof.
  induction a as [|c a IH]; simpl; [done|]. intros [Hc%negb_true_iff Ha]%andb_true_iff. by rewrite Hc, IH.
Qed.

(** ** Classes of characters *)

(** The characters the loop tests before it tries numbers and words. *)
Definition special (c : ascii) : bool :=
  isspace c || existsb (λ d, (c =? d)%char) ["("; ")"; ","; ";"; "*"; "="; "<"; ">"; "'"]%char.

Lemma classes c :
  (isdigit c = true → special c = false) ∧ ((c =? "-")%char = true → special c = false) ∧
  (word_start c = true → special c = false ∧ isdigit c = false ∧ (c =? "-")%char = false).
Proof. destruct c as [[] [] [] [] [] [] [] []]; vm_compute; split_and!; intros; split_and?; done. Qed.

(** A character that is not special goes on to the last three tests. *)
Lemma loop_plain fuel i c s ts :
  special c = false →
  loop (S fuel) i (c :: s) ts =
    if isdigit c || ((c =? "-")%char && starts_with isdigit s) then
      let (digits, rest) := span isdigit s in
      v ← stoll (c :: digits);
      loop fuel (i + blen (c :: digits)) rest (ts ++ [mkToken INTEGER_LITERAL (of_chars (c :: digits)) v]) else
    if word_start c then
      let (w, rest) := span word_char s in
      loop fuel (i + blen (c :: w)) rest (ts ++ [tok IDENTIFIER (of_chars (c :: w))]) else
    Exn (SqlException ("unexpected character '" +:+ of_chars [c] +:+ "' at position " +:+ to_string i)).
Proof.
  unfold special. rewrite orb_false_iff. simpl. rewrite !orb_false_iff.
  intros (Hs & H1 & H2 & H3 & H4 & H5 & H6 & H7 & H8 & H9 & _). cbn [loop].
  by rewrite Hs, H1, H2, H3, H4, H5, H6, H7, H8, H9.
Qed.

(** ** One token *)

Lemma valid_word t : valid_token t = true → type t = IDENTIFIER →
  ∃ c w, t = tok IDENTIFIER (of_chars (c :: w)) ∧ word_start c = true ∧ forallb word_char w = true.
Proof.
  destruct t as [ty tx v]. unfold valid_token. simpl. intros H ->.
  apply andb_true_iff in H as [[Hs Hw]%andb_true_iff Hv%Z.eqb_eq]. subst v. rewrite <-(of_chars_chars tx).
  destruct (chars tx) as [|c w]; [done|]. exists c, w. simpl in *. apply andb_true_iff in Hw as [_ Hw]. done.
Qed.

Lemma valid_number t : valid_token t = true → type t = INTEGER_LITERAL →
  ∃ c b v, t = mkToken INTEGER_LITERAL (of_chars (c :: b)) v ∧ stoll (c :: b) = Val v ∧
    isdigit c || ((c =? "-")%char && starts_with isdigit b) = true ∧ forallb isdigit b = true.
Proof.
  destruct t as [ty tx v]. unfold valid_token. simpl. intros H ->.
  apply andb_true_iff in H as [Hs Hv]. rewrite <-(of_chars_chars tx). destruct (chars tx) as [|c b]; [done|].
  apply andb_true_iff in Hs as [Hs Hb]. exists c, b, v. destruct (stoll (c :: b)) eqn:E; [|done..].
  apply Z.eqb_eq in Hv as ->. done.
Qed.

Lemma lex_token fuel i t rest ts :
  valid_token t = true → stops t rest = true →
  loop (S fuel) i (spell t ++ rest) ts = loop fuel (i + blen (spell t)) rest (ts ++ [t]).
Proof.
  intros Hv Hst. unfold stops in Hst. apply negb_true_iff in Hst. unfold spell.
  destruct (type t) eqn:Ety; try (unfold valid_token in Hv; rewrite Ety in Hv; apply bool_decide_eq_true in Hv as ->; done).
  - destruct (valid_word t Hv Ety) as (c & w & -> & Hc & Hw). destruct (classes c) as (_ & _ & Hcl).
    destruct (Hcl Hc) as (Hsp & Hd & Hm). cbn [text tok]. rewrite chars_of_chars. cbn [app].
    rewrite loop_plain, Hd, Hm by done. cbn [orb andb]. by rewrite Hc, (span_app _ w rest).
  - destruct (valid_number t Hv Ety) as (c & b & v & -> & Hs & Hc & Hb). cbn [text]. rewrite chars_of_chars. cbn [app].
    assert (Hsp : special c = false).
    { destruct (classes c) as (Hd & Hm & _). apply orb_true_iff in Hc as [?|[? _]%andb_true_iff]; auto. }
    assert (Hc' : isdigit c || ((c =? "-")%char && starts_with isdigit (b ++ rest)) = true).
    { apply orb_true_iff in Hc as [->|[-> Hb']%andb_true_iff]; [done|]. destruct b as [|d b]; [done|]. simpl in *. by rewrite Hb', orb_true_r. }
    rewrite loop_plain, Hc', (span_app _ b rest) by done. by rewrite Hs.
  - assert (Hv' := Hv). unfold valid_token in Hv'. rewrite Ety in Hv'. apply andb_true_iff in Hv' as [Hq H0%Z.eqb_eq].
    cbn [app]. rewrite <-app_assoc. cbn [app]. change (loop (S fuel) i ("'"%char :: chars (text t) ++ "'"%char :: rest) ts) with
      (match until_quote (chars (text t) ++ "'"%char :: rest) with
       | None => Exn (SqlException ("unterminated string literal starting at position " +:+ to_string i))
       | Some (body, r) => loop fuel (i + (blen body + 2)) r (ts ++ [tok STRING_LITERAL (of_chars body)])
       end). rewrite until_quote_app, of_chars_chars by done. destruct t as [ty tx v]. simpl in *. subst. do 2 f_equal.
    unfold blen. simpl. rewrite length_app. simpl. lia.
  - unfold valid_token in Hv. rewrite Ety in Hv. apply bool_decide_eq_true in Hv as ->. simpl. simpl in Hst. by rewrite Hst.
  - unfold valid_token in Hv. rewrite Ety in Hv. apply bool_decide_eq_true in Hv as ->. simpl. simpl in Hst. by rewrite Hst.
  - unfold valid_token in Hv. by rewrite Ety in Hv.
Qed.

(** ** Whole texts *)

Lemma lex_gap gap : ∀ fuel i s ts, forallb isspace gap = true → (length (gap ++ s) ≤ fuel)%nat →
  ∃ fuel' i', (length s ≤ fuel')%nat ∧ loop fuel i (gap ++ s) ts = loop fuel' i' s ts.
Proof.
  induction gap as [|c gap IH]; intros fuel i s ts; [by eauto|]. simpl. intros [Hc Hg]%andb_true_iff Hf.
  destruct fuel as [|fuel]; [lia|]. cbn [loop]. rewrite Hc. apply IH; [done|lia].
Qed.

Lemma spell_nonempty t : valid_token t = true → (0 < length (spell t))%nat.
Proof.
  unfold spell, valid_token. destruct (type t); try (intros ->%bool_decide_eq_true; simpl; lia); try (simpl; lia).
  - destruct (chars (text t)); [done|simpl; lia].
  - destruct (chars (text t)); [done|simpl; lia].
Qed.

Lemma lex_rendering l trailing : ∀ fuel i ts,
  rendering l trailing = true → (length (render l trailing) ≤ fuel)%nat →
  loop fuel i (render l trailing) ts = Val (ts ++ l.*2 ++ [tok END EmptyString]).
Proof.
  induction l as [|[gap t] l IH]; intros fuel i ts; simpl.
  - intros Hg Hf. destruct (lex_gap trailing fuel i [] ts Hg) as (fuel' & i' & _ & E); [by rewrite app_nil_r|].
    rewrite app_nil_r in E. rewrite E. by destruct fuel'.
  - rewrite !andb_true_iff. intros [[[Hg Hv] Hst] Hl] Hf.
    destruct (lex_gap gap fuel i (spell t ++ render l trailing) ts Hg Hf) as (fuel' & i' & Hf' & ->).
    pose proof (spell_nonempty t Hv). rewrite length_app in Hf'. destruct fuel' as [|fuel']; [lia|].
    rewrite lex_token by done. rewrite IH; [by rewrite <-app_assoc|done|lia].
Qed.

(** The text starts with a token, or the lexer refuses it. *)
Lemma lex_one fuel i c s ts :
  isspace c = false →
  (∃ t rest, c :: s = spell t ++ rest ∧ valid_token t = true ∧ stops t rest = true) ∨
  (∃ msg, loop (S fuel) i (c :: s) ts = Exn (SqlException msg)) ∨ loop (S fuel) i (c :: s) ts = Exn (OutOfRange "stoll").
Proof.
  intros Hsp. destruct (special c) eqn:Esp.
  - unfold special in Esp. rewrite Hsp in Esp. cbn [orb existsb] in Esp.
    rewrite !orb_true_iff, !Ascii.eqb_eq in Esp.
    destruct Esp as [->|[->|[->|[->|[->|[->|[->|[->|[->|?]]]]]]]]]; [left..| |done].
    + exists (tok LPAREN "("), s. by destruct s.
    + exists (tok RPAREN ")"), s. by destruct s.
    + exists (tok COMMA ","), s. by destruct s.
    + exists (tok SEMICOLON ";"), s. by destruct s.
    + exists (tok STAR "*"), s. by destruct s.
    + exists (tok EQ "="), s. by destruct s.
    + destruct (starts_with (λ d, d =? "=")%char s) eqn:E.
      * destruct s as [|d s]; [done|]. apply Ascii.eqb_eq in E as ->. exists (tok LE "<="), s. by destruct s.
      * exists (tok LT "<"), s. split_and!; [done..|]. unfold stops. simpl. by rewrite E.
    + destruct (starts_with (λ d, d =? "=")%char s) eqn:E.
      * destruct s as [|d s]; [done|]. apply Ascii.eqb_eq in E as ->. exists (tok GE ">="), s. by destruct s.
      * exists (tok GT ">"), s. split_and!; [done..|]. unfold stops. simpl. by rewrite E.
    + destruct (until_quote s) as [[a b]|] eqn:E.
      * left. destruct (until_quote_split s a b E) as [-> Ha]. exists (tok STRING_LITERAL (of_chars a)), b.
        unfold spell, valid_token. cbn [type text tok int_value]. rewrite chars_of_chars, Ha. simpl. rewrite <-app_assoc. by destruct b.
      * right; left. cbn. rewrite E. eauto.
  - rewrite loop_plain by done. destruct (isdigit c || _) eqn:Ed.
    + destruct (span isdigit s) as [b rest] eqn:E. destruct (span_split _ _ _ _ E) as (-> & Hb & Hr).
      assert (Hc : isdigit c || ((c =? "-")%char && starts_with isdigit b) = true).
      { apply orb_true_iff in Ed as [->|[-> Hd]%andb_true_iff]; [done|]. apply orb_true_iff. right.
        destruct b as [|d b]; simpl in *; [congruence|]. by rewrite Hd. }
      destruct (stoll (c :: b)) as [v|e| |] eqn:Es; [left|right; right|..].
      * exists (mkToken INTEGER_LITERAL (of_chars (c :: b)) v), rest. unfold spell, valid_token, stops. cbn [type text int_value].
        by rewrite chars_of_chars, Hc, Hb, Es, Z.eqb_refl, Hr.
      * unfold stoll in Es. destruct (_ && _) in Es; [done|]. by injection Es as <-.
      * unfold stoll in Es. by destruct (_ && _) in Es.
      * unfold stoll in Es. by destruct (_ && _) in Es.
    + destruct (word_start c) eqn:Ew; [left|right; left; eauto].
      destruct (span word_char s) as [w rest] eqn:E. destruct (span_split _ _ _ _ E) as (-> & Hb & Hr).
      exists (tok IDENTIFIER (of_chars (c :: w))), rest. unfold spell, valid_token, stops. cbn [type text tok int_value].
      rewrite chars_of_chars, Hr. cbn [starts_with forallb]. rewrite Ew, Hb. unfold word_char at 1, isalnum.
      unfold word_start in Ew. apply orb_true_iff in Ew as [-> | ->]; by rewrite ?orb_true_r.
Qed.

Lemma lex_cases fuel : ∀ i s ts, (length s ≤ fuel)%nat →
  (∃ l trailing, s = render l trailing ∧ rendering l trailing = true ∧
     loop fuel i s ts = Val (ts ++ l.*2 ++ [tok END EmptyString])) ∨
  (∃ msg, loop fuel i s ts = Exn (SqlException msg)) ∨ loop fuel i s ts = Exn (OutOfRange "stoll").
Proof.
  induction fuel as [|fuel IH]; intros i [|c s] ts Hf; simpl in Hf; try lia; [by left; exists [], []..|].
  destruct (isspace c) eqn:Ec.
  - cbn [loop]. rewrite Ec. destruct (IH (i + 1) s ts ltac:(lia)) as [(l & tr & -> & Hr & E)|?]; [left|by right].
    destruct l as [|[gap t] l].
    + exists [], (c :: tr). simpl in *. by rewrite Ec, E.
    + exists ((c :: gap, t) :: l), tr. simpl in *. by rewrite Ec.
  - destruct (lex_one fuel i c s ts Ec) as [(t & rest & E & Hv & Hst)|?]; [|by right].
    pose proof (spell_nonempty t Hv) as Hne. pose proof (f_equal length E) as Hl. rewrite length_app in Hl. simpl in Hl.
    rewrite E, lex_token by done.
    destruct (IH (i + blen (spell t)) rest (ts ++ [t]) ltac:(lia)) as [(l & tr & -> & Hr & El)|?]; [left|by right].
    exists (([], t) :: l), tr. simpl. rewrite Hv, Hst, Hr, El. by rewrite <-app_assoc.
Qed.

Lemma Tokenize_render l trailing :
  rendering l trailing = true → Tokenize (of_chars (render l trailing)) = Val (l.*2 ++ [tok END EmptyString]).
Proof.
  intros Hr. unfold Tokenize. rewrite chars_of_chars. apply lex_rendering; [done|].
  by rewrite <-length_chars, chars_of_chars.
Qed.

Lemma Tokenize_cases sql :
  (∃ l trailing, sql = of_chars (render l trailing) ∧ rendering l trailing = true ∧
     Tokenize sql = Val (l.*2 ++ [tok END EmptyString])) ∨
  (∃ msg, Tokenize sql = Exn (SqlException msg)) ∨ Tokenize sql = Exn (OutOfRange "stoll").
Proof.
  unfold Tokenize. destruct (lex_cases (String.length sql) 0 (chars sql) []) as [(l & tr & E & Hr & El)|?];
    [by rewrite length_chars|left|by right].
  exists l, tr. split_and!; [|done|done]. by rewrite <-E, of_chars_chars.
Qed.

Lemma rendering_valid l trailing t : rendering l trailing = true → t ∈ l.*2 → valid_token t = true.
Proof.
  induction l as [|[gap u] l IH]; simpl; [set_solver|]. rewrite !andb_true_iff. intros [[[_ Hv] _] Hl] [->|?]%elem_of_cons; auto.
Qed.
