(* ===== verification/Parser.v ===== *)
(** * Parser (sql/parser.cpp)

    The recursive-descent parser over the tokens.  [Peek] past the last token
    is undefined behaviour.  The [while (true)] loops take the number of tokens
    as fuel: each round reads at least one. *)

From S2P Require Import Prelude Bytes Sql Lexer.

(** [std::toupper] in the "C" locale *)
Definition toupper (c : ascii) : ascii :=
  if (97 <=? byte_val c) && (byte_val c <=? 122) then byte_of (byte_val c - 32) else c.

Definition ToUpper (s : string) : string := of_chars (toupper <$> chars s).

Module ParserImpl.

Record t := mk {
  tokens_ : list Token;
  pos_ : nat;
}.

Definition Peek : M t Token := λ p,
  match tokens_ p !! pos_ p with
  | Some k => (Val k, p)
  | None => (Undef, p)
  end.

Definition Advance : M t Token := λ p,
  match tokens_ p !! pos_ p with
  | Some k => (Val k, mk (tokens_ p) (S (pos_ p)))
  | None => (Undef, p)
  end.

(** [throw SqlException(... + Peek().text + "'")] *)
Definition fail_at {A} (msg : string) : M t A :=
  k ← Peek; throw (SqlException (msg +:+ text k +:+ "'")).

Definition IsKeyword (kw : string) : M t bool :=
  k ← Peek; mret (bool_decide (type k = IDENTIFIER) && bool_decide (ToUpper (text k) = kw)).

Definition peek_is (ty : TokenType) : M t bool :=
  k ← Peek; mret (bool_decide (type k = ty)).

Definition ExpectKeyword (kw : string) : M t () :=
  b ← IsKeyword kw;
  if b : bool then _ ← Advance; mret tt
  else fail_at ("expected keyword '" +:+ kw +:+ "', got '").

Definition ExpectType (ty : TokenType) (what : string) : M t Token :=
  b ← peek_is ty;
  if b : bool then Advance else fail_at ("expected " +:+ what +:+ ", got '").

Definition ExpectIdentifier : M t string :=
  k ← ExpectType IDENTIFIER "identifier"; mret (text k).

Definition ParseColumnType : M t ColumnType :=
  i ← IsKeyword "INTEGER";
  if i : bool then _ ← Advance; mret INTEGER else
  x ← IsKeyword "TEXT";
  if x : bool then _ ← Advance; mret TEXT else
  fail_at "expected column type (INTEGER or TEXT), got '".

Definition ParseLiteral : M t Value :=
  i ← peek_is INTEGER_LITERAL;
  if i : bool then k ← Advance; mret (VInt (int_value k)) else
  x ← peek_is STRING_LITERAL;
  if x : bool then k ← Advance; mret (VText (text k)) else
  fail_at "expected a literal value, got '".

Definition ParseCompareOp : M t CompareOp :=
  k ← Peek;
  match type k with
  | EQ => _ ← Advance; mret OpEQ
  | LT => _ ← Advance; mret OpLT
  | LE => _ ← Advance; mret OpLE
  | GT => _ ← Advance; mret OpGT
  | GE => _ ← Advance; mret OpGE
  | _ => fail_at "expected a comparison operator (=, <, <=, >, >=), got '"
  end.

(** [while (true) { out.push_back(item()); if (more) { Advance(); continue; } break; }] *)
Fixpoint items {A} (item : M t A) (more : M t bool) (fuel : nat) (out : list A) : M t (list A) :=
  match fuel with
  | O => λ p, (NoFuel, p)
  | S fuel =>
      x ← item;
      m ← more;
      if m : bool then _ ← Advance; items item more fuel (out ++ [x])
      else mret (out ++ [x])
  end.

Definition fuel_of (p : t) : nat := length (tokens_ p).

Definition comparison : M t Comparison :=
  column ← ExpectIdentifier;
  op ← ParseCompareOp;
  literal ← ParseLiteral;
  mret (mkComparison column op literal).

Definition ParseWhereClause : M t Predicate :=
  w ← IsKeyword "WHERE";
  if w : bool then
    _ ← Advance;
    p ← get;
    items comparison (IsKeyword "AND") (fuel_of p) []
  else mret [].

Definition column_def : M t ColumnDefAst :=
  col_name ← ExpectIdentifier;
  col_type ← ParseColumnType;
  mret (mkColumnDef col_name col_type).

Definition ParseCreateTable : M t Statement :=
  _ ← Advance;
  ExpectKeyword "TABLE";;
  table_name ← ExpectIdentifier;
  _ ← ExpectType LPAREN "'('";
  p ← get;
  columns ← items column_def (peek_is COMMA) (fuel_of p) [];
  _ ← ExpectType RPAREN "')'";
  match columns with
  | [] => throw (SqlException "CREATE TABLE needs at least one column")
  | c :: _ =>
      if bool_decide (col_type c ≠ INTEGER)
      then throw (SqlException ("the first column ('" +:+ col_name c +:+ "') must be INTEGER — it is the table's primary key"))
      else mret (CreateTableStmt table_name columns)
  end.

Definition ParseInsert : M t Statement :=
  _ ← Advance;
  ExpectKeyword "INTO";;
  table_name ← ExpectIdentifier;
  ExpectKeyword "VALUES";;
  _ ← ExpectType LPAREN "'('";
  p ← get;
  values ← items ParseLiteral (peek_is COMMA) (fuel_of p) [];
  _ ← ExpectType RPAREN "')'";
  mret (InsertStmt table_name values).

Definition ParseSelect : M t Statement :=
  _ ← Advance;
  star ← peek_is STAR;
  cols ← (if star : bool then _ ← Advance; mret []
          else p ← get; items ExpectIdentifier (peek_is COMMA) (fuel_of p) []);
  ExpectKeyword "FROM";;
  table_name ← ExpectIdentifier;
  where_ ← ParseWhereClause;
  mret (SelectStmt table_name star cols where_).

Definition ParseDelete : M t Statement :=
  _ ← Advance;
  ExpectKeyword "FROM";;
  table_name ← ExpectIdentifier;
  where_ ← ParseWhereClause;
  mret (DeleteStmt table_name where_).

Definition ParseStatement : M t Statement :=
  c ← IsKeyword "CREATE"; if c : bool then ParseCreateTable else
  i ← IsKeyword "INSERT"; if i : bool then ParseInsert else
  s ← IsKeyword "SELECT"; if s : bool then ParseSelect else
  d ← IsKeyword "DELETE"; if d : bool then ParseDelete else
  fail_at "expected CREATE, INSERT, SELECT, or DELETE, got '".

Definition ExpectEndOfStatement : M t () :=
  s ← peek_is SEMICOLON;
  _ ← (if s : bool then _ ← Advance; mret tt else mret tt);
  e ← peek_is END;
  if e : bool then mret tt else fail_at "unexpected trailing input near '".

End ParserImpl.

Definition Parse (sql : string) : res Statement :=
  tokens ← Lexer.Tokenize sql;
  ((stmt ← ParserImpl.ParseStatement;
   ParserImpl.ExpectEndOfStatement;;
   mret stmt) (ParserImpl.mk tokens 0)).1.
