(* ===== verification/ParserTheory.v ===== *)
(** * Parser: the grammar it accepts

    The grammar of sql/parser.h as derivations over tokens; the parser accepts
    exactly the texts it derives, and answers the statement derived. *)

From S2P Require Import Prelude Bytes Sql Lexer LexerTheory Parser.

Import ParserImpl.

Implicit Types (k : Token) (ts rest : list Token).

(** ** The grammar *)

(** Keywords are matched case-insensitively. *)
Definition is_kw (kw : string) (k : Token) : bool :=
  bool_decide (type k = IDENTIFIER) && bool_decide (ToUpper (text k) = kw).
Definition is_type (ty : TokenType) (k : Token) : bool := bool_decide (type k = ty).

Inductive g_literal : list Token → Value → Prop :=
  | g_int k : is_type INTEGER_LITERAL k → g_literal [k] (VInt (int_value k))
  | g_text k : is_type STRING_LITERAL k → g_literal [k] (VText (text k)).

Inductive g_identifier : list Token → string → Prop :=
  | g_ident k : is_type IDENTIFIER k → g_identifier [k] (text k).

Inductive g_type : list Token → ColumnType → Prop :=
  | g_INTEGER k : is_kw "INTEGER" k → g_type [k] INTEGER
  | g_TEXT k : is_kw "TEXT" k → g_type [k] TEXT.

Definition op_token (o : CompareOp) : TokenType :=
  match o with OpEQ => EQ | OpLT => LT | OpLE => LE | OpGT => GT | OpGE => GE end.

Inductive g_op : list Token → CompareOp → Prop :=
  | g_compare k o : is_type (op_token o) k → g_op [k] o.

Inductive g_column : list Token → ColumnDefAst → Prop :=
  | g_col t1 t2 c ty : g_identifier t1 c → g_type t2 ty → g_column (t1 ++ t2) (mkColumnDef c ty).

Inductive g_comparison : list Token → Comparison → Prop :=
  | g_cmp t1 t2 t3 c o l : g_identifier t1 c → g_op t2 o → g_literal t3 l →
      g_comparison (t1 ++ t2 ++ t3) (mkComparison c o l).

(** [item (sep item)*] *)
Inductive g_list {A} (sep : Token → bool) (g : list Token → A → Prop) : list Token → list A → Prop :=
  | g_one ts x : g ts x → g_list sep g ts [x]
  | g_more ts k ts' x xs : g ts x → sep k → g_list sep g ts' xs → g_list sep g (ts ++ k :: ts') (x :: xs).

Inductive g_where : list Token → Predicate → Prop :=
  | g_nowhere : g_where [] []
  | g_WHERE k ts w : is_kw "WHERE" k → g_list (is_kw "AND") g_comparison ts w → g_where (k :: ts) w.

Inductive g_columns : list Token → bool → list string → Prop :=
  | g_star k : is_type STAR k → g_columns [k] true []
  | g_cols ts cs : g_list (is_type COMMA) g_identifier ts cs → g_columns ts false cs.

Inductive g_statement : list Token → Statement → Prop :=
  | g_create k1 k2 t1 k3 t2 k4 name c cs :
      is_kw "CREATE" k1 → is_kw "TABLE" k2 → g_identifier t1 name → is_type LPAREN k3 →
      g_list (is_type COMMA) g_column t2 (c :: cs) → is_type RPAREN k4 → col_type c = INTEGER →
      g_statement (k1 :: k2 :: t1 ++ k3 :: t2 ++ [k4]) (CreateTableStmt name (c :: cs))
  | g_insert k1 k2 t1 k3 k4 t2 k5 name vs :
      is_kw "INSERT" k1 → is_kw "INTO" k2 → g_identifier t1 name → is_kw "VALUES" k3 → is_type LPAREN k4 →
      g_list (is_type COMMA) g_literal t2 vs → is_type RPAREN k5 →
      g_statement (k1 :: k2 :: t1 ++ k3 :: k4 :: t2 ++ [k5]) (InsertStmt name vs)
  | g_select k1 t1 k2 t2 t3 star cs name w :
      is_kw "SELECT" k1 → g_columns t1 star cs → is_kw "FROM" k2 → g_identifier t2 name → g_where t3 w →
      g_statement (k1 :: t1 ++ k2 :: t2 ++ t3) (SelectStmt name star cs w)
  | g_delete k1 k2 t1 t2 name w :
      is_kw "DELETE" k1 → is_kw "FROM" k2 → g_identifier t1 name → g_where t2 w →
      g_statement (k1 :: k2 :: t1 ++ t2) (DeleteStmt name w).

(** A trailing [;] is optional. *)
Inductive g_program : list Token → Statement → Prop :=
  | g_plain ts s : g_statement ts s → g_program ts s
  | g_semi ts k s : g_statement ts s → is_type SEMICOLON k → g_program (ts ++ [k]) s.

(** ** Partial correctness: a call on the tokens [rest] *)

(** [END] closes the tokens, and is nowhere else. *)
Definition closed (rest : list Token) : Prop :=
  ∃ ts e, rest = ts ++ [e] ∧ type e = END ∧ ∀ k, k ∈ ts → type k ≠ END.

(** With [rest] in front, [m] ends with [Q], or throws an SqlException. *)
Definition wp {A} (m : M t A) (rest : list Token) (Q : A → list Token → Prop) : Prop :=
  ∀ toks pos, drop pos toks = rest →
    match m (mk toks pos) with
    | (Val x, p) => ∃ pos', p = mk toks pos' ∧ Q x (drop pos' toks)
    | (Exn (SqlException _), _) => True
    | _ => False
    end.

(** With [rest] in front, [m] answers [x] and has [rest'] in front. *)
Definition run {A} (m : M t A) (rest : list Token) (x : A) (rest' : list Token) : Prop :=
  ∀ toks pos, drop pos toks = rest → ∃ pos', m (mk toks pos) = (Val x, mk toks pos') ∧ drop pos' toks = rest'.

Section rules.
Context {A B : Type}.
Implicit Types (m : M t A) (f : A → M t B).

Lemma wp_bind m f rest Q :
  wp m rest (λ x rest', wp (f x) rest' Q) → wp (m ≫= f) rest Q.
Proof.
  intros Hm toks pos E. specialize (Hm toks pos E). unfold mbind, M_bind.
  destruct (m (mk toks pos)) as [[x|[]| |] p]; try done. destruct Hm as (pos' & -> & Hf). by apply Hf.
Qed.

Lemma wp_ret (x : A) rest (Q : A → list Token → Prop) : Q x rest → wp (mret x) rest Q.
Proof. intros HQ toks pos <-. by exists pos. Qed.

Lemma wp_throw msg rest (Q : A → list Token → Prop) : wp (throw (SqlException msg)) rest Q.
Proof. intros toks pos _. done. Qed.

Lemma wp_mono m rest (Q Q' : A → list Token → Prop) : (∀ x r, Q x r → Q' x r) → wp m rest Q → wp m rest Q'.
Proof.
  intros HQ Hm toks pos E. specialize (Hm toks pos E). destruct (m (mk toks pos)) as [[x|[]| |] p]; try done.
  destruct Hm as (pos' & -> & ?). eauto.
Qed.

Lemma run_wp m rest x rest' (Q : A → list Token → Prop) : run m rest x rest' → Q x rest' → wp m rest Q.
Proof. intros Hr HQ toks pos E. destruct (Hr toks pos E) as (pos' & -> & <-). eauto. Qed.

Lemma run_bind m f rest x mid y rest' : run m rest x mid → run (f x) mid y rest' → run (m ≫= f) rest y rest'.
Proof.
  intros Hm Hf toks pos E. destruct (Hm toks pos E) as (p1 & E1 & D1). destruct (Hf toks p1 D1) as (p2 & E2 & D2).
  exists p2. split; [|done]. unfold mbind, M_bind. by rewrite E1.
Qed.

Lemma run_ret (x : A) rest : run (mret x) rest x rest.
Proof. intros toks pos E. by exists pos. Qed.
End rules.

Lemma drop_cons pos toks k rest : drop pos toks = k :: rest → toks !! pos = Some k ∧ drop (S pos) toks = rest.
Proof.
  intros E. split.
  - by rewrite <-(Nat.add_0_r pos), <-lookup_drop, E.
  - by rewrite <-Nat.add_1_r, <-drop_drop, E.
Qed.

Lemma run_Peek k rest : run Peek (k :: rest) k (k :: rest).
Proof. intros toks pos E. destruct (drop_cons _ _ _ _ E) as [Hk _]. exists pos. unfold Peek. simpl. by rewrite Hk. Qed.

Lemma run_Advance k rest : run Advance (k :: rest) k rest.
Proof. intros toks pos E. destruct (drop_cons _ _ _ _ E) as [Hk Hd]. exists (S pos). unfold Advance. simpl. by rewrite Hk. Qed.

Lemma run_IsKeyword kw k rest : run (IsKeyword kw) (k :: rest) (is_kw kw k) (k :: rest).
Proof. eapply run_bind; [apply run_Peek|apply run_ret]. Qed.

Lemma run_peek_is ty k rest : run (peek_is ty) (k :: rest) (is_type ty k) (k :: rest).
Proof. eapply run_bind; [apply run_Peek|apply run_ret]. Qed.

Lemma wp_fail {A} msg k rest (Q : A → list Token → Prop) : wp (fail_at msg) (k :: rest) Q.
Proof. apply wp_bind. eapply run_wp; [apply run_Peek|]. apply wp_throw. Qed.

(** Loops get as many rounds as there are tokens. *)
Lemma wp_fuel {A} (f : nat → M t A) rest Q :
  (∀ n, (length rest ≤ n)%nat → wp (f n) rest Q) → wp (p ← get; f (fuel_of p)) rest Q.
Proof.
  intros Hf toks pos E. apply (Hf (fuel_of (mk toks pos))); [|done]. rewrite <-E, length_drop. unfold fuel_of. simpl. lia.
Qed.

Lemma run_fuel {A} (f : nat → M t A) rest x rest' :
  (∀ n, (length rest ≤ n)%nat → run (f n) rest x rest') → run (p ← get; f (fuel_of p)) rest x rest'.
Proof.
  intros Hf toks pos E. apply (Hf (fuel_of (mk toks pos))); [|done]. rewrite <-E, length_drop. unfold fuel_of. simpl. lia.
Qed.

(** ** Closed token lists *)

Lemma closed_cons k rest : closed (k :: rest) → type k ≠ END → closed rest.
Proof.
  intros ([|k' ts] & e & E & He & Hts) Hk; simplify_eq/=. exists ts, e. split_and!; [done|done|]. set_solver.
Qed.

Lemma closed_inv rest : closed rest → ∃ k rest', rest = k :: rest'.
Proof. intros ([|k ts] & e & -> & _); simpl; eauto. Qed.

Lemma closed_app ts rest : closed (ts ++ rest) → rest ≠ [] → closed rest.
Proof.
  induction ts as [|k ts IH]; simpl; [done|]. intros Hc Hne. apply IH; [|done]. apply (closed_cons k); [done|].
  destruct Hc as ([|k' ts'] & e & E & He & Hts); simplify_eq/=; [by destruct ts|]. apply Hts. set_solver.
Qed.

Lemma is_type_END ty k : is_type ty k → ty ≠ END → type k ≠ END.
Proof. unfold is_type. intros ->%bool_decide_unpack. done. Qed.

Lemma is_kw_END kw k : is_kw kw k → type k ≠ END.
Proof. unfold is_kw. intros [->%bool_decide_unpack _]%andb_prop_elim. done. Qed.

(** ** Soundness: what is read is derived *)

(** [m] has read tokens that derive its answer. *)
Definition got {A} (G : list Token → A → Prop) (rest : list Token) (x : A) (rest' : list Token) : Prop :=
  ∃ ts, rest = ts ++ rest' ∧ closed rest' ∧ (0 < length ts)%nat ∧ G ts x.

Lemma got_one {A} (G : list Token → A → Prop) k rest x :
  closed (k :: rest) → type k ≠ END → G [k] x → got G (k :: rest) x rest.
Proof. intros Hc Hk HG. exists [k]. split_and!; [done|by eapply closed_cons|simpl; lia|done]. Qed.

(** Destructs a test on the next token. *)
Ltac wtest lem :=
  apply wp_bind; eapply run_wp; [apply lem|];
  match goal with |- context [if ?b then _ else _] => let E := fresh "E" in destruct b eqn:E end.

Lemma wp_Advance {A} (G : list Token → A → Prop) (f : Token → A) k rest :
  closed (k :: rest) → type k ≠ END → G [k] (f k) → wp (x ← Advance; mret (f x)) (k :: rest) (got G (k :: rest)).
Proof.
  intros Hc Hk HG. apply wp_bind. eapply run_wp; [apply run_Advance|]. apply wp_ret. by apply got_one.
Qed.

Section sound.

Lemma sound_ExpectKeyword kw rest :
  closed rest → wp (ExpectKeyword kw) rest (λ _ rest', closed rest' ∧ ∃ k, rest = k :: rest' ∧ is_kw kw k).
Proof.
  intros Hc. destruct (closed_inv _ Hc) as (k & r & ->). wtest run_IsKeyword; [|apply wp_fail].
  apply Is_true_true in E. apply wp_bind. eapply run_wp; [apply run_Advance|]. apply wp_ret. split; [|by eauto].
  by eapply closed_cons, is_kw_END.
Qed.

Lemma sound_ExpectType ty what rest :
  ty ≠ END → closed rest →
  wp (ExpectType ty what) rest (λ k rest', closed rest' ∧ rest = k :: rest' ∧ is_type ty k).
Proof.
  intros Hty Hc. destruct (closed_inv _ Hc) as (k & r & ->). wtest run_peek_is; [|apply wp_fail].
  apply Is_true_true in E. eapply run_wp; [apply run_Advance|]. split_and!; [|done|done].
  by eapply closed_cons, is_type_END.
Qed.

Lemma sound_ExpectIdentifier rest : closed rest → wp ExpectIdentifier rest (got g_identifier rest).
Proof.
  intros Hc. apply wp_bind. eapply wp_mono; [|by apply sound_ExpectType]. intros k r (Hr & -> & Hk).
  apply wp_ret. exists [k]. split_and!; [done|done|simpl; lia|by constructor].
Qed.

Lemma sound_ParseColumnType rest : closed rest → wp ParseColumnType rest (got g_type rest).
Proof.
  intros Hc. destruct (closed_inv _ Hc) as (k & r & ->). wtest run_IsKeyword.
  { apply Is_true_true in E. apply (wp_Advance _ (λ _, INTEGER)); [done|by eapply is_kw_END|by constructor]. }
  wtest run_IsKeyword; [|apply wp_fail].
  apply Is_true_true in E0. apply (wp_Advance _ (λ _, TEXT)); [done|by eapply is_kw_END|by constructor].
Qed.

Lemma sound_ParseLiteral rest : closed rest → wp ParseLiteral rest (got g_literal rest).
Proof.
  intros Hc. destruct (closed_inv _ Hc) as (k & r & ->). wtest run_peek_is.
  { apply Is_true_true in E. apply (wp_Advance _ (λ k, VInt (int_value k))); [done|by eapply is_type_END|by constructor]. }
  wtest run_peek_is; [|apply wp_fail].
  apply Is_true_true in E0. apply (wp_Advance _ (λ k, VText (text k))); [done|by eapply is_type_END|by constructor].
Qed.

Lemma sound_ParseCompareOp rest : closed rest → wp ParseCompareOp rest (got g_op rest).
Proof.
  intros Hc. destruct (closed_inv _ Hc) as (k & r & ->). apply wp_bind. eapply run_wp; [apply run_Peek|].
  assert (Hop : ∀ o, type k = op_token o → wp (_ ← Advance; mret o) (k :: r) (got g_op (k :: r))).
  { intros o Eo. apply (wp_Advance _ (λ _, o)); [done|rewrite Eo; by destruct o|]. constructor. by apply bool_decide_pack. }
  destruct (type k) eqn:Ek; try apply wp_fail; by apply Hop.
Qed.

Lemma got_app {A B C} (G1 : list Token → A → Prop) (G2 : list Token → B → Prop) (G : list Token → C → Prop) rest x mid y rest' z :
  (∀ t1 t2, G1 t1 x → G2 t2 y → G (t1 ++ t2) z) →
  got G1 rest x mid → got G2 mid y rest' → got G rest z rest'.
Proof.
  intros HG (t1 & -> & _ & Hl1 & H1) (t2 & -> & Hc & Hl2 & H2). exists (t1 ++ t2).
  split_and!; [by rewrite app_assoc|done|rewrite length_app; lia|by apply HG].
Qed.

Lemma sound_column_def rest : closed rest → wp column_def rest (got g_column rest).
Proof.
  intros Hc. apply wp_bind. eapply wp_mono; [|by apply sound_ExpectIdentifier]. intros c r1 G1.
  apply wp_bind. destruct (id G1) as (? & _ & Hc1 & _). eapply wp_mono; [|by apply sound_ParseColumnType]. intros ty r2 G2.
  apply wp_ret. eapply got_app; [|exact G1|exact G2]. by constructor.
Qed.

Lemma sound_comparison rest : closed rest → wp comparison rest (got g_comparison rest).
Proof.
  intros Hc. apply wp_bind. eapply wp_mono; [|by apply sound_ExpectIdentifier]. intros c r1 G1.
  apply wp_bind. destruct (id G1) as (? & _ & Hc1 & _). eapply wp_mono; [|by apply sound_ParseCompareOp]. intros o r2 G2.
  apply wp_bind. destruct (id G2) as (? & _ & Hc2 & _). eapply wp_mono; [|by apply sound_ParseLiteral]. intros l r3 G3.
  apply wp_ret. eapply got_app; [|exact G1|].
  2: { eapply (got_app _ _ (λ ts x, ∃ t2 t3, ts = t2 ++ t3 ∧ g_op t2 x.1 ∧ g_literal t3 x.2) _ _ _ _ _ (o, l)); [|exact G2|exact G3]. eauto. }
  intros t1 ? H1 (t2 & t3 & -> & H2 & H3). by constructor.
Qed.

Lemma sound_items {A} (item : M t A) (more : M t bool) (sep : Token → bool) (G : list Token → A → Prop) :
  (∀ rest, closed rest → wp item rest (got G rest)) →
  (∀ k rest, run more (k :: rest) (sep k) (k :: rest)) → (∀ k, sep k → type k ≠ END) →
  ∀ fuel rest out, closed rest → (length rest ≤ fuel)%nat →
    wp (items item more fuel out) rest (λ xs rest', ∃ ys, xs = out ++ ys ∧ got (g_list sep G) rest ys rest').
Proof.
  intros Hitem Hmore Hsep. induction fuel as [|fuel IH]; intros rest out Hc Hl.
  { destruct (closed_inv _ Hc) as (k & r & ->). simpl in Hl. lia. }
  cbn [items]. apply wp_bind. eapply wp_mono; [|by apply Hitem]. intros x r1 (ts & -> & Hc1 & Hlt & HG).
  destruct (closed_inv _ Hc1) as (k & r & ->). rewrite length_app in Hl. simpl in Hl.
  apply wp_bind. eapply run_wp; [apply Hmore|]. destruct (sep k) eqn:Es.
  - apply Is_true_true in Es. apply wp_bind. eapply run_wp; [apply run_Advance|]. eapply wp_mono; [|apply IH; [|lia]].
    + intros xs r2 (ys & -> & (ts2 & -> & Hc2 & Hl2 & HG2)). exists (x :: ys). split; [by rewrite <-app_assoc|].
      exists (ts ++ k :: ts2). split_and!; [by rewrite <-app_assoc|done|rewrite length_app; simpl; lia|by constructor].
    + eapply closed_cons; [done|by apply Hsep].
  - apply wp_ret. exists [x]. split; [done|]. exists ts. split_and!; [done..|by constructor].
Qed.

Lemma sound_list {A} (item : M t A) (more : M t bool) (sep : Token → bool) (G : list Token → A → Prop) rest :
  (∀ rest, closed rest → wp item rest (got G rest)) →
  (∀ k rest, run more (k :: rest) (sep k) (k :: rest)) → (∀ k, sep k → type k ≠ END) → closed rest →
  wp (p ← get; items item more (fuel_of p) []) rest (got (g_list sep G) rest).
Proof.
  intros Hi Hm Hs Hc. apply (wp_fuel (λ n, items item more n [])). intros n Hn.
  eapply wp_mono; [|by eapply sound_items]. by intros xs r (ys & -> & ?).
Qed.

Lemma sound_list_then {A B} (item : M t A) (more : M t bool) (sep : Token → bool) (G : list Token → A → Prop) rest
    (f : list A → M t B) Q :
  (∀ rest, closed rest → wp item rest (got G rest)) →
  (∀ k rest, run more (k :: rest) (sep k) (k :: rest)) → (∀ k, sep k → type k ≠ END) → closed rest →
  (∀ xs rest', got (g_list sep G) rest xs rest' → wp (f xs) rest' Q) →
  wp (p ← get; xs ← items item more (fuel_of p) []; f xs) rest Q.
Proof.
  intros Hi Hm Hs Hc Hf. apply (wp_fuel (λ n, xs ← items item more n []; f xs)). intros n Hn.
  apply wp_bind. eapply wp_mono; [|by eapply sound_items]. intros xs r (ys & -> & ?). by apply Hf.
Qed.

Lemma sound_ParseWhereClause rest :
  closed rest → wp ParseWhereClause rest (λ w rest', ∃ ts, rest = ts ++ rest' ∧ closed rest' ∧ g_where ts w).
Proof.
  intros Hc. destruct (closed_inv _ Hc) as (k & r & ->). wtest run_IsKeyword.
  2:{ apply wp_ret. exists []. split_and!; [done|done|constructor]. }
  apply Is_true_true in E. apply wp_bind. eapply run_wp; [apply run_Advance|].
  eapply wp_mono; [|apply (sound_list _ _ (is_kw "AND") g_comparison)].
  - intros w r2 (ts & -> & Hc2 & _ & HG). exists (k :: ts). split_and!; [done|done|by constructor].
  - apply sound_comparison.
  - apply run_IsKeyword.
  - intros k'. apply is_kw_END.
  - by eapply closed_cons, is_kw_END.
Qed.

(** Reads the next part of a statement with the lemma [lem]. *)
Tactic Notation "wread" uconstr(lem) "as" simple_intropattern(x) simple_intropattern(r) simple_intropattern(pat) :=
  try apply wp_bind; eapply wp_mono; [|apply lem; done]; intros x r pat.

Definition derived (rest : list Token) (s : Statement) (rest' : list Token) : Prop :=
  ∃ ts, rest = ts ++ rest' ∧ closed rest' ∧ g_statement ts s.

Lemma is_COMMA_END k : is_type COMMA k → type k ≠ END.
Proof. intros H. by eapply is_type_END. Qed.

Lemma sound_ParseCreateTable k rest :
  closed (k :: rest) → is_kw "CREATE" k → wp ParseCreateTable (k :: rest) (derived (k :: rest)).
Proof.
  intros Hc Hk. apply wp_bind. eapply run_wp; [apply run_Advance|]. apply closed_cons in Hc; [|by eapply is_kw_END].
  wread (sound_ExpectKeyword "TABLE") as _ r1 (Hc1 & k2 & -> & Hk2).
  wread sound_ExpectIdentifier as name r2 (t1 & -> & Hc2 & _ & H1).
  wread (sound_ExpectType LPAREN) as k3 r3 (Hc3 & -> & Hk3).
  apply (sound_list_then column_def _ (is_type COMMA) g_column); [apply sound_column_def|apply run_peek_is|apply is_COMMA_END|done|].
  intros cs r4 (t2 & -> & Hc4 & _ & H2).
  wread (sound_ExpectType RPAREN) as k4 r5 (Hc5 & -> & Hk4).
  destruct cs as [|c cs]; [apply wp_throw|]. case_bool_decide as Hty; [apply wp_throw|].
  apply wp_ret. exists (k :: k2 :: t1 ++ k3 :: t2 ++ [k4]). split_and!; [|done|by constructor].
  simpl. rewrite <-!app_assoc. simpl. by rewrite <-app_assoc.
Qed.

Lemma sound_ParseInsert k rest :
  closed (k :: rest) → is_kw "INSERT" k → wp ParseInsert (k :: rest) (derived (k :: rest)).
Proof.
  intros Hc Hk. apply wp_bind. eapply run_wp; [apply run_Advance|]. apply closed_cons in Hc; [|by eapply is_kw_END].
  wread (sound_ExpectKeyword "INTO") as _ r1 (Hc1 & k2 & -> & Hk2).
  wread sound_ExpectIdentifier as name r2 (t1 & -> & Hc2 & _ & H1).
  wread (sound_ExpectKeyword "VALUES") as _ r3 (Hc3 & k3 & -> & Hk3).
  wread (sound_ExpectType LPAREN) as k4 r4 (Hc4 & -> & Hk4).
  apply (sound_list_then ParseLiteral _ (is_type COMMA) g_literal); [apply sound_ParseLiteral|apply run_peek_is|apply is_COMMA_END|done|].
  intros vs r5 (t2 & -> & Hc5 & _ & H2).
  wread (sound_ExpectType RPAREN) as k5 r6 (Hc6 & -> & Hk5).
  apply wp_ret. exists (k :: k2 :: t1 ++ k3 :: k4 :: t2 ++ [k5]). split_and!; [|done|by constructor].
  simpl. rewrite <-!app_assoc. simpl. by rewrite <-app_assoc.
Qed.

Lemma sound_columns rest :
  closed rest →
  wp (star ← peek_is STAR;
      cols ← (if star : bool then _ ← Advance; mret []
              else p ← get; items ExpectIdentifier (peek_is COMMA) (fuel_of p) []);
      mret (star, cols)) rest (got (λ ts x, g_columns ts x.1 x.2) rest).
Proof.
  intros Hc. destruct (closed_inv _ Hc) as (k & r & ->). wtest run_peek_is; apply wp_bind.
  - apply Is_true_true in E. apply wp_bind. eapply run_wp; [apply run_Advance|]. do 2 apply wp_ret.
    apply got_one; [done|by eapply is_type_END|by constructor].
  - eapply wp_mono; [|apply (sound_list _ _ (is_type COMMA) g_identifier);
      [apply sound_ExpectIdentifier|apply run_peek_is|apply is_COMMA_END|done]].
    intros cs r2 (ts & -> & Hc2 & Hl & HG). apply wp_ret. exists ts. split_and!; [done..|by constructor].
Qed.

Lemma wp_regroup {A B C} (m : M t A) (f : A → M t B) (g : A → B → M t C) rest Q :
  wp (x ← (a ← m; b ← f a; mret (a, b)); g x.1 x.2) rest Q → wp (a ← m; b ← f a; g a b) rest Q.
Proof.
  intros H toks pos E. specialize (H toks pos E). revert H. unfold mbind, M_bind, mret, M_ret.
  destruct (m (mk toks pos)) as [[a|e| |] p]; [|done..]. by destruct (f a p) as [[b|e| |] p'].
Qed.

Lemma sound_ParseSelect k rest :
  closed (k :: rest) → is_kw "SELECT" k → wp ParseSelect (k :: rest) (derived (k :: rest)).
Proof.
  intros Hc Hk. apply wp_bind. eapply run_wp; [apply run_Advance|]. apply closed_cons in Hc; [|by eapply is_kw_END].
  apply wp_regroup. wread sound_columns as [star cs] r1 (t1 & -> & Hc1 & _ & H1).
  wread (sound_ExpectKeyword "FROM") as _ r2 (Hc2 & k2 & -> & Hk2).
  wread sound_ExpectIdentifier as name r3 (t2 & -> & Hc3 & _ & H2).
  wread sound_ParseWhereClause as w r4 (t3 & -> & Hc4 & H3).
  apply wp_ret. exists (k :: t1 ++ k2 :: t2 ++ t3). split_and!; [|done|by constructor].
  simpl. rewrite <-!app_assoc. simpl. by rewrite <-app_assoc.
Qed.

Lemma sound_ParseDelete k rest :
  closed (k :: rest) → is_kw "DELETE" k → wp ParseDelete (k :: rest) (derived (k :: rest)).
Proof.
  intros Hc Hk. apply wp_bind. eapply run_wp; [apply run_Advance|]. apply closed_cons in Hc; [|by eapply is_kw_END].
  wread (sound_ExpectKeyword "FROM") as _ r2 (Hc2 & k2 & -> & Hk2).
  wread sound_ExpectIdentifier as name r3 (t2 & -> & Hc3 & _ & H2).
  wread sound_ParseWhereClause as w r4 (t3 & -> & Hc4 & H3).
  apply wp_ret. exists (k :: k2 :: t2 ++ t3). split_and!; [|done|by constructor].
  simpl. by rewrite <-!app_assoc.
Qed.

Lemma sound_ParseStatement rest : closed rest → wp ParseStatement rest (derived rest).
Proof.
  intros Hc. destruct (closed_inv _ Hc) as (k & r & ->).
  wtest run_IsKeyword; [apply sound_ParseCreateTable; [done|by rewrite E]|].
  wtest run_IsKeyword; [apply sound_ParseInsert; [done|by rewrite E0]|].
  wtest run_IsKeyword; [apply sound_ParseSelect; [done|by rewrite E1]|].
  wtest run_IsKeyword; [apply sound_ParseDelete; [done|by rewrite E2]|apply wp_fail].
Qed.

Lemma closed_END k rest : closed (k :: rest) → type k = END → rest = [].
Proof. intros ([|k' ts] & e & E & He & Hts) Hk; simplify_eq/=; [done|]. by destruct (Hts k' ltac:(set_solver)). Qed.

Lemma sound_ExpectEnd rest :
  closed rest → wp ExpectEndOfStatement rest (λ _ _, ∃ e, rest = [e] ∨ ∃ k, is_type SEMICOLON k ∧ rest = [k; e]).
Proof.
  intros Hc. destruct (closed_inv _ Hc) as (k & r & ->). wtest run_peek_is; apply wp_bind.
  - apply Is_true_true in E. apply wp_bind. eapply run_wp; [apply run_Advance|]. apply wp_ret.
    apply closed_cons in Hc; [|by eapply is_type_END]. destruct (closed_inv _ Hc) as (e & r' & ->).
    wtest run_peek_is; [|apply wp_fail]. apply wp_ret. apply bool_decide_eq_true in E0.
    rewrite (closed_END _ _ Hc E0). exists e. right. by exists k.
  - apply wp_ret. wtest run_peek_is; [|apply wp_fail]. apply wp_ret. apply bool_decide_eq_true in E0.
    rewrite (closed_END _ _ Hc E0). exists k. by left.
Qed.
End sound.

(** ** Completeness: what is derived is read *)

Lemma is_kw_unique kw kw' k : is_kw kw k → kw' ≠ kw → is_kw kw' k = false.
Proof.
  unfold is_kw. intros [_ E%bool_decide_unpack]%andb_prop_elim Hne. apply andb_false_iff. right.
  apply bool_decide_eq_false. congruence.
Qed.

Lemma is_type_unique ty ty' k : is_type ty k → ty' ≠ ty → is_type ty' k = false.
Proof. unfold is_type. intros E%bool_decide_unpack Hne. apply bool_decide_eq_false. congruence. Qed.

Lemma is_kw_type kw ty k : is_kw kw k → ty ≠ IDENTIFIER → is_type ty k = false.
Proof.
  unfold is_kw. intros [E%bool_decide_unpack _]%andb_prop_elim Hne. apply bool_decide_eq_false. congruence.
Qed.

Lemma is_type_kw kw ty k : is_type ty k → ty ≠ IDENTIFIER → is_kw kw k = false.
Proof.
  unfold is_type, is_kw. intros E%bool_decide_unpack Hne. apply andb_false_iff. left. apply bool_decide_eq_false. congruence.
Qed.

(** Runs a test whose answer is known, then the branch it takes. *)
Ltac rtest lem := eapply run_bind; [apply lem|]; simpl.

Lemma run_step {A} (f : Token → A) k rest : run (x ← Advance; mret (f x)) (k :: rest) (f k) rest.
Proof. eapply run_bind; [apply run_Advance|apply run_ret]. Qed.

Lemma complete_ExpectKeyword kw k rest : is_kw kw k → run (ExpectKeyword kw) (k :: rest) tt rest.
Proof. intros Hk. rtest run_IsKeyword. rewrite (Is_true_eq_true _ Hk). apply (run_step (λ _, tt)). Qed.

Lemma complete_ExpectType ty what k rest : is_type ty k → run (ExpectType ty what) (k :: rest) k rest.
Proof. intros Hk. rtest run_peek_is. rewrite (Is_true_eq_true _ Hk). apply run_Advance. Qed.

Lemma complete_ExpectIdentifier ts c rest : g_identifier ts c → run ExpectIdentifier (ts ++ rest) c rest.
Proof. intros [k Hk]. eapply run_bind; [by apply complete_ExpectType|apply run_ret]. Qed.

Lemma complete_ParseColumnType ts ty rest : g_type ts ty → run ParseColumnType (ts ++ rest) ty rest.
Proof.
  intros [k Hk|k Hk]; rtest run_IsKeyword.
  - rewrite (Is_true_eq_true _ Hk). apply (run_step (λ _, INTEGER)).
  - rewrite (is_kw_unique _ _ _ Hk) by done. rtest run_IsKeyword. rewrite (Is_true_eq_true _ Hk). apply (run_step (λ _, TEXT)).
Qed.

Lemma complete_ParseLiteral ts v rest : g_literal ts v → run ParseLiteral (ts ++ rest) v rest.
Proof.
  intros [k Hk|k Hk]; rtest run_peek_is.
  - rewrite (Is_true_eq_true _ Hk). apply (run_step (λ k, VInt (int_value k))).
  - rewrite (is_type_unique _ _ _ Hk) by done. rtest run_peek_is. rewrite (Is_true_eq_true _ Hk).
    apply (run_step (λ k, VText (text k))).
Qed.

Lemma complete_ParseCompareOp ts o rest : g_op ts o → run ParseCompareOp (ts ++ rest) o rest.
Proof.
  intros [k o' Hk]. eapply run_bind; [apply run_Peek|]. apply bool_decide_unpack in Hk. rewrite Hk.
  destruct o'; apply (run_step (λ _, _)).
Qed.

Lemma complete_column_def ts c rest : g_column ts c → run column_def (ts ++ rest) c rest.
Proof.
  intros [t1 t2 c' ty H1 H2]. rewrite <-app_assoc. eapply run_bind; [by apply complete_ExpectIdentifier|].
  eapply run_bind; [by apply complete_ParseColumnType|]. apply run_ret.
Qed.

Lemma complete_comparison ts c rest : g_comparison ts c → run comparison (ts ++ rest) c rest.
Proof.
  intros [t1 t2 t3 c' o l H1 H2 H3]. rewrite <-!app_assoc. eapply run_bind; [by apply complete_ExpectIdentifier|].
  eapply run_bind; [by apply complete_ParseCompareOp|]. eapply run_bind; [by apply complete_ParseLiteral|]. apply run_ret.
Qed.

Section complete_list.
Context {A : Type} (item : M t A) (more : M t bool) (sep : Token → bool) (G : list Token → A → Prop).
Hypothesis Hitem : ∀ ts x rest, G ts x → run item (ts ++ rest) x rest.
Hypothesis Hmore : ∀ k rest, run more (k :: rest) (sep k) (k :: rest).

Lemma complete_items ts xs e rest : g_list sep G ts xs → sep e = false →
  ∀ fuel out, (length ts < fuel)%nat → run (items item more fuel out) (ts ++ e :: rest) (out ++ xs) (e :: rest).
Proof using Hitem Hmore.
  intros Hl He. induction Hl as [ts x Hx|ts k ts' x xs Hx Hk Hl IH]; intros [|fuel] out Hf; try lia; cbn [items].
  - eapply run_bind; [by apply Hitem|]. rtest Hmore. rewrite He. apply run_ret.
  - rewrite length_app in Hf. simpl in Hf. rewrite <-app_assoc. simpl. eapply run_bind; [by apply Hitem|].
    rtest Hmore. rewrite (Is_true_eq_true _ Hk). eapply run_bind; [apply run_Advance|].
    replace (out ++ x :: xs) with ((out ++ [x]) ++ xs) by (by rewrite <-app_assoc). apply IH. lia.
Qed.

Lemma complete_list_then {B} (f : list A → M t B) ts xs e rest y rest' :
  g_list sep G ts xs → sep e = false → run (f xs) (e :: rest) y rest' →
  run (p ← get; xs ← items item more (fuel_of p) []; f xs) (ts ++ e :: rest) y rest'.
Proof using Hitem Hmore.
  intros Hl He Hf. apply (run_fuel (λ n, xs ← items item more n []; f xs)). intros n Hn.
  eapply run_bind; [|exact Hf]. apply (complete_items ts xs e rest Hl He n []). rewrite length_app in Hn. simpl in Hn. lia.
Qed.

Lemma complete_list ts xs e rest :
  g_list sep G ts xs → sep e = false →
  run (p ← get; items item more (fuel_of p) []) (ts ++ e :: rest) xs (e :: rest).
Proof using Hitem Hmore.
  intros Hl He. apply (run_fuel (λ n, items item more n [])). intros n Hn.
  apply (complete_items ts xs e rest Hl He n []). rewrite length_app in Hn. simpl in Hn. lia.
Qed.
End complete_list.

(** The tokens that can follow a statement. *)
Definition follows (e : Token) : bool := is_type SEMICOLON e || is_type END e.

Lemma follows_kw kw e : follows e → is_kw kw e = false.
Proof. intros [H|H]%orb_prop_elim; eapply is_type_kw; done. Qed.

Lemma complete_ParseWhereClause ts w e rest :
  g_where ts w → follows e → run ParseWhereClause (ts ++ e :: rest) w (e :: rest).
Proof.
  intros [|k ts' w' Hk Hl] He; simpl; rtest run_IsKeyword.
  - rewrite follows_kw by done. apply run_ret.
  - rewrite (Is_true_eq_true _ Hk). eapply run_bind; [apply run_Advance|].
    apply (complete_list _ _ (is_kw "AND") g_comparison); [apply complete_comparison|apply run_IsKeyword|done|by apply follows_kw].
Qed.

Lemma complete_columns ts star cs e rest {B} (f : bool → list string → M t B) y rest' :
  g_columns ts star cs → is_type COMMA e = false → run (f star cs) (e :: rest) y rest' →
  run (star ← peek_is STAR;
       cols ← (if star : bool then _ ← Advance; mret []
               else p ← get; items ExpectIdentifier (peek_is COMMA) (fuel_of p) []);
       f star cols) (ts ++ e :: rest) y rest'.
Proof.
  intros [k Hk|ts' cs' Hl] He Hf.
  - simpl. rtest run_peek_is. rewrite (Is_true_eq_true _ Hk). eapply run_bind; [apply (run_step (λ _, []))|done].
  - assert (∃ k r, ts' ++ e :: rest = k :: r ∧ is_type STAR k = false) as (k & r & E & Hk).
    { destruct Hl as [? ? [k Hk]|? ? ? ? ? [k Hk]]; simpl; eexists _, _; (split; [done|]); by eapply is_type_unique. }
    rewrite E. rtest run_peek_is. rewrite Hk, <-E. eapply run_bind; [|exact Hf].
    apply (complete_list _ _ (is_type COMMA) g_identifier); [apply complete_ExpectIdentifier|apply run_peek_is|done|done].
Qed.

Lemma complete_ParseStatement ts s e rest :
  g_statement ts s → follows e → run ParseStatement (ts ++ e :: rest) s (e :: rest).
Proof.
  intros Hs He. destruct Hs as [k1 k2 t1 k3 t2 k4 name c cs H1 H2 H3 H4 H5 H6 Hc|k1 k2 t1 k3 k4 t2 k5 name vs H1 H2 H3 H4 H5 H6 H7
    |k1 t1 k2 t2 t3 star cs name w H1 H2 H3 H4 H5|k1 k2 t1 t2 name w H1 H2 H3 H4]; simpl; rewrite <-!app_assoc; simpl;
    rtest run_IsKeyword; rewrite ?(is_kw_unique _ _ _ H1) by done.
  - rewrite (Is_true_eq_true _ H1). eapply run_bind; [apply run_Advance|]. eapply run_bind; [by apply complete_ExpectKeyword|].
    eapply run_bind; [by apply complete_ExpectIdentifier|]. eapply run_bind; [by apply complete_ExpectType|].
    rewrite <-app_assoc. simpl. apply (complete_list_then _ _ (is_type COMMA) g_column) with (xs := c :: cs);
      [apply complete_column_def|apply run_peek_is|done|by eapply is_type_unique|].
    eapply run_bind; [by apply complete_ExpectType|]. rewrite bool_decide_eq_false_2 by (by intros ?). apply run_ret.
  - rtest run_IsKeyword. rewrite (Is_true_eq_true _ H1). eapply run_bind; [apply run_Advance|].
    eapply run_bind; [by apply complete_ExpectKeyword|].
    eapply run_bind; [by apply complete_ExpectIdentifier|]. eapply run_bind; [by apply complete_ExpectKeyword|].
    eapply run_bind; [by apply complete_ExpectType|].
    rewrite <-app_assoc. simpl. apply (complete_list_then _ _ (is_type COMMA) g_literal) with (xs := vs);
      [apply complete_ParseLiteral|apply run_peek_is|done|by eapply is_type_unique|].
    eapply run_bind; [by apply complete_ExpectType|]. apply run_ret.
  - rtest run_IsKeyword. rewrite (is_kw_unique _ _ _ H1) by done. rtest run_IsKeyword. rewrite (Is_true_eq_true _ H1).
    eapply run_bind; [apply run_Advance|]. eapply complete_columns; [done|by eapply is_kw_type|].
    eapply run_bind; [by apply complete_ExpectKeyword|]. rewrite <-app_assoc. eapply run_bind; [by apply complete_ExpectIdentifier|].
    eapply run_bind; [by apply complete_ParseWhereClause|]. apply run_ret.
  - rtest run_IsKeyword. rewrite (is_kw_unique _ _ _ H1) by done. rtest run_IsKeyword. rewrite (is_kw_unique _ _ _ H1) by done.
    rtest run_IsKeyword. rewrite (Is_true_eq_true _ H1).
    eapply run_bind; [apply run_Advance|].
    eapply run_bind; [by apply complete_ExpectKeyword|]. eapply run_bind; [by apply complete_ExpectIdentifier|].
    eapply run_bind; [by apply complete_ParseWhereClause|]. apply run_ret.
Qed.

Lemma complete_ExpectEnd ts e :
  ts = [] ∨ (∃ k, is_type SEMICOLON k ∧ ts = [k]) → is_type END e → run ExpectEndOfStatement (ts ++ [e]) tt [e].
Proof.
  intros [->|(k & Hk & ->)] He; simpl; rtest run_peek_is.
  - rewrite (is_type_unique _ _ _ He) by done. eapply run_bind; [apply run_ret|]. rtest run_peek_is.
    rewrite (Is_true_eq_true _ He). apply run_ret.
  - rewrite (Is_true_eq_true _ Hk). eapply run_bind; [apply (run_step (λ _, tt))|]. rtest run_peek_is.
    rewrite (Is_true_eq_true _ He). apply run_ret.
Qed.

(** ** Texts *)

Lemma rendering_closed l trailing : rendering l trailing = true → closed (l.*2 ++ [tok END EmptyString]).
Proof.
  intros Hr. exists l.*2, (tok END EmptyString). split_and!; [done..|]. intros k Hk E.
  pose proof (rendering_valid _ _ _ Hr Hk) as Hv. unfold valid_token in Hv. by rewrite E in Hv.
Qed.

(** The two calls of [Parse] on the tokens of a text. *)
Definition parse_tokens : M t Statement := stmt ← ParseStatement; ExpectEndOfStatement;; mret stmt.

Lemma sound_tokens toks :
  closed (toks ++ [tok END EmptyString]) → wp parse_tokens (toks ++ [tok END EmptyString]) (λ s _, g_program toks s).
Proof.
  intros Hc. apply wp_bind. eapply wp_mono; [|by apply sound_ParseStatement]. intros s r (ts & E & Hr & Hs).
  apply wp_bind. eapply wp_mono; [|by apply sound_ExpectEnd]. intros [] ? (e & [->|(k & Hk & ->)]); apply wp_ret.
  - apply app_inj_tail in E as [<- _]. by constructor.
  - rewrite (app_assoc ts [k] [e] : ts ++ [k; e] = _) in E. apply app_inj_tail in E as [-> _]. by constructor.
Qed.

Lemma complete_tokens toks s :
  g_program toks s → ∃ rest, run parse_tokens (toks ++ [tok END EmptyString]) s rest.
Proof.
  intros [ts s' Hs|ts k s' Hs Hk]; eexists.
  - eapply run_bind; [by apply complete_ParseStatement|]. eapply run_bind; [|apply run_ret].
    apply (complete_ExpectEnd []); [by left|done].
  - rewrite <-app_assoc. simpl. eapply run_bind; [apply complete_ParseStatement; [done|]|].
    + unfold follows. by rewrite (Is_true_eq_true _ Hk).
    + eapply run_bind; [|apply run_ret]. apply (complete_ExpectEnd [k]); [right; eauto|done].
Qed.

Lemma Parse_tokens sql toks : Lexer.Tokenize sql = Val toks → Parse sql = (parse_tokens (mk toks 0)).1.
Proof. unfold Parse. by intros ->. Qed.

Lemma Parse_accepts l trailing s :
  rendering l trailing = true → g_program l.*2 s → Parse (of_chars (render l trailing)) = Val s.
Proof.
  intros Hr Hg. rewrite (Parse_tokens _ _ (Tokenize_render _ _ Hr)). destruct (complete_tokens _ _ Hg) as (rest & Hrun).
  destruct (Hrun (l.*2 ++ [tok END EmptyString]) 0%nat eq_refl) as (pos & E & _).
  exact (f_equal fst E).
Qed.

Lemma Parse_cases sql :
  (∃ l trailing s, sql = of_chars (render l trailing) ∧ rendering l trailing = true ∧ g_program l.*2 s ∧ Parse sql = Val s) ∨
  (∃ msg, Parse sql = Exn (SqlException msg)) ∨ Parse sql = Exn (OutOfRange "stoll").
Proof.
  destruct (Tokenize_cases sql) as [(l & tr & Es & Hr & Et)|Et].
  2: { unfold Parse. destruct Et as [(msg & ->)| ->]; eauto. }
  rewrite (Parse_tokens _ _ Et).
  pose proof (sound_tokens l.*2 (rendering_closed _ _ Hr) (l.*2 ++ [tok END EmptyString]) 0%nat eq_refl) as Hw.
  destruct (parse_tokens _) as [[s|[]| |] p]; try done; simpl.
  - left. destruct Hw as (pos & _ & Hg). by exists l, tr, s.
  - right. left. eauto.
Qed.
