(* ===== verification/Catalog.v ===== *)
(** * Catalog: schemas, keys and rows (sql/catalog.h, sql/catalog.cpp) *)

From S2P Require Import Prelude Bytes Sql.

(** ** Schemas *)

Record TableSchema := mkSchema {
  name : string;
  table_id : Z;
  columns : list ColumnDefAst;
}.

Fixpoint column_index (i : Z) (cols : list ColumnDefAst) (c : string) : Z :=
  match cols with
  | [] => -1
  | d :: cols => if bool_decide (col_name d = c) then i else column_index (i + 1) cols c
  end.

Definition ColumnIndex (schema : TableSchema) (c : string) : Z := column_index 0 (columns schema) c.

(** [v[idx]] of a vector: out of range is undefined behaviour. *)
Definition at_index {A} (l : list A) (idx : Z) : res A :=
  if idx <? 0 then Undef else match l !! Z.to_nat idx with Some x => Val x | None => Undef end.

(** ** Keys *)

Definition kTableIdBits : Z := 16.
Definition kRowKeyBits : Z := 64 - kTableIdBits.
Definition kMaxRowKey : Z := Z.shiftl 1 kRowKeyBits - 1.
Definition kMaxTables : Z := Z.shiftl 1 kTableIdBits.

(** The shift of a signed value wraps around. *)
Definition EncodeKey (id pk : Z) : KeyType := Z.lor (s64 (Z.shiftl id kRowKeyBits)) (Z.land pk kMaxRowKey).
Definition DecodeRowKey (key : KeyType) : Z := Z.land key kMaxRowKey.
Definition DecodeTableId (key : KeyType) : Z :=
  u16 (Z.land (Z.shiftr (u64 key) kRowKeyBits) (kMaxTables - 1)).

(** ** Rows *)

Definition AppendInteger (out : bytes) (v : Z) : bytes := out ++ le_enc 8 v.

Definition AppendText (out : bytes) (s : string) : res bytes :=
  if 65535 <? ssize s then Exn (SqlException "TEXT value too long (max 65535 bytes)")
  else Val (out ++ le_enc 2 (u16 (ssize s)) ++ chars s).

(** Readers answer the field and the offset after it. *)
Definition ReadInteger (payload : bytes) (offset : Z) : res (Z * Z) :=
  if blen payload <? offset + 8 then Exn (SqlException "corrupt row: truncated INTEGER field")
  else Val (get_i64 payload offset, offset + 8).

Definition ReadText (payload : bytes) (offset : Z) : res (string * Z) :=
  if blen payload <? offset + 2 then Exn (SqlException "corrupt row: truncated TEXT length prefix") else
  let len := get_u16 payload offset in
  if blen payload <? offset + 2 + len then Exn (SqlException "corrupt row: truncated TEXT payload")
  else Val (of_chars (block payload (offset + 2) len), offset + 2 + len).

(** The loop of [EncodeRow] over the columns from 1 on. *)
Fixpoint append_columns (cols : list ColumnDefAst) (values : list Value) (payload : bytes) : res bytes :=
  match cols with
  | [] => Val payload
  | c :: cols =>
      match values with
      | [] => Undef
      | v :: values =>
          match col_type c with
          | INTEGER =>
              if is_int v then
                z ← get_int v;
                append_columns cols values (AppendInteger payload z)
              else Exn (SqlException ("column '" +:+ col_name c +:+ "' expects an INTEGER value"))
          | TEXT =>
              if negb (is_int v) then
                s ← get_text v;
                payload ← AppendText payload s;
                append_columns cols values payload
              else Exn (SqlException ("column '" +:+ col_name c +:+ "' expects a TEXT value"))
          end
      end
  end.

Definition EncodeRow (schema : TableSchema) (values : list Value) : res string :=
  if negb (length values =? length (columns schema))%nat then
    Exn (SqlException ("expected " +:+ to_string (Z.of_nat (length (columns schema))) +:+ " values for table '" +:+
      name schema +:+ "', got " +:+ to_string (Z.of_nat (length values))))
  else
    payload ← append_columns (drop 1 (columns schema)) (drop 1 values) [];
    if MAX_VALUE_SIZE <? blen payload then
      Exn (SqlException ("row for table '" +:+ name schema +:+ "' is " +:+ to_string (blen payload) +:+
        " bytes, exceeding the " +:+ to_string MAX_VALUE_SIZE +:+
        "-byte row cap (see DESIGN.md — MAX_VALUE_SIZE is shared with the storage engines)"))
    else Val (of_chars payload).

(** The loop of [DecodeRow]. *)
Fixpoint read_columns (cols : list ColumnDefAst) (payload : bytes) (offset : Z) : res (list Value) :=
  match cols with
  | [] => Val []
  | c :: cols =>
      '(v, offset) ← match col_type c with
                     | INTEGER => '(z, o) ← ReadInteger payload offset; Val (VInt z, o)
                     | TEXT => '(s, o) ← ReadText payload offset; Val (VText s, o)
                     end;
      vs ← read_columns cols payload offset;
      Val (v :: vs)
  end.

Definition DecodeRow (schema : TableSchema) (primary_key : Z) (payload : string) : res (list Value) :=
  vs ← read_columns (drop 1 (columns schema)) (chars payload) 0;
  Val (VInt primary_key :: vs).

(** ** Catalog *)

Module Catalog.

Record t := mk {
  tables_ : gmap string TableSchema;
  next_table_id_ : Z;
}.

Definition empty : t := mk ∅ 0.

Definition HasTable (n : string) (c : t) : bool := bool_decide (is_Some (tables_ c !! n)).

Definition CreateTable (n : string) (cols : list ColumnDefAst) : M t TableSchema :=
  c ← get;
  if HasTable n c then throw (SqlException ("table '" +:+ n +:+ "' already exists")) else
  if kMaxTables <=? next_table_id_ c then throw (SqlException "table id space exhausted") else
  let schema := mkSchema n (next_table_id_ c) cols in
  put (mk (<[n := schema]> (tables_ c)) (u16 (next_table_id_ c + 1)));;
  mret schema.

Definition GetTable (n : string) (c : t) : res TableSchema :=
  match tables_ c !! n with
  | Some schema => Val schema
  | None => Exn (SqlException ("no such table: '" +:+ n +:+ "'"))
  end.

End Catalog.
