(* ===== verification/CatalogTheory.v ===== *)
(** * Catalog: keys and rows read back what was written *)

From S2P Require Import Prelude Entries Bytes Sql Catalog.

(** ** Keys *)

Definition is_id (id : Z) : Prop := 0 ≤ id < 2 ^ 16.
Definition is_pk (pk : Z) : Prop := 0 ≤ pk < 2 ^ 48.

Lemma kMaxRowKey_ones : kMaxRowKey = Z.ones 48.
Proof. done. Qed.

Lemma DecodeRowKey_mod key : DecodeRowKey key = key `mod` 2 ^ 48.
Proof. unfold DecodeRowKey. rewrite kMaxRowKey_ones. by apply Z.land_ones. Qed.

Lemma s64_shift id : s64 (Z.shiftl id 48) = 2 ^ 48 * ((id + 2 ^ 15) `mod` 2 ^ 16 - 2 ^ 15).
Proof.
  unfold s64. rewrite Z.shiftl_mul_pow2 by lia.
  replace (id * 2 ^ 48 + 2 ^ 63) with (2 ^ 48 * (id + 2 ^ 15)) by lia.
  change (2 ^ 64) with (2 ^ 48 * 2 ^ 16). rewrite Z.mul_mod_distr_l by lia. lia.
Qed.

(** The key of row [pk] of table [id]. *)
Lemma EncodeKey_eq id pk :
  EncodeKey id pk = 2 ^ 48 * ((id + 2 ^ 15) `mod` 2 ^ 16 - 2 ^ 15) + pk `mod` 2 ^ 48.
Proof.
  unfold EncodeKey. change (Z.land pk kMaxRowKey) with (DecodeRowKey pk). rewrite DecodeRowKey_mod.
  change (s64 (Z.shiftl id kRowKeyBits)) with (s64 (Z.shiftl id 48)). rewrite s64_shift.
  set (a := (id + 2 ^ 15) `mod` 2 ^ 16 - 2 ^ 15). set (b := pk `mod` 2 ^ 48).
  assert (Hb : 0 ≤ b < 2 ^ 48) by (apply Z.mod_pos_bound; lia).
  assert (Hd : Z.land (2 ^ 48 * a) b = 0).
  { rewrite Z.mul_comm, <-Z.shiftl_mul_pow2 by lia. apply Z.bits_inj'. intros n Hn. rewrite Z.land_spec, Z.bits_0.
    destruct (Z.lt_ge_cases n 48) as [Hlt|Hge]; [by rewrite Z.shiftl_spec_low|].
    replace b with (b `mod` 2 ^ 48) by (by apply Z.mod_small). rewrite Z.mod_pow2_bits_high by lia. by rewrite andb_false_r. }
  by rewrite Z.add_nocarry_lxor, Z.lxor_lor by done.
Qed.

Lemma EncodeKey_i64 id pk : is_i64 (EncodeKey id pk).
Proof.
  rewrite EncodeKey_eq. unfold is_i64, int64_min, int64_max.
  pose proof (Z.mod_pos_bound (id + 2 ^ 15) (2 ^ 16)). pose proof (Z.mod_pos_bound pk (2 ^ 48)). lia.
Qed.

Lemma DecodeRowKey_pk key : is_pk (DecodeRowKey key).
Proof. rewrite DecodeRowKey_mod. apply Z.mod_pos_bound. lia. Qed.

Lemma DecodeRowKey_Encode id pk : DecodeRowKey (EncodeKey id pk) = pk `mod` 2 ^ 48.
Proof. rewrite DecodeRowKey_mod, EncodeKey_eq, Z.mul_comm, Z.add_comm, Z_mod_plus_full. by apply Zmod_mod. Qed.

Lemma DecodeTableId_eq key : DecodeTableId key = (key / 2 ^ 48) `mod` 2 ^ 16.
Proof.
  unfold DecodeTableId, u16, u64. change (kMaxTables - 1) with (Z.ones 16). change kRowKeyBits with 48.
  rewrite Z.land_ones, Zmod_mod, Z.shiftr_div_pow2 by lia. change (2 ^ 64) with (2 ^ 48 * 2 ^ 16).
  rewrite Z.rem_mul_r by lia. rewrite (Z.mul_comm (2 ^ 48)), Z_div_plus_full by lia.
  rewrite (Z.div_small (key `mod` 2 ^ 48)) by (apply Z.mod_pos_bound; lia). rewrite Z.add_0_l. by rewrite Zmod_mod.
Qed.

Lemma DecodeTableId_Encode id pk : is_id id → DecodeTableId (EncodeKey id pk) = id.
Proof.
  intros Hid. rewrite DecodeTableId_eq, EncodeKey_eq, Z.add_comm, (Z.mul_comm (2 ^ 48)), Z_div_plus_full by lia.
  rewrite (Z.div_small (pk `mod` 2 ^ 48)) by (apply Z.mod_pos_bound; lia). rewrite Z.add_0_l.
  rewrite Zminus_mod_idemp_l. replace (id + 2 ^ 15 - 2 ^ 15) with id by lia. apply Z.mod_small, Hid.
Qed.

Lemma Encode_Decode key : is_i64 key → EncodeKey (DecodeTableId key) (DecodeRowKey key) = key.
Proof.
  unfold is_i64, int64_min, int64_max. intros Hk. rewrite EncodeKey_eq, DecodeTableId_eq, DecodeRowKey_mod, Zmod_mod.
  rewrite Zplus_mod_idemp_l.
  pose proof (Z.div_mod key (2 ^ 48) ltac:(lia)). pose proof (Z.mod_pos_bound key (2 ^ 48) ltac:(lia)).
  rewrite (Z.mod_small (key / 2 ^ 48 + 2 ^ 15)) by lia. lia.
Qed.

(** Rows of a table are in key order, and next to each other. *)
Lemma EncodeKey_lt id pk pk' : is_pk pk → is_pk pk' → EncodeKey id pk < EncodeKey id pk' ↔ pk < pk'.
Proof. unfold is_pk. intros. rewrite !EncodeKey_eq, (Z.mod_small pk), (Z.mod_small pk') by done. lia. Qed.

Lemma between_table id key key' pk :
  is_i64 key → is_i64 key' → is_id id → DecodeTableId key' = id → EncodeKey id pk ≤ key → key ≤ key' → DecodeTableId key = id.
Proof.
  intros Hk Hk' Hid Hid' H1 H2. rewrite <-(Encode_Decode key' Hk'), Hid' in H2. rewrite EncodeKey_eq in H1, H2.
  pose proof (DecodeRowKey_pk key') as Hp. unfold is_pk in Hp. rewrite (Z.mod_small (DecodeRowKey key')) in H2 by done.
  pose proof (Z.mod_pos_bound pk (2 ^ 48) ltac:(lia)). set (a := (id + 2 ^ 15) `mod` 2 ^ 16 - 2 ^ 15) in *.
  rewrite DecodeTableId_eq. replace (key / 2 ^ 48) with a by (apply Z.div_unique with (key - 2 ^ 48 * a); lia).
  unfold a. rewrite Zminus_mod_idemp_l. replace (id + 2 ^ 15 - 2 ^ 15) with id by lia. apply Z.mod_small, Hid.
Qed.

(** ** Rows *)

(** A value of a column type, of the machine types. *)
Definition cell_ok (c : ColumnDefAst) (v : Value) : Prop :=
  match col_type c, v with
  | INTEGER, VInt z => is_i64 z
  | TEXT, VText s => ssize s ≤ 65535
  | _, _ => False
  end.

Definition cell_bytes (v : Value) : bytes :=
  match v with
  | VInt z => le_enc 8 z
  | VText s => le_enc 2 (ssize s) ++ chars s
  end.

Definition cells_bytes (vs : list Value) : bytes := concat (cell_bytes <$> vs).

Lemma append_columns_ok cols vs payload :
  Forall2 cell_ok cols vs → append_columns cols vs payload = Val (payload ++ cells_bytes vs).
Proof.
  intros H. revert payload. induction H as [|c v cols vs Hc _ IH]; intros payload.
  { unfold cells_bytes. simpl. by rewrite app_nil_r. }
  unfold cell_ok in Hc. cbn [append_columns]. unfold cells_bytes. cbn [fmap list_fmap concat].
  destruct (col_type c), v as [z|s]; try done; simpl.
  - unfold AppendInteger. rewrite IH. by rewrite <-app_assoc.
  - unfold AppendText. rewrite (proj2 (Z.ltb_ge _ _)) by done. cbn. rewrite IH. unfold u16.
    pose proof (ssize_nonneg s). rewrite Z.mod_small by lia. by rewrite <-!app_assoc.
Qed.

(** What [EncodeRow] accepts is typed. *)
Definition value_ok (v : Value) : Prop := match v with VInt z => is_i64 z | VText _ => True end.

Lemma append_columns_inv cols vs payload out :
  Forall value_ok vs → append_columns cols vs payload = Val out → length vs = length cols → Forall2 cell_ok cols vs.
Proof.
  intros Hv. revert cols payload. induction Hv as [|v vs Hv _ IH]; intros [|c cols] payload; simpl; [by constructor|done|done|].
  intros E [= Hl]. destruct (col_type c) eqn:Ec, v as [z|s]; simpl in E; try done.
  - constructor; [unfold cell_ok; by rewrite Ec|by eapply IH].
  - unfold AppendText in E. destruct (Z.ltb_spec 65535 (ssize s)) as [|Hs]; simpl in E; [done|].
    constructor; [unfold cell_ok; by rewrite Ec|by eapply IH].
Qed.

Lemma append_columns_cases cols vs payload :
  length vs = length cols →
  (∃ out, append_columns cols vs payload = Val out) ∨ (∃ msg, append_columns cols vs payload = Exn (SqlException msg)).
Proof.
  revert vs payload. induction cols as [|c cols IH]; intros [|v vs] payload; simpl; try done; [by eauto|]. intros [= Hl].
  destruct (col_type c), v as [z|s]; simpl; eauto. unfold AppendText. destruct (65535 <? ssize s); simpl; eauto.
Qed.

Lemma read_columns_ok cols vs pre post :
  Forall2 cell_ok cols vs → read_columns cols (pre ++ cells_bytes vs ++ post) (blen pre) = Val vs.
Proof.
  intros H. revert pre. induction H as [|c v cols vs Hc _ IH]; intros pre; [done|].
  unfold cell_ok in Hc. cbn [read_columns]. unfold cells_bytes. cbn [fmap list_fmap concat]. fold (cells_bytes vs).
  pose proof (blen_nonneg pre). pose proof (blen_nonneg (cells_bytes vs)). pose proof (blen_nonneg post).
  destruct (col_type c), v as [z|s]; try done; cbn [cell_bytes].
  - unfold ReadInteger. rewrite !blen_app, blen_le_enc, (proj2 (Z.ltb_ge _ _)) by lia. cbn -[le_enc le_dec get_i64 get_u16 block].
    unfold get_i64. rewrite block_app_r, Z.sub_diag, <-app_assoc, block_app_l, block_all by (rewrite ?blen_le_enc; lia).
    specialize (IH (pre ++ le_enc 8 z)). rewrite blen_app, blen_le_enc, <-!app_assoc in IH.
    change (Z.of_nat 8) with 8 in IH. rewrite IH. cbn -[le_enc le_dec get_i64 get_u16 block].
    do 3 f_equal. change (s64 (le_dec (le_enc 8 z)) = z). rewrite le_dec_enc. by apply s64_mod.
  - pose proof (ssize_nonneg s) as Hs0. unfold ReadText. rewrite !blen_app, blen_le_enc, blen_chars.
    rewrite (proj2 (Z.ltb_ge _ _)) by lia.
    assert (Hlen : get_u16 (pre ++ ((le_enc 2 (ssize s) ++ chars s) ++ cells_bytes vs) ++ post) (blen pre) = ssize s).
    { unfold get_u16. rewrite block_app_r, Z.sub_diag, <-!app_assoc, block_app_l by (rewrite ?blen_le_enc; lia).
      rewrite (block_all (le_enc 2 (ssize s)) : block (le_enc 2 (ssize s)) 0 2 = _), le_dec_enc. apply Z.mod_small. lia. }
    rewrite Hlen, (proj2 (Z.ltb_ge _ _)) by lia. cbn -[le_enc le_dec get_i64 get_u16 block].
    rewrite block_app_r, <-!app_assoc, block_app_r, block_app_l by (rewrite ?blen_le_enc, ?blen_chars; lia).
    rewrite blen_le_enc. replace (blen pre + 2 - blen pre - Z.of_nat 2) with 0 by lia.
    rewrite <-blen_chars, block_all, of_chars_chars.
    specialize (IH (pre ++ le_enc 2 (ssize s) ++ chars s)). rewrite !blen_app, blen_le_enc, <-!app_assoc in IH.
    replace (blen pre + 2 + blen (chars s)) with (blen pre + (Z.of_nat 2 + blen (chars s))) by lia.
    rewrite blen_chars in *. rewrite IH. done.
Qed.
