(* ===== verification/Planner.v ===== *)
(** * Planner (sql/planner.h, sql/planner.cpp)

    The access path for a WHERE clause. *)

From S2P Require Import Prelude Bytes Sql Catalog.

Inductive AccessPathType := POINT_LOOKUP | RANGE_SCAN | FULL_SCAN.

#[global] Instance access_path_eq_dec : EqDecision AccessPathType.
Proof. solve_decision. Defined.

Record Plan := mkPlan {
  access_path : AccessPathType;
  point_key : Z;
  range_lo : Z;
  range_hi : Z;
  residual : Predicate;
}.

Definition ValidateComparison (schema : TableSchema) (cmp : Comparison) : res () :=
  let idx := ColumnIndex schema (column cmp) in
  if idx <? 0 then Exn (SqlException ("no such column: '" +:+ column cmp +:+ "' on table '" +:+ name schema +:+ "'")) else
  c ← at_index (columns schema) idx;
  if negb (bool_decide (bool_decide (col_type c = INTEGER) = is_int (literal cmp)))
  then Exn (SqlException ("type mismatch comparing column '" +:+ column cmp +:+ "'"))
  else Val tt.

Fixpoint validate (schema : TableSchema) (where_ : Predicate) : res () :=
  match where_ with
  | [] => Val tt
  | cmp :: rest => _ ← ValidateComparison schema cmp; validate schema rest
  end.

Definition pk_eq (pk_name : string) (cmp : Comparison) : bool :=
  bool_decide (column cmp = pk_name) && bool_decide (op cmp = OpEQ).

(** Pass 1: the first equality on the primary key, and the other comparisons.
    [before] holds those already passed. *)
Fixpoint point (pk_name : string) (before rest : Predicate) : option (Comparison * Predicate) :=
  match rest with
  | [] => None
  | cmp :: rest => if pk_eq pk_name cmp then Some (cmp, before ++ rest) else point pk_name (before ++ [cmp]) rest
  end.

(** Pass 2: [lo], [hi] and [found_bound] after the comparisons. *)
Fixpoint bounds (pk_name : string) (where_ : Predicate) (lo hi : Z) (found : bool) : res (Z * Z * bool) :=
  match where_ with
  | [] => Val (lo, hi, found)
  | cmp :: rest =>
      if negb (bool_decide (column cmp = pk_name)) then bounds pk_name rest lo hi found else
      v ← get_int (literal cmp);
      match op cmp with
      | OpLT => bounds pk_name rest lo (Z.min hi (if v =? int64_min then v else v - 1)) true
      | OpLE => bounds pk_name rest lo (Z.min hi v) true
      | OpGT => bounds pk_name rest (Z.max lo (if v =? int64_max then v else v + 1)) hi true
      | OpGE => bounds pk_name rest (Z.max lo v) hi true
      | OpEQ => bounds pk_name rest lo hi found
      end
  end.

Definition PlanQuery (schema : TableSchema) (where_ : Predicate) : res Plan :=
  _ ← validate schema where_;
  c ← at_index (columns schema) 0;
  let pk_name := col_name c in
  match point pk_name [] where_ with
  | Some (cmp, others) =>
      v ← get_int (literal cmp);
      Val (mkPlan POINT_LOOKUP v 0 int64_max others)
  | None =>
      '(lo, hi, found) ← bounds pk_name where_ 0 int64_max false;
      if found : bool then Val (mkPlan RANGE_SCAN 0 (Z.max lo 0) hi where_)
      else Val (mkPlan FULL_SCAN 0 0 int64_max where_)
  end.
