(* ===== verification/Executor.v ===== *)
(** * Executor (sql/executor.cpp)

    Runs a plan against any storage engine.  A scan's iterator is destroyed
    where its [std::unique_ptr] leaves the scope, also when an exception does. *)

From S2P Require Import Prelude Entries Bytes Sql Catalog Planner Engine.

Definition CompareOpMatches (o : CompareOp) (cmp : Z) : bool :=
  match o with
  | OpEQ => cmp =? 0
  | OpLT => cmp <? 0
  | OpLE => cmp <=? 0
  | OpGT => 0 <? cmp
  | OpGE => 0 <=? cmp
  end.

Fixpoint MatchesPredicate (schema : TableSchema) (row : list Value) (predicate : Predicate) : res bool :=
  match predicate with
  | [] => Val true
  | cmp :: rest =>
      let idx := ColumnIndex schema (column cmp) in
      if idx <? 0 then Val false else
      v ← at_index row idx;
      c ← CompareValues v (literal cmp);
      if CompareOpMatches (op cmp) c then MatchesPredicate schema row rest else Val false
  end.

Module Executor.
Section executor.
Context {E : Type} `{!StorageEngine E}.

Definition lift {A} (r : res A) : M E A := λ e, (r, e).

(** [m] with the iterator [it] in scope; an exception of the destructor while
    another one is on its way ends the program. *)
Definition scoped {A} (it : Iter) (m : M E A) : M E A := λ e,
  match m e with
  | (Exn x, e) =>
      match Destroy it e with
      | (Val _, e) => (Exn x, e)
      | (_, e) => (Undef, e)
      end
  | r => r
  end.

(** The scan loop: [emit key row] is what is pushed for a matching row.  The
    answer has the iterator as the loop leaves it.  [Next] that throws leaves
    an iterator with nothing to release. *)
Fixpoint scan_loop {A} (schema : TableSchema) (residual : Predicate) (hi : Z) (emit : KeyType → list Value → A)
    (fuel : nat) (it : Iter) (out : list A) : M E (Iter * list A) :=
  if IsValid it then
    match fuel with
    | O => λ e, (NoFuel, e)
    | S fuel =>
        key ← scoped it (GetKey it);
        if negb (DecodeTableId key =? table_id schema) then mret (it, out) else
        let row_key := DecodeRowKey key in
        if hi <? row_key then mret (it, out) else
        payload ← scoped it (GetValue it);
        row ← scoped it (lift (DecodeRow schema row_key payload));
        m ← scoped it (lift (MatchesPredicate schema row residual));
        it ← Next it;
        scan_loop schema residual hi emit fuel it (if m : bool then out ++ [emit key row] else out)
    end
  else mret (it, out).

Definition scan_bounds (plan : Plan) : Z * Z :=
  if bool_decide (access_path plan = RANGE_SCAN) then (range_lo plan, range_hi plan) else (0, int64_max).

Definition ExecuteFetch (fuel : nat) (schema : TableSchema) (plan : Plan) : M E (list (list Value)) :=
  if bool_decide (access_path plan = POINT_LOOKUP) then
    payload ← Get (EncodeKey (table_id schema) (point_key plan));
    match payload with
    | None => mret []
    | Some payload =>
        row ← lift (DecodeRow schema (point_key plan) payload);
        m ← lift (MatchesPredicate schema row (residual plan));
        mret (if m : bool then [row] else [])
    end
  else
    let '(start, hi) := scan_bounds plan in
    it ← Scan (EncodeKey (table_id schema) start);
    '(it, results) ← scan_loop schema (residual plan) hi (λ _ row, row) fuel it [];
    Destroy it;;
    mret results.

(** The second loop of [ExecuteDelete], with the iterator still in scope. *)
Fixpoint delete_keys (it : Iter) (keys : list KeyType) (deleted : Z) : M E Z :=
  match keys with
  | [] => mret deleted
  | key :: keys =>
      b ← scoped it (Delete key);
      delete_keys it keys (if b : bool then deleted + 1 else deleted)
  end.

Definition ExecuteDelete (fuel : nat) (schema : TableSchema) (plan : Plan) : M E Z :=
  if bool_decide (access_path plan = POINT_LOOKUP) then
    payload ← Get (EncodeKey (table_id schema) (point_key plan));
    match payload with
    | None => mret 0
    | Some payload =>
        row ← lift (DecodeRow schema (point_key plan) payload);
        m ← lift (MatchesPredicate schema row (residual plan));
        if m : bool then
          b ← Delete (EncodeKey (table_id schema) (point_key plan));
          mret (if b : bool then 1 else 0)
        else mret 0
    end
  else
    let '(start, hi) := scan_bounds plan in
    it ← Scan (EncodeKey (table_id schema) start);
    '(it, to_delete) ← scan_loop schema (residual plan) hi (λ key _, key) fuel it [];
    deleted ← delete_keys it to_delete 0;
    Destroy it;;
    mret deleted.
End executor.
End Executor.
