(* ===== verification/Database.v ===== *)
(** * Database (sql/database.h, sql/database.cpp)

    One statement per call, against one storage engine. *)

From S2P Require Import Prelude Entries Bytes Disk Replacer Buffer BTree Engine BTreeEngine.
From S2P Require Import Sql Lexer Parser Catalog Planner Executor.

Record QueryResult := mkResult {
  column_names : list string;
  rows : list (list Value);
  rows_affected : Z;
  message : string;
}.

Module Database.
Section database.
Context {E : Type} `{!StorageEngine E}.

Record t := mk {
  catalog_ : Catalog.t;
  engine_ : E;
}.

Definition lift {A} (r : res A) : M t A := λ d, (r, d).

(** Calls on the members. *)
Definition engine {A} (m : M E A) : M t A := λ d,
  let '(r, e) := m (engine_ d) in (r, mk (catalog_ d) e).
Definition catalog {A} (m : M Catalog.t A) : M t A := λ d,
  let '(r, c) := m (catalog_ d) in (r, mk c (engine_ d)).

Definition GetTable (n : string) : M t TableSchema := d ← get; lift (Catalog.GetTable n (catalog_ d)).

Definition ExecuteCreateTable (table_name : string) (cols : list ColumnDefAst) : M t QueryResult :=
  _ ← catalog (Catalog.CreateTable table_name cols);
  mret (mkResult [] [] 0 "CREATE TABLE").

Definition ExecuteInsert (table_name : string) (values : list Value) : M t QueryResult :=
  schema ← GetTable table_name;
  match values with
  | VInt pk :: _ =>
      if (pk <? 0) || (kMaxRowKey <? pk) then
        throw (SqlException ("primary key " +:+ to_string pk +:+ " is out of range [0, " +:+ to_string kMaxRowKey +:+ "]"))
      else
        payload ← lift (EncodeRow schema values);
        engine (Put (EncodeKey (table_id schema) pk) payload);;
        mret (mkResult [] [] 1 "INSERT 1")
  | _ => throw (SqlException "the primary key value must be an INTEGER")
  end.

(** The column names and indices a SELECT projects to. *)
Fixpoint projection (schema : TableSchema) (cols : list string) : res (list Z) :=
  match cols with
  | [] => Val []
  | c :: cols =>
      let idx := ColumnIndex schema c in
      if idx <? 0 then Exn (SqlException ("no such column: '" +:+ c +:+ "' on table '" +:+ name schema +:+ "'")) else
      rest ← projection schema cols;
      Val (idx :: rest)
  end.

(** [for (int idx : projection) projected.push_back(row[idx])] *)
Fixpoint project (row : list Value) (idxs : list Z) : res (list Value) :=
  match idxs with
  | [] => Val []
  | i :: idxs => v ← at_index row i; vs ← project row idxs; Val (v :: vs)
  end.

Fixpoint project_all (rows : list (list Value)) (idxs : list Z) : res (list (list Value)) :=
  match rows with
  | [] => Val []
  | row :: rows => r ← project row idxs; rs ← project_all rows idxs; Val (r :: rs)
  end.

Definition ExecuteSelect (fuel : nat) (table_name : string) (select_star : bool) (cols : list string) (where_ : Predicate) :
    M t QueryResult :=
  schema ← GetTable table_name;
  plan ← lift (PlanQuery schema where_);
  rows ← engine (Executor.ExecuteFetch fuel schema plan);
  '(names, idxs) ← lift (if select_star
                         then Val (col_name <$> columns schema, Z.of_nat <$> seq 0 (length (columns schema)))
                         else idxs ← projection schema cols; Val (cols, idxs));
  rows ← lift (project_all rows idxs);
  let n := Z.of_nat (length rows) in
  mret (mkResult names rows n ("SELECT " +:+ to_string n)).

Definition ExecuteDeleteStmt (fuel : nat) (table_name : string) (where_ : Predicate) : M t QueryResult :=
  schema ← GetTable table_name;
  plan ← lift (PlanQuery schema where_);
  deleted ← engine (Executor.ExecuteDelete fuel schema plan);
  mret (mkResult [] [] deleted ("DELETE " +:+ to_string deleted)).

Definition execute (fuel : nat) (stmt : Statement) : M t QueryResult :=
  match stmt with
  | CreateTableStmt n cols => ExecuteCreateTable n cols
  | InsertStmt n values => ExecuteInsert n values
  | SelectStmt n star cols w => ExecuteSelect fuel n star cols w
  | DeleteStmt n w => ExecuteDeleteStmt fuel n w
  end.

Definition Execute (fuel : nat) (sql : string) : M t QueryResult :=
  stmt ← lift (Parse sql);
  execute fuel stmt.
End database.
Arguments t : clear implicits.

(** ** Opening a database on the B+-tree engine *)

Definition kDefaultBufferPoolFrames : Z := 256.

Abbreviation btree := (BPlusTree.t (BufferPoolManager.t LRUKReplacer.t)) (only parsing).

(** [MakeEngine] for [EngineType::BTREE], and the constructor. *)
Definition MakeEngine (db_path : string) (f : DiskManager.file) : res btree * DiskManager.file :=
  BPlusTreeEngine.Open db_path kDefaultBufferPoolFrames f.

Definition New (db_path : string) (f : DiskManager.file) : res (t btree) * DiskManager.file :=
  match MakeEngine db_path f with
  | (Val e, f) => (Val (mk Catalog.empty e), f)
  | (Exn x, f) => (Exn x, f)
  | (Undef, f) => (Undef, f)
  | (NoFuel, f) => (NoFuel, f)
  end.
End Database.
