(* ===== verification/SqlSpec.v ===== *)
(** * What SQL statements mean

    A database is a map from names to tables, a table is its columns and its
    rows in primary-key order; statements are functions on databases.  No keys,
    no payloads, no access paths. *)

From S2P Require Import Prelude Entries Bytes Sql Catalog Database.

Record table := mkTable {
  cols : list ColumnDefAst;
  trows : list (Z * list Value);
}.

Abbreviation db := (gmap string table) (only parsing).

(** ** Comparisons *)

Definition holds_op (o : CompareOp) (c : comparison) : bool :=
  match o, c with
  | OpEQ, Eq | OpLT, Lt | OpLE, (Lt | Eq) | OpGT, Gt | OpGE, (Gt | Eq) => true
  | _, _ => false
  end.

Definition sat_op (o : CompareOp) (v lit : Value) : bool :=
  match v, lit with
  | VInt x, VInt y => holds_op o (x ?= y)
  | VText x, VText y => holds_op o (String.compare x y)
  | _, _ => false
  end.

(** The value of the first column of that name. *)
Fixpoint cell (cs : list ColumnDefAst) (row : list Value) (c : string) : option Value :=
  match cs, row with
  | d :: cs, v :: row => if bool_decide (col_name d = c) then Some v else cell cs row c
  | _, _ => None
  end.

Definition sat (cs : list ColumnDefAst) (row : list Value) (cmp : Comparison) : bool :=
  match cell cs row (column cmp) with
  | Some v => sat_op (op cmp) v (literal cmp)
  | None => false
  end.

Definition sat_all (cs : list ColumnDefAst) (row : list Value) (w : Predicate) : bool := forallb (sat cs row) w.

(** ** Well-formed statements *)

Fixpoint type_of (cs : list ColumnDefAst) (c : string) : option ColumnType :=
  match cs with
  | [] => None
  | d :: cs => if bool_decide (col_name d = c) then Some (col_type d) else type_of cs c
  end.

Definition typed_cmp (cs : list ColumnDefAst) (cmp : Comparison) : bool :=
  match type_of cs (column cmp) with
  | Some ty => bool_decide (bool_decide (ty = INTEGER) = is_int (literal cmp))
  | None => false
  end.

Definition typed_cell (c : ColumnDefAst) (v : Value) : bool :=
  match col_type c, v with
  | INTEGER, VInt _ => true
  | TEXT, VText s => ssize s <=? 65535
  | _, _ => false
  end.

Fixpoint typed_cells (cs : list ColumnDefAst) (vs : list Value) : bool :=
  match cs, vs with
  | [], [] => true
  | c :: cs, v :: vs => typed_cell c v && typed_cells cs vs
  | _, _ => false
  end.

(** The size of a stored row: 8 bytes an INTEGER, 2 and its length a TEXT. *)
Definition cell_size (v : Value) : Z := match v with VInt _ => 8 | VText s => 2 + ssize s end.
Definition row_size (vs : list Value) : Z := foldr (λ v n, cell_size v + n) 0 vs.

(** A row: its key in range, its other values of their types and together
    within the cap. *)
Definition row_fits (cs : list ColumnDefAst) (pk : Z) (vs : list Value) : bool :=
  (0 <=? pk) && (pk <=? kMaxRowKey) && (length cs =? S (length vs))%nat && typed_cells (drop 1 cs) vs &&
  (row_size vs <=? MAX_VALUE_SIZE).

(** ** Statements

    [None]: the statement is refused and the database stays as it is. *)

Definition select_cols (cs : list ColumnDefAst) (star : bool) (names : list string) : list string :=
  if star then col_name <$> cs else names.

Definition project_row (cs : list ColumnDefAst) (star : bool) (names : list string) (row : list Value) : list Value :=
  if star then row else omap (cell cs row) names.

Definition spec_exec (stmt : Statement) (d : db) : option (QueryResult * db) :=
  match stmt with
  | CreateTableStmt n cs =>
      match d !! n with
      | Some _ => None
      | None => Some (mkResult [] [] 0 "CREATE TABLE", <[n := mkTable cs []]> d)
      end
  | InsertStmt n values =>
      match d !! n, values with
      | Some tb, VInt pk :: vs =>
          if row_fits (cols tb) pk vs
          then Some (mkResult [] [] 1 "INSERT 1", <[n := mkTable (cols tb) (ins pk values (trows tb))]> d)
          else None
      | _, _ => None
      end
  | SelectStmt n star names w =>
      match d !! n with
      | None => None
      | Some tb =>
          if forallb (typed_cmp (cols tb)) w && (star || forallb (λ c, bool_decide (is_Some (type_of (cols tb) c))) names) then
            let sel := filter (λ r, sat_all (cols tb) r.2 w) (trows tb) in
            let k := Z.of_nat (length sel) in
            Some (mkResult (select_cols (cols tb) star names)
                    ((λ r, project_row (cols tb) star names r.2) <$> sel) k ("SELECT " +:+ to_string k), d)
          else None
      end
  | DeleteStmt n w =>
      match d !! n with
      | None => None
      | Some tb =>
          if forallb (typed_cmp (cols tb)) w then
            let gone := filter (λ r, sat_all (cols tb) r.2 w) (trows tb) in
            let k := Z.of_nat (length gone) in
            Some (mkResult [] [] k ("DELETE " +:+ to_string k),
                  <[n := mkTable (cols tb) (filter (λ r, ¬ sat_all (cols tb) r.2 w) (trows tb))]> d)
          else None
      end
  end.
