(* ===== verification/PlannerTheory.v ===== *)
(** * Planner: access paths lose no rows *)

From S2P Require Import Prelude Entries Bytes Sql Catalog CatalogTheory Planner Engine Executor Database SqlSpec.

Implicit Types (cs : list ColumnDefAst) (row : list Value) (w : Predicate).

(** ** Columns *)

Lemma column_index_cases cs c : ∀ i,
  (column_index i cs c = -1 ∧ type_of cs c = None) ∨
  (∃ j d, column_index i cs c = i + Z.of_nat j ∧ cs !! j = Some d ∧ type_of cs c = Some (col_type d) ∧
     ∀ row, length row = length cs → cell cs row c = row !! j).
Proof.
  induction cs as [|d cs IH]; intros i; simpl; [by left|]. case_bool_decide as Hd.
  - right. exists 0%nat, d. split_and!; [lia|done|done|]. by intros [|v row].
  - destruct (IH (i + 1)) as [?|(j & d' & -> & Hj & Ht & Hc)]; [by left|right]. exists (S j), d'.
    split_and!; [lia|done|done|]. intros [|v row]; [done|]. intros [= ?]. simpl. by apply Hc.
Qed.

Section schema.
Context (s : TableSchema).
Abbreviation cs := (columns s).

Lemma ColumnIndex_cases c :
  (ColumnIndex s c = -1 ∧ type_of cs c = None) ∨
  (∃ j d, ColumnIndex s c = Z.of_nat j ∧ cs !! j = Some d ∧ type_of cs c = Some (col_type d) ∧
     ∀ row, length row = length cs → cell cs row c = row !! j).
Proof. apply (column_index_cases cs c 0). Qed.

Lemma at_index_nat {A} (l : list A) j x : l !! j = Some x → at_index l (Z.of_nat j) = Val x.
Proof. intros Hx. unfold at_index. rewrite (proj2 (Z.ltb_ge _ _)) by lia. by rewrite Nat2Z.id, Hx. Qed.

(** ** Validation *)

Lemma ValidateComparison_cases cmp :
  if typed_cmp cs cmp then ValidateComparison s cmp = Val tt
  else ∃ msg, ValidateComparison s cmp = Exn (SqlException msg).
Proof.
  unfold typed_cmp, ValidateComparison. destruct (ColumnIndex_cases (column cmp)) as [[-> ->]|(j & d & -> & Hd & -> & _)]; simpl; [by eauto|].
  rewrite (proj2 (Z.ltb_ge _ _)) by lia. rewrite (at_index_nat _ _ _ Hd). simpl. case_bool_decide; simpl; eauto.
Qed.

Lemma validate_cases w :
  if forallb (typed_cmp cs) w then validate s w = Val tt else ∃ msg, validate s w = Exn (SqlException msg).
Proof.
  induction w as [|cmp w IH]; simpl; [done|]. pose proof (ValidateComparison_cases cmp) as Hv.
  destruct (typed_cmp cs cmp); simpl; [by rewrite Hv|]. destruct Hv as (msg & ->). simpl. eauto.
Qed.

(** ** The residual filter *)

(** A row with a value of its type in every column. *)
Definition row_typed (row : list Value) : Prop :=
  Forall2 (λ c v, bool_decide (col_type c = INTEGER) = is_int v) cs row.

Lemma CompareValues_sat o v lit :
  is_int v = is_int lit → ∃ z, CompareValues v lit = Val z ∧ CompareOpMatches o z = sat_op o v lit.
Proof.
  unfold CompareValues. destruct v as [x|x], lit as [y|y]; try done; intros _; simpl; eexists; (split; [done|]).
  - destruct (Z.compare_spec x y), o; simpl; repeat case_match; try done; lia.
  - unfold String.ltb. rewrite (String.compare_antisym y x). destruct (String.compare x y), o; done.
Qed.

Lemma MatchesPredicate_sat row w :
  row_typed row → forallb (typed_cmp cs) w = true → MatchesPredicate s row w = Val (sat_all cs row w).
Proof.
  intros Hr. pose proof (Forall2_length _ _ _ Hr) as Hlen. induction w as [|cmp w IH]; simpl; [done|].
  intros [Ht Hw]%andb_true_iff. unfold typed_cmp in Ht.
  destruct (ColumnIndex_cases (column cmp)) as [[_ E]|(j & d & -> & Hd & E & Hc)]; rewrite E in Ht; [done|].
  rewrite (proj2 (Z.ltb_ge _ _)) by lia. apply bool_decide_eq_true in Ht.
  destruct (Forall2_lookup_l _ _ _ _ _ Hr Hd) as (v & Hv & Hty). rewrite (at_index_nat _ _ _ Hv). simpl.
  destruct (CompareValues_sat (op cmp) v (literal cmp)) as (z & Ez & Em); [congruence|]. rewrite Ez. simpl. rewrite Em.
  unfold sat at 1. rewrite Hc, Hv by congruence. destruct (sat_op _ _ _); [by rewrite IH|done].
Qed.

(** ** Access paths *)

(** The row with primary key [pk]. *)
Context (c0 : ColumnDefAst) (cs' : list ColumnDefAst) (Hcs : cs = c0 :: cs') (Hpk : col_type c0 = INTEGER).

Lemma type_of_pk : type_of cs (col_name c0) = Some INTEGER.
Proof using Hcs Hpk. rewrite Hcs. simpl. by rewrite bool_decide_eq_true_2, Hpk. Qed.

Lemma sat_pk pk vs cmp :
  column cmp = col_name c0 → sat cs (VInt pk :: vs) cmp = sat_op (op cmp) (VInt pk) (literal cmp).
Proof using Hcs. intros E. unfold sat. rewrite Hcs, E. simpl. by rewrite bool_decide_eq_true_2. Qed.

Lemma point_sound before w cmp others :
  point (col_name c0) before w = Some (cmp, others) →
  pk_eq (col_name c0) cmp = true ∧ cmp ∈ w ∧ ∃ w1 w2, w = w1 ++ cmp :: w2 ∧ others = before ++ w1 ++ w2.
Proof.
  revert before. induction w as [|x w IH]; intros before; simpl; [done|]. destruct (pk_eq (col_name c0) x) eqn:Ex.
  - intros [= -> <-]. split_and!; [done|set_solver|]. by exists [], w.
  - intros (Hp & Hin & w1 & w2 & -> & ->)%IH. split_and!; [done|set_solver|]. exists (x :: w1), w2. by rewrite <-app_assoc.
Qed.

Lemma sat_all_perm row w w' : w ≡ₚ w' → sat_all cs row w = sat_all cs row w'.
Proof.
  unfold sat_all. induction 1 as [|x w w' _ IH|x y w|w1 w2 w3 _ IH1 _ IH2]; simpl; [done|by rewrite IH| |congruence].
  by rewrite !andb_assoc, (andb_comm (sat cs row x)).
Qed.

(** Comparisons on the key that a row satisfies put its key in the range. *)
Lemma bounds_sound w pk vs : ∀ lo hi found lo' hi' found',
  bounds (col_name c0) w lo hi found = Val (lo', hi', found') → int64_min ≤ pk ≤ int64_max →
  sat_all cs (VInt pk :: vs) w = true → lo ≤ pk ≤ hi → lo' ≤ pk ≤ hi'.
Proof using Hcs.
  induction w as [|cmp w IH]; intros lo hi found lo' hi' found'; simpl; [by intros [= <- <- <-]|].
  case_bool_decide as Ec; simpl.
  2:{ intros E Hp [_ Hs]%andb_true_iff. by eapply IH. }
  destruct (literal cmp) as [v|] eqn:El; simpl; [|done]. intros E Hp [Hc Hs]%andb_true_iff Hb.
  rewrite (sat_pk _ _ _ Ec), El in Hc. simpl in Hc. pose proof (Z.compare_spec pk v) as Hcmp.
  destruct (op cmp); (eapply IH; [exact E|done|done|]); destruct Hcmp; try done; repeat case_match; lia.
Qed.

Lemma bounds_total w lo hi found :
  forallb (typed_cmp cs) w = true → ∃ lo' hi' found', bounds (col_name c0) w lo hi found = Val (lo', hi', found').
Proof using Hcs Hpk.
  revert lo hi found. induction w as [|cmp w IH]; intros lo hi found; simpl; [by eauto|].
  intros [Ht Hw]%andb_true_iff. case_bool_decide as Ec; simpl; [|by apply IH].
  unfold typed_cmp in Ht. rewrite Ec, type_of_pk in Ht. apply bool_decide_eq_true in Ht.
  destruct (literal cmp) as [v|]; [|done]. simpl. destruct (op cmp); by apply IH.
Qed.

Lemma bounds_mono w : ∀ lo hi found lo' hi' found',
  bounds (col_name c0) w lo hi found = Val (lo', hi', found') → lo ≤ lo'.
Proof.
  induction w as [|cmp w IH]; intros lo hi found lo' hi' found'; simpl; [by intros [= <- <- <-]|].
  case_bool_decide; simpl; [|by apply IH]. destruct (literal cmp); simpl; [|done].
  destruct (op cmp); intros E%IH; lia.
Qed.

(** The plan for [w] finds the rows that satisfy [w]. *)
Inductive plan_for (w : Predicate) : Plan → Prop :=
  | plan_point v others :
      (∀ pk vs, sat_all cs (VInt pk :: vs) w = bool_decide (pk = v) && sat_all cs (VInt pk :: vs) others) →
      forallb (typed_cmp cs) others = true →
      (∃ cmp, cmp ∈ w ∧ pk_eq (col_name c0) cmp = true ∧ literal cmp = VInt v) →
      plan_for w (mkPlan POINT_LOOKUP v 0 int64_max others)
  | plan_scan path lo hi :
      path ≠ POINT_LOOKUP → forallb (typed_cmp cs) w = true →
      (∀ pk vs, 0 ≤ pk ≤ int64_max → sat_all cs (VInt pk :: vs) w = true →
        (Executor.scan_bounds (mkPlan path 0 lo hi w)).1 ≤ pk ≤ (Executor.scan_bounds (mkPlan path 0 lo hi w)).2) →
      0 ≤ (Executor.scan_bounds (mkPlan path 0 lo hi w)).1 →
      plan_for w (mkPlan path 0 lo hi w).

Lemma PlanQuery_cases w :
  if forallb (typed_cmp cs) w then ∃ plan, PlanQuery s w = Val plan ∧ plan_for w plan
  else ∃ msg, PlanQuery s w = Exn (SqlException msg).
Proof using Hcs Hpk.
  unfold PlanQuery. pose proof (validate_cases w) as Hv. destruct (forallb (typed_cmp cs) w) eqn:Ht.
  2: { destruct Hv as (msg & ->). simpl. eauto. }
  assert (E0 : at_index cs 0 = Val c0) by (apply (at_index_nat cs 0); by rewrite Hcs).
  rewrite Hv. cbn [mbind res_bind]. rewrite E0. cbn [mbind res_bind].
  destruct (point (col_name c0) [] w) as [[cmp others]|] eqn:Ep.
  - destruct (point_sound _ _ _ _ Ep) as (Hq & Hin & w1 & w2 & Ew & ->). simpl.
    pose proof Hq as [Hc%bool_decide_eq_true Ho%bool_decide_eq_true]%andb_true_iff.
    rewrite Ew, forallb_app in Ht. simpl in Ht. rewrite !andb_true_iff in Ht. destruct Ht as (Ht1 & Htc & Ht2).
    unfold typed_cmp in Htc. rewrite Hc, type_of_pk in Htc. apply bool_decide_eq_true in Htc.
    destruct (literal cmp) as [v|] eqn:El; [|done]. simpl. eexists. split; [done|]. constructor.
    + intros pk vs. rewrite Ew, (sat_all_perm _ (w1 ++ cmp :: w2) (cmp :: w1 ++ w2)) by (by rewrite Permutation_middle).
      simpl. f_equal. rewrite (sat_pk _ _ _ Hc), El, Ho. simpl. destruct (Z.compare_spec pk v); symmetry; (apply bool_decide_eq_true || apply bool_decide_eq_false); lia.
    + by rewrite forallb_app, Ht1, Ht2.
    + exists cmp. done.
  - destruct (bounds_total w 0 int64_max false Ht) as (lo & hi & found & Eb). rewrite Eb. simpl.
    pose proof (bounds_mono _ _ _ _ _ _ _ Eb) as Hlo.
    destruct found; eexists; (split; [done|]); constructor; try done.
    + intros pk vs Hpk' Hs. unfold Executor.scan_bounds. simpl.
      destruct (bounds_sound w pk vs _ _ _ _ _ _ Eb) as [? ?]; [unfold int64_min in *; lia|done|lia|]. lia.
    + unfold Executor.scan_bounds. simpl. lia.
Qed.
End schema.
