(* ===== verification/TableRep.v ===== *)
(** * Tables in the key space of an engine

    The entries of a table are those whose keys carry its id; they are its rows,
    encoded, in primary-key order. *)

From S2P Require Import Prelude Entries Bytes Sql Catalog CatalogTheory Planner Engine Executor Database SqlSpec PlannerTheory.

(** ** Rows *)

Definition row_ok (cs : list ColumnDefAst) (r : Z * list Value) : Prop :=
  is_pk r.1 ∧ ∃ vs, r.2 = VInt r.1 :: vs ∧ length cs = S (length vs) ∧ Forall2 cell_ok (drop 1 cs) vs ∧
    blen (cells_bytes vs) ≤ MAX_VALUE_SIZE.

Definition payload (row : list Value) : string := of_chars (cells_bytes (drop 1 row)).

Definition enc (id : Z) (r : Z * list Value) : Z * string := (EncodeKey id r.1, payload r.2).

Definition cols_ok (cs : list ColumnDefAst) : Prop := ∃ c cs', cs = c :: cs' ∧ col_type c = INTEGER.

Lemma ssize_of_chars b : ssize (of_chars b) = blen b.
Proof. by rewrite <-blen_chars, chars_of_chars. Qed.

Lemma blen_cells vs : blen (cells_bytes vs) = row_size vs.
Proof.
  induction vs as [|v vs IH]; [done|]. change (cells_bytes (v :: vs)) with (cell_bytes v ++ cells_bytes vs).
  rewrite blen_app, IH. simpl row_size. f_equal. destruct v; cbn [cell_bytes cell_size].
  - by rewrite blen_le_enc.
  - by rewrite blen_app, blen_le_enc, blen_chars.
Qed.

Lemma payload_size cs r : row_ok cs r → ssize (payload r.2) ≤ MAX_VALUE_SIZE.
Proof. intros (_ & vs & -> & _ & _ & Hl). unfold payload. by rewrite ssize_of_chars. Qed.

Lemma DecodeRow_payload s r : row_ok (columns s) r → DecodeRow s r.1 (payload r.2) = Val r.2.
Proof.
  intros (_ & vs & -> & _ & Hc & _). unfold DecodeRow, payload. rewrite chars_of_chars.
  change (drop 1 (VInt r.1 :: vs)) with vs.
  pose proof (read_columns_ok _ vs [] [] Hc) as E. simpl in E. rewrite app_nil_r in E. change (blen []) with 0 in E. by rewrite E.
Qed.

Lemma row_ok_typed s r : cols_ok (columns s) → row_ok (columns s) r → row_typed s r.2.
Proof.
  intros (c & cs & Hcs & Hc) (_ & vs & Er & _ & Hf & _). unfold row_typed. rewrite Hcs in *. rewrite Er. simpl in Hf. constructor.
  - simpl. by rewrite bool_decide_eq_true_2.
  - eapply Forall2_impl; [exact Hf|]. intros d v. unfold cell_ok. destruct (col_type d), v; done.
Qed.

(** ** The entries of a table *)

Abbreviation of_table id := (λ e : Z * string, DecodeTableId e.1 = id) (only parsing).

Record table_rep (id : Z) (tb : table) (es : list (Z * string)) : Prop := {
  tr_rows : filter (of_table id) es = enc id <$> trows tb;
  tr_sorted : sorted (trows tb);
  tr_ok : ∀ r, r ∈ trows tb → row_ok (cols tb) r;
  tr_cols : cols_ok (cols tb);
}.

Section encoded.
Context (id : Z).
Hypothesis Hid : is_id id.

Lemma EncodeKey_inj pk pk' : is_pk pk → is_pk pk' → EncodeKey id pk = EncodeKey id pk' → pk = pk'.
Proof.
  intros Hp Hp' E. pose proof (EncodeKey_lt id pk pk' Hp Hp'). pose proof (EncodeKey_lt id pk' pk Hp' Hp). lia.
Qed.

Section rows.
Context (rs : list (Z * list Value)).
Hypothesis Hrs : ∀ r, r ∈ rs → is_pk r.1.

Lemma look_enc pk : is_pk pk → look (EncodeKey id pk) (enc id <$> rs) = payload <$> look pk rs.
Proof using Hid Hrs.
  intros Hp. induction rs as [|[k row] l IH]; [done|]. rewrite fmap_cons. unfold enc at 1. cbn [look fst snd].
  rewrite IH by set_solver.
  assert (Hk : is_pk k) by (apply (Hrs (k, row)); set_solver).
  destruct (Z.eqb_spec k pk) as [->|Hne]; [by rewrite Z.eqb_refl|].
  rewrite (proj2 (Z.eqb_neq _ _)); [done|]. intros E. by apply Hne, EncodeKey_inj.
Qed.

Lemma ins_enc pk row : is_pk pk →
  ins (EncodeKey id pk) (payload row) (enc id <$> rs) = enc id <$> ins pk row rs.
Proof using Hid Hrs.
  intros Hp. induction rs as [|[k row'] l IH]; [done|]. rewrite fmap_cons. unfold enc at 1. cbn [ins fst snd].
  rewrite IH by set_solver.
  assert (Hk : is_pk k) by (apply (Hrs (k, row')); set_solver). pose proof (EncodeKey_lt id k pk Hk Hp).
  destruct (Z.ltb_spec (EncodeKey id k) (EncodeKey id pk)), (Z.ltb_spec k pk); try lia; [done|].
  destruct (Z.eqb_spec k pk) as [->|Hne]; [by rewrite Z.eqb_refl|].
  rewrite (proj2 (Z.eqb_neq _ _)); [done|]. intros E. by apply Hne, EncodeKey_inj.
Qed.
End rows.

Lemma table_look tb es pk :
  table_rep id tb es → is_pk pk → look (EncodeKey id pk) es = payload <$> look pk (trows tb).
Proof using Hid.
  intros [Hr Hs Hok _] Hp. rewrite <-look_enc, <-Hr by (done || by intros r [? _]%Hok).
  symmetry. etransitivity; [exact (look_filter (λ k, DecodeTableId k = id) _ es)|].
  by rewrite decide_True by (by apply DecodeTableId_Encode).
Qed.

Lemma look_row_ok tb pk row es : table_rep id tb es → look pk (trows tb) = Some row → row_ok (cols tb) (pk, row).
Proof. intros [_ Hs Hok _] E%look_elem; [|done]. by apply Hok. Qed.

(** Put of a row. *)
Lemma table_ins tb es pk row :
  table_rep id tb es → sorted es → row_ok (cols tb) (pk, row) →
  table_rep id (mkTable (cols tb) (ins pk row (trows tb))) (ins (EncodeKey id pk) (payload row) es).
Proof using Hid.
  intros [Hr Hs Hok Hc] Hes Hrow. split; simpl; [|by apply sorted_ins| |done].
  - etransitivity; [exact (filter_ins (λ k, DecodeTableId k = id) _ _ es Hes)|].
    rewrite decide_True by (by apply DecodeTableId_Encode). rewrite Hr, ins_enc; [done|by intros r [? _]%Hok|by destruct Hrow].
  - intros r [->|?]%elem_of_ins; [done|by apply Hok].
Qed.

(** Deletion of the rows that satisfy a test. *)
Lemma table_filter tb es (keep : Z * list Value → Prop) `{!∀ r, Decision (keep r)} (keys : list Z) :
  table_rep id tb es →
  (∀ r, r ∈ trows tb → keep r ↔ EncodeKey id r.1 ∉ keys) →
  table_rep id (mkTable (cols tb) (filter keep (trows tb))) (filter (λ e, e.1 ∉ keys) es).
Proof using Hid.
  intros [Hr Hs Hok Hc] Hkeep. split; simpl; [|by apply sorted_filter| |done].
  - rewrite filter_comm, Hr. clear Hr Hs Hok. induction (trows tb) as [|r l IH]; [done|].
    rewrite fmap_cons, !filter_cons, IH by set_solver. specialize (Hkeep r ltac:(set_solver)). simpl.
    destruct (decide (keep r)), (decide (EncodeKey id r.1 ∉ keys)); simpl; naive_solver.
  - intros r [_ ?]%list_elem_of_filter. by apply Hok.
Qed.
End encoded.

(** Other tables are not touched. *)
Lemma table_ins_other id id' tb es pk w :
  table_rep id tb es → sorted es → is_id id' → id ≠ id' → table_rep id tb (ins (EncodeKey id' pk) w es).
Proof.
  intros [Hr Hs Hok Hc] Hes Hid' Hne. split; try done.
  etransitivity; [exact (filter_ins (λ k, DecodeTableId k = id) _ _ es Hes)|].
  rewrite decide_False; [done|]. rewrite DecodeTableId_Encode by done. congruence.
Qed.

Lemma table_filter_other id tb es (keys : list Z) :
  table_rep id tb es → (∀ k, k ∈ keys → DecodeTableId k ≠ id) → table_rep id tb (filter (λ e, e.1 ∉ keys) es).
Proof.
  intros [Hr Hs Hok Hc] Hk. split; try done. rewrite list_filter_filter, <-Hr. apply filter_ext_in.
  intros e _. split; [tauto|]. intros He. split; [done|]. intros Hin. by apply (Hk _ Hin).
Qed.

(** ** Where a scan of a table finds its rows *)

Lemma filter_split (P : Z * string → Prop) `{!∀ e, Decision (P e)} (es : list (Z * string)) :
  sorted es → (∀ e e', e ∈ es → e' ∈ es → e.1 < e'.1 → P e' → P e) →
  es = filter P es ++ filter (λ e, ¬ P e) es.
Proof.
  induction es as [|[k v] es IH]; intros Hs Hp; [done|]. apply sorted_cons_inv in Hs as [Hs Hk].
  rewrite !filter_cons. destruct (decide (P (k, v))) as [Hy|Hn].
  - rewrite decide_False by tauto. simpl. f_equal. apply IH; [done|]. intros e e' He He'. apply Hp; by right.
  - rewrite decide_True by done.
    assert (Hnone : ∀ e, e ∈ es → ¬ P e) by (intros e He Pe; apply Hn, (Hp (k, v) e); [by left|by right|by apply Hk|done]).
    rewrite (filter_none P es) by done. simpl. f_equal. symmetry. by apply filter_all.
Qed.

Lemma scan_split id tb es before rest start :
  is_id id → table_rep id tb es → sorted es → (∀ e, e ∈ es → is_i64 e.1) → es = before ++ rest →
  (∀ x, x ∈ before → x.1 < EncodeKey id start) → (∀ x, x ∈ rest → EncodeKey id start ≤ x.1) →
  ∃ r1 r2 others, trows tb = r1 ++ r2 ∧ rest = (enc id <$> r2) ++ others ∧
    (∀ x, x ∈ others → DecodeTableId x.1 ≠ id) ∧ (∀ r, r ∈ r1 → r.1 < start `mod` 2 ^ 48).
Proof.
  intros Hid [Hr Hs Hok _] Hes Hi64 -> Hb Hre.
  assert (Hsr : sorted rest) by (rewrite fmap_app in Hes; by apply StronglySorted_app_1_r in Hes).
  rewrite filter_app in Hr. destruct (fmap_app_inv (enc id) _ _ _ (eq_sym Hr)) as (r1 & r2 & E1 & E2 & Et).
  exists r1, r2, (filter (λ e, ¬ DecodeTableId e.1 = id) rest). split_and!; [done| | |].
  - rewrite <-E2. apply filter_split; [done|]. intros e e' He He' Hlt Hid'.
    apply (between_table id e.1 e'.1 start); [apply Hi64; set_solver..|done|done|by apply Hre|lia].
  - by intros x [? _]%list_elem_of_filter.
  - intros r Hin. assert (Hpk : is_pk r.1) by (apply Hok; rewrite Et; set_solver).
    assert (Hlt : EncodeKey id r.1 < EncodeKey id start).
    { apply (Hb (enc id r)). assert (enc id r ∈ filter (of_table id) before) as [_ ?]%list_elem_of_filter; [|done].
      rewrite E1. by apply list_elem_of_fmap_2. }
    rewrite !EncodeKey_eq, (Z.mod_small r.1) in Hlt by done. lia.
Qed.
