(* ===== verification/ExecutorTheory.v ===== *)
(** * Executor: plans fetch and delete the rows that satisfy the predicate

    Over any storage engine that meets its contract. *)

From S2P Require Import Prelude Entries Bytes Sql Catalog CatalogTheory Planner Engine Executor Database SqlSpec PlannerTheory TableRep.

Import Executor.

#[local] Opaque DecodeTableId DecodeRowKey EncodeKey.

Section executor.
Context {E : Type} `{!StorageEngine E, !EngineSpec E}.
Implicit Types (e : E) (es : list (Z * string)) (w : Predicate).

Lemma scoped_Val {A} it (m : M E A) e x e' : m e = (Val x, e') → scoped it m e = (Val x, e').
Proof. unfold scoped. by intros ->. Qed.

(** ** One table *)

Section table.
Context (s : TableSchema).
Abbreviation id := (table_id s).
Abbreviation cs := (columns s).
Hypothesis Hid : is_id id.
Hypothesis Hcols : cols_ok cs.

(** A row as the loops see it. *)
Lemma row_read r w :
  row_ok cs r → forallb (typed_cmp cs) w = true →
  DecodeTableId (enc id r).1 = id ∧ DecodeRowKey (enc id r).1 = r.1 ∧ DecodeRow s r.1 (enc id r).2 = Val r.2 ∧
  MatchesPredicate s r.2 w = Val (sat_all cs r.2 w).
Proof using Hid Hcols.
  intros Hr Hw. split_and!; [by apply DecodeTableId_Encode| |by apply DecodeRow_payload|].
  - simpl. rewrite DecodeRowKey_Encode. apply Z.mod_small, Hr.
  - apply MatchesPredicate_sat; [by apply row_ok_typed|done].
Qed.

(** The rows a scan up to [hi] answers. *)
Abbreviation hits w hi := (λ r : Z * list Value, r.1 ≤ hi ∧ sat_all cs r.2 w) (only parsing).

Lemma scan_loop_spec {A} (emit : KeyType → list Value → A) w hi :
  forallb (typed_cmp cs) w = true →
  ∀ rs fuel n e es it others out,
  scanning n e es it ((enc id <$> rs) ++ others) → (length rs + length others ≤ fuel)%nat →
  (∀ r, r ∈ rs → row_ok cs r) → sorted rs → (∀ x, x ∈ others → DecodeTableId x.1 ≠ id) →
  ∃ e' it' rest, scan_loop s w hi emit fuel it out e =
      (Val (it', out ++ ((λ r, emit (EncodeKey id r.1) r.2) <$> filter (hits w hi) rs)), e') ∧
    scanning n e' es it' rest.
Proof using Hid Hcols.
  intros Hw. induction rs as [|r rs IH]; intros fuel n e es it others out Hs Hf Hok Hso Hoth.
  - simpl in Hs. rewrite app_nil_r. pose proof (IsValid_spec _ _ _ _ _ Hs) as Hv. destruct others as [|[k v] others].
    + exists e, it, []. split; [|done]. destruct fuel; cbn [scan_loop]; rewrite Hv; reflexivity.
    + destruct (GetKey_spec _ _ _ _ _ _ _ Hs) as (e1 & E1 & Hs1). exists e1, it, ((k, v) :: others). split; [|done].
      destruct fuel as [|fuel]; [simpl in Hf; lia|]. cbn [scan_loop]. rewrite Hv, bool_decide_eq_true_2 by done.
      mrun (scoped_Val it _ _ _ _ E1). cbv beta.
      rewrite (proj2 (Z.eqb_neq (DecodeTableId k) id)) by (apply (Hoth (k, v)); by left). done.
  - destruct fuel as [|fuel]; [simpl in Hf; lia|]. rewrite fmap_cons in Hs. cbn [app] in Hs.
    destruct (row_read r w ltac:(apply Hok; by left) Hw) as (Et & Ek & Ed & Em).
    destruct (enc id r) as [k v] eqn:Er. simpl in Et, Ek, Ed. assert (k = EncodeKey id r.1) as Hk by (by injection Er).
    destruct r as [pk row]. cbn [fst snd] in *. apply sorted_cons_inv in Hso as [Hso Hgt].
    cbn [scan_loop]. rewrite (IsValid_spec _ _ _ _ _ Hs), bool_decide_eq_true_2 by done.
    destruct (GetKey_spec _ _ _ _ _ _ _ Hs) as (e1 & E1 & Hs1).
    destruct (Z.ltb_spec hi pk) as [Hhi|Hhi].
    + exists e1, it, ((k, v) :: (enc id <$> rs) ++ others). split; [|done]. mrun (scoped_Val it _ _ _ _ E1).
      rewrite Et, Z.eqb_refl. change (negb true) with false. cbn match. rewrite Ek, (proj2 (Z.ltb_lt hi pk)) by done.
      rewrite filter_none, app_nil_r; [done|]. intros r [->|Hr]%elem_of_cons [Hle _]; [simpl in Hle; lia|].
      specialize (Hgt r Hr). lia.
    + destruct (GetValue_spec _ _ _ _ _ _ _ Hs1) as (e2 & E2 & Hs2).
      destruct (Next_spec _ _ _ _ _ _ Hs2) as (e3 & it3 & E3 & Hs3).
      destruct (IH fuel n e3 es it3 others (if sat_all cs row w then out ++ [emit k row] else out) Hs3)
        as (e4 & it4 & rest & E4 & Hs4); [simpl in Hf; lia|intros r Hr; apply Hok; by right|done|done|].
      exists e4, it4, rest. split; [|done]. mrun (scoped_Val it _ _ _ _ E1).
      rewrite Et, Z.eqb_refl. change (negb true) with false. cbn match. rewrite Ek, (proj2 (Z.ltb_ge hi pk)) by done.
      mrun (scoped_Val it _ _ _ _ E2).
      mrun (scoped_Val it (lift (DecodeRow s pk v)) e2 row e2 ltac:(unfold lift; by rewrite Ed)).
      mrun (scoped_Val it (lift (MatchesPredicate s row w)) e2 _ e2 ltac:(unfold lift; by rewrite Em)).
      mrun E3. rewrite E4, filter_cons. simpl. destruct (sat_all cs row w).
      * rewrite decide_True by done. simpl. by rewrite <-app_assoc, Hk.
      * rewrite decide_False by naive_solver. done.
Qed.

(** ** Plans *)

Context (c0 : ColumnDefAst) (cs' : list ColumnDefAst) (Hcs : cs = c0 :: cs').
Context (tb : table) (Htb : cols tb = cs).

Abbreviation found w := (filter (λ r : Z * list Value, sat_all cs r.2 w) (trows tb)) (only parsing).

(** A point lookup's key is a key a row can have. *)
Definition point_ok (plan : Plan) : Prop := access_path plan = POINT_LOOKUP → is_pk (point_key plan).

Lemma filter_point (f : list Value → bool) v (rs : list (Z * list Value)) :
  sorted rs →
  filter (λ r, bool_decide (r.1 = v) && f r.2) rs =
    match look v rs with Some row => if f row then [(v, row)] else [] | None => [] end.
Proof.
  induction rs as [|[k row] rs IH]; intros Hs; [done|]. apply sorted_cons_inv in Hs as [Hs Hk].
  rewrite filter_cons. cbn [look fst snd]. destruct (Z.eqb_spec k v) as [->|Hne].
  - rewrite (filter_none _ rs).
    + rewrite bool_decide_eq_true_2 by done. rewrite andb_true_l. destruct (f row); case_decide; naive_solver.
    + intros r Hr Hb. specialize (Hk r Hr). rewrite bool_decide_eq_false_2 in Hb by lia. done.
  - rewrite decide_False; [by apply IH|]. intros Hb. by rewrite bool_decide_eq_false_2 in Hb by done.
Qed.

Lemma found_point v others w es :
  table_rep id tb es →
  (∀ pk vs, sat_all cs (VInt pk :: vs) w = bool_decide (pk = v) && sat_all cs (VInt pk :: vs) others) →
  found w = match look v (trows tb) with Some row => if sat_all cs row others then [(v, row)] else [] | None => [] end.
Proof.
  intros [_ Hs Hok _] Hw. rewrite <-filter_point by done. apply filter_ext_in. intros r Hr.
  destruct (Hok r Hr) as (_ & vs & -> & _). by rewrite Hw.
Qed.

(** What a scan plan skips does not satisfy the predicate. *)
Lemma found_scan w lo hi r1 r2 :
  trows tb = r1 ++ r2 → (∀ r, r ∈ trows tb → row_ok cs r) →
  (∀ pk vs, 0 ≤ pk ≤ int64_max → sat_all cs (VInt pk :: vs) w = true → lo ≤ pk ≤ hi) → 0 ≤ lo →
  (∀ r, r ∈ r1 → r.1 < lo `mod` 2 ^ 48) →
  found w = filter (hits w hi) r2.
Proof.
  intros Et Hok Hb Hlo Hr1.
  assert (Hin : ∀ r, r ∈ trows tb → sat_all cs r.2 w → lo ≤ r.1 ≤ hi).
  { intros r Hr Hs%Is_true_eq_true. destruct (Hok r Hr) as ((? & ?) & vs & Er & _). rewrite Er in Hs.
    apply (Hb r.1 vs); [unfold int64_max; lia|done]. }
  rewrite Et in *. rewrite filter_app, (filter_none _ r1), app_nil_l.
  - apply filter_ext_in. intros r Hr. specialize (Hin r). set_solver.
  - intros r Hr Hs. specialize (Hin r ltac:(set_solver) Hs). specialize (Hr1 r Hr).
    pose proof (Z.mod_le lo (2 ^ 48) ltac:(lia) ltac:(lia)). lia.
Qed.

Lemma look_get n e es v :
  stores n e es → table_rep id tb es → is_pk v →
  ∃ e', Get (EncodeKey id v) e = (Val (payload <$> look v (trows tb)), e') ∧ stores n e' es.
Proof using Hid.
  intros Hs Ht Hv. destruct (Get_spec n e es (EncodeKey id v) Hs (EncodeKey_i64 _ _)) as (e' & Eg & Hs').
  rewrite (table_look _ Hid _ _ _ Ht Hv) in Eg. eauto.
Qed.

(** The common start of the scans of [ExecuteFetch] and [ExecuteDelete]. *)
Lemma scan_spec {A} (emit : KeyType → list Value → A) fuel n e es w path lo hi :
  stores n e es → table_rep id tb es → plan_for s c0 w (mkPlan path 0 lo hi w) → path ≠ POINT_LOOKUP → (length es ≤ fuel)%nat →
  ∃ it e1 it' e2 rest, Scan (EncodeKey id (scan_bounds (mkPlan path 0 lo hi w)).1) e = (Val it, e1) ∧
    scan_loop s w (scan_bounds (mkPlan path 0 lo hi w)).2 emit fuel it [] e1 =
      (Val (it', (λ r, emit (EncodeKey id r.1) r.2) <$> found w), e2) ∧ scanning n e2 es it' rest.
Proof using All.
  intros Hst Ht Hp Hpath Hf. inversion Hp as [|? ? ? _ Hw Hb Hlo]; [by subst|]; subst.
  set (start := (scan_bounds (mkPlan path 0 lo hi w)).1) in *. set (top := (scan_bounds (mkPlan path 0 lo hi w)).2) in *.
  destruct (Scan_spec n e es (EncodeKey id start) Hst (EncodeKey_i64 _ _)) as (e1 & it & before & rest & Es & Hsc & Ees & Hbe & Hre).
  destruct (scan_split id tb es before rest start Hid Ht (stores_sorted _ _ _ Hst) (λ x, stores_keys _ _ _ x Hst) Ees Hbe Hre)
    as (r1 & r2 & others & Et & -> & Hoth & Hr1).
  pose proof (tr_ok _ _ _ Ht) as Hok. rewrite Htb in Hok.
  destruct (scan_loop_spec emit w top Hw r2 fuel n e1 es it others [] Hsc) as (e2 & it' & rest' & El & Hsc2); [| | |done|].
  - rewrite Ees, !length_app, length_fmap in Hf. lia.
  - intros r Hr. apply Hok. rewrite Et. set_solver.
  - pose proof (tr_sorted _ _ _ Ht) as Hso. rewrite Et, fmap_app in Hso. by apply StronglySorted_app_1_r in Hso.
  - exists it, e1, it', e2, rest'. split_and!; [done| |done]. rewrite El. simpl app.
    by rewrite (found_scan w start top r1 r2).
Qed.

Lemma ExecuteFetch_spec fuel n e es w plan :
  stores n e es → table_rep id tb es → plan_for s c0 w plan → point_ok plan → (length es ≤ fuel)%nat →
  ∃ e', ExecuteFetch fuel s plan e = (Val (found w).*2, e') ∧ stores n e' es.
Proof using All.
  intros Hst Ht Hp Hpt Hf. unfold ExecuteFetch. inversion Hp as [v others Hw Hty _ Epl|path lo hi Hpath _ _ _ Epl]; subst plan.
  - destruct (look_get n e es v Hst Ht) as (e' & Eg & Hst'); [by apply Hpt|]. exists e'. split; [|done].
    rewrite bool_decide_eq_true_2 by done. cbn [point_key residual]. mrun Eg. rewrite (found_point v others w es) by done.
    destruct (look v (trows tb)) as [row|] eqn:El; [|done]. change (payload <$> Some row) with (Some (payload row)). cbn match.
    pose proof (look_row_ok _ _ _ _ _ Ht El) as Hrow. rewrite Htb in Hrow. destruct (row_read (v, row) others Hrow Hty) as (_ & _ & Ed & Em).
    cbn [fst snd enc] in Ed, Em. rewrite Ed.
    mrun (eq_refl : lift (Val row) e' = (Val row, e')). rewrite Em.
    mrun (eq_refl : lift (Val (sat_all cs row others)) e' = (Val (sat_all cs row others), e')).
    by destruct (sat_all cs row others).
  - destruct (scan_spec (λ _ row, row) fuel n e es w path lo hi Hst Ht Hp Hpath Hf) as (it & e1 & it' & e2 & rest & Es & El & Hsc).
    destruct (Destroy_spec _ _ _ _ (scanning_opened _ _ _ _ _ Hsc)) as (e3 & Ed & Hst'). exists e3. split; [|done].
    rewrite bool_decide_eq_false_2 by done. destruct (scan_bounds _) as [start top]. simpl in Es, El. cbn [residual].
    mrun Es. mrun El. by mrun Ed.
Qed.

(** ** Deletion *)

Lemma delete_keys_spec n it keys : ∀ e es deleted,
  opened n e es it → sorted es → NoDup keys → (∀ k, k ∈ keys → is_i64 k ∧ is_Some (look k es)) →
  ∃ e', delete_keys it keys deleted e = (Val (deleted + Z.of_nat (length keys)), e') ∧
    opened n e' (filter (λ x, x.1 ∉ keys) es) it.
Proof.
  induction keys as [|k keys IH]; intros e es deleted Ho Hs Hnd Hk.
  - exists e. rewrite Z.add_0_r, filter_all by set_solver. done.
  - apply NoDup_cons in Hnd as [Hni Hnd]. destruct (Hk k ltac:(set_solver)) as [Hk64 Hsome].
    destruct (Delete_opened n e es it k Ho Hk64) as (e1 & E1 & Ho1).
    destruct (IH e1 (del k es) (deleted + 1) Ho1 (sorted_del _ _ Hs) Hnd) as (e2 & E2 & Ho2).
    { intros k' Hk'. destruct (Hk k' ltac:(set_solver)) as [? ?]. split; [done|].
      rewrite look_del, decide_False; [done|]. by intros ->. }
    exists e2. split.
    + cbn [delete_keys]. mrun (scoped_Val it _ _ _ _ E1). rewrite bool_decide_eq_true_2 by done. rewrite E2.
      do 2 f_equal. simpl length. lia.
    + unfold del in Ho2. rewrite list_filter_filter in Ho2.
      erewrite filter_ext_in; [exact Ho2|]. intros x _. rewrite not_elem_of_cons. tauto.
Qed.

Abbreviation keys_of w := ((λ r, EncodeKey id r.1) <$> found w) (only parsing).

Lemma ExecuteDelete_spec fuel n e es w plan :
  stores n e es → table_rep id tb es → plan_for s c0 w plan → point_ok plan → (length es ≤ fuel)%nat →
  ∃ e', ExecuteDelete fuel s plan e = (Val (Z.of_nat (length (found w))), e') ∧
    stores n e' (filter (λ x, x.1 ∉ keys_of w) es).
Proof using All.
  intros Hst Ht Hp Hpt Hf. unfold ExecuteDelete. inversion Hp as [v others Hw Hty _ Epl|path lo hi Hpath _ _ _ Epl]; subst plan.
  - destruct (look_get n e es v Hst Ht) as (e1 & Eg & Hst1); [by apply Hpt|].
    rewrite bool_decide_eq_true_2 by done. cbn [point_key residual]. rewrite (found_point v others w es) by done.
    destruct (look v (trows tb)) as [row|] eqn:El.
    2: { exists e1. split; [by mrun Eg|]. by rewrite filter_all by set_solver. }
    pose proof (look_row_ok _ _ _ _ _ Ht El) as Hrow. rewrite Htb in Hrow. destruct (row_read (v, row) others Hrow Hty) as (_ & _ & Ed & Em).
    cbn [fst snd enc] in Ed, Em. mrun Eg. change (payload <$> Some row) with (Some (payload row)). cbn match. rewrite Ed.
    mrun (eq_refl : lift (Val row) e1 = (Val row, e1)). rewrite Em.
    mrun (eq_refl : lift (Val (sat_all cs row others)) e1 = (Val (sat_all cs row others), e1)).
    destruct (sat_all cs row others).
    + destruct (Delete_spec n e1 es (EncodeKey id v) Hst1 (EncodeKey_i64 _ _)) as (e2 & E2 & Hst2). exists e2.
      rewrite (table_look _ Hid _ _ v Ht (Hpt eq_refl)), El, bool_decide_eq_true_2 in E2 by eauto. split; [by mrun E2|].
      erewrite filter_ext_in; [exact Hst2|]. intros x _. simpl. by rewrite list_elem_of_singleton.
    + exists e1. split; [done|]. by rewrite filter_all by set_solver.
  - destruct (scan_spec (λ key _, key) fuel n e es w path lo hi Hst Ht Hp Hpath Hf) as (it & e1 & it' & e2 & rest & Es & El & Hsc).
    destruct (delete_keys_spec n it' (keys_of w) e2 es 0 (scanning_opened _ _ _ _ _ Hsc) (stores_sorted _ _ _ Hst)) as (e3 & E3 & Ho).
    { pose proof (tr_sorted _ _ _ Ht) as Hso. apply (sorted_filter (λ r, sat_all cs r.2 w)) in Hso.
      assert (Hpk : ∀ r, r ∈ found w → is_pk r.1) by (intros r [_ Hr]%list_elem_of_filter; by apply (tr_ok _ _ _ Ht)).
      revert Hso Hpk. generalize (found w). induction l as [|[k row] l IH]; intros Hso Hpk; [constructor|].
      apply sorted_cons_inv in Hso as [Hso Hk]. rewrite fmap_cons. constructor; [|apply IH; set_solver].
      intros (r & Er & Hr)%list_elem_of_fmap. specialize (Hk r Hr). simpl in Er.
      apply EncodeKey_inj in Er; [simpl in Hk; lia|apply (Hpk (k, row)); by left|apply Hpk; by right]. }
    { intros k (r & -> & [_ Hr]%list_elem_of_filter)%list_elem_of_fmap. split; [apply EncodeKey_i64|].
      pose proof (tr_ok _ _ _ Ht r Hr) as [Hpk _]. rewrite (table_look _ Hid _ _ _ Ht Hpk).
      destruct r as [pk row]. apply look_elem in Hr; [|by apply (tr_sorted _ _ _ Ht)]. simpl. rewrite Hr. by eauto. }
    destruct (Destroy_spec _ _ _ _ Ho) as (e4 & E4 & Hst'). exists e4. split; [|done].
    rewrite bool_decide_eq_false_2 by done. destruct (scan_bounds _) as [start top]. simpl in Es, El. cbn [residual].
    mrun Es. mrun El. mrun E3. mrun E4. by rewrite length_fmap.
Qed.
End table.
End executor.
