(* ===== verification/DatabaseTheory.v ===== *)
(** * Database: statements mean what [SqlSpec] says

    [db_rep] relates the catalog and the engine's entries to a database of the
    specification; every statement preserves it. *)

From S2P Require Import Prelude Entries Bytes Sql Lexer LexerTheory Parser ParserTheory Catalog CatalogTheory Planner Engine.
From S2P Require Import Executor Database SqlSpec PlannerTheory TableRep ExecutorTheory.

#[local] Opaque DecodeTableId DecodeRowKey EncodeKey.

Import Database.

(** ** What the parser guarantees of a statement *)

Definition stmt_ok (stmt : Statement) : Prop :=
  match stmt with
  | CreateTableStmt _ cs => cols_ok cs
  | InsertStmt _ values => Forall value_ok values
  | _ => True
  end.

Lemma valid_int k : valid_token k = true → is_type INTEGER_LITERAL k → is_i64 (int_value k).
Proof.
  intros Hv Ht%bool_decide_unpack. destruct (valid_number k Hv Ht) as (c & b & v & -> & Hs & _). simpl.
  unfold stoll in Hs. destruct (_ && _) eqn:Er in Hs; [|done]. injection Hs as <-.
  apply andb_true_iff in Er as [?%Z.leb_le ?%Z.leb_le]. done.
Qed.

Lemma g_list_forall {A} sep (g : list Token → A → Prop) (P : A → Prop) (V : Token → Prop) ts xs :
  (∀ ts x, Forall V ts → g ts x → P x) → g_list sep g ts xs → Forall V ts → Forall P xs.
Proof.
  intros Hg. induction 1 as [ts x Hx|ts k ts' x xs Hx _ _ IH]; intros Hv; [constructor; [eauto|done]|].
  apply Forall_app in Hv as [Hv [_ Hv']%Forall_cons]. constructor; eauto.
Qed.

Lemma Parse_ok sql s : Parse sql = Val s → stmt_ok s.
Proof.
  intros E. destruct (Parse_cases sql) as [(l & tr & s' & _ & Hr & Hg & E')|[(msg & E')|E']]; rewrite E in E'; [|done..].
  injection E' as <-.
  assert (Hv : Forall (λ k, valid_token k = true) l.*2) by (apply Forall_forall; intros k; by apply (rendering_valid l tr)).
  assert (Hs : ∃ ts, Forall (λ k, valid_token k = true) ts ∧ g_statement ts s).
  { destruct Hg as [ts s Hs|ts k s Hs _]; [by eauto|]. apply Forall_app in Hv as [? _]. eauto. }
  destruct Hs as (ts & Hts & Hs). destruct Hs as [k1 k2 t1 k3 t2 k4 name c cs _ _ _ _ _ _ Hc|k1 k2 t1 k3 k4 t2 k5 name vs _ _ _ _ _ Hl _
    |k1 t1 k2 t2 t3 star cs name w _ _ _ _ _|k1 k2 t1 t2 name w _ _ _ _]; simpl; [by exists c, cs| |done|done].
  rewrite !Forall_cons, Forall_app, !Forall_cons, Forall_app in Hts. destruct Hts as (_ & _ & _ & _ & _ & Hts & _).
  eapply g_list_forall; [|exact Hl|exact Hts]. intros ts v Hvs Hgl. revert Hvs.
  destruct Hgl as [k Hk|k Hk]; simpl; [|done]. intros [? _]%Forall_cons. by apply valid_int.
Qed.

(** ** What a text means

    The statement the grammar derives from it, if there is one, run on the
    database: the results of a session are specified without the lexer or the
    parser of the program. *)

Definition derives (sql : string) (stmt : Statement) : Prop :=
  ∃ l trailing, sql = of_chars (render l trailing) ∧ rendering l trailing = true ∧ g_program l.*2 stmt.

Inductive means (sql : string) (d : db) : option QueryResult → db → Prop :=
  | means_answered stmt r d' : derives sql stmt → spec_exec stmt d = Some (r, d') → means sql d (Some r) d'
  | means_refused stmt : derives sql stmt → spec_exec stmt d = None → means sql d None d
  | means_malformed : (∀ stmt, ¬ derives sql stmt) → means sql d None d.

Inductive session_means : list string → db → list (option QueryResult) → db → Prop :=
  | session_end d : session_means [] d [] d
  | session_text sql sqls d o d1 os d2 :
      means sql d o d1 → session_means sqls d1 os d2 → session_means (sql :: sqls) d (o :: os) d2.

(** The equalities on the primary key compare with keys in range. *)
Definition points_ok (cs : list ColumnDefAst) (w : Predicate) : Prop :=
  match cs with
  | [] => True
  | c :: _ => ∀ cmp v, cmp ∈ w → pk_eq (col_name c) cmp = true → literal cmp = VInt v → is_pk v
  end.

(** A statement the refinement covers: a table id is left, and equalities on
    the primary key compare with keys in range. *)
Definition admissible (stmt : Statement) (d : db) : Prop :=
  match stmt with
  | CreateTableStmt _ _ => Z.of_nat (size d) < 2 ^ 16
  | InsertStmt _ _ => True
  | SelectStmt name _ _ w | DeleteStmt name w => ∀ tb, d !! name = Some tb → points_ok (cols tb) w
  end.

(** Every statement of the session is, on the database it meets. *)
Fixpoint admissible_all (sqls : list string) (d : db) : Prop :=
  match sqls with
  | [] => True
  | sql :: sqls =>
      (∀ stmt, derives sql stmt → admissible stmt d) ∧ ∀ o d', means sql d o d' → admissible_all sqls d'
  end.

(** The meaning is a function, which the parser computes. *)
Lemma derives_Parse sql stmt : derives sql stmt ↔ Parse sql = Val stmt.
Proof.
  split; [intros (l & tr & -> & Hr & Hg); by apply Parse_accepts|]. intros E.
  destruct (Parse_cases sql) as [(l & tr & s & -> & Hr & Hg & E')|[(msg & E')|E']]; rewrite E in E'; [|done..].
  injection E' as ->. by exists l, tr.
Qed.

Definition spec_text (sql : string) (d : db) : option QueryResult * db :=
  match Parse sql with
  | Val stmt => match spec_exec stmt d with Some (r, d') => (Some r, d') | None => (None, d) end
  | _ => (None, d)
  end.

Fixpoint spec_session (sqls : list string) (d : db) : list (option QueryResult) * db :=
  match sqls with
  | [] => ([], d)
  | sql :: sqls =>
      let '(r, d) := spec_text sql d in
      let '(rs, d) := spec_session sqls d in
      (r :: rs, d)
  end.

Lemma means_spec_text sql d o d' : means sql d o d' ↔ spec_text sql d = (o, d').
Proof.
  unfold spec_text. split.
  - intros [stmt r d1 Hd E|stmt Hd E|Hno]; [apply derives_Parse in Hd; by rewrite Hd, E..|].
    destruct (Parse sql) as [stmt| | |] eqn:E; [|done..]. by apply derives_Parse, Hno in E.
  - destruct (Parse sql) as [stmt| | |] eqn:E.
    + apply derives_Parse in E. destruct (spec_exec stmt d) as [[r d1]|] eqn:Es; intros [= <- <-].
      * by eapply means_answered.
      * by eapply means_refused.
    + intros [= <- <-]. apply means_malformed. intros stmt Hd%derives_Parse. congruence.
    + intros [= <- <-]. apply means_malformed. intros stmt Hd%derives_Parse. congruence.
    + intros [= <- <-]. apply means_malformed. intros stmt Hd%derives_Parse. congruence.
Qed.

Lemma session_means_spec sqls : ∀ d os d', session_means sqls d os d' ↔ spec_session sqls d = (os, d').
Proof.
  induction sqls as [|sql sqls IH]; intros d os d'; cbn [spec_session].
  - split; [by inversion_clear 1|]. intros [= <- <-]. constructor.
  - destruct (spec_text sql d) as [o d1] eqn:Eo, (spec_session sqls d1) as [os1 d2] eqn:Es. split.
    + inversion_clear 1 as [|? ? ? o' d1' os' ? Hm Hs]. apply means_spec_text in Hm. rewrite Eo in Hm. simplify_eq.
      apply IH in Hs. congruence.
    + intros [= <- <-]. econstructor; [by apply means_spec_text|by apply IH].
Qed.

Lemma admissible_all_cons sql sqls d :
  admissible_all (sql :: sqls) d ↔
  match Parse sql with Val stmt => admissible stmt d | _ => True end ∧ admissible_all sqls (spec_text sql d).2.
Proof.
  cbn [admissible_all]. split; intros [Hs Hr]; split.
  - destruct (Parse sql) as [stmt| | |] eqn:E; [|done..]. by apply Hs, derives_Parse.
  - apply (Hr (spec_text sql d).1), means_spec_text, surjective_pairing.
  - intros stmt Hd%derives_Parse. by rewrite Hd in Hs.
  - intros o d' Hm%means_spec_text. by rewrite Hm in Hr.
Qed.

(** ** The representation *)

Record cat_rep (c : Catalog.t) (d : db) : Prop := {
  cr_tables : ∀ n, match Catalog.tables_ c !! n, d !! n with
                   | Some s, Some tb => cols tb = columns s ∧ 0 ≤ table_id s < Z.of_nat (size d)
                   | None, None => True
                   | _, _ => False
                   end;
  cr_ids : ∀ n n' s s', Catalog.tables_ c !! n = Some s → Catalog.tables_ c !! n' = Some s' → table_id s = table_id s' → n = n';
  cr_next : Catalog.next_table_id_ c = u16 (Z.of_nat (size d));
  cr_size : Z.of_nat (size d) ≤ 2 ^ 16;
}.

Section database.
Context {E : Type} `{!StorageEngine E, !EngineSpec E}.
Implicit Types (x : Database.t E) (d : db).

(** [n] more insertions have space; there are at most [m] rows. *)
Definition db_rep (n m : nat) (x : Database.t E) (d : db) : Prop :=
  cat_rep (catalog_ x) d ∧ ∃ es, stores n (engine_ x) es ∧ (length es ≤ m)%nat ∧
    (∀ name s tb, Catalog.tables_ (catalog_ x) !! name = Some s → d !! name = Some tb → table_rep (table_id s) tb es) ∧
    (∀ y, y ∈ es → DecodeTableId y.1 < Z.of_nat (size d)).

Lemma cat_lookup c d n : cat_rep c d →
  (Catalog.tables_ c !! n = None ∧ d !! n = None) ∨
  (∃ s tb, Catalog.tables_ c !! n = Some s ∧ d !! n = Some tb ∧ cols tb = columns s ∧ is_id (table_id s)).
Proof.
  intros [Ht _ _ Hs]. specialize (Ht n). destruct (Catalog.tables_ c !! n) as [s|], (d !! n) as [tb|]; try done; [right|by left].
  exists s, tb. unfold is_id. split_and!; [done|done|apply Ht|lia|lia].
Qed.

Lemma GetTable_cases (x : Database.t E) d n :
  cat_rep (catalog_ x) d →
  match d !! n with
  | Some tb => ∃ s, GetTable n x = (Val s, x) ∧ Catalog.tables_ (catalog_ x) !! n = Some s ∧ cols tb = columns s ∧ is_id (table_id s)
  | None => ∃ msg, GetTable n x = (Exn (SqlException msg), x)
  end.
Proof.
  intros Hc. unfold GetTable, Catalog.GetTable, lift. destruct (cat_lookup _ _ n Hc) as [[E1 ->]|(s & tb & E1 & -> & Hcols & Hid)].
  - eexists. rewrite bind_get. by rewrite E1.
  - exists s. rewrite bind_get. by rewrite E1.
Qed.

Lemma engine_run {A} (m : M E A) (x : Database.t E) r e : m (engine_ x) = (r, e) → engine m x = (r, mk (catalog_ x) e).
Proof. unfold engine. by intros ->. Qed.

Lemma lift_run {A} (r : res A) (x : Database.t E) v : r = Val v → lift r x = (Val v, x).
Proof. by intros ->. Qed.

Lemma db_rep_le n n' m m' x d : (n' ≤ n)%nat → (m ≤ m')%nat → db_rep n m x d → db_rep n' m' x d.
Proof.
  intros Hn Hm (Hc & es & Hst & Hl & Ht & Hids). split; [done|]. exists es. split_and!; [by eapply stores_le|lia|done|done].
Qed.

(** ** CREATE TABLE *)

Lemma create_spec n m x d name cs :
  db_rep n m x d → cols_ok cs → Z.of_nat (size d) < 2 ^ 16 →
  match d !! name with
  | Some _ => ∃ msg, ExecuteCreateTable name cs x = (Exn (SqlException msg), x)
  | None => ∃ x', ExecuteCreateTable name cs x = (Val (mkResult [] [] 0 "CREATE TABLE"), x') ∧
      db_rep n m x' (<[name := mkTable cs []]> d)
  end.
Proof.
  intros (Hc & es & Hst & Hl & Ht & Hids) Hcs Hsz. destruct x as [c e]. simpl in *. unfold ExecuteCreateTable.
  destruct (cat_lookup _ _ name Hc) as [[E1 E2]|(s & tb & E1 & -> & _)].
  2: { eexists. apply bind_Exn. unfold catalog, Catalog.CreateTable. simpl. rewrite bind_get. unfold Catalog.HasTable.
       rewrite E1, bool_decide_eq_true_2 by eauto. done. }
  rewrite E2. pose proof (cr_next _ _ Hc) as Hnext. unfold u16 in Hnext. rewrite Z.mod_small in Hnext by lia.
  set (c' := Catalog.mk (<[name := mkSchema name (Z.of_nat (size d)) cs]> (Catalog.tables_ c)) (u16 (Z.of_nat (size d) + 1))).
  exists (mk c' e). split.
  { assert (Ec : catalog (Catalog.CreateTable name cs) (mk c e) = (Val (mkSchema name (Z.of_nat (size d)) cs), mk c' e)); [|by mrun Ec].
    unfold catalog, Catalog.CreateTable. simpl. rewrite bind_get. unfold Catalog.HasTable.
    rewrite E1, bool_decide_eq_false_2 by (by intros []). rewrite Hnext.
    rewrite (proj2 (Z.leb_gt _ _)) by (change kMaxTables with (2 ^ 16); lia). done. }
  assert (Hsz' : size (<[name := mkTable cs []]> d) = S (size d)) by (by apply map_size_insert_None).
  split; [split|exists es; split_and!].
  - intros n'. simpl. rewrite !lookup_insert, Hsz'. case_decide; simpl; [split; [done|lia]|].
    pose proof (cr_tables _ _ Hc n') as Hn'. repeat case_match; try done. split; [apply Hn'|lia].
  - assert (Hlt : ∀ n' s', Catalog.tables_ c !! n' = Some s' → table_id s' < Z.of_nat (size d)).
    { intros n' s' Es. pose proof (cr_tables _ _ Hc n') as Hn'. rewrite Es in Hn'. case_match; [|done]. lia. }
    intros n1 n2 s1 s2. simpl. rewrite !lookup_insert. destruct (decide (name = n1)), (decide (name = n2)); [congruence|..].
    + intros [= <-] H2 Hid. specialize (Hlt _ _ H2). simpl in Hid. lia.
    + intros H1 [= <-] Hid. specialize (Hlt _ _ H1). simpl in Hid. lia.
    + by eapply cr_ids.
  - simpl. rewrite Hsz'. f_equal. lia.
  - rewrite Hsz'. lia.
  - done.
  - done.
  - intros n' s' tb'. simpl. rewrite !lookup_insert. case_decide as Hn'; [|by apply Ht].
    intros [= <-] [= <-]. split; simpl; [|constructor|set_solver|done]. apply filter_none. intros y Hy.
    specialize (Hids y Hy). lia.
  - intros y Hy. rewrite Hsz'. specialize (Hids y Hy). lia.
Qed.

(** ** INSERT *)

Lemma typed_cells_ok cs vs : Forall value_ok vs → typed_cells cs vs = true ↔ Forall2 cell_ok cs vs.
Proof.
  intros Hv. revert cs. induction Hv as [|v vs Hv _ IH]; intros [|c cs]; simpl.
  - by split; [constructor|].
  - by split; [|inversion 1].
  - by split; [|inversion 1].
  - rewrite andb_true_iff, IH, Forall2_cons. apply and_iff_compat_r. unfold typed_cell, cell_ok.
    destruct (col_type c), v as [z|t]; simpl in *; [done|done|done|apply Z.leb_le].
Qed.

Lemma EncodeRow_cases s pk vs :
  is_pk pk → Forall value_ok vs →
  if row_fits (columns s) pk vs
  then EncodeRow s (VInt pk :: vs) = Val (payload (VInt pk :: vs)) ∧ row_ok (columns s) (pk, VInt pk :: vs)
  else ∃ msg, EncodeRow s (VInt pk :: vs) = Exn (SqlException msg).
Proof.
  intros Hpk Hv. unfold row_fits, EncodeRow. unfold is_pk in Hpk. change kMaxRowKey with (2 ^ 48 - 1).
  rewrite (proj2 (Z.leb_le 0 pk)), (proj2 (Z.leb_le pk (2 ^ 48 - 1))), !andb_true_l by lia.
  change (length (VInt pk :: vs)) with (S (length vs)). rewrite (Nat.eqb_sym (S (length vs))).
  destruct (Nat.eqb_spec (length (columns s)) (S (length vs))) as [Hl|]; cbn [negb andb]; [|by eauto].
  change (drop 1 (VInt pk :: vs)) with vs.
  destruct (typed_cells (drop 1 (columns s)) vs) eqn:Et; cbn [andb].
  - apply typed_cells_ok in Et; [|done]. rewrite append_columns_ok, app_nil_l by done. cbn [mbind res_bind]. rewrite blen_cells.
    rewrite Z.leb_antisym. destruct (MAX_VALUE_SIZE <? row_size vs) eqn:Es; simpl negb; cbn match; [by eauto|].
    split; [done|]. split; [done|]. exists vs. split_and!; try done. rewrite blen_cells. by apply Z.ltb_ge in Es.
  - destruct (append_columns_cases (drop 1 (columns s)) vs []) as [(out & Ea)|(msg & Ea)]; [rewrite length_drop; lia| |].
    + apply append_columns_inv in Ea; [|done|rewrite length_drop; lia]. apply typed_cells_ok in Ea; [congruence|done].
    + rewrite Ea. eauto.
Qed.

Lemma length_ins_S (k : Z) (v : string) es : (length (ins k v es) ≤ S (length es))%nat.
Proof. induction es as [|[k' w] es IH]; simpl; [lia|]. case_match; [simpl; lia|]. case_match; simpl; lia. Qed.

Lemma elem_ins_key k v (es : list (Z * string)) y : y ∈ ins k v es → y.1 = k ∨ y ∈ es.
Proof. intros [->|?]%elem_of_ins; [by left|by right]. Qed.

Lemma insert_spec n m x d name values :
  db_rep (S n) m x d → Forall value_ok values →
  match spec_exec (InsertStmt name values) d with
  | Some (r, d') => ∃ x', ExecuteInsert name values x = (Val r, x') ∧ db_rep n (S m) x' d'
  | None => ∃ msg, ExecuteInsert name values x = (Exn (SqlException msg), x)
  end.
Proof.
  intros Hrep Hv. pose proof Hrep as (Hc & es & Hst & Hl & Ht & Hids). unfold ExecuteInsert. simpl.
  pose proof (GetTable_cases x d name Hc) as Hg. destruct (d !! name) as [tb|] eqn:Ed.
  2: { destruct Hg as (msg & Hg). exists msg. by apply bind_Exn. }
  destruct Hg as (s & Hg & Es & Hcols & Hid). destruct values as [|[pk|] vs]; [eexists; by mrun Hg| |eexists; by mrun Hg].
  apply Forall_cons in Hv as [_ Hv]. rewrite Hcols.
  destruct (decide (is_pk pk)) as [Hpk|Hpk].
  2: { unfold row_fits. unfold is_pk in Hpk. change kMaxRowKey with (2 ^ 48 - 1).
       assert (Hout : (pk <? 0) || (2 ^ 48 - 1 <? pk) = true) by (apply orb_true_iff; rewrite !Z.ltb_lt; lia).
       assert (Hin : (0 <=? pk) && (pk <=? 2 ^ 48 - 1) = false) by (apply andb_false_iff; rewrite !Z.leb_gt; lia).
       rewrite Hin. cbn [andb]. eexists. mrun Hg. by rewrite Hout. }
  assert (Hin : (pk <? 0) || (kMaxRowKey <? pk) = false).
  { unfold is_pk in Hpk. change kMaxRowKey with (2 ^ 48 - 1). apply orb_false_iff. rewrite !Z.ltb_ge. lia. }
  pose proof (EncodeRow_cases s pk vs Hpk Hv) as He. destruct (row_fits (columns s) pk vs).
  2: { destruct He as (msg & He). exists msg. mrun Hg. rewrite Hin. apply bind_Exn. unfold lift. by rewrite He. }
  destruct He as [He Hrow]. pose proof (payload_size _ _ Hrow) as Hsize. simpl in Hsize.
  destruct (Put_spec n (engine_ x) es (EncodeKey (table_id s) pk) (payload (VInt pk :: vs)) Hst (EncodeKey_i64 _ _) Hsize) as (e' & Ep & Hst').
  exists (mk (catalog_ x) e'). split.
  { mrun Hg. rewrite Hin. mrun (lift_run _ x _ He). by mrun (engine_run _ x _ _ Ep). }
  pose proof (Ht name s tb Es Ed) as Htb. pose proof (stores_sorted _ _ _ Hst) as Hsort.
  assert (Hsz : size (<[name := mkTable (columns s) (ins pk (VInt pk :: vs) (trows tb))]> d) = size d) by (by eapply map_size_insert_Some).
  split; [|exists (ins (EncodeKey (table_id s) pk) (payload (VInt pk :: vs)) es); split_and!].
  - destruct Hc as [H1 H2 H3 H4]. split; rewrite ?Hsz; try done. intros n'. specialize (H1 n'). simpl. rewrite lookup_insert.
    case_decide; [subst n'|done]. rewrite Es, Ed in H1. rewrite Es. split; [done|apply H1].
  - done.
  - pose proof (length_ins_S (EncodeKey (table_id s) pk) (payload (VInt pk :: vs)) es). lia.
  - intros n' s' tb'. simpl. rewrite lookup_insert. case_decide as Hn.
    + subst n'. rewrite Es. intros [= <-] [= <-]. rewrite <-Hcols. apply table_ins; [done|done|done|by rewrite Hcols].
    + intros Es' Ed'. apply table_ins_other; [by apply (Ht n')|done|done|]. intros Eid.
      by apply Hn, (cr_ids _ _ Hc name n' s s').
  - intros y [Ey|Hy]%elem_ins_key; rewrite Hsz; [|by apply Hids]. rewrite Ey, DecodeTableId_Encode by done.
    pose proof (cr_tables _ _ Hc name) as Hn. rewrite Es, Ed in Hn. apply Hn.
Qed.

(** ** SELECT *)

Lemma projection_cases s names :
  if forallb (λ c, bool_decide (is_Some (type_of (columns s) c))) names
  then ∃ idxs, projection s names = Val idxs ∧
    ∀ row, length row = length (columns s) → project row idxs = Val (omap (cell (columns s) row) names)
  else ∃ msg, projection s names = Exn (SqlException msg).
Proof.
  induction names as [|c names IH]; [by exists []|]. cbn [forallb projection].
  destruct (ColumnIndex_cases s c) as [[-> ->]|(j & c' & -> & Hj & -> & Hcell)].
  - rewrite bool_decide_eq_false_2 by (by intros []). cbn. eauto.
  - rewrite bool_decide_eq_true_2, (proj2 (Z.ltb_ge _ _)) by (eauto || lia). cbn [andb].
    destruct (forallb _ names).
    + destruct IH as (idxs & -> & Hp). exists (Z.of_nat j :: idxs). split; [done|]. intros row Hrow. cbn [project omap list_omap].
      assert (∃ v, row !! j = Some v) as [v Hv] by (apply lookup_lt_is_Some; apply lookup_lt_Some in Hj; lia).
      rewrite (at_index_nat _ _ _ Hv), Hp, Hcell, Hv by done. done.
    + destruct IH as (msg & ->). simpl. eauto.
Qed.

Lemma project_seq row : ∀ pre, project (pre ++ row) (Z.of_nat <$> seq (length pre) (length row)) = Val row.
Proof.
  induction row as [|v row IH]; intros pre; [done|]. cbn [length seq]. rewrite fmap_cons. cbn [project].
  rewrite (at_index_nat _ _ v) by (by apply list_lookup_middle). specialize (IH (pre ++ [v])).
  rewrite <-app_assoc, length_app, Nat.add_1_r in IH. cbn [mbind res_bind]. simpl app in IH. by rewrite IH.
Qed.

Lemma project_all_ok idxs (f : list Value → list Value) rows :
  (∀ row, row ∈ rows → project row idxs = Val (f row)) → project_all rows idxs = Val (f <$> rows).
Proof.
  induction rows as [|row rows IH]; intros Hp; [done|]. cbn [project_all]. rewrite (Hp row) by set_solver.
  cbn [mbind res_bind]. by rewrite IH by set_solver.
Qed.

Lemma plan_point_ok s c0 cs' w plan :
  columns s = c0 :: cs' → points_ok (columns s) w → plan_for s c0 w plan → point_ok plan.
Proof.
  intros -> Hp [v others _ _ (cmp & Hin & Hq & El)|path lo hi Hpath _ _ _]; intros Ha; [by eapply Hp|done].
Qed.

(** The plan of a statement, and the table it is for. *)
Lemma plan_cases x d n m name w tb s :
  db_rep n m x d → d !! name = Some tb → Catalog.tables_ (catalog_ x) !! name = Some s → cols tb = columns s →
  if forallb (typed_cmp (columns s)) w
  then ∃ c0 cs' plan, columns s = c0 :: cs' ∧ cols_ok (columns s) ∧ PlanQuery s w = Val plan ∧ plan_for s c0 w plan
  else ∃ msg, PlanQuery s w = Exn (SqlException msg).
Proof.
  intros (Hc & es & Hst & Hl & Ht & Hids) Ed Es Hcols. pose proof (tr_cols _ _ _ (Ht _ _ _ Es Ed)) as Hok. rewrite Hcols in Hok.
  destruct (id Hok) as (c0 & cs' & Hcs & Hty). pose proof (PlanQuery_cases s c0 cs' Hcs Hty w) as Hp.
  destruct (forallb _ w); [|done]. destruct Hp as (plan & Hp & Hpf). by exists c0, cs', plan.
Qed.

Lemma select_spec fuel n m x d name star names w :
  db_rep n m x d → (m ≤ fuel)%nat → (∀ tb, d !! name = Some tb → points_ok (cols tb) w) →
  match spec_exec (SelectStmt name star names w) d with
  | Some (r, d') => ∃ x', ExecuteSelect fuel name star names w x = (Val r, x') ∧ db_rep n m x' d'
  | None => ∃ msg x', ExecuteSelect fuel name star names w x = (Exn (SqlException msg), x') ∧ db_rep n m x' d
  end.
Proof.
  intros Hrep Hm Hpt. pose proof Hrep as (Hc & es & Hst & Hl & Ht & Hids). unfold ExecuteSelect. cbn [spec_exec].
  pose proof (GetTable_cases x d name Hc) as Hg. destruct (d !! name) as [tb|] eqn:Ed.
  2: { destruct Hg as (msg & Hg). exists msg, x. split; [by apply bind_Exn|done]. }
  destruct Hg as (s & Hg & Es & Hcols & Hid). specialize (Hpt tb eq_refl). pose proof (Ht name s tb Es Ed) as Htb.
  pose proof (plan_cases x d n m name w tb s Hrep Ed Es Hcols) as Hp. rewrite Hcols in *.
  destruct (forallb (typed_cmp (columns s)) w); cbn [andb].
  2: { destruct Hp as (msg & Hp). exists msg, x. split; [|done]. mrun Hg. apply bind_Exn. unfold lift. by rewrite Hp. }
  destruct Hp as (c0 & cs' & plan & Hcs & Hok & Hp & Hpf).
  destruct (ExecuteFetch_spec s Hid Hok c0 cs' Hcs tb Hcols fuel n (engine_ x) es w plan Hst Htb Hpf
    (plan_point_ok _ _ _ _ _ Hcs Hpt Hpf) ltac:(lia)) as (e' & Ef & Hst').
  set (x' := mk (catalog_ x) e').
  assert (Hrep' : db_rep n m x' d) by (split; [done|by exists es]).
  assert (Hlen : ∀ row, row ∈ (filter (λ r, sat_all (columns s) r.2 w) (trows tb)).*2 → length row = length (columns s)).
  { intros row (r & -> & [_ Hr]%list_elem_of_filter)%list_elem_of_fmap. destruct (tr_ok _ _ _ Htb r Hr) as (_ & vs & -> & Hlr & _).
    rewrite Hcols in Hlr. by rewrite Hlr. }
  destruct star; cbn [orb].
  - exists x'. split; [|done]. mrun Hg. mrun (lift_run _ x _ Hp). mrun (engine_run _ x _ _ Ef). fold x'.
    mrun (lift_run (Val (col_name <$> columns s, Z.of_nat <$> seq 0 (length (columns s)))) x' _ eq_refl).
    rewrite (project_all_ok _ (λ row, row)).
    2: { intros row Hr. rewrite <-(Hlen row Hr). apply (project_seq row []). }
    mrun (lift_run (Val ((λ row, row) <$> (filter (λ r, sat_all (columns s) r.2 w) (trows tb)).*2)) x' _ eq_refl).
    rewrite !length_fmap. do 3 f_equal. rewrite <-list_fmap_compose. done.
  - pose proof (projection_cases s names) as Hpr. destruct (forallb _ names).
    + destruct Hpr as (idxs & Epr & Hproj). exists x'. split; [|done].
      mrun Hg. mrun (lift_run _ x _ Hp). mrun (engine_run _ x _ _ Ef). fold x'. rewrite Epr.
      mrun (lift_run (Val (names, idxs)) x' _ eq_refl).
      rewrite (project_all_ok _ (λ row, omap (cell (columns s) row) names)).
      2: { intros row Hr. by apply Hproj, Hlen. }
      mrun (lift_run (Val ((λ row, omap (cell (columns s) row) names) <$> (filter (λ r, sat_all (columns s) r.2 w) (trows tb)).*2)) x' _ eq_refl).
      rewrite !length_fmap. do 3 f_equal. rewrite <-list_fmap_compose. done.
    + destruct Hpr as (msg & Epr). exists msg, x'. split; [|done].
      mrun Hg. mrun (lift_run _ x _ Hp). mrun (engine_run _ x _ _ Ef). fold x'. rewrite Epr. by apply bind_Exn.
Qed.

(** ** DELETE *)

Lemma delete_spec fuel n m x d name w :
  db_rep n m x d → (m ≤ fuel)%nat → (∀ tb, d !! name = Some tb → points_ok (cols tb) w) →
  match spec_exec (DeleteStmt name w) d with
  | Some (r, d') => ∃ x', ExecuteDeleteStmt fuel name w x = (Val r, x') ∧ db_rep n m x' d'
  | None => ∃ msg x', ExecuteDeleteStmt fuel name w x = (Exn (SqlException msg), x') ∧ db_rep n m x' d
  end.
Proof.
  intros Hrep Hm Hpt. pose proof Hrep as (Hc & es & Hst & Hl & Ht & Hids). unfold ExecuteDeleteStmt. cbn [spec_exec].
  pose proof (GetTable_cases x d name Hc) as Hg. destruct (d !! name) as [tb|] eqn:Ed.
  2: { destruct Hg as (msg & Hg). exists msg, x. split; [by apply bind_Exn|done]. }
  destruct Hg as (s & Hg & Es & Hcols & Hid). specialize (Hpt tb eq_refl). pose proof (Ht name s tb Es Ed) as Htb.
  pose proof (plan_cases x d n m name w tb s Hrep Ed Es Hcols) as Hp. rewrite Hcols in *.
  destruct (forallb (typed_cmp (columns s)) w); cbn [andb].
  2: { destruct Hp as (msg & Hp). exists msg, x. split; [|done]. mrun Hg. apply bind_Exn. unfold lift. by rewrite Hp. }
  destruct Hp as (c0 & cs' & plan & Hcs & Hok & Hp & Hpf).
  destruct (ExecuteDelete_spec s Hid Hok c0 cs' Hcs tb Hcols fuel n (engine_ x) es w plan Hst Htb Hpf
    (plan_point_ok _ _ _ _ _ Hcs Hpt Hpf) ltac:(lia)) as (e' & Ef & Hst').
  set (keys := (λ r, EncodeKey (table_id s) r.1) <$> filter (λ r, sat_all (columns s) r.2 w) (trows tb)) in *.
  exists (mk (catalog_ x) e'). split.
  { mrun Hg. mrun (lift_run _ x _ Hp). by mrun (engine_run _ x _ _ Ef). }
  set (tb' := mkTable (columns s) (filter (λ r, ¬ sat_all (columns s) r.2 w) (trows tb))).
  assert (Hsz : size (<[name := tb']> d) = size d) by (by eapply map_size_insert_Some).
  split; [|exists (filter (λ y, y.1 ∉ keys) es); split_and!].
  - destruct Hc as [H1 H2 H3 H4]. split; rewrite ?Hsz; try done. intros n'. specialize (H1 n'). simpl. rewrite lookup_insert.
    case_decide; [subst n'|done]. rewrite Es, Ed in H1. rewrite Es. split; [done|apply H1].
  - done.
  - etransitivity; [apply length_filter|done].
  - intros n' s' tb0. simpl. rewrite lookup_insert. case_decide as Hn.
    + subst n'. rewrite Es. intros [= <-] [= <-]. unfold tb'. rewrite <-Hcols. apply table_filter; [done|done|].
      intros r Hr. rewrite Hcols. split.
      * intros Hns (r' & Er & [Hsat Hr']%list_elem_of_filter)%list_elem_of_fmap.
        assert (r = r') as <-; [|done]. apply (NoDup_fst_inj (trows tb)); [|done|done|].
        -- by apply sorted_NoDup, (tr_sorted _ _ _ Htb).
        -- eapply EncodeKey_inj; [..|exact Er]; by apply (tr_ok _ _ _ Htb).
      * intros Hni Hsat. apply Hni. apply (list_elem_of_fmap_2 (λ r, EncodeKey (table_id s) r.1)). by apply list_elem_of_filter.
    + intros Es' Ed'. apply table_filter_other; [by apply (Ht n')|]. intros k (r & -> & _)%list_elem_of_fmap.
      rewrite DecodeTableId_Encode by done. intros Eid. by apply Hn, (cr_ids _ _ Hc name n' s s').
  - intros y [_ Hy]%list_elem_of_filter. rewrite Hsz. by apply Hids.
Qed.

(** ** Statements and texts *)

Definition inserts (stmt : Statement) : nat := match stmt with InsertStmt _ _ => 1 | _ => 0 end.

Lemma execute_spec fuel n m x d stmt :
  db_rep (S n) m x d → (m ≤ fuel)%nat → stmt_ok stmt → admissible stmt d →
  match spec_exec stmt d with
  | Some (r, d') => ∃ x', execute fuel stmt x = (Val r, x') ∧ db_rep n (S m) x' d'
  | None => ∃ msg x', execute fuel stmt x = (Exn (SqlException msg), x') ∧ db_rep n (S m) x' d
  end.
Proof.
  intros Hrep Hf Hok Had. pose proof (db_rep_le (S n) n m (S m) x d ltac:(lia) ltac:(lia) Hrep) as Hrep'.
  destruct stmt as [name cs|name values|name star names w|name w]; simpl in Hok, Had; cbn [execute].
  - pose proof (create_spec n (S m) x d name cs Hrep' Hok Had) as Hc. simpl. destruct (d !! name); [|done].
    destruct Hc as (msg & Hc). eauto.
  - pose proof (insert_spec n m x d name values Hrep Hok) as Hi. destruct (spec_exec _ d) as [[r d']|]; [done|].
    destruct Hi as (msg & Hi). eauto.
  - pose proof (select_spec fuel (S n) m x d name star names w Hrep Hf Had) as Hs. destruct (spec_exec _ d) as [[r d']|].
    + destruct Hs as (x' & Hs & Hr). exists x'. split; [done|]. by eapply db_rep_le; [..|exact Hr]; lia.
    + destruct Hs as (msg & x' & Hs & Hr). exists msg, x'. split; [done|]. by eapply db_rep_le; [..|exact Hr]; lia.
  - pose proof (delete_spec fuel (S n) m x d name w Hrep Hf Had) as Hs. destruct (spec_exec _ d) as [[r d']|].
    + destruct Hs as (x' & Hs & Hr). exists x'. split; [done|]. by eapply db_rep_le; [..|exact Hr]; lia.
    + destruct Hs as (msg & x' & Hs & Hr). exists msg, x'. split; [done|]. by eapply db_rep_le; [..|exact Hr]; lia.
Qed.

(** ** Sessions *)

(** A client: the texts in order, each answered or refused. *)
Fixpoint session (fuel : nat) (sqls : list string) (x : Database.t E) : list (res QueryResult) * Database.t E :=
  match sqls with
  | [] => ([], x)
  | sql :: sqls =>
      let '(r, x) := Execute fuel sql x in
      let '(rs, x) := session fuel sqls x in
      (r :: rs, x)
  end.

(** Refused: an exception of the SQL layer, or [std::out_of_range] for a number. *)
Definition agrees (r : res QueryResult) (o : option QueryResult) : Prop :=
  match o with
  | Some q => r = Val q
  | None => r = Exn (OutOfRange "stoll") ∨ ∃ msg, r = Exn (SqlException msg)
  end.

Lemma Execute_spec fuel n m x d sql :
  db_rep (S n) m x d → (m ≤ fuel)%nat → match Parse sql with Val stmt => admissible stmt d | _ => True end →
  ∃ r x', Execute fuel sql x = (r, x') ∧ agrees r (spec_text sql d).1 ∧ db_rep n (S m) x' (spec_text sql d).2.
Proof.
  intros Hrep Hf Had. unfold Execute, spec_text.
  destruct (Parse_cases sql) as [(l & tr & stmt & _ & _ & _ & Ep)|[(msg & Ep)|Ep]].
  - pose proof (Parse_ok _ _ Ep) as Hok. rewrite Ep in Had |- *. mrun (lift_run (Val stmt) x _ eq_refl).
    pose proof (execute_spec fuel n m x d stmt Hrep Hf Hok Had) as Hs. destruct (spec_exec stmt d) as [[r d']|].
    + destruct Hs as (x' & Hs & Hr). by exists (Val r), x'.
    + destruct Hs as (msg & x' & Hs & Hr). exists (Exn (SqlException msg)), x'. split_and!; [done|simpl; eauto|done].
  - rewrite Ep. exists (Exn (SqlException msg)), x. split_and!; [done|simpl; eauto|]. by eapply db_rep_le; [..|exact Hrep]; lia.
  - rewrite Ep. exists (Exn (OutOfRange "stoll")), x. split_and!; [done|simpl; eauto|]. by eapply db_rep_le; [..|exact Hrep]; lia.
Qed.

Lemma session_spec fuel sqls : ∀ n m x d,
  db_rep (length sqls + n) m x d → (m + length sqls ≤ fuel)%nat → admissible_all sqls d →
  ∃ rs x', session fuel sqls x = (rs, x') ∧ Forall2 agrees rs (spec_session sqls d).1 ∧
    db_rep n (m + length sqls) x' (spec_session sqls d).2.
Proof.
  induction sqls as [|sql sqls IH]; intros n m x d Hrep Hf Had.
  - exists [], x. split_and!; [done|constructor|]. by rewrite Nat.add_0_r.
  - simpl in Hrep, Hf. apply admissible_all_cons in Had as [Had Hads].
    destruct (Execute_spec fuel (length sqls + n) m x d sql Hrep ltac:(lia) Had) as (r & x1 & E1 & Ha & Hr).
    destruct (IH n (S m) x1 (spec_text sql d).2 Hr ltac:(lia) Hads) as (rs & x2 & E2 & Has & Hrs).
    exists (r :: rs), x2. cbn [session spec_session]. rewrite E1, E2. destruct (spec_text sql d) as [o d1]. simpl in *.
    destruct (spec_session sqls d1) as [os d2]. simpl in *. split_and!; [done|by constructor|].
    by rewrite <-Nat.add_succ_comm.
Qed.

Lemma empty_rep n e : stores n e [] → db_rep n 0 (mk Catalog.empty e) ∅.
Proof.
  intros Hst. split; [split|exists []; split_and!]; simpl; try done.
  clear. set_solver.
Qed.
End database.
