(* ===== verification/SqlProps.v ===== *)
(** * SQL: properties

    Texts, keys, rows, plans, and whole sessions on a database file. *)

From S2P Require Import Prelude Entries Bytes Disk Replacer Buffer BTree Engine BTreeEngine BTreeEngineTheory BTreeReopen.
From S2P Require Import Sql Lexer LexerTheory Parser ParserTheory Catalog CatalogTheory Planner Executor Database SqlSpec.
From S2P Require Import PlannerTheory TableRep ExecutorTheory DatabaseTheory.

#[local] Opaque DecodeTableId DecodeRowKey EncodeKey.

Abbreviation empty_db_file := (DiskManager.File [] []) (only parsing).

(** ** Texts *)

(** C20: the lexer answers the tokens [ts] for exactly the texts that spell [ts]
    in order, each token carried as far as it goes, with white space around
    them. *)
Theorem lexer_reads_renderings sql ts :
  Lexer.Tokenize sql = Val ts ↔
  ∃ l trailing, sql = of_chars (render l trailing) ∧ rendering l trailing = true ∧ ts = l.*2 ++ [tok END EmptyString].
Proof.
  split.
  - intros E. destruct (Tokenize_cases sql) as [(l & tr & -> & Hr & E')|[(msg & E')|E']]; rewrite E in E'; [|done..].
    injection E' as ->. by exists l, tr.
  - intros (l & tr & -> & Hr & ->). by apply Tokenize_render.
Qed.

(** C10: the parser accepts exactly the texts the grammar of sql/parser.h
    derives, and answers the statement derived. *)
Theorem parser_accepts_grammar sql stmt :
  Parse sql = Val stmt ↔
  ∃ l trailing, sql = of_chars (render l trailing) ∧ rendering l trailing = true ∧ g_program l.*2 stmt.
Proof.
  split.
  - intros E. destruct (Parse_cases sql) as [(l & tr & s & -> & Hr & Hg & E')|[(msg & E')|E']]; rewrite E in E'; [|done..].
    injection E' as ->. by exists l, tr.
  - intros (l & tr & -> & Hr & Hg). by apply Parse_accepts.
Qed.

(** C19: parsing always ends, with a statement, with an SqlException, or, where
    a number does not fit 64 bits, with the [std::out_of_range] of [std::stoll];
    no token is read past the end. *)
Theorem parser_total sql :
  (∃ stmt, Parse sql = Val stmt ∧ stmt_ok stmt) ∨ (∃ msg, Parse sql = Exn (SqlException msg)) ∨
  Parse sql = Exn (OutOfRange "stoll").
Proof.
  destruct (Parse_cases sql) as [(l & tr & s & _ & _ & _ & E)|?]; [left|by right].
  exists s. split; [done|]. by eapply Parse_ok.
Qed.

(** A number outside 64 bits leaves the SQL layer's own exception type: the
    text is refused with [std::out_of_range]. *)
Theorem parser_number_out_of_range :
  Parse "SELECT * FROM t WHERE id = 9223372036854775808" = Exn (OutOfRange "stoll").
Proof. by vm_compute. Qed.

(** ** Keys and rows *)

(** C23: the key of a row gives back its table and its primary key, every 64-bit
    key is the key of one row of one table, and within a table keys are in
    primary-key order. *)
Theorem key_codec id pk pk' key :
  is_id id → is_pk pk → is_pk pk' → is_i64 key →
  DecodeTableId (EncodeKey id pk) = id ∧ DecodeRowKey (EncodeKey id pk) = pk ∧ is_i64 (EncodeKey id pk) ∧
  EncodeKey (DecodeTableId key) (DecodeRowKey key) = key ∧ (EncodeKey id pk < EncodeKey id pk' ↔ pk < pk').
Proof.
  intros Hid Hpk Hpk' Hk. split_and!.
  - by apply DecodeTableId_Encode.
  - rewrite DecodeRowKey_Encode. apply Z.mod_small, Hpk.
  - apply EncodeKey_i64.
  - by apply Encode_Decode.
  - by apply EncodeKey_lt.
Qed.

Lemma key_codec_witness :
  DecodeTableId (EncodeKey 40000 7) = 40000 ∧ DecodeRowKey (EncodeKey 40000 7) = 7 ∧ is_i64 (EncodeKey 40000 7) ∧
  EncodeKey (DecodeTableId (-5)) (DecodeRowKey (-5)) = -5 ∧ (EncodeKey 40000 7 < EncodeKey 40000 9 ↔ 7 < 9).
Proof. by apply (key_codec 40000 7 9 (-5)). Defined.

(** C22: a row that was encoded is decoded to the same values. *)
Theorem row_roundtrip s pk vs w :
  Forall value_ok vs → EncodeRow s (VInt pk :: vs) = Val w → DecodeRow s pk w = Val (VInt pk :: vs) ∧ ssize w ≤ MAX_VALUE_SIZE.
Proof.
  intros Hv. unfold EncodeRow. destruct (Nat.eqb_spec (length (VInt pk :: vs)) (length (columns s))) as [Hl|]; [|done].
  change (drop 1 (VInt pk :: vs)) with vs. cbn [negb]. simpl length in Hl.
  destruct (append_columns_cases (drop 1 (columns s)) vs []) as [(out & Ea)|(msg & ->)]; [rewrite length_drop; lia| |done].
  pose proof (append_columns_inv _ _ _ _ Hv Ea ltac:(rewrite length_drop; lia)) as Hc.
  rewrite Ea. cbn [mbind res_bind]. rewrite append_columns_ok in Ea by done. injection Ea as <-. cbn [app].
  destruct (Z.ltb_spec MAX_VALUE_SIZE (blen (cells_bytes vs))) as [|Hlen]; [done|]. intros [= <-]. split.
  - unfold DecodeRow. rewrite chars_of_chars. pose proof (read_columns_ok _ vs [] [] Hc) as E.
    rewrite app_nil_l, app_nil_r in E. change (blen []) with 0 in E. by rewrite E.
  - by rewrite ssize_of_chars.
Qed.

Lemma row_roundtrip_witness :
  let s := mkSchema "t" 0 [mkColumnDef "id" INTEGER; mkColumnDef "a" TEXT; mkColumnDef "b" INTEGER] in
  ∃ w, EncodeRow s [VInt 1; VText "xy"; VInt (-3)] = Val w ∧
    DecodeRow s 1 w = Val [VInt 1; VText "xy"; VInt (-3)] ∧ ssize w ≤ MAX_VALUE_SIZE.
Proof.
  eexists. split; [by vm_compute|]. apply row_roundtrip; [|by vm_compute]. repeat constructor; by vm_compute.
Defined.

(** ** Table ids *)

Fixpoint create_all (names : list string) (cs : list ColumnDefAst) : M Catalog.t () :=
  match names with
  | [] => mret tt
  | n :: names => _ ← Catalog.CreateTable n cs; create_all names cs
  end.

Lemma create_all_spec cs names : ∀ c k,
  NoDup names → (∀ n, n ∈ names → Catalog.tables_ c !! n = None) → Catalog.next_table_id_ c = u16 k →
  ∃ c', create_all names cs c = (Val tt, c') ∧
    (∀ i n, names !! i = Some n → Catalog.tables_ c' !! n = Some (mkSchema n (u16 (k + Z.of_nat i)) cs)) ∧
    (∀ n, n ∉ names → Catalog.tables_ c' !! n = Catalog.tables_ c !! n).
Proof.
  induction names as [|n names IH]; intros c k Hnd Hnew Hnext; [by exists c|].
  apply NoDup_cons in Hnd as [Hn Hnd].
  destruct (IH (Catalog.mk (<[n := mkSchema n (u16 k) cs]> (Catalog.tables_ c)) (u16 (u16 k + 1))) (k + 1)) as (c' & E & Hin & Hout).
  - done.
  - intros n' Hn'. simpl. rewrite lookup_insert_ne by (by intros ->). apply Hnew. by right.
  - simpl. unfold u16. by rewrite Zplus_mod_idemp_l.
  - exists c'. split_and!.
    + cbn [create_all].
      assert (Catalog.CreateTable n cs c = (Val (mkSchema n (u16 k) cs),
        Catalog.mk (<[n := mkSchema n (u16 k) cs]> (Catalog.tables_ c)) (u16 (u16 k + 1)))) as Ec; [|by mrun Ec].
      unfold Catalog.CreateTable. rewrite bind_get. unfold Catalog.HasTable. rewrite (Hnew n) by (by left).
      rewrite bool_decide_eq_false_2 by (by intros []). rewrite Hnext.
      pose proof (Z.mod_pos_bound k (2 ^ 16) ltac:(lia)) as Hb. fold (u16 k) in Hb.
      rewrite (proj2 (Z.leb_gt _ _)) by (change kMaxTables with (2 ^ 16); lia). done.
    + intros [|i] n' Hi; simpl in Hi.
      * injection Hi as <-. rewrite Hout by done. simpl. by rewrite lookup_insert_eq, Z.add_0_r.
      * rewrite (Hin i n' Hi). do 3 f_equal. lia.
    + intros n' Hn'. rewrite not_elem_of_cons in Hn'. rewrite Hout by tauto. simpl. rewrite lookup_insert_ne; [done|]. naive_solver.
Qed.

(** C30: tables get the ids 0, 1, 2, ... as 16-bit numbers: up to 65536 tables
    have different ids; the 65537th gets the id of the first, and the check for
    an exhausted id space never fires. *)
Theorem catalog_table_ids cs names :
  NoDup names →
  ∃ c, create_all names cs Catalog.empty = (Val tt, c) ∧
    ∀ i n, names !! i = Some n → Catalog.tables_ c !! n = Some (mkSchema n (Z.of_nat i `mod` 65536) cs).
Proof.
  intros Hnd. destruct (create_all_spec cs names Catalog.empty 0 Hnd) as (c & E & Hin & _); [|done|].
  - intros n _. apply lookup_empty.
  - exists c. split; [done|]. intros i n Hi. by rewrite (Hin i n Hi), Z.add_0_l.
Qed.

Lemma catalog_table_ids_witness :
  ∃ c, create_all ["a"; "b"] [mkColumnDef "id" INTEGER] Catalog.empty = (Val tt, c) ∧
    ∀ i n, ["a"; "b"] !! i = Some n →
      Catalog.tables_ c !! n = Some (mkSchema n (Z.of_nat i `mod` 65536) [mkColumnDef "id" INTEGER]).
Proof. apply catalog_table_ids. repeat constructor; set_solver. Defined.

(** ** Plans *)

(** C12: a plan loses no row: a row that satisfies the WHERE clause has the
    looked-up key and passes the residual filter, or has its key in the scanned
    range; and what passes the filter satisfies the clause. *)
Theorem plan_loses_no_row s c0 cs w plan pk vs :
  columns s = c0 :: cs → col_type c0 = INTEGER → PlanQuery s w = Val plan → 0 ≤ pk ≤ int64_max →
  row_typed s (VInt pk :: vs) →
  MatchesPredicate s (VInt pk :: vs) (residual plan) = Val (sat_all (columns s) (VInt pk :: vs) (residual plan)) ∧
  sat_all (columns s) (VInt pk :: vs) w =
    match access_path plan with
    | POINT_LOOKUP => bool_decide (pk = point_key plan) && sat_all (columns s) (VInt pk :: vs) (residual plan)
    | _ => bool_decide ((Executor.scan_bounds plan).1 ≤ pk ≤ (Executor.scan_bounds plan).2) &&
           sat_all (columns s) (VInt pk :: vs) (residual plan)
    end.
Proof.
  intros Hcs Hty Hp Hpk Hrow. pose proof (PlanQuery_cases s c0 cs Hcs Hty w) as Hc.
  destruct (forallb (typed_cmp (columns s)) w) eqn:Ht; [|destruct Hc as (msg & Hc); by rewrite Hc in Hp].
  destruct Hc as (plan' & Hp' & Hf). rewrite Hp in Hp'. injection Hp' as <-.
  destruct Hf as [v others Hw Hto _|path lo hi Hpath Htw Hb _]; (split; [by apply MatchesPredicate_sat|]); [apply Hw|].
  cbn [residual access_path]. specialize (Hb pk vs Hpk). destruct path; [done|..];
    (destruct (sat_all (columns s) (VInt pk :: vs) w); [by rewrite bool_decide_eq_true_2 by auto|by rewrite andb_false_r]).
Qed.

Lemma plan_loses_no_row_witness :
  let s := mkSchema "t" 0 [mkColumnDef "id" INTEGER; mkColumnDef "a" TEXT] in
  let w := [mkComparison "id" OpGT (VInt 3); mkComparison "a" OpEQ (VText "x")] in
  let plan := mkPlan RANGE_SCAN 0 4 int64_max w in
  MatchesPredicate s [VInt 5; VText "x"] (residual plan) = Val (sat_all (columns s) [VInt 5; VText "x"] (residual plan)) ∧
  sat_all (columns s) [VInt 5; VText "x"] w =
    bool_decide ((Executor.scan_bounds plan).1 ≤ 5 ≤ (Executor.scan_bounds plan).2) &&
      sat_all (columns s) [VInt 5; VText "x"] (residual plan).
Proof.
  cbv zeta. apply (plan_loses_no_row _ (mkColumnDef "id" INTEGER) [mkColumnDef "a" TEXT] _
    (mkPlan RANGE_SCAN 0 4 int64_max [mkComparison "id" OpGT (VInt 3); mkComparison "a" OpEQ (VText "x")]) 5 [VText "x"]);
    [done|done|by vm_compute|by vm_compute|repeat constructor].
Defined.

(** ** A key out of range in an equality *)

Section wraps.
Context {E : Type} `{!StorageEngine E, !EngineSpec E}.

Lemma EncodeKey_mod id z : EncodeKey id z = EncodeKey id (z `mod` 2 ^ 48).
Proof. by rewrite !EncodeKey_eq, Zmod_mod. Qed.

(** C38: [WHERE pk = z] with [z] outside the range of primary keys finds the row
    whose key is [z] modulo [2^48]: a SELECT answers it under the key [z], which
    no row has, and a DELETE removes it. *)
Theorem point_lookup_wraps fuel n (e : E) es s tb z row :
  stores n e es → is_id (table_id s) → table_rep (table_id s) tb es → cols tb = columns s →
  look (z `mod` 2 ^ 48) (trows tb) = Some row →
  let plan := mkPlan POINT_LOOKUP z 0 int64_max [] in
  ∃ e1 e2, Executor.ExecuteFetch fuel s plan e = (Val [VInt z :: drop 1 row], e1) ∧
    Executor.ExecuteDelete fuel s plan e1 = (Val 1, e2) ∧ stores n e2 (del (EncodeKey (table_id s) (z `mod` 2 ^ 48)) es).
Proof.
  intros Hst Hid Ht Hcols Hl. cbv zeta. set (pk := z `mod` 2 ^ 48) in *.
  assert (Hpk : is_pk pk) by (apply Z.mod_pos_bound; lia).
  pose proof (look_row_ok _ _ _ _ _ Ht Hl) as Hrow. rewrite Hcols in Hrow.
  assert (Ed : DecodeRow s z (payload row) = Val (VInt z :: drop 1 row)).
  { pose proof (DecodeRow_payload s _ Hrow) as Ed. unfold DecodeRow in *. cbn [fst snd] in Ed.
    destruct (read_columns _ _ _) as [vs|e0| |]; [|done..]. destruct row as [|v row]; [done|]. by injection Ed as <- <-. }
  destruct (look_get s Hid tb n e es pk Hst Ht Hpk) as (e1 & E1 & Hst1). rewrite Hl in E1.
  destruct (look_get s Hid tb n e1 es pk Hst1 Ht Hpk) as (e2 & E2 & Hst2). rewrite Hl in E2.
  destruct (Delete_spec n e2 es (EncodeKey (table_id s) pk) Hst2 (EncodeKey_i64 _ _)) as (e3 & E3 & Hst3).
  rewrite (table_look _ Hid _ _ _ Ht Hpk), Hl, bool_decide_eq_true_2 in E3 by eauto.
  unfold pk in E1, E2, E3. rewrite <-EncodeKey_mod in E1, E2, E3. exists e1, e3. split_and!; [| |done].
  - unfold Executor.ExecuteFetch. rewrite bool_decide_eq_true_2 by done. cbn [point_key residual]. mrun E1.
    change (payload <$> Some row) with (Some (payload row)). cbn match. rewrite Ed. reflexivity.
  - unfold Executor.ExecuteDelete. rewrite bool_decide_eq_true_2 by done. cbn [point_key residual]. mrun E2.
    change (payload <$> Some row) with (Some (payload row)). cbn match. rewrite Ed.
    mrun (eq_refl : Executor.lift (Val (VInt z :: drop 1 row)) e2 = (Val (VInt z :: drop 1 row), e2)).
    mrun (eq_refl : Executor.lift (MatchesPredicate s (VInt z :: drop 1 row) []) e2 = (Val true, e2)). by mrun E3.
Qed.
End wraps.

(** A table with the one row 0. *)
Definition one_row : table := mkTable [mkColumnDef "id" INTEGER] [(0, [VInt 0])].

Lemma one_row_rep :
  ∃ e : BPlusTree.t (BufferPoolManager.t LRUKReplacer.t), stores 5 e [(EncodeKey 0 0, EmptyString)] ∧
    table_rep 0 one_row [(EncodeKey 0 0, EmptyString)].
Proof.
  destruct (open_fresh 6 "db" 256 (DiskManager.File [] []) eq_refl ltac:(lia) ltac:(by vm_compute)) as (e & f & _ & Hst).
  destruct (Put_spec 5 e [] (EncodeKey 0 0) EmptyString Hst (EncodeKey_i64 _ _) ltac:(by vm_compute)) as (e' & _ & Hst').
  exists e'. split; [done|]. split; simpl; [rewrite filter_cons_True by (by apply (DecodeTableId_Encode 0 0)); by vm_compute|repeat constructor| |by eexists _, _].
  intros r ->%list_elem_of_singleton. split; [done|]. exists []. by split_and!.
Qed.

Lemma point_lookup_wraps_witness :
  let s := mkSchema "t" 0 [mkColumnDef "id" INTEGER] in
  let plan := mkPlan POINT_LOOKUP (2 ^ 48) 0 int64_max [] in
  ∃ e e1 e2 : BPlusTree.t (BufferPoolManager.t LRUKReplacer.t),
    Executor.ExecuteFetch 9 s plan e = (Val [[VInt (2 ^ 48)]], e1) ∧ Executor.ExecuteDelete 9 s plan e1 = (Val 1, e2) ∧
    stores 5 e2 (del (EncodeKey 0 0) [(EncodeKey 0 0, EmptyString)]).
Proof.
  cbv zeta. destruct one_row_rep as (e & Hst & Ht). exists e.
  exact (point_lookup_wraps 9 5 e _ (mkSchema "t" 0 [mkColumnDef "id" INTEGER]) one_row (2 ^ 48) [VInt 0] Hst
    ltac:(by vm_compute) Ht eq_refl eq_refl).
Defined.

(** ** Statements and sessions *)

(** C9: over any engine that meets the storage engine contract, a statement as
    the parser builds it (its first column an INTEGER, its integers of 64 bits)
    that is accepted by the specification answers the same result and leaves
    the specified database; one that is refused throws an SqlException and
    leaves the database as it was.  The statement is [admissible]: a CREATE
    TABLE meets fewer than 65536 tables, and the WHERE clause of a SELECT or
    DELETE compares the primary key for equality only with keys in range. *)
Theorem statement_refines_spec {E : Type} `{!StorageEngine E, !EngineSpec E} fuel n m (x : Database.t E) d stmt :
  db_rep (S n) m x d → (m ≤ fuel)%nat → stmt_ok stmt → admissible stmt d →
  match spec_exec stmt d with
  | Some (r, d') => ∃ x', Database.execute fuel stmt x = (Val r, x') ∧ db_rep n (S m) x' d'
  | None => ∃ msg x', Database.execute fuel stmt x = (Exn (SqlException msg), x') ∧ db_rep n (S m) x' d
  end.
Proof. apply execute_spec. Qed.

Lemma statement_refines_spec_witness :
  ∃ x x' : Database.t (BPlusTree.t (BufferPoolManager.t LRUKReplacer.t)),
    Database.execute 9 (CreateTableStmt "t" [mkColumnDef "id" INTEGER]) x = (Val (mkResult [] [] 0 "CREATE TABLE"), x') ∧
    db_rep 5 1 x' {["t" := mkTable [mkColumnDef "id" INTEGER] []]}.
Proof.
  destruct (open_fresh 6 "db" 256 (DiskManager.File [] []) eq_refl ltac:(lia) ltac:(by vm_compute)) as (e & f & _ & Hst).
  exists (Database.mk Catalog.empty e).
  exact (statement_refines_spec 9 5 0 _ ∅ (CreateTableStmt "t" [mkColumnDef "id" INTEGER]) (empty_rep 6 e Hst) ltac:(lia)
    ltac:(by eexists _, _) ltac:(by vm_compute)).
Defined.

(** C1: a database opened on an empty file answers every admissible sequence of
    SQL texts as the specification does, the statement of a text being the one
    the grammar derives from it: the same results, the same texts refused; from
    the characters of the texts down to the bytes of the pages, no call fails
    otherwise, runs out of fuel or meets undefined behaviour.  A sequence is
    admissible when each CREATE TABLE meets fewer than 65536 tables and each
    SELECT and DELETE compares the primary key for equality only with keys in
    range, from 0 to 2^48 - 1; and there are fewer texts than would make the
    file outgrow 64-bit offsets. *)
Theorem sql_session_refines_spec db_path fuel sqls :
  admissible_all sqls ∅ → (length sqls ≤ fuel)%nat →
  APool.addressable (1 + put_pages * Z.of_nat (length sqls)) = true →
  ∃ x f rs x' os d', Database.New db_path empty_db_file = (Val x, f) ∧ session fuel sqls x = (rs, x') ∧
    session_means sqls ∅ os d' ∧ Forall2 agrees rs os ∧
    ∀ os2 d2, session_means sqls ∅ os2 d2 → os2 = os ∧ d2 = d'.
Proof.
  intros Had Hf Ha. destruct (open_fresh (length sqls) db_path 256 empty_db_file eq_refl ltac:(lia) Ha) as (e & f & Eo & Hst).
  destruct (session_spec fuel sqls 0 0 (Database.mk Catalog.empty e) ∅) as (rs & x' & Es & Hrs & _).
  - apply empty_rep. by rewrite Nat.add_0_r.
  - done.
  - done.
  - exists (Database.mk Catalog.empty e), f, rs, x', (spec_session sqls ∅).1, (spec_session sqls ∅).2. split_and!; [|done| |done|].
    + unfold Database.New, Database.MakeEngine, Database.kDefaultBufferPoolFrames. by rewrite Eo.
    + apply session_means_spec, surjective_pairing.
    + intros os2 d2 H%session_means_spec. by rewrite H.
Qed.

(** The admissible sessions, as a test. *)
Definition points_test (cs : list ColumnDefAst) (w : Predicate) : bool :=
  match cs with
  | [] => true
  | c :: _ => forallb (λ cmp, match literal cmp with
                              | VInt v => negb (pk_eq (col_name c) cmp) || ((0 <=? v) && (v <=? kMaxRowKey))
                              | VText _ => true
                              end) w
  end.

Definition admissible_test (stmt : Statement) (d : db) : bool :=
  match stmt with
  | CreateTableStmt _ _ => Z.of_nat (size d) <? 2 ^ 16
  | InsertStmt _ _ => true
  | SelectStmt name _ _ w | DeleteStmt name w => match d !! name with Some tb => points_test (cols tb) w | None => true end
  end.

Fixpoint session_test (sqls : list string) (d : db) : bool :=
  match sqls with
  | [] => true
  | sql :: sqls =>
      match Parse sql with Val stmt => admissible_test stmt d | _ => true end && session_test sqls (spec_text sql d).2
  end.

Lemma points_test_ok cs w : points_test cs w = true → points_ok cs w.
Proof.
  destruct cs as [|c cs]; [done|]. simpl. rewrite forallb_forall. intros H cmp v Hin Hpk Hl.
  specialize (H cmp (proj1 (list_elem_of_In _ _) Hin)). rewrite Hl, Hpk in H. simpl in H.
  apply andb_true_iff in H as [?%Z.leb_le Hv%Z.leb_le]. split; [done|]. change kMaxRowKey with (2 ^ 48 - 1) in Hv. lia.
Qed.

Lemma session_test_ok sqls : ∀ d, session_test sqls d = true → admissible_all sqls d.
Proof.
  induction sqls as [|sql sqls IH]; intros d; [done|]. cbn [session_test]. intros [Hs Hr]%andb_true_iff.
  apply admissible_all_cons. split; [|by apply IH]. destruct (Parse sql) as [[name cs|name values|name star names w|name w]| | |]; simpl in *; try done; [by apply Z.ltb_lt|..];
    intros tb Htb; rewrite Htb in Hs; by apply points_test_ok.
Qed.

Definition example_session : list string :=
  ["CREATE TABLE t (id INTEGER, v TEXT)"; "insert into t values (1, 'a');"; "SELECT v FROM t WHERE id = 1 AND v >= 'a'";
   "DELETE FROM t WHERE id <= 7"; "SELECT * FROM t"; "SELECT FROM t"].

Lemma sql_session_refines_spec_witness :
  ∃ x f rs x', Database.New "db" empty_db_file = (Val x, f) ∧ session 9 example_session x = (rs, x') ∧
    Forall2 agrees rs
      [Some (mkResult [] [] 0 "CREATE TABLE"); Some (mkResult [] [] 1 "INSERT 1"); Some (mkResult ["v"] [[VText "a"]] 1 "SELECT 1");
       Some (mkResult [] [] 1 "DELETE 1"); Some (mkResult ["id"; "v"] [] 0 "SELECT 0"); None].
Proof.
  destruct (sql_session_refines_spec "db" 9 example_session) as (x & f & rs & x' & os & d' & En & Es & Hm & Ha & _).
  - apply session_test_ok. by vm_compute.
  - vm_compute. lia.
  - by vm_compute.
  - exists x, f, rs, x'. split; [exact En|]. split; [exact Es|]. apply session_means_spec in Hm.
    vm_compute in Hm. injection Hm as <- _. exact Ha.
Defined.
