(* ===== verification/Structs.v ===== *)
(** * Structs in memory

    The bytes of a struct are the concatenation of the bytes of its fields and
    padding; a field is read back at its offset.  Shared by the log records,
    the pages of table files and the manifest. *)

From S2P Require Import Prelude Bytes.

Lemma block_head b c off len : off = 0 → blen b = len → block (b ++ c) off len = b.
Proof. intros -> <-. rewrite block_app_l by (pose proof (blen_nonneg b); lia). apply block_all. Qed.

Lemma block_whole b off len : off = 0 → blen b = len → block b off len = b.
Proof. intros -> <-. apply block_all. Qed.

(** Reads through an overlay: a struct inside a page. *)
Lemma get_i64_block b off len f : 0 ≤ off → 0 ≤ f → f + 8 ≤ len → get_i64 (block b off len) f = get_i64 b (off + f).
Proof. intros. unfold get_i64. by rewrite block_block. Qed.

Lemma i64_enc z : is_i64 z → s64 (le_dec (le_enc 8 z)) = z.
Proof. intros. rewrite le_dec_enc. by apply s64_mod. Qed.

Lemma i32_enc z : is_i32 z → s32 (le_dec (le_enc 4 z)) = z.
Proof. intros. rewrite le_dec_enc. by apply s32_mod. Qed.

Lemma u64_enc z : is_u64 z → le_dec (le_enc 8 z) = z.
Proof. intros. rewrite le_dec_enc. by apply Z.mod_small. Qed.

Lemma u16_enc z : 0 ≤ z < 2 ^ 16 → le_dec (le_enc 2 z) = z.
Proof. intros. rewrite le_dec_enc. by apply Z.mod_small. Qed.

Lemma u8_enc z : 0 ≤ z < 2 ^ 8 → le_dec (le_enc 1 z) = z.
Proof. intros. rewrite le_dec_enc. by apply Z.mod_small. Qed.

(** The lengths of the fields in the goal, given those of the arrays. *)
Ltac field_lens := rewrite ?blen_le_enc, ?blen_zeros by done; repeat match goal with H : blen ?x = _ |- context [blen ?x] => rewrite H end.

(** Finds the field at a constant offset of a concatenation. *)
Ltac find_field :=
  repeat (rewrite block_app_r by (field_lens; lia); field_lens);
  first [rewrite block_head by (field_lens; lia)|rewrite block_whole by (field_lens; lia)].
