(* ===== verification/Wal.v ===== *)
(** * LogRecord and LogManager (wal/log_record.h, wal/log_manager.h, log_manager.cpp)

    The log is an array of fixed-size records on pages of a file of its own;
    the page being filled is kept in memory and written through on every
    append. *)

From S2P Require Import Prelude Bytes Disk.

(** ** Records *)

(** [enum class LogRecordType : int32_t] *)
Module LogRecordType.
Definition INVALID : Z := 0.
Definition BEGIN : Z := 1.
Definition UPDATE : Z := 2.
Definition COMMIT : Z := 3.
Definition ABORT : Z := 4.
Definition CLR : Z := 5.
Definition CHECKPOINT_BEGIN : Z := 6.
Definition ACTIVE_TXN : Z := 7.
Definition CHECKPOINT_END : Z := 8.
End LogRecordType.

(** [enum class LogOpType : int32_t] *)
Module LogOpType.
Definition NONE : Z := 0.
Definition PUT : Z := 1.
Definition DELETE : Z := 2.
End LogOpType.

Module LogRecord.

Record t := mk {
  lsn : Z;
  txn_id : Z;
  prev_lsn : Z;
  type : Z;
  op : Z;
  key : KeyType;
  has_old_value : Z;
  old_value_len : Z;
  old_value : bytes;
  has_new_value : Z;
  new_value_len : Z;
  new_value : bytes;
  undo_next_lsn : Z;
  active_txn_id : Z;
  active_txn_last_lsn : Z;
}.

(** A record with the default member initializers. *)
Definition init : t :=
  mk (-1) (-1) (-1) LogRecordType.INVALID LogOpType.NONE 0 0 0 (zeros MAX_VALUE_SIZE) 0 0 (zeros MAX_VALUE_SIZE) (-1) (-1) (-1).

Definition set_lsn (l : Z) (r : t) : t :=
  mk l (txn_id r) (prev_lsn r) (type r) (op r) (key r) (has_old_value r) (old_value_len r) (old_value r)
    (has_new_value r) (new_value_len r) (new_value r) (undo_next_lsn r) (active_txn_id r) (active_txn_last_lsn r).

(** Assignments to the header fields, and to the fields of an operation. *)
Definition set_header (txn ty prev : Z) (r : t) : t :=
  mk (lsn r) txn prev ty (op r) (key r) (has_old_value r) (old_value_len r) (old_value r)
    (has_new_value r) (new_value_len r) (new_value r) (undo_next_lsn r) (active_txn_id r) (active_txn_last_lsn r).
Definition set_op (o : Z) (k : KeyType) (r : t) : t :=
  mk (lsn r) (txn_id r) (prev_lsn r) (type r) o k (has_old_value r) (old_value_len r) (old_value r)
    (has_new_value r) (new_value_len r) (new_value r) (undo_next_lsn r) (active_txn_id r) (active_txn_last_lsn r).
Definition set_undo_next (l : Z) (r : t) : t :=
  mk (lsn r) (txn_id r) (prev_lsn r) (type r) (op r) (key r) (has_old_value r) (old_value_len r) (old_value r)
    (has_new_value r) (new_value_len r) (new_value r) l (active_txn_id r) (active_txn_last_lsn r).
Definition set_active (txn l : Z) (r : t) : t :=
  mk (lsn r) (txn_id r) (prev_lsn r) (type r) (op r) (key r) (has_old_value r) (old_value_len r) (old_value r)
    (has_new_value r) (new_value_len r) (new_value r) (undo_next_lsn r) txn l.

(** [std::string(old_value, old_value_len)] reads inside the array. *)
Definition OldValue (r : t) : res string := of_chars <$> load (old_value r) 0 (old_value_len r).
Definition NewValue (r : t) : res string := of_chars <$> load (new_value r) 0 (new_value_len r).

(** [memcpy] into the array, undefined past its end. *)
Definition SetOldValue (v : string) (r : t) : res t :=
  x ← store (old_value r) 0 (chars v);
  Val (mk (lsn r) (txn_id r) (prev_lsn r) (type r) (op r) (key r) 1 (u16 (ssize v)) x
    (has_new_value r) (new_value_len r) (new_value r) (undo_next_lsn r) (active_txn_id r) (active_txn_last_lsn r)).
Definition SetNewValue (v : string) (r : t) : res t :=
  x ← store (new_value r) 0 (chars v);
  Val (mk (lsn r) (txn_id r) (prev_lsn r) (type r) (op r) (key r) (has_old_value r) (old_value_len r) (old_value r)
    1 (u16 (ssize v)) x (undo_next_lsn r) (active_txn_id r) (active_txn_last_lsn r)).

(** The struct in memory: the fields at their offsets, two padding bytes. *)
Definition size : Z := 200.

Definition encode (r : t) : bytes :=
  le_enc 8 (lsn r) ++ le_enc 8 (txn_id r) ++ le_enc 8 (prev_lsn r) ++ le_enc 4 (type r) ++ le_enc 4 (op r) ++
  le_enc 8 (key r) ++ le_enc 1 (has_old_value r) ++ zeros 1 ++ le_enc 2 (old_value_len r) ++ old_value r ++
  le_enc 1 (has_new_value r) ++ zeros 1 ++ le_enc 2 (new_value_len r) ++ new_value r ++
  le_enc 8 (undo_next_lsn r) ++ le_enc 8 (active_txn_id r) ++ le_enc 8 (active_txn_last_lsn r).

Definition decode (b : bytes) : t :=
  mk (get_i64 b 0) (get_i64 b 8) (get_i64 b 16) (get_i32 b 24) (get_i32 b 28) (get_i64 b 32)
    (get_u8 b 40) (get_u16 b 42) (block b 44 MAX_VALUE_SIZE) (get_u8 b 108) (get_u16 b 110) (block b 112 MAX_VALUE_SIZE)
    (get_i64 b 176) (get_i64 b 184) (get_i64 b 192).

End LogRecord.

(** ** The log manager *)

Module LogManager.

Definition kMaxRecordsPerPage : Z := (PAGE_SIZE - 8) / LogRecord.size.

(** [LogPage]: a count, then the records. *)
Definition page_count (page : bytes) : Z := get_i64 page 0.
Definition set_page_count (n : Z) (page : bytes) : bytes := put64 page 0 n.
Definition slot_off (i : Z) : Z := 8 + LogRecord.size * i.

(** [page->records[i]] *)
Definition record_at (page : bytes) (i : Z) : res LogRecord.t :=
  if (0 <=? i) && (i <? kMaxRecordsPerPage) then Val (LogRecord.decode (block page (slot_off i) LogRecord.size)) else Undef.
Definition set_record_at (page : bytes) (i : Z) (r : LogRecord.t) : res bytes :=
  if (0 <=? i) && (i <? kMaxRecordsPerPage) then Val (blit page (slot_off i) (LogRecord.encode r)) else Undef.

Record t := mk {
  disk_manager_ : DiskManager.t;
  next_lsn_ : Z;
  current_page_id_ : page_id_t;
  current_page_buf_ : bytes;
}.

Definition on_disk {A} (m : M DiskManager.t A) : M t A := λ l,
  let '(r, d) := m (disk_manager_ l) in (r, mk d (next_lsn_ l) (current_page_id_ l) (current_page_buf_ l)).
Definition lift {A} (r : res A) : M t A := λ l, (r, l).
Definition set_next_lsn (n : Z) (l : t) : t := mk (disk_manager_ l) n (current_page_id_ l) (current_page_buf_ l).
Definition set_page_id (p : page_id_t) (l : t) : t := mk (disk_manager_ l) (next_lsn_ l) p (current_page_buf_ l).
Definition set_buf (b : bytes) (l : t) : t := mk (disk_manager_ l) (next_lsn_ l) (current_page_id_ l) b.

(** The constructor's work once the file is open. *)
Definition start : M t () :=
  l ← get;
  if DiskManager.GetNumPages (disk_manager_ l) =? 0 then
    pid ← on_disk DiskManager.AllocatePage;
    modify (λ l, set_next_lsn 0 (set_buf (set_page_count 0 (current_page_buf_ l)) (set_page_id pid l)))
  else
    let pid := DiskManager.GetNumPages (disk_manager_ l) - 1 in
    modify (set_page_id pid);;
    page ← on_disk (DiskManager.ReadPage pid);
    modify (λ l, set_next_lsn (pid * kMaxRecordsPerPage + page_count page) (set_buf page l)).

Definition Open (log_path : string) (f : DiskManager.file) : res t * DiskManager.file :=
  match DiskManager.Open log_path f with
  | (Val d, _) =>
      match start (mk d 0 INVALID_PAGE_ID (zeros PAGE_SIZE)) with
      | (Val _, l) => (Val l, DiskManager.fd_ (disk_manager_ l))
      | (Exn e, l) => (Exn e, DiskManager.fd_ (disk_manager_ l))
      | (Undef, l) => (Undef, DiskManager.fd_ (disk_manager_ l))
      | (NoFuel, l) => (NoFuel, DiskManager.fd_ (disk_manager_ l))
      end
  | (Exn e, f) => (Exn e, f)
  | (Undef, f) => (Undef, f)
  | (NoFuel, f) => (NoFuel, f)
  end.

Definition write_page : M t () :=
  l ← get;
  on_disk (DiskManager.WritePage (current_page_id_ l) (current_page_buf_ l)).

Definition Append (record : LogRecord.t) : M t Z :=
  l ← get;
  let record := LogRecord.set_lsn (next_lsn_ l) record in
  (if kMaxRecordsPerPage <=? page_count (current_page_buf_ l) then
     write_page;;
     pid ← on_disk DiskManager.AllocatePage;
     modify (λ l, set_buf (set_page_count 0 (current_page_buf_ l)) (set_page_id pid l))
   else mret tt);;
  l ← get;
  let n := page_count (current_page_buf_ l) in
  page ← lift (set_record_at (current_page_buf_ l) n record);
  modify (set_buf (set_page_count (n + 1) page));;
  write_page;;
  modify (λ l, set_next_lsn (next_lsn_ l + 1) l);;
  mret (LogRecord.lsn record).

Definition Flush : M t () := on_disk DiskManager.Sync.

Definition GetNextLsn (l : t) : Z := next_lsn_ l.

Definition GetLogSizeBytes (l : t) : Z := DiskManager.GetNumPages (disk_manager_ l) * PAGE_SIZE.

(** The page [pid], from memory where it is the current one. *)
Definition fetch (pid : page_id_t) : M t bytes :=
  l ← get;
  if pid =? current_page_id_ l then mret (current_page_buf_ l) else on_disk (DiskManager.ReadPage pid).

Definition ReadRecord (lsn : Z) : M t LogRecord.t :=
  page ← fetch (Z.quot lsn kMaxRecordsPerPage);
  lift (record_at page (Z.rem lsn kMaxRecordsPerPage)).

(** The inner loop, [k] records from slot [idx]. *)
Fixpoint take_records (page : bytes) (idx : Z) (k : nat) : res (list LogRecord.t) :=
  match k with
  | O => Val []
  | S k => r ← record_at page idx; rs ← take_records page (idx + 1) k; Val (r :: rs)
  end.

(** The outer loop.  A round that adds nothing would be repeated for ever:
    fuel for one round per record is enough for every run that ends. *)
Fixpoint read_pages (fuel : nat) (lsn : Z) (result : list LogRecord.t) : M t (list LogRecord.t) :=
  λ l, if lsn <? next_lsn_ l then
    match fuel with
    | O => (NoFuel, l)
    | S fuel => (
        page ← fetch (Z.quot lsn kMaxRecordsPerPage);
        let idx := Z.rem lsn kMaxRecordsPerPage in
        let k := Z.to_nat (Z.min (page_count page - idx) (next_lsn_ l - lsn)) in
        rs ← lift (take_records page idx k);
        read_pages fuel (lsn + Z.of_nat k) (result ++ rs)) l
    end
  else (Val result, l).

Definition ReadFrom (start_lsn : Z) : M t (list LogRecord.t) :=
  l ← get;
  if next_lsn_ l <=? start_lsn then mret [] else
  read_pages (Z.to_nat (next_lsn_ l - start_lsn)) start_lsn [].

Definition ReadAll : M t (list LogRecord.t) := ReadFrom 0.

End LogManager.
