(* ===== verification/WalTheory.v ===== *)
(** * Theory of the log

    The bytes of a record, and the log as the list of the records appended. *)

From S2P Require Import Prelude Bytes Structs Disk Wal.

#[local] Opaque le_enc DiskManager.page_of DiskManager.write_file.

(** ** Records *)

Module LogRecordTheory.
Import LogRecord.

(** Fields in range of their types. *)
Record wf (r : t) : Prop := {
  wf_lsn : is_i64 (lsn r);
  wf_txn : is_i64 (txn_id r);
  wf_prev : is_i64 (prev_lsn r);
  wf_type : is_i32 (type r);
  wf_op : is_i32 (op r);
  wf_key : is_i64 (key r);
  wf_has_old : 0 ≤ has_old_value r < 2 ^ 8;
  wf_old_len : 0 ≤ old_value_len r < 2 ^ 16;
  wf_old : blen (old_value r) = 64;
  wf_has_new : 0 ≤ has_new_value r < 2 ^ 8;
  wf_new_len : 0 ≤ new_value_len r < 2 ^ 16;
  wf_new : blen (new_value r) = 64;
  wf_undo : is_i64 (undo_next_lsn r);
  wf_active : is_i64 (active_txn_id r);
  wf_active_last : is_i64 (active_txn_last_lsn r);
}.

Lemma blen_encode r : wf r → blen (encode r) = size.
Proof. intros [? ? ? ? ? ? ? ? Ho ? ? Hn ? ? ?]. unfold encode. rewrite !blen_app. by field_lens. Qed.

Lemma decode_encode r : wf r → decode (encode r) = r.
Proof.
  intros [? ? ? ? ? ? ? ? Ho ? ? Hn ? ? ?].
  destruct r as [l tx pl ty o k ho ol ov hn nl nv un ac al]. cbn [lsn txn_id prev_lsn type op key has_old_value old_value_len
    old_value has_new_value new_value_len new_value undo_next_lsn active_txn_id active_txn_last_lsn] in *.
  unfold decode, get_i64, get_i32, get_u8, get_u16, encode, MAX_VALUE_SIZE.
  cbn [lsn txn_id prev_lsn type op key has_old_value old_value_len old_value has_new_value new_value_len new_value
    undo_next_lsn active_txn_id active_txn_last_lsn].
  f_equal; find_field; auto using i64_enc, i32_enc, u8_enc, u16_enc.
Qed.
(** ** Values in records *)

Lemma array_value (a : bytes) v :
  blen a = 64 → ssize v ≤ MAX_VALUE_SIZE →
  ∃ x, store a 0 (chars v) = Val x ∧ blen x = 64 ∧ of_chars <$> load x 0 (u16 (ssize v)) = Val v.
Proof.
  intros Ha Hv. pose proof (ssize_nonneg v). pose proof (blen_chars v) as Hc. unfold MAX_VALUE_SIZE in Hv.
  exists (blit a 0 (chars v)). rewrite store_ok by lia. assert (Hl : blen (blit a 0 (chars v)) = 64) by (rewrite blen_blit; lia).
  split_and!; [done|done|]. unfold u16. rewrite Z.mod_small by lia. rewrite load_ok by lia. rewrite <-Hc, block_blit_eq by lia. simpl.
  by rewrite of_chars_chars.
Qed.

Lemma SetNewValue_ok v r :
  wf r → ssize v ≤ MAX_VALUE_SIZE →
  ∃ r', SetNewValue v r = Val r' ∧ wf r' ∧ NewValue r' = Val v ∧ r' = mk (lsn r) (txn_id r) (prev_lsn r) (type r) (op r) (key r)
    (has_old_value r) (old_value_len r) (old_value r) 1 (new_value_len r') (new_value r') (undo_next_lsn r) (active_txn_id r) (active_txn_last_lsn r).
Proof.
  intros Hw Hv. destruct (array_value (new_value r) v (wf_new _ Hw) Hv) as (x & E & Hl & Ev). unfold SetNewValue. rewrite E. cbn [mbind res_bind].
  eexists. split; [done|]. split; [|done]. destruct Hw. split; try done. by apply Z.mod_pos_bound.
Qed.

Lemma SetOldValue_ok v r :
  wf r → ssize v ≤ MAX_VALUE_SIZE →
  ∃ r', SetOldValue v r = Val r' ∧ wf r' ∧ OldValue r' = Val v ∧ r' = mk (lsn r) (txn_id r) (prev_lsn r) (type r) (op r) (key r)
    1 (old_value_len r') (old_value r') (has_new_value r) (new_value_len r) (new_value r) (undo_next_lsn r) (active_txn_id r) (active_txn_last_lsn r).
Proof.
  intros Hw Hv. destruct (array_value (old_value r) v (wf_old _ Hw) Hv) as (x & E & Hl & Ev). unfold SetOldValue. rewrite E. cbn [mbind res_bind].
  eexists. split; [done|]. split; [|done]. destruct Hw. split; try done. by apply Z.mod_pos_bound.
Qed.

End LogRecordTheory.

(** ** The log *)

Module LogTheory.
Import LogManager LogRecordTheory.

Abbreviation zlen rs := (Z.of_nat (length rs)) (only parsing).

(** The page that holds the record appended last. *)
Definition last_page (n : Z) : page_id_t := Z.max 0 ((n - 1) / 20).

(** Page [p] of the log [rs]. *)
Record page_holds (b : bytes) (p : page_id_t) (rs : list LogRecord.t) : Prop := {
  ph_len : blen b = PAGE_SIZE;
  ph_count : page_count b = Z.min 20 (zlen rs - 20 * p);
  ph_records : ∀ i r, 0 ≤ i < 20 → rs !! Z.to_nat (20 * p + i) = Some r →
    LogRecord.decode (block b (slot_off i) LogRecord.size) = r;
}.

(** The log holds the records [rs], in memory and in the file. *)
Record log_rep (rs : list LogRecord.t) (l : t) : Prop := {
  lr_wf : ∀ i r, rs !! i = Some r → wf r ∧ LogRecord.lsn r = Z.of_nat i;
  lr_room : zlen rs ≤ 2 ^ 50;
  lr_next : next_lsn_ l = zlen rs;
  lr_healthy : DiskManager.healthy (disk_manager_ l);
  lr_cur : current_page_id_ l = last_page (zlen rs);
  lr_alloc : DiskManager.next_page_id_ (disk_manager_ l) = last_page (zlen rs) + 1;
  lr_buf : page_holds (current_page_buf_ l) (last_page (zlen rs)) rs;
  lr_disk : ∀ p, 0 ≤ p < last_page (zlen rs) → page_holds (DiskManager.contents (disk_manager_ l) p) p rs;
  lr_last : rs ≠ [] → DiskManager.contents (disk_manager_ l) (last_page (zlen rs)) = current_page_buf_ l;
  lr_size : blen (DiskManager.f_data (DiskManager.fd_ (disk_manager_ l))) =
    if decide (rs = []) then 0 else (last_page (zlen rs) + 1) * PAGE_SIZE;
}.

Lemma last_page_bounds n : 0 ≤ n → 0 ≤ last_page n ∧ 20 * last_page n ≤ n ∧ n ≤ 20 * last_page n + 20 ∧
  (0 < n → 20 * last_page n < n).
Proof. intros. unfold last_page. pose proof (Z.div_mod (n - 1) 20 ltac:(lia)). pose proof (Z.mod_pos_bound (n - 1) 20 ltac:(lia)). lia. Qed.

Lemma last_page_unique n p : 0 ≤ p → 20 * p < n ≤ 20 * p + 20 → last_page n = p.
Proof. intros. unfold last_page. pose proof (Z.div_mod (n - 1) 20 ltac:(lia)). pose proof (Z.mod_pos_bound (n - 1) 20 ltac:(lia)). lia. Qed.

Lemma valid_page n p : n ≤ 2 ^ 50 → 0 ≤ p → 20 * p ≤ n → DiskManager.valid_id p.
Proof. intros. split; [done|]. unfold PAGE_SIZE, int64_max. lia. Qed.

(** ** Pages *)

Lemma holds_full b p rs r : 0 ≤ p → 20 * p + 20 ≤ zlen rs → page_holds b p rs → page_holds b p (rs ++ [r]).
Proof.
  intros Hp Hf [Hl Hc Hr]. split; [done|rewrite Hc, length_app; simpl; lia|].
  intros i r' Hi. rewrite lookup_app_l by lia. by apply Hr.
Qed.

Lemma holds_fresh b p rs : blen b = PAGE_SIZE → zlen rs = 20 * p → page_holds (set_page_count 0 b) p rs.
Proof.
  intros Hl Hn. unfold set_page_count. split.
  - unfold put64. rewrite blen_blit; [done|lia|rewrite Hl, blen_le_enc; by vm_compute].
  - unfold page_count. rewrite get_put64_eq; [lia|lia|rewrite Hl; by vm_compute|by vm_compute].
  - intros i r Hi Hr. apply lookup_lt_Some in Hr. lia.
Qed.

Lemma slot_bounds i : 0 ≤ i < 20 → 8 ≤ slot_off i ∧ slot_off i + 200 ≤ PAGE_SIZE.
Proof. unfold slot_off, LogRecord.size, PAGE_SIZE. lia. Qed.

Lemma holds_store b p rs k r :
  page_holds b p rs → zlen rs = 20 * p + k → 0 ≤ p → 0 ≤ k < 20 → wf r →
  page_holds (set_page_count (k + 1) (blit b (slot_off k) (LogRecord.encode r))) p (rs ++ [r]).
Proof.
  intros [Hl Hc Hr] Hn Hp Hk Hw. pose proof (blen_encode r Hw) as He. pose proof (slot_bounds k Hk).
  assert (Hb : blen (blit b (slot_off k) (LogRecord.encode r)) = PAGE_SIZE).
  { rewrite blen_blit; [done|lia|rewrite He, Hl; unfold LogRecord.size; lia]. }
  unfold set_page_count. split.
  - unfold put64. rewrite blen_blit; [done|lia|rewrite Hb, blen_le_enc; by vm_compute].
  - unfold page_count. rewrite get_put64_eq; [|lia|rewrite Hb; by vm_compute|unfold is_i64, int64_min, int64_max; lia].
    rewrite length_app. simpl. lia.
  - intros i r' Hi. pose proof (slot_bounds i Hi). unfold put64.
    rewrite block_blit_ne by (rewrite ?blen_le_enc, ?Hb; unfold LogRecord.size, PAGE_SIZE in *; lia).
    destruct (decide (i = k)) as [->|Hne].
    + rewrite <-He, block_blit_eq by (rewrite ?He, ?Hl; unfold LogRecord.size, PAGE_SIZE in *; lia).
      rewrite decode_encode by done. replace (Z.to_nat (20 * p + k)) with (length rs) by lia.
      rewrite lookup_app_r, Nat.sub_diag by lia. by intros [= ->].
    + rewrite block_blit_ne by (rewrite ?He, ?Hl; unfold slot_off, LogRecord.size, PAGE_SIZE in *; lia).
      rewrite lookup_app. destruct (rs !! Z.to_nat (20 * p + i)) as [r0|] eqn:Er; [intros [= <-]; by apply Hr|].
      apply lookup_ge_None in Er. intros Hs. apply lookup_lt_Some in Hs. simpl in Hs. lia.
Qed.

(** ** Append *)

Lemma write_page_ok l :
  DiskManager.healthy (disk_manager_ l) → DiskManager.valid_id (current_page_id_ l) → blen (current_page_buf_ l) = PAGE_SIZE →
  write_page l = (Val tt, mk (DiskManager.count_write (DiskManager.set_fd (DiskManager.File (DiskManager.write_file
    (DiskManager.f_data (DiskManager.fd_ (disk_manager_ l))) (current_page_id_ l) (current_page_buf_ l)) [])
    (disk_manager_ l))) (next_lsn_ l) (current_page_id_ l) (current_page_buf_ l)).
Proof. intros Hh Hp Hb. unfold write_page. rewrite bind_get. unfold on_disk. by rewrite DiskManager.WritePage_ok. Qed.

(** The log is about to store its next record in slot [k] of page [p]. *)
Record ready (rs : list LogRecord.t) (p k : Z) (l : t) : Prop := {
  rd_wf : ∀ i r, rs !! i = Some r → wf r ∧ LogRecord.lsn r = Z.of_nat i;
  rd_slot : 0 ≤ p ∧ 0 ≤ k < 20 ∧ zlen rs = 20 * p + k;
  rd_next : next_lsn_ l = zlen rs;
  rd_healthy : DiskManager.healthy (disk_manager_ l);
  rd_cur : current_page_id_ l = p;
  rd_alloc : DiskManager.next_page_id_ (disk_manager_ l) = p + 1;
  rd_buf : page_holds (current_page_buf_ l) p rs;
  rd_disk : ∀ q, 0 ≤ q < p → page_holds (DiskManager.contents (disk_manager_ l) q) q rs;
  rd_size : blen (DiskManager.f_data (DiskManager.fd_ (disk_manager_ l))) ≤ (p + 1) * PAGE_SIZE;
}.

(** What [Append] does after it has made room. *)
Definition store_record (record : LogRecord.t) : M t Z :=
  l ← get;
  let n := page_count (current_page_buf_ l) in
  page ← lift (set_record_at (current_page_buf_ l) n record);
  modify (set_buf (set_page_count (n + 1) page));;
  write_page;;
  modify (λ l, set_next_lsn (next_lsn_ l + 1) l);;
  mret (LogRecord.lsn record).

Lemma store_record_ok rs p k l r :
  ready rs p k l → zlen rs < 2 ^ 50 → wf r → LogRecord.lsn r = zlen rs →
  ∃ l', store_record r l = (Val (zlen rs), l') ∧ log_rep (rs ++ [r]) l'.
Proof.
  intros [Hwf (Hp & Hk & Hn) Hnext Hh Hcur Hal Hbuf Hdisk Hsz] Hroom Hw Hlsn.
  pose proof (holds_store _ _ _ _ _ Hbuf Hn Hp Hk Hw) as Hst. destruct Hbuf as [Hbl Hc Hr].
  assert (Hck : page_count (current_page_buf_ l) = k) by lia.
  assert (Hv : DiskManager.valid_id p) by (apply (valid_page (zlen rs)); lia).
  assert (Hnl : zlen (rs ++ [r]) = 20 * p + k + 1) by (rewrite length_app; simpl; lia).
  assert (Hlp : last_page (zlen (rs ++ [r])) = p) by (apply last_page_unique; lia).
  unfold store_record. rewrite bind_get, Hck. unfold set_record_at, kMaxRecordsPerPage.
  change ((PAGE_SIZE - 8) / LogRecord.size) with 20.
  rewrite (proj2 (andb_true_iff _ _)) by (rewrite Z.leb_le, Z.ltb_lt; lia).
  mrun (eq_refl : lift (Val (blit (current_page_buf_ l) (slot_off k) (LogRecord.encode r))) l = (Val _, l)).
  set (b := set_page_count _ _) in *.
  mrun (write_page_ok (set_buf b l) Hh ltac:(simpl; by rewrite Hcur) (ph_len _ _ _ Hst)). eexists. split; [by rewrite Hlsn|].
  split; simpl; rewrite ?Hlp.
  - intros i r' [Hi|[Hge Hi]]%lookup_app_Some; [by apply Hwf|]. apply list_lookup_singleton_Some in Hi as [Hi <-].
    split; [done|]. lia.
  - lia.
  - lia.
  - done.
  - done.
  - done.
  - done.
  - intros q Hq. unfold DiskManager.contents. simpl. rewrite Hcur, DiskManager.page_of_write_ne by (done || lia || apply Hst).
    apply holds_full; [lia|lia|]. by apply Hdisk.
  - intros _. unfold DiskManager.contents. simpl. rewrite Hcur. by rewrite DiskManager.page_of_write_eq by (done || apply Hst).
  - rewrite decide_False by (by intros []%app_eq_nil). rewrite Hcur, DiskManager.blen_write_file by done.
    rewrite (ph_len _ _ _ Hst). lia.
Qed.

Lemma Append_ok rs l r :
  log_rep rs l → zlen rs < 2 ^ 50 → wf r →
  ∃ l', Append r l = (Val (zlen rs), l') ∧ log_rep (rs ++ [LogRecord.set_lsn (zlen rs) r]) l'.
Proof.
  intros Hl Hroom Hw. destruct Hl as [Hwf _ Hnext Hh Hcur Hal Hbuf Hdisk Hlast Hsz].
  pose proof (last_page_bounds (zlen rs) ltac:(lia)) as (Hp & H1 & H2 & H3). set (p := last_page (zlen rs)) in *.
  set (r' := LogRecord.set_lsn (zlen rs) r).
  assert (Hw' : wf r').
  { destruct Hw. split; simpl; try done. unfold is_i64, int64_min, int64_max. lia. }
  assert (Hsz' : blen (DiskManager.f_data (DiskManager.fd_ (disk_manager_ l))) ≤ (p + 1) * PAGE_SIZE).
  { rewrite Hsz. destruct (decide (rs = [])); unfold PAGE_SIZE; lia. }
  unfold Append. rewrite bind_get, Hnext. fold r'. fold (store_record r'). change kMaxRecordsPerPage with 20.
  rewrite (ph_count _ _ _ Hbuf). destruct (Z.leb_spec 20 (Z.min 20 (zlen rs - 20 * p))) as [Hfull|Hspace].
  - assert (Hv : DiskManager.valid_id p) by (apply (valid_page (zlen rs)); lia).
    mrun (write_page_ok l Hh ltac:(by rewrite Hcur) (ph_len _ _ _ Hbuf)). rewrite Hcur.
    set (l1 := mk _ _ _ _).
    mrun (eq_refl : on_disk DiskManager.AllocatePage l1 = (Val (DiskManager.next_page_id_ (disk_manager_ l)), _)).
    rewrite Hal. apply (store_record_ok rs (p + 1) 0); [|done|done|done]. split; simpl; try done; try lia.
    + apply holds_fresh; [apply Hbuf|lia].
    + intros q Hq. unfold DiskManager.contents. simpl. destruct (decide (q = p)) as [->|].
      * rewrite DiskManager.page_of_write_eq by (done || apply Hbuf). done.
      * rewrite DiskManager.page_of_write_ne by (done || lia || apply Hbuf). apply Hdisk. lia.
    + rewrite DiskManager.blen_write_file by done. rewrite (ph_len _ _ _ Hbuf). unfold PAGE_SIZE in *. lia.
  - rewrite bind_ret. apply (store_record_ok rs p (zlen rs - 20 * p)); [|done|done|done]. split; try done; lia.
Qed.

(** ** Reading *)

Lemma log_rep_read rs l : log_rep rs l → log_rep rs (mk (DiskManager.count_read (disk_manager_ l)) (next_lsn_ l)
  (current_page_id_ l) (current_page_buf_ l)).
Proof. intros [H1 H2 H3 H4 H5 H6 H7 H8 H9 H10]. by refine (Build_log_rep rs (mk (DiskManager.count_read (disk_manager_ l)) _ _ _) H1 H2 H3 H4 H5 H6 H7 H8 H9 H10). Qed.

Lemma log_fetch_ok rs l p :
  log_rep rs l → 0 ≤ p ≤ last_page (zlen rs) → ∃ b l', fetch p l = (Val b, l') ∧ page_holds b p rs ∧ log_rep rs l'.
Proof.
  intros Hl Hp. unfold fetch. rewrite bind_get, (lr_cur _ _ Hl). destruct (Z.eqb_spec p (last_page (zlen rs))) as [->|Hne].
  - exists (current_page_buf_ l), l. split_and!; [done|apply Hl|done].
  - pose proof (last_page_bounds (zlen rs) ltac:(lia)). pose proof (lr_room _ _ Hl).
    eexists _, _. split_and!; [|apply (lr_disk _ _ Hl); lia|by apply log_rep_read].
    unfold on_disk. rewrite DiskManager.ReadPage_ok; [done|apply Hl|apply (valid_page (zlen rs)); lia].
Qed.

Lemma record_at_ok b p rs i r :
  page_holds b p rs → 0 ≤ i < 20 → rs !! Z.to_nat (20 * p + i) = Some r → record_at b i = Val r.
Proof.
  intros Hb Hi Hr. unfold record_at. change kMaxRecordsPerPage with 20.
  rewrite (proj2 (andb_true_iff _ _)) by (rewrite Z.leb_le, Z.ltb_lt; lia). by rewrite (ph_records _ _ _ Hb i r Hi Hr).
Qed.

Lemma page_index n : 0 ≤ n → Z.quot n kMaxRecordsPerPage = n / 20 ∧ Z.rem n kMaxRecordsPerPage = n `mod` 20 ∧
  0 ≤ n / 20 ∧ 0 ≤ n `mod` 20 < 20 ∧ n = 20 * (n / 20) + n `mod` 20.
Proof.
  intros. change kMaxRecordsPerPage with 20. rewrite Z.quot_div_nonneg, Z.rem_mod_nonneg by lia.
  pose proof (Z.div_mod n 20 ltac:(lia)). pose proof (Z.mod_pos_bound n 20 ltac:(lia)). lia.
Qed.

Lemma ReadRecord_ok rs l i r :
  log_rep rs l → 0 ≤ i → rs !! Z.to_nat i = Some r → ∃ l', ReadRecord i l = (Val r, l') ∧ log_rep rs l'.
Proof.
  intros Hl Hi Hr. pose proof (lookup_lt_Some _ _ _ Hr). destruct (page_index i Hi) as (Eq & Er & H1 & H2 & H3).
  pose proof (last_page_bounds (zlen rs) ltac:(lia)).
  destruct (log_fetch_ok rs l (i / 20) Hl ltac:(lia)) as (b & l' & Ef & Hb & Hl'). exists l'. split; [|done].
  unfold ReadRecord. rewrite Eq, Er. mrun Ef. unfold lift. erewrite record_at_ok; [done|exact Hb|done|]. by rewrite <-H3.
Qed.

Lemma take_records_ok b p rs k : ∀ i,
  page_holds b p rs → 0 ≤ p → 0 ≤ i → i + Z.of_nat k ≤ page_count b →
  take_records b i k = Val (take k (drop (Z.to_nat (20 * p + i)) rs)).
Proof.
  induction k as [|k IH]; intros i Hb Hp Hi Hk; [done|]. pose proof (ph_count _ _ _ Hb) as Hc.
  destruct (lookup_lt_is_Some_2 rs (Z.to_nat (20 * p + i))) as [r Hr]; [lia|]. cbn [take_records].
  rewrite (record_at_ok b p rs i r Hb) by (done || lia). cbn [mbind res_bind]. rewrite IH by (done || lia).
  cbn [mbind res_bind]. rewrite (drop_S _ _ _ Hr). cbn [take]. do 4 f_equal. lia.
Qed.

Lemma read_pages_ok rs fuel : ∀ lsn out l,
  log_rep rs l → 0 ≤ lsn → zlen rs - lsn ≤ Z.of_nat fuel →
  ∃ l', read_pages fuel lsn out l = (Val (out ++ drop (Z.to_nat lsn) rs), l') ∧ log_rep rs l'.
Proof.
  induction fuel as [|fuel IH]; intros lsn out l Hl Hlsn Hf; cbn [read_pages]; rewrite (lr_next _ _ Hl);
    destruct (Z.ltb_spec lsn (zlen rs)) as [Hlt|Hge]; try lia.
  1, 3: exists l; rewrite drop_ge by lia; by rewrite app_nil_r.
  destruct (page_index lsn Hlsn) as (Eq & Er & H1 & H2 & H3). pose proof (last_page_bounds (zlen rs) ltac:(lia)).
  destruct (log_fetch_ok rs l (lsn / 20) Hl ltac:(lia)) as (b & l1 & Ef & Hb & Hl1). rewrite Eq, Er. mrun Ef.
  pose proof (ph_count _ _ _ Hb) as Hc. set (k := Z.to_nat _).
  assert (Hk : Z.of_nat k = Z.min (page_count b - lsn `mod` 20) (zlen rs - lsn)) by (unfold k; lia).
  assert (E : lift (take_records b (lsn `mod` 20) k) l1 = (Val (take k (drop (Z.to_nat lsn) rs)), l1)).
  { unfold lift. rewrite (take_records_ok b (lsn / 20) rs) by (done || lia). by rewrite <-H3. }
  mrun E. destruct (IH (lsn + Z.of_nat k) (out ++ take k (drop (Z.to_nat lsn) rs)) l1 Hl1 ltac:(lia) ltac:(lia)) as (l2 & E2 & Hl2).
  exists l2. split; [|done]. etransitivity; [exact E2|]. rewrite <-app_assoc. do 3 f_equal.
  rewrite <-(take_drop k (drop (Z.to_nat lsn) rs)) at 2. rewrite drop_drop. do 2 f_equal. lia.
Qed.

Lemma ReadFrom_ok rs l lsn :
  log_rep rs l → 0 ≤ lsn → ∃ l', ReadFrom lsn l = (Val (drop (Z.to_nat lsn) rs), l') ∧ log_rep rs l'.
Proof.
  intros Hl Hlsn. unfold ReadFrom. rewrite bind_get, (lr_next _ _ Hl). destruct (Z.leb_spec (zlen rs) lsn).
  - exists l. by rewrite drop_ge by lia.
  - by apply (read_pages_ok rs _ lsn [] l); [|lia|lia].
Qed.

(** ** Opening *)

Lemma Open_empty path : ∃ l f, Open path (DiskManager.File [] []) = (Val l, f) ∧ log_rep [] l.
Proof.
  exists (mk (DiskManager.mk (DiskManager.File [] []) path 1 0 0) 0 0 (set_page_count 0 (zeros PAGE_SIZE))), (DiskManager.File [] []).
  split; [reflexivity|]. split; cbn [disk_manager_ next_lsn_ current_page_id_ current_page_buf_ length]; [done|done|done|done|done|done| | |done|done].
  - apply holds_fresh; [by rewrite blen_zeros|done].
  - intros p Hp. change (last_page (Z.of_nat 0)) with 0 in Hp. lia.
Qed.

Lemma log_Open_ok rs l path :
  log_rep rs l → ∃ l' f, Open path (DiskManager.fd_ (disk_manager_ l)) = (Val l', f) ∧ log_rep rs l'.
Proof.
  intros Hl. destruct Hl as [Hwf Hroom Hnext Hh Hcur Hal Hbuf Hdisk Hlast Hsz].
  destruct (disk_manager_ l) as [[data fs] nm nx nr nw]. unfold DiskManager.healthy in Hh. simpl in *. subst fs.
  destruct (decide (rs = [])) as [->|Hne].
  { destruct data; [apply Open_empty|]. unfold blen in Hsz. simpl in Hsz. lia. }
  specialize (Hlast Hne). pose proof (last_page_bounds (zlen rs) ltac:(lia)) as (Hp & H1 & H2 & H3).
  assert (0 < zlen rs) by (destruct rs; simpl; [done|lia]). set (p := last_page (zlen rs)) in *.
  unfold Open, DiskManager.Open, DiskManager.open_, DiskManager.fstat_size, DiskManager.syscall. simpl. rewrite Hsz.
  replace (((p + 1) * PAGE_SIZE + PAGE_SIZE - 1) / PAGE_SIZE) with (p + 1)
    by (apply (Z.div_unique_pos _ _ _ (PAGE_SIZE - 1)); unfold PAGE_SIZE; lia).
  set (d := DiskManager.mk _ path (p + 1) 0 0).
  assert (E : start (mk d 0 INVALID_PAGE_ID (zeros PAGE_SIZE)) =
    (Val tt, mk (DiskManager.count_read d) (zlen rs) p (current_page_buf_ l))).
  { unfold start. rewrite bind_get. cbn [disk_manager_]. unfold DiskManager.GetNumPages at 1. cbn [DiskManager.next_page_id_ d].
    rewrite (proj2 (Z.eqb_neq (p + 1) 0)) by lia. unfold DiskManager.GetNumPages. cbn [DiskManager.next_page_id_ d].
    replace (p + 1 - 1) with p by lia. mstep.
    assert (Er : on_disk (DiskManager.ReadPage p) (set_page_id p (mk d 0 INVALID_PAGE_ID (zeros PAGE_SIZE))) =
      (Val (current_page_buf_ l), mk (DiskManager.count_read d) 0 p (zeros PAGE_SIZE))).
    { unfold on_disk. cbn [disk_manager_ set_page_id]. rewrite DiskManager.ReadPage_ok; [by rewrite <-Hlast|done|].
      apply (valid_page (zlen rs)); lia. }
    mrun Er. unfold modify. change kMaxRecordsPerPage with 20. rewrite (ph_count _ _ _ Hbuf).
    unfold set_next_lsn, set_buf. cbn. do 2 f_equal. lia. }
  rewrite E. eexists _, _. split; [done|]. split; simpl; try done. by rewrite decide_False.
Qed.
End LogTheory.
