(* ===== verification/WalProps.v ===== *)
(** * The log: properties *)

From S2P Require Import Prelude Bytes Structs Disk Wal WalTheory.

Module LogProps.
Import LogManager LogRecordTheory LogTheory.

#[local] Opaque le_enc DiskManager.page_of DiskManager.write_file zeros.

Fixpoint append_all (rs : list LogRecord.t) : M t (list Z) :=
  match rs with
  | [] => mret []
  | r :: rs => i ← Append r; ns ← append_all rs; mret (i :: ns)
  end.

(** Records with their positions as sequence numbers. *)
Definition stamp (from : nat) (rs : list LogRecord.t) : list LogRecord.t :=
  imap (λ i r, LogRecord.set_lsn (Z.of_nat (from + i)) r) rs.

Lemma append_all_ok rs : ∀ old l,
  log_rep old l → Forall wf rs → Z.of_nat (length old + length rs) ≤ 2 ^ 50 →
  ∃ l', append_all rs l = (Val (Z.of_nat <$> seq (length old) (length rs)), l') ∧ log_rep (old ++ stamp (length old) rs) l'.
Proof.
  induction rs as [|r rs IH]; intros old l Hl Hw Hn.
  { exists l. unfold stamp. simpl. by rewrite app_nil_r. }
  apply Forall_cons in Hw as [Hr Hw]. simpl in Hn. destruct (Append_ok old l r Hl ltac:(lia) Hr) as (l1 & E1 & Hl1).
  destruct (IH _ _ Hl1 Hw) as (l2 & E2 & Hl2); [rewrite length_app; simpl; lia|].
  exists l2. cbn [append_all]. mrun E1. mrun E2. rewrite length_app, Nat.add_1_r in *. split; [done|].
  rewrite <-app_assoc in Hl2. unfold stamp in *. simpl. rewrite Nat.add_0_r.
  erewrite imap_ext; [exact Hl2|]. intros i x _. simpl. do 2 f_equal. lia.
Qed.

Abbreviation new_file := (DiskManager.File [] []) (only parsing).

(** C17: the log keeps what is appended: records get the sequence numbers 0, 1,
    2, ..., each is read back by its number, and a log opened later on the
    file, whether or not the first one was closed, reads them all from any
    position on. *)
Theorem log_keeps_records path path' rs :
  Forall wf rs → Z.of_nat (length rs) ≤ 2 ^ 50 →
  ∃ l0 f0 l l2 f2, Open path new_file = (Val l0, f0) ∧
    append_all rs l0 = (Val (Z.of_nat <$> seq 0 (length rs)), l) ∧
    (∀ i r, rs !! i = Some r → (ReadRecord (Z.of_nat i) l).1 = Val (LogRecord.set_lsn (Z.of_nat i) r)) ∧
    Open path' (DiskManager.fd_ (disk_manager_ l)) = (Val l2, f2) ∧
    GetNextLsn l2 = Z.of_nat (length rs) ∧
    ∀ i, (ReadFrom (Z.of_nat i) l2).1 = Val (drop i (stamp 0 rs)).
Proof.
  intros Hw Hn. destruct (Open_empty path) as (l0 & f0 & E0 & Hl0).
  destruct (append_all_ok rs [] l0 Hl0 Hw Hn) as (l & E1 & Hl). rewrite app_nil_l in Hl. simpl in *.
  destruct (log_Open_ok _ _ path' Hl) as (l2 & f2 & E2 & Hl2). exists l0, f0, l, l2, f2. split_and!; [done|done| |done| |].
  - intros i r Hi. destruct (ReadRecord_ok _ l (Z.of_nat i) (LogRecord.set_lsn (Z.of_nat i) r) Hl ltac:(lia)) as (l' & -> & _); [|done].
    unfold stamp. by rewrite Nat2Z.id, list_lookup_imap, Hi.
  - unfold GetNextLsn. rewrite (lr_next _ _ Hl2). unfold stamp. by rewrite length_imap.
  - intros i. destruct (ReadFrom_ok _ l2 (Z.of_nat i) Hl2 ltac:(lia)) as (l' & -> & _). by rewrite Nat2Z.id.
Qed.

(** A record of a COMMIT, to show the hypotheses can hold. *)
Definition commit_record : LogRecord.t := LogRecord.set_header 7 LogRecordType.COMMIT (-1) LogRecord.init.

Lemma commit_record_wf : wf commit_record.
Proof. split; by vm_compute. Qed.

Lemma log_keeps_records_witness :
  ∃ l0 f0 l l2 f2, Open "a" new_file = (Val l0, f0) ∧
    append_all [commit_record; commit_record] l0 = (Val [0; 1], l) ∧
    (∀ i r, [commit_record; commit_record] !! i = Some r → (ReadRecord (Z.of_nat i) l).1 = Val (LogRecord.set_lsn (Z.of_nat i) r)) ∧
    Open "a" (DiskManager.fd_ (disk_manager_ l)) = (Val l2, f2) ∧ GetNextLsn l2 = 2 ∧
    ∀ i, (ReadFrom (Z.of_nat i) l2).1 = Val (drop i (stamp 0 [commit_record; commit_record])).
Proof.
  apply (log_keeps_records "a" "a" [commit_record; commit_record]); [|by vm_compute].
  repeat constructor; apply commit_record_wf.
Defined.

(** ** A refused write *)

(** The file whose third system call, the first write, fails. *)
Definition failing_file (e : string) : DiskManager.file := DiskManager.File [] [None; None; Some (DiskManager.Refused e)].

Lemma store_in_memory rs l k r :
  page_holds (current_page_buf_ l) 0 rs → Z.of_nat (length rs) = k → 0 ≤ k < 20 → wf r → next_lsn_ l = LogRecord.lsn r →
  ∃ b, page_holds b 0 (rs ++ [r]) ∧ Append r l = (write_page;; modify (λ l, set_next_lsn (next_lsn_ l + 1) l);; mret (LogRecord.lsn r)) (set_buf b l).
Proof.
  intros Hb Hk Hr Hw Hl. pose proof (ph_count _ _ _ Hb) as Hc. rewrite Z.mul_0_r, Z.sub_0_r, Hk, Z.min_r in Hc by lia.
  eexists. split; [apply (holds_store _ 0 rs k r Hb); (done || lia)|].
  assert (LogRecord.set_lsn (LogRecord.lsn r) r = r) as Er by (by destruct r).
  unfold Append. rewrite bind_get, Hl, Er. change kMaxRecordsPerPage with 20.
  rewrite (proj2 (Z.leb_gt 20 _)) by lia. rewrite bind_ret, bind_get. rewrite Hc.
  unfold set_record_at. change kMaxRecordsPerPage with 20.
  rewrite (proj2 (andb_true_iff _ _)) by (rewrite Z.leb_le, Z.ltb_lt; lia).
  mrun (eq_refl : lift (Val (blit (current_page_buf_ l) (slot_off k) (LogRecord.encode r))) l = (Val _, l)). done.
Qed.

(** An append that the disk refuses is not undone in memory: its record
    keeps its slot while its number is given to the next record, which is then
    read back as the refused one. *)
Theorem log_failed_append_shadows path e r1 r2 :
  wf r1 → wf r2 → LogRecord.lsn r1 = 0 → LogRecord.lsn r2 = 0 →
  ∃ l0 f0 l1 l2, Open path (failing_file e) = (Val l0, f0) ∧
    Append r1 l0 = (Exn (IOException ("DiskManager: write failed for page " +:+ to_string 0 +:+ ": " +:+ e)), l1) ∧
    Append r2 l1 = (Val 0, l2) ∧ GetNextLsn l2 = 1 ∧ (ReadRecord 0 l2).1 = Val r1 ∧ (ReadAll l2).1 = Val [r1].
Proof.
  intros Hw1 Hw2 H1 H2.
  set (l0 := mk (DiskManager.mk (DiskManager.File [] [Some (DiskManager.Refused e)]) path 1 0 0) 0 0 (set_page_count 0 (zeros PAGE_SIZE))).
  assert (Hb0 : page_holds (current_page_buf_ l0) 0 []) by (apply holds_fresh; [by rewrite blen_zeros|done]).
  destruct (store_in_memory [] l0 0 r1 Hb0) as (b1 & Hb1 & E1); [done|lia|done|done|].
  set (d1 := DiskManager.mk (DiskManager.File [] []) path 1 0 0). set (l1 := mk d1 0 0 b1).
  destruct (store_in_memory [r1] l1 1 r2 Hb1) as (b2 & Hb2 & E2); [done|lia|done|done|]. simpl app in Hb1, Hb2.
  assert (Ew : write_page (set_buf b1 l0) =
    (Exn (IOException ("DiskManager: write failed for page " +:+ to_string 0 +:+ ": " +:+ e)), l1)).
  { unfold write_page. rewrite bind_get. unfold on_disk, DiskManager.WritePage.
    rewrite (proj2 (Z.ltb_ge (blen _) PAGE_SIZE)) by (cbn [set_buf current_page_buf_]; rewrite (ph_len _ _ _ Hb1); lia). done. }
  pose proof (write_page_ok (set_buf b2 l1) eq_refl ltac:(by vm_compute) (ph_len _ _ _ Hb2)) as Ew2.
  match type of Ew2 with _ = (_, mk ?d _ _ _) => set (l2 := mk d 1 0 b2) end.
  assert (Ef : fetch 0 l2 = (Val b2, l2)) by done.
  exists l0, (DiskManager.File [] [Some (DiskManager.Refused e)]), l1, l2. split_and!; [reflexivity| | |reflexivity| |].
  - rewrite E1. unfold mbind at 1, M_bind at 1. by rewrite Ew.
  - rewrite E2. mrun Ew2. by rewrite H2.
  - unfold ReadRecord. change (Z.quot 0 kMaxRecordsPerPage) with 0. mrun Ef.
    unfold lift. by rewrite (record_at_ok b2 0 [r1; r2] _ r1 Hb2).
  - unfold ReadAll, ReadFrom. rewrite bind_get. change (next_lsn_ l2) with 1. change (Z.to_nat (1 - 0)) with 1%nat.
    change (1 <=? 0) with false. cbn [read_pages]. cbn match.
    change (next_lsn_ l2) with 1. change (0 <? 1) with true. cbn match. change (Z.quot 0 kMaxRecordsPerPage) with 0.
    mrun Ef.
    rewrite (ph_count _ _ _ Hb2). change (Z.to_nat (Z.min (Z.min 20 (Z.of_nat (length [r1; r2]) - 20 * 0) - Z.rem 0 kMaxRecordsPerPage) (1 - 0))) with 1%nat.
    cbn [take_records]. rewrite (record_at_ok b2 0 [r1; r2] _ r1 Hb2) by done. reflexivity.
Qed.

Lemma log_failed_append_shadows_witness :
  let r1 := LogRecord.set_lsn 0 LogRecord.init in
  let r2 := LogRecord.set_lsn 0 commit_record in
  ∃ l0 f0 l1 l2, Open "a" (failing_file "No space left on device") = (Val l0, f0) ∧
    Append r1 l0 =
      (Exn (IOException ("DiskManager: write failed for page " +:+ to_string 0 +:+ ": " +:+ "No space left on device")), l1) ∧
    Append r2 l1 = (Val 0, l2) ∧ GetNextLsn l2 = 1 ∧ (ReadRecord 0 l2).1 = Val r1 ∧ (ReadAll l2).1 = Val [r1].
Proof.
  apply (log_failed_append_shadows "a" "No space left on device" (LogRecord.set_lsn 0 LogRecord.init) (LogRecord.set_lsn 0 commit_record));
    [split; by vm_compute|split; by vm_compute|done|done].
Defined.
End LogProps.
