(* ===== verification/Bloom.v ===== *)
(** * BloomFilter (lsm/bloom_filter.h, bloom_filter.cpp)

    The sizing formulas are evaluated in [double]; what they give, before it
    is clamped, is an argument of the model. *)

From S2P Require Import Prelude Bytes.

Module BloomFilter.

Record t := mk {
  bits_ : bytes;
  num_bits_ : Z;
  num_hashes_ : Z;
}.

(** [std::max<size_t>(8, ceil(m))] and [std::clamp(round(k), 1, 32)], given
    [ceil(m)] and [round(k)]. *)
Definition OptimalNumBits (m : Z) : Z := Z.max 8 m.
Definition OptimalNumHashes (k : Z) : Z := Z.min 32 (Z.max 1 k).

Definition New (m k : Z) : t :=
  let num_bits := OptimalNumBits m in
  mk (zeros ((num_bits + 7) / 8)) num_bits (OptimalNumHashes k).

Definition FromBytes (bytes : bytes) (num_bits num_hashes : Z) : t := mk bytes num_bits num_hashes.

Definition Mix (x seed : Z) : Z :=
  let x := Z.lxor x seed in
  let x := u64 (x + 0x9E3779B97F4A7C15) in
  let x := u64 (Z.lxor x (Z.shiftr x 30) * 0xBF58476D1CE4E5B9) in
  let x := u64 (Z.lxor x (Z.shiftr x 27) * 0x94D049BB133111EB) in
  Z.lxor x (Z.shiftr x 31).

(** A remainder by zero is undefined. *)
Definition BitIndex (h1 h2 i : Z) (f : t) : res Z :=
  if num_bits_ f =? 0 then Undef else Val (u64 (h1 + u64 (i * h2)) `mod` num_bits_ f).

Definition h1_of (key : KeyType) : Z := Mix (u64 key) 0x9E3779B97F4A7C15.
Definition h2_of (key : KeyType) : Z := Mix (u64 key) 0xC2B2AE3D27D4EB4F.

(** [bits_[bit / 8]]; an index past the vector is undefined. *)
Definition byte_at (bits : bytes) (bit : Z) : res Z :=
  match bits !! Z.to_nat (bit / 8) with Some c => Val (byte_val c) | None => Undef end.

Definition mask (bit : Z) : Z := Z.shiftl 1 (bit `mod` 8).

Definition set_bit (bits : bytes) (bit : Z) : res bytes :=
  c ← byte_at bits bit;
  Val (<[Z.to_nat (bit / 8) := byte_of (Z.lor c (mask bit))]> bits).

Definition test_bit (bits : bytes) (bit : Z) : res bool :=
  c ← byte_at bits bit;
  Val (negb (Z.land c (mask bit) =? 0)).

(** The loops, from hash [i] on, [k] rounds left. *)
Fixpoint add_hashes (h1 h2 : Z) (k : nat) (i : Z) (f : t) : res t :=
  match k with
  | O => Val f
  | S k =>
      bit ← BitIndex h1 h2 i f;
      bits ← set_bit (bits_ f) bit;
      add_hashes h1 h2 k (i + 1) (mk bits (num_bits_ f) (num_hashes_ f))
  end.

Definition Add (key : KeyType) (f : t) : res t :=
  add_hashes (h1_of key) (h2_of key) (Z.to_nat (num_hashes_ f)) 0 f.

Fixpoint test_hashes (h1 h2 : Z) (k : nat) (i : Z) (f : t) : res bool :=
  match k with
  | O => Val true
  | S k =>
      bit ← BitIndex h1 h2 i f;
      b ← test_bit (bits_ f) bit;
      if b : bool then test_hashes h1 h2 k (i + 1) f else Val false
  end.

Definition MightContain (key : KeyType) (f : t) : res bool :=
  test_hashes (h1_of key) (h2_of key) (Z.to_nat (num_hashes_ f)) 0 f.

(** ** Theory *)

(** The bit vector is as long as the number of bits needs. *)
Definition wf (f : t) : Prop := 0 < num_bits_ f ∧ blen (bits_ f) = (num_bits_ f + 7) / 8.

(** [f'] has every bit of [f] set. *)
Definition le (f f' : t) : Prop :=
  num_bits_ f' = num_bits_ f ∧ num_hashes_ f' = num_hashes_ f ∧ length (bits_ f') = length (bits_ f) ∧
  ∀ bit, test_bit (bits_ f) bit = Val true → test_bit (bits_ f') bit = Val true.

#[global] Instance le_preorder : PreOrder le.
Proof.
  split; [by intros f; split_and!|]. intros f g h (A1 & A2 & A3 & A4) (B1 & B2 & B3 & B4). split_and!; try congruence. auto.
Qed.

Lemma byte_at_ok bits n bit : blen bits = (n + 7) / 8 → 0 ≤ bit < n → ∃ c, byte_at bits bit = Val c ∧ 0 ≤ c < 256.
Proof.
  intros Hl Hb. unfold byte_at. destruct (lookup_lt_is_Some_2 bits (Z.to_nat (bit / 8))) as [c ->].
  - unfold blen in Hl. pose proof (Z.div_mod bit 8 ltac:(lia)). pose proof (Z.mod_pos_bound bit 8 ltac:(lia)).
    pose proof (Z.div_mod (n + 7) 8 ltac:(lia)). pose proof (Z.mod_pos_bound (n + 7) 8 ltac:(lia)). lia.
  - eexists. split; [done|]. apply byte_val_range.
Qed.

Lemma mask_pow bit : mask bit = 2 ^ (bit `mod` 8).
Proof. unfold mask. rewrite Z.shiftl_mul_pow2 by (apply Z.mod_pos_bound; lia). lia. Qed.

Lemma land_mask c bit : negb (Z.land c (mask bit) =? 0) = Z.testbit c (bit `mod` 8).
Proof.
  pose proof (Z.mod_pos_bound bit 8 ltac:(lia)) as Hm. rewrite mask_pow. set (m := bit `mod` 8) in *.
  assert (E : Z.testbit (Z.land c (2 ^ m)) m = Z.testbit c m) by (rewrite Z.land_spec, Z.pow2_bits_true by lia; by rewrite andb_true_r).
  destruct (Z.eqb_spec (Z.land c (2 ^ m)) 0) as [E0|Hne]; simpl.
  - rewrite <-E, E0. by rewrite Z.bits_0.
  - destruct (Z.testbit c m) eqn:Ec; [done|]. destruct Hne. apply Z.bits_inj'. intros j Hj.
    rewrite Z.land_spec, Z.pow2_bits_eqb, Z.bits_0 by lia. destruct (Z.eqb_spec m j) as [<-|]; [by rewrite Ec|by rewrite andb_false_r].
Qed.

Lemma lor_byte c m : 0 ≤ c < 256 → 0 ≤ m < 8 → 0 ≤ Z.lor c (2 ^ m) < 256.
Proof.
  intros Hc Hm. split; [apply Z.lor_nonneg; lia|]. destruct (decide (Z.lor c (2 ^ m) = 0)) as [->|]; [lia|].
  apply (Z.log2_lt_pow2 _ 8); [assert (0 ≤ Z.lor c (2 ^ m)) by (apply Z.lor_nonneg; lia); lia|].
  rewrite Z.log2_lor by lia. apply Z.max_lub_lt; [|rewrite Z.log2_pow2; lia].
  destruct (decide (c = 0)) as [->|]; [simpl; lia|]. apply Z.log2_lt_pow2; lia.
Qed.

(** A set bit is set, and the others stay. *)
Lemma set_bit_ok bits n bit :
  blen bits = (n + 7) / 8 → 0 ≤ bit < n →
  ∃ bits', set_bit bits bit = Val bits' ∧ length bits' = length bits ∧ test_bit bits' bit = Val true ∧
    ∀ j, test_bit bits j = Val true → test_bit bits' j = Val true.
Proof.
  intros Hl Hb. destruct (byte_at_ok bits n bit Hl Hb) as (c & Ec & Hc). unfold set_bit. rewrite Ec. cbn [mbind res_bind].
  pose proof (Z.mod_pos_bound bit 8 ltac:(lia)) as Hm. pose proof (lor_byte c (bit `mod` 8) Hc Hm) as Hr.
  eexists. split_and!; [done|by rewrite length_insert| |].
  - unfold test_bit, byte_at in *. rewrite list_lookup_insert_eq.
    + cbn [mbind res_bind]. rewrite land_mask, byte_val_of, mask_pow, (Z.mod_small (Z.lor _ _)) by done.
      by rewrite Z.lor_spec, Z.pow2_bits_true, orb_true_r by lia.
    + destruct (bits !! Z.to_nat (bit / 8)) eqn:E; [|done]. by apply lookup_lt_Some in E.
  - intros j. unfold test_bit, byte_at in *. destruct (decide (Z.to_nat (j / 8) = Z.to_nat (bit / 8))) as [Ej|Hne];
      [|by rewrite list_lookup_insert_ne].
    rewrite Ej. destruct (bits !! Z.to_nat (bit / 8)) eqn:E; [|done]. injection Ec as ->.
    rewrite list_lookup_insert_eq by (by apply lookup_lt_Some in E). cbn [mbind res_bind].
    rewrite !land_mask, byte_val_of, mask_pow, (Z.mod_small (Z.lor _ _)) by done. intros [= Ht]. by rewrite Z.lor_spec, Ht.
Qed.

Lemma BitIndex_ok h1 h2 i f : wf f → ∃ bit, BitIndex h1 h2 i f = Val bit ∧ 0 ≤ bit < num_bits_ f.
Proof.
  intros [Hn _]. unfold BitIndex. rewrite (proj2 (Z.eqb_neq _ _)) by lia. eexists. split; [done|]. by apply Z.mod_pos_bound.
Qed.

Lemma BitIndex_size h1 h2 i f f' : num_bits_ f' = num_bits_ f → BitIndex h1 h2 i f' = BitIndex h1 h2 i f.
Proof. unfold BitIndex. by intros ->. Qed.

Lemma test_hashes_le h1 h2 f f' k : ∀ i,
  le f f' → test_hashes h1 h2 k i f = Val true → test_hashes h1 h2 k i f' = Val true.
Proof.
  induction k as [|k IH]; intros i Hle; [done|]. pose proof Hle as (Hn & _ & _ & Ht). cbn [test_hashes].
  rewrite (BitIndex_size _ _ _ f f' Hn). destruct (BitIndex h1 h2 i f) as [bit| | |]; cbn [mbind res_bind]; try done.
  destruct (test_bit (bits_ f) bit) as [b| | |] eqn:E; cbn [mbind res_bind]; try done. destruct b; [|done].
  rewrite (Ht _ E). cbn [mbind res_bind]. by apply IH.
Qed.

Lemma add_hashes_ok h1 h2 k : ∀ i f, wf f →
  ∃ f', add_hashes h1 h2 k i f = Val f' ∧ wf f' ∧ le f f' ∧ test_hashes h1 h2 k i f' = Val true.
Proof.
  induction k as [|k IH]; intros i f Hf; [by exists f|]. cbn [add_hashes test_hashes].
  destruct (BitIndex_ok h1 h2 i f Hf) as (bit & Eb & Hb). destruct Hf as [Hn Hl].
  destruct (set_bit_ok (bits_ f) _ bit Hl Hb) as (bits & Es & Hlen & Ht & Hmono). rewrite Eb. cbn [mbind res_bind].
  rewrite Es. cbn [mbind res_bind]. set (f1 := mk bits (num_bits_ f) (num_hashes_ f)).
  assert (wf f1) as Hf1 by (split; [done|]; unfold blen in *; simpl; by rewrite Hlen).
  destruct (IH (i + 1) f1 Hf1) as (f2 & E2 & Hf2 & Hle & Hth). exists f2.
  assert (le f f1) as Hle1 by (by split_and!).
  split_and!; [done|done|by transitivity f1|]. pose proof Hle as (Hn2 & _ & _ & Hm2).
  rewrite (BitIndex_size _ _ _ f f2) by done. rewrite Eb. cbn [mbind res_bind]. by rewrite (Hm2 _ Ht).
Qed.

Lemma MightContain_le key f f' : le f f' → MightContain key f = Val true → MightContain key f' = Val true.
Proof. intros Hle. unfold MightContain. pose proof Hle as (_ & -> & _). by apply test_hashes_le. Qed.

Lemma Add_ok key f : wf f → ∃ f', Add key f = Val f' ∧ wf f' ∧ le f f' ∧ MightContain key f' = Val true.
Proof.
  intros Hf. destruct (add_hashes_ok (h1_of key) (h2_of key) (Z.to_nat (num_hashes_ f)) 0 f Hf) as (f' & E & Hf' & Hle & Ht).
  exists f'. split_and!; [done|done|done|]. unfold MightContain. pose proof Hle as (_ & -> & _). done.
Qed.

Lemma test_hashes_total h1 h2 f k : ∀ i, wf f → ∃ b, test_hashes h1 h2 k i f = Val b.
Proof.
  induction k as [|k IH]; intros i Hf; [by exists true|]. cbn [test_hashes].
  destruct (BitIndex_ok h1 h2 i f Hf) as (bit & -> & Hb). cbn [mbind res_bind]. destruct Hf as [Hn Hl].
  destruct (byte_at_ok (bits_ f) _ bit Hl Hb) as (c & Ec & _). unfold test_bit. rewrite Ec. cbn [mbind res_bind].
  destruct (negb _); [|by exists false]. by apply IH.
Qed.

Lemma New_wf m k : wf (New m k).
Proof.
  unfold wf, New, OptimalNumBits. simpl. split; [lia|]. apply blen_zeros. apply Z.div_pos; lia.
Qed.

(** [Add] for each key in turn. *)
Fixpoint add_all (keys : list KeyType) (f : t) : res t :=
  match keys with
  | [] => Val f
  | key :: keys => f ← Add key f; add_all keys f
  end.

Lemma add_all_ok keys : ∀ f, wf f →
  ∃ f', add_all keys f = Val f' ∧ wf f' ∧ le f f' ∧ ∀ key, key ∈ keys → MightContain key f' = Val true.
Proof.
  induction keys as [|key keys IH]; intros f Hf.
  { exists f. split_and!; [done|done|done|]. intros key Hk. by apply not_elem_of_nil in Hk. }
  destruct (Add_ok key f Hf) as (f1 & E1 & Hf1 & Hle1 & Ht1). destruct (IH f1 Hf1) as (f2 & E2 & Hf2 & Hle2 & Ht2).
  exists f2. simpl. rewrite E1. split_and!; [done|done|by transitivity f1|].
  intros key' [->|Hin]%elem_of_cons; [by eapply MightContain_le|by apply Ht2].
Qed.

End BloomFilter.
