(* ===== verification/SkipList.v ===== *)
(** * SkipList (lsm/skip_list.h)

    The nodes are objects on a heap, linked by their [forward] vectors.  The
    random generator is the list of the coin tosses to come; [new] takes the
    next address. *)

From S2P Require Import Prelude Entries.

Module SkipList.
Section skip_list.
Context {V : Type}.

Record Node := mkNode {
  key : KeyType;
  value : V;
  forward : list (option nat);
}.

Record t := mk {
  heap : gmap nat Node;
  next_address : nat;
  max_height_ : nat;
  current_height_ : nat;
  head_ : nat;
  size_ : Z;
  rng_ : list bool;
}.

(** [v0] is [Value{}]. *)
Definition New (max_height : nat) (rng : list bool) (v0 : V) : t :=
  mk {[0%nat := mkNode 0 v0 (replicate max_height None)]} 1 max_height 1 0 0 rng.

Definition set_heap (h : gmap nat Node) (s : t) : t :=
  mk h (next_address s) (max_height_ s) (current_height_ s) (head_ s) (size_ s) (rng_ s).

(** Dereferences: a dangling pointer, or a level past the vector, is undefined. *)
Definition node_at (s : t) (a : nat) : res Node :=
  match heap s !! a with Some n => Val n | None => Undef end.

Definition forward_at (s : t) (a level : nat) : res (option nat) :=
  n ← node_at s a;
  match forward n !! level with Some p => Val p | None => Undef end.

Definition set_forward (a level : nat) (p : option nat) (s : t) : res t :=
  n ← node_at s a;
  if (level <? length (forward n))%nat
  then Val (set_heap (<[a := mkNode (key n) (value n) (<[level := p]> (forward n))]> (heap s)) s)
  else Undef.

(** The inner loop of a search: along one level while the keys are smaller. *)
Fixpoint walk (s : t) (k : KeyType) (level : nat) (fuel : nat) (cur : nat) : res nat :=
  p ← forward_at s cur level;
  match p with
  | None => Val cur
  | Some a =>
      n ← node_at s a;
      if key n <? k then match fuel with O => NoFuel | S fuel => walk s k level fuel a end else Val cur
  end.

(** Each node is passed at most once. *)
Definition fuel_of (s : t) : nat := Z.to_nat (size_ s).

(** From level [levels - 1] down to 0. *)
Fixpoint descend (s : t) (k : KeyType) (levels : nat) (cur : nat) : res nat :=
  match levels with
  | O => Val cur
  | S level => cur ← walk s k level (fuel_of s) cur; descend s k level cur
  end.

(** The same, which notes where each level was left. *)
Fixpoint descend_update (s : t) (k : KeyType) (levels : nat) (cur : nat) (update : list nat) : res (nat * list nat) :=
  match levels with
  | O => Val (cur, update)
  | S level => cur ← walk s k level (fuel_of s) cur; descend_update s k level cur (<[level := cur]> update)
  end.

(** [RandomLevel]: [room] levels are left to climb. *)
Fixpoint random_level (room level : nat) (rng : list bool) : nat * list bool :=
  match room, rng with
  | S room, c :: rng => if c : bool then random_level room (S level) rng else (level, rng)
  | _, _ => (level, rng)
  end.

Definition RandomLevel (s : t) : nat * t :=
  let '(level, rng) := random_level (max_height_ s - 1) 1 (rng_ s) in
  (level, mk (heap s) (next_address s) (max_height_ s) (current_height_ s) (head_ s) (size_ s) rng).

(** Links [node] into the levels from [i] on, [k] of them. *)
Fixpoint link (node : nat) (update : list nat) (k i : nat) (s : t) : res t :=
  match k with
  | O => Val s
  | S k =>
      match update !! i with
      | None => Undef
      | Some u =>
          p ← forward_at s u i;
          s ← set_forward node i p s;
          s ← set_forward u i (Some node) s;
          link node update k (S i) s
      end
  end.

(** [update[i] = head_] for the levels from [i] on, [k] of them. *)
Fixpoint raise (head : nat) (k i : nat) (update : list nat) : res (list nat) :=
  match k with
  | O => Val update
  | S k => if (i <? length update)%nat then raise head k (S i) (<[i := head]> update) else Undef
  end.

(** A new node of a random height. *)
Definition insert_node (k : KeyType) (v : V) (update : list nat) (s : t) : res t :=
  let '(level, s) := RandomLevel s in
  update ← (if (current_height_ s <? level)%nat
            then raise (head_ s) (level - current_height_ s) (current_height_ s) update else Val update);
  let height := Nat.max level (current_height_ s) in
  let node := next_address s in
  let s := mk (<[node := mkNode k v (replicate level None)]> (heap s)) (S node) (max_height_ s) height
             (head_ s) (size_ s) (rng_ s) in
  s ← link node update level 0 s;
  Val (mk (heap s) (next_address s) (max_height_ s) (current_height_ s) (head_ s) (size_ s + 1) (rng_ s)).

Definition Insert (k : KeyType) (v : V) (s : t) : res t :=
  '(cur, update) ← descend_update s k (current_height_ s) (head_ s) (replicate (max_height_ s) (head_ s));
  candidate ← forward_at s cur 0;
  existing ← match candidate with
             | Some a => n ← node_at s a; Val (if key n =? k then Some (a, n) else None)
             | None => Val None
             end;
  match existing with
  | Some (a, n) => Val (set_heap (<[a := mkNode (key n) v (forward n)]> (heap s)) s)
  | None => insert_node k v update s
  end.

Definition Find (k : KeyType) (s : t) : res (option V) :=
  cur ← descend s k (current_height_ s) (head_ s);
  candidate ← forward_at s cur 0;
  match candidate with
  | Some a => n ← node_at s a; Val (if key n =? k then Some (value n) else None)
  | None => Val None
  end.

Definition Size (s : t) : Z := size_ s.

(** An iterator is a pointer to a node, or null. *)
Abbreviation Iterator := (option nat) (only parsing).

Definition Valid (it : Iterator) : bool := bool_decide (is_Some it).
Definition it_node (s : t) (it : Iterator) : res Node := match it with Some a => node_at s a | None => Undef end.
Definition it_key (s : t) (it : Iterator) : res KeyType := key <$> it_node s it.
Definition it_value (s : t) (it : Iterator) : res V := value <$> it_node s it.
Definition Next (s : t) (it : Iterator) : res Iterator :=
  match it with Some a => forward_at s a 0 | None => Undef end.

Definition Begin (s : t) : res Iterator := forward_at s (head_ s) 0.

Definition LowerBound (k : KeyType) (s : t) : res Iterator :=
  cur ← descend s k (current_height_ s) (head_ s);
  forward_at s cur 0.

End skip_list.
Arguments Node : clear implicits.
Arguments t : clear implicits.
End SkipList.
