(* ===== verification/SkipListTheory.v ===== *)
(** * Theory of the skip list: it is a sorted association list

    The ghost state is the list of the cells in key order, each with its
    address and height; level [i] of a cell points to the next cell that is
    higher than [i]. *)

From S2P Require Import Prelude Entries SkipList.

(** ** A key between two parts of a sorted list *)

Lemma look_app_lt {V} k (l r : list (Z * V)) : (∀ e, e ∈ l → e.1 < k) → look k (l ++ r) = look k r.
Proof.
  induction l as [|[k' v] l IH]; intros H; [done|]. simpl. assert (k' < k) by (apply (H (k', v)); set_solver).
  rewrite (proj2 (Z.eqb_neq _ _)) by lia. apply IH. set_solver.
Qed.

Lemma ins_app_lt {V} k (w : V) l r : (∀ e, e ∈ l → e.1 < k) → ins k w (l ++ r) = l ++ ins k w r.
Proof.
  induction l as [|[k' v] l IH]; intros H; [done|]. simpl. assert (k' < k) by (apply (H (k', v)); set_solver).
  rewrite (proj2 (Z.ltb_lt _ _)) by lia. by rewrite IH by set_solver.
Qed.

Lemma ins_between {V} k (w : V) l r :
  (∀ e, e ∈ l → e.1 < k) → (∀ e, e ∈ r → k < e.1) → ins k w (l ++ r) = l ++ (k, w) :: r.
Proof.
  intros Hl Hr. rewrite ins_app_lt by done. f_equal. destruct r as [|[k' v] r]; [done|]. simpl.
  assert (k < k') by (apply (Hr (k', v)); set_solver). rewrite (proj2 (Z.ltb_ge _ _)), (proj2 (Z.eqb_neq _ _)) by lia. done.
Qed.

Lemma look_head {V} k k' (v : V) r : k ≤ k' → sorted ((k', v) :: r) → look k ((k', v) :: r) = if k' =? k then Some v else None.
Proof.
  intros Hk [_ Hr]%sorted_cons_inv. simpl. destruct (Z.eqb_spec k' k); [done|]. apply look_past. intros e He. specialize (Hr e He). lia.
Qed.

Lemma lb_app_lt {V} k (l r : list (Z * V)) : (∀ e, e ∈ l → e.1 < k) → lb k (l ++ r) = (length l + lb k r)%nat.
Proof.
  induction l as [|[k' v] l IH]; intros H; [done|]. simpl. assert (k' < k) by (apply (H (k', v)); set_solver).
  rewrite (proj2 (Z.ltb_lt _ _)) by lia. by rewrite IH by set_solver.
Qed.

Lemma lb_ge {V} k (r : list (Z * V)) : (∀ e, e ∈ r → k ≤ e.1) → lb k r = 0%nat.
Proof.
  destruct r as [|[k' v] r]; intros H; [done|]. simpl. assert (k ≤ k') by (apply (H (k', v)); set_solver).
  by rewrite (proj2 (Z.ltb_ge _ _)) by lia.
Qed.

Module SkipListTheory.
Import SkipList.
Section theory.
Context {V : Type}.
Implicit Types (s : t V) (h : gmap nat (Node V)).

Record cell := mkCell { addr : nat; ckey : KeyType; cval : V; height : nat }.

Definition kv (c : cell) : KeyType * V := (ckey c, cval c).

(** Where level [i] of a cell points when the cells [cs] follow it. *)
Fixpoint ptr (i : nat) (cs : list cell) : option nat :=
  match cs with
  | [] => None
  | c :: cs => if (i <? height c)%nat then Some (addr c) else ptr i cs
  end.

Definition fwd (n : nat) (cs : list cell) : list (option nat) := (λ i, ptr i cs) <$> seq 0 n.
Definition node (c : cell) (cs : list cell) : Node V := mkNode (ckey c) (cval c) (fwd (height c) cs).

(** The cells [cs], followed by [tl], are linked in the heap. *)
Definition linked h (cs tl : list cell) : Prop :=
  ∀ pre c post, cs = pre ++ c :: post → h !! addr c = Some (node c (post ++ tl)).

Record rep s (hd : cell) (cs : list cell) : Prop := {
  rp_linked : linked (heap s) (hd :: cs) [];
  rp_nodup : NoDup (addr <$> hd :: cs);
  rp_sorted : sorted (kv <$> cs);
  rp_heights : ∀ c, c ∈ cs → (1 ≤ height c ≤ current_height_ s)%nat;
  rp_head : addr hd = head_ s ∧ height hd = max_height_ s;
  rp_height : (1 ≤ current_height_ s ≤ max_height_ s)%nat;
  rp_size : size_ s = Z.of_nat (length cs);
  rp_fresh : ∀ c, c ∈ hd :: cs → (addr c < next_address s)%nat;
}.

(** The list holds the entries [es]. *)
Definition holds s (es : list (KeyType * V)) : Prop := ∃ hd cs, rep s hd cs ∧ es = kv <$> cs.

(** ** Pointers *)

Lemma ptr_skip i cs cs' : (∀ c, c ∈ cs → (height c ≤ i)%nat) → ptr i (cs ++ cs') = ptr i cs'.
Proof.
  induction cs as [|c cs IH]; intros H; [done|]. simpl. rewrite (proj2 (Nat.ltb_ge _ _)) by (apply H; set_solver). apply IH. set_solver.
Qed.

Lemma ptr_hit i c cs : (i < height c)%nat → ptr i (c :: cs) = Some (addr c).
Proof. intros H. simpl. by rewrite (proj2 (Nat.ltb_lt _ _)). Qed.

Lemma ptr_found i cs c cs' tl : (i < height c)%nat → ptr i ((cs ++ c :: cs') ++ tl) = ptr i (cs ++ c :: cs').
Proof.
  intros Hc. induction cs as [|d cs IH]; simpl; [by rewrite (proj2 (Nat.ltb_lt _ _))|]. by destruct (_ <? _)%nat.
Qed.

Lemma ptr_cases i cs :
  (ptr i cs = None ∧ ∀ c, c ∈ cs → (height c ≤ i)%nat) ∨
  (∃ p1 x p2, cs = p1 ++ x :: p2 ∧ (∀ c, c ∈ p1 → (height c ≤ i)%nat) ∧ (i < height x)%nat ∧ ptr i cs = Some (addr x)).
Proof.
  induction cs as [|c cs IH]; [left; split; [done|set_solver]|]. simpl. destruct (Nat.ltb_spec i (height c)).
  - right. exists [], c, cs. split_and!; [done|set_solver|done|done].
  - destruct IH as [[-> Hn]|(p1 & x & p2 & -> & Hp & Hx & ->)].
    + left. split; [done|]. intros d [->|?]%elem_of_cons; [done|by apply Hn].
    + right. exists (c :: p1), x, p2. split_and!; [done| |done|done]. intros d [->|?]%elem_of_cons; [done|by apply Hp].
Qed.

Lemma length_fwd n cs : length (fwd n cs) = n.
Proof. unfold fwd. by rewrite length_fmap, length_seq. Qed.

Lemma lookup_fwd n cs i : (i < n)%nat → fwd n cs !! i = Some (ptr i cs).
Proof. intros H. unfold fwd. by rewrite list_lookup_fmap, lookup_seq_lt. Qed.

Lemma fwd_ext n cs cs' : (∀ i, (i < n)%nat → ptr i cs = ptr i cs') → fwd n cs = fwd n cs'.
Proof. intros H. unfold fwd. apply list_fmap_ext. intros i x [-> ?]%lookup_seq. by apply H. Qed.

Lemma NoDup_split {A B} (f : A → B) l1 y l2 l1' y' l2' :
  NoDup (f <$> l1 ++ y :: l2) → l1 ++ y :: l2 = l1' ++ y' :: l2' → f y = f y' → l1 = l1' ∧ y = y' ∧ l2 = l2'.
Proof.
  revert l1'; induction l1 as [|z l1 IH]; intros [|z' l1'] Hnd E Hf; simpl in *.
  - by injection E as -> ->.
  - injection E as -> ->. apply NoDup_cons in Hnd as [Hn _]. destruct Hn. rewrite Hf. set_solver.
  - injection E as <- <-. apply NoDup_cons in Hnd as [Hn _]. destruct Hn. rewrite <-Hf. set_solver.
  - injection E as <- E. apply NoDup_cons in Hnd as [_ Hnd]. by destruct (IH l1' Hnd E Hf) as (-> & -> & ->).
Qed.

(** ** Links *)

Lemma linked_at h pre c post tl : linked h (pre ++ c :: post) tl → h !! addr c = Some (node c (post ++ tl)).
Proof. intros H. by apply (H pre). Qed.

Lemma linked_app h a b tl : linked h (a ++ b) tl ↔ linked h a (b ++ tl) ∧ linked h b tl.
Proof.
  split.
  - intros H. split; intros pre c post ->.
    + rewrite app_assoc. apply (H pre). by rewrite <-app_assoc.
    + apply (H (a ++ pre)). by rewrite app_assoc.
  - intros [Ha Hb] pre c post E. apply app_eq_app in E as (l & [[-> E]|[-> E]]).
    + destruct l as [|c' l]; simpl in E.
      * apply (Hb []). by rewrite E.
      * injection E as <- ->. rewrite <-app_assoc. by apply (Ha pre).
    + apply (Hb l). by rewrite E.
Qed.

Lemma linked_frame h a n cs tl : a ∉ addr <$> cs → linked h cs tl → linked (<[a := n]> h) cs tl.
Proof.
  intros Ha H pre c post E. rewrite lookup_insert_ne; [by apply (H pre)|]. intros ->. apply Ha. rewrite E. set_solver.
Qed.

Lemma forward_at_ok s pre c post i :
  linked (heap s) (pre ++ c :: post) [] → (i < height c)%nat → forward_at s (addr c) i = Val (ptr i post).
Proof.
  intros Hl Hi. apply linked_at in Hl. unfold forward_at, node_at. rewrite Hl. simpl. rewrite app_nil_r.
  by rewrite lookup_fwd.
Qed.

Lemma node_at_ok s pre c post :
  linked (heap s) (pre ++ c :: post) [] → node_at s (addr c) = Val (node c post).
Proof. intros Hl. apply linked_at in Hl. unfold node_at. by rewrite Hl, app_nil_r. Qed.

(** ** The search *)

Section search.
Context s (hd : cell) (cs : list cell) (k : KeyType).
Hypothesis Hrep : rep s hd cs.

(** Level [i] was left at [d], with [post] behind it: what is smaller in
    [post] is not higher than [i]. *)
Definition left_at (i : nat) (pre : list cell) (d : cell) (post : list cell) : Prop :=
  hd :: cs = pre ++ d :: post ∧ (pre = [] ∨ ckey d < k) ∧ ∀ x, x ∈ post → ckey x < k → (height x ≤ i)%nat.

Lemma sorted_after pre x p2 y : hd :: cs = pre ++ x :: p2 → pre ≠ [] → y ∈ p2 → ckey x < ckey y.
Proof using Hrep.
  intros E Hne Hy. destruct pre as [|p pre]; [done|]. injection E as -> E. pose proof (rp_sorted _ _ _ Hrep) as Hs.
  rewrite E, fmap_app, fmap_cons in Hs. destruct (sorted_halves _ (ckey x) (cval x) _ Hs) as (_ & Hs2 & _ & _).
  apply sorted_cons_inv in Hs2 as [_ Hk]. apply (Hk (kv y)). by apply list_elem_of_fmap_2.
Qed.

Lemma walk_ok level fuel : ∀ pre c post,
  hd :: cs = pre ++ c :: post → (level < height c)%nat → (pre = [] ∨ ckey c < k) → (length post ≤ fuel)%nat →
  ∃ pre' d post', walk s k level fuel (addr c) = Val (addr d) ∧ left_at level pre' d post' ∧ (level < height d)%nat.
Proof using Hrep.
  induction fuel as [|fuel IH]; intros pre c post E Hc Hk Hf;
    pose proof (rp_linked _ _ _ Hrep) as Hl; rewrite E in Hl; cbn [walk];
    rewrite (forward_at_ok s pre c post level Hl Hc); cbn [mbind res_bind];
    destruct (ptr_cases level post) as [[-> Hn]|(p1 & x & p2 & Ep & Hp & Hx & ->)];
    try (exists pre, c, post; split_and!; [done|split_and!; [done|done|intros y Hy _; by apply Hn]|done]).
  - subst post. rewrite length_app in Hf. simpl in Hf. lia.
  - assert (E' : hd :: cs = (pre ++ c :: p1) ++ x :: p2) by (rewrite E, Ep; by rewrite <-app_assoc).
    pose proof (rp_linked _ _ _ Hrep) as Hl'. rewrite E' in Hl'. rewrite (node_at_ok s _ x p2 Hl'). cbn [mbind res_bind node key].
    destruct (Z.ltb_spec (ckey x) k) as [Hlt|Hge].
    + apply (IH (pre ++ c :: p1) x p2 E' Hx); [by right|]. rewrite Ep, length_app in Hf. simpl in Hf. lia.
    + exists pre, c, post. split_and!; [done| |done]. split_and!; [done|done|]. intros y Hy Hlt. rewrite Ep in Hy.
      apply elem_of_app in Hy as [Hy|[->|Hy]%elem_of_cons]; [by apply Hp|lia|].
      assert (ckey x < ckey y); [|lia]. apply (sorted_after (pre ++ c :: p1) x p2); [done|by destruct pre|done].
Qed.

Lemma fuel_enough pre c post : hd :: cs = pre ++ c :: post → (length post ≤ fuel_of s)%nat.
Proof using Hrep.
  intros E. unfold fuel_of. rewrite (rp_size _ _ _ Hrep). apply (f_equal length) in E. rewrite length_app in E. simpl in E. lia.
Qed.

(** Where the search ends, and the places noted on the way. *)
Lemma descend_update_ok levels : ∀ pre d post update,
  left_at levels pre d post → (levels ≤ height d)%nat → (levels ≤ length update)%nat →
  ∃ pre' d' post' update', descend_update s k levels (addr d) update = Val (addr d', update') ∧
    descend s k levels (addr d) = Val (addr d') ∧
    left_at 0 pre' d' post' ∧ length update' = length update ∧ (0 < height d' ∨ levels = 0 ∧ d' = d)%nat ∧
    (∀ i, (levels ≤ i)%nat → update' !! i = update !! i) ∧
    (∀ i, (i < levels)%nat → ∃ prei u posti, update' !! i = Some (addr u) ∧ left_at i prei u posti ∧ (i < height u)%nat).
Proof using Hrep.
  induction levels as [|level IH]; intros pre d post update Hd Hh Hu.
  { exists pre, d, post, update. split_and!; try done; [by right|]. intros i Hi. lia. }
  cbn [descend_update descend]. destruct Hd as (E & Hk & Hp).
  destruct (walk_ok level (fuel_of s) pre d post E ltac:(lia) Hk (fuel_enough _ _ _ E)) as (pre1 & d1 & post1 & Ew & Hd1 & Hh1).
  rewrite Ew. cbn [mbind res_bind].
  destruct (IH pre1 d1 post1 (<[level := addr d1]> update) Hd1 ltac:(lia)) as (pre2 & d2 & post2 & u2 & E1 & E2 & H2 & Hlen & Hpos & Hout & Hin);
    [rewrite length_insert; lia|].
  exists pre2, d2, post2, u2. rewrite length_insert in Hlen. split_and!; try done.
  - left. destruct Hpos as [?|[-> ->]]; lia.
  - intros i Hi. rewrite Hout by lia. by rewrite list_lookup_insert_ne by lia.
  - intros i Hi. destruct (decide (i = level)) as [->|]; [|apply Hin; lia].
    exists pre1, d1, post1. split_and!; [|done|done]. rewrite Hout by lia. by rewrite list_lookup_insert_eq by lia.
Qed.

(** The cells before and after the key, where the search ends between them,
    and the last cell before the key on every level. *)
Lemma search_ok :
  ∃ a b d update, cs = a ++ b ∧ (∀ c, c ∈ a → ckey c < k) ∧ (∀ c, c ∈ b → k ≤ ckey c) ∧
    descend_update s k (current_height_ s) (head_ s) (replicate (max_height_ s) (head_ s)) = Val (addr d, update) ∧
    descend s k (current_height_ s) (head_ s) = Val (addr d) ∧ forward_at s (addr d) 0 = Val (addr <$> head b) ∧
    length update = max_height_ s ∧
    ∀ i, (i < max_height_ s)%nat → ∃ prei u posti, update !! i = Some (addr u) ∧ hd :: a = prei ++ u :: posti ∧
      (i < height u)%nat ∧ ∀ x, x ∈ posti → (height x ≤ i)%nat.
Proof using Hrep.
  destruct (rp_head _ _ _ Hrep) as [Eh Emax]. pose proof (rp_height _ _ _ Hrep) as Hcur.
  assert (H0 : left_at (current_height_ s) [] hd cs).
  { split_and!; [done|by left|]. intros x Hx _. by apply (rp_heights _ _ _ Hrep). }
  destruct (descend_update_ok (current_height_ s) [] hd cs (replicate (max_height_ s) (head_ s)) H0) as
    (pre & d & post & update & E1 & E2 & Hd & Hlen & Hh & Hout & Hin); [lia|rewrite length_replicate; lia|].
  rewrite Eh in E1, E2. rewrite length_replicate in Hlen. destruct Hd as (Ec & Hk & Hp).
  assert (Hb : ∀ c, c ∈ post → k ≤ ckey c).
  { intros c Hc. destruct (decide (ckey c < k)) as [Hlt|]; [|lia]. specialize (Hp c Hc Hlt).
    destruct (rp_heights _ _ _ Hrep c); [|lia]. destruct pre as [|p pre]; injection Ec as -> ->; set_solver. }
  assert (Hsplit : ∃ a, cs = a ++ post ∧ hd :: a = pre ++ [d] ∧ ∀ c, c ∈ a → ckey c < k).
  { destruct pre as [|p pre]; injection Ec as Ehd Ecs.
    - exists []. rewrite Ehd, Ecs. split_and!; [done|done|set_solver].
    - exists (pre ++ [d]). rewrite Ecs, <-app_assoc, Ehd. split_and!; [done|done|]. destruct Hk as [?|Hk]; [done|].
      intros c [Hc| ->%list_elem_of_singleton]%elem_of_app; [|done].
      apply list_elem_of_split in Hc as (q1 & q2 & ->). assert (ckey c < ckey d); [|lia].
      apply (sorted_after (hd :: q1) c (q2 ++ d :: post)); [|done|set_solver].
      rewrite Ecs. simpl. by rewrite <-app_assoc. }
  destruct Hsplit as (a & Ea & Epd & Ha). exists a, post, d, update. split_and!; try done.
  - destruct Hh as [Hh|[? _]]; [|lia]. pose proof (rp_linked _ _ _ Hrep) as Hl. rewrite Ec in Hl.
    rewrite (forward_at_ok s pre d post 0 Hl Hh). f_equal. destruct post as [|y post']; [done|].
    apply ptr_hit. apply (rp_heights _ _ _ Hrep). rewrite Ea. set_solver.
  - intros i Hi. destruct (decide (i < current_height_ s)%nat) as [Hlt|Hge].
    + destruct (Hin i Hlt) as (prei & u & posti & Eu & (Ecu & Hku & Hpi) & Hhu).
      assert (∃ posti', posti = posti' ++ post ∧ hd :: a = prei ++ u :: posti') as (q & -> & Eq).
      { assert (E3 : (hd :: a) ++ post = prei ++ u :: posti) by (rewrite <-Ecu, Ea; done).
        apply app_eq_app in E3 as (l & [[E4 E5]|[E4 E5]]).
        - destruct l as [|u' l]; simpl in E5; [|injection E5 as <- ->; by exists l].
          rewrite app_nil_r in E4. subst prei. destruct Hku as [?|Hku]; [done|].
          specialize (Hb u ltac:(rewrite <-E5; set_solver)). lia.
        - destruct Hku as [->|Hku]; [done|]. specialize (Hb u ltac:(rewrite E5; set_solver)). lia. }
      exists prei, u, q. split_and!; [done|done|done|]. intros x Hx. apply Hpi; [set_solver|]. apply Ha.
      destruct prei as [|p prei]; injection Eq as -> ->; set_solver.
    + exists [], hd, a. split_and!; [|done|lia|].
      * rewrite Hout by lia. rewrite lookup_replicate_2 by lia. by rewrite Eh.
      * intros x Hx. destruct (rp_heights _ _ _ Hrep x); [|lia]. rewrite Ea. set_solver.
Qed.
End search.

(** ** Reading *)

Lemma kv_apart (k : KeyType) (cs : list cell) : (∀ c, c ∈ cs → ckey c < k) → ∀ e, e ∈ kv <$> cs → e.1 < k.
Proof. intros H e (c & -> & Hc)%list_elem_of_fmap. by apply H. Qed.

Lemma Find_ok s es k : holds s es → Find k s = Val (look k es).
Proof.
  intros (hd & cs & Hrep & ->). destruct (search_ok s hd cs k Hrep) as (a & b & d & update & Ecs & Ha & Hb & _ & E & Ef & _).
  unfold Find. rewrite E. cbn [mbind res_bind]. rewrite Ef. cbn [mbind res_bind]. pose proof (rp_sorted _ _ _ Hrep) as Hs.
  pose proof (rp_linked _ _ _ Hrep) as Hl. rewrite Ecs in *. rewrite fmap_app in *.
  rewrite look_app_lt by (by apply kv_apart). destruct b as [|x b]; [done|].
  change (addr <$> head (x :: b)) with (Some (addr x)). cbn match. rewrite (node_at_ok s (hd :: a) x b Hl). cbn [mbind res_bind node key value].
  rewrite fmap_cons in Hs |- *. destruct (sorted_halves _ (ckey x) (cval x) _ Hs) as (_ & Hs2 & _ & _). f_equal. symmetry.
  apply (look_head k (ckey x) (cval x) (kv <$> b)); [|done]. apply Hb. set_solver.
Qed.

(** An iterator that stands before the entries [rest] of the list. *)
Definition points s (it : option nat) (rest : list (KeyType * V)) : Prop :=
  ∃ hd cs pre post, rep s hd cs ∧ cs = pre ++ post ∧ it = addr <$> head post ∧ rest = kv <$> post.

Lemma list_Begin_ok s es : holds s es → ∃ it, Begin s = Val it ∧ points s it es.
Proof.
  intros (hd & cs & Hrep & ->). exists (addr <$> head cs). split; [|by exists hd, cs, [], cs].
  unfold Begin. destruct (rp_head _ _ _ Hrep) as [<- Hm]. pose proof (rp_height _ _ _ Hrep).
  rewrite (forward_at_ok s [] hd cs 0 (rp_linked _ _ _ Hrep)) by lia. f_equal. destruct cs as [|c cs]; [done|].
  apply ptr_hit. apply (rp_heights _ _ _ Hrep). set_solver.
Qed.

Lemma LowerBound_ok s es k : holds s es → ∃ it, LowerBound k s = Val it ∧ points s it (drop (lb k es) es).
Proof.
  intros (hd & cs & Hrep & ->). destruct (search_ok s hd cs k Hrep) as (a & b & d & update & Ecs & Ha & Hb & _ & E & Ef & _).
  exists (addr <$> head b). unfold LowerBound. rewrite E. split; [done|]. exists hd, cs, a, b. split_and!; [done|done|done|].
  rewrite Ecs, fmap_app, lb_app_lt by (by apply kv_apart).
  rewrite lb_ge by (intros e (c & -> & Hc)%list_elem_of_fmap; by apply Hb). rewrite Nat.add_0_r. by rewrite drop_app_length.
Qed.

Lemma points_end s it rest : points s it rest → Valid it = bool_decide (rest ≠ []).
Proof.
  intros (hd & cs & pre & post & _ & _ & -> & ->). unfold Valid. apply bool_decide_ext. destruct post as [|c post]; simpl.
  - split; [by intros []|done].
  - split; [done|by eexists].
Qed.

Lemma points_head s it k v rest :
  points s it ((k, v) :: rest) → it_key s it = Val k ∧ it_value s it = Val v ∧ ∃ it', Next s it = Val it' ∧ points s it' rest.
Proof.
  intros (hd & cs & pre & post & Hrep & Ecs & -> & E). destruct post as [|c post]; [done|].
  rewrite fmap_cons in E. injection E as Ek Ev Er. change (addr <$> head (c :: post)) with (Some (addr c)).
  unfold it_key, it_value, it_node, Next.
  pose proof (rp_linked _ _ _ Hrep) as Hl. rewrite Ecs in Hl.
  rewrite (node_at_ok s (hd :: pre) c post Hl), Ek, Ev. split_and!; [done|done|].
  exists (addr <$> head post). split; [|exists hd, cs, (pre ++ [c]), post; split_and!; [done|by rewrite Ecs, <-app_assoc|done|done]].
  assert (Hc : ∀ x, x ∈ c :: post → (0 < height x)%nat).
  { intros x Hx. destruct (rp_heights _ _ _ Hrep x); [rewrite Ecs; set_solver|lia]. }
  rewrite (forward_at_ok s (hd :: pre) c post 0 Hl) by (apply Hc; set_solver). f_equal.
  destruct post as [|x post]; [done|]. apply ptr_hit, Hc. set_solver.
Qed.

(** ** Insertion *)

Lemma ptr_raise j post i (x : nat → cell) b :
  (∀ n, height (x n) = n ∧ addr (x n) = addr (x 0%nat)) → j ≠ i → ptr j (post ++ x i :: b) = ptr j (post ++ x (S i) :: b).
Proof.
  intros Hx Hj. induction post as [|c post IH]; simpl.
  - destruct (Hx i) as [-> ->], (Hx (S i)) as [-> ->]. destruct (Nat.ltb_spec j i), (Nat.ltb_spec j (S i)); (done || lia).
  - by rewrite IH.
Qed.

Section link.
Context (hd : cell) (a b : list cell) (nd : nat) (k : KeyType) (v : V) (L : nat) (update : list nat).
Hypothesis Hnd : NoDup (addr <$> (hd :: a) ++ b).
Hypothesis Hnew : nd ∉ addr <$> (hd :: a) ++ b.
Hypothesis Hupd : ∀ i, (i < L)%nat → ∃ prei u posti, update !! i = Some (addr u) ∧ hd :: a = prei ++ u :: posti ∧
  (i < height u)%nat ∧ ∀ x, x ∈ posti → (height x ≤ i)%nat.

(** The new cell, linked into its lowest [i] levels. *)
Definition x (i : nat) : cell := mkCell nd k v i.

Definition stage (i : nat) s : Prop :=
  linked (heap s) (hd :: a) (x i :: b) ∧ linked (heap s) b [] ∧
  heap s !! nd = Some (mkNode k v (fwd i b ++ replicate (L - i) None)).

Lemma fwd_step i : (i < L)%nat →
  <[i := ptr i b]> (fwd i b ++ replicate (L - i) None) = fwd (S i) b ++ replicate (L - S i) None.
Proof.
  intros Hi. assert (fwd (S i) b = fwd i b ++ [ptr i b]) as -> by (unfold fwd; by rewrite seq_S, fmap_app).
  rewrite <-app_assoc. replace (L - i)%nat with (S (L - S i)) by lia. simpl replicate.
  rewrite insert_app_r_alt by (rewrite length_fwd; lia). by rewrite length_fwd, Nat.sub_diag.
Qed.

Lemma link_step i s : (i < L)%nat → stage i s →
  ∃ u s1 s2, update !! i = Some u ∧ forward_at s u i = Val (ptr i b) ∧ set_forward nd i (ptr i b) s = Val s1 ∧
    set_forward u i (Some nd) s1 = Val s2 ∧ stage (S i) s2 ∧ ∃ hp, s2 = set_heap hp s.
Proof using Hnd Hnew Hupd.
  intros Hi (HA & HB & Hx). destruct (Hupd i Hi) as (prei & u & posti & Eu & Ea & Hu & Hpost). exists (addr u).
  assert (Hun : nd ≠ addr u) by (intros ->; apply Hnew; rewrite Ea; set_solver).
  pose proof HA as HAu. rewrite Ea in HAu. apply linked_at in HAu.
  assert (Hp : ptr i (posti ++ x i :: b) = ptr i b).
  { rewrite ptr_skip by done. simpl. by rewrite Nat.ltb_irrefl. }
  eexists _, _. split_and!; [done| | | | |by eexists].
  - unfold forward_at, node_at. rewrite HAu. simpl. by rewrite lookup_fwd, Hp.
  - unfold set_forward, node_at. rewrite Hx. simpl. rewrite length_app, length_fwd, length_replicate.
    by rewrite (proj2 (Nat.ltb_lt _ _)) by lia.
  - unfold set_forward, node_at. simpl. rewrite lookup_insert_ne by done. rewrite HAu. simpl. rewrite length_fwd.
    by rewrite (proj2 (Nat.ltb_lt _ _)) by lia.
  - rewrite fmap_app in Hnd, Hnew. apply NoDup_app in Hnd as (HndA & Hdisj & HndB). split_and!; simpl.
    + intros pre c post E. destruct (decide (addr c = addr u)) as [Hcu|Hcu].
      * assert (pre = prei ∧ c = u ∧ post = posti) as (-> & -> & ->).
        { rewrite E in Ea. rewrite E in HndA. eapply (NoDup_split addr); eauto. }
        rewrite lookup_insert_eq. f_equal. unfold node. f_equal. apply list_eq. intros j.
        destruct (decide (j < height u)%nat) as [Hj|Hj].
        -- rewrite lookup_fwd by done. destruct (decide (j = i)) as [->|Hne].
           ++ rewrite list_lookup_insert_eq by (by rewrite length_fwd). rewrite ptr_skip by done. rewrite ptr_hit; [done|simpl; lia].
           ++ rewrite list_lookup_insert_ne by done. rewrite lookup_fwd by done. f_equal. by apply ptr_raise.
        -- rewrite !(proj2 (lookup_ge_None _ _)); [done| |]; rewrite ?length_insert, length_fwd; lia.
      * rewrite lookup_insert_ne by done. rewrite lookup_insert_ne by (intros ->; apply Hnew; rewrite E; set_solver).
        rewrite (HA pre c post E). f_equal. unfold node. f_equal. apply fwd_ext. intros j Hj.
        destruct (decide (j = i)) as [->|Hne]; [|by apply ptr_raise].
        assert (u ∈ post) as (q1 & q2 & ->)%list_elem_of_split.
        { assert (u ∈ pre ++ c :: post) as [Hin|[->|Hin]%elem_of_cons]%elem_of_app by (rewrite <-E, Ea; set_solver); [|done|done].
          exfalso. assert (c ∈ posti) as Hc; [|specialize (Hpost c Hc); lia].
          apply list_elem_of_split in Hin as (q1 & q2 & ->). rewrite E, <-app_assoc in Ea. simpl in Ea.
          rewrite E, <-app_assoc in HndA. simpl in HndA.
          destruct (NoDup_split addr q1 u (q2 ++ c :: post) prei u posti HndA Ea eq_refl) as (_ & _ & <-). set_solver. }
        by rewrite !(ptr_found i q1 u q2).
    + apply linked_frame; [|apply linked_frame; [set_solver|done]]. intros Hin. apply (Hdisj (addr u)); [|done]. rewrite Ea. set_solver.
    + rewrite lookup_insert_ne by done. rewrite lookup_insert_eq. by rewrite fwd_step.
Qed.

Lemma link_ok n : ∀ i s, (n + i = L)%nat → stage i s →
  ∃ s', link nd update n i s = Val s' ∧ stage L s' ∧ ∃ hp, s' = set_heap hp s.
Proof using Hnd Hnew Hupd.
  induction n as [|n IH]; intros i s Hn Hs.
  { simpl in Hn. subst i. exists s. split_and!; [done|done|]. exists (heap s). by destruct s. }
  destruct (link_step i s ltac:(lia) Hs) as (u & s1 & s2 & Eu & Ef & E1 & E2 & Hs2 & hp & Ehp).
  destruct (IH (S i) s2 ltac:(lia) Hs2) as (s3 & E3 & Hs3 & hp' & Ehp'). exists s3. cbn [link]. rewrite Eu, Ef. cbn [mbind res_bind].
  rewrite E1. cbn [mbind res_bind]. rewrite E2. cbn [mbind res_bind]. split_and!; [done|done|]. exists hp'. by rewrite Ehp', Ehp.
Qed.
End link.

Lemma random_level_ok room : ∀ level rng, (level ≤ (random_level room level rng).1 ≤ level + room)%nat.
Proof.
  induction room as [|room IH]; intros level [|c rng]; simpl; try lia. destruct c; simpl; [|lia]. specialize (IH (S level) rng). lia.
Qed.

Lemma raise_ok hd n : ∀ i update, (i + n ≤ length update)%nat →
  ∃ update', raise hd n i update = Val update' ∧ length update' = length update ∧
    ∀ j, update' !! j = if decide (i ≤ j < i + n)%nat then Some hd else update !! j.
Proof.
  induction n as [|n IH]; intros i update Hl; cbn [raise].
  { exists update. split_and!; [done|done|]. intros j. rewrite decide_False by lia. done. }
  rewrite (proj2 (Nat.ltb_lt _ _)) by lia. destruct (IH (S i) (<[i := hd]> update)) as (u & E & Hlen & Hu); [rewrite length_insert; lia|].
  exists u. rewrite length_insert in Hlen. split_and!; [done|done|]. intros j. rewrite Hu. destruct (decide (j = i)) as [->|].
  - rewrite decide_False by lia. rewrite decide_True by lia. apply list_lookup_insert_eq. lia.
  - rewrite list_lookup_insert_ne by done. repeat case_decide; (done || lia).
Qed.

Lemma ptr_found_zero j post nd k v b : ptr j (post ++ mkCell nd k v 0 :: b) = ptr j (post ++ b).
Proof. induction post as [|d post IH]; simpl; [done|]. by rewrite IH. Qed.

Lemma ptr_same j post c c' tl : addr c = addr c' → height c = height c' → ptr j (post ++ c :: tl) = ptr j (post ++ c' :: tl).
Proof. intros Ha Hh. induction post as [|d post IH]; simpl; [by rewrite Ha, Hh|by rewrite IH]. Qed.

(** A value replaced in its cell. *)
Lemma overwrite_ok s hd a c b v :
  rep s hd (a ++ c :: b) →
  rep (set_heap (<[addr c := mkNode (ckey c) v (fwd (height c) b)]> (heap s)) s) hd (a ++ mkCell (addr c) (ckey c) v (height c) :: b).
Proof.
  intros [Hl Hnd Hs Hh Hhd Hht Hsz Hf]. set (c' := mkCell _ _ _ _).
  assert (Ekey : (kv <$> a ++ c' :: b).*1 = (kv <$> a ++ c :: b).*1) by (rewrite !fmap_app; done).
  assert (Eaddr : addr <$> hd :: a ++ c' :: b = addr <$> hd :: a ++ c :: b) by (rewrite !fmap_cons, !fmap_app; done).
  split; cbn [heap next_address max_height_ current_height_ head_ size_ set_heap]; try done.
  - change (hd :: a ++ c :: b) with ((hd :: a) ++ c :: b) in Hl, Hnd. change (hd :: a ++ c' :: b) with ((hd :: a) ++ c' :: b).
    apply linked_app in Hl as [HA HB]. apply linked_app. split.
    + apply linked_frame.
      * rewrite fmap_app in Hnd. apply NoDup_app in Hnd as (_ & Hd & _). intros Hin. apply (Hd _ Hin). set_solver.
      * intros pre d post E. rewrite (HA pre d post E). unfold node. do 2 f_equal. apply fwd_ext. intros j _.
        rewrite !app_nil_r. by apply ptr_same.
    + change (c' :: b) with ([c'] ++ b). change (c :: b) with ([c] ++ b) in HB. apply linked_app in HB as [HC HB]. apply linked_app. split.
      * intros pre d post E. destruct pre as [|? [|]]; [|done..]. injection E as <- <-. simpl. rewrite lookup_insert_eq.
        unfold node. simpl. by rewrite app_nil_r.
      * apply linked_frame; [|done]. rewrite fmap_app in Hnd. apply NoDup_app in Hnd as (_ & _ & Hd). rewrite fmap_cons in Hd.
        by apply NoDup_cons in Hd as [? _].
  - by rewrite Eaddr.
  - by rewrite Ekey.
  - intros d [Hd|[->|Hd]%elem_of_cons]%elem_of_app; [apply Hh; set_solver|apply (Hh c); set_solver|apply Hh; set_solver].
  - rewrite Hsz, !length_app. done.
  - intros d [->|[Hd|[->|Hd]%elem_of_cons]%elem_of_app]%elem_of_cons; [apply Hf; set_solver..|apply (Hf c); set_solver|apply Hf; set_solver].
Qed.

Lemma insert_node_ok s hd a b k v update :
  rep s hd (a ++ b) → (∀ c, c ∈ a → ckey c < k) → (∀ c, c ∈ b → k < ckey c) → length update = max_height_ s →
  (∀ i, (i < max_height_ s)%nat → ∃ prei u posti, update !! i = Some (addr u) ∧ hd :: a = prei ++ u :: posti ∧
    (i < height u)%nat ∧ ∀ x, x ∈ posti → (height x ≤ i)%nat) →
  ∃ s' c, insert_node k v update s = Val s' ∧ rep s' hd (a ++ c :: b) ∧ kv c = (k, v) ∧ max_height_ s' = max_height_ s.
Proof.
  intros [Hl Hnd Hs Hh [Hhd1 Hhd2] Hht Hsz Hf] Ha Hb Hlen Hupd. unfold insert_node, RandomLevel.
  pose proof (random_level_ok (max_height_ s - 1) 1 (rng_ s)) as Hlev.
  destruct (random_level (max_height_ s - 1) 1 (rng_ s)) as [L rng]. cbn [fst] in Hlev.
  cbn [heap next_address max_height_ current_height_ head_ size_ rng_].
  set (nd := next_address s). change (hd :: a ++ b) with ((hd :: a) ++ b) in Hl, Hnd, Hf.
  assert (Hnew : nd ∉ addr <$> (hd :: a) ++ b).
  { intros (c & E & Hc)%list_elem_of_fmap. specialize (Hf c Hc). unfold nd in E. lia. }
  assert (∃ update', (if (current_height_ s <? L)%nat then raise (head_ s) (L - current_height_ s) (current_height_ s) update
      else Val update) = Val update' ∧
    ∀ i, (i < L)%nat → ∃ prei u posti, update' !! i = Some (addr u) ∧ hd :: a = prei ++ u :: posti ∧
      (i < height u)%nat ∧ ∀ x, x ∈ posti → (height x ≤ i)%nat) as (update' & -> & Hupd').
  { destruct (Nat.ltb_spec (current_height_ s) L) as [Hlt|Hge]; [|exists update; split; [done|intros i Hi; apply Hupd; lia]].
    destruct (raise_ok (head_ s) (L - current_height_ s) (current_height_ s) update) as (u & E & _ & Hu); [lia|].
    exists u. split; [done|]. intros i Hi. rewrite Hu. case_decide; [|apply Hupd; lia].
    exists [], hd, a. split_and!; [by rewrite Hhd1|done|lia|]. intros x Hx. destruct (Hh x ltac:(set_solver)). lia. }
  cbn [mbind res_bind]. set (s1 := mk _ _ _ _ _ _ _).
  apply linked_app in Hl as [HA HB]. rewrite app_nil_r in HA.
  destruct (link_ok hd a b nd k v L update' Hnd Hnew Hupd' L 0 s1) as (s2 & -> & (HA2 & HB2 & Hx2) & hp & Ehp); [lia| |].
  { rewrite fmap_app in Hnew. split_and!.
    - apply linked_frame; [set_solver|]. intros pre c post E. rewrite (HA pre c post E). unfold node. do 2 f_equal. apply fwd_ext.
      intros j _. symmetry. apply ptr_found_zero.
    - apply linked_frame; [set_solver|done].
    - simpl. rewrite lookup_insert_eq. by rewrite Nat.sub_0_r. }
  rewrite Ehp in *. cbn [mbind res_bind]. eexists _, (x nd k v L). split; [done|].
  cbn [heap next_address max_height_ current_height_ head_ size_ set_heap s1] in *. split_and!; [|done|done].
  rewrite Nat.sub_diag in Hx2. simpl in Hx2. rewrite app_nil_r in Hx2.
  split; cbn [heap next_address max_height_ current_height_ head_ size_].
  - change (hd :: a ++ x nd k v L :: b) with ((hd :: a) ++ x nd k v L :: b). apply linked_app. rewrite app_nil_r. split; [done|].
    change (x nd k v L :: b) with ([x nd k v L] ++ b). apply linked_app. split; [|done].
    intros pre d post E. destruct pre as [|? [|]]; [|done..]. injection E as <- <-. rewrite app_nil_r. exact Hx2.
  - rewrite fmap_cons, fmap_app, fmap_cons. rewrite fmap_app, fmap_cons in Hnd. rewrite fmap_app, fmap_cons in Hnew.
    change (addr (x nd k v L)) with nd. rewrite <-Permutation_middle.
    change (addr hd :: nd :: (addr <$> a) ++ (addr <$> b)) with ([addr hd] ++ nd :: (addr <$> a) ++ (addr <$> b)).
    rewrite <-Permutation_middle. by constructor.
  - rewrite fmap_app, fmap_cons. change (kv (x nd k v L)) with (k, v). rewrite <-ins_between.
    + rewrite <-fmap_app. by apply sorted_ins.
    + by apply kv_apart.
    + intros e (c & -> & Hc)%list_elem_of_fmap. by apply Hb.
  - intros c [Hc|[->|Hc]%elem_of_cons]%elem_of_app; [|simpl; lia|].
    + destruct (Hh c ltac:(set_solver)). lia.
    + destruct (Hh c ltac:(set_solver)). lia.
  - done.
  - lia.
  - rewrite Hsz, !length_app. simpl. lia.
  - intros c Hc. assert (c = x nd k v L ∨ c ∈ (hd :: a) ++ b) as [->|Hin] by set_solver; [simpl; lia|]. specialize (Hf c Hin). unfold nd. lia.
Qed.

Lemma list_Insert_ok s es k v :
  holds s es → ∃ s', Insert k v s = Val s' ∧ holds s' (ins k v es) ∧ max_height_ s' = max_height_ s.
Proof.
  intros (hd & cs & Hrep & ->). destruct (search_ok s hd cs k Hrep) as (a & b & d & update & Ecs & Ha & Hb & Eu & _ & Ef & Hlen & Hupd).
  unfold Insert. rewrite Eu. cbn [mbind res_bind]. rewrite Ef. cbn [mbind res_bind]. subst cs.
  pose proof (rp_sorted _ _ _ Hrep) as Hs. rewrite fmap_app in Hs. rewrite fmap_app, ins_app_lt by (by apply kv_apart).
  assert (Hnew : (∃ c b', b = c :: b' ∧ ckey c = k) ∨ ∀ c, c ∈ b → k < ckey c).
  { destruct b as [|c b]; [right; set_solver|]. rewrite fmap_cons in Hs.
    destruct (sorted_halves _ (ckey c) (cval c) _ Hs) as (_ & [_ Hgt]%sorted_cons_inv & _ & _).
    assert (k ≤ ckey c) by (apply Hb; set_solver). destruct (Z.eq_dec (ckey c) k); [left; by exists c, b|right].
    intros c' [->|Hc]%elem_of_cons; [lia|]. specialize (Hgt (kv c') ltac:(by apply list_elem_of_fmap_2)). simpl in Hgt. lia. }
  pose proof (rp_linked _ _ _ Hrep) as Hl. destruct Hnew as [(c & b' & -> & Ek)|Hgt].
  - change (addr <$> head (c :: b')) with (Some (addr c)). cbn match. rewrite (node_at_ok s (hd :: a) c b' Hl). cbn [mbind res_bind].
    cbn [node key]. rewrite Ek, Z.eqb_refl. eexists. split; [done|]. split; [|done].
    exists hd, (a ++ mkCell (addr c) (ckey c) v (height c) :: b'). split.
    + by apply (overwrite_ok s hd a c b' v).
    + rewrite fmap_app, !fmap_cons. simpl. rewrite Ek. by rewrite Z.ltb_irrefl, Z.eqb_refl.
  - assert (E : (existing ← match addr <$> head b with
       | Some a => n ← node_at s a; Val (if key n =? k then Some (a, n) else None)
       | None => Val None
       end; Val existing) = (Val None : res (option (nat * Node V)))).
    { destruct b as [|c b]; [done|]. change (addr <$> head (c :: b)) with (Some (addr c)). cbn match.
      rewrite (node_at_ok s (hd :: a) c b Hl). cbn [mbind res_bind node key].
      by rewrite (proj2 (Z.eqb_neq (ckey c) k)) by (specialize (Hgt c ltac:(set_solver)); lia). }
    destruct (match addr <$> head b with Some _ => _ | None => _ end) as [o| | |]; [|done..]. cbn [mbind res_bind] in E |- *.
    injection E as ->.
    destruct (insert_node_ok s hd a b k v update Hrep Ha Hgt Hlen Hupd) as (s' & c & -> & Hr & Ec & Em).
    exists s'. split_and!; [done| |done]. exists hd, (a ++ c :: b). split; [done|]. rewrite fmap_app, fmap_cons, Ec.
    rewrite <-(ins_app_lt k v (kv <$> a)) by (by apply kv_apart). apply ins_between; [by apply kv_apart|].
    intros e (c' & -> & Hc)%list_elem_of_fmap. by apply Hgt.
Qed.

Lemma list_New_ok n rng v0 : (1 ≤ n)%nat → holds (New n rng v0) [].
Proof.
  intros Hn. exists (mkCell 0 0 v0 n), []. split; [|done]. split; simpl; try done; try set_solver.
  - intros pre c post E. destruct pre as [|? [|]]; [|done..]. injection E as <- <-. simpl. rewrite lookup_singleton_eq.
    unfold node. simpl. f_equal. f_equal. unfold fwd. apply list_eq. intros i. rewrite list_lookup_fmap.
    destruct (decide (i < n)%nat).
    + by rewrite lookup_replicate_2, lookup_seq_lt.
    + rewrite (proj2 (lookup_ge_None (replicate _ _) _)) by (rewrite length_replicate; lia). by rewrite lookup_seq_ge by lia.
  - repeat constructor. set_solver.
  - constructor.
Qed.
End theory.
End SkipListTheory.
