(* ===== verification/MemTable.v ===== *)
(** * LSMValue and MemTable (lsm/lsm_value.h, lsm/memtable.h) *)

From S2P Require Import Prelude Entries Bytes SkipList SkipListTheory.

Record LSMValue := mkLSMValue {
  lsm_value : string;
  deleted : bool;
}.

#[global] Instance lsm_value_eq_dec : EqDecision LSMValue.
Proof. solve_decision. Defined.

Definition LSM_Value (v : string) : LSMValue := mkLSMValue v false.
Definition LSM_Tombstone : LSMValue := mkLSMValue EmptyString true.

(** What an entry says of its key. *)
Definition live (v : LSMValue) : option string := if deleted v then None else Some (lsm_value v).

Module MemTable.

Record t := mk {
  list_ : SkipList.t LSMValue;
  approximate_size_bytes_ : Z;
}.

(** The default arguments of [SkipList]: at most 16 levels. *)
Definition New (rng : list bool) : t := mk (SkipList.New 16 rng (mkLSMValue EmptyString false)) 0.

Definition Put (key : KeyType) (value : string) (m : t) : res t :=
  l ← SkipList.Insert key (LSM_Value value) (list_ m);
  Val (mk l (approximate_size_bytes_ m + 8 + ssize value)).

Definition Delete (key : KeyType) (m : t) : res t :=
  l ← SkipList.Insert key LSM_Tombstone (list_ m);
  Val (mk l (approximate_size_bytes_ m + 8)).

Definition Get (key : KeyType) (m : t) : res (option LSMValue) := SkipList.Find key (list_ m).

Definition ApproximateSizeBytes (m : t) : Z := approximate_size_bytes_ m.
Definition EntryCount (m : t) : Z := SkipList.Size (list_ m).

Definition Begin (m : t) : res (option nat) := SkipList.Begin (list_ m).
Definition LowerBound (key : KeyType) (m : t) : res (option nat) := SkipList.LowerBound key (list_ m).

(** ** Theory *)

(** The memtable holds the entries [es], values and tombstones. *)
Record holds (m : t) (es : list (KeyType * LSMValue)) : Prop := {
  hd_list : SkipListTheory.holds (list_ m) es;
  hd_size : Z.of_nat (length es) ≤ approximate_size_bytes_ m;
}.

Lemma holds_sorted m es : holds m es → sorted es.
Proof. intros [(hd & cs & Hr & ->) _]. apply Hr. Qed.

Lemma memtable_New_ok rng : holds (New rng) [].
Proof. split; [apply SkipListTheory.list_New_ok; lia|done]. Qed.

Lemma EntryCount_ok m es : holds m es → EntryCount m = Z.of_nat (length es).
Proof.
  intros [(hd & cs & Hr & ->) _]. unfold EntryCount, SkipList.Size. rewrite (SkipListTheory.rp_size _ _ _ Hr).
  by rewrite length_fmap.
Qed.

Lemma insert_ok m es k v n :
  holds m es → 1 ≤ n →
  ∃ l, SkipList.Insert k v (list_ m) = Val l ∧ holds (mk l (approximate_size_bytes_ m + n)) (ins k v es).
Proof.
  intros Hm Hn. pose proof (holds_sorted m es Hm) as Hs. destruct Hm as [Hl Hz].
  destruct (SkipListTheory.list_Insert_ok _ _ k v Hl) as (l & E & Hl' & _). exists l. split; [done|]. split; [done|].
  simpl. rewrite length_ins by done. destruct (look k es); lia.
Qed.

Lemma Put_ok m es k v :
  holds m es → ∃ m', Put k v m = Val m' ∧ holds m' (ins k (LSM_Value v) es) ∧
    approximate_size_bytes_ m' = approximate_size_bytes_ m + 8 + ssize v.
Proof.
  intros Hm. pose proof (ssize_nonneg v). destruct (insert_ok m es k (LSM_Value v) (8 + ssize v) Hm ltac:(lia)) as (l & E & Hl).
  unfold Put. rewrite E. cbn [mbind res_bind]. eexists. split; [done|]. split; [|done]. by rewrite <-Z.add_assoc.
Qed.

Lemma Delete_ok m es k :
  holds m es → ∃ m', Delete k m = Val m' ∧ holds m' (ins k LSM_Tombstone es) ∧
    approximate_size_bytes_ m' = approximate_size_bytes_ m + 8.
Proof.
  intros Hm. destruct (insert_ok m es k LSM_Tombstone 8 Hm ltac:(lia)) as (l & E & Hl).
  unfold Delete. rewrite E. cbn [mbind res_bind]. eexists. split; [done|]. by split.
Qed.

Lemma memtable_Get_ok m es k : holds m es → Get k m = Val (look k es).
Proof. intros [Hl _]. by apply SkipListTheory.Find_ok. Qed.

End MemTable.
