(* ===== verification/Merge.v ===== *)
(** * LSMCursor and LSMMergeIterator (lsm/lsm_cursor.h, merge_iterator.h, merge_iterator.cpp)

    A k-way merge of sorted cursors.  The cursors read, and may change, a
    shared state [W] (the tables' buffer pools). *)

From S2P Require Import Prelude Entries MemTable.

(** ** The interface of a cursor *)

Class LSMCursor (W C : Type) := {
  cursor_valid : C → bool;
  cursor_key : C → M W KeyType;
  cursor_value : C → M W LSMValue;
  cursor_next : C → M W C;
}.

(** ** The heap: a [std::priority_queue] *)

Record HeapItem := mkItem {
  item_key : KeyType;
  priority : nat;
}.

(** [Compare]: [a] is below [b] in the queue. *)
Definition Compare (a b : HeapItem) : bool :=
  if negb (item_key a =? item_key b) then item_key b <? item_key a else (priority b <? priority a)%nat.

(** The element that is below no other, and what is left without it. *)
Fixpoint take_top (x : HeapItem) (h : list HeapItem) : HeapItem * list HeapItem :=
  match h with
  | [] => (x, [])
  | y :: h => let '(t, r) := take_top (if Compare x y then y else x) h in (t, (if Compare x y then x else y) :: r)
  end.

Definition top_pop (h : list HeapItem) : option (HeapItem * list HeapItem) :=
  match h with [] => None | x :: h => Some (take_top x h) end.

Module LSMMergeIterator.
Section merge.
Context {W C : Type} `{!LSMCursor W C}.

Record t := mk {
  cursors_ : list C;
  heap_ : list HeapItem;
  current_key_ : KeyType;
  current_value_ : LSMValue;
  valid_ : bool;
}.

(** [cursors_[i]] *)
Definition cursor_at (cs : list C) (i : nat) : M W C := λ w, match cs !! i with Some c => (Val c, w) | None => (Undef, w) end.

(** Moves cursor [i] and puts it back on the heap unless it is at its end. *)
Definition step_cursor (cs : list C) (h : list HeapItem) (i : nat) : M W (list C * list HeapItem) :=
  c ← cursor_at cs i;
  c ← cursor_next c;
  let cs := <[i := c]> cs in
  if cursor_valid c then k ← cursor_key c; mret (cs, mkItem k i :: h) else mret (cs, h).

(** The loop that discards the shadowed entries of [key]. *)
Fixpoint discard (key : KeyType) (fuel : nat) (cs : list C) (h : list HeapItem) : M W (list C * list HeapItem) :=
  match top_pop h with
  | Some (x, h') =>
      if item_key x =? key then
        match fuel with
        | O => λ w, (NoFuel, w)
        | S fuel => '(cs, h) ← step_cursor cs h' (priority x); discard key fuel cs h
        end
      else mret (cs, h)
  | None => mret (cs, h)
  end.

(** Each cursor has the key at most once: one round per cursor is enough. *)
Definition Advance (m : t) : M W t :=
  match top_pop (heap_ m) with
  | None => mret (mk (cursors_ m) (heap_ m) (current_key_ m) (current_value_ m) false)
  | Some (winner, h) =>
      let key := item_key winner in
      c ← cursor_at (cursors_ m) (priority winner);
      v ← cursor_value c;
      '(cs, h) ← step_cursor (cursors_ m) h (priority winner);
      '(cs, h) ← discard key (length cs) cs h;
      mret (mk cs h key v true)
  end.

(** The heap of the constructor: the cursors from index [i] on. *)
Fixpoint fill (i : nat) (cs : list C) (h : list HeapItem) : M W (list HeapItem) :=
  match cs with
  | [] => mret h
  | c :: cs => if cursor_valid c then k ← cursor_key c; fill (S i) cs (mkItem k i :: h) else fill (S i) cs h
  end.

Definition New (cursors : list C) : M W t :=
  h ← fill 0 cursors [];
  Advance (mk cursors h 0 (mkLSMValue EmptyString false) false).

Definition Valid (m : t) : bool := valid_ m.
Definition Key (m : t) : KeyType := current_key_ m.
Definition Value (m : t) : LSMValue := current_value_ m.
Definition Next (m : t) : M W t := Advance m.

End merge.
Arguments t : clear implicits.
End LSMMergeIterator.
