(* ===== verification/MergeTheory.v ===== *)
(** * Theory of the merge: one entry per key, the first cursor's, in order *)

From S2P Require Import Prelude Entries MemTable Merge SkipListTheory.

(** ** The merged entries *)

(** [new] laid over [old]. *)
Definition overlay {V} (new old : list (Z * V)) : list (Z * V) := foldr (λ e acc, ins e.1 e.2 acc) old new.

(** The lists in order of precedence. *)
Fixpoint merged {V} (ess : list (list (Z * V))) : list (Z * V) :=
  match ess with
  | [] => []
  | es :: ess => overlay es (merged ess)
  end.

Fixpoint first_look {V} (k : Z) (ess : list (list (Z * V))) : option V :=
  match ess with
  | [] => None
  | es :: ess => match look k es with Some v => Some v | None => first_look k ess end
  end.

Section merged.
Context {V : Type}.
Implicit Types (es : list (Z * V)) (ess : list (list (Z * V))).

Lemma sorted_overlay es old : sorted old → sorted (overlay es old).
Proof. intros Ho. induction es as [|[k v] es IH]; simpl; [done|]. by apply sorted_ins. Qed.

Lemma look_overlay k es old : sorted old → look k (overlay es old) = match look k es with Some v => Some v | None => look k old end.
Proof.
  intros Ho. induction es as [|[k' v] es IH]; simpl; [done|]. rewrite look_ins by (by apply sorted_overlay).
  destruct (Z.eqb_spec k' k); case_decide; (done || lia).
Qed.

Lemma sorted_merged ess : sorted (merged ess).
Proof. induction ess as [|es ess IH]; simpl; [constructor|]. by apply sorted_overlay. Qed.

Lemma look_merged k ess : look k (merged ess) = first_look k ess.
Proof. induction ess as [|es ess IH]; simpl; [done|]. rewrite look_overlay by apply sorted_merged. by rewrite IH. Qed.

Lemma first_look_Some k ess v : first_look k ess = Some v → ∃ es, es ∈ ess ∧ look k es = Some v.
Proof.
  induction ess as [|es ess IH]; simpl; [done|]. destruct (look k es) eqn:E.
  - intros [= ->]. exists es. split; [left|done].
  - intros (es' & ? & ?)%IH. exists es'. split; [by right|done].
Qed.

Lemma first_look_at k ess i es v :
  ess !! i = Some es → look k es = Some v → (∀ j es', (j < i)%nat → ess !! j = Some es' → look k es' = None) → first_look k ess = Some v.
Proof.
  revert i; induction ess as [|e ess IH]; intros [|i] Hi Hl Hb; try done; simpl in *.
  - injection Hi as ->. by rewrite Hl.
  - rewrite (Hb 0%nat e) by (done || lia). apply (IH i); [done|done|]. intros j es' Hj Hes. apply (Hb (S j)); [lia|done].
Qed.

Lemma first_look_del k k' ess : first_look k' (del k <$> ess) = if decide (k = k') then None else first_look k' ess.
Proof.
  induction ess as [|es ess IH]; [by case_decide|]. rewrite fmap_cons. cbn [first_look]. rewrite look_del, IH. case_decide; [done|]. by destruct (look k' es).
Qed.

Lemma first_look_app k ess ess' :
  first_look k (ess ++ ess') = match first_look k ess with Some v => Some v | None => first_look k ess' end.
Proof. induction ess as [|es ess IH]; simpl; [done|]. rewrite IH. by destruct (look k es). Qed.

(** The smallest key, from the first list that has it, comes first. *)
Lemma merged_head ess i k v es :
  (∀ es, es ∈ ess → sorted es) → (∀ es e, es ∈ ess → e ∈ es → k ≤ e.1) → ess !! i = Some ((k, v) :: es) →
  (∀ j es', (j < i)%nat → ess !! j = Some es' → look k es' = None) →
  merged ess = (k, v) :: merged (del k <$> ess).
Proof.
  intros Hs Hk Hi Hb. assert (Hgt : ∀ e, e ∈ merged (del k <$> ess) → k < e.1).
  { intros [k' v'] He. apply look_elem in He; [|apply sorted_merged]. rewrite look_merged, first_look_del in He.
    case_decide as Hne; [done|]. apply first_look_Some in He as (es' & Hin & Hl). apply look_elem in Hl; [|by apply Hs].
    specialize (Hk es' _ Hin Hl). simpl in *. lia. }
  apply look_ext; [apply sorted_merged| |].
  - rewrite fmap_cons. constructor; [apply sorted_merged|]. apply Forall_fmap, Forall_forall. intros e He. by apply Hgt.
  - intros k'. simpl. rewrite !look_merged, first_look_del. destruct (Z.eqb_spec k k') as [<-|Hne].
    + apply (first_look_at k ess i ((k, v) :: es)); [done| |done]. simpl. by rewrite Z.eqb_refl.
    + by rewrite decide_False.
Qed.

Lemma merged_nil ess : (∀ es, es ∈ ess → es = []) → merged ess = [].
Proof.
  induction ess as [|es ess IH]; intros H; [done|]. simpl. rewrite (H es) by set_solver. simpl. apply IH. set_solver.
Qed.
End merged.

(** ** The queue *)

Definition item_le (a b : HeapItem) : Prop :=
  item_key a < item_key b ∨ item_key a = item_key b ∧ (priority a ≤ priority b)%nat.

Lemma Compare_true a b : Compare a b = true → item_le b a.
Proof.
  unfold Compare, item_le. destruct (Z.eqb_spec (item_key a) (item_key b)) as [->|]; simpl; [intros ?%Nat.ltb_lt|intros ?%Z.ltb_lt]; lia.
Qed.

Lemma Compare_false a b : Compare a b = false → item_le a b.
Proof.
  unfold Compare, item_le. destruct (Z.eqb_spec (item_key a) (item_key b)) as [->|]; simpl; [intros ?%Nat.ltb_ge|intros ?%Z.ltb_ge]; lia.
Qed.

Lemma take_top_ok h : ∀ x t r, take_top x h = (t, r) → x :: h ≡ₚ t :: r ∧ ∀ y, y ∈ x :: h → item_le t y.
Proof.
  induction h as [|y h IH]; intros x t r; simpl.
  - intros [= <- <-]. split; [done|]. intros y ->%list_elem_of_singleton. right. lia.
  - set (w := if Compare x y then y else x). set (z := if Compare x y then x else y).
    assert (Hp : x :: y :: h ≡ₚ z :: w :: h) by (unfold w, z; destruct (Compare x y); [done|apply Permutation_swap]).
    assert (Hwz : item_le w z) by (unfold w, z; destruct (Compare x y) eqn:E; [by apply Compare_true|by apply Compare_false]).
    destruct (take_top w h) as [t' r'] eqn:E. intros [= <- <-]. destruct (IH _ _ _ E) as [Hp' Hmin]. split.
    + rewrite Hp, Hp'. apply Permutation_swap.
    + intros q Hq. rewrite Hp in Hq. apply elem_of_cons in Hq as [->|Hq]; [|by apply Hmin].
      specialize (Hmin w ltac:(set_solver)). unfold item_le in *. lia.
Qed.

(** ** Cursors that yield lists *)

Class CursorSpec (W C : Type) `{!LSMCursor W C} := {
  yields : W → list C → list (list (Z * LSMValue)) → Prop;
  yields_length w cs ess : yields w cs ess → length cs = length ess;
  yields_sorted w cs ess es : yields w cs ess → es ∈ ess → sorted es;
  cursor_valid_spec w cs ess i c es :
    yields w cs ess → cs !! i = Some c → ess !! i = Some es → cursor_valid c = bool_decide (es ≠ []);
  cursor_key_spec w cs ess i c k v es :
    yields w cs ess → cs !! i = Some c → ess !! i = Some ((k, v) :: es) → cursor_key c w = (Val k, w);
  cursor_value_spec w cs ess i c k v es :
    yields w cs ess → cs !! i = Some c → ess !! i = Some ((k, v) :: es) → cursor_value c w = (Val v, w);
  cursor_next_spec w cs ess i c e es :
    yields w cs ess → cs !! i = Some c → ess !! i = Some (e :: es) →
    ∃ c' w', cursor_next c w = (Val c', w') ∧ yields w' (<[i := c']> cs) (<[i := es]> ess);
}.

Module MergeTheory.
Import LSMMergeIterator.
Section merge.
Context {W C : Type} `{!LSMCursor W C, !CursorSpec W C}.
Implicit Types (ess : list (list (Z * LSMValue))) (cs : list C) (h : list HeapItem) (w : W).

(** The heap has the heads of the lists. *)
Record heap_rep h ess : Prop := {
  hr_nodup : NoDup (priority <$> h);
  hr_items : ∀ k i, mkItem k i ∈ h ↔ ∃ v es, ess !! i = Some ((k, v) :: es);
}.

Lemma heap_perm h h' ess : h ≡ₚ h' → heap_rep h ess → heap_rep h' ess.
Proof. intros Hp [Hn Hi]. split; [by rewrite <-Hp|]. intros k i. by rewrite <-Hp. Qed.

(** The popped item's list is stepped: it is back with its next key, or gone. *)
Lemma heap_step h k i v es ess :
  heap_rep (mkItem k i :: h) ess → ess !! i = Some ((k, v) :: es) →
  heap_rep (match es with (k', _) :: _ => mkItem k' i :: h | [] => h end) (<[i := es]> ess).
Proof.
  intros [Hn Hi] Hes. rewrite fmap_cons in Hn. apply NoDup_cons in Hn as [Hni Hn]. simpl in Hni.
  assert (Hother : ∀ k' j, mkItem k' j ∈ h ↔ j ≠ i ∧ ∃ v es, ess !! j = Some ((k', v) :: es)).
  { intros k' j. specialize (Hi k' j). rewrite elem_of_cons in Hi. split.
    - intros Hin. split; [intros ->; apply Hni; by apply (list_elem_of_fmap_2 priority) in Hin|]. apply Hi. by right.
    - intros [Hne Hj]. apply Hi in Hj as [[= -> ->]|?]; done. }
  assert (Hlt : (i < length ess)%nat) by (by eapply lookup_lt_Some). split.
  - destruct es as [|[k' v'] es]; [done|]. rewrite fmap_cons. by constructor.
  - intros k' j. destruct (decide (j = i)) as [->|Hne].
    + rewrite list_lookup_insert_eq by done. destruct es as [|[k1 v1] es].
      * split; [|naive_solver]. by intros [? _]%Hother.
      * rewrite elem_of_cons. split.
        -- intros [[= ->]|[? _]%Hother]; [eauto|done].
        -- intros (? & ? & [= -> -> ->]). by left.
    + rewrite list_lookup_insert_ne by done. destruct es as [|[k1 v1] es]; rewrite ?elem_of_cons, Hother; naive_solver.
Qed.

Lemma step_cursor_ok w cs ess h k i v es :
  yields w cs ess → heap_rep (mkItem k i :: h) ess → ess !! i = Some ((k, v) :: es) →
  ∃ cs' h' w', step_cursor cs h i w = (Val (cs', h'), w') ∧ yields w' cs' (<[i := es]> ess) ∧ heap_rep h' (<[i := es]> ess).
Proof.
  intros Hy Hh Hi. pose proof (heap_step h k i v es ess Hh Hi) as Hh'. pose proof (yields_length _ _ _ Hy) as Hlen.
  assert (Hlt : (i < length ess)%nat) by (by eapply lookup_lt_Some).
  destruct (lookup_lt_is_Some_2 cs i) as [c Hc]; [lia|].
  destruct (cursor_next_spec w cs ess i c (k, v) es Hy Hc Hi) as (c' & w' & En & Hy').
  assert (Hc' : <[i := c']> cs !! i = Some c') by (apply list_lookup_insert_eq; lia).
  assert (Hi' : <[i := es]> ess !! i = Some es) by (by apply list_lookup_insert_eq).
  assert (Ec : cursor_at cs i w = (Val c, w)) by (unfold cursor_at; by rewrite Hc).
  pose proof (cursor_valid_spec w' _ _ i c' es Hy' Hc' Hi') as Hv. unfold step_cursor. mrun Ec. mrun En. rewrite Hv.
  destruct es as [|[k' v'] es].
  - rewrite bool_decide_eq_false_2 by (by intros []). by eexists _, _, _.
  - rewrite bool_decide_eq_true_2 by done. mrun (cursor_key_spec w' _ _ i c' k' v' es Hy' Hc' Hi'). by eexists _, _, _.
Qed.

(** How many lists have [k] at their head. *)
Definition heads (k : KeyType) ess : nat := length (filter (λ es, fst <$> head es = Some k) ess).

Lemma heads_step k ess i v es :
  ess !! i = Some ((k, v) :: es) → fst <$> head es ≠ Some k → heads k ess = S (heads k (<[i := es]> ess)).
Proof.
  intros Hi Hne. unfold heads. pose proof (lookup_lt_Some _ _ _ Hi).
  rewrite insert_take_drop by done. rewrite <-(take_drop_middle ess i ((k, v) :: es) Hi) at 1.
  rewrite !filter_app, !length_app. rewrite filter_cons_True by done. rewrite filter_cons_False by done. simpl. lia.
Qed.

Lemma del_tail k v (es : list (Z * LSMValue)) : sorted ((k, v) :: es) → del k ((k, v) :: es) = es ∧ del k es = es ∧ fst <$> head es ≠ Some k.
Proof.
  intros [Hs Hk]%sorted_cons_inv. assert (E : del k es = es) by (apply del_none; intros e He; specialize (Hk e He); lia).
  split_and!; [|done|].
  - unfold del. rewrite filter_cons_False by (simpl; lia). exact E.
  - destruct es as [|[k' v'] es]; [done|]. simpl. specialize (Hk (k', v') ltac:(set_solver)). simpl in Hk. intros [= ->]. lia.
Qed.

Lemma del_insert k i v es ess :
  ess !! i = Some ((k, v) :: es) → sorted ((k, v) :: es) → del k <$> <[i := es]> ess = del k <$> ess.
Proof.
  intros Hi (E1 & E2 & _)%del_tail. rewrite list_fmap_insert, E2. apply list_insert_id. rewrite list_lookup_fmap, Hi. by apply (f_equal Some).
Qed.

Lemma heap_top h ess : heap_rep h ess →
  match top_pop h with
  | None => ∀ es, es ∈ ess → es = []
  | Some (mkItem k i, h') => heap_rep (mkItem k i :: h') ess ∧ (∃ v es, ess !! i = Some ((k, v) :: es)) ∧
      (∀ j k' v es, ess !! j = Some ((k', v) :: es) → k < k' ∨ k = k' ∧ (i ≤ j)%nat)
  end.
Proof.
  intros Hh. destruct h as [|x h]; simpl.
  - intros es (i & Hi)%list_elem_of_lookup. destruct es as [|[k v] es]; [done|].
    assert (mkItem k i ∈ []) as ?%elem_of_nil; [|done]. apply (hr_items _ _ Hh). eauto.
  - destruct (take_top x h) as [t r] eqn:E. destruct (take_top_ok h x t r E) as [Hp Hmin]. destruct t as [k i].
    pose proof (heap_perm _ _ _ Hp Hh) as Hh'. split_and!; [done|apply (hr_items _ _ Hh'); set_solver|].
    intros j k' v es Hj. assert (mkItem k' j ∈ x :: h) as Hin by (apply (hr_items _ _ Hh); eauto).
    specialize (Hmin _ Hin). unfold item_le in Hmin. simpl in Hmin. lia.
Qed.

(** Nothing is discarded when every list is past the key. *)
Lemma del_past k ess : (∀ es e, es ∈ ess → e ∈ es → k < e.1) → del k <$> ess = ess.
Proof.
  intros H. rewrite <-(list_fmap_id ess) at 2. apply list_fmap_ext. intros i es Hi. apply del_none. intros e He.
  specialize (H es e (list_elem_of_lookup_2 _ _ _ Hi) He). lia.
Qed.

Lemma heads_past k ess :
  (∀ es, es ∈ ess → sorted es) → (∀ j k' v es, ess !! j = Some ((k', v) :: es) → k < k') → ∀ es e, es ∈ ess → e ∈ es → k < e.1.
Proof.
  intros Hs Hk es e Hes He. pose proof (Hs es Hes) as Hse. apply list_elem_of_lookup in Hes as (j & Hj).
  destruct es as [|[k' v] es]; [by apply elem_of_nil in He|]. specialize (Hk _ _ _ _ Hj). apply sorted_cons_inv in Hse as [_ Hgt].
  apply elem_of_cons in He as [->|He]; [done|]. specialize (Hgt e He). lia.
Qed.

Lemma discard_ok k fuel : ∀ w cs ess h,
  yields w cs ess → heap_rep h ess → (∀ es e, es ∈ ess → e ∈ es → k ≤ e.1) → (heads k ess ≤ fuel)%nat →
  ∃ cs' h' w', discard k fuel cs h w = (Val (cs', h'), w') ∧ yields w' cs' (del k <$> ess) ∧ heap_rep h' (del k <$> ess).
Proof.
  induction fuel as [|fuel IH]; intros w cs ess h Hy Hh Hk Hf; cbn [discard]; pose proof (heap_top h ess Hh) as Ht.
  all: assert (Hs : ∀ es, es ∈ ess → sorted es) by (intros es; by eapply yields_sorted).
  all: destruct (top_pop h) as [[[k' i] h']|];
    [destruct Ht as (Hh' & (v & es & Hi) & Hmin); cbn [item_key priority]; destruct (Z.eqb_spec k' k) as [->|Hne]|].
  all: assert (Hpast : (∀ es e, es ∈ ess → e ∈ es → k < e.1) → ∃ cs' h' w', (mret (cs, h) : M W _) w = (Val (cs', h'), w') ∧
    yields w' cs' (del k <$> ess) ∧ heap_rep h' (del k <$> ess)) by (intros Hp; exists cs, h, w; by rewrite del_past).
  - exfalso. unfold heads in Hf. assert ((k, v) :: es ∈ filter (λ es, fst <$> head es = Some k) ess) as Hin.
    { apply list_elem_of_filter. split; [done|]. by eapply list_elem_of_lookup_2. }
    destruct (filter _ ess); [by apply elem_of_nil in Hin|simpl in Hf; lia].
  - apply Hpast, heads_past; [done|]. intros j k1 v1 es1 Hj. specialize (Hmin _ _ _ _ Hj).
    specialize (Hk _ (k', v) (list_elem_of_lookup_2 _ _ _ Hi) ltac:(left)). simpl in Hk. lia.
  - apply Hpast. intros es e Hes He. rewrite (Ht es Hes) in He. by apply elem_of_nil in He.
  - pose proof (Hs _ (list_elem_of_lookup_2 _ _ _ Hi)) as Hse.
    destruct (step_cursor_ok w cs ess h' k i v es Hy Hh' Hi) as (cs1 & h1 & w1 & E1 & Hy1 & Hh1).
    destruct (del_tail k v es Hse) as (_ & _ & Hhd).
    destruct (IH w1 cs1 (<[i := es]> ess) h1 Hy1 Hh1) as (cs2 & h2 & w2 & E2 & Hy2 & Hh2).
    + intros es' e (j & Hj)%list_elem_of_lookup He. destruct (decide (j = i)) as [->|Hji].
      * rewrite list_lookup_insert_eq in Hj by (by eapply lookup_lt_Some). injection Hj as <-.
        apply (Hk ((k, v) :: es)); [by eapply list_elem_of_lookup_2|by right].
      * rewrite list_lookup_insert_ne in Hj by done. apply (Hk es'); [by eapply list_elem_of_lookup_2|done].
    + rewrite (heads_step k ess i v es Hi Hhd) in Hf. lia.
    + exists cs2, h2, w2. rewrite (del_insert k i v es ess Hi Hse) in Hy2, Hh2. mrun E1. by rewrite E2.
  - apply Hpast, heads_past; [done|]. intros j k1 v1 es1 Hj. specialize (Hmin _ _ _ _ Hj).
    specialize (Hk _ (k', v) (list_elem_of_lookup_2 _ _ _ Hi) ltac:(left)). simpl in Hk. lia.
  - apply Hpast. intros es e Hes He. rewrite (Ht es Hes) in He. by apply elem_of_nil in He.
Qed.

(** ** The iterator *)

(** The iterator is on the first entry of [es], the rest is ahead. *)
Definition merging w (m : t C) (es : list (Z * LSMValue)) : Prop :=
  match es with
  | [] => valid_ m = false ∧ ∃ ess, yields w (cursors_ m) ess
  | (k, v) :: es => valid_ m = true ∧ current_key_ m = k ∧ current_value_ m = v ∧
      ∃ ess, yields w (cursors_ m) ess ∧ heap_rep (heap_ m) ess ∧ merged ess = es
  end.

Lemma Advance_ok w (m : t C) ess :
  yields w (cursors_ m) ess → heap_rep (heap_ m) ess → ∃ m' w', Advance m w = (Val m', w') ∧ merging w' m' (merged ess).
Proof.
  intros Hy Hh. pose proof (heap_top _ _ Hh) as Ht. unfold Advance.
  assert (Hs : ∀ es, es ∈ ess → sorted es) by (intros es; by eapply yields_sorted).
  destruct (top_pop (heap_ m)) as [[[k i] h]|].
  - destruct Ht as (Hh' & (v & es & Hi) & Hmin). cbn [item_key priority].
    pose proof (yields_length _ _ _ Hy) as Hlen. pose proof (lookup_lt_Some _ _ _ Hi).
    destruct (lookup_lt_is_Some_2 (cursors_ m) i) as [c Hc]; [lia|].
    assert (Ec : cursor_at (cursors_ m) i w = (Val c, w)) by (unfold cursor_at; by rewrite Hc). mrun Ec.
    mrun (cursor_value_spec w _ _ i c k v es Hy Hc Hi).
    destruct (step_cursor_ok w _ ess h k i v es Hy Hh' Hi) as (cs1 & h1 & w1 & E1 & Hy1 & Hh1). mrun E1.
    assert (Hge : ∀ es e, es ∈ ess → e ∈ es → k ≤ e.1).
    { intros es' e Hes He. assert (k - 1 < e.1); [|lia]. eapply (heads_past (k - 1) ess Hs); [|done|done].
      intros j k' v' es1 Hj. specialize (Hmin _ _ _ _ Hj). lia. }
    pose proof (Hs _ (list_elem_of_lookup_2 _ _ _ Hi)) as Hse.
    destruct (discard_ok k (length cs1) w1 cs1 (<[i := es]> ess) h1 Hy1 Hh1) as (cs2 & h2 & w2 & E2 & Hy2 & Hh2).
    + intros es' e (j & Hj)%list_elem_of_lookup He. destruct (decide (j = i)) as [->|Hji].
      * rewrite list_lookup_insert_eq in Hj by done. injection Hj as <-.
        apply (Hge ((k, v) :: es)); [by eapply list_elem_of_lookup_2|by right].
      * rewrite list_lookup_insert_ne in Hj by done. apply (Hge es'); [by eapply list_elem_of_lookup_2|done].
    + rewrite (yields_length _ _ _ Hy1). unfold heads. apply length_filter.
    + mrun E2. eexists _, _. split; [done|]. rewrite (del_insert k i v es ess Hi Hse) in Hy2, Hh2.
      rewrite (merged_head ess i k v es Hs Hge Hi).
      * split_and!; [done|done|done|]. by exists (del k <$> ess).
      * intros j es' Hj Hes. destruct es' as [|[k' v'] es']; [done|]. specialize (Hmin _ _ _ _ Hes).
        rewrite (look_past k); [done|]. pose proof (Hs _ (list_elem_of_lookup_2 _ _ _ Hes)) as [_ Hgt]%sorted_cons_inv.
        intros e [->|He]%elem_of_cons; [simpl; lia|]. specialize (Hgt e He). lia.
  - eexists _, _. split; [done|]. rewrite (merged_nil ess Ht). split; [done|]. by exists ess.
Qed.

Lemma fill_ok w ess cs0 cs : ∀ i h,
  yields w cs0 ess → (∀ j, cs !! j = cs0 !! (i + j)%nat) → NoDup (priority <$> h) →
  (∀ k j, mkItem k j ∈ h ↔ (j < i)%nat ∧ ∃ v es, ess !! j = Some ((k, v) :: es)) →
  ∃ h', fill i cs h w = (Val h', w) ∧ heap_rep h' ess.
Proof.
  induction cs as [|c cs IH]; intros i h Hy Hcs Hn Hh; cbn [fill].
  - exists h. split; [done|]. split; [done|]. intros k j. rewrite Hh. split; [tauto|]. intros Hj. split; [|done].
    destruct Hj as (v & es & Hj%lookup_lt_Some). rewrite <-(yields_length _ _ _ Hy) in Hj.
    specialize (Hcs 0%nat). symmetry in Hcs. rewrite Nat.add_0_r in Hcs. apply lookup_ge_None in Hcs. lia.
  - assert (Hc : cs0 !! i = Some c) by (rewrite <-(Nat.add_0_r i); by rewrite <-Hcs).
    assert (Hcs' : ∀ j, cs !! j = cs0 !! (S i + j)%nat) by (intros j; replace (S i + j)%nat with (i + S j)%nat by lia; by rewrite <-Hcs).
    pose proof (lookup_lt_Some _ _ _ Hc) as Hlt. rewrite (yields_length _ _ _ Hy) in Hlt.
    destruct (lookup_lt_is_Some_2 ess i Hlt) as [es Hes]. rewrite (cursor_valid_spec w _ _ i c es Hy Hc Hes).
    destruct es as [|[k v] es].
    + rewrite bool_decide_eq_false_2 by (by intros []). apply IH; [done|done|done|]. intros k j. rewrite Hh. split; [naive_solver lia|].
      intros [Hj (v & es & Ej)]. split; [|eauto]. assert (j ≠ i) by (intros ->; congruence). lia.
    + rewrite bool_decide_eq_true_2 by done. mrun (cursor_key_spec w _ _ i c k v es Hy Hc Hes). apply IH; [done|done| |].
      * rewrite fmap_cons. constructor; [|done]. intros ([k' j] & E & Hin)%list_elem_of_fmap. simpl in E. subst j. apply Hh in Hin. lia.
      * intros k' j. rewrite elem_of_cons, Hh. split.
        -- intros [[= -> ->]|[? ?]]; split; eauto; lia.
        -- intros [Hj (v' & es' & Ej)]. destruct (decide (j = i)) as [->|]; [left; congruence|right]. split; [lia|eauto].
Qed.

Lemma merge_New_ok w cs ess : yields w cs ess → ∃ m w', New cs w = (Val m, w') ∧ merging w' m (merged ess).
Proof.
  intros Hy. destruct (fill_ok w ess cs cs 0 [] Hy) as (h & Ef & Hh); [done|constructor| |].
  - intros k j. split; [by intros ?%elem_of_nil|lia].
  - unfold New. mrun Ef. by apply (Advance_ok w (mk cs h 0 (mkLSMValue EmptyString false) false) ess).
Qed.

Lemma merge_Next_ok w (m : t C) e es : merging w m (e :: es) → ∃ m' w', Next m w = (Val m', w') ∧ merging w' m' es.
Proof. destruct e as [k v]. intros (_ & _ & _ & ess & Hy & Hh & <-). by apply Advance_ok. Qed.

Lemma Valid_ok w (m : t C) es : merging w m es → Valid m = bool_decide (es ≠ []).
Proof. unfold Valid. destruct es as [|[k v] es]; simpl; by intros [-> _]. Qed.

Lemma merging_yields w (m : t C) es : merging w m es → ∃ ess, yields w (cursors_ m) ess.
Proof. destruct es as [|[k v] es]; [intros [_ ?]; done|]. intros (_ & _ & _ & ess & ? & _). by exists ess. Qed.
End merge.
End MergeTheory.
