(* ===== verification/SSTable.v ===== *)
(** * SSTable (lsm/sstable.h, sstable.cpp)

    A table file: a header page, data pages, index pages, Bloom filter pages.
    [Build] writes it once; an open table answers from its in-memory index and
    filter and from data pages in its own buffer pool.

    [Build] hands the address of a struct smaller than a page to [WritePage],
    which reads a whole page from there: [behind pid] is the memory behind the
    struct written to page [pid].  What the sizing formulas of the filter give
    for a number of keys is [ideal]. *)

From S2P Require Import Prelude Bytes Disk Replacer Buffer MemTable Bloom.

Abbreviation Entry := (KeyType * LSMValue)%type (only parsing).

(** [l] cut into pieces of [n]. *)
Fixpoint chunks_fuel {A} (fuel n : nat) (l : list A) : list (list A) :=
  match fuel, l with
  | S fuel, _ :: _ => take n l :: chunks_fuel fuel n (drop n l)
  | _, _ => []
  end.
Definition chunks {A} (n : nat) (l : list A) : list (list A) := chunks_fuel (length l) n l.

Module SSTable.

Definition kSSTableBufferPoolFrames : Z := 8.

(** ** The structs of the file *)

(** [DataEntry]: 80 bytes. *)
Definition data_entry_size : Z := 80.
Definition kMaxEntriesPerDataPage : nat := Z.to_nat ((PAGE_SIZE - 8) / data_entry_size).

Definition data_entry (e : Entry) : bytes :=
  le_enc 8 e.1 ++ le_enc 1 (if deleted e.2 then 1 else 0) ++ zeros 1 ++ le_enc 2 (u16 (ssize (lsm_value e.2))) ++
  chars (lsm_value e.2) ++ zeros (MAX_VALUE_SIZE - ssize (lsm_value e.2)) ++ zeros 4.

(** [DataPage]: a zeroed struct with the entries filled in. *)
Definition data_page (es : list Entry) : bytes :=
  le_enc 8 (Z.of_nat (length es)) ++ concat (data_entry <$> es) ++
  zeros (data_entry_size * (Z.of_nat kMaxEntriesPerDataPage - Z.of_nat (length es))).

(** [IndexEntry]: 16 bytes. *)
Definition index_entry_size : Z := 16.
Definition kMaxIndexEntriesPerPage : nat := Z.to_nat ((PAGE_SIZE - 8) / index_entry_size).

Definition index_entry (e : KeyType * page_id_t) : bytes := le_enc 8 e.1 ++ le_enc 8 e.2.

Definition index_page (es : list (KeyType * page_id_t)) : bytes :=
  le_enc 8 (Z.of_nat (length es)) ++ concat (index_entry <$> es) ++
  zeros (index_entry_size * (Z.of_nat kMaxIndexEntriesPerPage - Z.of_nat (length es))).

(** [HeaderPage]: 88 bytes. *)
Record HeaderPage := mkHeader {
  h_num_entries : Z;
  h_min_key : KeyType;
  h_max_key : KeyType;
  h_num_data_pages : Z;
  h_first_data_page_id : page_id_t;
  h_num_index_entries : Z;
  h_first_index_page_id : page_id_t;
  h_bloom_num_bytes : Z;
  h_bloom_num_bits : Z;
  h_bloom_num_hashes : Z;
  h_first_bloom_page_id : page_id_t;
}.

Definition header_bytes (h : HeaderPage) : bytes :=
  le_enc 8 (h_num_entries h) ++ le_enc 8 (h_min_key h) ++ le_enc 8 (h_max_key h) ++ le_enc 4 (h_num_data_pages h) ++ zeros 4 ++
  le_enc 8 (h_first_data_page_id h) ++ le_enc 8 (h_num_index_entries h) ++ le_enc 8 (h_first_index_page_id h) ++
  le_enc 8 (h_bloom_num_bytes h) ++ le_enc 8 (h_bloom_num_bits h) ++ le_enc 4 (h_bloom_num_hashes h) ++ zeros 4 ++
  le_enc 8 (h_first_bloom_page_id h).

Definition read_header (b : bytes) : HeaderPage :=
  mkHeader (get_i64 b 0) (get_i64 b 8) (get_i64 b 16) (get_i32 b 24) (get_i64 b 32) (get_i64 b 40) (get_i64 b 48)
    (get_i64 b 56) (get_u64 b 64) (get_i32 b 72) (get_i64 b 80).

(** ** Build *)

Section build.
Context (behind : page_id_t → bytes) (ideal : Z → Z * Z).

(** [WritePage] of a struct of fewer bytes than a page. *)
Definition write_struct (pid : page_id_t) (s : bytes) : M DiskManager.t () := DiskManager.WritePage pid (s ++ behind pid).

(** One new page for each of [pages]; answers their ids. *)
Fixpoint write_pages (pages : list bytes) (write : page_id_t → bytes → M DiskManager.t ()) : M DiskManager.t (list page_id_t) :=
  match pages with
  | [] => mret []
  | page :: pages =>
      pid ← DiskManager.AllocatePage;
      write pid page;;
      pids ← write_pages pages write;
      mret (pid :: pids)
  end.

Definition first_page (pids : list page_id_t) : page_id_t := default INVALID_PAGE_ID (head pids).

(** The values are checked while their keys go to the filter. *)
Fixpoint fill_bloom (es : list Entry) (bloom : BloomFilter.t) : res BloomFilter.t :=
  match es with
  | [] => Val bloom
  | (key, v) :: es =>
      if MAX_VALUE_SIZE <? ssize (lsm_value v)
      then Exn (InvalidArgument "SSTable::Build: value exceeds MAX_VALUE_SIZE")
      else bloom ← BloomFilter.Add key bloom; fill_bloom es bloom
  end.

Definition first_key (es : list Entry) : KeyType := default 0 (fst <$> head es).
Definition last_key (es : list Entry) : KeyType := default 0 (fst <$> last es).

(** A zeroed buffer with a piece of the filter. *)
Definition bloom_page (bits : bytes) : bytes := bits ++ zeros (PAGE_SIZE - blen bits).

Definition lift {S A} (r : res A) : M S A := λ s, (r, s).

Definition write_table (entries : list Entry) : M DiskManager.t () :=
  header_page_id ← DiskManager.AllocatePage;
  let sizes := ideal (Z.max (Z.of_nat (length entries)) 1) in
  bloom ← lift (fill_bloom entries (BloomFilter.New sizes.1 sizes.2));
  let pieces := chunks kMaxEntriesPerDataPage entries in
  data_pids ← write_pages (data_page <$> pieces) write_struct;
  let index := zip (first_key <$> pieces) data_pids in
  index_pids ← write_pages (index_page <$> chunks kMaxIndexEntriesPerPage index) write_struct;
  bloom_pids ← write_pages (bloom_page <$> chunks (Z.to_nat PAGE_SIZE) (BloomFilter.bits_ bloom)) DiskManager.WritePage;
  write_struct header_page_id (header_bytes (mkHeader
    (Z.of_nat (length entries)) (first_key entries) (last_key entries) (Z.of_nat (length pieces)) (first_page data_pids)
    (Z.of_nat (length index)) (first_page index_pids) (blen (BloomFilter.bits_ bloom)) (BloomFilter.num_bits_ bloom)
    (BloomFilter.num_hashes_ bloom) (first_page bloom_pids))).

Definition Build (path : string) (entries : list Entry) (f : DiskManager.file) : res () * DiskManager.file :=
  match DiskManager.Open path f with
  | (Val d, _) => let '(r, d) := write_table entries d in (r, DiskManager.fd_ d)
  | (Exn e, f) => (Exn e, f)
  | (Undef, f) => (Undef, f)
  | (NoFuel, f) => (NoFuel, f)
  end.
End build.

(** ** The open table *)

Section table.
Context {P : Type} `{!Pool P}.

Record t := mk {
  path_ : string;
  bpm_ : P;
  num_entries_ : Z;
  min_key_ : KeyType;
  max_key_ : KeyType;
  num_data_pages_ : Z;
  first_data_page_id_ : page_id_t;
  sparse_index_ : list (KeyType * page_id_t);
  bloom_ : BloomFilter.t;
}.

Definition set_bpm (p : P) (s : t) : t :=
  mk (path_ s) p (num_entries_ s) (min_key_ s) (max_key_ s) (num_data_pages_ s) (first_data_page_id_ s) (sparse_index_ s) (bloom_ s).

Definition bpm {A} (m : M P A) : M t A := λ s, let '(r, p) := m (bpm_ s) in (r, set_bpm p s).

(** [FetchPage] whose result is dereferenced. *)
Definition fetch (pid : page_id_t) : M t () := ok ← bpm (pool_fetch pid); if ok : bool then mret tt else undefined.
Definition unpin (pid : page_id_t) : M t () := _ ← bpm (pool_unpin pid false); mret tt.

(** Fields of the [DataPage] overlaid on a page. *)
Definition view_count (page : bytes) : Z := get_i64 page 0.
Definition entry_off (i : Z) : Z := 8 + data_entry_size * i.
Definition entry_key (page : bytes) (i : Z) : KeyType := get_i64 page (entry_off i).

(** [entries[i]]; the length of the value is checked against its array. *)
Definition entry_value (page : bytes) (i : Z) : res LSMValue :=
  if (0 <=? i) && (i <? Z.of_nat kMaxEntriesPerDataPage) then
    let len := get_u16 page (entry_off i + 10) in
    if len <=? MAX_VALUE_SIZE
    then Val (mkLSMValue (of_chars (block page (entry_off i + 12) len)) (negb (get_u8 page (entry_off i + 8) =? 0)))
    else Undef
  else Undef.

(** [std::lower_bound] over the entries of a page: the first of the [n] from
    [i] on whose key is not smaller. *)
Fixpoint lower_bound (page : bytes) (key : KeyType) (n : nat) (i : Z) : Z :=
  match n with
  | O => i
  | S n => if entry_key page i <? key then lower_bound page key n (i + 1) else i
  end.

Definition find_entry (page : bytes) (key : KeyType) : res Z :=
  let count := view_count page in
  if (0 <=? count) && (count <=? Z.of_nat kMaxEntriesPerDataPage) then Val (lower_bound page key (Z.to_nat count) 0) else Undef.

Definition MightContain (key : KeyType) (s : t) : res bool :=
  if (num_entries_ s =? 0) || (key <? min_key_ s) || (max_key_ s <? key) then Val false
  else BloomFilter.MightContain key (bloom_ s).

(** [std::upper_bound] over the sparse index. *)
Fixpoint upper_bound (key : KeyType) (index : list (KeyType * page_id_t)) : nat :=
  match index with
  | [] => 0
  | (first, _) :: index => if key <? first then 0 else S (upper_bound key index)
  end.

Definition FindPagePos (key : KeyType) (s : t) : nat := Nat.pred (upper_bound key (sparse_index_ s)).

Definition page_at (pos : nat) : M t page_id_t := λ s,
  match sparse_index_ s !! pos with Some (_, pid) => (Val pid, s) | None => (Undef, s) end.

Definition Get (key : KeyType) : M t (option LSMValue) :=
  s ← get;
  m ← lift (MightContain key s);
  if negb m then mret None else
  page_id ← page_at (FindPagePos key s);
  fetch page_id;;
  view ← bpm (pool_read page_id);
  i ← lift (find_entry view key);
  out ← (if (i <? view_count view) && (entry_key view i =? key) then v ← lift (entry_value view i); mret (Some v) else mret None);
  unpin page_id;;
  mret out.

(** ** Iterators

    [page] tells whether [page_] is not null. *)
Record Iterator := mkIterator {
  page_ : bool;
  page_id_ : page_id_t;
  index_ : Z;
  page_pos_ : Z;
  cached_key_ : KeyType;
  cached_value_ : LSMValue;
}.

Definition end_iterator : Iterator := mkIterator false INVALID_PAGE_ID 0 0 0 (mkLSMValue EmptyString false).

Definition Valid (it : Iterator) : bool := page_ it.

Definition LoadCurrent (it : Iterator) : M t Iterator :=
  view ← bpm (pool_read (page_id_ it));
  v ← lift (entry_value view (index_ it));
  mret (mkIterator (page_ it) (page_id_ it) (index_ it) (page_pos_ it) (entry_key view (index_ it)) v).

Definition NewIterator (start_key : KeyType) : M t Iterator :=
  s ← get;
  if (num_entries_ s =? 0) || (max_key_ s <? start_key) then mret end_iterator else
  let page_pos := FindPagePos (Z.max start_key (min_key_ s)) s in
  page_id ← page_at page_pos;
  fetch page_id;;
  view ← bpm (pool_read page_id);
  index ← lift (find_entry view start_key);
  '(page_pos, page_id, index) ←
    (if view_count view <=? index then
       unpin page_id;;
       let page_pos := Z.of_nat page_pos + 1 in
       let page_id := first_data_page_id_ s + page_pos in
       fetch page_id;;
       mret (page_pos, page_id, 0)
     else mret (Z.of_nat page_pos, page_id, index));
  LoadCurrent (mkIterator true page_id index page_pos 0 (mkLSMValue EmptyString false)).

Definition Release (it : Iterator) : M t () := if page_ it then unpin (page_id_ it) else mret tt.

Definition Next (it : Iterator) : M t Iterator :=
  if negb (page_ it) then undefined else
  view ← bpm (pool_read (page_id_ it));
  let index := index_ it + 1 in
  if view_count view <=? index then
    unpin (page_id_ it);;
    let page_pos := page_pos_ it + 1 in
    s ← get;
    if num_data_pages_ s <=? page_pos
    then mret (mkIterator false INVALID_PAGE_ID index page_pos (cached_key_ it) (cached_value_ it))
    else
      let page_id := first_data_page_id_ s + page_pos in
      fetch page_id;;
      LoadCurrent (mkIterator true page_id 0 page_pos (cached_key_ it) (cached_value_ it))
  else LoadCurrent (mkIterator true (page_id_ it) index (page_pos_ it) (cached_key_ it) (cached_value_ it)).

End table.
Arguments t : clear implicits.

(** ** Open *)

(** [page->entries[i]] of an [IndexPage], [n] of them. *)
Fixpoint index_entries (page : bytes) (n : nat) (i : Z) : list (KeyType * page_id_t) :=
  match n with
  | O => []
  | S n => (get_i64 page (8 + index_entry_size * i), get_i64 page (8 + index_entry_size * i + 8)) :: index_entries page n (i + 1)
  end.

(** A page with no entries would be followed by the next one for ever; one
    round per entry is enough for every run that ends. *)
Fixpoint read_index (fuel : nat) (remaining : Z) (pid : page_id_t) (out : list (KeyType * page_id_t)) :
    M DiskManager.t (list (KeyType * page_id_t)) :=
  if remaining <=? 0 then mret out else
  match fuel with
  | O => λ d, (NoFuel, d)
  | S fuel =>
      page ← DiskManager.ReadPage pid;
      let count := get_i64 page 0 in
      if Z.of_nat kMaxIndexEntriesPerPage <? count then undefined else
      read_index fuel (remaining - count) (pid + 1) (out ++ index_entries page (Z.to_nat count) 0)
  end.

Fixpoint read_bloom (fuel : nat) (remaining : Z) (pid : page_id_t) (out : bytes) : M DiskManager.t bytes :=
  if remaining <=? 0 then mret out else
  match fuel with
  | O => λ d, (NoFuel, d)
  | S fuel =>
      page ← DiskManager.ReadPage pid;
      let chunk := Z.min remaining PAGE_SIZE in
      read_bloom fuel (remaining - chunk) (pid + 1) (out ++ block page 0 chunk)
  end.

Definition load : M DiskManager.t (HeaderPage * list (KeyType * page_id_t) * BloomFilter.t) :=
  buf ← DiskManager.ReadPage 0;
  let h := read_header buf in
  index ← read_index (Z.to_nat (h_num_index_entries h)) (h_num_index_entries h) (h_first_index_page_id h) [];
  bits ← read_bloom (Z.to_nat (h_bloom_num_bytes h)) (h_bloom_num_bytes h) (h_first_bloom_page_id h) [];
  mret (h, index, BloomFilter.FromBytes bits (h_bloom_num_bits h) (h_bloom_num_hashes h)).

Abbreviation pool := (BufferPoolManager.t LRUKReplacer.t) (only parsing).

Definition Open (path : string) (f : DiskManager.file) : res (t pool) * DiskManager.file :=
  match DiskManager.Open path f with
  | (Val d, _) =>
      match load d with
      | (Val (h, index, bloom), d) =>
          match LRUKReplacer.New kSSTableBufferPoolFrames 2 with
          | Val r =>
              (Val (mk path (BufferPoolManager.New kSSTableBufferPoolFrames d r) (h_num_entries h) (h_min_key h) (h_max_key h)
                 (h_num_data_pages h) (h_first_data_page_id h) index bloom), DiskManager.fd_ d)
          | Exn e => (Exn e, DiskManager.fd_ d)
          | Undef => (Undef, DiskManager.fd_ d)
          | NoFuel => (NoFuel, DiskManager.fd_ d)
          end
      | (Exn e, d) => (Exn e, DiskManager.fd_ d)
      | (Undef, d) => (Undef, DiskManager.fd_ d)
      | (NoFuel, d) => (NoFuel, DiskManager.fd_ d)
      end
  | (Exn e, f) => (Exn e, f)
  | (Undef, f) => (Undef, f)
  | (NoFuel, f) => (NoFuel, f)
  end.

End SSTable.
