(* ===== verification/SSTablePages.v ===== *)
(** * The pages of a table file

    What [Build] lays out is what the readers find: entries on data pages,
    first keys and page ids on index pages, the header. *)

From S2P Require Import Prelude Entries Bytes Structs Disk MemTable Bloom SSTable.

#[local] Opaque le_enc.

(** ** Pieces *)

Section chunks.
Context {A : Type}.

Lemma chunks_fuel_ok n fuel : ∀ l : list A,
  (0 < n)%nat → (length l ≤ fuel)%nat →
  concat (chunks_fuel fuel n l) = l ∧ ∀ c, c ∈ chunks_fuel fuel n l → c ≠ [] ∧ (length c ≤ n)%nat.
Proof.
  induction fuel as [|fuel IH]; intros [|x l] Hn Hf; simpl; try (split; [done|set_solver]); [simpl in Hf; lia|].
  destruct n as [|n]; [lia|]. simpl in Hf. destruct (IH (drop n l) ltac:(lia)) as [Hc Hs]; [rewrite length_drop; lia|].
  simpl. rewrite Hc, take_drop. split; [done|]. intros c [->|Hin]%elem_of_cons; [|by apply Hs]. split; [done|].
  simpl. rewrite length_take. lia.
Qed.

Lemma concat_chunks n (l : list A) : (0 < n)%nat → concat (chunks n l) = l.
Proof. intros Hn. by apply (chunks_fuel_ok n (length l) l). Qed.

Lemma chunk_size n (l c : list A) : (0 < n)%nat → c ∈ chunks n l → c ≠ [] ∧ (length c ≤ n)%nat.
Proof. intros Hn Hc. by apply (chunks_fuel_ok n (length l) l) in Hc. Qed.

Lemma chunks_nil n (l : list A) : (0 < n)%nat → chunks n l = [] → l = [].
Proof. intros Hn E. rewrite <-(concat_chunks n l Hn). by rewrite E. Qed.

Lemma chunk_elem n (l c : list A) x : (0 < n)%nat → c ∈ chunks n l → x ∈ c → x ∈ l.
Proof. intros Hn Hc Hx. rewrite <-(concat_chunks n l Hn). apply list_elem_of_In, in_concat. exists c. by rewrite <-!list_elem_of_In. Qed.

Lemma length_chunks n (l : list A) : (0 < n)%nat → (length (chunks n l) ≤ length l)%nat.
Proof.
  intros Hn. rewrite <-(concat_chunks n l Hn) at 2. assert (∀ c, c ∈ chunks n l → c ≠ []) as Hne by (intros c; by apply chunk_size).
  induction (chunks n l) as [|c cs IH]; simpl; [done|]. rewrite length_app. specialize (IH ltac:(set_solver)).
  destruct c as [|x c]; [destruct (Hne []); set_solver|]. simpl. lia.
Qed.
End chunks.

(** ** Arrays of structs *)

Lemma blen_concat {A} (f : A → bytes) sz (l : list A) :
  (∀ x, x ∈ l → blen (f x) = sz) → blen (concat (f <$> l)) = sz * Z.of_nat (length l).
Proof.
  induction l as [|x l IH]; intros H; [by rewrite Z.mul_0_r|]. rewrite fmap_cons. simpl concat. rewrite blen_app, H by set_solver.
  rewrite IH by set_solver. simpl length. lia.
Qed.

Lemma block_concat {A} (f : A → bytes) sz (l : list A) i x :
  0 ≤ sz → (∀ x, x ∈ l → blen (f x) = sz) → l !! i = Some x → block (concat (f <$> l)) (sz * Z.of_nat i) sz = f x.
Proof.
  intros Hsz. revert i; induction l as [|y l IH]; intros [|i] H Hi; try done; rewrite fmap_cons; simpl concat.
  - injection Hi as ->. apply block_head; [lia|]. apply H. set_solver.
  - rewrite block_app_r by (rewrite H by set_solver; lia). rewrite H by set_solver.
    replace (sz * Z.of_nat (S i) - sz) with (sz * Z.of_nat i) by lia. apply IH; [set_solver|done].
Qed.

Lemma block_prefix a b n : blen a ≤ n → block (a ++ b) 0 n = a ++ block b 0 (n - blen a).
Proof.
  unfold block, blen. intros H. change (Z.to_nat 0) with 0%nat. rewrite !drop_0, take_app_ge by lia. do 2 f_equal. lia.
Qed.

Module SSTablePages.
Import SSTable.

(** An entry that fits its struct. *)
Definition entry_ok (e : KeyType * LSMValue) : Prop := is_i64 e.1 ∧ ssize (lsm_value e.2) ≤ MAX_VALUE_SIZE.

Lemma blen_data_entry e : entry_ok e → blen (data_entry e) = data_entry_size.
Proof.
  intros [_ Hv]. pose proof (ssize_nonneg (lsm_value e.2)). unfold data_entry. rewrite !blen_app, blen_chars, !blen_le_enc, !blen_zeros by lia.
  unfold data_entry_size, MAX_VALUE_SIZE in *. lia.
Qed.

(** A page with the entries [es]. *)
Record is_data (page : bytes) (es : list (KeyType * LSMValue)) : Prop := {
  id_count : view_count page = Z.of_nat (length es);
  id_small : (length es ≤ kMaxEntriesPerDataPage)%nat;
  id_key : ∀ i e, es !! i = Some e → entry_key page (Z.of_nat i) = e.1;
  id_value : ∀ i e, es !! i = Some e → entry_value page (Z.of_nat i) = Val e.2;
}.

Lemma data_entry_key e c : entry_ok e → get_i64 (data_entry e ++ c) 0 = e.1.
Proof.
  intros [Hk _]. unfold get_i64, data_entry. rewrite <-!app_assoc. rewrite block_head by (rewrite ?blen_le_enc; done). by apply i64_enc.
Qed.

Lemma data_page_ok es c :
  (∀ e, e ∈ es → entry_ok e) → (length es ≤ kMaxEntriesPerDataPage)%nat → is_data (data_page es ++ c) es.
Proof.
  intros Hok Hlen. assert (Hmax : kMaxEntriesPerDataPage = 51%nat) by done.
  assert (Hsz : ∀ e, e ∈ es → blen (data_entry e) = data_entry_size) by (intros e He; by apply blen_data_entry, Hok).
  pose proof (blen_concat data_entry data_entry_size es Hsz) as Hc.
  assert (Hent : ∀ i e, es !! i = Some e → block (data_page es ++ c) (entry_off (Z.of_nat i)) data_entry_size = data_entry e).
  { intros i e Hi. pose proof (lookup_lt_Some _ _ _ Hi). unfold data_page, entry_off. rewrite <-!app_assoc.
    rewrite block_app_r by (rewrite blen_le_enc; unfold data_entry_size; lia). rewrite blen_le_enc.
    rewrite block_app_l by (rewrite ?Hc; unfold data_entry_size; lia).
    replace (8 + data_entry_size * Z.of_nat i - Z.of_nat 8) with (data_entry_size * Z.of_nat i) by lia.
    by apply block_concat. }
  assert (Hkey : ∀ i e, es !! i = Some e → entry_key (data_page es ++ c) (Z.of_nat i) = e.1).
  { intros i e Hi. unfold entry_key. rewrite <-(Z.add_0_r (entry_off _)).
    rewrite <-(get_i64_block _ _ data_entry_size) by (unfold entry_off, data_entry_size; lia). rewrite (Hent i e Hi).
    rewrite <-(app_nil_r (data_entry e)). apply data_entry_key, Hok. by eapply list_elem_of_lookup_2. }
  split; [|done|done|].
  - unfold view_count, get_i64, data_page. rewrite <-app_assoc. rewrite block_head by (rewrite ?blen_le_enc; done).
    apply i64_enc. unfold is_i64, int64_min, int64_max. lia.
  - intros i e Hi. pose proof (lookup_lt_Some _ _ _ Hi). destruct (Hok e ltac:(by eapply list_elem_of_lookup_2)) as [_ Hv].
    pose proof (ssize_nonneg (lsm_value e.2)) as Hnn. specialize (Hent i e Hi). set (page := data_page es ++ c) in *.
    assert (Hsub : ∀ off n, 0 ≤ off → off + n ≤ data_entry_size →
      block page (entry_off (Z.of_nat i) + off) n = block (data_entry e) off n).
    { intros off n Ho Hn. rewrite <-Hent, block_block; [done|unfold entry_off, data_entry_size; lia|done|done]. }
    unfold entry_value. rewrite (proj2 (andb_true_iff _ _)) by (rewrite Z.leb_le, Z.ltb_lt; lia).
    unfold get_u16, get_u8. rewrite (Hsub 10 2), (Hsub 8 1) by (unfold data_entry_size; lia).
    assert (El : le_dec (block (data_entry e) 10 2) = ssize (lsm_value e.2)).
    { unfold data_entry. find_field. rewrite u16_enc by (apply Z.mod_pos_bound; lia). apply Z.mod_small. unfold MAX_VALUE_SIZE in Hv. lia. }
    assert (Ed : le_dec (block (data_entry e) 8 1) = if deleted e.2 then 1 else 0).
    { unfold data_entry. find_field. apply u8_enc. destruct (deleted e.2); lia. }
    rewrite El, Ed. rewrite (proj2 (Z.leb_le _ _)) by lia. rewrite Hsub by (unfold data_entry_size, MAX_VALUE_SIZE in *; lia).
    assert (block (data_entry e) 12 (ssize (lsm_value e.2)) = chars (lsm_value e.2)) as ->.
    { unfold data_entry. repeat (rewrite block_app_r by (field_lens; lia); field_lens). apply block_head; [lia|apply blen_chars]. }
    rewrite of_chars_chars. destruct e as [k [v []]]; done.
Qed.

Lemma blen_data_page es :
  (∀ e, e ∈ es → entry_ok e) → (length es ≤ kMaxEntriesPerDataPage)%nat → blen (data_page es) = 4088.
Proof.
  intros Hok Hlen. unfold data_page. rewrite !blen_app, blen_le_enc. rewrite (blen_concat data_entry data_entry_size)
    by (intros e He; by apply blen_data_entry, Hok). assert (kMaxEntriesPerDataPage = 51%nat) as E by done. rewrite E in *.
  rewrite blen_zeros by (unfold data_entry_size; lia). unfold data_entry_size. lia.
Qed.

(** ** Searching a page *)

Lemma lower_bound_ok page es key rest : ∀ i,
  is_data page es → drop i es = rest → lower_bound page key (length rest) (Z.of_nat i) = Z.of_nat (i + lb key rest).
Proof.
  induction rest as [|[k v] rest IH]; intros i Hd Hr; simpl; [f_equal; lia|].
  assert (Hi : es !! i = Some (k, v)) by (rewrite <-(Nat.add_0_r i), <-lookup_drop, Hr; done).
  rewrite (id_key _ _ Hd i (k, v) Hi). simpl. destruct (Z.ltb_spec k key); [|f_equal; lia].
  replace (Z.of_nat i + 1) with (Z.of_nat (S i)) by lia. rewrite (IH (S i) Hd); [f_equal; lia|].
  rewrite (drop_S _ _ _ Hi) in Hr. by injection Hr.
Qed.

Lemma find_entry_ok page es key : is_data page es → find_entry page key = Val (Z.of_nat (lb key es)).
Proof.
  intros Hd. unfold find_entry. rewrite (id_count _ _ Hd). pose proof (id_small _ _ Hd).
  rewrite (proj2 (andb_true_iff _ _)) by (rewrite !Z.leb_le; lia). rewrite Nat2Z.id. f_equal.
  by apply (lower_bound_ok page es key es 0 Hd).
Qed.

(** ** Index pages *)

Lemma index_page_ok es c :
  (∀ e, e ∈ es → is_i64 e.1 ∧ is_i64 e.2) → (length es ≤ kMaxIndexEntriesPerPage)%nat →
  get_i64 (index_page es ++ c) 0 = Z.of_nat (length es) ∧ index_entries (index_page es ++ c) (length es) 0 = es.
Proof.
  intros Hok Hlen. assert (Hmax : kMaxIndexEntriesPerPage = 255%nat) by done. rewrite Hmax in Hlen.
  assert (Hsz : ∀ e, e ∈ es → blen (index_entry e) = index_entry_size) by (intros e He; unfold index_entry; by rewrite blen_app, !blen_le_enc).
  pose proof (blen_concat index_entry index_entry_size es Hsz) as Hc. split.
  - unfold get_i64, index_page. rewrite <-app_assoc. rewrite block_head by (rewrite ?blen_le_enc; done).
    apply i64_enc. unfold is_i64, int64_min, int64_max. lia.
  - assert (Hent : ∀ i e, es !! i = Some e → block (index_page es ++ c) (8 + index_entry_size * Z.of_nat i) index_entry_size = index_entry e).
    { intros i e Hi. pose proof (lookup_lt_Some _ _ _ Hi). unfold index_page. rewrite <-!app_assoc.
      rewrite block_app_r by (rewrite blen_le_enc; unfold index_entry_size; lia). rewrite blen_le_enc.
      rewrite block_app_l by (rewrite ?Hc; unfold index_entry_size; lia).
      replace (8 + index_entry_size * Z.of_nat i - Z.of_nat 8) with (index_entry_size * Z.of_nat i) by lia.
      by apply block_concat. }
    set (page := index_page es ++ c) in *. clearbody page.
    assert (Hgen : ∀ rest i, drop i es = rest → index_entries page (length rest) (Z.of_nat i) = rest); [|by apply (Hgen es 0%nat)].
    induction rest as [|[k p] rest IH]; intros i Hr; [done|].
    assert (Hi : es !! i = Some (k, p)) by (rewrite <-(Nat.add_0_r i), <-lookup_drop, Hr; done).
    destruct (Hok (k, p) ltac:(by eapply list_elem_of_lookup_2)) as [Hk Hp]. simpl in Hk, Hp. cbn [length index_entries].
    replace (Z.of_nat i + 1) with (Z.of_nat (S i)) by lia. rewrite IH by (rewrite (drop_S _ _ _ Hi) in Hr; by injection Hr).
    do 2 f_equal.
    + rewrite <-(Z.add_0_r (8 + _)). rewrite <-(get_i64_block _ _ index_entry_size) by (unfold index_entry_size; lia).
      rewrite (Hent i _ Hi). unfold get_i64, index_entry. find_field. by apply i64_enc.
    + rewrite <-(get_i64_block _ _ index_entry_size) by (unfold index_entry_size; lia).
      rewrite (Hent i _ Hi). unfold get_i64, index_entry. find_field. by apply i64_enc.
Qed.

Lemma blen_index_page es : (length es ≤ kMaxIndexEntriesPerPage)%nat → blen (index_page es) = 4088.
Proof.
  intros Hlen. unfold index_page. rewrite !blen_app, blen_le_enc. rewrite (blen_concat index_entry index_entry_size)
    by (intros e He; unfold index_entry; by rewrite blen_app, !blen_le_enc).
  assert (kMaxIndexEntriesPerPage = 255%nat) as E by done. rewrite E in *.
  rewrite blen_zeros by (unfold index_entry_size; lia). unfold index_entry_size. lia.
Qed.

(** ** The header *)

Record header_ok (h : HeaderPage) : Prop := {
  ho_entries : is_i64 (h_num_entries h);
  ho_min : is_i64 (h_min_key h);
  ho_max : is_i64 (h_max_key h);
  ho_pages : is_i32 (h_num_data_pages h);
  ho_data : is_i64 (h_first_data_page_id h);
  ho_index : is_i64 (h_num_index_entries h);
  ho_index_page : is_i64 (h_first_index_page_id h);
  ho_bytes : is_i64 (h_bloom_num_bytes h);
  ho_bits : is_u64 (h_bloom_num_bits h);
  ho_hashes : is_i32 (h_bloom_num_hashes h);
  ho_bloom_page : is_i64 (h_first_bloom_page_id h);
}.

Lemma read_header_ok h c : header_ok h → read_header (header_bytes h ++ c) = h.
Proof.
  intros [? ? ? ? ? ? ? ? ? ? ?]. destruct h as [ne mi ma nd fd ni fi nb nbits nh fb].
  cbn [h_num_entries h_min_key h_max_key h_num_data_pages h_first_data_page_id h_num_index_entries h_first_index_page_id
    h_bloom_num_bytes h_bloom_num_bits h_bloom_num_hashes h_first_bloom_page_id] in *.
  unfold read_header, get_i64, get_i32, get_u64, header_bytes.
  cbn [h_num_entries h_min_key h_max_key h_num_data_pages h_first_data_page_id h_num_index_entries h_first_index_page_id
    h_bloom_num_bytes h_bloom_num_bits h_bloom_num_hashes h_first_bloom_page_id].
  rewrite <-!app_assoc. f_equal; find_field; auto using i64_enc, i32_enc, u64_enc.
Qed.

Lemma blen_header h : blen (header_bytes h) = 88.
Proof. unfold header_bytes. rewrite !blen_app. by field_lens. Qed.

End SSTablePages.
