(* ===== verification/SSTableFile.v ===== *)
(** * Table files: what [Build] writes, [Open] reads back *)

From S2P Require Import Prelude Entries Bytes Structs Disk Replacer ReplacerTheory Buffer BufferTheory BTreeReopen.
From S2P Require Import MemTable Bloom SSTable SSTablePages.

#[local] Opaque le_enc DiskManager.page_of DiskManager.write_file.

Module SSTableFile.
Import SSTable SSTablePages.

(** ** Writing pages *)

(** The disk after page [p] got the bytes [x]. *)
Definition written (p : page_id_t) (x : bytes) (d : DiskManager.t) : DiskManager.t :=
  DiskManager.count_write (DiskManager.set_fd (DiskManager.File (DiskManager.write_file
    (DiskManager.f_data (DiskManager.fd_ d)) p x) []) d).

Lemma WritePage_prefix p x d :
  DiskManager.healthy d → DiskManager.valid_id p → PAGE_SIZE ≤ blen x →
  DiskManager.WritePage p x d = (Val tt, written p (block x 0 PAGE_SIZE) d).
Proof.
  intros Hh Hp Hx. assert (Hb : blen (block x 0 PAGE_SIZE) = PAGE_SIZE) by (apply blen_block; unfold PAGE_SIZE in *; lia).
  etransitivity; [|exact (DiskManager.WritePage_ok p (block x 0 PAGE_SIZE) d Hh Hp Hb)].
  unfold DiskManager.WritePage. rewrite Hb, block_block by (unfold PAGE_SIZE; lia).
  rewrite (proj2 (Z.ltb_ge (blen x) PAGE_SIZE)) by lia. by rewrite Z.ltb_irrefl.
Qed.

(** [d]'s file ends with page [n - 1]. *)
Definition ends (n : Z) (d : DiskManager.t) : Prop := blen (DiskManager.f_data (DiskManager.fd_ d)) = n * PAGE_SIZE.

(** A disk that has [n] pages allocated and works. *)
Definition alive (n : Z) (d : DiskManager.t) : Prop :=
  DiskManager.healthy d ∧ DiskManager.next_page_id_ d = n ∧ blen (DiskManager.f_data (DiskManager.fd_ d)) ≤ n * PAGE_SIZE.

Definition alloc (d : DiskManager.t) : DiskManager.t :=
  DiskManager.mk (DiskManager.fd_ d) (DiskManager.file_name_ d) (DiskManager.next_page_id_ d + 1)
    (DiskManager.num_reads_ d) (DiskManager.num_writes_ d).

Lemma written_contents p x q d :
  0 ≤ p → 0 ≤ q → blen x = PAGE_SIZE →
  DiskManager.contents (written p x d) q = if decide (q = p) then x else DiskManager.contents d q.
Proof.
  intros Hp Hq Hx. unfold DiskManager.contents, written. simpl. case_decide as E.
  - subst. by apply DiskManager.page_of_write_eq.
  - by apply DiskManager.page_of_write_ne.
Qed.

Lemma write_pages_ok (write : page_id_t → bytes → M DiskManager.t ()) (img : page_id_t → bytes → bytes) pages : ∀ n d,
  (∀ pid page d, page ∈ pages → DiskManager.healthy d → DiskManager.valid_id pid →
    write pid page d = (Val tt, written pid (img pid page) d) ∧ blen (img pid page) = PAGE_SIZE) →
  alive n d → 0 ≤ n → (n + Z.of_nat (length pages)) * PAGE_SIZE ≤ int64_max →
  ∃ d', write_pages pages write d = (Val (seqZ n (Z.of_nat (length pages))), d') ∧ alive (n + Z.of_nat (length pages)) d' ∧
    (∀ i page, pages !! i = Some page → DiskManager.contents d' (n + Z.of_nat i) = img (n + Z.of_nat i) page) ∧
    (∀ q, 0 ≤ q < n → DiskManager.contents d' q = DiskManager.contents d q) ∧
    (pages ≠ [] → ends (n + Z.of_nat (length pages)) d') ∧
    DiskManager.file_name_ d' = DiskManager.file_name_ d.
Proof.
  induction pages as [|page pages IH]; intros n d Hw (Hh & Hn & Hl) Hn0 Hmax.
  { exists d. simpl. rewrite Z.add_0_r. split_and!; try done. }
  simpl length in *. assert (Hv : DiskManager.valid_id n) by (split; [done|]; unfold PAGE_SIZE in *; lia).
  destruct (Hw n page (alloc d) ltac:(set_solver) Hh Hv) as [Ew Hx]. set (d1 := written n (img n page) (alloc d)) in *.
  assert (Hd1 : blen (DiskManager.f_data (DiskManager.fd_ d1)) = (n + 1) * PAGE_SIZE).
  { unfold d1, written. simpl. rewrite DiskManager.blen_write_file, Hx by done. unfold PAGE_SIZE in *. lia. }
  destruct (IH (n + 1) d1) as (d2 & E2 & Ha2 & Hc2 & Ho2 & He2 & Hf2).
  - intros pid pg d' Hpg. apply Hw. set_solver.
  - split_and!; [done|simpl; by rewrite Hn|by rewrite Hd1].
  - lia.
  - replace (n + 1 + Z.of_nat (length pages)) with (n + Z.of_nat (S (length pages))) by lia. done.
  - exists d2. replace (n + Z.of_nat (S (length pages))) with (n + 1 + Z.of_nat (length pages)) by lia. split_and!; try done.
    + cbn [write_pages]. assert (Ea : DiskManager.AllocatePage d = (Val n, alloc d)) by (unfold DiskManager.AllocatePage; rewrite <-Hn; done).
      mrun Ea. mrun Ew. mrun E2. rewrite Nat2Z.inj_succ. by rewrite (seqZ_cons n (Z.succ _)), Z.pred_succ by lia.
    + intros [|i] pg Hi; simpl in Hi.
      * injection Hi as <-. rewrite Z.add_0_r, Ho2 by lia. unfold d1. rewrite written_contents by done. by rewrite decide_True.
      * replace (n + Z.of_nat (S i)) with (n + 1 + Z.of_nat i) by lia. by apply Hc2.
    + intros q Hq. rewrite Ho2 by lia. unfold d1. rewrite written_contents by (done || lia). rewrite decide_False by lia. done.
    + intros _. destruct pages as [|p0 pages]; [|by apply He2]. simpl in E2. injection E2 as <-. simpl. rewrite Z.add_0_r. exact Hd1.
Qed.

(** ** The table's layout *)

(** There is memory behind the structs that [Build] writes. *)
Definition mapped (behind : page_id_t → bytes) : Prop := ∀ p, PAGE_SIZE - 88 ≤ blen (behind p).

(** A struct and what lies behind it, as written. *)
Definition image (behind : page_id_t → bytes) (pid : page_id_t) (s : bytes) : bytes := block (s ++ behind pid) 0 PAGE_SIZE.

Lemma write_struct_ok behind pid s d :
  mapped behind → DiskManager.healthy d → DiskManager.valid_id pid → 88 ≤ blen s →
  write_struct behind pid s d = (Val tt, written pid (image behind pid s) d) ∧ blen (image behind pid s) = PAGE_SIZE.
Proof.
  intros Hbehind Hh Hp Hs. specialize (Hbehind pid). assert (PAGE_SIZE ≤ blen (s ++ behind pid)) by (rewrite blen_app; lia). split.
  - by apply WritePage_prefix.
  - apply blen_block; unfold PAGE_SIZE in *; lia.
Qed.

Lemma image_prefix behind pid s : blen s ≤ PAGE_SIZE → ∃ c, image behind pid s = s ++ c.
Proof. intros Hs. unfold image. rewrite block_prefix by done. eauto. Qed.

Definition pieces (es : list (KeyType * LSMValue)) := chunks kMaxEntriesPerDataPage es.

(** The data pages are the pages from 1 on. *)
Definition index_of (es : list (KeyType * LSMValue)) : list (KeyType * page_id_t) :=
  zip (first_key <$> pieces es) (seqZ 1 (Z.of_nat (length (pieces es)))).

Definition index_pieces es := chunks kMaxIndexEntriesPerPage (index_of es).
Definition bloom_pieces (bloom : BloomFilter.t) := chunks (Z.to_nat PAGE_SIZE) (BloomFilter.bits_ bloom).

Definition n_data es : Z := Z.of_nat (length (pieces es)).
Definition n_index es : Z := Z.of_nat (length (index_pieces es)).
Definition n_bloom bloom : Z := Z.of_nat (length (bloom_pieces bloom)).

Definition header_of es (bloom : BloomFilter.t) : HeaderPage :=
  mkHeader (Z.of_nat (length es)) (first_key es) (last_key es) (n_data es)
    (first_page (seqZ 1 (n_data es))) (Z.of_nat (length (index_of es))) (first_page (seqZ (1 + n_data es) (n_index es)))
    (blen (BloomFilter.bits_ bloom)) (BloomFilter.num_bits_ bloom) (BloomFilter.num_hashes_ bloom)
    (first_page (seqZ (1 + n_data es + n_index es) (n_bloom bloom))).

(** The file [b] is the table of [es] with the filter [bloom]. *)
Record is_table (b : bytes) (es : list (KeyType * LSMValue)) (bloom : BloomFilter.t) : Prop := {
  it_header : ∃ c, DiskManager.page_of b 0 = header_bytes (header_of es bloom) ++ c;
  it_data : ∀ i c, pieces es !! i = Some c → is_data (DiskManager.page_of b (1 + Z.of_nat i)) c;
  it_index : ∀ i c, index_pieces es !! i = Some c →
    ∃ r, DiskManager.page_of b (1 + n_data es + Z.of_nat i) = index_page c ++ r;
  it_bloom : ∀ i c, bloom_pieces bloom !! i = Some c →
    ∃ r, DiskManager.page_of b (1 + n_data es + n_index es + Z.of_nat i) = c ++ r;
  it_size : (1 + n_data es + n_index es + n_bloom bloom) * PAGE_SIZE ≤ blen b;
  it_end : blen b + PAGE_SIZE ≤ int64_max;
}.

Section layout.
Context (ideal : Z → Z * Z).

(** Entries and filter sizes that a table file can hold. *)
Record table_ok (es : list (KeyType * LSMValue)) : Prop := {
  tk_entries : ∀ e, e ∈ es → entry_ok e;
  tk_length : Z.of_nat (length es) < 2 ^ 31;
  tk_bits : (ideal (Z.max (Z.of_nat (length es)) 1)).1 ≤ 2 ^ 40;
}.

Lemma fill_bloom_ok es : ∀ bloom,
  (∀ e, e ∈ es → entry_ok e) → BloomFilter.wf bloom →
  ∃ bloom', fill_bloom es bloom = Val bloom' ∧ BloomFilter.wf bloom' ∧ BloomFilter.le bloom bloom' ∧
    ∀ e, e ∈ es → BloomFilter.MightContain e.1 bloom' = Val true.
Proof.
  induction es as [|[k v] es IH]; intros bloom Hok Hwf.
  { exists bloom. split_and!; [done|done|done|]. intros e He. by apply elem_of_nil in He. }
  destruct (Hok (k, v) ltac:(set_solver)) as [_ Hv]. simpl in Hv. cbn [fill_bloom]. rewrite (proj2 (Z.ltb_ge _ _)) by lia.
  destruct (BloomFilter.Add_ok k bloom Hwf) as (b1 & -> & Hwf1 & Hle1 & Hk). cbn [mbind res_bind].
  destruct (IH b1 ltac:(set_solver) Hwf1) as (b2 & E & Hwf2 & Hle2 & Hes). exists b2. split_and!; [done|done|by transitivity b1|].
  intros e [->|He]%elem_of_cons; [by eapply BloomFilter.MightContain_le|by apply Hes].
Qed.

(** The filter [Build] makes. *)
Definition filter_of es (bloom : BloomFilter.t) : Prop :=
  let sizes := ideal (Z.max (Z.of_nat (length es)) 1) in
  fill_bloom es (BloomFilter.New sizes.1 sizes.2) = Val bloom ∧ BloomFilter.wf bloom ∧
  BloomFilter.num_bits_ bloom ≤ 2 ^ 40 ∧ 1 ≤ BloomFilter.num_hashes_ bloom ≤ 32 ∧
  ∀ e, e ∈ es → BloomFilter.MightContain e.1 bloom = Val true.

Lemma filter_ok es : table_ok es → ∃ bloom, filter_of es bloom.
Proof.
  intros [He _ Hb]. set (sizes := ideal _) in *.
  destruct (fill_bloom_ok es (BloomFilter.New sizes.1 sizes.2) He (BloomFilter.New_wf _ _)) as (bloom & E & Hwf & (Hn & Hh & _ & _) & Hes).
  exists bloom. split_and!; [done|done| | | |done].
  - rewrite Hn. simpl. unfold BloomFilter.OptimalNumBits. lia.
  - rewrite Hh. simpl. unfold BloomFilter.OptimalNumHashes. lia.
  - rewrite Hh. simpl. unfold BloomFilter.OptimalNumHashes. lia.
Qed.

Lemma length_index_of es : length (index_of es) = length (pieces es).
Proof. unfold index_of. rewrite length_zip_with, length_fmap, length_seqZ. lia. Qed.

Lemma sizes_ok es bloom : table_ok es → filter_of es bloom →
  0 ≤ n_data es < 2 ^ 31 ∧ 0 ≤ n_index es < 2 ^ 31 ∧ 1 ≤ n_bloom bloom ≤ 2 ^ 38 ∧ 1 ≤ blen (BloomFilter.bits_ bloom) ≤ 2 ^ 38.
Proof.
  intros [_ Hl _] (_ & (Hw1 & Hw2) & Hb & _). unfold n_data, n_index, n_bloom, index_pieces, bloom_pieces.
  pose proof (length_chunks kMaxEntriesPerDataPage es ltac:(vm_compute; lia)).
  pose proof (length_chunks kMaxIndexEntriesPerPage (index_of es) ltac:(vm_compute; lia)). rewrite length_index_of in *.
  pose proof (length_chunks (Z.to_nat PAGE_SIZE) (BloomFilter.bits_ bloom) ltac:(vm_compute; lia)). unfold pieces in *. unfold blen in *.
  pose proof (Z.div_mod (BloomFilter.num_bits_ bloom + 7) 8 ltac:(lia)).
  pose proof (Z.mod_pos_bound (BloomFilter.num_bits_ bloom + 7) 8 ltac:(lia)).
  assert (chunks (Z.to_nat PAGE_SIZE) (BloomFilter.bits_ bloom) ≠ []) as Hne.
  { intros E%chunks_nil; [|vm_compute; lia]. rewrite E in Hw2. simpl in Hw2. lia. }
  destruct (chunks (Z.to_nat PAGE_SIZE) (BloomFilter.bits_ bloom)); [done|]. simpl length in *. lia.
Qed.

(** The three runs of pages of a table, written from page [n] on. *)
Section runs.
Context (behind : page_id_t → bytes) (es : list (KeyType * LSMValue)) (n : Z) (d : DiskManager.t).
Context (Hbehind : mapped behind) (Hok : table_ok es) (Ha : alive n d) (Hn : 0 ≤ n).

Lemma piece_ok c : c ∈ pieces es → (∀ e, e ∈ c → entry_ok e) ∧ (length c ≤ kMaxEntriesPerDataPage)%nat.
Proof using Hok.
  intros Hc. split; [|by apply (chunk_size kMaxEntriesPerDataPage es); [vm_compute; lia|]].
  intros e He. apply (tk_entries _ Hok). by apply (chunk_elem kMaxEntriesPerDataPage es c); [vm_compute; lia|..].
Qed.

Lemma write_data_ok : (n + n_data es) * PAGE_SIZE ≤ int64_max →
  ∃ d', write_pages (data_page <$> pieces es) (write_struct behind) d = (Val (seqZ n (n_data es)), d') ∧ alive (n + n_data es) d' ∧
    (∀ i page, (data_page <$> pieces es) !! i = Some page →
       DiskManager.contents d' (n + Z.of_nat i) = image behind (n + Z.of_nat i) page) ∧
    (∀ q, 0 ≤ q < n → DiskManager.contents d' q = DiskManager.contents d q).
Proof using Hbehind Hok Ha Hn.
  intros Hmax. destruct (write_pages_ok (write_struct behind) (image behind) (data_page <$> pieces es) n d) as
    (d1 & E1 & Ha1 & Hc1 & Ho1 & _ & _); [|done|done| |].
  { intros pid page d' (c & -> & Hc)%list_elem_of_fmap Hh Hv. apply write_struct_ok; [done|done|done|].
    destruct (piece_ok c Hc). rewrite blen_data_page by done. lia. }
  { by rewrite length_fmap. }
  rewrite length_fmap in E1, Ha1. exists d1. by split_and!.
Qed.

Lemma write_index_ok (index : list (KeyType * page_id_t)) :
  let pcs := chunks kMaxIndexEntriesPerPage index in
  (n + Z.of_nat (length pcs)) * PAGE_SIZE ≤ int64_max →
  ∃ d', write_pages (index_page <$> pcs) (write_struct behind) d = (Val (seqZ n (Z.of_nat (length pcs))), d') ∧
    alive (n + Z.of_nat (length pcs)) d' ∧
    (∀ i page, (index_page <$> pcs) !! i = Some page →
       DiskManager.contents d' (n + Z.of_nat i) = image behind (n + Z.of_nat i) page) ∧
    (∀ q, 0 ≤ q < n → DiskManager.contents d' q = DiskManager.contents d q).
Proof using Hbehind Ha Hn.
  intros pcs Hmax. destruct (write_pages_ok (write_struct behind) (image behind) (index_page <$> pcs) n d) as
    (d2 & E2 & Ha2 & Hc2 & Ho2 & _ & _); [|done|done| |].
  { intros pid page d' (c & -> & Hc)%list_elem_of_fmap Hh Hv. apply write_struct_ok; [done|done|done|].
    rewrite blen_index_page by (by apply (chunk_size kMaxIndexEntriesPerPage index); [vm_compute; lia|]). lia. }
  { by rewrite length_fmap. }
  rewrite length_fmap in E2, Ha2. exists d2. by split_and!.
Qed.

Lemma write_bloom_ok (bloom : BloomFilter.t) : (n + n_bloom bloom) * PAGE_SIZE ≤ int64_max → 1 ≤ n_bloom bloom →
  ∃ d', write_pages (bloom_page <$> bloom_pieces bloom) DiskManager.WritePage d = (Val (seqZ n (n_bloom bloom)), d') ∧
    alive (n + n_bloom bloom) d' ∧ ends (n + n_bloom bloom) d' ∧
    (∀ i page, (bloom_page <$> bloom_pieces bloom) !! i = Some page → DiskManager.contents d' (n + Z.of_nat i) = page) ∧
    (∀ q, 0 ≤ q < n → DiskManager.contents d' q = DiskManager.contents d q).
Proof using Ha Hn.
  intros Hmax Hnb. destruct (write_pages_ok DiskManager.WritePage (λ _ x, x) (bloom_page <$> bloom_pieces bloom) n d) as
    (d3 & E3 & Ha3 & Hc3 & Ho3 & He3 & _); [|done|done| |].
  { intros pid page d' (c & -> & Hc)%list_elem_of_fmap Hh Hv.
    destruct (chunk_size (Z.to_nat PAGE_SIZE) (BloomFilter.bits_ bloom) c ltac:(vm_compute; lia) Hc) as [_ Hl].
    assert (blen (bloom_page c) = PAGE_SIZE).
    { unfold bloom_page. unfold PAGE_SIZE in *. rewrite blen_app, blen_zeros; unfold blen; lia. }
    split; [|done]. by apply DiskManager.WritePage_ok. }
  { by rewrite length_fmap. }
  rewrite length_fmap in E3, Ha3, He3. exists d3. split_and!; try done. apply He3.
  intros E. apply (f_equal length) in E. rewrite length_fmap in E. unfold n_bloom in Hnb. simpl in E. lia.
Qed.
End runs.

Lemma lift_bloom es bloom (d : DiskManager.t) : filter_of es bloom →
  lift (fill_bloom es (BloomFilter.New (ideal (Z.max (Z.of_nat (length es)) 1)).1 (ideal (Z.max (Z.of_nat (length es)) 1)).2)) d = (Val bloom, d).
Proof. intros (Ef & _). unfold lift. by rewrite Ef. Qed.

Lemma write_table_ok behind path es :
  mapped behind → table_ok es → ∃ bloom d, filter_of es bloom ∧
    write_table behind ideal es (DiskManager.mk (DiskManager.File [] []) path 0 0 0) = (Val tt, d) ∧
    DiskManager.healthy d ∧ is_table (DiskManager.f_data (DiskManager.fd_ d)) es bloom ∧
    blen (DiskManager.f_data (DiskManager.fd_ d)) ≤ 2 ^ 52.
Proof.
  intros Hbehind Hok. destruct (filter_ok es Hok) as (bloom & Hf). pose proof (sizes_ok es bloom Hok Hf) as (Hnd & Hni & Hnb & Hbits).
  set (d0 := DiskManager.mk _ path 0 0 0). exists bloom.
  destruct (write_data_ok behind es 1 (alloc d0)) as (d1 & E1 & Ha1 & Hc1 & Ho1); [done|done|by split_and!|lia|unfold PAGE_SIZE, int64_max; lia|].
  destruct (write_index_ok behind (1 + n_data es) d1 Hbehind Ha1 ltac:(lia) (index_of es)) as (d2 & E2 & Ha2 & Hc2 & Ho2);
    [fold (index_pieces es); fold (n_index es); unfold PAGE_SIZE, int64_max; lia|]. fold (index_pieces es) in *. fold (n_index es) in *.
  destruct (write_bloom_ok (1 + n_data es + n_index es) d2 Ha2 ltac:(lia) bloom) as (d3 & E3 & (Hh3 & _ & _) & Hends & Hc3 & Ho3);
    [unfold PAGE_SIZE, int64_max; lia|lia|].
  destruct (write_struct_ok behind 0 (header_bytes (header_of es bloom)) d3 Hbehind Hh3) as [E4 Hl4]; [by split; vm_compute|by rewrite blen_header|].
  exists (written 0 (image behind 0 (header_bytes (header_of es bloom))) d3).
  assert (Hsize : blen (DiskManager.f_data (DiskManager.fd_ (written 0 (image behind 0 (header_bytes (header_of es bloom))) d3))) =
    (1 + n_data es + n_index es + n_bloom bloom) * PAGE_SIZE).
  { simpl. rewrite DiskManager.blen_write_file by done. rewrite Hl4. unfold ends in Hends. rewrite Hends. unfold PAGE_SIZE. lia. }
  split_and!; [done| |done| |rewrite Hsize; unfold PAGE_SIZE; lia].
  - unfold write_table.
    mrun (eq_refl : DiskManager.AllocatePage d0 = (Val 0, alloc d0)). mrun (lift_bloom es bloom (alloc d0) Hf).
    fold (pieces es). mrun E1. unfold n_data at 1 2. fold (index_of es). fold (index_pieces es). mrun E2.
    fold (bloom_pieces bloom). mrun E3. exact E4.
  - split; [..|by rewrite Hsize|rewrite Hsize; unfold PAGE_SIZE, int64_max; lia]; simpl.
    + destruct (image_prefix behind 0 (header_bytes (header_of es bloom))) as [c Ec]; [by rewrite blen_header|].
      exists c. rewrite DiskManager.page_of_write_eq by done. done.
    + intros i c Hi. pose proof (lookup_lt_Some _ _ _ Hi) as Hlt. assert (Hp : Z.of_nat i < n_data es) by (unfold n_data; lia).
      rewrite DiskManager.page_of_write_ne by (done || lia). fold (DiskManager.contents d3).
      rewrite Ho3, Ho2 by lia. rewrite (Hc1 i (data_page c)) by (by rewrite list_lookup_fmap, Hi).
      destruct (piece_ok es Hok c) as [He Hl]; [by eapply list_elem_of_lookup_2|].
      destruct (image_prefix behind (1 + Z.of_nat i) (data_page c)) as [r ->]; [by rewrite blen_data_page|]. by apply data_page_ok.
    + intros i c Hi. pose proof (lookup_lt_Some _ _ _ Hi) as Hlt. assert (Hp : Z.of_nat i < n_index es) by (unfold n_index; lia).
      rewrite DiskManager.page_of_write_ne by (done || lia). fold (DiskManager.contents d3).
      rewrite Ho3 by lia. rewrite (Hc2 i (index_page c)) by (by rewrite list_lookup_fmap, Hi).
      apply image_prefix. rewrite blen_index_page; [done|].
      apply (chunk_size kMaxIndexEntriesPerPage (index_of es)); [vm_compute; lia|by eapply list_elem_of_lookup_2].
    + intros i c Hi. rewrite DiskManager.page_of_write_ne by (done || lia). fold (DiskManager.contents d3).
      rewrite (Hc3 i (bloom_page c)) by (by rewrite list_lookup_fmap, Hi). unfold bloom_page. eauto.
Qed.

(** Written to a file that has pages, a table goes behind them. *)
Lemma write_table_behind behind es n d :
  mapped behind → table_ok es → alive n d → 0 ≤ n ≤ 2 ^ 41 →
  ∃ d', write_table behind ideal es d = (Val tt, d') ∧ DiskManager.healthy d' ∧
    (∀ q, 0 ≤ q < n → DiskManager.contents d' q = DiskManager.contents d q) ∧
    n * PAGE_SIZE ≤ blen (DiskManager.f_data (DiskManager.fd_ d')) ≤ (n + 2 ^ 39) * PAGE_SIZE.
Proof.
  intros Hbehind Hok (Hh & Hn & Hl) Hn0. destruct (filter_ok es Hok) as (bloom & Hf). pose proof (sizes_ok es bloom Hok Hf) as (Hnd & Hni & Hnb & Hbits).
  destruct (write_data_ok behind es (n + 1) (alloc d)) as (d1 & E1 & Ha1 & _ & Ho1);
    [done|done|split_and!; [done|simpl; lia|simpl; unfold PAGE_SIZE in *; lia]|lia|unfold PAGE_SIZE, int64_max; lia|].
  set (index := zip (first_key <$> pieces es) (seqZ (n + 1) (n_data es))).
  assert (Hli : Z.of_nat (length (chunks kMaxIndexEntriesPerPage index)) < 2 ^ 31).
  { pose proof (length_chunks kMaxIndexEntriesPerPage index ltac:(vm_compute; lia)) as Hlc.
    assert (length index = length (pieces es)) as Hlx by (unfold index; rewrite length_zip_with, length_fmap, length_seqZ; unfold n_data; lia).
    unfold n_data in Hnd. lia. }
  destruct (write_index_ok behind (n + 1 + n_data es) d1 Hbehind Ha1 ltac:(lia) index) as (d2 & E2 & Ha2 & _ & Ho2);
    [unfold PAGE_SIZE, int64_max; lia|]. set (ni := Z.of_nat (length (chunks kMaxIndexEntriesPerPage index))) in *.
  destruct (write_bloom_ok (n + 1 + n_data es + ni) d2 Ha2 ltac:(lia) bloom) as (d3 & E3 & (Hh3 & _ & _) & Hends & _ & Ho3);
    [unfold PAGE_SIZE, int64_max; lia|lia|].
  set (header := header_bytes (mkHeader (Z.of_nat (length es)) (first_key es) (last_key es) (Z.of_nat (length (pieces es)))
    (first_page (seqZ (n + 1) (n_data es))) (Z.of_nat (length index)) (first_page (seqZ (n + 1 + n_data es) ni))
    (blen (BloomFilter.bits_ bloom)) (BloomFilter.num_bits_ bloom) (BloomFilter.num_hashes_ bloom)
    (first_page (seqZ (n + 1 + n_data es + ni) (n_bloom bloom))))).
  assert (Hvn : DiskManager.valid_id n) by (split; [lia|unfold PAGE_SIZE, int64_max; lia]).
  destruct (write_struct_ok behind n header d3 Hbehind Hh3 Hvn) as [E4 Hl4]; [unfold header; by rewrite blen_header|].
  exists (written n (image behind n header) d3). split_and!; [|done| | |].
  - unfold write_table.
    assert (Eal : DiskManager.AllocatePage d = (Val n, alloc d)) by (unfold DiskManager.AllocatePage; rewrite <-Hn; done).
    mrun Eal. mrun (lift_bloom es bloom (alloc d) Hf). fold (pieces es). mrun E1. fold index. mrun E2. fold (bloom_pieces bloom). mrun E3. exact E4.
  - intros q Hq. rewrite written_contents by (done || lia). rewrite decide_False by lia. rewrite Ho3, Ho2, Ho1 by lia. done.
  - simpl. rewrite DiskManager.blen_write_file, Hl4 by lia. unfold PAGE_SIZE. lia.
  - simpl. rewrite DiskManager.blen_write_file, Hl4 by lia. unfold ends in Hends. rewrite Hends. unfold PAGE_SIZE. lia.
Qed.

(** A table stays one when pages are added. *)
Lemma is_table_longer b b' es bloom :
  is_table b es bloom → (∀ q, 0 ≤ q → (q + 1) * PAGE_SIZE ≤ blen b → DiskManager.page_of b' q = DiskManager.page_of b q) →
  blen b ≤ blen b' → blen b' + PAGE_SIZE ≤ int64_max → is_table b' es bloom.
Proof.
  intros [H1 H2 H3 H4 H5 _] Hq Hle Hmax. assert (0 ≤ n_data es ∧ 0 ≤ n_index es ∧ 0 ≤ n_bloom bloom) as (? & ? & ?) by (unfold n_data, n_index, n_bloom; lia).
  assert (Hp : ∀ q, 0 ≤ q < 1 + n_data es + n_index es + n_bloom bloom → DiskManager.page_of b' q = DiskManager.page_of b q).
  { intros q Hb. apply Hq; [lia|]. unfold PAGE_SIZE in *. lia. }
  split; [..|lia|done].
  - rewrite Hp by lia. done.
  - intros i c Hi. pose proof (lookup_lt_Some _ _ _ Hi). rewrite Hp by (unfold n_data in *; lia). by apply H2.
  - intros i c Hi. pose proof (lookup_lt_Some _ _ _ Hi). rewrite Hp by (unfold n_index in *; lia). by apply H3.
  - intros i c Hi. pose proof (lookup_lt_Some _ _ _ Hi). rewrite Hp by (unfold n_bloom in *; lia). by apply H4.
Qed.

(** ** Loading *)

(** Reads only count. *)
Definition same_disk (d d' : DiskManager.t) : Prop :=
  DiskManager.fd_ d' = DiskManager.fd_ d ∧ DiskManager.next_page_id_ d' = DiskManager.next_page_id_ d.

Lemma ReadPage_same p d :
  DiskManager.healthy d → DiskManager.valid_id p →
  ∃ d', DiskManager.ReadPage p d = (Val (DiskManager.page_of (DiskManager.f_data (DiskManager.fd_ d)) p), d') ∧ same_disk d d'.
Proof. intros Hh Hp. rewrite DiskManager.ReadPage_ok by done. by eexists. Qed.

Lemma read_index_ok fuel : ∀ pcs pid out d,
  DiskManager.healthy d → (length pcs ≤ fuel)%nat → 0 ≤ pid → (pid + Z.of_nat (length pcs)) * PAGE_SIZE ≤ int64_max →
  (∀ c, c ∈ pcs → c ≠ [] ∧ (length c ≤ kMaxIndexEntriesPerPage)%nat ∧ ∀ e, e ∈ c → is_i64 e.1 ∧ is_i64 e.2) →
  (∀ i c, pcs !! i = Some c → ∃ r, DiskManager.page_of (DiskManager.f_data (DiskManager.fd_ d)) (pid + Z.of_nat i) = index_page c ++ r) →
  ∃ d', read_index fuel (Z.of_nat (length (concat pcs))) pid out d = (Val (out ++ concat pcs), d') ∧ same_disk d d'.
Proof.
  induction fuel as [|fuel IH]; intros [|c pcs] pid out d Hh Hf Hpid Hmax Hpcs Hpg; simpl in Hf; try lia.
  1, 2: exists d; simpl; by rewrite app_nil_r.
  destruct (Hpcs c ltac:(set_solver)) as (Hne & Hlen & Hent). simpl length in Hmax.
  assert (Hv : DiskManager.valid_id pid) by (split; [done|unfold PAGE_SIZE in *; lia]).
  destruct (ReadPage_same pid d Hh Hv) as (d1 & E1 & Hs1). destruct (Hpg 0%nat c eq_refl) as [r Er]. rewrite Z.add_0_r in Er. rewrite Er in E1.
  destruct (index_page_ok c r Hent Hlen) as [Ec Ee]. cbn [read_index].
  assert (0 < length c)%nat by (destruct c; simpl; [done|lia]).
  rewrite (proj2 (Z.leb_gt _ 0)) by (simpl; rewrite length_app; lia). mrun E1. rewrite Ec.
  rewrite (proj2 (Z.ltb_ge _ _)) by lia. rewrite Nat2Z.id, Ee.
  replace (Z.of_nat (length (concat (c :: pcs))) - Z.of_nat (length c)) with (Z.of_nat (length (concat pcs))) by (simpl; rewrite length_app; lia).
  destruct Hs1 as [Hfd Hnx].
  destruct (IH pcs (pid + 1) (out ++ c) d1) as (d2 & E2 & Hs2).
  - unfold DiskManager.healthy. by rewrite Hfd.
  - lia.
  - lia.
  - replace (pid + 1 + Z.of_nat (length pcs)) with (pid + Z.of_nat (S (length pcs))) by lia. done.
  - intros c' Hc'. apply Hpcs. set_solver.
  - intros i c' Hi. rewrite Hfd. destruct (Hpg (S i) c' Hi) as [r' Er']. exists r'. rewrite <-Er'. f_equal. lia.
  - exists d2. rewrite E2. destruct Hs2 as [H1 H2]. split; [by rewrite <-app_assoc|]. split; congruence.
Qed.

Lemma read_bloom_ok fuel : ∀ bits pid out d,
  DiskManager.healthy d → (length bits ≤ fuel)%nat → 0 ≤ pid → (pid + blen bits) * PAGE_SIZE ≤ int64_max →
  (∀ i c, chunks_fuel fuel (Z.to_nat PAGE_SIZE) bits !! i = Some c →
    ∃ r, DiskManager.page_of (DiskManager.f_data (DiskManager.fd_ d)) (pid + Z.of_nat i) = c ++ r) →
  ∃ d', read_bloom fuel (blen bits) pid out d = (Val (out ++ bits), d') ∧ same_disk d d'.
Proof.
  induction fuel as [|fuel IH]; intros [|b bits] pid out d Hh Hf Hpid Hmax Hpg; simpl in Hf; try lia.
  1, 2: exists d; simpl; by rewrite app_nil_r.
  set (all := b :: bits) in *. assert (Hb : 1 ≤ blen all) by (unfold blen, all; simpl; lia).
  assert (Hv : DiskManager.valid_id pid) by (split; [done|unfold PAGE_SIZE in *; lia]).
  destruct (ReadPage_same pid d Hh Hv) as (d1 & E1 & [Hfd Hnx]).
  destruct (Hpg 0%nat (take (Z.to_nat PAGE_SIZE) all) eq_refl) as [r Er]. rewrite Z.add_0_r in Er. rewrite Er in E1.
  cbn [read_bloom]. rewrite (proj2 (Z.leb_gt _ 0)) by lia. mrun E1. set (n := Z.min (blen all) PAGE_SIZE).
  assert (Hbt : blen (take (Z.to_nat PAGE_SIZE) all) = n) by (unfold n, blen, PAGE_SIZE in *; rewrite length_take; lia).
  rewrite block_head by done.
  assert (Hbd : blen (drop (Z.to_nat PAGE_SIZE) all) = blen all - n) by (unfold n, blen, PAGE_SIZE in *; rewrite length_drop; lia).
  rewrite <-Hbd.
  destruct (IH (drop (Z.to_nat PAGE_SIZE) all) (pid + 1) (out ++ take (Z.to_nat PAGE_SIZE) all) d1) as (d2 & E2 & Hs2).
  - unfold DiskManager.healthy. by rewrite Hfd.
  - rewrite length_drop. unfold all. simpl length. assert (1 ≤ Z.to_nat PAGE_SIZE)%nat by (unfold PAGE_SIZE; lia). lia.
  - lia.
  - rewrite Hbd. unfold n, PAGE_SIZE in *. lia.
  - intros i c Hi. rewrite Hfd. destruct (Hpg (S i) c Hi) as [r' Er']. exists r'. rewrite <-Er'. f_equal. lia.
  - exists d2. rewrite E2. destruct Hs2 as [H1 H2]. split; [by rewrite <-app_assoc, take_drop|]. split; congruence.
Qed.

Lemma first_page_seqZ a n : 0 < n → first_page (seqZ a n) = a.
Proof. intros Hn. rewrite seqZ_cons by done. done. Qed.

Lemma keys_i64 es : (∀ e, e ∈ es → entry_ok e) → is_i64 (first_key es) ∧ is_i64 (last_key es).
Proof.
  intros H. split.
  - destruct es as [|e es]; [by vm_compute|]. apply (H e). set_solver.
  - unfold last_key. destruct (last es) as [e|] eqn:E; [|by vm_compute]. apply (H e). by apply last_Some_elem_of.
Qed.

Lemma header_of_ok es bloom : table_ok es → filter_of es bloom → header_ok (header_of es bloom).
Proof.
  intros Hok Hf. pose proof (sizes_ok es bloom Hok Hf) as (Hnd & Hni & Hnb & Hbits). destruct Hf as (_ & (Hw1 & Hw2) & Hb & Hh & _).
  destruct (keys_i64 es (tk_entries _ Hok)) as [Hk1 Hk2]. pose proof (tk_length _ Hok).
  assert (Hfp : ∀ a n, 0 ≤ a < 2 ^ 60 → is_i64 (first_page (seqZ a n))).
  { intros a n Ha. destruct (decide (0 < n)); [rewrite first_page_seqZ by done|rewrite seqZ_nil by lia];
      unfold is_i64, int64_min, int64_max, first_page, INVALID_PAGE_ID; simpl; lia. }
  split; simpl; try done; try (apply Hfp; lia); try (unfold is_i64, is_i32, is_u64, int64_min, int64_max in *; lia).
  rewrite length_index_of. unfold n_data in *. unfold is_i64, int64_min, int64_max. lia.
Qed.

Lemma table_load_ok d es bloom :
  table_ok es → filter_of es bloom → DiskManager.healthy d → is_table (DiskManager.f_data (DiskManager.fd_ d)) es bloom →
  ∃ d', load d = (Val (header_of es bloom, index_of es, bloom), d') ∧ same_disk d d'.
Proof.
  intros Hok Hf Hh [[c Hhd] _ Hidx Hblm _]. pose proof (sizes_ok es bloom Hok Hf) as (Hnd & Hni & Hnb & Hbits).
  pose proof (header_of_ok es bloom Hok Hf) as Hho. unfold load.
  destruct (ReadPage_same 0 d Hh ltac:(by split; vm_compute)) as (d1 & E1 & [Hfd1 Hnx1]). rewrite Hhd in E1. mrun E1.
  rewrite (read_header_ok _ c Hho). cbn [header_of h_num_index_entries h_first_index_page_id h_bloom_num_bytes h_bloom_num_bits h_bloom_num_hashes h_first_bloom_page_id].
  assert (Hcc : concat (index_pieces es) = index_of es) by (apply concat_chunks; vm_compute; lia).
  assert (∃ d2, read_index (Z.to_nat (Z.of_nat (length (index_of es)))) (Z.of_nat (length (concat (index_pieces es))))
    (first_page (seqZ (1 + n_data es) (n_index es))) [] d1 = (Val ([] ++ concat (index_pieces es)), d2) ∧ same_disk d1 d2) as (d2 & E2 & [Hfd2 Hnx2]).
  { destruct (decide (0 < n_index es)) as [Hpos|Hz].
    - rewrite first_page_seqZ by done. rewrite Nat2Z.id. apply (read_index_ok _ (index_pieces es) _ []).
      + unfold DiskManager.healthy. by rewrite Hfd1.
      + apply length_chunks. vm_compute; lia.
      + lia.
      + fold (n_index es). unfold PAGE_SIZE, int64_max. lia.
      + intros pc Hpc. destruct (chunk_size kMaxIndexEntriesPerPage (index_of es) pc ltac:(vm_compute; lia) Hpc) as [Hne Hlen].
        split_and!; [done|done|]. intros [k p] He.
        assert ((k, p) ∈ index_of es) as Hin by (by apply (chunk_elem kMaxIndexEntriesPerPage (index_of es) pc); [vm_compute; lia|..]).
        unfold index_of in Hin. pose proof (elem_of_zip_l _ _ _ _ Hin) as Hk. pose proof (elem_of_zip_r _ _ _ _ Hin) as Hp. split; simpl.
        * apply list_elem_of_fmap in Hk as (pc' & -> & Hpc'). apply keys_i64. intros e' He'. apply (tk_entries _ Hok).
          by apply (chunk_elem kMaxEntriesPerDataPage es pc'); [vm_compute; lia|..].
        * apply elem_of_seqZ in Hp. unfold n_data in Hnd. unfold is_i64, int64_min, int64_max. lia.
      + intros i pc Hi. rewrite Hfd1. by apply Hidx.
    - unfold n_index in Hz. destruct (index_pieces es) eqn:E; [|simpl in Hz; lia]. exists d1. split; [|done].
      simpl. destruct (Z.to_nat (Z.of_nat (length (index_of es)))); done. }
  rewrite Hcc in E2. mrun E2.
  assert (∃ d3, read_bloom (Z.to_nat (blen (BloomFilter.bits_ bloom))) (blen (BloomFilter.bits_ bloom))
    (first_page (seqZ (1 + n_data es + n_index es) (n_bloom bloom))) [] d2 = (Val (BloomFilter.bits_ bloom), d3) ∧ same_disk d2 d3)
    as (d3 & E3 & [Hfd3 Hnx3]).
  { rewrite first_page_seqZ by lia. unfold blen at 1. rewrite Nat2Z.id. apply (read_bloom_ok _ (BloomFilter.bits_ bloom) _ []).
    - unfold DiskManager.healthy. by rewrite Hfd2, Hfd1.
    - done.
    - lia.
    - unfold PAGE_SIZE, int64_max. lia.
    - intros i pc Hi. rewrite Hfd2, Hfd1. by apply Hblm. }
  mrun E3. exists d3. split; [by destruct bloom|]. split; congruence.
Qed.
End layout.
End SSTableFile.
