(* ===== verification/SSTableTheory.v ===== *)
(** * Theory of open tables: lookups and iterators *)

From stdpp Require Import gmultiset.
From S2P Require Import Prelude Entries Bytes Structs Disk Replacer ReplacerTheory Buffer BufferTheory BTreeSim BTreeEngineTheory BTreeReopen.
From S2P Require Import MemTable SkipListTheory Bloom SSTable SSTablePages SSTableFile.

#[local] Opaque le_enc DiskManager.page_of DiskManager.write_file.

Module SSTableTheory.
Import SSTable SSTablePages SSTableFile.

Abbreviation pool := (BufferPoolManager.t LRUKReplacer.t) (only parsing).

(** ** A pool that is only read *)

(** The pool serves the pages [pgs]; [pins] are pinned. *)
Definition reads (b : pool) (pgs : gmap page_id_t bytes) (pins : gmultiset page_id_t) : Prop :=
  ∃ a, pool_rel [] b a ∧ APool.cap a = 8 ∧ APool.pages a = pgs ∧ APool.pins a = pins ∧ APool.unsaved a = ∅.

Lemma fetch_reads b pgs pins p x :
  reads b pgs pins → pgs !! p = Some x → Z.of_nat (size (dom pins)) < 8 →
  ∃ b', pool_fetch p b = (Val true, b') ∧ reads b' pgs (pins ⊎ {[+ p +]}).
Proof.
  intros (a & Hr & Hc & <- & <- & Hu) Hp Hs.
  destruct (sim_Val (pool_rel []) (pool_fetch p) (pool_fetch p) b a true
    (APool.mk (APool.cap a) (APool.pages a) (APool.pins a ⊎ {[+ p +]}) (APool.unsaved a) (APool.next a)) (ps_fetch p) Hr) as (b' & E & Hr').
  - simpl. unfold APool.fetch. rewrite Hp. unfold APool.has_room. rewrite Hc, (proj2 (Z.ltb_lt _ _) Hs), orb_true_r. done.
  - exists b'. split; [done|]. eexists. split; [exact Hr'|done].
Qed.

Lemma read_reads b pgs pins p x :
  reads b pgs pins → pgs !! p = Some x → p ∈ pins → ∃ b', pool_read p b = (Val x, b') ∧ reads b' pgs pins.
Proof.
  intros (a & Hr & Hc & <- & <- & Hu) Hp Hin.
  destruct (sim_Val (pool_rel []) (pool_read p) (pool_read p) b a x a (ps_read p) Hr) as (b' & E & Hr').
  - simpl. unfold APool.read. by rewrite Hp, bool_decide_eq_true_2.
  - exists b'. split; [done|]. by exists a.
Qed.

Lemma unpin_reads b pgs pins p :
  reads b pgs pins → p ∈ pins → ∃ b', pool_unpin p false b = (Val true, b') ∧ reads b' pgs (pins ∖ {[+ p +]}).
Proof.
  intros (a & Hr & Hc & <- & <- & Hu) Hin.
  destruct (sim_Val (pool_rel []) (pool_unpin p false) (pool_unpin p false) b a true
    (APool.mk (APool.cap a) (APool.pages a) (APool.pins a ∖ {[+ p +]}) (APool.unsaved a) (APool.next a)) (ps_unpin p false) Hr) as (b' & E & Hr').
  - simpl. unfold APool.unpin. rewrite bool_decide_eq_true_2 by done. simpl. rewrite Hu.
    rewrite (bool_decide_eq_false_2 (p ∈ ∅)) by set_solver. by rewrite andb_false_r.
  - exists b'. split; [done|]. eexists. split; [exact Hr'|]. done.
Qed.

Lemma size_dom_le (X : gmultiset page_id_t) : (size (dom X) ≤ size X)%nat.
Proof.
  induction X as [|x X IH] using gmultiset_ind; [done|].
  assert (HD : dom ({[+x+]} ⊎ X) ≡@{gset page_id_t} {[x]} ∪ dom X).
  { intros y. rewrite elem_of_union, !gmultiset_elem_of_dom. multiset_solver. }
  rewrite HD, gmultiset_size_disj_union, gmultiset_size_singleton.
  rewrite size_union_alt, size_singleton. pose proof (subseteq_size (dom X ∖ {[x]}) (dom X) ltac:(set_solver)). lia.
Qed.

(** ** Open tables *)

(** The table's members say that its entries are [es]. *)
Record members (es : list (KeyType * LSMValue)) (s : t pool) : Prop := {
  th_sorted : sorted es;
  th_index : sparse_index_ s = index_of es;
  th_count : num_entries_ s = Z.of_nat (length es);
  th_min : min_key_ s = first_key es;
  th_max : max_key_ s = last_key es;
  th_pages : num_data_pages_ s = n_data es;
  th_first : es ≠ [] → first_data_page_id_ s = 1;
  th_wf : BloomFilter.wf (bloom_ s);
  th_bloom : ∀ e, e ∈ es → BloomFilter.MightContain e.1 (bloom_ s) = Val true;
}.

(** The data pages of [es]. *)
Definition data_pages (pgs : gmap page_id_t bytes) (es : list (KeyType * LSMValue)) : Prop :=
  ∀ i c, pieces es !! i = Some c → ∃ page, pgs !! (1 + Z.of_nat i) = Some page ∧ is_data page c.

(** The table has the entries [es]; iterators have the pages [pins] pinned. *)
Definition holds (es : list (KeyType * LSMValue)) (pins : gmultiset page_id_t) (s : t pool) : Prop :=
  members es s ∧ ∃ pgs, reads (bpm_ s) pgs pins ∧ data_pages pgs es.

Lemma table_Open_ok ideal path f es bloom :
  DiskManager.f_faults f = [] → sorted es → table_ok ideal es → filter_of ideal es bloom → is_table (DiskManager.f_data f) es bloom →
  ∃ s f', Open path f = (Val s, f') ∧ DiskManager.f_data f' = DiskManager.f_data f ∧ DiskManager.f_faults f' = [] ∧ holds es ∅ s ∧ path_ s = path.
Proof.
  intros Hf Hs Hok Hb Ht. unfold Open. rewrite (Open_disk path f Hf). set (d := DiskManager.mk f path _ 0 0).
  destruct (table_load_ok ideal d es bloom Hok Hb Hf Ht) as (d' & E & Hfd & Hnx). rewrite E.
  pose proof (sizes_ok ideal es bloom Hok Hb) as (Hnd & Hni & Hnb & Hbits).
  set (rep := LRUKReplacer.mk 8 2 0 0 ∅). assert (Hnew : LRUKReplacer.New kSSTableBufferPoolFrames 2 = Val rep) by done. rewrite Hnew.
  pose proof (LRUKTheory.rel_new 8 2 rep ltac:(lia) Hnew) as Hrel.
  pose proof (it_size _ _ _ Ht) as Hsize. pose proof (it_end _ _ _ Ht) as Hend.
  assert (Hn' : DiskManager.next_page_id_ d' = pages_in (blen (DiskManager.f_data f))) by (by rewrite Hnx).
  pose proof (pages_in_ge (blen (DiskManager.f_data f))) as Hge.
  assert (Hpages : 1 + n_data es + n_index es + n_bloom bloom ≤ pages_in (blen (DiskManager.f_data f))) by (unfold PAGE_SIZE in *; lia).
  assert (Hmax : pages_in (blen (DiskManager.f_data f)) * PAGE_SIZE ≤ int64_max).
  { unfold pages_in. pose proof (Z.mul_div_le (blen (DiskManager.f_data f) + PAGE_SIZE - 1) PAGE_SIZE ltac:(done)). lia. }
  assert (Hpr : pool_rel [] (BufferPoolManager.New kSSTableBufferPoolFrames d' rep) (boot 8 d')).
  { apply pool_rel_new; [done| |lia| |by exists ∅|done|done].
    - split; [unfold DiskManager.healthy; by rewrite Hfd|]. rewrite Hn', Hfd. exact Hge.
    - by rewrite Hn'. }
  eexists _, _. split; [done|]. rewrite Hfd. split_and!; [done|done| |done].
  split; [split; cbn [sparse_index_ num_entries_ min_key_ max_key_ num_data_pages_ first_data_page_id_ bloom_ header_of
    h_num_entries h_min_key h_max_key h_num_data_pages h_first_data_page_id]; try done|].
  - intros Hne. apply first_page_seqZ. unfold n_data. destruct (pieces es) eqn:Ep; [|simpl; lia].
    destruct Hne. by apply (chunks_nil kMaxEntriesPerDataPage es); [vm_compute; lia|].
  - apply Hb.
  - apply Hb.
  - exists (APool.pages (boot 8 d')). split; [by exists (boot 8 d')|]. intros i c Hi.
    exists (DiskManager.contents d' (1 + Z.of_nat i)). pose proof (lookup_lt_Some _ _ _ Hi). split.
    + apply boot_pages. split; [|done]. rewrite Hn'. unfold n_data in *. lia.
    + unfold DiskManager.contents. rewrite Hfd. by apply (it_data _ _ _ Ht).
Qed.

(** ** The page of a key *)

Lemma locate (ps : list (list (KeyType * LSMValue))) k : ∀ pids : list page_id_t,
  length pids = length ps → (∀ c, c ∈ ps → c ≠ []) → sorted (concat ps) → ps ≠ [] → first_key (concat ps) ≤ k →
  ∃ pre c post, ps = pre ++ c :: post ∧ Nat.pred (upper_bound k (zip (first_key <$> ps) pids)) = length pre ∧
    (∀ e, e ∈ concat pre → e.1 < k) ∧ first_key c ≤ k ∧ (∀ e, e ∈ concat post → k < e.1).
Proof.
  induction ps as [|c ps IH]; [done|]. intros [|pid pids] Hl Hne Hs _ Hk; [done|]. injection Hl as Hl.
  destruct c as [|[k0 v0] c]; [destruct (Hne []); set_solver|]. cbn in Hk. simpl zip. cbn [upper_bound].
  rewrite (proj2 (Z.ltb_ge _ _) Hk : k <? first_key ((k0, v0) :: c) = false). cbn [Nat.pred].
  destruct ps as [|[|[k1 v1] c1] ps]; [|destruct (Hne []); set_solver|].
  { exists [], ((k0, v0) :: c), []. split_and!; [done|by destruct pids|set_solver|done|set_solver]. }
  destruct pids as [|pid1 pids]; [done|]. simpl concat in Hs. rewrite app_comm_cons in Hs.
  destruct (sorted_halves ((k0, v0) :: c) _ _ _ Hs) as (Ha & Hb & Hlt & Hge).
  destruct (Z.ltb_spec k k1) as [Hk1|Hk1].
  - exists [], ((k0, v0) :: c), (((k1, v1) :: c1) :: ps). split_and!; [done| |set_solver|done|].
    + simpl. unfold first_key at 1. simpl. by rewrite (proj2 (Z.ltb_lt _ _) Hk1).
    + simpl concat. intros e He. specialize (Hge e He). lia.
  - destruct (IH (pid1 :: pids) Hl ltac:(set_solver) Hb ltac:(done) Hk1) as (pre & c' & post & E & Hu & Hpre & Hc & Hpost).
    exists (((k0, v0) :: c) :: pre), c', post. split_and!; [by rewrite E| | |done|done].
    + cbn [length]. rewrite <-Hu, !fmap_cons. cbn [zip zip_with upper_bound].
      by rewrite (proj2 (Z.ltb_ge _ _) Hk1 : k <? first_key ((k1, v1) :: c1) = false).
    + simpl concat. rewrite app_comm_cons. intros e [He|He]%elem_of_app; [specialize (Hlt e He); lia|by apply Hpre].
Qed.

Lemma pieces_ok es : concat (pieces es) = es ∧ (∀ c, c ∈ pieces es → c ≠ []) ∧ (es ≠ [] → pieces es ≠ []).
Proof.
  assert (0 < kMaxEntriesPerDataPage)%nat by (vm_compute; lia). split_and!.
  - by apply concat_chunks.
  - intros c Hc. by eapply chunk_size.
  - intros Hne E. by apply Hne, (chunks_nil kMaxEntriesPerDataPage).
Qed.

(** The piece of [es] a key belongs to, and its page. *)
Lemma page_of_key es s k :
  members es s → es ≠ [] → first_key es ≤ k →
  ∃ pre c post, pieces es = pre ++ c :: post ∧ FindPagePos k s = length pre ∧
    sparse_index_ s !! length pre = Some (first_key c, 1 + Z.of_nat (length pre)) ∧
    (∀ e, e ∈ concat pre → e.1 < k) ∧ (∀ e, e ∈ concat post → k < e.1).
Proof.
  intros Hm Hne Hk. destruct (pieces_ok es) as (Hc & Hn & Hp). unfold FindPagePos. rewrite (th_index _ _ Hm). unfold index_of.
  destruct (locate (pieces es) k (seqZ 1 (Z.of_nat (length (pieces es))))) as (pre & c & post & E & Hu & Hpre & Hfc & Hpost).
  - by rewrite length_seqZ, Nat2Z.id.
  - done.
  - rewrite Hc. apply Hm.
  - by apply Hp.
  - by rewrite Hc.
  - exists pre, c, post. split_and!; [done|done| |done|done]. apply lookup_zip_with_Some. eexists _, _. split; [reflexivity|]. split.
    + rewrite list_lookup_fmap, E, list_lookup_middle by done. done.
    + rewrite lookup_seqZ. rewrite E, length_app. simpl. lia.
Qed.

Lemma first_last_bounds es e : sorted es → e ∈ es → first_key es ≤ e.1 ≤ last_key es.
Proof.
  intros Hs He. split.
  - destruct es as [|[k v] es]; [set_solver|]. apply sorted_cons_inv in Hs as [_ Hk]. cbn.
    apply elem_of_cons in He as [->|He]; [done|]. specialize (Hk e He). lia.
  - induction es as [|[k v] es _] using rev_ind; [set_solver|]. unfold last_key. rewrite last_snoc. cbn.
    apply (sorted_halves es k v []) in Hs as (_ & _ & Hlt & _). apply elem_of_app in He as [He|He]; [specialize (Hlt e He); lia|].
    apply list_elem_of_singleton in He as ->. done.
Qed.

Lemma MightContain_ok es s k :
  members es s → ∃ b, MightContain k s = Val b ∧ (b = false → look k es = None) ∧ (b = true → es ≠ [] ∧ first_key es ≤ k ≤ last_key es).
Proof.
  intros Hm. unfold MightContain. rewrite (th_count _ _ Hm), (th_min _ _ Hm), (th_max _ _ Hm).
  assert (Hl : look k es = None ∨ ∃ v, (k, v) ∈ es).
  { destruct (look k es) as [v|] eqn:E; [right; exists v|by left]. apply look_elem; [apply Hm|done]. }
  destruct (Z.eqb_spec (Z.of_nat (length es)) 0) as [H0|H0]; simpl.
  { exists false. destruct es; [|simpl in H0; lia]. done. }
  destruct (Z.ltb_spec k (first_key es)); simpl.
  { exists false. split_and!; [done|intros _|done]. destruct Hl as [?|[v Hv]]; [done|].
    apply first_last_bounds in Hv; [simpl in Hv; lia|apply Hm]. }
  destruct (Z.ltb_spec (last_key es) k); simpl.
  { exists false. split_and!; [done|intros _|done]. destruct Hl as [?|[v Hv]]; [done|].
    apply first_last_bounds in Hv; [simpl in Hv; lia|apply Hm]. }
  assert (es ≠ []) by (by intros ->). unfold BloomFilter.MightContain.
  destruct (BloomFilter.test_hashes_total (BloomFilter.h1_of k) (BloomFilter.h2_of k) (bloom_ s)
    (Z.to_nat (BloomFilter.num_hashes_ (bloom_ s))) 0 (th_wf _ _ Hm)) as [b E].
  exists b. split_and!; [done|intros ->|done]. destruct Hl as [?|[v Hv]]; [done|].
  pose proof (th_bloom _ _ Hm _ Hv) as Ht. unfold BloomFilter.MightContain in Ht. simpl in Ht. congruence.
Qed.

(** ** Lookups *)

Lemma look_app_gt k (l r : list (KeyType * LSMValue)) : (∀ e, e ∈ r → k < e.1) → look k (l ++ r) = look k l.
Proof.
  intros Hr. induction l as [|[k' v] l IH]; simpl; [|by rewrite IH]. apply look_past. done.
Qed.

(** What [find_entry] found decides the lookup. *)
Lemma table_look_lb k (es : list (KeyType * LSMValue)) :
  sorted es → look k es = match es !! lb k es with Some (k', v) => if k' =? k then Some v else None | None => None end.
Proof.
  intros Hs. destruct (sorted_split_lb k es Hs) as [Hlo Hhi]. rewrite <-(take_drop (lb k es) es) at 1. rewrite look_app_lt by done.
  destruct (es !! lb k es) as [[k' v]|] eqn:E.
  - rewrite (drop_S _ _ _ E) in *. apply look_head; [apply (Hhi (k', v)); set_solver|].
    rewrite <-(take_drop (lb k es) es), (drop_S _ _ _ E) in Hs. by apply sorted_halves in Hs as (_ & ? & _).
  - by rewrite drop_ge by (by apply lookup_ge_None).
Qed.

Lemma members_bpm es s b : members es s → members es (set_bpm b s).
Proof. by intros [? ? ? ? ? ? ? ? ?]. Qed.

Lemma lift_Val {S A} (r : res A) a (s : S) : r = Val a → lift r s = (Val a, s).
Proof. by intros ->. Qed.

Lemma table_page_at_ok (s : t pool) i k p : sparse_index_ s !! i = Some (k, p) → page_at i s = (Val p, s).
Proof. unfold page_at. by intros ->. Qed.

Section pages.
Context (es : list (KeyType * LSMValue)).
Implicit Types (s : t pool) (pins : gmultiset page_id_t).

Lemma table_fetch_ok pins s i c :
  holds es pins s → pieces es !! i = Some c → Z.of_nat (size pins) < 8 →
  ∃ s', fetch (1 + Z.of_nat i) s = (Val tt, s') ∧ holds es (pins ⊎ {[+ 1 + Z.of_nat i +]}) s'.
Proof.
  intros (Hm & pgs & Hr & Hd) Hi Hs. destruct (Hd i c Hi) as (page & Hp & _).
  pose proof (size_dom_le pins). destruct (fetch_reads _ _ _ _ _ Hr Hp ltac:(lia)) as (b & E & Hr').
  exists (set_bpm b s). split; [|split; [by apply members_bpm|by exists pgs]].
  assert (E' : bpm (pool_fetch (1 + Z.of_nat i)) s = (Val true, set_bpm b s)) by (unfold bpm; by rewrite E).
  unfold fetch. by mrun E'.
Qed.

Lemma table_read_ok pins s i c :
  holds es pins s → pieces es !! i = Some c → 1 + Z.of_nat i ∈ pins →
  ∃ page s', bpm (pool_read (1 + Z.of_nat i)) s = (Val page, s') ∧ is_data page c ∧ holds es pins s'.
Proof.
  intros (Hm & pgs & Hr & Hd) Hi Hs. destruct (Hd i c Hi) as (page & Hp & Hc).
  destruct (read_reads _ _ _ _ _ Hr Hp Hs) as (b & E & Hr').
  exists page, (set_bpm b s). split; [unfold bpm; by rewrite E|]. split; [done|]. split; [by apply members_bpm|by exists pgs].
Qed.

Lemma unpin_ok pins s p :
  holds es pins s → p ∈ pins → ∃ s', unpin p s = (Val tt, s') ∧ holds es (pins ∖ {[+ p +]}) s'.
Proof.
  intros (Hm & pgs & Hr & Hd) Hs. destruct (unpin_reads _ _ _ _ Hr Hs) as (b & E & Hr').
  exists (set_bpm b s). split; [|split; [by apply members_bpm|by exists pgs]].
  assert (E' : bpm (pool_unpin p false) s = (Val true, set_bpm b s)) by (unfold bpm; by rewrite E).
  unfold unpin. by mrun E'.
Qed.

Lemma get_unpin pins s p :
  holds es (pins ⊎ {[+ p +]}) s → ∃ s', unpin p s = (Val tt, s') ∧ holds es pins s'.
Proof.
  intros Hh. destruct (unpin_ok _ _ p Hh ltac:(multiset_solver)) as (s' & E & Hh'). exists s'. split; [done|].
  by replace pins with ((pins ⊎ {[+ p +]}) ∖ {[+ p +]}) by multiset_solver.
Qed.

Lemma piece_look k pre c post :
  sorted es → pieces es = pre ++ c :: post → (∀ e, e ∈ concat pre → e.1 < k) → (∀ e, e ∈ concat post → k < e.1) →
  look k es = look k c ∧ sorted c.
Proof.
  intros Hso Ep Hpre Hpost. assert (Hes : es = concat pre ++ c ++ concat post).
  { destruct (pieces_ok es) as (Hc & _). by rewrite <-Hc, Ep, concat_app. }
  split; [rewrite Hes, look_app_lt by done; by apply look_app_gt|].
  rewrite Hes, !fmap_app in Hso. apply StronglySorted_app_1_r in Hso. by apply StronglySorted_app_1_l in Hso.
Qed.

(** A lookup answers what the entries say and leaves the pins as they were. *)
Lemma table_Get_ok pins s k :
  holds es pins s → Z.of_nat (size pins) < 8 → ∃ s', Get k s = (Val (look k es), s') ∧ holds es pins s'.
Proof.
  intros Hh Hp. pose proof Hh as [Hm _]. pose proof (th_sorted _ _ Hm) as Hso. unfold Get.
  destruct (MightContain_ok es s k Hm) as (b & E & Hf & Ht). mrun (lift_Val _ _ s E). destruct b; cbn [negb].
  2:{ exists s. by rewrite (Hf eq_refl). }
  destruct (Ht eq_refl) as [Hne Hk].
  destruct (page_of_key es s k Hm Hne ltac:(lia)) as (pre & c & post & Ep & HF & Hix & Hpre & Hpost). rewrite HF.
  mrun (table_page_at_ok s _ _ _ Hix).
  assert (Hi : pieces es !! length pre = Some c) by (rewrite Ep; by apply list_lookup_middle).
  destruct (table_fetch_ok pins s _ c Hh Hi Hp) as (s1 & E1 & H1). mrun E1.
  destruct (table_read_ok _ s1 _ c H1 Hi ltac:(multiset_solver)) as (page & s2 & E2 & Hpg & H2). mrun E2.
  mrun (lift_Val _ _ s2 (find_entry_ok page c k Hpg)). rewrite (id_count _ _ Hpg).
  destruct (piece_look k pre c post Hso Ep Hpre Hpost) as [Hl Hsc]. rewrite Hl, table_look_lb by done.
  destruct (get_unpin pins s2 _ H2) as (s3 & E3 & H3). exists s3. split; [|done].
  destruct (c !! lb k c) as [[k' v]|] eqn:El.
  - pose proof (lookup_lt_Some _ _ _ El). rewrite (proj2 (Z.ltb_lt _ _)) by lia. cbn [andb].
    rewrite (id_key _ _ Hpg _ _ El). simpl. destruct (k' =? k); mstep; [mrun (lift_Val _ _ s2 (id_value _ _ Hpg _ _ El))|]; by mrun E3.
  - apply lookup_ge_None in El. rewrite (proj2 (Z.ltb_ge _ _)) by lia. cbn [andb]. by mrun E3.
Qed.
(** ** Iterators *)

(** The iterator has [rest] to yield. *)
Definition points (it : Iterator) (rest : list (KeyType * LSMValue)) : Prop :=
  match rest with
  | [] => page_ it = false
  | (k, v) :: _ => ∃ i c j, it = mkIterator true (1 + Z.of_nat i) (Z.of_nat j) (Z.of_nat i) k v ∧
      pieces es !! i = Some c ∧ (j < length c)%nat ∧ rest = drop j c ++ concat (drop (S i) (pieces es))
  end.

(** The page an iterator pins. *)
Definition pin_of (it : Iterator) : gmultiset page_id_t := if page_ it then {[+ page_id_ it +]} else ∅.

Lemma points_length it rest : points it rest → (length rest ≤ length es)%nat.
Proof.
  destruct rest as [|[k v] rest]; [simpl; lia|]. intros (i & c & j & _ & Hi & _ & ->). destruct (pieces_ok es) as (Hc & _).
  rewrite <-Hc at 2. rewrite <-(take_drop_middle _ _ _ Hi) at 2. rewrite concat_app. simpl. rewrite !length_app, length_drop. lia.
Qed.

Lemma LoadCurrent_ok pins s i c j k0 v0 :
  holds es (pins ⊎ {[+ 1 + Z.of_nat i +]}) s → pieces es !! i = Some c → (j < length c)%nat →
  ∃ it s', LoadCurrent (mkIterator true (1 + Z.of_nat i) (Z.of_nat j) (Z.of_nat i) k0 v0) s = (Val it, s') ∧
    points it (drop j c ++ concat (drop (S i) (pieces es))) ∧ holds es (pins ⊎ pin_of it) s'.
Proof.
  intros Hh Hi [[k v] Hj]%lookup_lt_is_Some. unfold LoadCurrent. cbn [page_id_ index_ page_ page_pos_].
  destruct (table_read_ok _ s i c Hh Hi ltac:(multiset_solver)) as (page & s1 & E1 & Hpg & H1). mrun E1.
  mrun (lift_Val _ _ s1 (id_value _ _ Hpg _ _ Hj)). rewrite (id_key _ _ Hpg _ _ Hj).
  eexists _, s1. split; [done|]. split; [|done]. rewrite (drop_S _ _ _ Hj). simpl. exists i, c, j.
  split_and!; [done|done|by eapply lookup_lt_Some|]. by rewrite (drop_S _ _ _ Hj).
Qed.

(** The first entry of the next page. *)
Lemma next_page pins s i k0 v0 :
  holds es pins s → Z.of_nat (size pins) < 8 → (i < length (pieces es))%nat →
  ∃ it s', (fetch (1 + Z.of_nat i);; LoadCurrent (mkIterator true (1 + Z.of_nat i) 0 (Z.of_nat i) k0 v0)) s = (Val it, s') ∧
    points it (concat (drop i (pieces es))) ∧ holds es (pins ⊎ pin_of it) s'.
Proof.
  intros Hh Hp [c Hi]%lookup_lt_is_Some. destruct (table_fetch_ok pins s i c Hh Hi Hp) as (s1 & E1 & H1).
  assert (Hc : c ≠ []) by (apply (pieces_ok es); by eapply list_elem_of_lookup_2). destruct c as [|e c]; [done|].
  destruct (LoadCurrent_ok pins s1 i (e :: c) 0 k0 v0 H1 Hi ltac:(simpl; lia)) as (it & s2 & E2 & H2).
  exists it, s2. mrun E1. change 0 with (Z.of_nat 0). rewrite E2. by rewrite (drop_S _ _ _ Hi).
Qed.

Lemma table_Next_ok pins s it e rest :
  holds es (pins ⊎ pin_of it) s → points it (e :: rest) → Z.of_nat (size pins) < 8 →
  ∃ it' s', Next it s = (Val it', s') ∧ points it' rest ∧ holds es (pins ⊎ pin_of it') s'.
Proof.
  intros Hh Hpt Hp. destruct e as [k v]. destruct Hpt as (i & c & j & -> & Hi & Hj & Hr).
  unfold pin_of in Hh. cbn [page_ page_id_] in Hh. unfold Next. cbn [page_ page_id_ index_ page_pos_ cached_key_ cached_value_ negb].
  destruct (table_read_ok _ s i c Hh Hi ltac:(multiset_solver)) as (page & s1 & E1 & Hpg & H1). mrun E1. rewrite (id_count _ _ Hpg).
  destruct (lookup_lt_is_Some_2 c j Hj) as [e Hje]. rewrite (drop_S _ _ _ Hje) in Hr. injection Hr as _ ->.
  destruct (Z.leb_spec (Z.of_nat (length c)) (Z.of_nat j + 1)).
  - destruct (get_unpin pins s1 _ H1) as (s2 & E2 & H2). mrun E2. rewrite (drop_ge c) by lia. simpl app.
    pose proof H2 as [Hm _]. rewrite (th_pages _ _ Hm). unfold n_data.
    destruct (Z.leb_spec (Z.of_nat (length (pieces es))) (Z.of_nat i + 1)).
    + eexists _, s2. split; [done|]. rewrite (drop_ge (pieces es)) by lia. split; [done|]. unfold pin_of. simpl.
      by rewrite gmultiset_disj_union_right_id.
    + rewrite (th_first _ _ Hm) by (intros ->; done). replace (Z.of_nat i + 1) with (Z.of_nat (S i)) by lia.
      apply next_page; [done|done|lia].
  - replace (Z.of_nat j + 1) with (Z.of_nat (S j)) by lia. apply (LoadCurrent_ok pins s1 i c (S j)); [done|done|lia].
Qed.

(** A destroyed iterator gives its page back. *)
Lemma table_Release_ok pins s it rest :
  holds es (pins ⊎ pin_of it) s → points it rest → ∃ s', Release it s = (Val tt, s') ∧ holds es pins s'.
Proof.
  intros Hh _. unfold Release, pin_of in *. destruct (page_ it); [by apply get_unpin|]. exists s.
  by rewrite gmultiset_disj_union_right_id in Hh.
Qed.

Lemma lb_app_gt k (l r : list (KeyType * LSMValue)) : (∀ e, e ∈ r → k ≤ e.1) → lb k (l ++ r) = lb k l.
Proof. intros Hr. induction l as [|[k' v] l IH]; simpl; [by apply lb_ge|]. by rewrite IH. Qed.

Lemma start_ok k pre c post :
  sorted es → es ≠ [] → k ≤ last_key es → pieces es = pre ++ c :: post →
  (∀ e, e ∈ concat pre → e.1 < k `max` first_key es) → (∀ e, e ∈ concat post → k `max` first_key es < e.1) →
  drop (lb k es) es = drop (lb k c) c ++ concat (drop (S (length pre)) (pieces es)) ∧ (lb k c = length c → post ≠ []).
Proof.
  intros Hso Hne Hk Ep Hpre Hpost. assert (Hes : es = concat pre ++ c ++ concat post).
  { destruct (pieces_ok es) as (Hc & _). by rewrite <-Hc, Ep, concat_app. }
  assert (Hlo : ∀ e, e ∈ concat pre → e.1 < k).
  { intros e He. specialize (Hpre e He). assert (Hin : e ∈ es) by (rewrite Hes; set_solver).
    pose proof (first_last_bounds es e Hso Hin). lia. }
  assert (Hlb : lb k es = (length (concat pre) + lb k c)%nat).
  { rewrite Hes, lb_app_lt by done. f_equal. apply lb_app_gt. intros e He. specialize (Hpost e He). lia. }
  split.
  - rewrite Hlb, Ep. rewrite cons_middle, app_assoc, drop_app_length' by (rewrite length_app; simpl; lia).
    rewrite Hes at 1. rewrite <-drop_drop, drop_app_length, drop_app_le by apply lb_le. done.
  - intros Hl ->. destruct (last es) as [e|] eqn:El; [|by apply last_None in El].
    unfold last_key in Hk. rewrite El in Hk. simpl in Hk. rewrite app_nil_r in Hes.
    apply last_Some in El as [es' El]. assert (Hin : e ∈ es) by (rewrite El; set_solver). rewrite Hes in Hin.
    apply elem_of_app in Hin as [Hin|Hin]; [specialize (Hlo e Hin); lia|].
    assert (Hsc : sorted c) by (rewrite Hes, fmap_app in Hso; by apply StronglySorted_app_1_r in Hso).
    destruct (sorted_split_lb k c Hsc) as [Ht _]. rewrite Hl, firstn_all in Ht. specialize (Ht e Hin). lia.
Qed.

Lemma NewIterator_ok pins s k :
  holds es pins s → Z.of_nat (size pins) < 8 →
  ∃ it s', NewIterator k s = (Val it, s') ∧ points it (drop (lb k es) es) ∧ holds es (pins ⊎ pin_of it) s'.
Proof.
  intros Hh Hp. pose proof Hh as [Hm _]. pose proof (th_sorted _ _ Hm) as Hso. unfold NewIterator. mstep.
  rewrite (th_count _ _ Hm), (th_max _ _ Hm), (th_min _ _ Hm).
  assert (Hend : drop (lb k es) es = [] → ∃ it s', (Val end_iterator, s) = (Val it, s') ∧ points it (drop (lb k es) es) ∧
    holds es (pins ⊎ pin_of it) s').
  { intros ->. exists end_iterator, s. unfold pin_of. simpl. by rewrite gmultiset_disj_union_right_id. }
  destruct (Z.eqb_spec (Z.of_nat (length es)) 0); cbn [orb].
  { apply Hend. apply drop_ge. lia. }
  assert (Hne : es ≠ []) by (by intros ->). destruct (Z.ltb_spec (last_key es) k) as [Hlk|Hlk].
  { apply Hend. rewrite <-(app_nil_r es) at 1. rewrite lb_app_lt; [simpl; apply drop_ge; lia|].
    intros e He. pose proof (first_last_bounds es e Hso He). lia. }
  destruct (page_of_key es s (k `max` first_key es) Hm Hne ltac:(lia)) as (pre & c & post & Ep & HF & Hix & Hpre & Hpost). rewrite HF.
  mrun (table_page_at_ok s _ _ _ Hix).
  assert (Hi : pieces es !! length pre = Some c) by (rewrite Ep; by apply list_lookup_middle).
  destruct (table_fetch_ok pins s _ c Hh Hi Hp) as (s1 & E1 & H1). mrun E1.
  destruct (table_read_ok _ s1 _ c H1 Hi ltac:(multiset_solver)) as (page & s2 & E2 & Hpg & H2). mrun E2.
  mrun (lift_Val _ _ s2 (find_entry_ok page c k Hpg)). rewrite (id_count _ _ Hpg).
  assert (Hrest : drop (lb k es) es = drop (lb k c) c ++ concat (drop (S (length pre)) (pieces es)) ∧ (lb k c = length c → post ≠ [])).
  { by apply (start_ok k pre c post). }
  destruct Hrest as [-> Hpo]. destruct (Z.leb_spec (Z.of_nat (length c)) (Z.of_nat (lb k c))) as [Hle|Hlt].
  - pose proof (lb_le k c). assert (Hl : lb k c = length c) by lia. specialize (Hpo Hl). rewrite (drop_ge c) by lia. simpl app.
    destruct (get_unpin pins s2 _ H2) as (s3 & E3 & H3). mrun E3. rewrite (th_first _ _ Hm) by done.
    replace (Z.of_nat (length pre) + 1) with (Z.of_nat (S (length pre))) by lia.
    destruct (next_page pins s3 (S (length pre)) 0 (mkLSMValue EmptyString false) H3 Hp) as (it & s4 & E4 & H4).
    { rewrite Ep, length_app. destruct post; [done|]. simpl. lia. }
    exists it, s4. split; [|done]. revert E4. mstep. done.
  - mstep. apply (LoadCurrent_ok pins s2 (length pre) c (lb k c)); [done|done|lia].
Qed.
End pages.
End SSTableTheory.
