(* ===== verification/LsmEngine.v ===== *)
(** * LSMTreeEngine (lsm/lsm_cursor.h, lsm/lsm_tree_engine.h, lsm_tree_engine.cpp)

    Memtables and tables are objects on heaps of their own: a memtable is named
    by an address, a table by the id that [SetId] gives it, which no two tables
    of an engine share.  The engine's files are the manifest, the table files
    [db_path.sst<id>] and the log files [db_path.memwal<generation>], each kind
    named by its number.

    A function that holds the lock in parts is the composition of one
    definition per part, so that other threads can come in between:
    [flush_rotate], [flush_build], [flush_retire], [flush_install] for
    [FlushActiveMemtable], and [compact_begin], [compact_merge],
    [compact_install] for [CompactOneTierIfNeeded].

    When a read fails in the middle of a merge or a scan, the cursors of the
    model keep their pins, where the destructors of the code give them back. *)

From S2P Require Import Prelude Entries Bytes Disk Replacer Buffer Engine Wal SkipList MemTable Merge Bloom SSTable.

Module LSMTreeEngine.

Definition kMaxManifestTiers : Z := 8.
Definition kMaxSSTablesPerManifestTier : Z := 16.
Definition kWriteStallTierSize : Z := 8.

Abbreviation table_t := (SSTable.t (BufferPoolManager.t LRUKReplacer.t)) (only parsing).

Record files := mkFiles {
  manifest : DiskManager.file;
  sst : gmap Z DiskManager.file;
  memwal : gmap Z DiskManager.file;
}.

(** A table object. *)
Record table := mkTable {
  body : table_t;
  obsolete_ : bool;
}.

Record t := mk {
  db_path_ : string;
  flush_threshold_bytes_ : Z;
  tier_threshold_ : Z;
  manifest_disk_manager_ : DiskManager.t;
  next_sstable_id_ : Z;
  wal_enabled_ : bool;
  next_wal_generation_ : Z;
  memtable_wal_ : option (Z * LogManager.t);
  active_memtable_ : nat;
  tiers_ : list (list Z);
  stop_ : bool;
  compaction_running_ : bool;
  memtables : gmap nat MemTable.t;
  next_memtable : nat;
  tables : gmap Z table;
  held : list Z;
  disk : files;
}.

(** Assignments to the members. *)
Definition set_manifest (d : DiskManager.t) (e : t) : t :=
  mk (db_path_ e) (flush_threshold_bytes_ e) (tier_threshold_ e) d (next_sstable_id_ e) (wal_enabled_ e)
    (next_wal_generation_ e) (memtable_wal_ e) (active_memtable_ e) (tiers_ e) (stop_ e) (compaction_running_ e)
    (memtables e) (next_memtable e) (tables e) (held e)
    (mkFiles (DiskManager.fd_ d) (sst (disk e)) (memwal (disk e))).
Definition set_next_id (n : Z) (e : t) : t :=
  mk (db_path_ e) (flush_threshold_bytes_ e) (tier_threshold_ e) (manifest_disk_manager_ e) n (wal_enabled_ e)
    (next_wal_generation_ e) (memtable_wal_ e) (active_memtable_ e) (tiers_ e) (stop_ e) (compaction_running_ e)
    (memtables e) (next_memtable e) (tables e) (held e) (disk e).
Definition set_wal (g : Z) (w : option (Z * LogManager.t)) (e : t) : t :=
  mk (db_path_ e) (flush_threshold_bytes_ e) (tier_threshold_ e) (manifest_disk_manager_ e) (next_sstable_id_ e)
    (wal_enabled_ e) g w (active_memtable_ e) (tiers_ e) (stop_ e) (compaction_running_ e)
    (memtables e) (next_memtable e) (tables e) (held e) (disk e).
Definition set_memtables (active : nat) (ms : gmap nat MemTable.t) (next : nat) (e : t) : t :=
  mk (db_path_ e) (flush_threshold_bytes_ e) (tier_threshold_ e) (manifest_disk_manager_ e) (next_sstable_id_ e)
    (wal_enabled_ e) (next_wal_generation_ e) (memtable_wal_ e) active (tiers_ e) (stop_ e) (compaction_running_ e)
    ms next (tables e) (held e) (disk e).
Definition set_tiers (ts : list (list Z)) (e : t) : t :=
  mk (db_path_ e) (flush_threshold_bytes_ e) (tier_threshold_ e) (manifest_disk_manager_ e) (next_sstable_id_ e)
    (wal_enabled_ e) (next_wal_generation_ e) (memtable_wal_ e) (active_memtable_ e) ts (stop_ e)
    (compaction_running_ e) (memtables e) (next_memtable e) (tables e) (held e) (disk e).
Definition set_flags (stop running : bool) (e : t) : t :=
  mk (db_path_ e) (flush_threshold_bytes_ e) (tier_threshold_ e) (manifest_disk_manager_ e) (next_sstable_id_ e)
    (wal_enabled_ e) (next_wal_generation_ e) (memtable_wal_ e) (active_memtable_ e) (tiers_ e) stop running
    (memtables e) (next_memtable e) (tables e) (held e) (disk e).
Definition set_tables (ts : gmap Z table) (hs : list Z) (e : t) : t :=
  mk (db_path_ e) (flush_threshold_bytes_ e) (tier_threshold_ e) (manifest_disk_manager_ e) (next_sstable_id_ e)
    (wal_enabled_ e) (next_wal_generation_ e) (memtable_wal_ e) (active_memtable_ e) (tiers_ e) (stop_ e)
    (compaction_running_ e) (memtables e) (next_memtable e) ts hs (disk e).
Definition set_files (s w : gmap Z DiskManager.file) (e : t) : t :=
  mk (db_path_ e) (flush_threshold_bytes_ e) (tier_threshold_ e) (manifest_disk_manager_ e) (next_sstable_id_ e)
    (wal_enabled_ e) (next_wal_generation_ e) (memtable_wal_ e) (active_memtable_ e) (tiers_ e) (stop_ e)
    (compaction_running_ e) (memtables e) (next_memtable e) (tables e) (held e) (mkFiles (manifest (disk e)) s w).

Definition lift {A} (r : res A) : M t A := λ e, (r, e).

Definition SSTablePath (id : Z) (e : t) : string := db_path_ e +:+ ".sst" +:+ to_string id.
Definition MemWALPath (generation : Z) (e : t) : string := db_path_ e +:+ ".memwal" +:+ to_string generation.

(** ** The manifest page: 1064 bytes *)

Definition tier_at (ts : list (list Z)) (i : nat) : list Z := default [] (ts !! i).

Definition manifest_page (next : Z) (ts : list (list Z)) : bytes :=
  le_enc 8 next ++
  concat ((λ i, le_enc 4 (Z.of_nat (length (tier_at ts i)))) <$> seq 0 8) ++
  concat ((λ i, concat ((λ j, le_enc 8 (default 0 (tier_at ts i !! j))) <$> seq 0 16)) <$> seq 0 8).

Definition page_next (page : bytes) : Z := get_i64 page 0.
Definition page_tier_count (page : bytes) (i : Z) : Z := get_i32 page (8 + 4 * i).
Definition page_tier_id (page : bytes) (i j : Z) : Z := get_i64 page (40 + 128 * i + 8 * j).

(** ** Access to the objects *)

(** A call on the manifest's disk manager, on a log, on a memtable, on a table. *)
Definition on_manifest {A} (m : M DiskManager.t A) : M t A := λ e,
  let '(r, d) := m (manifest_disk_manager_ e) in (r, set_manifest d e).

Definition on_wal {A} (m : M LogManager.t A) : M t A := λ e,
  match memtable_wal_ e with
  | Some (g, l) =>
      let '(r, l) := m l in
      (r, set_files (sst (disk e)) (<[g := DiskManager.fd_ (LogManager.disk_manager_ l)]> (memwal (disk e)))
            (set_wal (next_wal_generation_ e) (Some (g, l)) e))
  | None => (Undef, e)
  end.

Definition memtable_at (a : nat) (e : t) : res MemTable.t :=
  match memtables e !! a with Some m => Val m | None => Undef end.

Definition on_memtable (f : MemTable.t → res MemTable.t) : M t () := λ e,
  match (m ← memtable_at (active_memtable_ e) e; f m) with
  | Val m => (Val tt, set_memtables (active_memtable_ e) (<[active_memtable_ e := m]> (memtables e)) (next_memtable e) e)
  | Exn x => (Exn x, e)
  | Undef => (Undef, e)
  | NoFuel => (NoFuel, e)
  end.

Definition table_at (id : Z) (e : t) : res table_t :=
  match tables e !! id with Some s => Val (body s) | None => Undef end.

Definition on_table {A} (id : Z) (m : M table_t A) : M t A := λ e,
  match tables e !! id with
  | Some s => let '(r, b) := m (body s) in (r, set_tables (<[id := mkTable b (obsolete_ s)]> (tables e)) (held e) e)
  | None => (Undef, e)
  end.

(** ** Cursors (lsm/lsm_cursor.h) *)

Inductive Cursor :=
  | MemTableCursor (mt : nat) (it : option nat)
  | SSTableCursor (id : Z) (it : SSTable.Iterator).

#[global] Instance lsm_cursor : LSMCursor t Cursor := {
  cursor_valid c :=
    match c with MemTableCursor _ it => SkipList.Valid it | SSTableCursor _ it => SSTable.Valid it end;
  cursor_key c := λ e,
    match c with
    | MemTableCursor a it => (m ← memtable_at a e; SkipList.it_key (MemTable.list_ m) it, e)
    | SSTableCursor _ it => (Val (SSTable.cached_key_ it), e)
    end;
  cursor_value c := λ e,
    match c with
    | MemTableCursor a it => (m ← memtable_at a e; SkipList.it_value (MemTable.list_ m) it, e)
    | SSTableCursor _ it => (Val (SSTable.cached_value_ it), e)
    end;
  cursor_next c := λ e,
    match c with
    | MemTableCursor a it => (MemTableCursor a <$> (m ← memtable_at a e; SkipList.Next (MemTable.list_ m) it), e)
    | SSTableCursor id it => let '(r, e) := on_table id (SSTable.Next it) e in (SSTableCursor id <$> r, e)
    end;
}.

(** The table ids that cursors hold. *)
Definition cursor_ids (cs : list Cursor) : list Z :=
  omap (λ c, match c with SSTableCursor id _ => Some id | MemTableCursor _ _ => None end) cs.

(** How many entries the source of a cursor has. *)
Definition source_size (c : Cursor) (e : t) : nat :=
  match c with
  | MemTableCursor a _ => match memtables e !! a with Some m => Z.to_nat (MemTable.EntryCount m) | None => 0 end
  | SSTableCursor id _ => match tables e !! id with Some s => Z.to_nat (SSTable.num_entries_ (body s)) | None => 0 end
  end.

(** Each round of a merge takes an entry from a cursor; one more for the entry
    that the merge iterator has in hand. *)
Definition merge_fuel (cs : list Cursor) (e : t) : nat := S (foldr (λ c n, source_size c e + n)%nat 0%nat cs).

(** The destructors of the cursors. *)
Fixpoint release (cs : list Cursor) : M t () :=
  match cs with
  | [] => mret tt
  | MemTableCursor _ _ :: cs => release cs
  | SSTableCursor id it :: cs => on_table id (SSTable.Release it);; release cs
  end.

(** Tables that are obsolete and that no reader holds are destroyed, and their
    destructor removes the file. *)
Definition dead (e : t) (id : Z) : bool :=
  match tables e !! id with Some s => obsolete_ s && negb (bool_decide (id ∈ held e)) | None => false end.

Definition reclaim (e : t) : t :=
  set_files (filter (λ p, dead e p.1 = false) (sst (disk e))) (memwal (disk e))
    (set_tables (filter (λ p, dead e p.1 = false) (tables e)) (held e) e).

(** ** The engine

    [behind] is the memory behind the structs that [WritePage] is given, for
    the table with an id or for the manifest; [ideal] the sizing of the Bloom
    filters; [faults] the system call failures the file of a table will meet;
    [coins] the random bits of the skip list of a memtable. *)

Section engine.
Context (behind : option Z → page_id_t → bytes) (ideal : Z → Z * Z).
Context (faults : Z → list (option DiskManager.fault)) (coins : nat → list bool).

Definition table_file (id : Z) (e : t) : DiskManager.file := default (DiskManager.File [] (faults id)) (sst (disk e) !! id).

(** [SSTable::Build] and [SSTable::Open] on the file of table [id]. *)
Definition BuildTable (id : Z) (entries : list (KeyType * LSMValue)) : M t () := λ e,
  let '(r, f) := SSTable.Build (behind (Some id)) ideal (SSTablePath id e) entries (table_file id e) in
  (r, set_files (<[id := f]> (sst (disk e))) (memwal (disk e)) e).

Definition OpenTable (id : Z) : M t () := λ e,
  let '(r, f) := SSTable.Open (SSTablePath id e) (table_file id e) in
  let e := set_files (<[id := f]> (sst (disk e))) (memwal (disk e)) e in
  match r with
  | Val s => (Val tt, set_tables (<[id := mkTable s false]> (tables e)) (held e) e)
  | Exn x => (Exn x, e)
  | Undef => (Undef, e)
  | NoFuel => (NoFuel, e)
  end.

Definition new_memtable : M t () :=
  modify (λ e, set_memtables (next_memtable e) (<[next_memtable e := MemTable.New (coins (next_memtable e))]> (memtables e))
    (S (next_memtable e)) e).

(** [std::make_unique<LogManager>] on the file of a generation. *)
Definition OpenWAL (generation : Z) : M t LogManager.t := λ e,
  let '(r, f) := LogManager.Open (MemWALPath generation e) (default (DiskManager.File [] []) (memwal (disk e) !! generation)) in
  (r, set_files (sst (disk e)) (<[generation := f]> (memwal (disk e))) e).

Definition RemoveWAL (generation : Z) : M t () :=
  modify (λ e, set_files (sst (disk e)) (delete generation (memwal (disk e))) e).

Definition fetch_id : M t Z :=
  e ← get;
  modify (set_next_id (next_sstable_id_ e + 1));;
  mret (next_sstable_id_ e).

(** ** Manifest *)

Definition write_manifest (page : bytes) : M t () := on_manifest (DiskManager.WritePage 0 (page ++ behind None 0)).

Definition PersistManifestLocked : M t () :=
  e ← get;
  if kMaxManifestTiers <? Z.of_nat (length (tiers_ e))
  then throw (RuntimeError "LSMTreeEngine: exceeded manifest tier capacity") else
  if existsb (λ tier, kMaxSSTablesPerManifestTier <? Z.of_nat (length tier)) (tiers_ e)
  then throw (RuntimeError "LSMTreeEngine: exceeded manifest per-tier SSTable capacity") else
  write_manifest (manifest_page (next_sstable_id_ e) (tiers_ e)).

(** The number of tiers up to the highest with a table. *)
Fixpoint used_tiers (page : bytes) (k : nat) : nat :=
  match k with
  | O => 0
  | S k => if 0 <? page_tier_count page (Z.of_nat k) then S k else used_tiers page k
  end.

(** The tables [j], [j + 1], ... of tier [i], [k] of them. *)
Fixpoint load_tier (page : bytes) (i : nat) (k : nat) (j : Z) : M t () :=
  match k with
  | O => mret tt
  | S k =>
      if kMaxSSTablesPerManifestTier <=? j then undefined else
      let id := page_tier_id page (Z.of_nat i) j in
      OpenTable id;;
      modify (λ e, set_tiers (alter (λ tier, tier ++ [id]) i (tiers_ e)) e);;
      load_tier page i k (j + 1)
  end.

Fixpoint load_tiers (page : bytes) (k i : nat) : M t () :=
  match k with
  | O => mret tt
  | S k => load_tier page i (Z.to_nat (page_tier_count page (Z.of_nat i))) 0;; load_tiers page k (S i)
  end.

(** What follows the opening of the manifest file. *)
Definition LoadManifestOrInitialize : M t () :=
  e ← get;
  if DiskManager.GetNumPages (manifest_disk_manager_ e) =? 0 then
    page_id ← on_manifest DiskManager.AllocatePage;
    on_manifest (DiskManager.WritePage page_id (manifest_page 0 [] ++ behind None page_id));;
    modify (set_next_id 0)
  else
    page ← on_manifest (DiskManager.ReadPage 0);
    modify (set_next_id (page_next page));;
    let n := used_tiers page 8 in
    modify (set_tiers (replicate n []));;
    load_tiers page n 0.

(** ** Compaction *)

Fixpoint find_tier (threshold : Z) (ts : list (list Z)) : option nat :=
  match ts with
  | [] => None
  | tier :: ts => if threshold <=? Z.of_nat (length tier) then Some 0%nat else S <$> find_tier threshold ts
  end.

Definition FindTierNeedingCompactionLocked (e : t) : option nat := find_tier (tier_threshold_ e) (tiers_ e).

(** The first part: the tier, its tables, and whether every lower tier is empty. *)
Definition compact_begin : M t (option (nat * list Z * bool)) :=
  e ← get;
  match FindTierNeedingCompactionLocked e with
  | None => mret None
  | Some tier => mret (Some (tier, tier_at (tiers_ e) tier, forallb (λ l, bool_decide (l = [])) (drop (S tier) (tiers_ e))))
  end.

(** A cursor on each of the tables [ids], from [key] on. *)
Fixpoint open_cursors (key : KeyType) (ids : list Z) : M t (list Cursor) :=
  match ids with
  | [] => mret []
  | id :: ids =>
      it ← on_table id (SSTable.NewIterator key);
      cs ← open_cursors key ids;
      mret (SSTableCursor id it :: cs)
  end.

(** The loop over the merge, which drops tombstones when [bottommost]. *)
Fixpoint drain (bottommost : bool) (fuel : nat) (m : LSMMergeIterator.t Cursor) : M t (LSMMergeIterator.t Cursor * list (KeyType * LSMValue)) :=
  if negb (LSMMergeIterator.Valid m) then mret (m, []) else
  match fuel with
  | O => λ e, (NoFuel, e)
  | S fuel =>
      let x := (LSMMergeIterator.Key m, LSMMergeIterator.Value m) in
      m ← LSMMergeIterator.Next m;
      '(m, merged) ← drain bottommost fuel m;
      mret (m, if deleted x.2 && bottommost then merged else x :: merged)
  end.

(** The second part, without the lock: the id of the new table, if there is
    one, and the cursors, which live to the end of the function. *)
Definition compact_merge (to_compact : list Z) (bottommost : bool) : M t (option Z * list Cursor) :=
  cs ← open_cursors INVALID_KEY to_compact;
  e ← get;
  m ← LSMMergeIterator.New cs;
  '(m, merged) ← drain bottommost (merge_fuel cs e) m;
  new ← (match merged with
         | [] => mret None
         | _ => id ← fetch_id; BuildTable id merged;; OpenTable id;; mret (Some id)
         end);
  mret (new, LSMMergeIterator.cursors_ m).

(** [tiers_.resize] to at least [n] tiers. *)
Definition grow (n : nat) (ts : list (list Z)) : list (list Z) := ts ++ replicate (n - length ts) [].

Definition mark_obsolete (ids : list Z) (ts : gmap Z table) : gmap Z table :=
  foldr (λ id ts, alter (λ s, mkTable (body s) true) id ts) ts ids.

(** The third part, with the lock again. *)
Definition compact_install (tier : nat) (to_compact : list Z) (new : option Z) : M t () :=
  modify (λ e, set_tiers (grow (S (S tier)) (tiers_ e)) e);;
  (match new with
   | Some id => modify (λ e, set_tiers (alter (λ l, id :: l) (S tier) (tiers_ e)) e)
   | None => mret tt
   end);;
  modify (λ e, set_tiers (alter (filter (λ id, id ∉ to_compact)) tier (tiers_ e)) e);;
  modify (λ e, set_tables (mark_obsolete to_compact (tables e)) (held e) e);;
  PersistManifestLocked.

(** The guard clears the flag on every way out. *)
Definition guarded {A} (m : M t A) : M t A := λ e,
  let '(r, e) := m (set_flags (stop_ e) true e) in (r, reclaim (set_flags (stop_ e) false e)).

Definition CompactOneTierIfNeeded : M t bool :=
  e ← get;
  if compaction_running_ e then mret false else
  guarded (
    b ← compact_begin;
    match b with
    | None => mret false
    | Some (tier, to_compact, bottommost) =>
        '(new, cs) ← compact_merge to_compact bottommost;
        compact_install tier to_compact new;;
        release cs;;
        mret true
    end).

(** One round of the background thread; answers whether it goes on. *)
Definition CompactionLoop : M t bool :=
  e ← get;
  if stop_ e then mret false else CompactOneTierIfNeeded;; mret true.

(** ** Flushing the memtable *)

(** The first part: the memtable, and the log generation it was logged to. *)
Definition flush_rotate : M t (nat * option Z) :=
  e ← get;
  new_memtable;;
  if wal_enabled_ e then
    let generation := next_wal_generation_ e in
    modify (λ e, set_wal (generation + 1) (memtable_wal_ e) e);;
    l ← OpenWAL generation;
    modify (λ e, set_wal (next_wal_generation_ e) (Some (generation, l)) e);;
    mret (active_memtable_ e, Some (generation - 1))
  else mret (active_memtable_ e, None).

(** The entries of a memtable, from an iterator on. *)
Fixpoint memtable_entries (l : SkipList.t LSMValue) (fuel : nat) (it : option nat) : res (list (KeyType * LSMValue)) :=
  if negb (SkipList.Valid it) then Val [] else
  match fuel with
  | O => NoFuel
  | S fuel =>
      k ← SkipList.it_key l it;
      v ← SkipList.it_value l it;
      it ← SkipList.Next l it;
      es ← memtable_entries l fuel it;
      Val ((k, v) :: es)
  end.

(** Builds and opens the table of the memtable. *)
Definition flush_build (old : MemTable.t) : M t Z :=
  it ← lift (MemTable.Begin old);
  entries ← lift (memtable_entries (MemTable.list_ old) (Z.to_nat (MemTable.EntryCount old)) it);
  id ← fetch_id;
  BuildTable id entries;;
  OpenTable id;;
  mret id.

Definition flush_retire (generation : option Z) : M t () :=
  match generation with Some g => RemoveWAL g | None => mret tt end.

(** The last part, with the lock: answers whether the tier is backlogged. *)
Definition flush_install (id : Z) : M t bool :=
  modify (λ e, set_tiers (alter (λ l, id :: l) 0%nat (grow 1 (tiers_ e))) e);;
  PersistManifestLocked;;
  e ← get;
  mret (kWriteStallTierSize <=? Z.of_nat (length (tier_at (tiers_ e) 0))).

Definition FlushActiveMemtable : M t () :=
  '(a, generation) ← flush_rotate;
  e ← get;
  old ← lift (memtable_at a e);
  if MemTable.EntryCount old =? 0 then flush_retire generation else
  id ← flush_build old;
  flush_retire generation;;
  backlogged ← flush_install id;
  if backlogged : bool then _ ← CompactOneTierIfNeeded; mret tt else mret tt.

(** ** Opening and closing *)

Definition found_generations (e : t) : list Z := merge_sort Z.le (elements (dom (memwal (disk e)))).

Definition replay_record (rec : LogRecord.t) : M t () :=
  (if LogRecord.op rec =? LogOpType.PUT then
     v ← lift (LogRecord.NewValue rec);
     on_memtable (MemTable.Put (LogRecord.key rec) v)
   else if LogRecord.op rec =? LogOpType.DELETE then on_memtable (MemTable.Delete (LogRecord.key rec))
   else mret tt);;
  _ ← on_wal (LogManager.Append rec);
  mret tt.

Fixpoint each {A} (f : A → M t ()) (l : list A) : M t () :=
  match l with [] => mret tt | x :: l => f x;; each f l end.

Definition replay_generation (generation : Z) : M t () :=
  old_wal ← OpenWAL generation;
  records ← lift (LogManager.ReadAll old_wal).1;
  each replay_record records.

Definition RecoverMemWALOnStartup : M t () :=
  e ← get;
  let found := found_generations e in
  let new_generation := match last found with Some g => g + 1 | None => 0 end in
  l ← OpenWAL new_generation;
  modify (λ e, set_wal (next_wal_generation_ e) (Some (new_generation, l)) e);;
  each replay_generation found;;
  on_wal LogManager.Flush;;
  each RemoveWAL found;;
  modify (λ e, set_wal (new_generation + 1) (memtable_wal_ e) e).

Definition Open (db_path : string) (memtable_flush_threshold_bytes tier_compaction_threshold : Z) (enable_wal : bool) (fs : files) :
    res t * files :=
  match DiskManager.Open db_path (manifest fs) with
  | (Val d, _) =>
      let e := mk db_path memtable_flush_threshold_bytes tier_compaction_threshold d 0 enable_wal 0 None 0 [] false false
                 ∅ 0 ∅ [] fs in
      let '(r, e) := (LoadManifestOrInitialize;; new_memtable;; if enable_wal then RecoverMemWALOnStartup else mret tt) e in
      match r with
      | Val _ => (Val e, disk e)
      | Exn x => (Exn x, disk e)
      | Undef => (Undef, disk e)
      | NoFuel => (NoFuel, disk e)
      end
  | (Exn x, f) => (Exn x, mkFiles f (sst fs) (memwal fs))
  | (Undef, f) => (Undef, mkFiles f (sst fs) (memwal fs))
  | (NoFuel, f) => (NoFuel, mkFiles f (sst fs) (memwal fs))
  end.

(** The destructor. *)
Definition Close : M t () :=
  modify (λ e, set_flags true (compaction_running_ e) e);;
  e ← get;
  m ← lift (memtable_at (active_memtable_ e) e);
  if 0 <? MemTable.EntryCount m then FlushActiveMemtable else mret tt.

(** ** Reads and writes *)

(** The tables in the order of a lookup. *)
Fixpoint get_tables (key : KeyType) (ids : list Z) : M t (option string) :=
  match ids with
  | [] => mret None
  | id :: ids =>
      e ← get;
      s ← lift (table_at id e);
      might ← lift (SSTable.MightContain key s);
      if negb might then get_tables key ids else
      v ← on_table id (SSTable.Get key);
      match v with
      | Some v => mret (live v)
      | None => get_tables key ids
      end
  end.

Definition Get (key : KeyType) : M t (option string) :=
  e ← get;
  mt ← lift (memtable_at (active_memtable_ e) e);
  v ← lift (MemTable.Get key mt);
  match v with
  | Some v => mret (live v)
  | None => get_tables key (concat (tiers_ e))
  end.

(** Logs an operation. *)
Definition log_write (rec : res LogRecord.t) : M t () :=
  e ← get;
  if wal_enabled_ e then
    rec ← lift rec;
    _ ← on_wal (LogManager.Append rec);
    on_wal LogManager.Flush
  else mret tt.

Definition put_record (key : KeyType) (value : string) : res LogRecord.t :=
  LogRecord.SetNewValue value (LogRecord.set_op LogOpType.PUT key (LogRecord.set_header (-1) LogRecordType.UPDATE (-1) LogRecord.init)).

Definition delete_record (key : KeyType) : res LogRecord.t :=
  Val (LogRecord.set_op LogOpType.DELETE key (LogRecord.set_header (-1) LogRecordType.UPDATE (-1) LogRecord.init)).

(** The part of [Put] and of [Delete] under the lock: answers [need_flush]. *)
Definition write_locked (rec : res LogRecord.t) (f : MemTable.t → res MemTable.t) : M t bool :=
  log_write rec;;
  on_memtable f;;
  e ← get;
  m ← lift (memtable_at (active_memtable_ e) e);
  mret (flush_threshold_bytes_ e <=? MemTable.ApproximateSizeBytes m).

Definition Put (key : KeyType) (value : string) : M t () :=
  if MAX_VALUE_SIZE <? ssize value
  then throw (InvalidArgument "LSMTreeEngine::Put: value exceeds MAX_VALUE_SIZE") else
  need_flush ← write_locked (put_record key value) (MemTable.Put key value);
  if need_flush : bool then FlushActiveMemtable else mret tt.

Definition Delete (key : KeyType) : M t bool :=
  existed ← Get key;
  need_flush ← write_locked (delete_record key) (MemTable.Delete key);
  (if need_flush : bool then FlushActiveMemtable else mret tt);;
  mret (bool_decide (is_Some existed)).

(** ** Scans *)

Record LSMScanIterator := mkScan {
  mt_ : nat;
  merge_ : LSMMergeIterator.t Cursor;
}.

Fixpoint SkipTombstones (fuel : nat) (m : LSMMergeIterator.t Cursor) : M t (LSMMergeIterator.t Cursor) :=
  if LSMMergeIterator.Valid m && deleted (LSMMergeIterator.Value m) then
    match fuel with
    | O => λ e, (NoFuel, e)
    | S fuel => m ← LSMMergeIterator.Next m; SkipTombstones fuel m
    end
  else mret m.

(** The tables of a scan: those that reach up to its first key. *)
Fixpoint scan_tables (start_key : KeyType) (ids : list Z) : M t (list Z) :=
  match ids with
  | [] => mret []
  | id :: ids =>
      e ← get;
      s ← lift (table_at id e);
      out ← scan_tables start_key ids;
      mret (if SSTable.max_key_ s <? start_key then out else id :: out)
  end.

Definition Scan (start_key : KeyType) : M t LSMScanIterator :=
  e ← get;
  mt ← lift (memtable_at (active_memtable_ e) e);
  it ← lift (MemTable.LowerBound start_key mt);
  ids ← scan_tables start_key (concat (tiers_ e));
  modify (λ e, set_tables (tables e) (ids ++ held e) e);;
  cs ← open_cursors start_key ids;
  let cursors := MemTableCursor (active_memtable_ e) it :: cs in
  m ← LSMMergeIterator.New cursors;
  e ← get;
  m ← SkipTombstones (merge_fuel (LSMMergeIterator.cursors_ m) e) m;
  mret (mkScan (active_memtable_ e) m).

Definition IsValid (it : LSMScanIterator) : bool := LSMMergeIterator.Valid (merge_ it).
Definition GetKey (it : LSMScanIterator) : M t KeyType := mret (LSMMergeIterator.Key (merge_ it)).
Definition GetValue (it : LSMScanIterator) : M t string := mret (lsm_value (LSMMergeIterator.Value (merge_ it))).

Definition Next (it : LSMScanIterator) : M t LSMScanIterator :=
  m ← LSMMergeIterator.Next (merge_ it);
  e ← get;
  m ← SkipTombstones (merge_fuel (LSMMergeIterator.cursors_ m) e) m;
  mret (mkScan (mt_ it) m).

Fixpoint remove_one (x : Z) (l : list Z) : list Z :=
  match l with [] => [] | y :: l => if x =? y then l else y :: remove_one x l end.

Definition Destroy (it : LSMScanIterator) : M t () :=
  let cs := LSMMergeIterator.cursors_ (merge_ it) in
  release cs;;
  modify (λ e, reclaim (set_tables (tables e) (foldr remove_one (held e) (cursor_ids cs)) e)).

(** ** Introspection *)

Definition NumSSTables (e : t) : Z := Z.of_nat (length (concat (tiers_ e))).
Definition NumTiers (e : t) : Z := Z.of_nat (length (tiers_ e)).
Definition GetWALSizeBytes (e : t) : res Z :=
  if wal_enabled_ e then match memtable_wal_ e with Some (_, l) => Val (LogManager.GetLogSizeBytes l) | None => Undef end
  else Val 0.

(** A sum over the tables. *)
Fixpoint sum_tables (f : table_t → Z) (ids : list Z) (e : t) : res Z :=
  match ids with
  | [] => Val 0
  | id :: ids => s ← table_at id e; n ← sum_tables f ids e; Val (f s + n)
  end.

Definition table_disk (s : table_t) : DiskManager.t := BufferPoolManager.disk_manager_ (SSTable.bpm_ s).

Definition GetDiskReadCount (e : t) : res Z :=
  n ← sum_tables (λ s, DiskManager.num_reads_ (table_disk s)) (concat (tiers_ e)) e;
  Val (DiskManager.num_reads_ (manifest_disk_manager_ e) + n).

Definition GetDiskWriteCount (e : t) : res Z :=
  n ← sum_tables (λ s, DiskManager.num_writes_ (table_disk s)) (concat (tiers_ e)) e;
  Val (DiskManager.num_writes_ (manifest_disk_manager_ e) + n).

(** A file that is gone counts for nothing. *)
Definition TotalSSTableBytesOnDisk (e : t) : Z :=
  foldr (λ id n, (match sst (disk e) !! id with Some f => blen (DiskManager.f_data f) | None => 0 end) + n) 0 (concat (tiers_ e)).

End engine.
End LSMTreeEngine.

(** The engine as the SQL layer sees it. *)
Definition lsm_storage_engine behind ideal faults coins : StorageEngine LSMTreeEngine.t := {|
  Iter := LSMTreeEngine.LSMScanIterator;
  Get := LSMTreeEngine.Get;
  Put := LSMTreeEngine.Put behind ideal faults coins;
  Delete := LSMTreeEngine.Delete behind ideal faults coins;
  Scan := LSMTreeEngine.Scan;
  IsValid := LSMTreeEngine.IsValid;
  Next := LSMTreeEngine.Next;
  GetKey := LSMTreeEngine.GetKey;
  GetValue := LSMTreeEngine.GetValue;
  Destroy := LSMTreeEngine.Destroy;
|}.
