(* ===== verification/LsmCursors.v ===== *)
(** * Theory of the LSM-tree engine's cursors *)

From stdpp Require Import gmultiset.
From S2P Require Import Prelude Entries Bytes Disk Replacer Buffer Engine Wal SkipList SkipListTheory MemTable Bloom Merge MergeTheory.
From S2P Require Import SSTable SSTablePages SSTableFile SSTableTheory LsmEngine.

Module LsmCursors.
Import LSMTreeEngine.

Abbreviation entries := (list (KeyType * LSMValue)) (only parsing).

(** [e'] is [e] after reads of tables. *)
Record reads_only (e e' : t) : Prop := {
  ro_rest : e' = set_tables (tables e') (held e) e;
  ro_flags : obsolete_ <$> tables e' = obsolete_ <$> tables e;
}.

Lemma reads_only_refl e : reads_only e e.
Proof. split; [by destruct e|done]. Qed.

Lemma reads_only_trans e1 e2 e3 : reads_only e1 e2 → reads_only e2 e3 → reads_only e1 e3.
Proof.
  intros [E1 F1] [E2 F2]. split; [|by rewrite F2]. rewrite E2. rewrite E1 at 2. rewrite E1. done.
Qed.

(** Table [id] is open with the entries [es]; [pins] are pinned. *)
Definition open_table (e : t) (id : Z) (es : entries) (pins : gmultiset page_id_t) : Prop :=
  ∃ s, tables e !! id = Some s ∧ SSTableTheory.holds es pins (body s).

Lemma on_table_ok {A} e id s (m : M _ A) a b :
  tables e !! id = Some s → m (body s) = (Val a, b) →
  ∃ e', on_table id m e = (Val a, e') ∧ reads_only e e' ∧ tables e' !! id = Some (mkTable b (obsolete_ s)) ∧
    ∀ id', id' ≠ id → tables e' !! id' = tables e !! id'.
Proof.
  intros Hs Hm. unfold on_table. rewrite Hs, Hm. eexists. split; [done|]. split_and!.
  - split; [by destruct e|]. simpl. rewrite fmap_insert. apply insert_id. by rewrite lookup_fmap, Hs.
  - simpl. by rewrite lookup_insert_eq.
  - intros id' Hne. simpl. by rewrite lookup_insert_ne.
Qed.

(** What a cursor has in front of it, given what the tables contain. *)
Definition cursor_ok (E : gmap Z entries) (e : t) (c : Cursor) (es : entries) : Prop :=
  sorted es ∧
  match c with
  | MemTableCursor a it => ∃ m, memtables e !! a = Some m ∧ SkipListTheory.points (MemTable.list_ m) it es
  | SSTableCursor id it => ∃ full, E !! id = Some full ∧ open_table e id full (SSTableTheory.pin_of it) ∧ SSTableTheory.points full it es
  end.

(** The cursors [cs] stand before [ess]; the tables without one are at rest. *)
Record cursors_ok (E : gmap Z entries) (e0 e : t) (cs : list Cursor) (ess : list entries) : Prop := {
  co_reads : reads_only e0 e;
  co_nodup : NoDup (cursor_ids cs);
  co_cursors : Forall2 (cursor_ok E e) cs ess;
  co_rest : ∀ id es, E !! id = Some es → id ∉ cursor_ids cs → open_table e id es ∅;
}.

Lemma cursor_ids_insert cs i id it it' :
  cs !! i = Some (SSTableCursor id it) → cursor_ids (<[i := SSTableCursor id it']> cs) = cursor_ids cs.
Proof.
  revert i; induction cs as [|c cs IH]; intros [|i] Hi; [done|done| |].
  - injection Hi as ->. done.
  - simpl in Hi. unfold cursor_ids in *. simpl. by rewrite IH.
Qed.

Lemma cursor_ids_insert_mem cs i a it it' :
  cs !! i = Some (MemTableCursor a it) → cursor_ids (<[i := MemTableCursor a it']> cs) = cursor_ids cs.
Proof.
  revert i; induction cs as [|c cs IH]; intros [|i] Hi; [done|done| |].
  - injection Hi as ->. done.
  - simpl in Hi. unfold cursor_ids in *. simpl. by rewrite IH.
Qed.

Lemma cursor_ids_lookup cs i id it : cs !! i = Some (SSTableCursor id it) → id ∈ cursor_ids cs.
Proof.
  intros Hi. apply list_elem_of_omap. exists (SSTableCursor id it). split; [by eapply list_elem_of_lookup_2|done].
Qed.

Lemma cursor_ids_unique cs i j id it it' :
  NoDup (cursor_ids cs) → cs !! i = Some (SSTableCursor id it) → cs !! j = Some (SSTableCursor id it') → i = j.
Proof.
  revert i j; induction cs as [|c cs IH]; intros [|i] [|j] Hn Hi Hj; [done|done|done|done|done| | |].
  - injection Hi as ->. simpl in Hn. apply NoDup_cons in Hn as [Hn _]. simpl in Hj. by apply cursor_ids_lookup in Hj.
  - injection Hj as ->. simpl in Hn. apply NoDup_cons in Hn as [Hn _]. simpl in Hi. by apply cursor_ids_lookup in Hi.
  - f_equal. simpl in Hi, Hj. apply (IH i j); [|done|done]. unfold cursor_ids in *. simpl in Hn.
    destruct c; [done|by apply NoDup_cons in Hn as [_ ?]].
Qed.

(** Moving the cursor of one table leaves the other cursors alone. *)
Lemma cursor_ok_frame E e e' id c es :
  reads_only e e' → (∀ id', id' ≠ id → tables e' !! id' = tables e !! id') →
  (∀ it, c ≠ SSTableCursor id it) → cursor_ok E e c es → cursor_ok E e' c es.
Proof.
  intros [Hr _] Ht Hc [Hs Hk]. split; [done|]. destruct c as [a it|id' it].
  - destruct Hk as (m & Hm & Hp). exists m. split; [|done]. by rewrite Hr.
  - destruct Hk as (full & HE & (s & Hsx & Hh) & Hp). exists full. split_and!; [done| |done]. exists s. split; [|done].
    rewrite Ht; [done|]. intros ->. by apply (Hc it).
Qed.

Section cursors.
Context (E : gmap Z entries) (e0 : t).

Lemma cursors_length e cs ess : cursors_ok E e0 e cs ess → length cs = length ess.
Proof. intros H. apply (Forall2_length _ _ _ (co_cursors _ _ _ _ _ H)). Qed.

Lemma cursors_at e cs ess i c es :
  cursors_ok E e0 e cs ess → cs !! i = Some c → ess !! i = Some es → cursor_ok E e c es.
Proof. intros H Hc He. by apply (Forall2_lookup_lr _ _ _ i _ _ (co_cursors _ _ _ _ _ H)). Qed.

Lemma cursors_sorted e cs ess es : cursors_ok E e0 e cs ess → es ∈ ess → sorted es.
Proof.
  intros H (i & Hi)%list_elem_of_lookup. destruct (Forall2_lookup_r _ _ _ _ _ (co_cursors _ _ _ _ _ H) Hi) as (c & _ & Hc & _). done.
Qed.

Lemma cursors_valid e cs ess i c es :
  cursors_ok E e0 e cs ess → cs !! i = Some c → ess !! i = Some es → cursor_valid c = bool_decide (es ≠ []).
Proof.
  intros H Hc He. destruct (cursors_at _ _ _ _ _ _ H Hc He) as [_ Hk]. destruct c as [a it|id it]; simpl.
  - destruct Hk as (m & _ & Hp). by apply SkipListTheory.points_end in Hp.
  - destruct Hk as (full & _ & _ & Hp). unfold SSTable.Valid. destruct es as [|[k v] es]; simpl in Hp; [done|].
    by destruct Hp as (i' & c & j & -> & _).
Qed.

Lemma cursors_head e cs ess i c k v es :
  cursors_ok E e0 e cs ess → cs !! i = Some c → ess !! i = Some ((k, v) :: es) →
  cursor_key c e = (Val k, e) ∧ cursor_value c e = (Val v, e).
Proof.
  intros H Hc He. destruct (cursors_at _ _ _ _ _ _ H Hc He) as [_ Hk]. destruct c as [a it|id it]; simpl.
  - destruct Hk as (m & Hm & Hp). unfold memtable_at. rewrite Hm. simpl.
    by apply SkipListTheory.points_head in Hp as (-> & -> & _).
  - destruct Hk as (full & _ & _ & (i' & c & j & -> & _)). done.
Qed.

Lemma table_next e id it full x es :
  open_table e id full (SSTableTheory.pin_of it) → SSTableTheory.points full it (x :: es) →
  ∃ it' e', on_table id (SSTable.Next it) e = (Val it', e') ∧ reads_only e e' ∧
    open_table e' id full (SSTableTheory.pin_of it') ∧ SSTableTheory.points full it' es ∧
    ∀ id', id' ≠ id → tables e' !! id' = tables e !! id'.
Proof.
  intros (s & Hs & Hh) Hp. rewrite <-(gmultiset_disj_union_left_id (SSTableTheory.pin_of it)) in Hh.
  destruct (SSTableTheory.table_Next_ok full ∅ (body s) it x es Hh Hp ltac:(done)) as (it' & b & En & Hp' & Hh').
  rewrite gmultiset_disj_union_left_id in Hh'.
  destruct (on_table_ok e id s _ _ _ Hs En) as (e' & Ee & Hr & Hid & Hne).
  exists it', e'. split_and!; [done|done| |done|done]. eexists. split; [exact Hid|done].
Qed.

(** Replacing cursor [i], whose table (if it has one) is the only one read. *)
Lemma cursors_step e e' cs ess i c c' es :
  cursors_ok E e0 e cs ess → cs !! i = Some c → reads_only e e' →
  (match c with
   | MemTableCursor a it => e' = e ∧ ∃ it', c' = MemTableCursor a it'
   | SSTableCursor id it => (∃ it', c' = SSTableCursor id it') ∧ ∀ id', id' ≠ id → tables e' !! id' = tables e !! id'
   end) →
  cursor_ok E e' c' es → cursors_ok E e0 e' (<[i := c']> cs) (<[i := es]> ess) ∧ cursor_ids (<[i := c']> cs) = cursor_ids cs.
Proof.
  intros [Hr Hn Hc Hrest] Hi Hro Hm Hk. pose proof (Forall2_length _ _ _ Hc) as Hlen. pose proof (lookup_lt_Some _ _ _ Hi).
  assert (Hids : cursor_ids (<[i := c']> cs) = cursor_ids cs).
  { destruct c as [a it|id it]; [destruct Hm as (_ & it' & ->)|destruct Hm as ((it' & ->) & _)];
      [by eapply cursor_ids_insert_mem|by eapply cursor_ids_insert]. }
  split; [|done]. split; [by eapply reads_only_trans|by rewrite Hids| |].
  - apply Forall2_same_length_lookup. split; [by rewrite !length_insert|]. intros j d ds Hd Hds.
    destruct (decide (i = j)) as [<-|Hne].
    + rewrite list_lookup_insert_eq in Hd by lia. rewrite list_lookup_insert_eq in Hds by lia. by injection Hd as <-; injection Hds as <-.
    + rewrite list_lookup_insert_ne in Hd by done. rewrite list_lookup_insert_ne in Hds by done. pose proof (Forall2_lookup_lr _ _ _ j _ _ Hc Hd Hds) as Hok.
      destruct c as [a it|id it]; [by destruct Hm as [-> _]|]. destruct Hm as [_ Ht].
      apply (cursor_ok_frame E e e' id); [done|done| |done]. intros it2 ->. by apply Hne, (cursor_ids_unique cs i j id it it2).
  - rewrite Hids. intros id es' HE Hid. destruct (Hrest id es' HE Hid) as (s & Hs & Hh). exists s. split; [|done].
    destruct c as [a it|id' it]; [by destruct Hm as [-> _]|]. destruct Hm as [_ Ht]. rewrite Ht; [done|]. intros ->.
    apply Hid. by eapply cursor_ids_lookup.
Qed.

Lemma cursors_next e cs ess i c x es :
  cursors_ok E e0 e cs ess → cs !! i = Some c → ess !! i = Some (x :: es) →
  ∃ c' e', cursor_next c e = (Val c', e') ∧ cursors_ok E e0 e' (<[i := c']> cs) (<[i := es]> ess) ∧
    cursor_ids (<[i := c']> cs) = cursor_ids cs.
Proof.
  intros H Hc He. destruct (cursors_at _ _ _ _ _ _ H Hc He) as [Hs Hk]. destruct x as [k v].
  pose proof (sorted_cons_inv _ _ _ Hs) as [Hs' _]. destruct c as [a it|id it]; simpl.
  - destruct Hk as (m & Hm & Hp). unfold memtable_at. rewrite Hm. simpl.
    apply SkipListTheory.points_head in Hp as (_ & _ & it' & -> & Hp'). eexists _, e. split; [done|].
    apply (cursors_step e e cs ess i (MemTableCursor a it)); [done|done|apply reads_only_refl|by eauto|].
    split; [done|]. by exists m.
  - destruct Hk as (full & HE & Hop & Hp). destruct (table_next e id it full _ es Hop Hp) as (it' & e' & -> & Hro & Hop' & Hp' & Ht).
    eexists _, e'. split; [done|].
    apply (cursors_step e e' cs ess i (SSTableCursor id it)); [done|done|done|by eauto|]. split; [done|]. by exists full.
Qed.

(** The cursors, on the tables [ids], meet the interface of the merge. *)
Definition cursors_on (ids : list Z) (e : t) (cs : list Cursor) (ess : list entries) : Prop :=
  cursors_ok E e0 e cs ess ∧ cursor_ids cs = ids.

Lemma cursors_on_next ids e cs ess i c x es :
  cursors_on ids e cs ess → cs !! i = Some c → ess !! i = Some (x :: es) →
  ∃ c' e', cursor_next c e = (Val c', e') ∧ cursors_on ids e' (<[i := c']> cs) (<[i := es]> ess).
Proof.
  intros [H Hids] Hc He. destruct (cursors_next e cs ess i c x es H Hc He) as (c' & e' & ? & ? & Hc'). exists c', e'.
  split_and!; [done|]. split; [done|by rewrite Hc'].
Qed.

Definition cursors_spec (ids : list Z) : CursorSpec t Cursor := {|
  yields := cursors_on ids;
  yields_length e cs ess H := cursors_length e cs ess (proj1 H);
  yields_sorted e cs ess es H := cursors_sorted e cs ess es (proj1 H);
  cursor_valid_spec e cs ess i c es H := cursors_valid e cs ess i c es (proj1 H);
  cursor_key_spec e cs ess i c k v es H Hc He := proj1 (cursors_head e cs ess i c k v es (proj1 H) Hc He);
  cursor_value_spec e cs ess i c k v es H Hc He := proj2 (cursors_head e cs ess i c k v es (proj1 H) Hc He);
  cursor_next_spec := cursors_on_next ids;
|}.

(** ** Opening and releasing cursors *)

Definition from_key (key : KeyType) (es : entries) : entries := drop (lb key es) es.

Lemma sorted_from_key key es : sorted es → sorted (from_key key es).
Proof. intros H. unfold from_key. rewrite fmap_drop. rewrite <-(take_drop (lb key es) (es.*1)) in H. by apply StronglySorted_app_1_r in H. Qed.

Lemma holds_sorted_table es pins s : SSTableTheory.holds es pins s → sorted es.
Proof. intros [Hm _]. apply Hm. Qed.

Lemma cursors_add e cs ess id full key :
  cursors_ok E e0 e cs ess → id ∉ cursor_ids cs → E !! id = Some full →
  ∃ it e', on_table id (SSTable.NewIterator key) e = (Val it, e') ∧
    cursors_ok E e0 e' (cs ++ [SSTableCursor id it]) (ess ++ [from_key key full]).
Proof.
  intros [Hr Hn Hc Hrest] Hid HE. destruct (Hrest id full HE Hid) as (s & Hs & Hh).
  destruct (SSTableTheory.NewIterator_ok full ∅ (body s) key Hh ltac:(done)) as (it & b & En & Hp & Hh').
  rewrite gmultiset_disj_union_left_id in Hh'.
  destruct (on_table_ok e id s _ _ _ Hs En) as (e' & Ee & Hro & Hid' & Hne). exists it, e'. split; [done|].
  assert (Hids : cursor_ids (cs ++ [SSTableCursor id it]) = cursor_ids cs ++ [id]) by (unfold cursor_ids; by rewrite omap_app).
  split; [by eapply reads_only_trans| | |].
  - rewrite Hids. apply NoDup_app. split_and!; [done| |apply NoDup_singleton]. intros x Hx ->%list_elem_of_singleton. done.
  - apply Forall2_app.
    + apply Forall2_same_length_lookup. split; [by eapply Forall2_length|]. intros j d ds Hd Hds.
      apply (cursor_ok_frame E e e' id); [done|done| |by apply (Forall2_lookup_lr _ _ _ j _ _ Hc)].
      intros it' ->. by apply cursor_ids_lookup in Hd.
    + constructor; [|constructor]. split; [by eapply sorted_from_key, holds_sorted_table|]. exists full. split_and!; [done| |done].
      eexists. split; [exact Hid'|done].
  - rewrite Hids. intros id' es' HE' Hx. destruct (Hrest id' es' HE' ltac:(set_solver)) as (s' & Hs' & Hh2). exists s'. split; [|done].
    rewrite Hne; [done|set_solver].
Qed.

Definition content (id : Z) : entries := default [] (E !! id).

Lemma open_cursors_ok key ids : ∀ e cs ess,
  cursors_ok E e0 e cs ess → NoDup ids → (∀ id, id ∈ ids → id ∉ cursor_ids cs ∧ is_Some (E !! id)) →
  ∃ cs' e', open_cursors key ids e = (Val cs', e') ∧ cursor_ids cs' = ids ∧
    cursors_ok E e0 e' (cs ++ cs') (ess ++ (from_key key ∘ content <$> ids)).
Proof.
  induction ids as [|id ids IH]; intros e cs ess Hok Hn Hids.
  { exists [], e. rewrite !app_nil_r. done. }
  apply NoDup_cons in Hn as [Hid Hn]. destruct (Hids id ltac:(set_solver)) as [Hnot [full HE]].
  destruct (cursors_add e cs ess id full key Hok Hnot HE) as (it & e1 & E1 & Hok1).
  destruct (IH e1 _ _ Hok1 Hn) as (cs' & e2 & E2 & Hcs & Hok2).
  { intros id' Hin. destruct (Hids id' ltac:(set_solver)) as [Hx HE']. split; [|done].
    unfold cursor_ids in *. rewrite omap_app. simpl. set_solver. }
  exists (SSTableCursor id it :: cs'), e2. cbn [open_cursors]. mrun E1. mrun E2. split; [done|]. split.
  - change (id :: cursor_ids cs' = id :: ids). by rewrite Hcs.
  - rewrite <-!app_assoc in Hok2. simpl in Hok2. unfold content in *. simpl. by rewrite HE.
Qed.

Lemma cursors_start cs ess : cs = [] → ess = [] → (∀ id es, E !! id = Some es → open_table e0 id es ∅) → cursors_ok E e0 e0 cs ess.
Proof. intros -> -> H. split; [apply reads_only_refl|constructor|constructor|]. intros id es HE _. by apply H. Qed.

Lemma release_ok cs : ∀ e ess,
  cursors_ok E e0 e cs ess → ∃ e', release cs e = (Val tt, e') ∧ reads_only e0 e' ∧ ∀ id es, E !! id = Some es → open_table e' id es ∅.
Proof.
  induction cs as [|c cs IH]; intros e ess [Hr Hn Hc Hrest].
  { exists e. split_and!; [done|done|]. intros id es HE. apply Hrest; [done|]. by intros ?%elem_of_nil. }
  apply Forall2_cons_inv_l in Hc as (es & ess' & [Hs Hk] & Hc & ->). destruct c as [a it|id it]; cbn [release].
  - apply (IH e ess'). by split.
  - unfold cursor_ids in Hn, Hrest. simpl in Hn, Hrest. apply NoDup_cons in Hn as [Hid Hn].
    destruct Hk as (full & HE & (s & Hsx & Hh) & Hp). rewrite <-(gmultiset_disj_union_left_id (SSTableTheory.pin_of it)) in Hh.
    destruct (SSTableTheory.table_Release_ok full ∅ (body s) it es Hh Hp) as (b & Eb & Hb).
    destruct (on_table_ok e id s _ _ _ Hsx Eb) as (e1 & E1 & Hro & Hid1 & Hne). mrun E1. apply (IH e1 ess').
    split; [by eapply reads_only_trans|done| |].
    + apply Forall2_same_length_lookup. split; [by eapply Forall2_length|]. intros j d ds Hd Hds.
      apply (cursor_ok_frame E e e1 id); [done|done| |by apply (Forall2_lookup_lr _ _ _ j _ _ Hc)].
      intros it' ->. by apply cursor_ids_lookup in Hd.
    + intros id' es' HE' Hx. destruct (decide (id' = id)) as [->|Hd].
      * rewrite HE in HE'. injection HE' as <-. eexists. split; [exact Hid1|done].
      * destruct (Hrest id' es' HE') as (s' & Hs' & Hh'); [set_solver|]. exists s'. split; [|done]. by rewrite Hne.
Qed.

(** Cursors go on after changes that leave their tables alone and open others. *)
Lemma cursors_rebase E' e e' cs ess :
  cursors_ok E e0 e cs ess → memtables e' = memtables e →
  (∀ id, is_Some (E !! id) → E' !! id = E !! id ∧ body <$> tables e' !! id = body <$> tables e !! id) →
  (∀ id es, E' !! id = Some es → E !! id = None → open_table e' id es ∅) →
  cursors_ok E' e' e' cs ess.
Proof.
  intros [Hr Hn Hc Hrest] Hm Ht Hnew.
  assert (Hop : ∀ id es pins, is_Some (E !! id) → open_table e id es pins → open_table e' id es pins).
  { intros id es pins HE (s & Hs & Hh). destruct (Ht id HE) as [_ Hb]. rewrite Hs in Hb. simpl in Hb.
    apply fmap_Some in Hb as (s' & Hs' & Eb). exists s'. by rewrite <-Eb. }
  split; [apply reads_only_refl|done| |].
  - eapply Forall2_impl; [exact Hc|]. intros c es [Hs Hk]. split; [done|]. destruct c as [a it|id it]; [by rewrite Hm|].
    destruct Hk as (full & HE & Ho & Hp). exists full. destruct (Ht id ltac:(by eexists)) as [-> _]. split_and!; [done|by apply Hop|done].
  - intros id es HE Hid. destruct (E !! id) as [es'|] eqn:Eid; [|by apply Hnew].
    destruct (Ht id ltac:(by eexists)) as [Heq _]. rewrite HE, Eid in Heq. injection Heq as ->. apply Hop; [done|]. by apply Hrest.
Qed.

(** ** Fuel *)

Lemma length_overlay {V} (es old : list (Z * V)) : sorted old → (length (overlay es old) ≤ length es + length old)%nat.
Proof.
  intros Ho. induction es as [|[k v] es IH]; simpl; [done|]. rewrite length_ins by (by apply sorted_overlay).
  destruct (look k _); lia.
Qed.

Lemma length_merged {V} (ess : list (list (Z * V))) : (length (merged ess) ≤ sum_list_with length ess)%nat.
Proof.
  induction ess as [|es ess IH]; simpl; [done|]. pose proof (length_overlay es _ (sorted_merged ess)). lia.
Qed.

Lemma source_size_ok e c es : cursor_ok E e c es → (length es ≤ source_size c e)%nat.
Proof.
  intros [Hs Hk]. destruct c as [a it|id it]; simpl.
  - destruct Hk as (m & -> & (hd & cs & pre & post & Hrep & -> & _ & ->)). unfold MemTable.EntryCount, SkipList.Size.
    rewrite (SkipListTheory.rp_size _ _ _ Hrep), length_app, length_fmap. lia.
  - destruct Hk as (full & HE & (s & -> & [Hm _]) & Hp). rewrite (SSTableTheory.th_count _ _ Hm), Nat2Z.id.
    by apply SSTableTheory.points_length in Hp.
Qed.

Lemma merge_fuel_ok e cs ess : cursors_ok E e0 e cs ess → (sum_list_with length ess < merge_fuel cs e)%nat.
Proof.
  intros H. pose proof (co_cursors _ _ _ _ _ H) as Hc. unfold merge_fuel. clear H.
  induction Hc as [|c es cs ess Hk Hc IH]; simpl in *; [lia|]. apply source_size_ok in Hk. lia.
Qed.
End cursors.

(** ** Running the merge to its end, and past tombstones *)

Section merge.
Context (E : gmap Z entries) (e0 : t) (ids : list Z).

Definition merging (e : t) (m : LSMMergeIterator.t Cursor) (es : entries) : Prop :=
  @MergeTheory.merging t Cursor lsm_cursor (cursors_spec E e0 ids) e m es.

Lemma merging_cursors e m es : merging e m es → ∃ ess, cursors_on E e0 ids e (LSMMergeIterator.cursors_ m) ess.
Proof. apply (@MergeTheory.merging_yields t Cursor lsm_cursor (cursors_spec E e0 ids)). Qed.

Lemma merge_new e cs ess : cursors_on E e0 ids e cs ess → ∃ m e', LSMMergeIterator.New cs e = (Val m, e') ∧ merging e' m (merged ess).
Proof. apply (@MergeTheory.merge_New_ok t Cursor lsm_cursor (cursors_spec E e0 ids)). Qed.

Lemma merge_next e m x es : merging e m (x :: es) → ∃ m' e', LSMMergeIterator.Next m e = (Val m', e') ∧ merging e' m' es.
Proof. apply (@MergeTheory.merge_Next_ok t Cursor lsm_cursor (cursors_spec E e0 ids)). Qed.

Lemma merge_valid e m es : merging e m es → LSMMergeIterator.Valid m = bool_decide (es ≠ []).
Proof. apply (@MergeTheory.Valid_ok t Cursor lsm_cursor (cursors_spec E e0 ids)). Qed.

Lemma merge_head e m k v es : merging e m ((k, v) :: es) → LSMMergeIterator.Key m = k ∧ LSMMergeIterator.Value m = v.
Proof. by intros (_ & ? & ? & _). Qed.

Lemma merging_fuel e m es : merging e m es → (length es ≤ merge_fuel (LSMMergeIterator.cursors_ m) e)%nat.
Proof.
  destruct es as [|[k v] es]; [simpl; lia|]. intros (_ & _ & _ & ess & [Hy _] & _ & <-). apply merge_fuel_ok in Hy.
  pose proof (length_merged ess). simpl in *. lia.
Qed.

(** What a compaction keeps. *)
Definition keep (bottommost : bool) (es : entries) : entries :=
  if bottommost then filter (λ x, deleted x.2 = false) es else es.

Lemma keep_cons b k v es : keep b ((k, v) :: es) = if deleted v && b then keep b es else (k, v) :: keep b es.
Proof.
  unfold keep. destruct b; [|by rewrite andb_false_r]. rewrite andb_true_r. destruct (deleted v) eqn:Ev.
  - by rewrite filter_cons_False by (simpl; by rewrite Ev).
  - by rewrite filter_cons_True by done.
Qed.

Lemma drain_ok b fuel : ∀ e m es,
  merging e m es → (length es ≤ fuel)%nat → ∃ m' e', drain b fuel m e = (Val (m', keep b es), e') ∧ merging e' m' [].
Proof.
  induction fuel as [|fuel IH]; intros e m [|[k v] es] Hm Hf; cbn [drain]; rewrite (merge_valid _ _ _ Hm); cbn [negb bool_decide].
  all: try (simpl in Hf; lia). 1, 2: exists m, e; split; [by destruct b|done].
  destruct (merge_next e m _ _ Hm) as (m1 & e1 & E1 & H1). destruct (merge_head _ _ _ _ _ Hm) as [-> ->].
  destruct (IH e1 m1 es H1 ltac:(simpl in Hf; lia)) as (m2 & e2 & E2 & H2). exists m2, e2. split; [|done].
  rewrite bool_decide_true by done. cbn [negb]. mrun E1. mrun E2. by rewrite keep_cons.
Qed.

(** The entries that are not tombstones, as a reader sees them. *)
Definition live_entries (es : entries) : list (Z * string) := omap (λ x, (x.1,.) <$> live x.2) es.

Lemma SkipTombstones_ok fuel : ∀ e m es,
  merging e m es → (length es ≤ fuel)%nat →
  ∃ m' e' es', SkipTombstones fuel m e = (Val m', e') ∧ merging e' m' es' ∧ live_entries es' = live_entries es ∧
    (∀ k v es'', es' = (k, v) :: es'' → deleted v = false).
Proof.
  induction fuel as [|fuel IH]; intros e m [|[k v] es] Hm Hf; cbn [SkipTombstones]; rewrite (merge_valid _ _ _ Hm).
  all: try (simpl in Hf; lia). 1, 2: by exists m, e, [].
  rewrite bool_decide_true by done. destruct (merge_head _ _ _ _ _ Hm) as [_ ->]. cbn [andb]. destruct (deleted v) eqn:Ev.
  - destruct (merge_next e m _ _ Hm) as (m1 & e1 & E1 & H1).
    destruct (IH e1 m1 es H1 ltac:(simpl in Hf; lia)) as (m2 & e2 & es' & E2 & H2 & Hl & Hd). exists m2, e2, es'. mrun E1.
    split_and!; [done|done| |done]. rewrite Hl. unfold live_entries. simpl. unfold live. by rewrite Ev.
  - exists m, e, ((k, v) :: es). split_and!; [done|done|done|]. by intros k' v' es'' [= <- <- _].
Qed.
End merge.

End LsmCursors.
