(* ===== verification/LsmTiers.v ===== *)
(** * Theory of the tiers and of the manifest page *)

From S2P Require Import Prelude Entries Bytes Structs Disk MemTable MergeTheory SSTable SSTablePages LsmEngine LsmCursors.

Module LsmTiers.
Import LSMTreeEngine LsmCursors.
Implicit Types (ts pre post : list (list Z)) (T : list Z).

(** A table of tier [i] stands for at least [2 ^ i] flushes. *)
Fixpoint weight ts : Z :=
  match ts with
  | [] => 0
  | tier :: ts => Z.of_nat (length tier) + 2 * weight ts
  end.

Lemma weight_nonneg ts : 0 ≤ weight ts.
Proof. induction ts as [|tier ts IH]; simpl; lia. Qed.

Lemma weight_app pre post : weight (pre ++ post) = weight pre + 2 ^ Z.of_nat (length pre) * weight post.
Proof.
  induction pre as [|tier pre IH]; simpl app; cbn [weight length]; [rewrite Z.pow_0_r; lia|]. rewrite IH, Nat2Z.inj_succ, Z.pow_succ_r by lia. ring.
Qed.

Lemma tier_weight ts T : T ∈ ts → Z.of_nat (length T) ≤ weight ts.
Proof.
  induction ts as [|tier ts IH]; [set_solver|]. intros [->|H]%elem_of_cons; cbn [weight].
  - pose proof (weight_nonneg ts). lia.
  - specialize (IH H). pose proof (weight_nonneg ts). lia.
Qed.

(** The manifest page can hold the tiers, ... *)
Definition capacity ts : Prop :=
  Z.of_nat (length ts) ≤ kMaxManifestTiers ∧ ∀ T, T ∈ ts → Z.of_nat (length T) ≤ kMaxSSTablesPerManifestTier.

(** ... and could with a table more in each, and a tier more, ... *)
Definition room ts : bool :=
  (Z.of_nat (length ts) <? kMaxManifestTiers) && forallb (λ T, Z.of_nat (length T) <? kMaxSSTablesPerManifestTier) ts.

(** ... or with no more in the first. *)
Definition room_below ts : Prop :=
  Z.of_nat (length ts) < kMaxManifestTiers ∧ ∀ T, T ∈ tail ts → Z.of_nat (length T) < kMaxSSTablesPerManifestTier.

(** Tiers in the manifest, with what at most [F] flushes make of them. *)
Definition fits (F : Z) ts : Prop := capacity ts ∧ weight ts ≤ F ∧ 2 ^ Z.of_nat (length ts) ≤ 2 * Z.max 1 F.

Lemma room_spec ts :
  room ts = true ↔ Z.of_nat (length ts) < kMaxManifestTiers ∧ ∀ T, T ∈ ts → Z.of_nat (length T) < kMaxSSTablesPerManifestTier.
Proof.
  unfold room. rewrite andb_true_iff, Z.ltb_lt, forallb_forall. setoid_rewrite Z.ltb_lt. setoid_rewrite <-list_elem_of_In. done.
Qed.

Lemma room_tail ts : room ts = true → room_below ts.
Proof. intros [H1 H2]%room_spec. split; [done|]. intros T HT. apply H2. destruct ts; [done|by right]. Qed.

Lemma room_take n ts : room ts = true → room (take n ts) = true.
Proof.
  rewrite !room_spec, length_take. intros [H1 H2]. split; [lia|]. intros T HT. apply H2. rewrite <-(take_drop n ts). apply elem_of_app. by left.
Qed.

(** Fewer than 16 flushes leave room, whatever the compactions. *)
Lemma fits_room F ts : fits F ts → F < 16 → room ts = true.
Proof.
  intros (_ & Hw & Hl) HF. apply room_spec. unfold kMaxManifestTiers, kMaxSSTablesPerManifestTier. split.
  - destruct (Z.lt_ge_cases (Z.of_nat (length ts)) 8) as [|Hge]; [done|].
    assert (2 ^ 8 ≤ 2 ^ Z.of_nat (length ts)) by (apply Z.pow_le_mono_r; lia). lia.
  - intros T HT. apply tier_weight in HT. lia.
Qed.

(** ** The tiers after a flush *)

Definition flushed (id : Z) ts : list (list Z) := alter (λ l, id :: l) 0%nat (grow 1 ts).

Lemma flushed_ok id ts : concat (flushed id ts) = id :: concat ts ∧ weight (flushed id ts) = weight ts + 1 ∧
  length (flushed id ts) = Nat.max 1 (length ts).
Proof. unfold flushed, grow. destruct ts as [|tier ts]; cbn; [done|]. rewrite app_nil_r. split_and!; [done|lia|lia]. Qed.

Lemma capacity_flushed id ts :
  capacity ts → Z.of_nat (length (tier_at ts 0)) < kMaxSSTablesPerManifestTier →
  capacity (flushed id ts) ∧ length (tier_at (flushed id ts) 0) = S (length (tier_at ts 0)).
Proof.
  intros [H1 H2] H0. unfold capacity. destruct (flushed_ok id ts) as (_ & _ & ->).
  unfold flushed, grow. destruct ts as [|tier ts]; cbn [length tier_at lookup] in *.
  - split; [split; [by vm_compute|]|done]. intros T ->%list_elem_of_singleton. by vm_compute.
  - simpl. rewrite app_nil_r. split; [split; [simpl in H1; lia|]|done]. unfold tier_at in H0. simpl in H0.
    intros T [->|HT]%elem_of_cons; [simpl; lia|]. apply H2. by right.
Qed.

Lemma fits_flushed F id ts : fits F ts → room ts = true → 0 ≤ F → fits (F + 1) (flushed id ts) ∧ room_below (flushed id ts).
Proof.
  intros (Hc & Hw & Hl) [Hr1 Hr2]%room_spec HF. destruct (flushed_ok id ts) as (_ & Hw' & Hl').
  assert (Hlen : Z.of_nat (length (flushed id ts)) < kMaxManifestTiers) by (rewrite Hl'; unfold kMaxManifestTiers in *; lia).
  assert (Htail : tail (flushed id ts) = tail ts) by (unfold flushed, grow; destruct ts as [|tier ts]; [done|simpl; by rewrite app_nil_r]).
  split.
  - split; [split; [lia|]|split; [lia|]].
    + intros T HT. unfold flushed, grow in HT. destruct ts as [|tier ts]; simpl in HT.
      * apply list_elem_of_singleton in HT as ->. by vm_compute.
      * rewrite app_nil_r in HT. apply elem_of_cons in HT as [->|HT]; [simpl; specialize (Hr2 tier); set_solver by lia|].
        specialize (Hr2 T). set_solver by lia.
    + rewrite Hl'. destruct ts as [|tier ts]; [simpl; lia|].
      replace (Nat.max 1 (length (tier :: ts))) with (length (tier :: ts)) by (simpl; lia). lia.
  - split; [done|]. rewrite Htail. intros T HT. apply Hr2. destruct ts; [done|by right].
Qed.

(** ** The tiers after a compaction *)

Definition compacted (i : nat) T (new : option Z) ts : list (list Z) :=
  let ts := grow (S (S i)) ts in
  let ts := match new with Some id => alter (λ l, id :: l) (S i) ts | None => ts end in
  alter (filter (λ id, id ∉ T)) i ts.

Lemma filter_self T : filter (λ id, id ∉ T) T = [].
Proof.
  assert (H : ∀ l, (∀ x, x ∈ l → x ∈ T) → filter (λ id, id ∉ T) l = []).
  { induction l as [|x l IH]; intros Hl; [done|]. rewrite filter_cons_False by (assert (x ∈ T) by (apply Hl; set_solver); tauto).
    apply IH. set_solver. }
  by apply H.
Qed.

Lemma alter_app_here {A} (f : A → A) (l : list A) (x : A) r : alter f (length l) (l ++ x :: r) = l ++ f x :: r.
Proof. induction l as [|y l IH]; [done|]. simpl. f_equal. exact IH. Qed.

(** The compacted tier is empty; its tables are merged into the front of the next. *)
Lemma compacted_split pre T post new :
  compacted (length pre) T new (pre ++ T :: post) =
  pre ++ [] :: match post with [] => [option_list new] | tier :: post => (option_list new ++ tier) :: post end.
Proof.
  unfold compacted, grow.
  assert (Hg : (pre ++ T :: post) ++ replicate (S (S (length pre)) - length (pre ++ T :: post)) [] =
    pre ++ T :: match post with [] => [[]] | tier :: post => tier :: post end).
  { rewrite length_app. cbn [length]. destruct post as [|tier post]; simpl length.
    - replace (S (S (length pre)) - (length pre + 1))%nat with 1%nat by lia. by rewrite <-app_assoc.
    - replace (S (S (length pre)) - (length pre + S (S (length post))))%nat with 0%nat by lia. by rewrite app_nil_r. }
  rewrite Hg. set (rest := match post with [] => [[]] | tier :: post => tier :: post end).
  assert (Hr : ∃ tier post', rest = tier :: post' ∧
    match post with [] => [option_list new] | tier :: post => (option_list new ++ tier) :: post end = (option_list new ++ tier) :: post').
  { destruct post as [|tier post]; [exists [], []; by rewrite app_nil_r|by exists tier, post]. }
  destruct Hr as (tier & post' & -> & ->). destruct new as [id|]; simpl option_list.
  - replace (S (length pre)) with (length (pre ++ [T])) by (rewrite length_app; simpl; lia).
    replace (pre ++ T :: tier :: post') with ((pre ++ [T]) ++ tier :: post') by (by rewrite <-app_assoc).
    rewrite alter_app_here, <-app_assoc. simpl app. by rewrite alter_app_here, filter_self.
  - by rewrite alter_app_here, filter_self.
Qed.

Lemma concat_compacted pre T post new :
  concat (compacted (length pre) T new (pre ++ T :: post)) = concat pre ++ option_list new ++ concat post.
Proof. rewrite compacted_split, concat_app. simpl. destruct post as [|tier post]; simpl; by rewrite <-?app_assoc. Qed.

Lemma capacity_compacted pre T post new :
  capacity (pre ++ T :: post) → room_below (pre ++ T :: post) → capacity (compacted (length pre) T new (pre ++ T :: post)).
Proof.
  intros [Hc1 Hc2] [Hr1 Hr2]. rewrite compacted_split. assert (Ho : (length (option_list new) ≤ 1)%nat) by (destruct new; simpl; lia).
  assert (Htail : ∀ T', T' ∈ post → T' ∈ tail (pre ++ T :: post)) by (intros T' HT; destruct pre; simpl; set_solver).
  split.
  - rewrite length_app in *. cbn [length] in *. unfold kMaxManifestTiers in *. destruct post; simpl in *; lia.
  - intros T' [HT|[->|HT]%elem_of_cons]%elem_of_app; [apply Hc2; set_solver|by vm_compute|].
    destruct post as [|tier post]; apply elem_of_cons in HT as [->|HT].
    + unfold kMaxSSTablesPerManifestTier. lia.
    + by apply elem_of_nil in HT.
    + rewrite length_app. specialize (Hr2 tier (Htail tier ltac:(by left))). lia.
    + apply Hc2. set_solver.
Qed.

Lemma fits_compacted F pre T post new :
  fits F (pre ++ T :: post) → room_below (pre ++ T :: post) → 2 ≤ Z.of_nat (length T) →
  fits F (compacted (length pre) T new (pre ++ T :: post)).
Proof.
  intros (Hc & Hw & Hl) Hr HT. split; [by apply capacity_compacted|]. rewrite compacted_split. rewrite weight_app in *. cbn [weight length] in *.
  set (p := 2 ^ Z.of_nat (length pre)) in *. assert (0 < p) by (apply Z.pow_pos_nonneg; lia).
  assert (Ho : Z.of_nat (length (option_list new)) ≤ 1) by (destruct new; simpl; lia). pose proof (weight_nonneg pre).
  pose proof (weight_nonneg post). rewrite length_app in *. cbn [length] in *. destruct post as [|tier post]; cbn [weight length] in *.
  - split; [nia|]. replace (Z.of_nat (length pre + 2)) with (Z.of_nat (length pre) + 2) by lia. rewrite Z.pow_add_r by lia. fold p. nia.
  - rewrite length_app, Nat2Z.inj_add. split; [nia|done].
Qed.

(** ** Finding the tier *)

Lemma find_tier_Some threshold ts i :
  find_tier threshold ts = Some i → ∃ pre T post, ts = pre ++ T :: post ∧ length pre = i ∧ threshold ≤ Z.of_nat (length T).
Proof.
  revert i; induction ts as [|tier ts IH]; intros i; simpl; [done|]. destruct (Z.leb_spec threshold (Z.of_nat (length tier))).
  - intros [= <-]. by exists [], tier, ts.
  - destruct (find_tier threshold ts) as [j|]; [|done]. intros [= <-]. destruct (IH j eq_refl) as (pre & T & post & -> & <- & HT).
    by exists (tier :: pre), T, post.
Qed.

Lemma tier_at_middle pre T post : tier_at (pre ++ T :: post) (length pre) = T.
Proof. unfold tier_at. by rewrite list_lookup_middle. Qed.

Lemma empty_tiers ts : forallb (λ l, bool_decide (l = [])) ts = true → concat ts = [].
Proof. induction ts as [|tier ts IH]; simpl; [done|]. intros [->%bool_decide_eq_true H]%andb_true_iff. by apply IH. Qed.

(** ** What a reader sees *)

Definition view (ess : list entries) (k : Z) : option string := first_look k ess ≫= live.

Lemma view_app ess ess' k :
  view (ess ++ ess') k = match first_look k ess with Some v => live v | None => view ess' k end.
Proof. unfold view. rewrite first_look_app. by destruct (first_look k ess). Qed.

Lemma look_keep es k : sorted es → look k (keep true es) = match look k es with Some v => if deleted v then None else Some v | None => None end.
Proof.
  induction es as [|[k' v] es IH]; intros Hs; [done|]. apply sorted_cons_inv in Hs as [Hs Hk]. rewrite keep_cons, andb_true_r. cbn [look].
  destruct (Z.eqb_spec k' k) as [->|Hne].
  - destruct (deleted v); [|simpl; by rewrite Z.eqb_refl]. rewrite IH by done. by rewrite look_past.
  - destruct (deleted v); [by apply IH|]. simpl. rewrite (proj2 (Z.eqb_neq _ _)) by done. by apply IH.
Qed.

(** A compaction changes nothing that a reader sees. *)
Lemma view_compacted above ess below b k :
  (b = true → below = []) →
  view (above ++ keep b (merged ess) :: below) k = view (above ++ ess ++ below) k.
Proof.
  intros Hb. rewrite (view_app above (_ :: _)), (view_app above (ess ++ below)). destruct (first_look k above) as [v|]; [done|].
  unfold view. cbn [first_look]. rewrite first_look_app.
  destruct b.
  - rewrite (Hb eq_refl). rewrite look_keep by apply sorted_merged. rewrite look_merged. simpl.
    destruct (first_look k ess) as [v|]; [|done]. unfold live. by destruct (deleted v) eqn:E; simpl; rewrite ?E.
  - change (keep false (merged ess)) with (merged ess). by rewrite look_merged.
Qed.

(** ... also when nothing is left of the tier. *)
Lemma view_dropped above ess below b k :
  (b = true → below = []) → keep b (merged ess) = [] → view (above ++ below) k = view (above ++ ess ++ below) k.
Proof.
  intros Hb E. rewrite <-(view_compacted above ess below b k Hb), E, !view_app. destruct (first_look k above); [done|]. done.
Qed.

(** ** The manifest page *)

#[local] Opaque le_enc.

Definition tier_counts ts : bytes := concat ((λ i, le_enc 4 (Z.of_nat (length (tier_at ts i)))) <$> seq 0 8).
Definition tier_row ts (i : nat) : bytes := concat ((λ j, le_enc 8 (default 0 (tier_at ts i !! j))) <$> seq 0 16).

Lemma blen_tier_counts ts : blen (tier_counts ts) = 32.
Proof. unfold tier_counts. rewrite (blen_concat _ 4) by (intros; by rewrite blen_le_enc). by rewrite length_seq. Qed.

Lemma blen_tier_row ts i : blen (tier_row ts i) = 128.
Proof. unfold tier_row. rewrite (blen_concat _ 8) by (intros; by rewrite blen_le_enc). by rewrite length_seq. Qed.

Lemma blen_manifest next ts : blen (manifest_page next ts) = 1064.
Proof.
  unfold manifest_page. fold (tier_counts ts). rewrite !blen_app, blen_le_enc, blen_tier_counts.
  change (λ i, concat _) with (tier_row ts). rewrite (blen_concat _ 128) by (intros; by apply blen_tier_row). by rewrite length_seq.
Qed.

Section manifest.
Context (next : Z) (ts : list (list Z)) (c : bytes).
Let page := manifest_page next ts ++ c.

Lemma manifest_next : is_i64 next → page_next page = next.
Proof.
  intros H. unfold page_next, get_i64, page, manifest_page. rewrite <-!app_assoc, block_head by (rewrite ?blen_le_enc; done). by apply i64_enc.
Qed.

Lemma manifest_count i : (i < 8)%nat → is_i32 (Z.of_nat (length (tier_at ts i))) →
  page_tier_count page (Z.of_nat i) = Z.of_nat (length (tier_at ts i)).
Proof.
  intros Hi H. unfold page_tier_count, get_i32, page, manifest_page. fold (tier_counts ts). rewrite <-!app_assoc.
  rewrite block_app_r by (rewrite blen_le_enc; lia). rewrite blen_le_enc, block_app_l by (rewrite ?blen_tier_counts; lia).
  unfold tier_counts. replace (8 + 4 * Z.of_nat i - Z.of_nat 8) with (4 * Z.of_nat i) by lia.
  rewrite (block_concat _ 4 _ i i); [by apply i32_enc|lia|intros; by rewrite blen_le_enc|]. rewrite lookup_seq. lia.
Qed.

Lemma manifest_id i j id : (i < 8)%nat → (j < 16)%nat → tier_at ts i !! j = Some id → is_i64 id →
  page_tier_id page (Z.of_nat i) (Z.of_nat j) = id.
Proof.
  intros Hi Hj Hid H. unfold page_tier_id, page, manifest_page. fold (tier_counts ts). rewrite <-!app_assoc. unfold get_i64.
  rewrite block_app_r by (rewrite blen_le_enc; lia). rewrite blen_le_enc, block_app_r by (rewrite ?blen_tier_counts; lia).
  rewrite blen_tier_counts. change (λ i, concat _) with (tier_row ts).
  assert (Hlen : blen (concat (tier_row ts <$> seq 0 8)) = 1024) by (by rewrite (blen_concat _ 128) by (intros; by apply blen_tier_row)).
  rewrite block_app_l by (rewrite ?Hlen; lia).
  replace (40 + 128 * Z.of_nat i + 8 * Z.of_nat j - Z.of_nat 8 - 32) with (128 * Z.of_nat i + 8 * Z.of_nat j) by lia.
  rewrite <-(block_block _ (128 * Z.of_nat i) 128 (8 * Z.of_nat j) 8) by lia.
  rewrite (block_concat (tier_row ts) 128 _ i i); [|lia|intros; by apply blen_tier_row|rewrite lookup_seq; lia].
  unfold tier_row. rewrite (block_concat _ 8 _ j j); [|lia|intros; by rewrite blen_le_enc|rewrite lookup_seq; lia].
  rewrite Hid. by apply i64_enc.
Qed.
End manifest.
End LsmTiers.
