(* ===== verification/LsmTheory.v ===== *)
(** * Theory of the LSM-tree engine: flushes and compactions *)

From stdpp Require Import gmultiset.
From S2P Require Import Prelude Entries Bytes Structs Disk Replacer Buffer BTreeReopen Engine Wal WalTheory SkipList SkipListTheory MemTable.
From S2P Require Import Bloom Merge MergeTheory SSTable SSTablePages SSTableFile SSTableTheory LsmEngine LsmCursors LsmTiers.

#[local] Opaque le_enc DiskManager.page_of DiskManager.write_file zeros LSMTreeEngine.manifest_page.

Module LsmTheory.
Import SSTablePages SSTableFile LSMTreeEngine LsmCursors LsmTiers.

(** ** The surroundings *)

(** The memory behind the structs can be read, the files of tables meet no
    failures, and the filters stay below 2^40 bits. *)
Record sane (behind : option Z → page_id_t → bytes) (ideal : Z → Z * Z) (faults : Z → list (option DiskManager.fault)) : Prop := {
  sn_behind : ∀ id, mapped (behind id);
  sn_ideal : ∀ n, 1 ≤ n < 2 ^ 31 → (ideal n).1 ≤ 2 ^ 40;
  sn_faults : ∀ id, faults id = [];
}.

Section engine.
Context (behind : option Z → page_id_t → bytes) (ideal : Z → Z * Z).
Context (faults : Z → list (option DiskManager.fault)) (coins : nat → list bool).

(** ** Table files *)

Definition file_holds (es : entries) (f : DiskManager.file) : Prop :=
  DiskManager.f_faults f = [] ∧ sorted es ∧ table_ok ideal es ∧
  ∃ bloom, filter_of ideal es bloom ∧ is_table (DiskManager.f_data f) es bloom.

Lemma table_ok_of es : (∀ n, 1 ≤ n < 2 ^ 31 → (ideal n).1 ≤ 2 ^ 40) → (∀ x, x ∈ es → entry_ok x) → Z.of_nat (length es) < 2 ^ 31 → table_ok ideal es.
Proof. intros Hi He Hl. split; [done|done|]. apply Hi. lia. Qed.

Lemma BuildTable_ok id es e :
  sane behind ideal faults → sst (disk e) !! id = None → sorted es → (∀ x, x ∈ es → entry_ok x) → Z.of_nat (length es) < 2 ^ 31 →
  ∃ f, BuildTable behind ideal faults id es e = (Val tt, set_files (<[id := f]> (sst (disk e))) (memwal (disk e)) e) ∧ file_holds es f ∧
    blen (DiskManager.f_data f) ≤ 2 ^ 52.
Proof.
  intros [Hb Hi Hf] Hid Hs He Hl. pose proof (table_ok_of es Hi He Hl) as Hok.
  destruct (write_table_ok ideal (behind (Some id)) (SSTablePath id e) es (Hb _) Hok) as (bloom & d & Hfl & Ew & Hh & Ht & Hsz).
  exists (DiskManager.fd_ d). unfold BuildTable, table_file. rewrite Hid, Hf. simpl default. unfold SSTable.Build.
  rewrite (Open_disk _ (DiskManager.File [] []) eq_refl). change (pages_in (blen (DiskManager.f_data (DiskManager.File [] [])))) with 0.
  rewrite Ew. split; [done|]. split; [|done]. split_and!; [apply Hh|done|done|]. by exists bloom.
Qed.

(** A table built under an id that has a file already: the file keeps its table. *)
Lemma BuildTable_over id es es' f e :
  sane behind ideal faults → sst (disk e) !! id = Some f → file_holds es f → blen (DiskManager.f_data f) ≤ 2 ^ 52 →
  (∀ x, x ∈ es' → entry_ok x) → Z.of_nat (length es') < 2 ^ 31 →
  ∃ f', BuildTable behind ideal faults id es' e = (Val tt, set_files (<[id := f']> (sst (disk e))) (memwal (disk e)) e) ∧ file_holds es f'.
Proof.
  intros [Hb Hi Hf] Hid (Hff & Hs & Hok & bloom & Hfl & Ht) Hsz He Hl. pose proof (table_ok_of es' Hi He Hl) as Hok'.
  set (n := pages_in (blen (DiskManager.f_data f))). pose proof (pages_in_ge (blen (DiskManager.f_data f))) as Hge. fold n in Hge.
  assert (Hn : 0 ≤ n ≤ 2 ^ 41).
  { split; [apply pages_in_nonneg; unfold blen; lia|]. apply pages_in_le. unfold PAGE_SIZE. lia. }
  destruct (write_table_behind ideal (behind (Some id)) es' n (DiskManager.mk f (SSTablePath id e) n 0 0) (Hb _) Hok') as (d & Ew & Hh & Hq & Hend);
    [by split_and!|done|].
  exists (DiskManager.fd_ d). split.
  - unfold BuildTable, table_file. rewrite Hid. simpl default. unfold SSTable.Build. rewrite (Open_disk _ f Hff). fold n. by rewrite Ew.
  - split_and!; [apply Hh|done|done|]. exists bloom. split; [done|].
    apply (is_table_longer (DiskManager.f_data f)); [done| |lia|unfold PAGE_SIZE, int64_max in *; lia].
    intros q Hq0 Hq1. apply Hq. split; [done|]. unfold PAGE_SIZE in *. lia.
Qed.

Lemma OpenTable_ok id es e f :
  sst (disk e) !! id = Some f → file_holds es f →
  ∃ s, OpenTable faults id e = (Val tt, set_tables (<[id := mkTable s false]> (tables e)) (held e) e) ∧ SSTableTheory.holds es ∅ s.
Proof.
  intros Hid (Hf & Hs & Hok & bloom & Hfl & Ht).
  destruct (SSTableTheory.table_Open_ok ideal (SSTablePath id e) f es bloom Hf Hs Hok Hfl Ht) as (s & f' & Eo & Ed & Ef & Hh & _).
  exists s. split; [|done]. unfold OpenTable, table_file. rewrite Hid. simpl default. rewrite Eo.
  assert (f' = f) as -> by (destruct f, f'; simpl in *; congruence).
  rewrite (insert_id (sst (disk e)) id f Hid). by destruct e as [? ? ? ? ? ? ? ? ? ? ? ? ? ? ? ? []].
Qed.

(** ** The invariant *)

Record table_rep (E : gmap Z entries) (ids : list Z) (tb : gmap Z table) (fs : gmap Z DiskManager.file) (next : Z) : Prop := {
  tr_nodup : NoDup ids;
  tr_dom : ∀ id, is_Some (E !! id) ↔ id ∈ ids;
  tr_tables : ∀ id es, E !! id = Some es → ∃ s, tb !! id = Some (mkTable s false) ∧ SSTableTheory.holds es ∅ s;
  tr_only : ∀ id, is_Some (tb !! id) → id ∈ ids;
  tr_files : ∀ id es, E !! id = Some es → ∃ f, fs !! id = Some f ∧ file_holds es f;
  tr_ids : ∀ id es, E !! id = Some es → 0 ≤ id < next;
}.

Record manifest_rep (d : DiskManager.t) (f : DiskManager.file) (next : Z) (ts : list (list Z)) : Prop := {
  mr_healthy : DiskManager.healthy d;
  mr_file : DiskManager.fd_ d = f;
  mr_size : blen (DiskManager.f_data f) = PAGE_SIZE;
  mr_page : ∃ c, DiskManager.page_of (DiskManager.f_data f) 0 = manifest_page next ts ++ c;
}.

Definition mem_rep (mem : entries) (e : t) : Prop :=
  (active_memtable_ e < next_memtable e)%nat ∧ ∃ m, memtables e !! active_memtable_ e = Some m ∧ MemTable.holds m mem.

Definition total (ess : list entries) : Z := Z.of_nat (sum_list_with length ess).

(** The engine holds the entries [mem] in memory and [E] in tables, after [F]
    flushes, [W] writes and at most [K] tables. *)
Record rep (E : gmap Z entries) (mem : entries) (F W K : Z) (e : t) : Prop := {
  rp_mem : mem_rep mem e;
  rp_entries : ∀ x, x ∈ mem → entry_ok x;
  rp_tables : table_rep E (concat (tiers_ e)) (tables e) (sst (disk e)) (next_sstable_id_ e);
  rp_manifest : manifest_rep (manifest_disk_manager_ e) (manifest (disk e)) (next_sstable_id_ e) (tiers_ e);
  rp_held : held e = [];
  rp_idle : compaction_running_ e = false;
  rp_fits : fits F (tiers_ e);
  rp_flushes : 0 ≤ F;
  rp_ids : 0 ≤ next_sstable_id_ e ≤ K;
  rp_total : total (mem :: (content E <$> concat (tiers_ e))) ≤ W;
}.

(** No file is left behind under an id that is still to be given. *)
Definition fresh (e : t) : Prop := ∀ id, next_sstable_id_ e ≤ id → sst (disk e) !! id = None.

(** What the lookups and scans go through, newest first. *)
Definition stack (E : gmap Z entries) (mem : entries) (e : t) : list entries := mem :: (content E <$> concat (tiers_ e)).

(** The members that a compaction leaves alone. *)
Definition rest (e : t) :=
  (db_path_ e, flush_threshold_bytes_ e, tier_threshold_ e, (wal_enabled_ e, next_wal_generation_ e, memtable_wal_ e),
   (active_memtable_ e, memtables e, next_memtable e), memwal (disk e), stop_ e).

Lemma rep_open E mem F W K e id es : rep E mem F W K e → E !! id = Some es → open_table e id es ∅.
Proof. intros H HE. destruct (tr_tables _ _ _ _ _ (rp_tables _ _ _ _ _ _ H) id es HE) as (s & Hs & Hh). by exists (mkTable s false). Qed.

(** ** The manifest *)

Lemma manifest_Persist_ok e next ts :
  sane behind ideal faults → manifest_rep (manifest_disk_manager_ e) (manifest (disk e)) next ts →
  capacity (tiers_ e) →
  ∃ d, PersistManifestLocked behind e = (Val tt, set_manifest d e) ∧
    manifest_rep d (DiskManager.fd_ d) (next_sstable_id_ e) (tiers_ e).
Proof.
  intros [Hb _ _] [Hh Hf Hs _] [H1 H2]. unfold PersistManifestLocked. mstep.
  rewrite (proj2 (Z.ltb_ge _ _)) by done.
  assert (Hex : existsb (λ tier, kMaxSSTablesPerManifestTier <? Z.of_nat (length tier)) (tiers_ e) = false).
  { apply not_true_is_false. intros (tier & Hin & Hlt)%existsb_exists. apply Z.ltb_lt in Hlt. apply list_elem_of_In, H2 in Hin. lia. }
  rewrite Hex. unfold write_manifest, on_manifest. pose proof (blen_manifest (next_sstable_id_ e) (tiers_ e)) as Hm.
  set (page := manifest_page _ _) in *. specialize (Hb None 0).
  assert (Hv : DiskManager.valid_id 0) by (split; by vm_compute).
  rewrite (WritePage_prefix 0 (page ++ behind None 0)); [|done|done|rewrite blen_app, Hm; unfold PAGE_SIZE in *; lia].
  set (x := block (page ++ behind None 0) 0 PAGE_SIZE).
  assert (Hx : blen x = PAGE_SIZE) by (apply blen_block; rewrite ?blen_app, ?Hm; unfold PAGE_SIZE in *; lia).
  eexists. split; [done|]. unfold written. split; cbn [DiskManager.count_write DiskManager.set_fd DiskManager.fd_ DiskManager.f_data].
  - done.
  - done.
  - rewrite Hf. rewrite DiskManager.blen_write_file, Hs, Hx by lia. unfold PAGE_SIZE. lia.
  - rewrite DiskManager.page_of_write_eq by (done || lia). unfold x. rewrite block_prefix by (rewrite Hm; unfold PAGE_SIZE; lia). by eexists.
Qed.

(** ** Compaction *)

Lemma from_key_all es : (∀ x, x ∈ es → entry_ok x) → from_key INVALID_KEY es = es.
Proof.
  intros H. unfold from_key. rewrite lb_ge; [done|]. intros x Hx. destruct (H x Hx) as [[Hk _] _]. done.
Qed.

Lemma elem_keep b x es : x ∈ keep b es → x ∈ es.
Proof. unfold keep. destruct b; [|done]. intros [_ ?]%list_elem_of_filter. done. Qed.

Lemma sorted_keep b (es : entries) : sorted es → sorted (keep b es).
Proof. unfold keep. destruct b; [|done]. by apply sorted_filter. Qed.

Lemma length_keep b es : (length (keep b es) ≤ length es)%nat.
Proof. unfold keep. destruct b; [apply length_filter|done]. Qed.

Lemma elem_merged x (ess : list entries) : (∀ es, es ∈ ess → sorted es) → x ∈ merged ess → ∃ es, es ∈ ess ∧ x ∈ es.
Proof.
  intros Hs Hx. destruct x as [k v]. apply look_elem in Hx; [|apply sorted_merged]. rewrite look_merged in Hx.
  apply first_look_Some in Hx as (es & Hin & Hl). exists es. split; [done|]. apply look_elem; [by apply Hs|done].
Qed.

(** The state in which the new table, if any, is built and open. *)
Definition with_table (new : option (Z * (DiskManager.file * table))) (e : t) : t :=
  match new with
  | Some (id, (f, s)) => set_tables (<[id := s]> (tables e)) (held e) (set_files (<[id := f]> (sst (disk e))) (memwal (disk e)) (set_next_id (id + 1) e))
  | None => e
  end.

(** What the tables contain with the new one. *)
Definition with_entries {A} (new : option (Z * A)) (L : entries) (E : gmap Z entries) : gmap Z entries :=
  match new with Some (id, _) => <[id := L]> E | None => E end.

Lemma compact_merge_ok E e T b :
  sane behind ideal faults →
  (∀ id es, E !! id = Some es → open_table e id es ∅ ∧ sorted es ∧ (∀ x, x ∈ es → entry_ok x)) →
  NoDup T → (∀ id, id ∈ T → is_Some (E !! id)) →
  sst (disk e) !! next_sstable_id_ e = None → E !! next_sstable_id_ e = None →
  total (content E <$> T) < 2 ^ 31 →
  let L := keep b (merged (content E <$> T)) in
  ∃ new cs e1 ess, compact_merge behind ideal faults T b e = (Val (fst <$> new, cs), with_table new e1) ∧
    reads_only e e1 ∧ cursors_ok (with_entries new L E) (with_table new e1) (with_table new e1) cs ess ∧
    match new with
    | Some (id, (f, s)) => id = next_sstable_id_ e ∧ file_holds L f ∧ obsolete_ s = false ∧ SSTableTheory.holds L ∅ (body s)
    | None => L = []
    end.
Proof.
  intros Hsane HE Hn HT Hfresh HEf Htot L. unfold compact_merge.
  assert (Hc : ∀ id, id ∈ T → sorted (content E id) ∧ ∀ x, x ∈ content E id → entry_ok x).
  { intros id Hin. destruct (HT id Hin) as [es Hes]. unfold content. rewrite Hes. simpl. by destruct (HE id es Hes) as (_ & ? & ?). }
  destruct (open_cursors_ok E e INVALID_KEY T e [] []) as (cs & e1 & E1 & Hids & Hok1).
  { apply cursors_start; [done|done|]. intros id es Hes. by destruct (HE id es Hes). }
  { done. } { intros id Hin. split; [by intros ?%elem_of_nil|by apply HT]. }
  mrun E1. rewrite !app_nil_l in Hok1.
  assert (Hess : from_key INVALID_KEY ∘ content E <$> T = content E <$> T).
  { apply fmap_ext_in. intros id Hin. simpl. apply from_key_all. by apply Hc. }
  rewrite Hess in Hok1. destruct (merge_new E e T e1 cs _ (conj Hok1 Hids)) as (m & e2 & E2 & Hm2). mrun E2.
  destruct (drain_ok E e T b (merge_fuel cs e1) e2 m _ Hm2) as (m3 & e3 & E3 & Hm3).
  { apply merge_fuel_ok in Hok1. pose proof (length_merged (content E <$> T)). lia. }
  mrun E3. fold L. destruct (merging_cursors E e T e3 m3 [] Hm3) as (ess3 & Hok3 & _). pose proof (co_reads _ _ _ _ _ Hok3) as Hr3.
  assert (Hre : reads_only e3 e3) by apply reads_only_refl.
  destruct L as [|x L'] eqn:EL.
  { exists None, (LSMMergeIterator.cursors_ m3), e3, ess3. mstep. split_and!; [done|done| |done].
    apply (cursors_rebase E e E e3 e3); [done|done|done|]. intros id es H1 H2. by rewrite H1 in H2. }
  set (id := next_sstable_id_ e). assert (Hid3 : next_sstable_id_ e3 = id) by (by rewrite (ro_rest _ _ Hr3)).
  assert (Hd3 : disk e3 = disk e) by (by rewrite (ro_rest _ _ Hr3)).
  assert (Hef : fetch_id e3 = (Val id, set_next_id (id + 1) e3)) by (unfold fetch_id; rewrite bind_get, bind_modify, Hid3; done). mrun Hef.
  destruct (BuildTable_ok id (x :: L') (set_next_id (id + 1) e3) Hsane) as (f & E4 & Hf & _).
  { simpl. rewrite Hd3. done. }
  { rewrite <-EL. apply sorted_keep, sorted_merged. }
  { rewrite <-EL. intros y Hy%elem_keep%elem_merged. 2:{ intros es (id' & -> & Hin)%list_elem_of_fmap. by apply Hc. }
    destruct Hy as (es & (id' & -> & Hin)%list_elem_of_fmap & Hy). by apply (Hc id' Hin). }
  { rewrite <-EL. pose proof (length_keep b (merged (content E <$> T))). pose proof (length_merged (content E <$> T)).
    unfold total in Htot. unfold L. lia. }
  mrun E4. set (e4 := set_files _ _ _). destruct (OpenTable_ok id (x :: L') e4 f) as (s & E5 & Hs5); [|done|].
  { simpl. by rewrite lookup_insert_eq. }
  mrun E5. exists (Some (id, (f, mkTable s false))), (LSMMergeIterator.cursors_ m3), e3, ess3. split; [done|].
  split_and!; [done| |done|done|done|done].
  apply (cursors_rebase E e _ e3); [done|done| |].
  - intros id' [es' Hes']. assert (id ≠ id') by (intros <-; unfold id in Hes'; by rewrite HEf in Hes'). simpl.
    by rewrite !lookup_insert_ne.
  - intros id' es' Hin Hnone. simpl in Hin. apply lookup_insert_Some in Hin as [[<- <-]|[_ Hin]]; [|by rewrite Hin in Hnone].
    exists (mkTable s false). simpl. by rewrite lookup_insert_eq.
Qed.

Lemma lookup_mark_obsolete T (ts : gmap Z table) id :
  mark_obsolete T ts !! id = (if decide (id ∈ T) then λ s, mkTable (body s) true else λ s, s) <$> ts !! id.
Proof.
  induction T as [|x T IH]; simpl; [by destruct (ts !! id)|]. destruct (decide (x = id)) as [->|Hne].
  - rewrite lookup_alter_eq, IH. rewrite (decide_True (P := id ∈ id :: T)) by set_solver. destruct (ts !! id) as [s|]; [|done]. simpl.
    by destruct (decide (id ∈ T)).
  - rewrite lookup_alter_ne, IH by done. destruct (decide (id ∈ T)), (decide (id ∈ x :: T)); set_solver.
Qed.

Lemma compact_install_eq i T new e :
  compact_install behind i T new e =
  PersistManifestLocked behind (set_tables (mark_obsolete T (tables e)) (held e) (set_tiers (compacted i T new (tiers_ e)) e)).
Proof. unfold compact_install, compacted. by destruct new as [id|]. Qed.

(** The files and the next id with the new table. *)
Definition with_file (new : option (Z * (DiskManager.file * table))) (fs : gmap Z DiskManager.file) : gmap Z DiskManager.file :=
  match new with Some (id, (f, _)) => <[id := f]> fs | None => fs end.
Definition id_after {A} (new : option (Z * A)) (next : Z) : Z := match new with Some (id, _) => id + 1 | None => next end.

Lemma table_rep_compacted E above T below tb fs next new L tb' :
  table_rep E (above ++ T ++ below) tb fs next → 0 ≤ next →
  match new with Some (id, (f, s)) => id = next ∧ file_holds L f | None => True end →
  (∀ id es, with_entries new L E !! id = Some es → ∃ s, tb' !! id = Some s ∧ SSTableTheory.holds es ∅ (body s)) →
  (∀ id s, tb' !! id = Some s → obsolete_ s = bool_decide (id ∈ T)) →
  (∀ id, is_Some (tb' !! id) → id ∈ above ++ T ++ below ∨ Some id = fst <$> new) →
  table_rep (filter (λ p, p.1 ∉ T) (with_entries new L E)) (above ++ option_list (fst <$> new) ++ below)
    (filter (λ p, p.1 ∉ T) tb') (filter (λ p, p.1 ∉ T) (with_file new fs)) (id_after new next).
Proof.
  intros [Hn Hd Ht Ho Hf Hids] Hnext Hnew Htb Hfl Honly.
  assert (Hold : ∀ id, id ∈ above ++ T ++ below → 0 ≤ id < next).
  { intros id Hin. apply Hd in Hin as [es HE]. by eapply Hids. }
  assert (Hnid : ∀ id, fst <$> new = Some id → id = next) by (destruct new as [[id [f s]]|]; simpl; [by destruct Hnew as [-> _]; intros id' [= <-]|done]).
  assert (Hdom : ∀ id, is_Some (with_entries new L E !! id) ↔ id ∈ above ++ T ++ below ∨ fst <$> new = Some id).
  { intros id. rewrite <-Hd. destruct new as [[id' [f s]]|]; simpl; [|naive_solver].
    destruct (decide (id' = id)) as [->|Hne]; [rewrite lookup_insert_eq; naive_solver|rewrite lookup_insert_ne by done; naive_solver]. }
  assert (HnT : ∀ id, fst <$> new = Some id → id ∉ T) by (intros id Hid Hin; specialize (Hold id); specialize (Hnid id Hid); set_solver by lia).
  assert (Hfile : ∀ id es, with_entries new L E !! id = Some es → ∃ f, with_file new fs !! id = Some f ∧ file_holds es f).
  { intros id es. destruct new as [[id' [f s]]|]; simpl; [|apply Hf]. destruct (decide (id' = id)) as [->|Hne].
    - rewrite !lookup_insert_eq. intros [= <-]. exists f. by destruct Hnew.
    - rewrite !lookup_insert_ne by done. apply Hf. }
  split.
  - apply NoDup_app in Hn as (H1 & H2 & H3). apply NoDup_app in H3 as (H4 & H5 & H6). apply NoDup_app. split_and!; [done| |].
    + intros x Hx [Hin|Hin]%elem_of_app; [|by apply (H2 x Hx); set_solver]. destruct (fst <$> new) as [id|] eqn:En; [|set_solver].
      apply list_elem_of_singleton in Hin as ->. specialize (Hold id). specialize (Hnid id eq_refl). set_solver by lia.
    + apply NoDup_app. split_and!; [destruct (fst <$> new); [apply NoDup_singleton|constructor]| |done].
      intros x Hin Hx. destruct (fst <$> new) as [id|] eqn:En; [|set_solver]. apply list_elem_of_singleton in Hin as ->.
      specialize (Hold id). specialize (Hnid id eq_refl). set_solver by lia.
  - intros id. split.
    + intros [es [HE HnTid]%map_lookup_filter_Some]. destruct (proj1 (Hdom id) ltac:(by eexists)) as [Hin|Hid]; [set_solver|].
      rewrite Hid. set_solver.
    + intros Hin. assert (HnTid : id ∉ T).
      { apply NoDup_app in Hn as (_ & H2 & H3). apply NoDup_app in H3 as (_ & H5 & _). intros HT.
        apply elem_of_app in Hin as [Hin|[Hin|Hin]%elem_of_app]; [by apply (H2 id Hin); set_solver| |by apply (H5 id HT)].
        destruct (fst <$> new) as [id'|] eqn:En; [|set_solver]. apply list_elem_of_singleton in Hin as ->. by apply (HnT id'). }
      destruct (proj2 (Hdom id)) as [es HE]; [|exists es; by apply map_lookup_filter_Some].
      destruct (fst <$> new) as [id'|] eqn:En; [|set_solver]. simpl in Hin.
      apply elem_of_app in Hin as [Hin|[->|Hin]%elem_of_cons]; [set_solver|by right|set_solver].
  - intros id es [HE HnTid]%map_lookup_filter_Some. destruct (Htb id es HE) as (s & Hs & Hh). exists (body s). split; [|done].
    apply map_lookup_filter_Some. split; [|done]. rewrite Hs. pose proof (Hfl id s Hs) as Hob. rewrite bool_decide_eq_false_2 in Hob by done.
    destruct s; simpl in *; congruence.
  - intros id [s [Hs HnTid]%map_lookup_filter_Some]. simpl in HnTid. destruct (Honly id ltac:(by eexists)) as [Hin|Hid]; [set_solver|].
    rewrite <-Hid. set_solver.
  - intros id es [HE HnTid]%map_lookup_filter_Some. destruct (Hfile id es HE) as (f & Hf' & Hh). exists f. split; [|done].
    by apply map_lookup_filter_Some.
  - intros id es [HE _]%map_lookup_filter_Some. destruct new as [[id' [f' s]]|]; simpl in *; [|by eapply Hids].
    destruct Hnew as [-> _]. apply lookup_insert_Some in HE as [[<- _]|[_ HE]]; [lia|]. destruct (Hids id es HE). lia.
Qed.

Lemma reclaim_ok (T : list Z) e :
  held e = [] → (∀ id s, tables e !! id = Some s → obsolete_ s = bool_decide (id ∈ T)) → (∀ id, id ∈ T → is_Some (tables e !! id)) →
  reclaim e = set_files (filter (λ p, p.1 ∉ T) (sst (disk e))) (memwal (disk e))
    (set_tables (filter (λ p, p.1 ∉ T) (tables e)) (held e) e).
Proof.
  intros Hh Hfl HT. assert (Hdead : ∀ id, dead e id = false ↔ id ∉ T).
  { intros id. unfold dead. destruct (tables e !! id) as [s|] eqn:Es.
    - rewrite (Hfl id s Es), Hh. rewrite (bool_decide_eq_false_2 (id ∈ [])) by (by intros ?%elem_of_nil).
      simpl. rewrite andb_true_r. apply bool_decide_eq_false.
    - split; [|done]. intros _ Hin. destruct (HT id Hin) as [s Hs]. congruence. }
  unfold reclaim. f_equal; [|f_equal]; apply map_filter_ext; intros id x _; apply Hdead.
Qed.

Lemma total_app ess ess' : total (ess ++ ess') = total ess + total ess'.
Proof. unfold total. rewrite sum_list_with_app. lia. Qed.

Lemma content_filtered E (T : list Z) new L id :
  id ∉ T → Some id ≠ fst <$> new → content (filter (λ p, p.1 ∉ T) (with_entries (A := DiskManager.file * table) new L E)) id = content E id.
Proof.
  intros HT Hid. unfold content. f_equal. destruct new as [[id' x]|]; simpl in *.
  - assert (id' ≠ id) by congruence. destruct (E !! id) as [es|] eqn:EE.
    + apply map_lookup_filter_Some. by rewrite lookup_insert_ne.
    + apply map_lookup_filter_None. left. by rewrite lookup_insert_ne.
  - destruct (E !! id) as [es|] eqn:EE; [by apply map_lookup_filter_Some|]. apply map_lookup_filter_None. by left.
Qed.

(** The contents of the tables, in order, before and after. *)
Lemma contents_compacted E above T below tb fs next new L :
  table_rep E (above ++ T ++ below) tb fs next → (∀ id, fst <$> new = Some id → id = next) →
  let E' := filter (λ p, p.1 ∉ T) (with_entries (A := DiskManager.file * table) new L E) in
  content E' <$> (above ++ option_list (fst <$> new) ++ below) =
  (content E <$> above) ++ match new with Some _ => [L] | None => [] end ++ (content E <$> below).
Proof.
  intros [Hn Hd _ _ _ Hids] Hnew E'. apply NoDup_app in Hn as (_ & H2 & H3). apply NoDup_app in H3 as (_ & H5 & _).
  assert (Hold : ∀ id, id ∈ above ++ T ++ below → Some id ≠ fst <$> new).
  { intros id Hin Hid. apply Hd in Hin as [es HE]. specialize (Hids id es HE). specialize (Hnew id (eq_sym Hid)). lia. }
  rewrite !fmap_app. f_equal; [|f_equal].
  - apply fmap_ext_in. intros id Hin. apply content_filtered; [|apply Hold; set_solver]. intros HT. apply (H2 id Hin). set_solver.
  - destruct new as [[id x]|]; [|done]. simpl. f_equal. unfold content, E'. simpl.
    assert (id ∉ T). { intros HT. apply (Hold id); [set_solver|done]. }
    rewrite (proj2 (map_lookup_filter_Some _ _ _ L)); [done|]. by rewrite lookup_insert_eq.
  - apply fmap_ext_in. intros id Hin. apply content_filtered; [|apply Hold; set_solver]. intros HT. by apply (H5 id HT).
Qed.

Lemma rep_flags E mem F W K e id s : rep E mem F W K e → tables e !! id = Some s → obsolete_ s = false.
Proof.
  intros H Hs. pose proof (rp_tables _ _ _ _ _ _ H) as Ht. pose proof (tr_only _ _ _ _ _ Ht id ltac:(by eexists)) as Hin.
  apply (tr_dom _ _ _ _ _ Ht) in Hin as [es HE]. destruct (tr_tables _ _ _ _ _ Ht id es HE) as (b & Hb & _). rewrite Hs in Hb. by injection Hb as ->.
Qed.

Lemma rep_id_new E mem F W K e : rep E mem F W K e → E !! next_sstable_id_ e = None.
Proof.
  intros H. destruct (E !! next_sstable_id_ e) as [es|] eqn:Ee; [|done]. destruct (tr_ids _ _ _ _ _ (rp_tables _ _ _ _ _ _ H) _ _ Ee). lia.
Qed.

Lemma rep_entry_ok E mem F W K e id es : rep E mem F W K e → E !! id = Some es → sorted es ∧ ∀ x, x ∈ es → entry_ok x.
Proof.
  intros H HE. destruct (tr_files _ _ _ _ _ (rp_tables _ _ _ _ _ _ H) _ _ HE) as (f & _ & _ & Hs & Hk & _). split; [done|]. apply Hk.
Qed.

Lemma reclaim_idle E mem F W K e : rep E mem F W K e → reclaim e = e.
Proof.
  intros H. rewrite (reclaim_ok []); [|apply H|simpl; intros id s Hs; by erewrite rep_flags|by intros id ?%elem_of_nil].
  assert (Hid : ∀ A (m : gmap Z A), filter (λ p, p.1 ∉ []) m = m) by (intros; apply map_filter_id; intros id x _; apply not_elem_of_nil).
  rewrite !Hid. by destruct e as [? ? ? ? ? ? ? ? ? ? ? ? ? ? ? ? []].
Qed.

Lemma compact_idle E mem F W K e :
  rep E mem F W K e → reclaim (set_flags (stop_ e) false (set_flags (stop_ e) true e)) = e.
Proof.
  intros H. rewrite <-(reclaim_idle _ _ _ _ _ _ H) at 4. f_equal. pose proof (rp_idle _ _ _ _ _ _ H).
  destruct e as [? ? ? ? ? ? ? ? ? ? ? ? ? ? ? ? []]. simpl in *. by subst.
Qed.

Lemma reads_flags e e' : reads_only e e' → ∀ id, obsolete_ <$> tables e' !! id = obsolete_ <$> tables e !! id.
Proof. intros [_ Hf] id. by rewrite <-!lookup_fmap, Hf. Qed.

(** The tables in [e'], marked in [T], after the new one was added to [e]. *)
Lemma marked_flags E mem F W K e e1 new T e' :
  rep E mem F W K e → (∀ id, obsolete_ <$> tables e1 !! id = obsolete_ <$> tables e !! id) →
  match new with Some (id, (f, s)) => obsolete_ s = false | None => True end →
  (∀ id, id ∈ T → id ∈ concat (tiers_ e)) →
  (∀ id, obsolete_ <$> tables e' !! id = obsolete_ <$> mark_obsolete T (tables (with_table new e1)) !! id) →
  (∀ id s, tables e' !! id = Some s → obsolete_ s = bool_decide (id ∈ T)) ∧
  (∀ id, is_Some (tables e' !! id) → id ∈ concat (tiers_ e) ∨ Some id = fst <$> new).
Proof.
  intros H Hr Hnew HT Hfl. pose proof (rp_tables _ _ _ _ _ _ H) as Ht.
  assert (Hw : ∀ id, obsolete_ <$> tables (with_table new e1) !! id =
    if decide (Some id = fst <$> new) then Some false else obsolete_ <$> tables e !! id).
  { intros id. destruct new as [[id' [f s]]|]; simpl; [|by apply Hr].
    case_decide as Hc.
    - injection Hc as ->. rewrite lookup_insert_eq. simpl. by rewrite Hnew.
    - rewrite lookup_insert_ne by congruence. by apply Hr. }
  assert (Hm : ∀ id, obsolete_ <$> tables e' !! id =
    (λ b, if decide (id ∈ T) then true else b) <$> (if decide (Some id = fst <$> new) then Some false else obsolete_ <$> tables e !! id)).
  { intros id. rewrite Hfl, lookup_mark_obsolete, <-Hw. destruct (tables (with_table new e1) !! id); [|done]. simpl. by case_decide. }
  split.
  - intros id s Hs. specialize (Hm id). rewrite Hs in Hm. simpl in Hm. destruct (decide (id ∈ T)) as [Hin|Hin].
    + rewrite bool_decide_eq_true_2 by done. destruct (if decide _ then _ else _) in Hm; naive_solver.
    + rewrite bool_decide_eq_false_2 by done. case_decide as Hc; [by injection Hm|].
      destruct (tables e !! id) as [s'|] eqn:Es; [|done]. injection Hm as ->. by eapply rep_flags.
  - intros id [s Hs]. specialize (Hm id). rewrite Hs in Hm. destruct (decide (Some id = fst <$> new)) as [Hc|Hc]; [by right|left].
    destruct (tables e !! id) as [s'|] eqn:Es; [|done]. apply (tr_only _ _ _ _ _ Ht). by eexists.
Qed.

(** The tiers and the merged entries of a compaction of [T]. *)
Lemma compact_view E mem pre T post new b k tb fs next :
  table_rep E (concat (pre ++ T :: post)) tb fs next → (∀ id, fst <$> new = Some id → id = next) →
  (b = true → concat post = []) →
  let L := keep b (merged (content E <$> T)) in
  (new = None → L = []) →
  let E' := filter (λ p, p.1 ∉ T) (with_entries (A := DiskManager.file * table) new L E) in
  let ess' := mem :: (content E' <$> concat (compacted (length pre) T (fst <$> new) (pre ++ T :: post))) in
  let ess := mem :: (content E <$> concat (pre ++ T :: post)) in
  view ess' k = view ess k ∧ total ess' ≤ total ess.
Proof.
  intros Ht Hnew Hb L HL E' ess' ess. rewrite concat_app in Ht. simpl in Ht.
  assert (Ess : ess = (mem :: (content E <$> concat pre)) ++ (content E <$> T) ++ (content E <$> concat post)).
  { unfold ess. rewrite concat_app. simpl. by rewrite !fmap_app. }
  assert (Ess' : ess' = (mem :: (content E <$> concat pre)) ++ match new with Some _ => [L] | None => [] end ++ (content E <$> concat post)).
  { unfold ess'. rewrite concat_compacted. unfold E'. by rewrite (contents_compacted E _ _ _ _ _ _ _ _ Ht Hnew). }
  assert (Hb' : b = true → content E <$> concat post = []) by (intros ->; by rewrite (Hb eq_refl)).
  rewrite Ess, Ess'. split.
  - destruct new as [x|]; simpl app.
    + apply (view_compacted (mem :: (content E <$> concat pre)) (content E <$> T)). done.
    + apply (view_dropped (mem :: (content E <$> concat pre)) (content E <$> T) _ b); [done|by apply HL].
  - rewrite !total_app. assert (total match new with Some _ => [L] | None => [] end ≤ total (content E <$> T)); [|lia].
    destruct new as [x|]; [|unfold total; simpl; lia]. unfold total. simpl.
    pose proof (length_keep b (merged (content E <$> T))). pose proof (length_merged (content E <$> T)). unfold L. lia.
Qed.

(** The state of a compaction before [to_compact] is destroyed. *)
Definition installed (pre : list (list Z)) T (new : option (Z * (DiskManager.file * table))) (d : DiskManager.t) (e1 : t) : t :=
  let e := with_table new e1 in
  set_manifest d (set_tables (mark_obsolete T (tables e)) (held e) (set_tiers (compacted (length pre) T (fst <$> new) (tiers_ e)) e)).

Lemma compact_end E mem F W K e e1 e4 pre T post new b d :
  let L := keep b (merged (content E <$> T)) in
  rep E mem F W K e → tiers_ e = pre ++ T :: post → room_below (tiers_ e) → 2 ≤ Z.of_nat (length T) → reads_only (set_flags (stop_ e) true e) e1 →
  (b = true → concat post = []) →
  match new with Some (id, (f, s)) => id = next_sstable_id_ e ∧ file_holds L f ∧ obsolete_ s = false | None => L = [] end →
  manifest_rep d (DiskManager.fd_ d) (id_after new (next_sstable_id_ e)) (compacted (length pre) T (fst <$> new) (tiers_ e)) →
  reads_only (installed pre T new d e1) e4 →
  (∀ id es, with_entries new L E !! id = Some es → open_table e4 id es ∅) →
  let e' := reclaim (set_flags (stop_ e4) false e4) in
  let E' := filter (λ p, p.1 ∉ T) (with_entries new L E) in
  rep E' mem F W (K + 1) e' ∧ (fresh e → fresh e') ∧ rest e' = rest e ∧ ∀ k, view (stack E' mem e') k = view (stack E mem e) k.
Proof.
  intros L Hrep Hts Hroom HT Hr1 Hb Hnew Hman Hr4 Hopen. pose proof (rp_tables _ _ _ _ _ _ Hrep) as Ht.
  assert (HTin : ∀ id, id ∈ T → id ∈ concat (tiers_ e)) by (intros id Hin; rewrite Hts, concat_app; simpl; set_solver).
  pose proof (reads_flags _ _ Hr1) as Hf1. pose proof (reads_flags _ _ Hr4) as Hf4. simpl in Hf1.
  assert (Hnid : ∀ id, fst <$> new = Some id → id = next_sstable_id_ e).
  { destruct new as [[id' [f s]]|]; [|done]. intros id [= <-]. apply Hnew. }
  destruct (marked_flags E mem F W K e e1 new T e4 Hrep Hf1) as [Hfl Honly]; [|done| |].
  { destruct new as [[id [f s]]|]; [|done]. by destruct Hnew as (_ & _ & ?). }
  { intros id. rewrite Hf4. done. }
  assert (He1 : ∃ tb1, e1 = set_tables tb1 (held e) (set_flags (stop_ e) true e)) by (exists (tables e1); apply Hr1).
  assert (He4 : ∃ tb4, e4 = set_tables tb4 (held (installed pre T new d e1)) (installed pre T new d e1)) by (exists (tables e4); apply Hr4).
  destruct He4 as [tb4 ->]. destruct He1 as [tb1 ->]. clear Hr1 Hr4 Hf1 Hf4.
  rewrite (reclaim_ok T).
  2:{ destruct new as [[id [f s]]|]; apply (rp_held _ _ _ _ _ _ Hrep). }
  2:{ exact Hfl. }
  2:{ intros id Hin. apply HTin, (tr_dom _ _ _ _ _ Ht) in Hin as [es HE]. destruct (Hopen id es) as (s & Hs & _); [|by eexists].
      destruct new as [[id' x]|]; [|done]. simpl. rewrite lookup_insert_ne; [done|]. intros ->.
      specialize (Hnid id eq_refl) as ->. pose proof (rep_id_new _ _ _ _ _ _ Hrep). congruence. }
  intros e' E'. unfold open_table in Hopen. cbn [tables set_tables] in Hfl, Honly, Hopen.
  assert (Htb : tables e' = filter (λ p, p.1 ∉ T) tb4) by (by destruct new as [[? []]|]).
  assert (Hti : tiers_ e' = compacted (length pre) T (fst <$> new) (tiers_ e)) by (by destruct new as [[? []]|]).
  assert (Hss : sst (disk e') = filter (λ p, p.1 ∉ T) (with_file new (sst (disk e)))) by (by destruct new as [[? []]|]).
  assert (Hne : next_sstable_id_ e' = id_after new (next_sstable_id_ e)) by (by destruct new as [[? []]|]).
  assert (Hma : manifest_disk_manager_ e' = d ∧ manifest (disk e') = DiskManager.fd_ d) by (by destruct new as [[? []]|]).
  assert (Hhe : held e' = held e ∧ compaction_running_ e' = false) by (by destruct new as [[? []]|]).
  assert (Hre : rest e' = rest e) by (by destruct new as [[? []]|]). clearbody e'.
  assert (Hab : tiers_ e' = compacted (length pre) T (fst <$> new) (pre ++ T :: post)) by (by rewrite Hti, Hts).
  assert (Hv : ∀ k, view (stack E' mem e') k = view (stack E mem e) k ∧ total (stack E' mem e') ≤ total (stack E mem e)).
  { intros k. unfold stack. rewrite Hab, Hts. rewrite Hts in Ht. eapply compact_view; [exact Ht|done|done|]. intros ->. done. }
  split; [|split; [|split; [done|intros k; apply Hv]]].
  2:{ intros Hfr id. rewrite Hne, Hss. intros Hid. apply map_lookup_filter_None. left.
      destruct new as [[id' [f s]]|]; simpl in *; [|by apply Hfr]. specialize (Hnid id' eq_refl). rewrite lookup_insert_ne by lia. apply Hfr. lia. }
  destruct Hma as [Hm1 Hm2], Hhe as [Hh1 Hh2].
  split.
  - pose proof (rp_mem _ _ _ _ _ _ Hrep) as Hmem. unfold mem_rep, rest in *. injection Hre as _ _ _ _ _ _ -> -> -> _ _. done.
  - apply (rp_entries _ _ _ _ _ _ Hrep).
  - rewrite Hab, concat_compacted, Htb, Hss, Hne. rewrite Hts, concat_app in Ht. simpl in Ht. rewrite Hts, concat_app in Honly. simpl in Honly.
    eapply table_rep_compacted; [exact Ht|apply (rp_ids _ _ _ _ _ _ Hrep)| |exact Hopen|exact Hfl|exact Honly].
    destruct new as [[id [f s]]|]; [|done]. by destruct Hnew as (? & ? & _).
  - rewrite Hm1, Hm2, Hne, Hti. done.
  - rewrite Hh1. apply (rp_held _ _ _ _ _ _ Hrep).
  - done.
  - rewrite Hab. apply fits_compacted; [|by rewrite <-Hts|done]. rewrite <-Hts. apply (rp_fits _ _ _ _ _ _ Hrep).
  - apply (rp_flushes _ _ _ _ _ _ Hrep).
  - rewrite Hne. pose proof (rp_ids _ _ _ _ _ _ Hrep). destruct new as [[id x]|]; simpl; [|lia].
    specialize (Hnid id eq_refl). lia.
  - destruct (Hv 0) as [_ Hto]. pose proof (rp_total _ _ _ _ _ _ Hrep). unfold stack in Hto. lia.
Qed.

(** A compaction pass changes no answer. *)
Lemma Compact_ok E mem F W K e :
  sane behind ideal faults → rep E mem F W K e → fresh e → room_below (tiers_ e) → W < 2 ^ 31 → 2 ≤ tier_threshold_ e →
  ∃ r e' E', CompactOneTierIfNeeded behind ideal faults e = (Val r, e') ∧ rep E' mem F W (K + 1) e' ∧ fresh e' ∧ rest e' = rest e ∧
    ∀ k, view (stack E' mem e') k = view (stack E mem e) k.
Proof.
  intros Hsane Hrep Hfr Hroom HW Hth. unfold CompactOneTierIfNeeded. mstep. rewrite (rp_idle _ _ _ _ _ _ Hrep). unfold guarded.
  set (ef := set_flags (stop_ e) true e). pose proof (rp_tables _ _ _ _ _ _ Hrep) as Ht.
  unfold compact_begin. mstep. change (FindTierNeedingCompactionLocked ef) with (FindTierNeedingCompactionLocked e).
  unfold FindTierNeedingCompactionLocked. destruct (find_tier (tier_threshold_ e) (tiers_ e)) as [i|] eqn:Ei.
  2:{ mstep. exists false, e, E. simpl. fold ef. unfold ef. rewrite (compact_idle _ _ _ _ _ _ Hrep). split; [done|].
      split; [|done]. destruct Hrep. split; try done. lia. }
  destruct (find_tier_Some _ _ _ Ei) as (pre & T & post & Hts & <- & HT). mstep. cbn [ef tiers_ set_flags]. rewrite Hts, tier_at_middle.
  set (b := forallb _ _). assert (Hb : b = true → concat post = []).
  { unfold b. rewrite cons_middle, app_assoc, drop_app_length' by (rewrite length_app; simpl; lia). apply empty_tiers. }
  assert (HTin : ∀ id, id ∈ T → is_Some (E !! id)).
  { intros id Hin. apply (tr_dom _ _ _ _ _ Ht). rewrite Hts, concat_app. simpl. set_solver. }
  pose proof (Hfr _ (Z.le_refl _)) as Hfr1. pose proof (rep_id_new _ _ _ _ _ _ Hrep) as Hfr2.
  destruct (compact_merge_ok E ef T b Hsane) as (new & cs & e1 & ess & E1 & Hr1 & Hok & Hnew).
  { intros id es HE. split; [|by eapply rep_entry_ok]. apply (rep_open _ _ _ _ _ _ _ _ Hrep HE). }
  { pose proof (tr_nodup _ _ _ _ _ Ht) as Hn. rewrite Hts, concat_app in Hn. simpl in Hn.
    apply NoDup_app in Hn as (_ & _ & Hn). by apply NoDup_app in Hn as (? & _). }
  { done. } { done. } { done. }
  { pose proof (rp_total _ _ _ _ _ _ Hrep) as Hto. rewrite Hts, concat_app in Hto. simpl in Hto. rewrite !fmap_app in Hto.
    unfold total in *. simpl in Hto. rewrite !sum_list_with_app in Hto. lia. }
  mrun E1. set (L := keep b (merged (content E <$> T))) in *.
  assert (Hproj : tiers_ (with_table new e1) = tiers_ e ∧ manifest_disk_manager_ (with_table new e1) = manifest_disk_manager_ e ∧
    manifest (disk (with_table new e1)) = manifest (disk e) ∧ next_sstable_id_ (with_table new e1) = id_after new (next_sstable_id_ e)).
  { rewrite (ro_rest _ _ Hr1). by destruct new as [[? []]|]. }
  destruct Hproj as (Hp1 & Hp2 & Hp3 & Hp4).
  set (e2 := set_tables (mark_obsolete T (tables (with_table new e1))) (held (with_table new e1))
    (set_tiers (compacted (length pre) T (fst <$> new) (tiers_ (with_table new e1))) (with_table new e1))).
  destruct (manifest_Persist_ok e2 (next_sstable_id_ e) (tiers_ e) Hsane) as (d & E2 & Hd).
  { cbn [e2 manifest_disk_manager_ disk set_tables set_tiers]. rewrite Hp2, Hp3. apply (rp_manifest _ _ _ _ _ _ Hrep). }
  { cbn [e2 tiers_ set_tables set_tiers]. rewrite Hp1, Hts. rewrite Hts in Hroom. apply capacity_compacted; [|done].
    rewrite <-Hts. apply (rp_fits _ _ _ _ _ _ Hrep). }
  assert (E2' : compact_install behind (length pre) T (fst <$> new) (with_table new e1) = (Val tt, installed pre T new d e1)).
  { rewrite compact_install_eq. exact E2. }
  mrun E2'. assert (Hok' : cursors_ok (with_entries new L E) (installed pre T new d e1) (installed pre T new d e1) cs ess).
  { apply (cursors_rebase _ _ _ _ _ _ _ Hok); [done| |intros id es H1 H2; by rewrite H1 in H2]. intros id _. split; [done|].
    cbn [installed tables set_manifest set_tables]. rewrite lookup_mark_obsolete, <-option_fmap_compose.
    destruct (tables (with_table new e1) !! id); [|done]. simpl. by case_decide. }
  destruct (release_ok _ _ cs _ _ Hok') as (e4 & E4 & Hr4 & Hopen). mrun E4.
  eexists true, _, _. split; [done|].
  edestruct (compact_end E mem F W K e e1 e4 pre T post new b d) as (H1 & H2 & H3); [done|done|done|lia|done|done| | |done|done|].
  - destruct new as [[id [f s]]|]; [|done]. by destruct Hnew as (? & ? & ? & _).
  - cbn [e2 tiers_ next_sstable_id_ set_tables set_tiers] in Hd. by rewrite Hp1, Hp4 in Hd.
  - split; [exact H1|]. split; [by apply H2|exact H3].
Qed.
End engine.
End LsmTheory.
