(* ===== verification/LsmFlush.v ===== *)
(** * Theory of the LSM-tree engine: the memtable, its log and flushes *)

From stdpp Require Import gmultiset.
From S2P Require Import Prelude Entries Bytes Structs Disk Replacer Buffer BTreeReopen Engine Wal WalTheory SkipList SkipListTheory MemTable.
From S2P Require Import Bloom Merge MergeTheory SSTable SSTablePages SSTableFile SSTableTheory LsmEngine LsmCursors LsmTiers LsmTheory.

#[local] Opaque le_enc DiskManager.page_of DiskManager.write_file zeros LSMTreeEngine.manifest_page.

Module LsmFlush.
Import SSTablePages SSTableFile LSMTreeEngine LsmCursors LsmTiers LsmTheory LogTheory LogRecordTheory.

(** ** The log of the memtable *)

(** A log record applied to the entries of a memtable. *)
Definition apply_record (mem : entries) (r : LogRecord.t) : entries :=
  if LogRecord.op r =? LogOpType.PUT
  then match LogRecord.NewValue r with Val v => ins (LogRecord.key r) (LSM_Value v) mem | _ => mem end
  else if LogRecord.op r =? LogOpType.DELETE then ins (LogRecord.key r) LSM_Tombstone mem else mem.

Definition replay (rs : list LogRecord.t) (mem : entries) : entries := foldl apply_record mem rs.

(** The records of a memtable's log, each well formed. *)
Definition loggable (r : LogRecord.t) : Prop :=
  wf r ∧ (LogRecord.op r = LogOpType.DELETE ∨
    LogRecord.op r = LogOpType.PUT ∧ ∃ v, LogRecord.NewValue r = Val v ∧ ssize v ≤ MAX_VALUE_SIZE).

(** What a record adds to the size of the memtable. *)
Definition record_bytes (r : LogRecord.t) : Z :=
  8 + (if LogRecord.op r =? LogOpType.PUT then match LogRecord.NewValue r with Val v => ssize v | _ => 0 end else 0).
Definition log_bytes (rs : list LogRecord.t) : Z := foldr (λ r n, record_bytes r + n) 0 rs.

(** The log of generation [g] has the records [rs]; there are the files [old] of
    other generations. *)
Definition logs (g : Z) (old : gmap Z DiskManager.file) (rs : list LogRecord.t) (e : t) : Prop :=
  ∃ l, memtable_wal_ e = Some (g, l) ∧ log_rep rs l ∧
    memwal (disk e) = <[g := DiskManager.fd_ (LogManager.disk_manager_ l)]> old.

Definition mem_size (e : t) : Z :=
  match memtables e !! active_memtable_ e with Some m => MemTable.approximate_size_bytes_ m | None => 0 end.

(** The log has the writes since the last flush, [W] at most. *)
Definition wal_rep (mem : entries) (W : Z) (e : t) : Prop :=
  wal_enabled_ e = true →
  ∃ g rs, 0 ≤ g ∧ next_wal_generation_ e = g + 1 ∧ logs g ∅ rs e ∧ Forall loggable rs ∧ replay rs [] = mem ∧
    Z.of_nat (length rs) ≤ W ∧ log_bytes rs = mem_size e.

(** ** Moving the invariant between states *)

Definition table_side (e : t) :=
  (tiers_ e, tables e, sst (disk e), (manifest (disk e), manifest_disk_manager_ e), next_sstable_id_ e, held e, compaction_running_ e).

Definition settings (e : t) := (db_path_ e, flush_threshold_bytes_ e, tier_threshold_ e, wal_enabled_ e, stop_ e).

Section engine.
Context (behind : option Z → page_id_t → bytes) (ideal : Z → Z * Z).
Context (faults : Z → list (option DiskManager.fault)) (coins : nat → list bool).

Lemma rep_transport E mem F W K e mem' W' e' :
  rep ideal E mem F W K e → table_side e' = table_side e → mem_rep mem' e' → (∀ x, x ∈ mem' → entry_ok x) →
  total (mem' :: (content E <$> concat (tiers_ e))) ≤ W' → rep ideal E mem' F W' K e'.
Proof.
  intros [? ? ? ? ? ? ? ? ? ?] Hs Hm He Ht. unfold table_side in Hs. injection Hs as H1 H2 H3 H4 H5 H6 H7 H8.
  split; rewrite ?H1, ?H2, ?H3, ?H4, ?H5, ?H6, ?H7, ?H8; done.
Qed.

Lemma rep_mono E mem F W K K' e : rep ideal E mem F W K e → K ≤ K' → rep ideal E mem F W K' e.
Proof. intros [? ? ? ? ? ? ? ? ? ?] HK. split; try done. lia. Qed.

(** ** Reading a memtable out *)

Lemma memtable_entries_ok l fuel : ∀ it rest,
  SkipListTheory.points l it rest → (length rest ≤ fuel)%nat → memtable_entries l fuel it = Val rest.
Proof.
  induction fuel as [|fuel IH]; intros it [|[k v] rest] Hp Hf; cbn [memtable_entries]; rewrite (SkipListTheory.points_end _ _ _ Hp).
  all: try (simpl in Hf; lia). 1, 2: done.
  rewrite bool_decide_true by done. cbn [negb]. apply SkipListTheory.points_head in Hp as (-> & -> & it' & -> & Hp').
  cbn [mbind res_bind]. rewrite (IH it' rest Hp') by (simpl in Hf; lia). done.
Qed.

(** [flush_build] opens a table with the entries [es], from the file [f]. *)
Definition builds (m : MemTable.t) (es : entries) (f : DiskManager.file) (e : t) : Prop :=
  ∃ s, flush_build behind ideal faults m e =
      (Val (next_sstable_id_ e), with_table (Some (next_sstable_id_ e, (f, mkTable s false))) e) ∧
    file_holds ideal es f ∧ SSTableTheory.holds es ∅ s.

Lemma builds_from m mem es f e :
  MemTable.holds m mem →
  BuildTable behind ideal faults (next_sstable_id_ e) mem (set_next_id (next_sstable_id_ e + 1) e) =
    (Val tt, set_files (<[next_sstable_id_ e := f]> (sst (disk e))) (memwal (disk e)) (set_next_id (next_sstable_id_ e + 1) e)) →
  file_holds ideal es f → builds m es f e.
Proof.
  intros Hm E4 Hf. unfold builds, flush_build.
  destruct (SkipListTheory.list_Begin_ok _ _ (MemTable.hd_list _ _ Hm)) as (it & Eb & Hp).
  assert (E1 : lift (MemTable.Begin m) e = (Val it, e)) by (unfold lift, MemTable.Begin; by rewrite Eb). mrun E1.
  assert (E2 : lift (memtable_entries (MemTable.list_ m) (Z.to_nat (MemTable.EntryCount m)) it) e = (Val mem, e)).
  { unfold lift. rewrite (memtable_entries_ok _ _ it mem Hp); [done|]. rewrite (MemTable.EntryCount_ok _ _ Hm). lia. }
  mrun E2. set (id := next_sstable_id_ e).
  assert (E3 : fetch_id e = (Val id, set_next_id (id + 1) e)) by done. mrun E3.
  mrun E4. destruct (OpenTable_ok ideal faults id es (set_files (<[id := f]> (sst (disk e))) (memwal (disk e)) (set_next_id (id + 1) e)) f) as (s & E5 & Hs5);
    [by apply lookup_insert_eq|done|].
  exists s. mrun E5. done.
Qed.

Lemma flush_build_ok m mem e :
  sane behind ideal faults → MemTable.holds m mem → sst (disk e) !! next_sstable_id_ e = None →
  (∀ x, x ∈ mem → entry_ok x) → Z.of_nat (length mem) < 2 ^ 31 →
  ∃ f, builds m mem f e ∧ blen (DiskManager.f_data f) ≤ 2 ^ 52.
Proof.
  intros Hsane Hm Hfr He Hl. destruct (BuildTable_ok behind ideal faults (next_sstable_id_ e) mem (set_next_id (next_sstable_id_ e + 1) e) Hsane Hfr
    (MemTable.holds_sorted _ _ Hm) He Hl) as (f & E4 & Hf & Hsz). exists f. split; [|done]. by apply (builds_from m mem).
Qed.

(** Under an id whose file a crash left behind, the table is that of the file. *)
Lemma flush_build_over m mem es f e :
  sane behind ideal faults → MemTable.holds m mem → sst (disk e) !! next_sstable_id_ e = Some f →
  file_holds ideal es f → blen (DiskManager.f_data f) ≤ 2 ^ 52 →
  (∀ x, x ∈ mem → entry_ok x) → Z.of_nat (length mem) < 2 ^ 31 → ∃ f', builds m es f' e.
Proof.
  intros Hsane Hm Hf Hfh Hsz He Hl. destruct (BuildTable_over behind ideal faults (next_sstable_id_ e) es mem f (set_next_id (next_sstable_id_ e + 1) e) Hsane Hf Hfh Hsz He Hl)
    as (f' & E4 & Hf'). exists f'. by apply (builds_from m mem).
Qed.

(** ** Rotation *)

Definition mem_side (e : t) := (active_memtable_ e, memtables e, next_memtable e).
Definition wal_side (e : t) := (next_wal_generation_ e, memtable_wal_ e, memwal (disk e)).

Lemma mem_side_size e e' : mem_side e' = mem_side e → mem_size e' = mem_size e.
Proof. unfold mem_side, mem_size. intros [= H1 H2 _]. by rewrite H1, H2. Qed.

Lemma wal_open_file path f0 l f : LogManager.Open path f0 = (Val l, f) → f = DiskManager.fd_ (LogManager.disk_manager_ l).
Proof.
  unfold LogManager.Open. destruct (DiskManager.Open path f0) as [[d| | |] ?]; [|done..].
  destruct (LogManager.start _) as [[[]| | |] l']; [|done..]. by intros [= <- <-].
Qed.

Lemma mem_rep_new e : mem_rep [] (set_memtables (next_memtable e) (<[next_memtable e := MemTable.New (coins (next_memtable e))]> (memtables e))
    (S (next_memtable e)) e).
Proof. split; [simpl; lia|]. simpl. rewrite lookup_insert_eq. eexists. split; [done|]. apply MemTable.memtable_New_ok. Qed.

(** While a flush runs there are two logs: that of the memtable on its way to a
    table, and that of the new one, still empty. *)
Definition two_logs (mem : entries) (W n : Z) (fs : gmap Z DiskManager.file) : Prop :=
  ∃ g l l0 rs, 0 ≤ g ∧ fs = <[g + 1 := DiskManager.fd_ (LogManager.disk_manager_ l0)]> {[g := DiskManager.fd_ (LogManager.disk_manager_ l)]} ∧
    log_rep rs l ∧ log_rep [] l0 ∧ Forall loggable rs ∧ replay rs [] = mem ∧ Z.of_nat (length rs) ≤ W ∧ log_bytes rs = n.

Lemma flush_rotate_ok mem W e :
  mem_rep mem e → wal_rep mem W e →
  ∃ e1 gen m, flush_rotate coins e = (Val (active_memtable_ e, gen), e1) ∧ table_side e1 = table_side e ∧ settings e1 = settings e ∧
    memtables e1 !! active_memtable_ e = Some m ∧ MemTable.holds m mem ∧ mem_rep [] e1 ∧ mem_size e1 = 0 ∧
    ∀ e2, wal_side e2 = wal_side e1 → mem_side e2 = mem_side e1 → wal_enabled_ e2 = wal_enabled_ e →
      (∃ e3, flush_retire gen e2 = (Val tt, e3) ∧ table_side e3 = table_side e2 ∧ mem_side e3 = mem_side e2 ∧ settings e3 = settings e2 ∧
        wal_rep [] 0 e3) ∧
      (wal_enabled_ e = true → two_logs mem W (mem_size e) (memwal (disk e2))).
Proof.
  intros [Ha (m & Hm & Hh)] Hw. unfold flush_rotate, new_memtable. mstep.
  set (e0 := set_memtables _ _ _ e). pose proof (mem_rep_new e) as Hnew. fold e0 in Hnew.
  assert (Hold : memtables e0 !! active_memtable_ e = Some m) by (simpl; by rewrite lookup_insert_ne by lia).
  assert (Hsz : mem_size e0 = 0) by (unfold mem_size; simpl; by rewrite lookup_insert_eq).
  destruct (wal_enabled_ e) eqn:Ew.
  - destruct (Hw Ew) as (g & rs & Hg & Hgen & (l & Hl & Hlog & Hfs) & Hall & Hmem & Hlen & Hlb). mstep.
    destruct (Open_empty (MemWALPath (next_wal_generation_ e) e0)) as (l0 & f0 & El & Hl0). pose proof (wal_open_file _ _ _ _ El) as Hf0.
    set (e0' := set_wal (next_wal_generation_ e + 1) (memtable_wal_ e0) e0).
    assert (Eo : OpenWAL (next_wal_generation_ e) e0' =
      (Val l0, set_files (sst (disk e)) (<[next_wal_generation_ e := f0]> (memwal (disk e))) e0')).
    { unfold OpenWAL. simpl memwal. rewrite Hfs, lookup_insert_ne, lookup_empty by lia. simpl default.
      change (MemWALPath (next_wal_generation_ e) e0') with (MemWALPath (next_wal_generation_ e) e0). rewrite El. done. }
    mrun Eo. eexists _, _, m. split; [done|]. split_and!; [done|done|exact Hold|done|done|exact Hsz|].
    intros e2 Hs Hms He2. unfold wal_side in Hs. injection Hs as H1 H2 H3. split.
    2:{ intros _. exists g, l, l0, rs. split_and!; try done. rewrite H3. simpl. rewrite Hfs, Hf0, Hgen. done. }
    unfold flush_retire, RemoveWAL. eexists. split; [done|]. split_and!; [done|done|done|]. intros _. simpl in H1, H2, H3. simpl.
    exists (next_wal_generation_ e), []. split_and!; [lia|done| |constructor|done|done|].
    + exists l0. split_and!; [done|done|]. simpl. rewrite H3, Hfs, Hf0. replace (next_wal_generation_ e - 1) with g by lia.
      rewrite delete_insert_ne by lia. by rewrite delete_insert_id.
    + simpl. symmetry. rewrite (mem_side_size e0); [done|exact Hms].
  - mstep. exists e0, None, m. split; [done|]. split_and!; [done|done|done|done|done|done|].
    intros e2 _ _ He2. split; [|done]. exists e2. split_and!; try done. intros Ht. congruence.
Qed.

(** ** Flushes *)

Lemma table_rep_flushed E ids tb fs next mem f s :
  table_rep ideal E ids tb fs next → 0 ≤ next → file_holds ideal mem f → SSTableTheory.holds mem ∅ s →
  table_rep ideal (<[next := mem]> E) (next :: ids) (<[next := mkTable s false]> tb) (<[next := f]> fs) (next + 1).
Proof.
  intros [Hn Hd Ht Ho Hf Hids] Hnext Hfile Hs.
  assert (Hold : next ∉ ids) by (intros [es HE]%Hd; destruct (Hids _ _ HE); lia).
  split.
  - by apply NoDup_cons.
  - intros id. rewrite elem_of_cons, <-Hd. destruct (decide (next = id)) as [->|Hne].
    + rewrite lookup_insert_eq. split; [by left|by eexists].
    + rewrite lookup_insert_ne by done. naive_solver.
  - intros id es. destruct (decide (next = id)) as [->|Hne].
    + rewrite !lookup_insert_eq. intros [= <-]. by exists s.
    + rewrite !lookup_insert_ne by done. apply Ht.
  - intros id [x Hx]. apply elem_of_cons. apply lookup_insert_Some in Hx as [[-> _]|[_ Hx]]; [by left|right]. apply Ho. by eexists.
  - intros id es. destruct (decide (next = id)) as [->|Hne].
    + rewrite !lookup_insert_eq. intros [= <-]. by exists f.
    + rewrite !lookup_insert_ne by done. apply Hf.
  - intros id es [[-> _]|[_ HE]]%lookup_insert_Some; [lia|]. destruct (Hids _ _ HE). lia.
Qed.

Lemma contents_flushed E ids tb fs next mem :
  table_rep ideal E ids tb fs next → content (<[next := mem]> E) <$> next :: ids = mem :: (content E <$> ids).
Proof.
  intros [_ Hd _ _ _ Hids]. rewrite fmap_cons. unfold content at 1. rewrite lookup_insert_eq. simpl. f_equal. apply fmap_ext_in.
  intros id [es HE]%Hd. unfold content. rewrite lookup_insert_ne; [done|]. intros ->.
  destruct (Hids _ _ HE). lia.
Qed.

Lemma fresh_side e e' : table_side e' = table_side e → fresh e → fresh e'.
Proof. unfold table_side, fresh. by intros [= _ _ -> _ _ -> _ _]. Qed.

(** The state with the new table in tier 0 and in the manifest. *)
Lemma flush_install_ok E mem es F W K e e3 f s :
  sane behind ideal faults → rep ideal E mem F W K e → room (tiers_ e) = true → file_holds ideal es f → SSTableTheory.holds es ∅ s →
  total (es :: (content E <$> concat (tiers_ e))) ≤ W →
  let id := next_sstable_id_ e in
  table_side e3 = table_side (with_table (Some (id, (f, mkTable s false))) e) → mem_rep [] e3 →
  ∃ e4 b, flush_install behind id e3 = (Val b, e4) ∧ rep ideal (<[id := es]> E) [] (F + 1) W (K + 1) e4 ∧
    ((∀ id', id < id' → sst (disk e) !! id' = None) → fresh e4) ∧ room_below (tiers_ e4) ∧ mem_side e4 = mem_side e3 ∧ wal_side e4 = wal_side e3 ∧ settings e4 = settings e3 ∧
    ∀ k, view (stack (<[id := es]> E) [] e4) k = view (es :: (content E <$> concat (tiers_ e))) k.
Proof.
  intros Hsane Hrep HF Hf Hs Hto id Hside Hmem. unfold table_side in Hside. injection Hside as H1 H2 H3 H4 H5 H6 H7 H8.
  pose proof (rp_tables _ _ _ _ _ _ _ Hrep) as Ht. pose proof (rp_ids _ _ _ _ _ _ _ Hrep) as Hid. pose proof (rp_fits _ _ _ _ _ _ _ Hrep) as Hfit.
  pose proof (rp_flushes _ _ _ _ _ _ _ Hrep) as HF0. pose proof (contents_flushed _ _ _ _ _ es Ht) as Hcont. fold id in Hcont.
  unfold flush_install. mstep. fold (flushed id (tiers_ e3)). set (e3' := set_tiers (flushed id (tiers_ e3)) e3).
  destruct (fits_flushed F id (tiers_ e) Hfit HF HF0) as [Hfit' Hbelow].
  destruct (manifest_Persist_ok behind ideal faults e3' id (tiers_ e) Hsane) as (d & Ed & Hd).
  { cbn [e3' manifest_disk_manager_ disk set_tiers]. rewrite H4, H5. apply (rp_manifest _ _ _ _ _ _ _ Hrep). }
  { cbn [e3' tiers_ set_tiers]. rewrite H1. apply Hfit'. }
  mrun Ed. eexists _, _. split; [done|].
  assert (Htiers : concat (flushed id (tiers_ e)) = id :: concat (tiers_ e)) by apply (flushed_ok id (tiers_ e)).
  split; [|split_and!; [|cbn; by rewrite H1|done|done|done|]].
  2:{ intros Hfr id'. cbn. rewrite H3, H6. fold id. simpl. intros Hle. rewrite lookup_insert_ne by lia. apply Hfr. lia. }
  - split; cbn [tiers_ tables disk sst next_sstable_id_ manifest_disk_manager_ manifest held compaction_running_ set_manifest set_tiers e3'].
    + done.
    + by intros x ?%elem_of_nil.
    + rewrite H1, H2, H3, H6, Htiers. by apply table_rep_flushed; [|lia|..].
    + cbn [e3' tiers_ next_sstable_id_ set_tiers] in Hd. done.
    + rewrite H7. apply (rp_held _ _ _ _ _ _ _ Hrep).
    + rewrite H8. apply (rp_idle _ _ _ _ _ _ _ Hrep).
    + by rewrite H1.
    + lia.
    + rewrite H6. fold id. lia.
    + rewrite H1, Htiers, Hcont. unfold total in *. simpl in *. lia.
  - intros k. unfold stack. cbn [tiers_ set_manifest set_tiers e3']. rewrite H1, Htiers, Hcont. done.
Qed.

Lemma rest_sides e e' : rest e' = rest e → mem_side e' = mem_side e ∧ wal_side e' = wal_side e ∧ settings e' = settings e.
Proof. unfold rest. intros [= H1 H2 H3 H4 H5 H6 H7 H8 H9 H10 H11]. unfold mem_side, wal_side, settings. by rewrite H1, H2, H3, H4, H5, H6, H7, H8, H9, H10, H11. Qed.

Lemma mem_side_rep mem e e' : mem_side e' = mem_side e → mem_rep mem e → mem_rep mem e'.
Proof. unfold mem_side, mem_rep. intros [= H1 H2 H3]. by rewrite H1, H2, H3. Qed.

Lemma wal_side_rep mem W e e' :
  wal_side e' = wal_side e → mem_side e' = mem_side e → wal_enabled_ e' = wal_enabled_ e → wal_rep mem W e → wal_rep mem W e'.
Proof. intros Hw Hm He. unfold wal_side in Hw. injection Hw as H1 H2 H3. unfold wal_rep, logs. by rewrite H1, H2, H3, He, (mem_side_size _ _ Hm). Qed.

Lemma settings_wal e e' : settings e' = settings e → wal_enabled_ e' = wal_enabled_ e ∧ tier_threshold_ e' = tier_threshold_ e.
Proof. unfold settings. by intros [= _ _ H3 H4 _]. Qed.

(** A flush whose table has the entries [es]; the new memtable and its log are
    empty. *)
Lemma Flush_from E mem es F W K e :
  sane behind ideal faults → rep ideal E mem F W K e → wal_rep mem W e →
  (∀ m e1, MemTable.holds m mem → table_side e1 = table_side e → ∃ f, builds m es f e1) →
  total (es :: (content E <$> concat (tiers_ e))) ≤ W →
  (∀ id, next_sstable_id_ e < id → sst (disk e) !! id = None) → mem ≠ [] → room (tiers_ e) = true → W < 2 ^ 31 → 2 ≤ tier_threshold_ e →
  ∃ e' E', FlushActiveMemtable behind ideal faults coins e = (Val tt, e') ∧ rep ideal E' [] (F + 1) W (K + 2) e' ∧ wal_rep [] 0 e' ∧ fresh e' ∧
    mem_size e' = 0 ∧ settings e' = settings e ∧
    ∀ k, view (stack E' [] e') k = view (es :: (content E <$> concat (tiers_ e))) k.
Proof.
  intros Hsane Hrep Hwal Hbuild Hto Hfr Hne HF HW Hth. unfold FlushActiveMemtable.
  destruct (flush_rotate_ok mem W e (rp_mem _ _ _ _ _ _ _ Hrep) Hwal) as (e1 & gen & m & E1 & Hs1 & Hset1 & Hm & Hh & Hmem1 & Hsz1 & Hret).
  mrun E1. assert (E2 : lift (memtable_at (active_memtable_ e) e1) e1 = (Val m, e1)) by (unfold lift, memtable_at; by rewrite Hm). mrun E2.
  rewrite (MemTable.EntryCount_ok _ _ Hh), (proj2 (Z.eqb_neq _ _)) by (destruct mem; [done|simpl; lia]).
  assert (Hid1 : next_sstable_id_ e1 = next_sstable_id_ e ∧ sst (disk e1) = sst (disk e)) by (unfold table_side in Hs1; by injection Hs1 as _ _ -> _ _ -> _ _).
  destruct Hid1 as [Hid1 Hsst1].
  destruct (Hbuild m e1 Hh Hs1) as (f & s & E3 & Hf & Hs3). mrun E3. set (e2 := with_table _ e1). destruct (settings_wal _ _ Hset1) as [Hwe1 _].
  destruct (Hret e2) as [(e3 & E4 & Hs4 & Hm4 & Hset4 & Hw4) _]; [done|done|done|]. mrun E4. rewrite Hid1.
  destruct (flush_install_ok E mem es F W K e e3 f s Hsane Hrep HF Hf Hs3 Hto) as (e4 & b & E5 & Hrep4 & Hfr4 & Hbelow & Hm5 & Hw5 & Hset5 & Hv5).
  { rewrite Hs4. unfold e2. rewrite Hid1. unfold table_side in *. injection Hs1 as H1 H2 H3 H4 H5 H6 H7 H8. simpl.
    by rewrite H1, H2, H3, H4, H5, H7, H8. }
  { apply (mem_side_rep [] e1); [|done]. by rewrite Hm4. }
  mrun E5. destruct (settings_wal _ _ Hset4) as [Hwe4 Hth4]. destruct (settings_wal _ _ Hset5) as [Hwe5 Hth5].
  assert (Hw5' : wal_rep [] 0 e4) by (by apply (wal_side_rep [] 0 e3)).
  assert (Hsz5 : mem_size e4 = 0) by (rewrite (mem_side_size e1 e4), Hsz1; [done|]; by rewrite Hm5, Hm4).
  assert (Hset : settings e4 = settings e) by (rewrite Hset5, Hset4; exact Hset1).
  destruct b.
  - destruct (Compact_ok behind ideal faults _ _ _ _ _ e4 Hsane Hrep4) as (r & e5 & E' & E6 & Hrep6 & Hfr6 & Hre & Hv6); [by apply Hfr4|done|done| |].
    { destruct (settings_wal _ _ Hset) as [_ ->]. done. }
    apply rest_sides in Hre as (Hm6 & Hw6 & Hset6). mrun E6. exists e5, E'. split_and!; [done| | | | | |].
    + eapply rep_mono; [exact Hrep6|lia].
    + apply (wal_side_rep [] 0 e4); [done|done|apply (settings_wal _ _ Hset6)|done].
    + done.
    + by rewrite (mem_side_size e4).
    + by rewrite Hset6.
    + intros k. by rewrite Hv6.
  - exists e4, (<[next_sstable_id_ e := es]> E). split_and!; [done| |done|by apply Hfr4|done|done|done]. eapply rep_mono; [exact Hrep4|lia].
Qed.

(** A flush changes no answer. *)
Lemma Flush_ok E mem F W K e :
  sane behind ideal faults → rep ideal E mem F W K e → wal_rep mem W e → fresh e → mem ≠ [] → room (tiers_ e) = true → W < 2 ^ 31 →
  2 ≤ tier_threshold_ e →
  ∃ e' E', FlushActiveMemtable behind ideal faults coins e = (Val tt, e') ∧ rep ideal E' [] (F + 1) W (K + 2) e' ∧ wal_rep [] 0 e' ∧ fresh e' ∧
    mem_size e' = 0 ∧ settings e' = settings e ∧ ∀ k, view (stack E' [] e') k = view (stack E mem e) k.
Proof.
  intros Hsane Hrep Hwal Hfr Hne Hroom HW Hth. pose proof (rp_total _ _ _ _ _ _ _ Hrep) as Hto.
  apply (Flush_from E mem mem); [done|done|done| |done| |done|done|done|done].
  - intros m e1 Hh Hs1. unfold table_side in Hs1. injection Hs1 as _ _ H3 _ _ H6 _ _.
    destruct (flush_build_ok m mem e1) as (f & Hb & _); [done|done|rewrite H3, H6; by apply Hfr|apply (rp_entries _ _ _ _ _ _ _ Hrep)| |by eauto].
    unfold total in Hto. simpl in Hto. lia.
  - intros id Hid. apply Hfr. lia.
Qed.
End engine.
End LsmFlush.
