(* ===== verification/LsmOps.v ===== *)
(** * Theory of the LSM-tree engine: reads, writes and scans *)

From stdpp Require Import gmultiset.
From S2P Require Import Prelude Entries Bytes Structs Disk Replacer Buffer BTreeReopen Engine Wal WalTheory SkipList SkipListTheory MemTable.
From S2P Require Import Bloom Merge MergeTheory SSTable SSTablePages SSTableFile SSTableTheory LsmEngine LsmCursors LsmTiers LsmTheory LsmFlush.

#[local] Opaque le_enc DiskManager.page_of DiskManager.write_file zeros LSMTreeEngine.manifest_page.

Module LsmOps.
Import SSTablePages SSTableFile LSMTreeEngine LsmCursors LsmTiers LsmTheory LsmFlush LogTheory LogRecordTheory.

Section engine.
Context (behind : option Z → page_id_t → bytes) (ideal : Z → Z * Z).
Context (faults : Z → list (option DiskManager.fault)) (coins : nat → list bool).

(** ** States that differ by reads of tables *)

Lemma reads_sides e e' : reads_only e e' →
  tiers_ e' = tiers_ e ∧ mem_side e' = mem_side e ∧ wal_side e' = wal_side e ∧ settings e' = settings e.
Proof. intros [-> _]. done. Qed.

Lemma rep_reads E mem F W K e e' :
  rep ideal E mem F W K e → reads_only e e' → (∀ id es, E !! id = Some es → open_table e' id es ∅) → rep ideal E mem F W K e'.
Proof.
  intros Hrep Hr Hop. pose proof (reads_flags _ _ Hr) as Hfl. pose proof (rp_tables _ _ _ _ _ _ _ Hrep) as Ht.
  assert (Hsome : ∀ id, is_Some (tables e' !! id) → is_Some (tables e !! id)).
  { intros id. rewrite <-!(fmap_is_Some obsolete_), Hfl. done. }
  destruct (ro_rest _ _ Hr). destruct Hrep as [H1 H2 H3 H4 H5 H6 H7 H8 H9 H10].
  assert (E' : ∃ tb, e' = set_tables tb (held e) e) by (exists (tables e'); apply Hr). destruct E' as [tb ->].
  split; try done. destruct H3 as [T1 T2 T3 T4 T5 T6]. split; try done.
  - intros id es HE. destruct (Hop id es HE) as (s & Hs & Hh). exists (body s). split; [|done]. rewrite Hs.
    specialize (Hfl id). rewrite Hs in Hfl. destruct (T3 id es HE) as (b & Hb & _). rewrite Hb in Hfl. injection Hfl as Hfl.
    destruct s; simpl in *; congruence.
  - intros id Hid. by apply T4, Hsome.
Qed.

(** ** Lookups *)

Lemma get_tables_ok E k ids : ∀ e,
  (∀ id es, E !! id = Some es → open_table e id es ∅) → (∀ id, id ∈ ids → is_Some (E !! id)) →
  ∃ e', get_tables k ids e = (Val (view (content E <$> ids) k), e') ∧ reads_only e e' ∧
    ∀ id es, E !! id = Some es → open_table e' id es ∅.
Proof.
  induction ids as [|id ids IH]; intros e Hop Hids; cbn [get_tables].
  { exists e. split_and!; [done|apply reads_only_refl|done]. }
  destruct (Hids id ltac:(set_solver)) as [es HE]. destruct (Hop id es HE) as (s & Hs & Hh). mstep.
  assert (E1 : lift (table_at id e) e = (Val (body s), e)) by (unfold lift, table_at; by rewrite Hs). mrun E1.
  pose proof Hh as [Hm _]. destruct (SSTableTheory.MightContain_ok es (body s) k Hm) as (b & Eb & Hno & _).
  assert (E2 : lift (SSTable.MightContain k (body s)) e = (Val b, e)) by (unfold lift; by rewrite Eb). mrun E2.
  rewrite fmap_cons. unfold view. cbn [first_look]. unfold content at 1. rewrite HE. simpl default. fold (view (content E <$> ids) k).
  destruct b; cbn [negb].
  2:{ rewrite (Hno eq_refl). apply IH; [done|set_solver]. }
  destruct (SSTableTheory.table_Get_ok es ∅ (body s) k Hh ltac:(done)) as (b' & Eg & Hb').
  destruct (on_table_ok e id s _ _ _ Hs Eg) as (e1 & E3 & Hr1 & Hid1 & Hne1). mrun E3.
  assert (Hop1 : ∀ id' es', E !! id' = Some es' → open_table e1 id' es' ∅).
  { intros id' es' HE'. destruct (decide (id' = id)) as [->|Hne].
    - rewrite HE in HE'. injection HE' as <-. eexists. split; [exact Hid1|done].
    - destruct (Hop id' es' HE') as (s' & Hs' & Hh'). exists s'. by rewrite Hne1. }
  destruct (look k es) as [v|]; [by exists e1|].
  destruct (IH e1 Hop1 ltac:(set_solver)) as (e2 & E4 & Hr2 & Hop2). exists e2. split_and!; [done|by eapply reads_only_trans|done].
Qed.

Lemma Get_open E mem e k :
  mem_rep mem e → (∀ id es, E !! id = Some es → open_table e id es ∅) → (∀ id, id ∈ concat (tiers_ e) → is_Some (E !! id)) →
  ∃ e', LSMTreeEngine.Get k e = (Val (view (stack E mem e) k), e') ∧ reads_only e e' ∧ ∀ id es, E !! id = Some es → open_table e' id es ∅.
Proof.
  intros [_ (m & Hm & Hh)] Hop Hids. unfold LSMTreeEngine.Get. mstep.
  assert (E1 : lift (memtable_at (active_memtable_ e) e) e = (Val m, e)) by (unfold lift, memtable_at; by rewrite Hm). mrun E1.
  assert (E2 : lift (MemTable.Get k m) e = (Val (look k mem), e)) by (unfold lift; by rewrite (MemTable.memtable_Get_ok _ _ _ Hh)). mrun E2.
  unfold stack, view. cbn [first_look]. destruct (look k mem) as [v|].
  { exists e. split_and!; [done|apply reads_only_refl|done]. }
  destruct (get_tables_ok E k (concat (tiers_ e)) e Hop Hids) as (e' & E3 & Hr & Hop'). by exists e'.
Qed.

Lemma Get_rep E mem F W K e k :
  rep ideal E mem F W K e →
  ∃ e', LSMTreeEngine.Get k e = (Val (view (stack E mem e) k), e') ∧ reads_only e e' ∧ rep ideal E mem F W K e'.
Proof.
  intros Hrep. destruct (Get_open E mem e k (rp_mem _ _ _ _ _ _ _ Hrep)) as (e' & E1 & Hr & Hop).
  { intros id es. by apply (rep_open _ _ _ _ _ _ _ _ _ Hrep). }
  { intros id. apply (tr_dom _ _ _ _ _ _ (rp_tables _ _ _ _ _ _ _ Hrep)). }
  exists e'. split_and!; [exact E1|done|]. by apply (rep_reads _ _ _ _ _ e).
Qed.

(** ** Logging *)

Lemma Sync_ok d : DiskManager.healthy d → DiskManager.Sync d = (Val tt, d).
Proof. destruct d as [[data fs] nm nx nr nw]. unfold DiskManager.healthy. simpl. intros ->. done. Qed.

Lemma wf_set_lsn n r : 0 ≤ n ≤ 2 ^ 50 → wf r → wf (LogRecord.set_lsn n r).
Proof. intros Hn [? ? ? ? ? ? ? ? ? ? ? ? ? ? ?]. split; try done. unfold is_i64, int64_min, int64_max. simpl. lia. Qed.

Lemma loggable_set_lsn n r : 0 ≤ n ≤ 2 ^ 50 → loggable r → loggable (LogRecord.set_lsn n r).
Proof. intros Hn [Hw Ho]. split; [by apply wf_set_lsn|done]. Qed.

Lemma replay_snoc rs r mem : replay (rs ++ [r]) mem = apply_record (replay rs mem) r.
Proof. unfold replay. by rewrite foldl_app. Qed.

Lemma append_ok g old rs e r :
  logs g old rs e → Z.of_nat (length rs) < 2 ^ 31 → wf r →
  ∃ n e', on_wal (LogManager.Append r) e = (Val n, e') ∧ table_side e' = table_side e ∧ mem_side e' = mem_side e ∧
    settings e' = settings e ∧ next_wal_generation_ e' = next_wal_generation_ e ∧
    logs g old (rs ++ [LogRecord.set_lsn (Z.of_nat (length rs)) r]) e'.
Proof.
  intros (l & Hl & Hlog & Hfs) HW Hr. destruct (Append_ok rs l r Hlog ltac:(lia) Hr) as (l' & Ea & Hlog').
  unfold on_wal. rewrite Hl, Ea. eexists _, _. split; [done|]. split_and!; [done|done|done|done|].
  exists l'. split_and!; [done|done|]. simpl. rewrite Hfs. apply insert_insert_eq.
Qed.

Lemma sync_ok g old rs e :
  logs g old rs e →
  ∃ e', on_wal LogManager.Flush e = (Val tt, e') ∧ table_side e' = table_side e ∧ mem_side e' = mem_side e ∧
    settings e' = settings e ∧ next_wal_generation_ e' = next_wal_generation_ e ∧ logs g old rs e'.
Proof.
  intros (l & Hl & Hlog & Hfs). unfold on_wal. rewrite Hl. unfold LogManager.Flush, LogManager.on_disk. rewrite Sync_ok by apply Hlog.
  eexists. split; [done|]. split_and!; [done|done|done|done|].
  assert (Hl' : LogManager.mk (LogManager.disk_manager_ l) (LogManager.next_lsn_ l) (LogManager.current_page_id_ l) (LogManager.current_page_buf_ l) = l)
    by (by destruct l). simpl. rewrite Hl'. exists l. split_and!; [done|done|]. simpl. rewrite Hfs. apply insert_insert_eq.
Qed.

Lemma log_bytes_app rs rs' : log_bytes (rs ++ rs') = log_bytes rs + log_bytes rs'.
Proof. unfold log_bytes. induction rs as [|x rs IH]; simpl in *; lia. Qed.

Lemma log_bytes_snoc rs r : log_bytes (rs ++ [r]) = log_bytes rs + record_bytes r.
Proof. rewrite log_bytes_app. unfold log_bytes. simpl. lia. Qed.

(** The log after [log_write], before the memtable has the write. *)
Definition wal_ahead (mem : entries) (W n : Z) (e : t) : Prop :=
  wal_enabled_ e = true →
  ∃ g rs, 0 ≤ g ∧ next_wal_generation_ e = g + 1 ∧ logs g ∅ rs e ∧ Forall loggable rs ∧ replay rs [] = mem ∧
    Z.of_nat (length rs) ≤ W ∧ log_bytes rs = mem_size e + n.

Lemma log_write_ok mem W e rec r :
  wal_rep mem W e → W < 2 ^ 31 → rec = Val r → loggable r →
  ∃ e', log_write rec e = (Val tt, e') ∧ table_side e' = table_side e ∧ mem_side e' = mem_side e ∧
    settings e' = settings e ∧ wal_ahead (apply_record mem r) (W + 1) (record_bytes r) e'.
Proof.
  intros Hw HW -> Hr. unfold log_write. mstep. destruct (wal_enabled_ e) eqn:Hen.
  2:{ exists e. split_and!; try done. intros ?. congruence. }
  assert (E0 : lift (Val r) e = (Val r, e)) by done. mrun E0. destruct (Hw Hen) as (g & rs & Hg & Hgen & Hlogs & Hall & Hmem & Hlen & Hsz).
  destruct (append_ok g ∅ rs e r Hlogs ltac:(lia) (proj1 Hr)) as (n & e1 & E1 & H1 & H2 & H3 & Hg1 & Hw1). mrun E1.
  destruct (sync_ok _ _ _ e1 Hw1) as (e2 & E2 & H4 & H5 & H6 & Hg2 & Hw2). exists e2.
  split_and!; [done|by rewrite H4|by rewrite H5|by rewrite H6|]. intros _. eexists g, _.
  split_and!; [done|by rewrite Hg2, Hg1|exact Hw2| | | |].
  - apply Forall_app. split; [done|]. constructor; [|constructor]. apply loggable_set_lsn; [lia|done].
  - rewrite replay_snoc, Hmem. done.
  - rewrite length_app. simpl. lia.
  - rewrite log_bytes_snoc, Hsz, (mem_side_size e e2) by (by rewrite H5). done.
Qed.

Lemma update_record_wf o k : is_i32 o → is_i64 k → wf (LogRecord.set_op o k (LogRecord.set_header (-1) LogRecordType.UPDATE (-1) LogRecord.init)).
Proof. intros Ho Hk. split; (done || by rewrite blen_zeros). Qed.

Lemma put_record_ok k v : is_i64 k → ssize v ≤ MAX_VALUE_SIZE →
  ∃ r, put_record k v = Val r ∧ loggable r ∧ record_bytes r = 8 + ssize v ∧ ∀ mem, apply_record mem r = ins k (LSM_Value v) mem.
Proof.
  intros Hk Hv. destruct (SetNewValue_ok v _ (update_record_wf LogOpType.PUT k ltac:(done) Hk) Hv) as (r & E & Hw & Ev & Er).
  exists r. split; [exact E|]. assert (Hop : LogRecord.op r = LogOpType.PUT) by (by rewrite Er).
  split; [split; [done|]; right; split; [done|]; by exists v|].
  split; [unfold record_bytes; by rewrite Hop, Ev|]. intros mem. unfold apply_record. rewrite Hop, Ev.
  change (LogOpType.PUT =? LogOpType.PUT) with true. cbn match. by rewrite Er.
Qed.

Lemma delete_record_ok k : is_i64 k →
  ∃ r, delete_record k = Val r ∧ loggable r ∧ record_bytes r = 8 ∧ ∀ mem, apply_record mem r = ins k LSM_Tombstone mem.
Proof.
  intros Hk. eexists. split; [done|]. split; [|done]. split; [|by left]. by apply update_record_wf.
Qed.

(** ** Writes *)

Definition write_size (v : option string) : Z := 8 + match v with Some v => ssize v | None => 0 end.
Definition write_value (v : option string) : LSMValue := match v with Some v => LSM_Value v | None => LSM_Tombstone end.

(** A write of the memtable, and the log record that goes with it. *)
Definition is_write (k : Z) (v : option string) (rec : res LogRecord.t) (f : MemTable.t → res MemTable.t) : Prop :=
  (∃ r, rec = Val r ∧ loggable r ∧ record_bytes r = write_size v ∧ ∀ mem, apply_record mem r = ins k (write_value v) mem) ∧
  (∀ m es, MemTable.holds m es → ∃ m', f m = Val m' ∧ MemTable.holds m' (ins k (write_value v) es) ∧
     MemTable.approximate_size_bytes_ m' = MemTable.approximate_size_bytes_ m + write_size v).

Lemma put_is_write k v : is_i64 k → ssize v ≤ MAX_VALUE_SIZE → is_write k (Some v) (put_record k v) (MemTable.Put k v).
Proof.
  intros Hk Hv. split; [by apply put_record_ok|]. intros m es Hm. destruct (MemTable.Put_ok m es k v Hm) as (m' & ? & ? & Hs).
  exists m'. split_and!; [done|done|]. unfold write_size. lia.
Qed.

Lemma delete_is_write k : is_i64 k → is_write k None (delete_record k) (MemTable.Delete k).
Proof.
  intros Hk. split; [by apply delete_record_ok|]. intros m es Hm. destruct (MemTable.Delete_ok m es k Hm) as (m' & ? & ? & Hs).
  exists m'. split_and!; [done|done|]. unfold write_size. lia.
Qed.

Lemma elem_of_ins_entry {V} k (v : V) es x : sorted es → x ∈ ins k v es → x = (k, v) ∨ x ∈ es.
Proof.
  intros Hs Hx. destruct x as [k' v']. apply look_elem in Hx; [|by apply sorted_ins]. rewrite look_ins in Hx by done.
  case_decide as Hk; [left; naive_solver|right]. by apply look_elem.
Qed.

Lemma write_locked_ok E mem F W K e k v rec f :
  is_write k v rec f → entry_ok (k, write_value v) → rep ideal E mem F W K e → wal_rep mem W e → W < 2 ^ 31 →
  ∃ e', write_locked rec f e = (Val (flush_threshold_bytes_ e <=? mem_size e'), e') ∧
    rep ideal E (ins k (write_value v) mem) F (W + 1) K e' ∧ wal_rep (ins k (write_value v) mem) (W + 1) e' ∧
    mem_size e' = mem_size e + write_size v ∧ settings e' = settings e ∧ table_side e' = table_side e.
Proof.
  intros [(r & Hr & Hlog & Hrb & Happ) Hf] Hok Hrep Hwal HW. unfold write_locked.
  destruct (log_write_ok mem W e rec r Hwal HW Hr Hlog) as (e1 & E1 & H1 & H2 & H3 & Hw1). mrun E1. rewrite Happ in Hw1.
  destruct (mem_side_rep mem e e1 H2 (rp_mem _ _ _ _ _ _ _ Hrep)) as [Ha (m & Hm & Hh)]. pose proof (MemTable.holds_sorted _ _ Hh) as Hs.
  destruct (Hf m mem Hh) as (m' & Em & Hh' & Hsz).
  set (e2 := set_memtables (active_memtable_ e1) (<[active_memtable_ e1 := m']> (memtables e1)) (next_memtable e1) e1).
  assert (E2 : on_memtable f e1 = (Val tt, e2)).
  { unfold on_memtable, memtable_at. rewrite Hm. cbn [mbind res_bind]. by rewrite Em. }
  mrun E2. assert (Hm2 : memtables e2 !! active_memtable_ e2 = Some m') by (simpl; by rewrite lookup_insert_eq).
  assert (E3 : lift (memtable_at (active_memtable_ e2) e2) e2 = (Val m', e2)) by (unfold lift, memtable_at; by rewrite Hm2). mrun E3.
  exists e2. assert (Hms : mem_size e2 = mem_size e + write_size v).
  { unfold mem_size at 1. rewrite Hm2, Hsz. f_equal. rewrite <-(mem_side_size e e1 H2). unfold mem_size. by rewrite Hm. }
  split_and!.
  - unfold mret, M_ret. f_equal. f_equal. unfold mem_size. rewrite Hm2. unfold settings in H3. injection H3 as _ H3 _ _ _. simpl. by rewrite H3.
  - eapply (rep_transport ideal E mem F W K e); [done|done| | |].
    + split; [done|]. by exists m'.
    + intros x [->|Hx]%elem_of_ins_entry; [done| |done]. by apply (rp_entries _ _ _ _ _ _ _ Hrep).
    + pose proof (rp_total _ _ _ _ _ _ _ Hrep) as Hto. unfold total in *. simpl in *. rewrite length_ins by done. destruct (look k mem); lia.
  - intros Hen. destruct (Hw1 Hen) as (g & rs & Hg & Hgen & Hlogs & Hall & Hrep1 & Hlen & Hlb). exists g, rs. split_and!; try done.
    rewrite Hlb, Hms, Hrb. by rewrite (mem_side_size e e1 H2).
  - done.
  - done.
  - exact H1.
Qed.

Lemma view_ins E mem tiers k v k' :
  sorted mem →
  view (ins k v mem :: (content E <$> tiers)) k' = if decide (k = k') then live v else view (mem :: (content E <$> tiers)) k'.
Proof. intros Hs. unfold view. cbn [first_look]. rewrite look_ins by done. by case_decide. Qed.

(** A write and the flush that may follow. *)
Lemma lsm_write_ok E mem F W K B e k v rec f :
  sane behind ideal faults → is_write k v rec f → entry_ok (k, write_value v) →
  rep ideal E mem F W K e → wal_rep mem W e → 2 ≤ tier_threshold_ e → 0 < flush_threshold_bytes_ e → W + 1 < 2 ^ 31 →
  F * flush_threshold_bytes_ e + mem_size e ≤ B → fresh e → room (tiers_ e) = true →
  ∃ e' E' mem' F', (need ← write_locked rec f; if need : bool then FlushActiveMemtable behind ideal faults coins else mret tt) e = (Val tt, e') ∧
    rep ideal E' mem' F' (W + 1) (K + 2) e' ∧ wal_rep mem' (W + 1) e' ∧ fresh e' ∧ settings e' = settings e ∧
    F' * flush_threshold_bytes_ e + mem_size e' ≤ B + write_size v ∧
    ∀ k', view (stack E' mem' e') k' = if decide (k = k') then live (write_value v) else view (stack E mem e) k'.
Proof.
  intros Hsane Hwr Hok Hrep Hwal Hth Hpos HW HB Hfr Hroom.
  destruct (write_locked_ok E mem F W K e k v rec f Hwr Hok Hrep Hwal ltac:(lia)) as (e1 & E1 & Hrep1 & Hwal1 & Hsz1 & Hset1 & Hside1). mrun E1.
  pose proof (fresh_side _ _ Hside1 Hfr) as Hfr1. assert (Hti1 : tiers_ e1 = tiers_ e) by (unfold table_side in Hside1; by injection Hside1).
  assert (Hso : sorted mem) by (destruct (rp_mem _ _ _ _ _ _ _ Hrep) as [_ (m & _ & Hh)]; by apply (MemTable.holds_sorted m)).
  assert (Hv1 : ∀ k', view (stack E (ins k (write_value v) mem) e1) k' = if decide (k = k') then live (write_value v) else view (stack E mem e) k').
  { intros k'. unfold stack. rewrite Hti1. by apply view_ins. }
  assert (Hset1' : flush_threshold_bytes_ e1 = flush_threshold_bytes_ e ∧ tier_threshold_ e1 = tier_threshold_ e) by (unfold settings in Hset1; by injection Hset1 as _ -> -> _ _).
  destruct Hset1' as [Hthr Htier]. pose proof (rp_flushes _ _ _ _ _ _ _ Hrep).
  destruct (Z.leb_spec (flush_threshold_bytes_ e) (mem_size e1)) as [Hle|Hlt].
  - destruct (Flush_ok behind ideal faults coins E (ins k (write_value v) mem) F (W + 1) K e1 Hsane Hrep1 Hwal1 Hfr1) as (e2 & E' & E2 & Hrep2 & Hwal2 & Hfr2 & Hsz2 & Hset2 & Hv2).
    { intros Hn. assert (look k (ins k (write_value v) mem) = Some (write_value v)) as Hl by (rewrite look_ins, decide_True by done; done).
      by rewrite Hn in Hl. }
    { by rewrite Hti1. } { done. } { by rewrite Htier. }
    exists e2, E', [], (F + 1). split_and!; [done|done| |done| |nia|].
    + intros Hen. destruct (Hwal2 Hen) as (g & rs & ? & ? & ? & ? & ? & ? & ?). exists g, rs. split_and!; try done.
      pose proof (rp_total _ _ _ _ _ _ _ Hrep1) as Ht. unfold total in Ht. lia.
    + by rewrite Hset2.
    + intros k'. by rewrite Hv2.
  - exists e1, E, (ins k (write_value v) mem), F. split_and!; [done| |done|done|done|lia|done]. eapply rep_mono; [exact Hrep1|lia].
Qed.
End engine.
End LsmOps.
