(* ===== verification/LsmScan.v ===== *)
(** * Theory of the LSM-tree engine: scans *)

From stdpp Require Import gmultiset.
From S2P Require Import Prelude Entries Bytes Structs Disk Replacer Buffer BTreeReopen Engine Wal WalTheory SkipList SkipListTheory MemTable.
From S2P Require Import Bloom Merge MergeTheory SSTable SSTablePages SSTableFile SSTableTheory LsmEngine LsmCursors LsmTiers LsmTheory LsmFlush LsmOps.

#[local] Opaque le_enc DiskManager.page_of DiskManager.write_file zeros LSMTreeEngine.manifest_page.

Module LsmScan.
Import SSTablePages SSTableFile LSMTreeEngine LsmCursors LsmTiers LsmTheory LsmFlush LsmOps.

(** ** Entries from a key on *)

Lemma look_from_key {V} k k' (es : list (Z * V)) : sorted es → look k' (drop (lb k es) es) = if k <=? k' then look k' es else None.
Proof.
  intros Hs. destruct (sorted_split_lb k es Hs) as [Hlo Hhi]. destruct (Z.leb_spec k k').
  - rewrite <-(take_drop (lb k es) es) at 3. rewrite look_app_lt; [done|]. intros e He. specialize (Hlo e He). lia.
  - apply look_past. intros e He. specialize (Hhi e He). lia.
Qed.

Lemma look_from k k' (es : entries) : sorted es → look k' (from_key k es) = if k <=? k' then look k' es else None.
Proof. apply look_from_key. Qed.

Lemma live_entries_cons k v es :
  live_entries ((k, v) :: es) = match live v with Some x => (k, x) :: live_entries es | None => live_entries es end.
Proof. unfold live_entries. simpl. by destruct (live v). Qed.

Lemma sorted_live_entries es : sorted es → sorted (live_entries es).
Proof.
  induction es as [|[k v] es IH]; intros Hs; [constructor|]. apply sorted_cons_inv in Hs as [Hs Hk]. unfold live_entries. simpl.
  destruct (live v) as [x|]; simpl; [|by apply IH]. constructor; [by apply IH|]. apply Forall_fmap, Forall_forall.
  intros [k' x'] ([k2 v2] & Hin & Hx)%list_elem_of_omap. simpl in *. destruct (live v2); [|done]. injection Hx as -> ->. by apply (Hk (k', v2)).
Qed.

Lemma look_live_entries k es : sorted es → look k (live_entries es) = look k es ≫= live.
Proof.
  induction es as [|[k' v] es IH]; intros Hs; [done|]. apply sorted_cons_inv in Hs as [Hs Hk]. rewrite live_entries_cons. simpl.
  destruct (Z.eqb_spec k' k) as [->|Hne].
  - simpl. destruct (live v) as [x|] eqn:Ev; simpl; [by rewrite Z.eqb_refl|]. rewrite IH by done. by rewrite look_past.
  - destruct (live v) as [x|]; simpl; [rewrite (proj2 (Z.eqb_neq _ _)) by done|]; by apply IH.
Qed.

(** The tables that a scan leaves out have nothing for it. *)
Definition reaches (E : gmap Z entries) (k : Z) (id : Z) : bool := negb (SSTable.last_key (content E id) <? k).

Lemma first_look_reach E k k' ids :
  (∀ id, id ∈ ids → sorted (content E id)) →
  first_look k' (from_key k ∘ content E <$> filter (λ id, reaches E k id = true) ids) =
  if k <=? k' then first_look k' (content E <$> ids) else None.
Proof.
  induction ids as [|id ids IH]; intros Hs; [by destruct (k <=? k')|]. specialize (IH ltac:(set_solver)). specialize (Hs id ltac:(set_solver)).
  rewrite fmap_cons. cbn [first_look]. destruct (reaches E k id) eqn:Er.
  - rewrite filter_cons_True by done. rewrite fmap_cons. cbn [first_look]. change ((from_key k ∘ content E) id) with (from_key k (content E id)). rewrite look_from, IH by done.
    by destruct (k <=? k').
  - rewrite filter_cons_False by (by rewrite Er). rewrite IH. destruct (Z.leb_spec k k'); [|done].
    assert (Hn : look k' (content E id) = None); [|by rewrite Hn].
    destruct (look k' (content E id)) as [v|] eqn:El; [|done]. apply look_elem in El; [|done].
    apply SSTableTheory.first_last_bounds in El; [|done]. unfold reaches in Er. apply negb_false_iff, Z.ltb_lt in Er. simpl in El. lia.
Qed.

(** What the merge of a scan yields. *)
Lemma scan_entries E mem ids k m :
  sorted mem → (∀ id, id ∈ ids → sorted (content E id)) → sorted m → (∀ k', look k' m = view (mem :: (content E <$> ids)) k') →
  live_entries (merged (from_key k mem :: (from_key k ∘ content E <$> filter (λ id, reaches E k id = true) ids))) = drop (lb k m) m.
Proof.
  intros Hmem Hc Hm Hv. apply look_ext.
  - apply sorted_live_entries, sorted_merged.
  - rewrite fmap_drop. rewrite <-(take_drop (lb k m) (m.*1)) in Hm. by apply StronglySorted_app_1_r in Hm.
  - intros k'. rewrite look_live_entries by apply sorted_merged. rewrite look_merged, look_from_key, Hv by done. cbn [first_look].
    rewrite look_from, first_look_reach by done. unfold view. cbn [first_look]. by destruct (k <=? k').
Qed.

Section engine.
Context (ideal : Z → Z * Z).

Lemma scan_tables_ok E e k ids :
  (∀ id, id ∈ ids → is_Some (E !! id)) → (∀ id es, E !! id = Some es → open_table e id es ∅) →
  scan_tables k ids e = (Val (filter (λ id, reaches E k id = true) ids), e).
Proof.
  intros Hids Hop. induction ids as [|id ids IH]; [done|]. cbn [scan_tables]. destruct (Hids id ltac:(set_solver)) as [es HE].
  destruct (Hop id es HE) as (s & Hs & [Hm _]). mstep.
  assert (E1 : lift (table_at id e) e = (Val (body s), e)) by (unfold lift, table_at; by rewrite Hs). mrun E1.
  mrun (IH ltac:(set_solver)). rewrite (SSTableTheory.th_max _ _ Hm).
  assert (Hr : reaches E k id = negb (SSTable.last_key es <? k)) by (unfold reaches, content; by rewrite HE).
  destruct (SSTable.last_key es <? k); [rewrite filter_cons_False by (by rewrite Hr)|rewrite filter_cons_True by (by rewrite Hr)]; done.
Qed.

(** A scan in progress: [eb] is the engine at rest, [rest] is left to read. *)
Definition scanning (E : gmap Z entries) (eb : t) (ids : list Z) (e : t) (it : LSMScanIterator) (rest : list (Z * string)) : Prop :=
  ∃ es, merging E (set_tables (tables eb) ids eb) ids e (merge_ it) es ∧ live_entries es = rest ∧
    ∀ k v es', es = (k, v) :: es' → deleted v = false.

Lemma Scan_rep E mem F W K e k m :
  rep ideal E mem F W K e → sorted m → (∀ k', look k' m = view (stack E mem e) k') →
  ∃ it e' ids, LSMTreeEngine.Scan k e = (Val it, e') ∧ scanning E e ids e' it (drop (lb k m) m) ∧ NoDup ids.
Proof.
  intros Hrep Hm Hv. unfold LSMTreeEngine.Scan. mstep. destruct (rp_mem _ _ _ _ _ _ _ Hrep) as [_ (mt & Hmt & Hh)].
  pose proof (rp_tables _ _ _ _ _ _ _ Hrep) as Ht. pose proof (MemTable.holds_sorted _ _ Hh) as Hsm.
  assert (E1 : lift (memtable_at (active_memtable_ e) e) e = (Val mt, e)) by (unfold lift, memtable_at; by rewrite Hmt). mrun E1.
  destruct (SkipListTheory.LowerBound_ok _ _ k (MemTable.hd_list _ _ Hh)) as (it & El & Hp).
  assert (E2 : lift (MemTable.LowerBound k mt) e = (Val it, e)) by (unfold lift, MemTable.LowerBound; by rewrite El). mrun E2.
  assert (Hop : ∀ id es, E !! id = Some es → open_table e id es ∅) by (intros id es; by apply (rep_open _ _ _ _ _ _ _ _ _ Hrep)).
  assert (Hids : ∀ id, id ∈ concat (tiers_ e) → is_Some (E !! id)) by (intros id; apply (tr_dom _ _ _ _ _ _ Ht)).
  mrun (scan_tables_ok E e k _ Hids Hop). set (ids := filter (λ id, reaches E k id = true) (concat (tiers_ e))).
  assert (Hn : NoDup ids) by (apply NoDup_filter, (tr_nodup _ _ _ _ _ _ Ht)).
  rewrite (rp_held _ _ _ _ _ _ _ Hrep), app_nil_r. set (e0 := set_tables (tables e) ids e).
  destruct (open_cursors_ok E e0 k ids e0 [MemTableCursor (active_memtable_ e) it] [from_key k mem]) as (cs & e1 & E3 & Hcs & Hok).
  { split; [apply reads_only_refl|constructor| |].
    - constructor; [|constructor]. split; [by apply sorted_from_key|]. by exists mt.
    - intros id es HE _. by apply Hop. }
  { done. }
  { intros id Hin. split; [by intros ?%elem_of_nil|]. apply Hids. by apply list_elem_of_filter in Hin as [_ ?]. }
  mrun E3. simpl app in Hok. set (cursors := MemTableCursor (active_memtable_ e) it :: cs) in *.
  destruct (merge_new E e0 ids e1 cursors _ (conj Hok Hcs)) as (mi & e2 & E4 & Hmi). mrun E4.
  destruct (SkipTombstones_ok E e0 ids _ e2 mi _ Hmi (merging_fuel _ _ _ _ _ _ Hmi)) as (m3 & e3 & es3 & E5 & Hm3 & Hl3 & Hd3). mrun E5.
  eexists _, e3, ids. split; [done|]. split; [|done]. exists es3. split_and!; [done| |done].
  rewrite Hl3. apply scan_entries; [done| |done|done]. intros id Hin. destruct (Hids id Hin) as [es HE]. unfold content. rewrite HE.
  apply (rep_entry_ok _ _ _ _ _ _ _ _ _ Hrep HE).
Qed.

Lemma Next_rep E eb ids e it k v rest :
  scanning E eb ids e it ((k, v) :: rest) →
  LSMTreeEngine.IsValid it = true ∧ LSMTreeEngine.GetKey it e = (Val k, e) ∧ LSMTreeEngine.GetValue it e = (Val v, e) ∧
  ∃ it' e', LSMTreeEngine.Next it e = (Val it', e') ∧ scanning E eb ids e' it' rest.
Proof.
  intros (es & Hm & Hl & Hd). destruct es as [|[k' v'] es]; [done|]. specialize (Hd k' v' es eq_refl).
  rewrite live_entries_cons in Hl. unfold live in Hl. rewrite Hd in Hl. injection Hl as -> <- <-.
  unfold LSMTreeEngine.IsValid, LSMTreeEngine.GetKey, LSMTreeEngine.GetValue. rewrite (merge_valid _ _ _ _ _ _ Hm).
  destruct (merge_head _ _ _ _ _ _ _ _ Hm) as [-> ->]. split_and!; [done|done|done|]. unfold LSMTreeEngine.Next.
  destruct (merge_next _ _ _ _ _ _ _ Hm) as (m1 & e1 & E1 & H1). mrun E1.
  destruct (SkipTombstones_ok _ _ _ _ e1 m1 es H1 (merging_fuel _ _ _ _ _ _ H1)) as (m2 & e2 & es2 & E2 & H2 & Hl2 & Hd2). mrun E2.
  eexists _, e2. split; [done|]. by exists es2.
Qed.

Lemma scanning_end E eb ids e it : scanning E eb ids e it [] → LSMTreeEngine.IsValid it = false.
Proof.
  intros (es & Hm & Hl & Hd). unfold LSMTreeEngine.IsValid. rewrite (merge_valid _ _ _ _ _ _ Hm). destruct es as [|[k v] es]; [done|].
  specialize (Hd k v es eq_refl). rewrite live_entries_cons in Hl. unfold live in Hl. by rewrite Hd in Hl.
Qed.

Lemma remove_one_ne x l h : x ∉ l → foldr remove_one (x :: h) l = x :: foldr remove_one h l.
Proof.
  induction l as [|y l IH]; intros Hx; [done|]. cbn [foldr]. rewrite IH by set_solver. cbn [remove_one].
  by rewrite (proj2 (Z.eqb_neq y x)) by set_solver.
Qed.

Lemma remove_all l : NoDup l → foldr remove_one l l = [].
Proof.
  induction l as [|x l IH]; [done|]. intros [Hx Hn]%NoDup_cons. cbn [foldr]. rewrite remove_one_ne by done. cbn [remove_one].
  rewrite Z.eqb_refl. by apply IH.
Qed.

Lemma Destroy_rep E mem F W K eb ids e it rest :
  rep ideal E mem F W K eb → NoDup ids → scanning E eb ids e it rest →
  ∃ e', LSMTreeEngine.Destroy it e = (Val tt, e') ∧ reads_only eb e' ∧ rep ideal E mem F W K e'.
Proof.
  intros Hrep Hn (es & Hm & _). unfold LSMTreeEngine.Destroy. destruct (merging_cursors _ _ _ _ _ _ Hm) as (ess & Hok & Hids). rewrite Hids.
  destruct (release_ok _ _ _ _ _ Hok) as (e1 & E1 & Hr1 & Hop1). mrun E1.
  assert (He1 : ∃ tb, e1 = set_tables tb ids eb) by (exists (tables e1); rewrite (ro_rest _ _ Hr1) at 1; done). destruct He1 as [tb ->].
  set (e2 := set_tables tb [] (set_tables tb ids eb)).
  assert (Hr2 : reads_only eb e2).
  { pose proof (rp_held _ _ _ _ _ _ _ Hrep) as Hh. split; [by rewrite Hh|]. exact (ro_flags _ _ Hr1). }
  assert (Hrep2 : rep ideal E mem F W K e2) by (by apply (rep_reads _ _ _ _ _ _ eb)).
  exists e2. split; [|done]. unfold modify. cbn [held tables set_tables]. rewrite remove_all by done. fold e2. f_equal. by apply (reclaim_idle _ _ _ _ _ _ _ Hrep2).
Qed.
End engine.
End LsmScan.
