(* ===== verification/LsmReopen.v ===== *)
(** * Theory of the LSM-tree engine: opening, recovery and closing

    And what a crash inside a flush leaves on disk, and two flushes at once. *)

From stdpp Require Import gmultiset.
From S2P Require Import Prelude Entries Bytes Structs Disk Replacer Buffer BTreeReopen Engine Wal WalTheory SkipList SkipListTheory MemTable.
From S2P Require Import Bloom Merge MergeTheory SSTable SSTablePages SSTableFile SSTableTheory LsmEngine LsmCursors LsmTiers LsmTheory LsmFlush LsmOps.

#[local] Opaque le_enc DiskManager.page_of DiskManager.write_file zeros LSMTreeEngine.manifest_page.

Module LsmReopen.
Import SSTablePages SSTableFile LSMTreeEngine LsmCursors LsmTiers LsmTheory LsmFlush LsmOps LogTheory LogRecordTheory.

Section engine.
Context (behind : option Z → page_id_t → bytes) (ideal : Z → Z * Z).
Context (faults : Z → list (option DiskManager.fault)) (coins : nat → list bool).

(** ** Loading the tables of the manifest *)

(** The tables [L] are open, and no others. *)
Definition loaded (E : gmap Z entries) (L : list Z) (e : t) : Prop :=
  (∀ id, id ∈ L → ∃ s, tables e !! id = Some (mkTable s false) ∧ SSTableTheory.holds (content E id) ∅ s) ∧
  (∀ id, is_Some (tables e !! id) → id ∈ L).

Definition on_file (E : gmap Z entries) (fs : gmap Z DiskManager.file) (id : Z) : Prop :=
  ∃ f, fs !! id = Some f ∧ file_holds ideal (content E id) f.

Lemma OpenTable_loaded E L e id :
  on_file E (sst (disk e)) id → loaded E L e →
  ∃ e', OpenTable faults id e = (Val tt, e') ∧ loaded E (L ++ [id]) e' ∧ e' = set_tables (tables e') (held e) e.
Proof.
  intros (f & Hf & Hfh) [H1 H2]. destruct (OpenTable_ok ideal faults id _ e f Hf Hfh) as (s & Eo & Hs).
  eexists. split; [exact Eo|]. split; [|done]. split; cbn [tables set_tables].
  - intros id' [Hin|Heq]%elem_of_snoc; [|subst id'].
    + destruct (decide (id' = id)) as [->|Hne]; [rewrite lookup_insert_eq; by exists s|]. rewrite lookup_insert_ne by done. by apply H1.
    + rewrite lookup_insert_eq. by exists s.
  - intros id' [x Hx]. apply lookup_insert_Some in Hx as [[-> _]|[_ Hx]]; [set_solver|]. apply elem_of_app. left. apply H2. by eexists.
Qed.

Lemma load_tier_ok E page i T : ∀ k j e L,
  (∀ j id, T !! j = Some id → page_tier_id page (Z.of_nat i) (Z.of_nat j) = id) → (length T ≤ 16)%nat → (j + k)%nat = length T →
  (∀ id, id ∈ T → on_file E (sst (disk e)) id) → loaded E L e → tiers_ e !! i = Some (take j T) →
  ∃ e', load_tier faults page i k (Z.of_nat j) e = (Val tt, e') ∧ loaded E (L ++ drop j T) e' ∧
    e' = set_tables (tables e') (held e) (set_tiers (<[i := T]> (tiers_ e)) e).
Proof.
  induction k as [|k IH]; intros j e L Hpage Hmax Hj Hf Hl Hi; cbn [load_tier].
  { exists e. rewrite drop_ge, app_nil_r by lia. split_and!; [done|done|]. rewrite take_ge in Hi by lia.
    rewrite list_insert_id by done. by destruct e. }
  destruct (lookup_lt_is_Some_2 T j) as [id Hid]; [lia|]. unfold kMaxSSTablesPerManifestTier.
  rewrite (proj2 (Z.leb_gt _ _)) by lia. rewrite (Hpage j id Hid).
  destruct (OpenTable_loaded E L e id) as (e1 & E1 & Hl1 & He1); [apply Hf; by eapply list_elem_of_lookup_2|done|]. mrun E1.
  set (e2 := set_tiers _ e1). assert (Ht1 : tiers_ e1 = tiers_ e ∧ disk e1 = disk e ∧ held e1 = held e) by (rewrite He1; done).
  destruct Ht1 as (Ht1 & Hd1 & Hh1).
  assert (Hta : alter (λ tier, tier ++ [id]) i (tiers_ e1) = <[i := take (S j) T]> (tiers_ e)).
  { rewrite Ht1. rewrite (take_S_r _ _ _ Hid). apply list_eq. intros n. destruct (decide (n = i)) as [->|Hne].
    - rewrite list_lookup_alter_eq, Hi. rewrite list_lookup_insert_eq; [done|]. by eapply lookup_lt_Some.
    - rewrite list_lookup_alter_ne, list_lookup_insert_ne by done. done. }
  replace (Z.of_nat j + 1) with (Z.of_nat (S j)) by lia.
  destruct (IH (S j) e2 (L ++ [id])) as (e3 & E3 & Hl3 & He3); [done|done|lia| |done| |].
  { cbn [e2 disk set_tiers]. by rewrite Hd1. }
  { cbn [e2 tiers_ set_tiers]. rewrite Hta. apply list_lookup_insert_eq. by eapply lookup_lt_Some. }
  exists e3. split; [exact E3|]. split.
  - by rewrite (drop_S _ _ _ Hid), cons_middle, app_assoc.
  - rewrite He3. unfold e2. cbn [tiers_ held set_tiers tables set_tables]. rewrite Hta, list_insert_insert_eq, Hh1. rewrite He1. done.
Qed.

Lemma load_tiers_ok E page ts : ∀ k i e L,
  (∀ i, (i < 8)%nat → page_tier_count page (Z.of_nat i) = Z.of_nat (length (tier_at ts i))) →
  (∀ i j id, (i < 8)%nat → tier_at ts i !! j = Some id → page_tier_id page (Z.of_nat i) (Z.of_nat j) = id) →
  (∀ T, T ∈ ts → (length T ≤ 16)%nat) → (i + k ≤ length ts)%nat → (i + k ≤ 8)%nat →
  (∀ id, id ∈ concat ts → on_file E (sst (disk e)) id) → loaded E (concat (take i ts)) e → L = concat (take (i + k) ts) →
  tiers_ e = take i ts ++ replicate k [] →
  ∃ e', load_tiers faults page k i e = (Val tt, e') ∧ loaded E L e' ∧
    e' = set_tables (tables e') (held e) (set_tiers (take (i + k) ts) e).
Proof.
  induction k as [|k IH]; intros i e L Hc Hid Hmax Hlen H8 Hf Hl -> Ht; cbn [load_tiers].
  { rewrite Nat.add_0_r, app_nil_r in *. exists e. split_and!; [done|done|]. rewrite <-Ht. by destruct e. }
  destruct (lookup_lt_is_Some_2 ts i) as [T HT]; [lia|]. assert (HTi : tier_at ts i = T) by (unfold tier_at; by rewrite HT).
  rewrite (Hc i) by lia. rewrite HTi, Nat2Z.id.
  destruct (load_tier_ok E page i T (length T) 0 e (concat (take i ts))) as (e1 & E1 & Hl1 & He1).
  { intros j id Hj. apply Hid; [lia|]. by rewrite HTi. }
  { apply Hmax. by eapply list_elem_of_lookup_2. } { done. }
  { intros id Hin. apply Hf. apply list_elem_of_In, in_concat. exists T. rewrite <-!list_elem_of_In. split; [by eapply list_elem_of_lookup_2|done]. }
  { done. } { rewrite Ht, lookup_app_r by (rewrite length_take; lia). rewrite length_take, Nat.min_l, Nat.sub_diag by lia. done. }
  mrun E1. assert (Hs1 : concat (take i ts) ++ drop 0 T = concat (take (S i) ts)).
  { rewrite (take_S_r _ _ _ HT), concat_app. simpl. by rewrite app_nil_r. }
  rewrite Hs1 in Hl1. assert (Hp1 : tiers_ e1 = take (S i) ts ++ replicate k [] ∧ disk e1 = disk e ∧ held e1 = held e).
  { rewrite He1. cbn [tiers_ disk held set_tables set_tiers]. split; [|done]. rewrite Ht, (take_S_r _ _ _ HT), <-app_assoc.
    rewrite insert_app_r_alt by (rewrite length_take; lia). by rewrite length_take, Nat.min_l, Nat.sub_diag by lia. }
  destruct Hp1 as (Ht1 & Hd1 & Hh1).
  destruct (IH (S i) e1 (concat (take (S i + k) ts)) Hc Hid Hmax ltac:(lia) ltac:(lia)) as (e2 & E2 & Hl2 & He2); [by rewrite Hd1|done|done|done|].
  exists e2. rewrite <-Nat.add_succ_comm. split_and!; [exact E2|done|]. rewrite He2. rewrite Hh1. rewrite He1. by destruct e.
Qed.

Lemma used_tiers_ok page ts k :
  (∀ i, (i < k)%nat → page_tier_count page (Z.of_nat i) = Z.of_nat (length (tier_at ts i))) →
  let n := used_tiers page k in
  (n ≤ k)%nat ∧ (n ≤ length ts)%nat ∧ ∀ i, (n ≤ i < k)%nat → tier_at ts i = [].
Proof.
  induction k as [|k IH]; intros Hc; cbn [used_tiers]; [split_and!; [lia|lia|intros; lia]|].
  rewrite (Hc k) by lia. destruct (Z.ltb_spec 0 (Z.of_nat (length (tier_at ts k)))) as [Hlt|Hge]; simpl.
  - split_and!; [lia| |intros; lia]. unfold tier_at in Hlt. destruct (ts !! k) eqn:Ek; [|simpl in Hlt; lia]. apply lookup_lt_Some in Ek. lia.
  - destruct IH as (H1 & H2 & H3); [intros i Hi; apply Hc; lia|]. split_and!; [lia|done|]. intros i Hi.
    destruct (decide (i = k)) as [->|]; [|apply H3; lia]. destruct (tier_at ts k); [done|simpl in Hge; lia].
Qed.

Lemma tier_at_take n ts i : (∀ i, (n ≤ i)%nat → tier_at ts i = []) → tier_at (take n ts) i = tier_at ts i.
Proof.
  intros H. unfold tier_at in *. destruct (decide (i < n)%nat) as [Hi|Hi]; [by rewrite lookup_take_lt|].
  rewrite H by lia. by rewrite lookup_take_ge by lia.
Qed.

Lemma tiers_beyond n ts : (∀ i, (n ≤ i)%nat → tier_at ts i = []) → concat (take n ts) = concat ts.
Proof.
  intros H. rewrite <-(take_drop n ts) at 2. rewrite concat_app. assert (Hd : concat (drop n ts) = []); [|by rewrite Hd, app_nil_r].
  assert (Ha : ∀ T, T ∈ drop n ts → T = []).
  { intros T (j & Hj)%list_elem_of_lookup. rewrite lookup_drop in Hj. specialize (H (n + j)%nat ltac:(lia)). unfold tier_at in H. by rewrite Hj in H. }
  induction (drop n ts) as [|T l IH]; [done|]. simpl. rewrite (Ha T) by set_solver. apply IH. set_solver.
Qed.

#[local] Transparent LSMTreeEngine.manifest_page.
Lemma manifest_page_ext next ts ts' : (∀ i, tier_at ts i = tier_at ts' i) → manifest_page next ts = manifest_page next ts'.
Proof.
  intros H. unfold manifest_page. f_equal. f_equal; f_equal; apply list_fmap_ext; intros j i _; by rewrite H.
Qed.
#[local] Opaque LSMTreeEngine.manifest_page.

Lemma fits_take F n ts : fits F ts → fits F (take n ts).
Proof.
  intros ([Hc1 Hc2] & Hw & Hl). split_and!.
  - split; [rewrite length_take; lia|]. intros T HT. apply Hc2. rewrite <-(take_drop n ts). apply elem_of_app. by left.
  - rewrite <-(take_drop n ts), weight_app in Hw. pose proof (weight_nonneg (drop n ts)).
    assert (0 < 2 ^ Z.of_nat (length (take n ts))) by (apply Z.pow_pos_nonneg; lia). nia.
  - etransitivity; [|exact Hl]. apply Z.pow_le_mono_r; [lia|]. rewrite length_take. lia.
Qed.

(** The engine before [LoadManifestOrInitialize]. *)
Definition blank (db : string) (thr tier : Z) (w : bool) (d : DiskManager.t) (fs : files) : t :=
  mk db thr tier d 0 w 0 None 0 [] false false ∅ 0 ∅ [] fs.

(** What is read from the page of the manifest. *)
Lemma page_facts next ts c :
  capacity ts → (∀ id, id ∈ concat ts → 0 ≤ id < next) → 0 ≤ next < 2 ^ 62 →
  let page := manifest_page next ts ++ c in
  page_next page = next ∧
  (∀ i, (i < 8)%nat → page_tier_count page (Z.of_nat i) = Z.of_nat (length (tier_at ts i))) ∧
  (∀ i j id, (i < 8)%nat → tier_at ts i !! j = Some id → page_tier_id page (Z.of_nat i) (Z.of_nat j) = id).
Proof.
  intros [_ Hn16] Hids Hnext page. unfold kMaxSSTablesPerManifestTier in Hn16. split_and!.
  - apply manifest_next. unfold is_i64, int64_min, int64_max. lia.
  - intros i Hi. apply manifest_count; [done|]. unfold is_i32, tier_at. destruct (ts !! i) as [T|] eqn:ET; simpl; [|lia].
    specialize (Hn16 T ltac:(by eapply list_elem_of_lookup_2)). lia.
  - intros i j id Hi Hj. unfold tier_at in Hj. destruct (ts !! i) as [T|] eqn:ET; [|done]. simpl in Hj.
    assert (HT : T ∈ ts) by (by eapply list_elem_of_lookup_2). pose proof (lookup_lt_Some _ _ _ Hj). specialize (Hn16 T HT).
    apply manifest_id; [done|lia|unfold tier_at; by rewrite ET|]. assert (Hin : id ∈ concat ts).
    { apply list_elem_of_In, in_concat. exists T. rewrite <-!list_elem_of_In. split; [done|by eapply list_elem_of_lookup_2]. }
    specialize (Hids id Hin). unfold is_i64, int64_min, int64_max. lia.
Qed.

(** The table files, and the id of the next one. *)
Definition numbered (e : t) := (next_sstable_id_ e, sst (disk e)).

Lemma fresh_numbered e e' : numbered e' = numbered e → fresh e → fresh e'.
Proof. unfold numbered, fresh. by intros [= -> ->]. Qed.

Lemma numbered_side e e' : table_side e' = table_side e → numbered e' = numbered e.
Proof. unfold table_side, numbered. by intros [= _ _ -> _ _ -> _ _]. Qed.

Lemma manifest_load_ok E mem F W K e db thr tier w :
  rep ideal E mem F W K e → K < 2 ^ 62 →
  ∃ d e1, DiskManager.Open db (manifest (disk e)) = (Val d, manifest (disk e)) ∧
    (LoadManifestOrInitialize behind faults;; new_memtable coins) (blank db thr tier w d (disk e)) = (Val tt, e1) ∧
    rep ideal E [] F W K e1 ∧ numbered e1 = numbered e ∧ (room (tiers_ e) = true → room (tiers_ e1) = true) ∧ concat (tiers_ e1) = concat (tiers_ e) ∧ memwal (disk e1) = memwal (disk e) ∧ mem_size e1 = 0 ∧
    settings e1 = (db, thr, tier, w, false).
Proof.
  intros Hrep HK. destruct (rp_manifest _ _ _ _ _ _ _ Hrep) as [Hh Hfd Hsz (c & Hpage)]. set (f := manifest (disk e)) in *.
  pose proof (rp_tables _ _ _ _ _ _ _ Hrep) as Ht. pose proof (rp_ids _ _ _ _ _ _ _ Hrep) as Hnext. set (ts := tiers_ e) in *.
  pose proof (rp_fits _ _ _ _ _ _ _ Hrep) as Hfit. fold ts in Hfit.
  pose proof (proj1 Hfit) as Hcap. pose proof Hcap as [Hn8 Hn16]. unfold kMaxManifestTiers, kMaxSSTablesPerManifestTier in Hn8, Hn16.
  assert (Hff : DiskManager.f_faults f = []) by (rewrite <-Hfd; exact Hh). rewrite (Open_disk db f Hff). rewrite Hsz.
  change (pages_in PAGE_SIZE) with 1. set (d := DiskManager.mk f db 1 0 0).
  assert (Er : on_manifest (DiskManager.ReadPage 0) (blank db thr tier w d (disk e)) =
    (Val (manifest_page (next_sstable_id_ e) ts ++ c), blank db thr tier w (DiskManager.count_read d) (disk e))).
  { unfold on_manifest. cbn [blank manifest_disk_manager_]. rewrite DiskManager.ReadPage_ok; [|done|split; by vm_compute].
    unfold DiskManager.contents. cbn [d DiskManager.fd_]. rewrite Hpage. unfold set_manifest. simpl. unfold blank. f_equal. f_equal.
    by destruct (disk e). }
  assert (Hidb : ∀ id, id ∈ concat ts → 0 ≤ id < next_sstable_id_ e).
  { intros id [es HE]%(tr_dom _ _ _ _ _ _ Ht). by apply (tr_ids _ _ _ _ _ _ Ht id es). }
  destruct (page_facts (next_sstable_id_ e) ts c Hcap Hidb ltac:(lia)) as (Hpn & Hcount & Hpid).
  set (page := manifest_page (next_sstable_id_ e) ts ++ c) in *.
  destruct (used_tiers_ok page ts 8 Hcount) as (Hu8 & Hulen & Hbeyond). set (n := used_tiers page 8) in *.
  assert (Hbeyond' : ∀ i, (n ≤ i)%nat → tier_at ts i = []).
  { intros i Hi. destruct (decide (i < 8)%nat); [apply Hbeyond; lia|]. unfold tier_at. by rewrite lookup_ge_None_2 by lia. }
  set (eb := set_tiers (replicate n []) (set_next_id (next_sstable_id_ e) (blank db thr tier w (DiskManager.count_read d) (disk e)))).
  destruct (load_tiers_ok E page ts n 0 eb (concat (take n ts)) Hcount Hpid) as (e1 & E1 & Hl1 & He1); [| |done| | |done|done|].
  { intros T HT. specialize (Hn16 T HT). lia. } { lia. }
  { intros id Hin. apply (tr_dom _ _ _ _ _ _ Ht) in Hin as [es HE]. unfold on_file, content. rewrite HE. apply (tr_files _ _ _ _ _ _ Ht id es HE). }
  { split; [by intros id ?%elem_of_nil|]. simpl. intros id [x Hx]. by rewrite lookup_empty in Hx. }
  rewrite (tiers_beyond n ts Hbeyond') in Hl1. simpl plus in He1.
  set (e2 := set_memtables (next_memtable e1) (<[next_memtable e1 := MemTable.New (coins (next_memtable e1))]> (memtables e1)) (S (next_memtable e1)) e1).
  exists d, e2. split; [done|].
  assert (Hside : tiers_ e1 = take n ts ∧ next_sstable_id_ e1 = next_sstable_id_ e ∧ disk e1 = disk e ∧ held e1 = [] ∧ compaction_running_ e1 = false ∧
    manifest_disk_manager_ e1 = DiskManager.count_read d ∧ settings e1 = (db, thr, tier, w, false)) by (rewrite He1; done).
  destruct Hside as (S1 & S2 & S3 & S4 & S5 & S6 & S7).
  split_and!.
  - unfold LoadManifestOrInitialize. mstep. cbn [blank manifest_disk_manager_]. change (DiskManager.GetNumPages d =? 0) with false. cbn match.
    mrun Er. rewrite Hpn. fold n. fold eb. mrun E1. done.
  - split; cbn [e2 tiers_ tables disk next_sstable_id_ manifest_disk_manager_ held compaction_running_ set_memtables]; rewrite ?S1, ?S2, ?S3, ?S4, ?S5, ?S6.
    + apply mem_rep_new.
    + by intros x ?%elem_of_nil.
    + rewrite (tiers_beyond n ts Hbeyond'). destruct Ht as [T1 T2 T3 T4 T5 T6], Hl1 as [L1 L2]. split; try done.
      intros id es HE. destruct (L1 id) as (s & Hs & Hhs); [apply T2; by eexists|]. exists s. split; [done|].
      unfold content in Hhs. by rewrite HE in Hhs.
    + split; [done|done|done|]. exists c. fold f. rewrite Hpage. f_equal. apply manifest_page_ext. intros i. by rewrite tier_at_take.
    + done.
    + done.
    + by apply fits_take.
    + apply (rp_flushes _ _ _ _ _ _ _ Hrep).
    + done.
    + rewrite (tiers_beyond n ts Hbeyond'). pose proof (rp_total _ _ _ _ _ _ _ Hrep) as Hto. unfold total in *. simpl in *. fold ts in Hto. lia.
  - unfold numbered. cbn [e2 next_sstable_id_ disk set_memtables]. by rewrite S2, S3.
  - cbn [e2 tiers_ set_memtables]. rewrite S1. apply room_take.
  - cbn [e2 tiers_ set_memtables]. rewrite S1. by apply tiers_beyond.
  - cbn [e2 disk set_memtables]. by rewrite S3.
  - unfold mem_size. cbn [e2 memtables active_memtable_ set_memtables]. by rewrite lookup_insert_eq.
  - rewrite <-S7. done.
Qed.

Definition no_files : files := mkFiles (DiskManager.File [] []) ∅ ∅.

Lemma init_ok db thr tier w :
  sane behind ideal faults →
  ∃ d e1, DiskManager.Open db (manifest no_files) = (Val d, manifest no_files) ∧
    (LoadManifestOrInitialize behind faults;; new_memtable coins) (blank db thr tier w d no_files) = (Val tt, e1) ∧
    rep ideal ∅ [] 0 0 0 e1 ∧ fresh e1 ∧ tiers_ e1 = [] ∧ memwal (disk e1) = ∅ ∧ mem_size e1 = 0 ∧ settings e1 = (db, thr, tier, w, false).
Proof.
  intros [Hb _ _]. set (d := DiskManager.mk (DiskManager.File [] []) db 0 0 0). set (d1 := DiskManager.mk (DiskManager.File [] []) db 1 0 0).
  pose proof (blen_manifest 0 []) as Hm. set (x := block (manifest_page 0 [] ++ behind None 0) 0 PAGE_SIZE). specialize (Hb None 0).
  assert (Hlen : PAGE_SIZE ≤ blen (manifest_page 0 [] ++ behind None 0)) by (rewrite blen_app, Hm; unfold PAGE_SIZE in *; lia).
  assert (Hx : blen x = PAGE_SIZE) by (apply blen_block; unfold PAGE_SIZE in *; lia).
  pose proof (WritePage_prefix 0 (manifest_page 0 [] ++ behind None 0) d1 eq_refl ltac:(split; by vm_compute) Hlen) as Ew.
  set (d2 := written 0 x d1). fold x in Ew. fold d2 in Ew.
  set (eb := set_next_id 0 (set_manifest d2 (set_manifest d1 (blank db thr tier w d no_files)))).
  set (e2 := set_memtables (next_memtable eb) (<[next_memtable eb := MemTable.New (coins (next_memtable eb))]> (memtables eb)) (S (next_memtable eb)) eb).
  exists d, e2. split; [done|].
  assert (E1 : on_manifest DiskManager.AllocatePage (blank db thr tier w d no_files) = (Val 0, set_manifest d1 (blank db thr tier w d no_files))) by done.
  assert (E2 : on_manifest (DiskManager.WritePage 0 (manifest_page 0 [] ++ behind None 0)) (set_manifest d1 (blank db thr tier w d no_files)) =
    (Val tt, set_manifest d2 (set_manifest d1 (blank db thr tier w d no_files)))) by (unfold on_manifest; simpl manifest_disk_manager_; by rewrite Ew).
  split_and!.
  - unfold LoadManifestOrInitialize. mstep. change (DiskManager.GetNumPages (manifest_disk_manager_ (blank db thr tier w d no_files)) =? 0) with true. cbn match.
    mrun E1. mrun E2. done.
  - split; cbn [e2 eb tiers_ tables disk next_sstable_id_ manifest_disk_manager_ held compaction_running_ set_memtables set_next_id set_manifest manifest].
    + apply mem_rep_new.
    + by intros y ?%elem_of_nil.
    + split; simpl; [constructor| | | | |].
      * intros id. rewrite lookup_empty. split; [by intros [? ?]|by intros ?%elem_of_nil].
      * intros id es. by rewrite lookup_empty.
      * intros id [? Hid]. by rewrite lookup_empty in Hid.
      * intros id es. by rewrite lookup_empty.
      * intros id es. by rewrite lookup_empty.
    + split; [done|done| |].
      * unfold d2, written. cbn [DiskManager.count_write DiskManager.set_fd DiskManager.fd_ DiskManager.f_data d1]. rewrite DiskManager.blen_write_file, Hx by lia.
        by vm_compute.
      * unfold d2, written. cbn [DiskManager.count_write DiskManager.set_fd DiskManager.fd_ DiskManager.f_data d1].
        rewrite DiskManager.page_of_write_eq by (done || lia). unfold x. rewrite block_prefix by (rewrite Hm; unfold PAGE_SIZE; lia). by eexists.
    + done.
    + done.
    + split; [split; [by vm_compute|by intros T ?%elem_of_nil]|split; by vm_compute].
    + done.
    + done.
    + done.
  - done.
  - done.
  - done.
  - unfold mem_size. cbn [e2 memtables active_memtable_ set_memtables]. by rewrite lookup_insert_eq.
  - done.
Qed.

(** ** Recovery from the log *)

Lemma replay_cons r rs mem : replay (r :: rs) mem = replay rs (apply_record mem r).
Proof. done. Qed.

(** A replayed record is a write of the memtable. *)
Lemma replay_memtable r m mem :
  loggable r → MemTable.holds m mem →
  ∃ m', (if LogRecord.op r =? LogOpType.PUT then v ← LogRecord.NewValue r; MemTable.Put (LogRecord.key r) v m
         else if LogRecord.op r =? LogOpType.DELETE then MemTable.Delete (LogRecord.key r) m else Val m) = Val m' ∧
    MemTable.holds m' (apply_record mem r) ∧
    MemTable.approximate_size_bytes_ m' = MemTable.approximate_size_bytes_ m + record_bytes r.
Proof.
  intros [_ Hop] Hm. unfold apply_record, record_bytes. destruct Hop as [Hop|(Hop & v & Hv & _)]; rewrite Hop.
  - change (LogOpType.DELETE =? LogOpType.PUT) with false. change (LogOpType.DELETE =? LogOpType.DELETE) with true. cbn match.
    destruct (MemTable.Delete_ok m mem (LogRecord.key r) Hm) as (m' & ? & ? & ?). exists m'. split_and!; [done|done|lia].
  - change (LogOpType.PUT =? LogOpType.PUT) with true. cbn match. rewrite Hv. cbn [mbind res_bind].
    destruct (MemTable.Put_ok m mem (LogRecord.key r) v Hm) as (m' & ? & ? & ?). exists m'. split_and!; [done|done|lia].
Qed.

Lemma replay_record_ok r e mem g old rs :
  loggable r → mem_rep mem e → logs g old rs e → Z.of_nat (length rs) < 2 ^ 31 →
  ∃ e', replay_record r e = (Val tt, e') ∧ mem_rep (apply_record mem r) e' ∧ mem_size e' = mem_size e + record_bytes r ∧
    logs g old (rs ++ [LogRecord.set_lsn (Z.of_nat (length rs)) r]) e' ∧ table_side e' = table_side e ∧ settings e' = settings e ∧
    next_wal_generation_ e' = next_wal_generation_ e.
Proof.
  intros Hr [Ha (m & Hm & Hh)] Hlogs Hlen. destruct (replay_memtable r m mem Hr Hh) as (m' & Em & Hh' & Hsz).
  set (e1 := set_memtables (active_memtable_ e) (<[active_memtable_ e := m']> (memtables e)) (next_memtable e) e).
  assert (E1 : (if LogRecord.op r =? LogOpType.PUT then
     v ← lift (LogRecord.NewValue r);
     on_memtable (MemTable.Put (LogRecord.key r) v)
   else if LogRecord.op r =? LogOpType.DELETE then on_memtable (MemTable.Delete (LogRecord.key r))
   else mret tt) e = (Val tt, e1)).
  { destruct Hr as [_ [Hop|(Hop & v & Hv & _)]]; rewrite Hop in *.
    - change (LogOpType.DELETE =? LogOpType.PUT) with false in *. change (LogOpType.DELETE =? LogOpType.DELETE) with true in *. cbn match in *.
      unfold on_memtable, memtable_at. rewrite Hm. cbn [mbind res_bind]. by rewrite Em.
    - change (LogOpType.PUT =? LogOpType.PUT) with true in *. cbn match in *. rewrite Hv in *. cbn [mbind res_bind] in Em.
      mrun (eq_refl : lift (Val v) e = (Val v, e)). unfold on_memtable, memtable_at. rewrite Hm. cbn [mbind res_bind]. by rewrite Em. }
  destruct (append_ok g old rs e1 r Hlogs Hlen (proj1 Hr)) as (n & e2 & E2 & H1 & H2 & H3 & H4 & Hlogs2).
  exists e2. unfold replay_record. mrun E1. mrun E2. split; [done|].
  assert (Hm1 : memtables e1 !! active_memtable_ e1 = Some m') by (simpl; by rewrite lookup_insert_eq). split_and!; [| |done|done|done|done].
  - apply (mem_side_rep _ e1 e2 H2). split; [done|]. by exists m'.
  - rewrite (mem_side_size e1 e2 H2). unfold mem_size. by rewrite Hm1, Hm, Hsz.
Qed.

Lemma replay_all_ok rs0 : ∀ e mem g old rs,
  Forall loggable rs0 → mem_rep mem e → logs g old rs e → Z.of_nat (length rs + length rs0) < 2 ^ 31 →
  ∃ e' rs', each replay_record rs0 e = (Val tt, e') ∧ mem_rep (replay rs0 mem) e' ∧ mem_size e' = mem_size e + log_bytes rs0 ∧
    logs g old (rs ++ rs') e' ∧ table_side e' = table_side e ∧ settings e' = settings e ∧ next_wal_generation_ e' = next_wal_generation_ e ∧
    Forall loggable rs' ∧ (∀ m, replay rs' m = replay rs0 m) ∧ log_bytes rs' = log_bytes rs0 ∧ length rs' = length rs0.
Proof.
  induction rs0 as [|r rs0 IH]; intros e mem g old rs Hall Hmem Hlogs Hlen; cbn [each].
  { exists e, []. rewrite app_nil_r. split_and!; try done. unfold log_bytes. simpl. lia. }
  apply Forall_cons in Hall as [Hr Hall]. simpl in Hlen.
  destruct (replay_record_ok r e mem g old rs Hr Hmem Hlogs ltac:(lia)) as (e1 & E1 & Hm1 & Hs1 & Hl1 & H1 & H2 & H3). mrun E1.
  destruct (IH e1 _ _ _ _ Hall Hm1 Hl1) as (e2 & rs' & E2 & Hm2 & Hs2 & Hl2 & H4 & H5 & H6 & Hall2 & Hrep2 & Hb2 & Hn2).
  { rewrite length_app. simpl. lia. }
  exists e2, (LogRecord.set_lsn (Z.of_nat (length rs)) r :: rs'). rewrite <-app_assoc in Hl2.
  split_and!; [done|done| |done|by rewrite H4|by rewrite H5|by rewrite H6| | | |simpl; lia].
  - rewrite Hs2, Hs1. unfold log_bytes. simpl. lia.
  - constructor; [|done]. apply loggable_set_lsn; [lia|done].
  - intros m'. rewrite !replay_cons. by rewrite <-Hrep2.
  - unfold log_bytes in *. simpl. rewrite Hb2. done.
Qed.

(** The log of a new generation. *)
Lemma OpenWAL_new g e :
  memwal (disk e) !! g = None →
  ∃ l, OpenWAL g e = (Val l, set_files (sst (disk e)) (<[g := DiskManager.fd_ (LogManager.disk_manager_ l)]> (memwal (disk e))) e) ∧ log_rep [] l.
Proof.
  intros Hg. destruct (Open_empty (MemWALPath g e)) as (l & f & El & Hl). pose proof (wal_open_file _ _ _ _ El) as ->.
  exists l. split; [|done]. unfold OpenWAL. rewrite Hg. simpl default. by rewrite El.
Qed.

(** The log of an old one. *)
Lemma OpenWAL_old g e rs l :
  memwal (disk e) !! g = Some (DiskManager.fd_ (LogManager.disk_manager_ l)) → log_rep rs l →
  ∃ l' f, OpenWAL g e = (Val l', set_files (sst (disk e)) (<[g := f]> (memwal (disk e))) e) ∧ log_rep rs l'.
Proof.
  intros Hg Hl. destruct (log_Open_ok rs l (MemWALPath g e) Hl) as (l' & f & El & Hl'). exists l', f. split; [|done].
  unfold OpenWAL. rewrite Hg. simpl default. by rewrite El.
Qed.

(** The logs on disk, oldest first, with the records of each. *)
Definition log_files (gs : list (Z * list LogRecord.t)) (fs : gmap Z DiskManager.file) : Prop :=
  ∀ g rs, (g, rs) ∈ gs → ∃ l, fs !! g = Some (DiskManager.fd_ (LogManager.disk_manager_ l)) ∧ log_rep rs l.

Record logged (gs : list (Z * list LogRecord.t)) (fs : gmap Z DiskManager.file) : Prop := {
  lg_some : gs ≠ [];
  lg_sorted : StronglySorted Z.lt gs.*1;
  lg_ids : ∀ g, g ∈ gs.*1 → 0 ≤ g;
  lg_dom : dom fs = list_to_set gs.*1;
  lg_files : log_files gs fs;
  lg_records : Forall loggable (concat gs.*2);
}.

Lemma ascending_NoDup (l : list Z) : StronglySorted Z.lt l → NoDup l.
Proof. induction 1 as [|g l _ IH Hall]; constructor; [|done]. intros Hin. eapply Forall_forall in Hall; [|done]. lia. Qed.

Lemma replay_generations_ok gs : ∀ e mem g old rs,
  NoDup gs.*1 → log_files gs old → g ∉ gs.*1 → Forall loggable (concat gs.*2) → mem_rep mem e → logs g old rs e →
  Z.of_nat (length rs + length (concat gs.*2)) < 2 ^ 31 →
  ∃ e' old' rs', each replay_generation gs.*1 e = (Val tt, e') ∧ mem_rep (replay (concat gs.*2) mem) e' ∧
    mem_size e' = mem_size e + log_bytes (concat gs.*2) ∧ logs g old' (rs ++ rs') e' ∧ dom old' = dom old ∧
    table_side e' = table_side e ∧ settings e' = settings e ∧
    Forall loggable rs' ∧ (∀ m, replay rs' m = replay (concat gs.*2) m) ∧ log_bytes rs' = log_bytes (concat gs.*2) ∧
    length rs' = length (concat gs.*2).
Proof.
  induction gs as [|[g0 rs0] gs IH]; intros e mem g old rs Hnd Hf Hg Hall Hmem Hlogs Hlen.
  { exists e, old, []. rewrite app_nil_r. split_and!; try done. unfold log_bytes. simpl. lia. }
  cbn [fmap list_fmap fst snd concat each] in *. apply NoDup_cons in Hnd as [Hnew Hnd]. apply Forall_app in Hall as [Hall0 Hall].
  rewrite length_app in Hlen. destruct (Hf g0 rs0 ltac:(left)) as (l0 & Hl0 & Hlog0). destruct Hlogs as (l & Hl & Hlog & Hfs).
  destruct (OpenWAL_old g0 e rs0 l0) as (l1 & f1 & E1 & Hl1); [rewrite Hfs, lookup_insert_ne by set_solver; done|done|].
  set (e1 := set_files _ _ e) in E1.
  destruct (replay_all_ok rs0 e1 mem g (<[g0 := f1]> old) rs) as (e2 & rs1 & E2 & Hm2 & Hs2 & Hlogs2 & T2 & S2 & _ & Hall2 & Hrep2 & Hb2 & Hn2).
  { done. } { done. }
  { exists l. split_and!; [done|done|]. cbn [e1 disk set_files memwal]. rewrite Hfs. apply insert_insert_ne. set_solver. }
  { lia. }
  assert (Eg : replay_generation g0 e = (Val tt, e2)).
  { unfold replay_generation. mrun E1. destruct (ReadFrom_ok rs0 l1 0 Hl1 ltac:(lia)) as (l2 & Er & _). unfold LogManager.ReadAll. rewrite Er.
    by mrun (eq_refl : lift (Val (drop (Z.to_nat 0) rs0)) e1 = (Val rs0, e1)). }
  mrun Eg.
  destruct (IH e2 (replay rs0 mem) g (<[g0 := f1]> old) (rs ++ rs1)) as (e3 & old3 & rs2 & E3 & Hm3 & Hs3 & Hlogs3 & Hd3 & T3 & S3 & Hall3 & Hrep3 & Hb3 & Hn3).
  { done. }
  { intros g' rs' Hin. destruct (Hf g' rs' ltac:(by right)) as (l' & Hl' & Hlog'). exists l'. split; [|done].
    rewrite lookup_insert_ne; [done|]. intros ->. apply Hnew. by apply (list_elem_of_fmap_2 fst) in Hin. }
  { set_solver. } { done. } { done. } { done. } { rewrite length_app. lia. }
  exists e3, old3, (rs1 ++ rs2). split_and!; [done| | |by rewrite app_assoc| |by rewrite T3, T2|by rewrite S3, S2| | | |].
  - unfold replay in *. by rewrite foldl_app.
  - rewrite Hs3, Hs2. change (mem_size e1) with (mem_size e). rewrite log_bytes_app. lia.
  - rewrite Hd3, dom_insert_L. apply elem_of_dom_2 in Hl0. set_solver.
  - by apply Forall_app.
  - intros m. unfold replay in *. by rewrite !foldl_app, Hrep2, Hrep3.
  - rewrite !log_bytes_app. lia.
  - rewrite !length_app. lia.
Qed.

Lemma remove_all_ok L : ∀ e g old rs,
  logs g old rs e → g ∉ L →
  ∃ e' old', each RemoveWAL L e = (Val tt, e') ∧ logs g old' rs e' ∧ dom old' = dom old ∖ list_to_set L ∧
    table_side e' = table_side e ∧ settings e' = settings e ∧ mem_side e' = mem_side e.
Proof.
  induction L as [|g0 L IH]; intros e g old rs (l & Hl & Hlog & Hfs) Hg; cbn [each].
  { exists e, old. split_and!; [done|by exists l|set_solver|done..]. }
  set (e1 := set_files (sst (disk e)) (delete g0 (memwal (disk e))) e).
  mrun (eq_refl : RemoveWAL g0 e = (Val tt, e1)).
  destruct (IH e1 g (delete g0 old) rs) as (e2 & old2 & E2 & Hlogs2 & Hd2 & T2 & S2 & M2); [|set_solver|].
  { exists l. split_and!; [done|done|]. cbn [e1 disk set_files memwal]. rewrite Hfs. apply delete_insert_ne. set_solver. }
  exists e2, old2. split_and!; [done|done| |done|done|done]. rewrite Hd2, dom_delete_L. set_solver.
Qed.

Lemma found_ok gs e : logged gs (memwal (disk e)) → found_generations e = gs.*1.
Proof.
  intros H. unfold found_generations. apply (StronglySorted_unique Z.le).
  - apply (StronglySorted_merge_sort Z.le).
  - pose proof (lg_sorted _ _ H) as Hs. clear H. induction Hs as [|g l Hs IH Hall]; constructor; [done|].
    eapply Forall_impl; [done|]. intros; simpl in *; lia.
  - rewrite merge_sort_Permutation, (lg_dom _ _ H), elements_list_to_set; [done|]. apply ascending_NoDup, (lg_sorted _ _ H).
Qed.

Lemma last_max (l : list Z) g : StronglySorted Z.lt l → last l = Some g → ∀ x, x ∈ l → x ≤ g.
Proof.
  induction 1 as [|y l Hs IH Hall]; [done|]. intros Hl x Hx. destruct l as [|z l].
  - simpl in Hl. injection Hl as ->. apply list_elem_of_singleton in Hx as ->. done.
  - rewrite last_cons_cons in Hl. apply elem_of_cons in Hx as [->|Hx]; [|by apply IH].
    apply Forall_cons in Hall as [? _]. specialize (IH Hl z ltac:(left)). lia.
Qed.

Lemma recover_ok e gs W :
  wal_enabled_ e = true → mem_rep [] e → mem_size e = 0 → logged gs (memwal (disk e)) →
  Z.of_nat (length (concat gs.*2)) ≤ W → W < 2 ^ 31 → let rs := concat gs.*2 in
  ∃ e', RecoverMemWALOnStartup e = (Val tt, e') ∧ mem_rep (replay rs []) e' ∧ mem_size e' = log_bytes rs ∧ wal_rep (replay rs []) W e' ∧
    table_side e' = table_side e ∧ settings e' = settings e.
Proof.
  intros Hen Hmem Hsz Hlg Hlen HW rs0. unfold RecoverMemWALOnStartup. mstep. rewrite (found_ok gs e Hlg).
  destruct Hlg as [Hne Hsort Hids Hdom Hfiles Hrecs]. destruct (last gs.*1) as [g|] eqn:Hlast.
  2:{ apply last_None in Hlast. destruct gs; done. }
  pose proof (last_max _ _ Hsort Hlast) as Hmax. assert (Hnew : g + 1 ∉ gs.*1) by (intros Hin; specialize (Hmax _ Hin); lia).
  assert (0 ≤ g) by (apply Hids, last_Some_elem_of; done).
  destruct (OpenWAL_new (g + 1) e) as (l0 & E0 & Hl0). { apply not_elem_of_dom. rewrite Hdom. set_solver. }
  mrun E0. set (e1 := set_wal _ _ _).
  destruct (replay_generations_ok gs e1 [] (g + 1) (memwal (disk e)) []) as (e3 & old & rs' & E3 & Hm3 & Hs3 & Hl3 & Hd3 & T3 & S3 & Hall3 & Hrep3 & Hb3 & Hn3);
    [by apply ascending_NoDup|done|done|done|done|by exists l0|simpl; lia|].
  mrun E3. rewrite app_nil_l in Hl3. destruct (sync_ok (g + 1) old rs' e3 Hl3) as (e4 & E4 & T4 & M4 & S4 & _ & Hl4). mrun E4.
  destruct (remove_all_ok gs.*1 e4 (g + 1) old rs' Hl4 Hnew) as (e5 & old' & E5 & (l5 & Hw5 & Hlog5 & Hfs5) & Hd5 & T5 & S5 & M5). mrun E5.
  eexists. split; [done|].
  assert (Hsz5 : mem_size e5 = log_bytes rs0).
  { rewrite (mem_side_size e4 e5 M5), (mem_side_size e3 e4 M4), Hs3. change (mem_size e1) with (mem_size e). fold rs0. lia. }
  split_and!.
  - apply (mem_side_rep _ e3 _); [|done]. transitivity (mem_side e5); [done|]. by rewrite M5.
  - exact Hsz5.
  - intros _. exists (g + 1), rs'. fold rs0 in Hn3, Hb3. split_and!; [lia|done| |done|by rewrite Hrep3|unfold rs0 in *; lia|].
    + exists l5. split_and!; [done|done|]. cbn [disk set_wal memwal]. rewrite Hfs5. f_equal. apply dom_empty_inv_L.
      rewrite Hd5, Hd3, Hdom. set_solver.
    + rewrite Hb3. symmetry. exact Hsz5.
  - transitivity (table_side e5); [done|]. by rewrite T5, T4, T3.
  - transitivity (settings e5); [done|]. by rewrite S5, S4, S3.
Qed.

Lemma recover_fresh e :
  wal_enabled_ e = true → mem_rep [] e → mem_size e = 0 → memwal (disk e) = ∅ →
  ∃ e', RecoverMemWALOnStartup e = (Val tt, e') ∧ mem_rep [] e' ∧ mem_size e' = 0 ∧ wal_rep [] 0 e' ∧ table_side e' = table_side e ∧ settings e' = settings e.
Proof.
  intros Hen Hmem Hsz Hfs. unfold RecoverMemWALOnStartup. mstep.
  assert (Hfound : found_generations e = []) by (unfold found_generations; by rewrite Hfs, dom_empty_L, elements_empty).
  rewrite Hfound. cbn [last each]. destruct (OpenWAL_new 0 e) as (l0 & E0 & Hl0); [by rewrite Hfs|]. mrun E0.
  set (e1 := set_wal _ _ _).
  destruct (sync_ok 0 ∅ [] e1) as (e2 & E2 & H1 & H2 & H3 & _ & l2 & Hw2 & Hl2 & Hfs2).
  { exists l0. split_and!; [done|done|]. cbn [e1 disk set_wal set_files memwal]. by rewrite Hfs. }
  mrun E2. eexists. split; [done|]. assert (Hsz2 : mem_size e2 = 0) by (by rewrite (mem_side_size e1 e2 H2)). split_and!.
  - apply (mem_side_rep _ e1 _); [exact H2|done].
  - exact Hsz2.
  - intros _. exists 0, []. split_and!; [done|done| |constructor|done|done|symmetry; exact Hsz2]. by exists l2.
  - transitivity (table_side e2); [done|]. by rewrite H1.
  - transitivity (settings e2); [done|]. by rewrite H3.
Qed.

(** ** Opening *)

Lemma Open_fresh db thr tier w :
  sane behind ideal faults →
  ∃ e, LSMTreeEngine.Open behind faults coins db thr tier w no_files = (Val e, disk e) ∧ rep ideal ∅ [] 0 0 0 e ∧ wal_rep [] 0 e ∧ fresh e ∧
    mem_size e = 0 ∧ tiers_ e = [] ∧ settings e = (db, thr, tier, w, false).
Proof.
  intros Hsane. destruct (init_ok db thr tier w Hsane) as (d & e1 & Ed & E1 & Hrep & Hfr & Ht & Hw & Hsz & Hset).
  unfold LSMTreeEngine.Open. rewrite Ed. fold (blank db thr tier w d no_files). rewrite <-bind_assoc, (bind_Val _ _ _ _ _ E1).
  assert (Hen : wal_enabled_ e1 = w) by (unfold settings in Hset; by injection Hset as _ _ _ -> _). destruct w.
  - destruct (recover_fresh e1 Hen (rp_mem _ _ _ _ _ _ _ Hrep) Hsz Hw) as (e2 & E2 & Hm2 & Hs2 & Hw2 & H1 & H2). rewrite E2.
    exists e2. split; [done|]. split_and!; [|done|by apply (fresh_side e1)|done| |by rewrite H2].
    + eapply (rep_transport ideal ∅ [] 0 0 0 e1); [done|done|done|by intros x ?%elem_of_nil|]. rewrite Ht. done.
    + unfold table_side in H1. injection H1 as H1. by rewrite H1.
  - exists e1. split; [done|]. split_and!; try done. intros ?. congruence.
Qed.

(** Opening the files with the log: the memtable is that of the records. *)
Lemma Open_logs E mem0 F W K e gs db thr tier :
  rep ideal E mem0 F W K e → K < 2 ^ 62 → W < 2 ^ 31 → logged gs (memwal (disk e)) → Z.of_nat (length (concat gs.*2)) ≤ W →
  let mem := replay (concat gs.*2) [] in
  (∀ x, x ∈ mem → entry_ok x) → total (mem :: (content E <$> concat (tiers_ e))) ≤ W →
  ∃ e', LSMTreeEngine.Open behind faults coins db thr tier true (disk e) = (Val e', disk e') ∧ rep ideal E mem F W K e' ∧ wal_rep mem W e' ∧
    numbered e' = numbered e ∧ (room (tiers_ e) = true → room (tiers_ e') = true) ∧ mem_size e' = log_bytes (concat gs.*2) ∧ settings e' = (db, thr, tier, true, false) ∧ stack E mem e' = stack E mem e.
Proof.
  intros Hrep HK HW Hlg Hlen mem Hok Hto.
  destruct (manifest_load_ok E mem0 F W K e db thr tier true Hrep HK) as (d & e1 & Ed & E1 & Hrep1 & Hn1 & Hr1 & Ht1 & Hfs1 & Hsz1 & Hset1).
  unfold LSMTreeEngine.Open. rewrite Ed. fold (blank db thr tier true d (disk e)). rewrite <-bind_assoc, (bind_Val _ _ _ _ _ E1).
  assert (Hen : wal_enabled_ e1 = true) by (unfold settings in Hset1; by injection Hset1 as _ _ _ -> _).
  destruct (recover_ok e1 gs W Hen (rp_mem _ _ _ _ _ _ _ Hrep1) Hsz1) as (e2 & E2 & Hm2 & Hs2 & Hw2 & H1 & H2); [by rewrite Hfs1|done|done|].
  rewrite E2. exists e2. split; [done|]. assert (Ht2 : tiers_ e2 = tiers_ e1) by (unfold table_side in H1; by injection H1 as H1).
  split_and!; [|done|by rewrite (numbered_side e1 e2 H1)|by rewrite Ht2|done|by rewrite H2|unfold stack; by rewrite Ht2, Ht1].
  eapply (rep_transport ideal E [] F W K e1); [done|done|done|done|by rewrite Ht1].
Qed.

Lemma logged_one g rs l : 0 ≤ g → log_rep rs l → Forall loggable rs → logged [(g, rs)] {[g := DiskManager.fd_ (LogManager.disk_manager_ l)]}.
Proof.
  intros Hg Hl Hall. split; simpl; [done|repeat constructor|intros g' ->%list_elem_of_singleton; done|rewrite dom_singleton_L; set_solver| |by rewrite app_nil_r].
  intros g' rs' [= -> ->]%list_elem_of_singleton. exists l. by rewrite lookup_singleton_eq.
Qed.

(** Opening again after a crash: with the log nothing is lost, without it the
    memtable is. *)
Lemma Open_again E mem F W K e db thr tier w :
  rep ideal E mem F W K e → wal_rep mem W e → W < 2 ^ 31 → K < 2 ^ 62 → (w = true → wal_enabled_ e = true) →
  let mem' := if w then mem else [] in
  ∃ e', LSMTreeEngine.Open behind faults coins db thr tier w (disk e) = (Val e', disk e') ∧ rep ideal E mem' F W K e' ∧ wal_rep mem' W e' ∧
    numbered e' = numbered e ∧ mem_size e' = (if w then mem_size e else 0) ∧ settings e' = (db, thr, tier, w, false) ∧ stack E mem' e' = stack E mem' e.
Proof.
  intros Hrep Hwal HW HK Hwe mem'. destruct w.
  - destruct (Hwal (Hwe eq_refl)) as (g & rs & Hg & _ & (l & _ & Hlog & Hfs) & Hall & Hmem & Hlen & Hlb).
    assert (Hone : concat [(g, rs)].*2 = rs) by apply app_nil_r.
    destruct (Open_logs E mem F W K e [(g, rs)] db thr tier Hrep HK HW) as (e' & Eo & H); [rewrite Hfs; by apply logged_one|by rewrite Hone| | |].
    { rewrite Hone, Hmem. apply (rp_entries _ _ _ _ _ _ _ Hrep). }
    { rewrite Hone, Hmem. apply (rp_total _ _ _ _ _ _ _ Hrep). }
    exists e'. rewrite Hone, Hmem, Hlb in H. by destruct H as (? & ? & ? & _ & ? & ? & ?).
  - destruct (manifest_load_ok E mem F W K e db thr tier false Hrep HK) as (d & e1 & Ed & E1 & Hrep1 & Hn1 & _ & Ht1 & _ & Hsz1 & Hset1).
    unfold LSMTreeEngine.Open. rewrite Ed. fold (blank db thr tier false d (disk e)). rewrite <-bind_assoc, (bind_Val _ _ _ _ _ E1).
    assert (Hen : wal_enabled_ e1 = false) by (unfold settings in Hset1; by injection Hset1 as _ _ _ -> _).
    exists e1. split; [done|]. split_and!; try done; [intros ?; congruence|]. unfold stack. by rewrite Ht1.
Qed.

(** ** Closing *)

Lemma Close_ok E mem F W K e :
  sane behind ideal faults → rep ideal E mem F W K e → wal_rep mem W e → fresh e → room (tiers_ e) = true → W < 2 ^ 31 → 2 ≤ tier_threshold_ e →
  ∃ e' E', LSMTreeEngine.Close behind ideal faults coins e = (Val tt, e') ∧ rep ideal E' [] (F + 1) W (K + 2) e' ∧ wal_rep [] W e' ∧ fresh e' ∧
    ∀ k, view (stack E' [] e') k = view (stack E mem e) k.
Proof.
  intros Hsane Hrep Hwal Hfr HF HW Hth. unfold LSMTreeEngine.Close. mstep. set (e1 := set_flags _ _ e).
  assert (Hrep1 : rep ideal E mem F W K e1) by (destruct Hrep; by split).
  destruct (rp_mem _ _ _ _ _ _ _ Hrep) as [_ (m & Hm & Hh)].
  assert (E1 : lift (memtable_at (active_memtable_ e1) e1) e1 = (Val m, e1)) by (unfold lift, memtable_at; simpl; by rewrite Hm). mrun E1.
  rewrite (MemTable.EntryCount_ok _ _ Hh). destruct (Z.ltb_spec 0 (Z.of_nat (length mem))) as [Hlt|Hge].
  - destruct (Flush_ok behind ideal faults coins E mem F W K e1 Hsane Hrep1 Hwal Hfr) as (e2 & E' & E2 & Hrep2 & Hwal2 & Hfr2 & _ & _ & Hv2); [|done|done|done|].
    { intros ->. simpl in Hlt. lia. }
    exists e2, E'. split_and!; [done|done| |done|done]. intros Hen. destruct (Hwal2 Hen) as (g & rs & ? & ? & ? & ? & ? & Hle & ?).
    exists g, rs. split_and!; try done. pose proof (rp_total _ _ _ _ _ _ _ Hrep) as Ht. unfold total in Ht. lia.
  - destruct mem; [|simpl in Hge; lia]. exists e1, E. split_and!; [done| |done|done|done].
    pose proof (rp_fits _ _ _ _ _ _ _ Hrep) as Hfit. pose proof (rp_flushes _ _ _ _ _ _ _ Hrep). destruct Hrep1. split; try done; [|lia..].
    destruct Hfit as (Hfc & Hfw & Hfl). split; [done|]. split; (etransitivity; [eassumption|lia]).
Qed.

(** ** A crash inside a flush *)

(** A flush up to where its table is on disk. *)
Definition flush_until_built : M t (option Z) :=
  '(a, generation) ← flush_rotate coins;
  e ← get;
  old ← lift (memtable_at a e);
  _ ← flush_build behind ideal faults old;
  mret generation.

(** The files with a table that the manifest does not name: those of an engine
    that has not begun to build it. *)
Definition unbuilt (e e2 : t) : t := set_tables (tables e) (held e) (set_next_id (next_sstable_id_ e) e2).

Lemma rep_unbuilt E mem F W K e e2 f s :
  rep ideal E mem F W K e → table_side e2 = table_side (with_table (Some (next_sstable_id_ e, (f, s))) e) → mem_rep [] e2 →
  rep ideal E [] F W K (unbuilt e e2).
Proof.
  intros [Hm He [T1 T2 T3 T4 T5 T6] Hman Hheld Hidle Hfit HF Hid Hto] Hs Hm2. unfold table_side in Hs. injection Hs as H1 H2 H3 H4 H5 H6 H7 H8.
  split; cbn [unbuilt tiers_ tables disk next_sstable_id_ manifest_disk_manager_ held compaction_running_ set_tables set_next_id];
    rewrite ?H1, ?H3, ?H4, ?H5, ?H8; try done.
  - by intros x ?%elem_of_nil.
  - split; try done. intros id es HE. simpl. rewrite lookup_insert_ne by (destruct (T6 id es HE); lia). by apply T5.
  - unfold total in *. simpl in *. lia.
Qed.

Lemma logged_two mem W n fs :
  two_logs mem W n fs →
  ∃ gs, logged gs fs ∧ replay (concat gs.*2) [] = mem ∧ Z.of_nat (length (concat gs.*2)) ≤ W ∧ log_bytes (concat gs.*2) = n.
Proof.
  intros (g & l & l0 & rs & Hg & -> & Hl & Hl0 & Hall & Hmem & Hlen & Hn). exists [(g, rs); (g + 1, [])].
  assert (Hc : concat [(g, rs); (g + 1, [])].*2 = rs) by (simpl; by rewrite app_nil_r). rewrite Hc. split_and!; [|done..].
  split; rewrite ?Hc; [done| | | | |done].
  - simpl. apply SSorted_cons; [|apply Forall_singleton; lia]. apply SSorted_cons; constructor.
  - intros g'. simpl. rewrite !elem_of_cons, elem_of_nil. lia.
  - simpl. rewrite dom_insert_L, dom_singleton_L. set_solver.
  - intros g' rs' [[= -> ->]|[= -> ->]%list_elem_of_singleton]%elem_of_cons.
    + exists l. rewrite lookup_insert_ne, lookup_singleton_eq by lia. done.
    + exists l0. by rewrite lookup_insert_eq.
Qed.

(** After a crash with the table on disk the log still has the memtable; with
    the log gone too, the files have nothing of it that a restart reads. *)
Lemma crash_in_flush E mem F W K e db thr tier :
  sane behind ideal faults → rep ideal E mem F W K e → wal_rep mem W e → fresh e → wal_enabled_ e = true → W < 2 ^ 31 → K < 2 ^ 62 →
  ∃ gen e2 e3, flush_until_built e = (Val gen, e2) ∧ flush_retire gen e2 = (Val tt, e3) ∧
    (∃ e' f, LSMTreeEngine.Open behind faults coins db thr tier true (disk e2) = (Val e', disk e') ∧ rep ideal E mem F W K e' ∧ wal_rep mem W e' ∧
      numbered e' = (next_sstable_id_ e, <[next_sstable_id_ e := f]> (sst (disk e))) ∧ file_holds ideal mem f ∧ blen (DiskManager.f_data f) ≤ 2 ^ 52 ∧
      (room (tiers_ e) = true → room (tiers_ e') = true) ∧ mem_size e' = mem_size e ∧ settings e' = (db, thr, tier, true, false) ∧
      stack E mem e' = stack E mem e) ∧
    (∃ e', LSMTreeEngine.Open behind faults coins db thr tier true (disk e3) = (Val e', disk e') ∧ rep ideal E [] F W K e' ∧
      stack E [] e' = stack E [] e).
Proof.
  intros Hsane Hrep Hwal Hfr Hen HW HK. unfold flush_until_built.
  destruct (flush_rotate_ok coins mem W e (rp_mem _ _ _ _ _ _ _ Hrep) Hwal) as (e1 & gen & m & E1 & Hs1 & Hset1 & Hm & Hh & Hmem1 & Hsz1 & Hret).
  mrun E1. assert (E2 : lift (memtable_at (active_memtable_ e) e1) e1 = (Val m, e1)) by (unfold lift, memtable_at; by rewrite Hm). mrun E2.
  assert (Hn1 : numbered e1 = numbered e) by (by apply numbered_side). unfold numbered in Hn1. injection Hn1 as Hid1 Hsst1.
  pose proof (rp_total _ _ _ _ _ _ _ Hrep) as Hto.
  destruct (flush_build_ok behind ideal faults m mem e1) as (f & (s & E3 & Hf & _) & Hsz);
    [done|done|rewrite Hid1, Hsst1; by apply Hfr|apply (rp_entries _ _ _ _ _ _ _ Hrep)|unfold total in Hto; simpl in Hto; lia|].
  mrun E3. set (e2 := with_table _ e1). destruct (settings_wal _ _ Hset1) as [Hwe1 _].
  destruct (Hret e2) as [(e3 & E4 & Hs4 & Hm4 & Hset4 & Hw4) Htwo]; [done|done|done|]. specialize (Htwo Hen).
  assert (Hs2 : table_side e2 = table_side (with_table (Some (next_sstable_id_ e, (f, mkTable s false))) e)).
  { unfold e2. rewrite Hid1. unfold table_side in *. injection Hs1 as H1 H2 H3 H4 H5 H6 H7 H8. simpl. by rewrite H1, H2, H3, H4, H5, H7, H8. }
  assert (Ht2 : tiers_ e2 = tiers_ e ∧ sst (disk e2) = <[next_sstable_id_ e := f]> (sst (disk e))).
  { unfold table_side in Hs2. injection Hs2 as H1 _ H3 _ _ _ _ _. by split. }
  destruct Ht2 as [Ht2 Hf2]. exists gen, e2, e3. split_and!; [done|done| |].
  - destruct (logged_two _ _ _ _ Htwo) as (gs & Hlg & Hmem & Hlen & Hlb).
    pose proof (rep_unbuilt E mem F W K e e2 f _ Hrep Hs2 Hmem1) as Hrep2.
    destruct (Open_logs E [] F W K (unbuilt e e2) gs db thr tier Hrep2 HK HW Hlg Hlen) as (e' & Eo & Hrep' & Hwal' & Hn' & Hr' & Hsz' & Hset' & Hst').
    { rewrite Hmem. apply (rp_entries _ _ _ _ _ _ _ Hrep). }
    { rewrite Hmem. cbn [unbuilt tiers_ set_tables set_next_id]. by rewrite Ht2. }
    rewrite Hmem in *. exists e', f. unfold stack in *. cbn [unbuilt tiers_ set_tables set_next_id] in Hr', Hst'. rewrite Ht2 in Hr', Hst'.
    split_and!; [done|done|done| |done|done|done|by rewrite Hsz'|done|done].
    rewrite Hn'. unfold numbered. cbn [unbuilt next_sstable_id_ disk set_tables set_next_id]. by rewrite Hf2.
  - rewrite <-Hs4 in Hs2 at 1. assert (Hmem3 : mem_rep [] e3) by (apply (mem_side_rep [] e2); [done|exact Hmem1]).
    pose proof (rep_unbuilt E mem F W K e e3 f _ Hrep Hs2 Hmem3) as Hrep3. destruct (settings_wal _ _ Hset4) as [Hwe4 _].
    destruct (Open_again E [] F W K (unbuilt e e3) db thr tier true Hrep3) as (e' & Eo & Hrep' & _ & _ & _ & _ & Hst'); [|done|done|intros _|].
    2:{ transitivity (wal_enabled_ e1); [exact Hwe4|]. by rewrite Hwe1. }
    { intros Hen3. destruct (Hw4 Hen3) as (g & rs & H1 & H2 & H3 & H4 & H5 & H6 & H7). exists g, rs. split_and!; try done. unfold total in Hto. lia. }
    exists e'. split_and!; [done|done|]. unfold table_side in Hs2. injection Hs2 as H1 _. unfold stack in *.
    cbn [unbuilt tiers_ set_tables set_next_id] in Hst'. by rewrite H1 in Hst'.
Qed.

(** A flush over the file that such a crash leaves behind: the new table has the
    entries of the old file. *)
Lemma Flush_leftover E mem mem0 F W K e f :
  sane behind ideal faults → rep ideal E mem F W K e → wal_rep mem W e →
  sst (disk e) !! next_sstable_id_ e = Some f → file_holds ideal mem0 f → blen (DiskManager.f_data f) ≤ 2 ^ 52 →
  total (mem0 :: (content E <$> concat (tiers_ e))) ≤ W → (∀ id, next_sstable_id_ e < id → sst (disk e) !! id = None) →
  mem ≠ [] → room (tiers_ e) = true → W < 2 ^ 31 → 2 ≤ tier_threshold_ e →
  ∃ e' E' F' K', FlushActiveMemtable behind ideal faults coins e = (Val tt, e') ∧ rep ideal E' [] F' W K' e' ∧
    ∀ k, view (stack E' [] e') k = view (mem0 :: (content E <$> concat (tiers_ e))) k.
Proof.
  intros Hsane Hrep Hwal Hf Hfh Hsz Hto Hfr Hne Hroom HW Hth.
  destruct (Flush_from behind ideal faults coins E mem mem0 F W K e) as (e' & E' & Ef & Hrep' & _ & _ & _ & _ & Hv); try done.
  - intros m e1 Hh Hs1. apply numbered_side in Hs1. unfold numbered in Hs1. injection Hs1 as H1 H2.
    apply (flush_build_over _ _ _ m mem mem0 f); [done|done|by rewrite H1, H2|done|done|apply (rp_entries _ _ _ _ _ _ _ Hrep)|].
    pose proof (rp_total _ _ _ _ _ _ _ Hrep) as Hto'. unfold total in Hto'. simpl in Hto'. lia.
  - by eauto 10.
Qed.

(** ** Two flushes at once *)

(** Two threads flush the memtables [m1] and [m2] that they have rotated away;
    the second may install its table first. *)
Definition two_flushes (m1 m2 : MemTable.t) (second_first : bool) (k : KeyType) : M t (option string) :=
  id1 ← flush_build behind ideal faults m1;
  id2 ← flush_build behind ideal faults m2;
  _ ← flush_install behind (if second_first then id2 else id1);
  _ ← flush_install behind (if second_first then id1 else id2);
  Get k.

Lemma flush_install_run id e next ts :
  sane behind ideal faults → manifest_rep (manifest_disk_manager_ e) (manifest (disk e)) next ts → capacity (tiers_ e) →
  Z.of_nat (length (tier_at (tiers_ e) 0)) < kMaxSSTablesPerManifestTier →
  ∃ d b, flush_install behind id e = (Val b, set_manifest d (set_tiers (flushed id (tiers_ e)) e)) ∧
    manifest_rep d (DiskManager.fd_ d) (next_sstable_id_ e) (flushed id (tiers_ e)).
Proof.
  intros Hsane Hm Hc H0. unfold flush_install. mstep. fold (flushed id (tiers_ e)).
  destruct (manifest_Persist_ok behind ideal faults (set_tiers (flushed id (tiers_ e)) e) next ts Hsane Hm) as (d & Ed & Hd).
  { by apply capacity_flushed. }
  mrun Ed. eexists d, _. done.
Qed.

Lemma two_flushes_ok E mem F W K e m1 m2 es1 es2 second_first k :
  sane behind ideal faults → rep ideal E mem F W K e → fresh e →
  MemTable.holds m1 es1 → MemTable.holds m2 es2 → (∀ x, x ∈ es1 ++ es2 → entry_ok x) → Z.of_nat (length (es1 ++ es2)) < 2 ^ 31 →
  Z.of_nat (length (tier_at (tiers_ e) 0)) < 15 →
  (two_flushes m1 m2 second_first k e).1 =
    Val (view (mem :: (if second_first then [es1; es2] else [es2; es1]) ++ (content E <$> concat (tiers_ e))) k).
Proof.
  intros Hsane Hrep Hfr Hm1 Hm2 Hok Hlen H0. pose proof (rp_tables _ _ _ _ _ _ _ Hrep) as Ht. pose proof (rp_ids _ _ _ _ _ _ _ Hrep) as Hid.
  rewrite length_app in Hlen. unfold two_flushes. set (id1 := next_sstable_id_ e) in *.
  destruct (flush_build_ok behind ideal faults m1 es1 e) as (f1 & (s1 & E1 & Hf1 & Hs1) & _);
    [done|done|by apply Hfr|intros x Hx; apply Hok; set_solver|lia|].
  mrun E1. fold id1. set (e1 := with_table _ e). set (id2 := id1 + 1).
  destruct (flush_build_ok behind ideal faults m2 es2 e1) as (f2 & (s2 & E2 & Hf2 & Hs2) & _).
  { done. } { done. }
  { cbn [e1 with_table next_sstable_id_ disk sst set_tables set_files set_next_id]. rewrite lookup_insert_ne by lia. apply Hfr. lia. }
  { intros x Hx. apply Hok. set_solver. } { lia. }
  mrun E2. change (next_sstable_id_ e1) with id2. set (e2 := with_table _ e1).
  pose proof (table_rep_flushed ideal faults _ _ _ _ _ _ _ _ Ht ltac:(lia) Hf1 Hs1) as Ht1. fold id1 id2 in Ht1.
  pose proof (table_rep_flushed ideal faults _ _ _ _ _ _ _ _ Ht1 ltac:(lia) Hf2 Hs2) as Ht2.
  pose proof (contents_flushed ideal _ _ _ _ _ es2 Ht1) as Hc2. pose proof (contents_flushed ideal _ _ _ _ _ es1 Ht) as Hc1. fold id1 in Hc1.
  rewrite Hc1 in Hc2. rewrite !fmap_cons in Hc2. injection Hc2 as Hid2 Hid1 Hrest.
  set (E2' := <[id2 := es2]> (<[id1 := es1]> E)) in *.
  assert (Hcap : capacity (tiers_ e)) by apply (rp_fits _ _ _ _ _ _ _ Hrep).
  set (a := if second_first then id2 else id1). set (b := if second_first then id1 else id2).
  destruct (capacity_flushed a (tiers_ e) Hcap) as [Hcap1 Hl1]; [unfold kMaxSSTablesPerManifestTier; lia|].
  destruct (flush_install_run a e2 _ _ Hsane (rp_manifest _ _ _ _ _ _ _ Hrep) Hcap) as (d3 & b3 & E3 & Hd3); [unfold kMaxSSTablesPerManifestTier; simpl; lia|].
  mrun E3. set (e3 := set_manifest _ _).
  destruct (flush_install_run b e3 _ _ Hsane Hd3 Hcap1) as (d4 & b4 & E4 & _); [unfold kMaxSSTablesPerManifestTier; simpl; lia|].
  mrun E4. set (e4 := set_manifest _ _).
  assert (Htiers : concat (tiers_ e4) = b :: a :: concat (tiers_ e)).
  { change (tiers_ e4) with (flushed b (flushed a (tiers_ e))). by rewrite (proj1 (flushed_ok _ _)), (proj1 (flushed_ok _ _)). }
  destruct (Get_open ideal faults E2' mem e4 k) as (e5 & -> & _).
  - apply (rp_mem _ _ _ _ _ _ _ Hrep).
  - intros id es HE. destruct (tr_tables _ _ _ _ _ _ Ht2 id es HE) as (s & Hs & Hh). by exists (mkTable s false).
  - intros id. rewrite Htiers, (tr_dom _ _ _ _ _ _ Ht2). unfold a, b. destruct second_first; set_solver.
  - simpl. f_equal. unfold stack. rewrite Htiers, !fmap_cons, Hrest. unfold a, b. by destruct second_first; simpl; rewrite Hid1, Hid2.
Qed.
End engine.
End LsmReopen.
