(* ===== verification/LsmRuns.v ===== *)
(** * Runs of the LSM-tree engine against an ordered map *)

From S2P Require Import Prelude Entries Bytes Disk Engine Wal MemTable MergeTheory SSTablePages LsmEngine LsmCursors LsmTiers LsmTheory LsmFlush LsmOps LsmScan LsmReopen.

#[local] Opaque le_enc DiskManager.page_of DiskManager.write_file zeros LSMTreeEngine.manifest_page.

Module LsmRuns.
Import SSTablePages LSMTreeEngine LsmCursors LsmTiers LsmTheory LsmFlush LsmOps LsmScan LsmReopen.

(** What can happen to an engine: calls, a round of the compaction thread, and
    a restart.  With the log, the process dies without closing the engine;
    without it, the engine is closed.  The files are opened again. *)
Inductive event :=
  | EPut (k : KeyType) (v : string)
  | EDelete (k : KeyType)
  | EGet (k : KeyType)
  | EScan (k : KeyType) (n : nat)
  | ECompact
  | ERestart.

Inductive answer :=
  | ADone
  | AFound (v : option string)
  | ADeleted (b : bool)
  | ARows (rows : list (KeyType * string)).

(** Reads up to [n] rows. *)
Fixpoint read_rows (n : nat) (it : LSMScanIterator) : M t (LSMScanIterator * list (KeyType * string)) :=
  match n with
  | O => mret (it, [])
  | S n =>
      if negb (IsValid it) then mret (it, []) else
      k ← GetKey it;
      v ← GetValue it;
      it ← Next it;
      '(it, rows) ← read_rows n it;
      mret (it, (k, v) :: rows)
  end.

Section run.
Context (behind : option Z → page_id_t → bytes) (ideal : Z → Z * Z).
Context (faults : Z → list (option DiskManager.fault)) (coins : nat → list bool).

Definition restart : M t () := λ e,
  match (if wal_enabled_ e then (Val tt, e) else Close behind ideal faults coins e) with
  | (Val _, e1) =>
      match Open behind faults coins (db_path_ e) (flush_threshold_bytes_ e) (tier_threshold_ e) (wal_enabled_ e) (disk e1) with
      | (Val e2, _) => (Val tt, e2)
      | (Exn x, _) => (Exn x, e1)
      | (Undef, _) => (Undef, e1)
      | (NoFuel, _) => (NoFuel, e1)
      end
  | (r, e1) => (r, e1)
  end.

Definition perform (ev : event) : M t answer :=
  match ev with
  | EPut k v => Put behind ideal faults coins k v;; mret ADone
  | EDelete k => b ← Delete behind ideal faults coins k; mret (ADeleted b)
  | EGet k => v ← Get k; mret (AFound v)
  | EScan k n =>
      it ← Scan k;
      '(it, rows) ← read_rows n it;
      Destroy it;;
      mret (ARows rows)
  | ECompact => _ ← CompactOneTierIfNeeded behind ideal faults; mret ADone
  | ERestart => restart;; mret ADone
  end.

Fixpoint run (evs : list event) (e : t) : list (res answer) :=
  match evs with
  | [] => []
  | ev :: evs => let '(r, e) := perform ev e in r :: run evs e
  end.

(** The manifest has room when each event comes: for one more table in each
    tier, and for one more tier. *)
Fixpoint all_room (evs : list event) (e : t) : bool :=
  match evs with
  | [] => true
  | ev :: evs => room (tiers_ e) && all_room evs (perform ev e).2
  end.
End run.

(** ** The specification: an ordered map *)

Definition spec (ev : event) (m : list (Z * string)) : res answer * list (Z * string) :=
  match ev with
  | EPut k v =>
      if MAX_VALUE_SIZE <? ssize v then (Exn (InvalidArgument "LSMTreeEngine::Put: value exceeds MAX_VALUE_SIZE"), m)
      else (Val ADone, ins k v m)
  | EDelete k => (Val (ADeleted (bool_decide (is_Some (look k m)))), del k m)
  | EGet k => (Val (AFound (look k m)), m)
  | EScan k n => (Val (ARows (take n (drop (lb k m) m))), m)
  | ECompact => (Val ADone, m)
  | ERestart => (Val ADone, m)
  end.

Fixpoint spec_run (evs : list event) (m : list (Z * string)) : list (res answer) :=
  match evs with
  | [] => []
  | ev :: evs => let '(r, m) := spec ev m in r :: spec_run evs m
  end.

Definition valid (ev : event) : Prop :=
  match ev with EPut k _ | EDelete k | EGet k | EScan k _ => is_i64 k | ECompact | ERestart => True end.

(** What an event adds to the bytes on the way to a flush: a write its size, a
    restart up to a whole memtable. *)
Definition cost (thr : Z) (ev : event) : Z :=
  match ev with EPut _ v => 8 + ssize v | EDelete _ => 8 | ERestart => thr | _ => 0 end.
Definition cost_all (thr : Z) (evs : list event) : Z := foldr (λ ev n, cost thr ev + n) 0 evs.

Section run_ok.
Context (behind : option Z → page_id_t → bytes) (ideal : Z → Z * Z).
Context (faults : Z → list (option DiskManager.fault)) (coins : nat → list bool).

(** The engine stores [m], after writes of [B] bytes and [N] events. *)
Definition stores (thr tier B N : Z) (e : t) (m : list (Z * string)) : Prop :=
  ∃ E mem F db w stop, rep ideal E mem F N (2 * N) e ∧ wal_rep mem N e ∧ fresh e ∧ F * thr + mem_size e ≤ B ∧ sorted m ∧
    (∀ k, look k m = view (stack E mem e) k) ∧ settings e = (db, thr, tier, w, stop).

Lemma rep_grow E mem F W K W' K' e : rep ideal E mem F W K e → W ≤ W' → K ≤ K' → rep ideal E mem F W' K' e.
Proof. intros [? ? ? ? ? ? ? ? ? ?] HW HK. split; try done; lia. Qed.

Lemma wal_grow mem W W' e : wal_rep mem W e → W ≤ W' → wal_rep mem W' e.
Proof. intros H HW Hen. destruct (H Hen) as (g & rs & ? & ? & ? & ? & ? & ? & ?). exists g, rs. split_and!; try done. lia. Qed.

Lemma mem_size_nonneg mem e : mem_rep mem e → 0 ≤ mem_size e.
Proof. intros [_ (m & Hm & Hh)]. unfold mem_size. rewrite Hm. pose proof (MemTable.hd_size _ _ Hh). lia. Qed.

(** Reads leave the invariant. *)
Lemma stores_reads thr tier B N e e' m E mem F db w stop :
  rep ideal E mem F N (2 * N) e' → reads_only e e' → wal_rep mem N e → fresh e → F * thr + mem_size e ≤ B → sorted m →
  (∀ k, look k m = view (stack E mem e) k) → settings e = (db, thr, tier, w, stop) → stores thr tier B N e' m.
Proof.
  intros Hrep Hr Hwal Hfr HB Hs Hv Hset. destruct (reads_sides _ _ Hr) as (H1 & H2 & H3 & H4). destruct (settings_wal _ _ H4) as [H5 _].
  exists E, mem, F, db, w, stop. split_and!; [done|by apply (wal_side_rep mem N e)|by rewrite (ro_rest _ _ Hr)|by rewrite (mem_side_size e e' H2)|done| |by rewrite H4].
  unfold stack. by rewrite H1.
Qed.

Lemma stores_later thr tier B N B' N' e m : stores thr tier B N e m → B ≤ B' → N ≤ N' → stores thr tier B' N' e m.
Proof.
  intros (E & mem & F & db & w & stop & Hrep & Hwal & Hfr & HB & Hs & Hv & Hset) HB' HN.
  exists E, mem, F, db, w, stop. split_and!; [eapply rep_grow; [done|lia|lia]|by eapply wal_grow|done|lia|done|done|done].
Qed.

Lemma get_stores thr tier B N e m k :
  stores thr tier B N e m → ∃ e', Get k e = (Val (look k m), e') ∧ tiers_ e' = tiers_ e ∧ stores thr tier B N e' m.
Proof.
  intros (E & mem & F & db & w & stop & Hrep & Hwal & Hfr & HB & Hs & Hv & Hset).
  destruct (Get_rep ideal faults E mem F _ _ e k Hrep) as (e' & Eg & Hr & Hrep'). exists e'. rewrite Hv. split; [done|].
  split; [by rewrite (ro_rest _ _ Hr)|]. by eapply stores_reads.
Qed.

Lemma write_stores thr tier B N e m k v rec f m' :
  sane behind ideal faults → 0 < thr → 2 ≤ tier → N + 1 < 2 ^ 31 → room (tiers_ e) = true →
  is_write k v rec f → entry_ok (k, write_value v) → stores thr tier B N e m → sorted m' →
  (∀ k', look k' m' = if decide (k = k') then live (write_value v) else look k' m) →
  ∃ e', (need ← write_locked rec f; if need : bool then FlushActiveMemtable behind ideal faults coins else mret tt) e = (Val tt, e') ∧
    stores thr tier (B + write_size v) (N + 1) e' m'.
Proof.
  intros Hsane Hthr Htier HN Hroom Hw Hok (E & mem & F & db & w & stop & Hrep & Hwal & Hfr & HB & Hs & Hv & Hset) Hs' Hm'.
  assert (Hthr' : flush_threshold_bytes_ e = thr ∧ tier_threshold_ e = tier) by (unfold settings in Hset; by injection Hset as _ -> -> _ _).
  destruct Hthr' as [Ht1 Ht2].
  destruct (lsm_write_ok behind ideal faults coins E mem F N (2 * N) B e k v rec f Hsane Hw Hok Hrep Hwal) as (e' & E' & mem' & F' & Ew & Hrep' & Hwal' & Hfr' & Hset' & HB2 & Hv');
    [lia|lia|lia|by rewrite Ht1|done|done|].
  exists e'. split; [exact Ew|]. exists E', mem', F', db, w, stop. rewrite Ht1 in HB2.
  split_and!; [eapply rep_grow; [done|lia|lia]|done|done|done|done| |by rewrite Hset']. intros k'. rewrite Hm', Hv', Hv. done.
Qed.

Lemma read_rows_ok E eb ids n : ∀ e it rest,
  scanning E eb ids e it rest →
  ∃ it' e' rest', read_rows n it e = (Val (it', take n rest), e') ∧ scanning E eb ids e' it' rest'.
Proof.
  induction n as [|n IH]; intros e it rest Hs; cbn [read_rows]; [by exists it, e, rest|]. destruct rest as [|[k v] rest].
  - rewrite (scanning_end _ _ _ _ _ Hs). by exists it, e, [].
  - destruct (Next_rep _ _ _ _ _ _ _ _ Hs) as (-> & E1 & E2 & it1 & e1 & E3 & Hs1). cbn [negb]. mrun E1. mrun E2. mrun E3.
    destruct (IH e1 it1 rest Hs1) as (it2 & e2 & rest2 & E4 & Hs2). mrun E4. by exists it2, e2, rest2.
Qed.

Lemma scan_stores thr tier B N e m k n :
  stores thr tier B N e m →
  ∃ e', perform behind ideal faults coins (EScan k n) e = (Val (ARows (take n (drop (lb k m) m))), e') ∧ stores thr tier B N e' m.
Proof.
  intros (E & mem & F & db & w & stop & Hrep & Hwal & Hfr & HB & Hs & Hv & Hset). cbn [perform].
  destruct (Scan_rep ideal E mem F _ _ e k m Hrep Hs Hv) as (it & e1 & ids & E1 & Hsc & Hn). mrun E1.
  destruct (read_rows_ok E e ids n e1 it _ Hsc) as (it2 & e2 & rest2 & E2 & Hsc2). mrun E2.
  destruct (Destroy_rep ideal E mem F _ _ e ids e2 it2 rest2 Hrep Hn Hsc2) as (e3 & E3 & Hr & Hrep3). mrun E3.
  exists e3. split; [done|]. by eapply stores_reads.
Qed.

Lemma compact_stores thr tier B N e m :
  sane behind ideal faults → 2 ≤ tier → room (tiers_ e) = true → N + 1 < 2 ^ 31 → stores thr tier B N e m →
  ∃ r e', CompactOneTierIfNeeded behind ideal faults e = (Val r, e') ∧ stores thr tier B (N + 1) e' m.
Proof.
  intros Hsane Htier Hroom HN (E & mem & F & db & w & stop & Hrep & Hwal & Hfr & HB & Hs & Hv & Hset).
  destruct (Compact_ok behind ideal faults E mem F N (2 * N) e Hsane Hrep) as (r & e' & E' & Ec & Hrep' & Hfr' & Hre & Hv'); [done|by apply room_tail|lia| |].
  { unfold settings in Hset. injection Hset as _ _ -> _ _. done. }
  exists r, e'. split; [done|]. destruct (rest_sides _ _ Hre) as (H1 & H2 & H3). destruct (settings_wal _ _ H3) as [H4 _].
  exists E', mem, F, db, w, stop. split_and!; [eapply rep_grow; [done|lia|lia]| |done|by rewrite (mem_side_size e e' H1)|done| |by rewrite H3].
  - apply (wal_grow _ N); [|lia]. by apply (wal_side_rep mem N e).
  - intros k. by rewrite Hv', Hv.
Qed.

Lemma restart_stores thr tier B N e m :
  sane behind ideal faults → 0 < thr → 2 ≤ tier → room (tiers_ e) = true → N + 1 < 2 ^ 31 → stores thr tier B N e m →
  ∃ e', restart behind ideal faults coins e = (Val tt, e') ∧ stores thr tier (B + thr) (N + 1) e' m.
Proof.
  intros Hsane Hthr Htier Hroom HN (E & mem & F & db & w & stop & Hrep & Hwal & Hfr & HB & Hs & Hv & Hset).
  pose proof (mem_size_nonneg _ _ (rp_mem _ _ _ _ _ _ _ Hrep)). pose proof (rp_flushes _ _ _ _ _ _ _ Hrep).
  unfold settings in Hset. injection Hset as H1 H2 H3 H4 H5. unfold restart. rewrite H1, H2, H3, H4. destruct w.
  - destruct (Open_again behind ideal faults coins E mem F N (2 * N) e db thr tier true Hrep Hwal) as (e' & Eo & Hrep' & Hwal' & Hfr' & Hsz & Hset' & Hst);
      [lia|lia|done|]. rewrite Eo. exists e'. split; [done|].
    exists E, mem, F, db, true, false. split_and!; [eapply rep_grow; [done|lia|lia]|apply (wal_grow _ N); [done|lia]|by apply (fresh_numbered e)|lia|done| |done].
    intros k. by rewrite Hst.
  - destruct (Close_ok behind ideal faults coins E mem F N (2 * N) e Hsane Hrep Hwal) as (e1 & E' & Ec & Hrep1 & Hwal1 & Hfr1 & Hv1); [done|done|lia|lia|]. rewrite Ec.
    destruct (Open_again behind ideal faults coins E' [] (F + 1) N (2 * N + 2) e1 db thr tier false Hrep1 Hwal1) as (e' & Eo & Hrep' & Hwal' & Hfr' & Hsz & Hset' & Hst);
      [lia|lia|done|]. rewrite Eo. exists e'. split; [done|].
    exists E', [], (F + 1), db, false, false. split_and!; [eapply rep_grow; [done|lia|lia]|apply (wal_grow _ N); [done|lia]|by apply (fresh_numbered e1)|nia|done| |done].
    intros k. by rewrite Hst, Hv1, Hv.
Qed.

(** One event does what the specification says. *)
Lemma perform_ok thr tier B N e m ev :
  sane behind ideal faults → 0 < thr → 2 ≤ tier → N + 1 < 2 ^ 31 → room (tiers_ e) = true → valid ev → stores thr tier B N e m →
  ∃ e', perform behind ideal faults coins ev e = ((spec ev m).1, e') ∧ stores thr tier (B + cost thr ev) (N + 1) e' (spec ev m).2.
Proof.
  intros Hsane Hthr Htier HN Hroom Hval Hst. pose proof Hst as (_ & _ & _ & _ & _ & _ & _ & _ & _ & _ & Hs & _).
  destruct ev as [k v|k|k|k n| |]; cbn [spec perform cost valid] in *.
  - unfold Put. pose proof (ssize_nonneg v). destruct (Z.ltb_spec MAX_VALUE_SIZE (ssize v)) as [Hlong|Hshort].
    { exists e. split; [done|]. eapply stores_later; [exact Hst|lia|lia]. }
    destruct (write_stores thr tier B N e m k (Some v) _ _ (ins k v m) Hsane Hthr Htier HN Hroom (put_is_write k v Hval Hshort)) as (e' & Ew & Hst');
      [done|done|by apply sorted_ins|intros k'; rewrite look_ins by done; done|]. exists e'. split; [|done]. by rewrite (bind_Val _ _ _ _ _ Ew).
  - destruct (get_stores thr tier B N e m k Hst) as (e1 & Eg & Ht1 & Hst1). unfold Delete. rewrite bind_assoc, (bind_Val _ _ _ _ _ Eg).
    destruct (write_stores thr tier B N e1 m k None _ _ (del k m) Hsane Hthr Htier HN ltac:(by rewrite Ht1) (delete_is_write k Hval)) as (e' & Ew & Hst');
      [done|done|by apply sorted_del|intros k'; by rewrite look_del|]. exists e'. split; [|done].
    rewrite bind_assoc. unfold mbind, M_bind in Ew |- *. destruct (write_locked _ _ e1) as [[need| | |] e2]; try done. by rewrite Ew.
  - destruct (get_stores thr tier B N e m k Hst) as (e' & Eg & _ & Hst'). exists e'. split; [by mrun Eg|]. eapply stores_later; [exact Hst'|lia|lia].
  - destruct (scan_stores thr tier B N e m k n Hst) as (e' & Es & Hst'). exists e'. split; [exact Es|]. eapply stores_later; [exact Hst'|lia|lia].
  - destruct (compact_stores thr tier B N e m Hsane Htier Hroom HN Hst) as (r & e' & Ec & Hst'). exists e'. split; [by mrun Ec|].
    by rewrite Z.add_0_r.
  - destruct (restart_stores thr tier B N e m Hsane Hthr Htier Hroom HN Hst) as (e' & Er & Hst'). exists e'. split; [by mrun Er|done].
Qed.

Lemma cost_nonneg thr evs : 0 < thr → 0 ≤ cost_all thr evs.
Proof.
  intros Ht. unfold cost_all. induction evs as [|ev evs IH]; simpl; [done|].
  assert (0 ≤ cost thr ev); [|lia]. destruct ev as [k v|k|k|k n| |]; simpl; try lia. pose proof (ssize_nonneg v). lia.
Qed.

Lemma run_ok thr tier evs : ∀ B N e m,
  sane behind ideal faults → 0 < thr → 2 ≤ tier → N + Z.of_nat (length evs) < 2 ^ 31 → all_room behind ideal faults coins evs e = true →
  Forall valid evs → stores thr tier B N e m → run behind ideal faults coins evs e = spec_run evs m.
Proof.
  induction evs as [|ev evs IH]; intros B N e m Hsane Hthr Htier HN Hroom Hval Hst; [done|]. apply Forall_cons in Hval as [Hv Hval].
  simpl in HN. cbn [run spec_run all_room] in *. apply andb_true_iff in Hroom as [Hr Hroom].
  destruct (perform_ok thr tier B N e m ev Hsane Hthr Htier ltac:(lia) Hr Hv Hst) as (e' & Ep & Hst'). rewrite Ep in Hroom |- *.
  destruct (spec ev m) as [r m']. simpl in *. f_equal. apply (IH (B + cost thr ev) (N + 1)); [done|done|done|lia|done|done|done].
Qed.

(** Writes of fewer than 16 memtables leave room throughout. *)
Lemma room_ok thr tier evs : ∀ B N e m,
  sane behind ideal faults → 0 < thr → 2 ≤ tier → N + Z.of_nat (length evs) < 2 ^ 31 → B + cost_all thr evs < 16 * thr →
  Forall valid evs → stores thr tier B N e m → all_room behind ideal faults coins evs e = true.
Proof.
  induction evs as [|ev evs IH]; intros B N e m Hsane Hthr Htier HN HB Hval Hst; [done|]. apply Forall_cons in Hval as [Hv Hval].
  pose proof (cost_nonneg thr evs Hthr). pose proof (cost_nonneg thr [ev] Hthr). unfold cost_all in *. simpl in *.
  assert (room (tiers_ e) = true) as Hr.
  { destruct Hst as (E & mem & F & db & w & stop & Hrep & _ & _ & HF & _). pose proof (mem_size_nonneg _ _ (rp_mem _ _ _ _ _ _ _ Hrep)).
    apply (fits_room F); [apply (rp_fits _ _ _ _ _ _ _ Hrep)|nia]. }
  rewrite Hr. simpl. destruct (perform_ok thr tier B N e m ev Hsane Hthr Htier ltac:(lia) Hr Hv Hst) as (e' & -> & Hst').
  apply (IH (B + cost thr ev) (N + 1) e' (spec ev m).2); [done|done|done|lia|simpl; lia|done|done].
Qed.
End run_ok.
End LsmRuns.
