(* ===== verification/LsmProps.v ===== *)
(** * The LSM-tree engine: properties *)

From S2P Require Import Prelude Entries Bytes Structs Disk Replacer Buffer Engine Wal SkipList SkipListTheory MemTable Bloom SSTable SSTablePages SSTableFile SSTableTheory.
From S2P Require Import BTreeReopen LsmEngine LsmCursors LsmTiers LsmTheory LsmFlush LsmOps LsmReopen LsmRuns.

Module LsmProps.
Import SSTablePages SSTableFile LSMTreeEngine LsmCursors LsmTiers LsmTheory LsmFlush LsmOps LsmReopen LsmRuns.

(** ** Surroundings for the examples *)

Definition ex_behind : option Z → page_id_t → bytes := λ _ _, zeros PAGE_SIZE.
Definition ex_ideal : Z → Z * Z := λ n, (10 * n, 7).
Definition ex_faults : Z → list (option DiskManager.fault) := λ _, [].
Definition ex_coins : nat → list bool := λ _, [true; false; false; true; true].

Lemma ex_sane : sane ex_behind ex_ideal ex_faults.
Proof.
  split; [|unfold ex_ideal; simpl; lia|done]. intros id p. unfold ex_behind. rewrite blen_zeros; unfold PAGE_SIZE; lia.
Qed.

(** C4: an engine opened on no files answers every sequence of calls, compaction
    rounds and restarts as an ordered map does: puts, deletes, lookups and
    scans, the refusal of an oversize value included.  A restart is a crash
    when the write-ahead log is on, and a close otherwise; nothing is lost.
    The manifest page, which has 8 tiers of 16 tables, must have room for one
    table more in each tier and for one tier more when an event comes
    ([all_room]), or the engine throws; it has while fewer bytes than 16
    memtables hold are written, a restart counting as a memtable. *)
Theorem lsm_engine_refines_map behind ideal faults coins db thr tier w evs :
  sane behind ideal faults → 0 < thr → 2 ≤ tier → Forall valid evs → Z.of_nat (length evs) < 2 ^ 31 →
  ∃ e, Open behind faults coins db thr tier w no_files = (Val e, disk e) ∧
    (all_room behind ideal faults coins evs e = true → run behind ideal faults coins evs e = spec_run evs []) ∧
    (cost_all thr evs < 16 * thr → all_room behind ideal faults coins evs e = true).
Proof.
  intros Hsane Hthr Htier Hval Hlen.
  destruct (Open_fresh behind ideal faults coins db thr tier w Hsane) as (e & Eo & Hrep & Hwal & Hfr & Hsz & Ht & Hset).
  assert (stores ideal thr tier 0 0 e []) as Hst.
  { exists ∅, [], 0, db, w, false. split_and!; [done|done|done|lia|constructor| |done]. intros k. unfold stack. by rewrite Ht. }
  exists e. split_and!; [done| |].
  - intros Hroom. by apply (run_ok behind ideal faults coins thr tier evs 0 0 e []); [..|lia|done|done|done].
  - intros Hcost. by apply (room_ok behind ideal faults coins thr tier evs 0 0 e []); [..|lia|lia|done|done].
Qed.

Definition ex_events : list event :=
  [EPut 1 "one"; EPut 2 "two"; EDelete 1; EGet 1; ERestart; EScan INVALID_KEY 10; ECompact; EGet 2].

Lemma lsm_engine_refines_map_witness :
  ∃ e, Open ex_behind ex_faults ex_coins "db" 16 2 true no_files = (Val e, disk e) ∧
    run ex_behind ex_ideal ex_faults ex_coins ex_events e = spec_run ex_events [].
Proof.
  destruct (lsm_engine_refines_map ex_behind ex_ideal ex_faults ex_coins "db" 16 2 true ex_events) as (e & Eo & Hrun & Hroom).
  - exact ex_sane.
  - done.
  - done.
  - repeat constructor; done.
  - by vm_compute.
  - exists e. split; [exact Eo|]. apply Hrun, Hroom. by vm_compute.
Defined.

(** ** Tables *)

(** The entries from an iterator on. *)
Fixpoint collect (fuel : nat) (it : SSTable.Iterator) : M (SSTable.t (BufferPoolManager.t LRUKReplacer.t)) (list (KeyType * LSMValue)) :=
  match fuel with
  | O => SSTable.Release it;; mret []
  | S fuel =>
      if negb (SSTable.Valid it) then mret [] else
      let x := (SSTable.cached_key_ it, SSTable.cached_value_ it) in
      it ← SSTable.Next it;
      es ← collect fuel it;
      mret (x :: es)
  end.

Lemma collect_ok es fuel : ∀ it s rest,
  SSTableTheory.holds es (SSTableTheory.pin_of it) s → SSTableTheory.points es it rest → (length rest < fuel)%nat →
  ∃ s', collect fuel it s = (Val rest, s') ∧ SSTableTheory.holds es ∅ s'.
Proof.
  induction fuel as [|fuel IH]; intros it s rest Hh Hp Hf; [lia|]. cbn [collect]. destruct rest as [|[k v] rest].
  - simpl in Hp. unfold SSTable.Valid. rewrite Hp. unfold SSTableTheory.pin_of in Hh. rewrite Hp in Hh. by exists s.
  - rewrite <-(gmultiset.gmultiset_disj_union_left_id (SSTableTheory.pin_of it)) in Hh.
    destruct (SSTableTheory.table_Next_ok es ∅ s it (k, v) rest Hh Hp ltac:(done)) as (it' & s1 & E1 & Hp1 & Hh1).
    rewrite gmultiset.gmultiset_disj_union_left_id in Hh1. destruct Hp as (i & c & j & -> & _).
    destruct (IH it' s1 rest Hh1 Hp1 ltac:(simpl in Hf; lia)) as (s2 & E2 & H2). exists s2. unfold SSTable.Valid. cbn [SSTable.page_ negb].
    mrun E1. mrun E2. done.
Qed.

(** C16: a table built from sorted entries and opened again has exactly these
    entries: every lookup, through the Bloom filter and the sparse index, finds
    what is in them, and an iterator from any key yields those from that key on. *)
Theorem sstable_roundtrip behind ideal path es :
  mapped behind → sorted es → table_ok ideal es →
  ∃ f s, SSTable.Build behind ideal path es (DiskManager.File [] []) = (Val tt, f) ∧ SSTable.Open path f = (Val s, f) ∧
    (∀ k, (SSTable.Get k s).1 = Val (look k es)) ∧
    (∀ k, ((it ← SSTable.NewIterator k; collect (S (length es)) it) s).1 = Val (drop (lb k es) es)).
Proof.
  intros Hb Hs Hok. destruct (write_table_ok ideal behind path es Hb Hok) as (bloom & d & Hfl & Ew & Hh & Ht & _).
  destruct (SSTableTheory.table_Open_ok ideal path (DiskManager.fd_ d) es bloom Hh Hs Hok Hfl Ht) as (s & f' & Eo & Ed & Ef & Hhs & _).
  assert (f' = DiskManager.fd_ d) as -> by (unfold DiskManager.healthy in Hh; destruct f', (DiskManager.fd_ d); simpl in *; congruence).
  exists (DiskManager.fd_ d), s. split_and!; [|done| |].
  - unfold SSTable.Build. rewrite (Open_disk _ (DiskManager.File [] []) eq_refl).
    change (pages_in (blen (DiskManager.f_data (DiskManager.File [] [])))) with 0. by rewrite Ew.
  - intros k. by destruct (SSTableTheory.table_Get_ok es ∅ s k Hhs ltac:(done)) as (s' & -> & _).
  - intros k. destruct (SSTableTheory.NewIterator_ok es ∅ s k Hhs ltac:(done)) as (it & s1 & E1 & Hp & Hh1).
    rewrite gmultiset.gmultiset_disj_union_left_id in Hh1. mrun E1.
    destruct (collect_ok es (S (length es)) it s1 _ Hh1 Hp) as (s2 & -> & _); [|done]. rewrite length_drop. lia.
Qed.

Definition ex_entries : list (KeyType * LSMValue) := [(-3, LSM_Value "x"); (4, LSM_Tombstone); (9, LSM_Value "yy")].

Lemma sstable_roundtrip_witness :
  ∃ f s, SSTable.Build (ex_behind None) ex_ideal "t" ex_entries (DiskManager.File [] []) = (Val tt, f) ∧ SSTable.Open "t" f = (Val s, f) ∧
    (∀ k, (SSTable.Get k s).1 = Val (look k ex_entries)) ∧
    (∀ k, ((it ← SSTable.NewIterator k; collect (S (length ex_entries)) it) s).1 = Val (drop (lb k ex_entries) ex_entries)).
Proof.
  apply (sstable_roundtrip (ex_behind None) ex_ideal "t" ex_entries).
  - apply ex_sane.
  - repeat constructor.
  - split; [|done|done]. intros e He. repeat (apply elem_of_cons in He as [->|He]; [by split|]). by apply elem_of_nil in He.
Defined.

(** C18: a Bloom filter never denies a key that was added, whatever sizes the
    sizing formulas gave it, and always answers. *)
Theorem bloom_no_false_negatives m k keys :
  ∃ f, BloomFilter.add_all keys (BloomFilter.New m k) = Val f ∧
    (∀ key, key ∈ keys → BloomFilter.MightContain key f = Val true) ∧ ∀ key, ∃ b, BloomFilter.MightContain key f = Val b.
Proof.
  destruct (BloomFilter.add_all_ok keys (BloomFilter.New m k) (BloomFilter.New_wf m k)) as (f & E & Hf & _ & Hk).
  exists f. split_and!; [done|done|]. intros key. by apply BloomFilter.test_hashes_total.
Qed.

(** ** Interleavings and crashes inside a flush *)

Section races.
Context (behind : option Z → page_id_t → bytes) (ideal : Z → Z * Z).
Context (faults : Z → list (option DiskManager.fault)) (coins : nat → list bool).

(** The files [fs], opened with the settings of [e] and the log on, answer [f]. *)
Definition reopens (e : t) (fs : files) (f : KeyType → option string) : Prop :=
  ∃ e', Open behind faults coins (db_path_ e) (flush_threshold_bytes_ e) (tier_threshold_ e) true fs = (Val e', disk e') ∧
    ∀ k, (Get k e').1 = Val (f k).

Lemma Get_answer E mem F W K e k : rep ideal E mem F W K e → (Get k e).1 = Val (view (stack E mem e) k).
Proof using ideal faults. intros Hrep. by destruct (Get_rep ideal faults E mem F W K e k Hrep) as (e' & -> & _). Qed.

(** A lookup while another thread flushes misses what is in the memtable: it has
    been taken away and its table is not yet in the tiers. *)
Theorem lsm_get_misses_flush E mem F W K e k :
  rep ideal E mem F W K e → wal_rep mem W e →
  (Get k e).1 = Val (view (mem :: (content E <$> concat (tiers_ e))) k) ∧
  ((_ ← flush_rotate coins; Get k) e).1 = Val (view (content E <$> concat (tiers_ e)) k).
Proof using ideal faults.
  intros Hrep Hwal. split; [by apply (Get_answer E mem F W K)|].
  destruct (flush_rotate_ok coins mem W e (rp_mem _ _ _ _ _ _ _ Hrep) Hwal) as (e1 & gen & m & E1 & Hs1 & _ & _ & _ & Hm1 & _).
  mrun E1. unfold table_side in Hs1. injection Hs1 as H1 H2 _ _ _ _ _ _.
  destruct (Get_open ideal faults E [] e1 k Hm1) as (e2 & -> & _).
  - intros id es HE. unfold open_table. rewrite H2. by apply (rep_open ideal E mem F W K e).
  - intros id. rewrite H1. apply (tr_dom _ _ _ _ _ _ (rp_tables _ _ _ _ _ _ _ Hrep)).
  - unfold stack. by rewrite H1.
Qed.


(** C34: with the write-ahead log on, a crash in a flush loses nothing as long as
    the log of the memtable is there, the table on disk or not.  A crash after
    the flush has removed that log and before it has written the manifest loses
    every write of the memtable: a restart answers from the tables alone. *)
Theorem lsm_crash_in_flush_loses_writes E mem F W K e :
  sane behind ideal faults → rep ideal E mem F W K e → wal_rep mem W e → fresh e → wal_enabled_ e = true → W < 2 ^ 31 → K < 2 ^ 62 →
  let T := content E <$> concat (tiers_ e) in
  ∃ gen e2 e3, flush_until_built behind ideal faults coins e = (Val gen, e2) ∧ flush_retire gen e2 = (Val tt, e3) ∧
    reopens e (disk e) (view (mem :: T)) ∧ reopens e (disk e2) (view (mem :: T)) ∧ reopens e (disk e3) (view T).
Proof using Type.
  intros Hsane Hrep Hwal Hfr Hen HW HK T.
  destruct (crash_in_flush behind ideal faults coins E mem F W K e (db_path_ e) (flush_threshold_bytes_ e) (tier_threshold_ e))
    as (gen & e2 & e3 & E2 & E3 & (e' & f & Eo & Hrep' & _ & _ & _ & _ & _ & _ & _ & Hst) & (e'' & Eo' & Hrep'' & Hst')); try done.
  destruct (Open_again behind ideal faults coins E mem F W K e (db_path_ e) (flush_threshold_bytes_ e) (tier_threshold_ e) true Hrep Hwal)
    as (e1 & Eo1 & Hrep1 & _ & _ & _ & _ & Hst1); try done.
  exists gen, e2, e3. split_and!; [done|done|exists e1|exists e'|exists e'']; (split; [done|]); intros k.
  - by rewrite (Get_answer _ _ _ _ _ _ _ Hrep1), Hst1.
  - by rewrite (Get_answer _ _ _ _ _ _ _ Hrep'), Hst.
  - by rewrite (Get_answer _ _ _ _ _ _ _ Hrep''), Hst'.
Qed.

(** C35: a crash after a flush has built its table and before the manifest names it
    leaves a table file behind.  The next flush uses the same id, appends to that
    file and reads back the old table.  So the [Put] that brings this flush
    about is acknowledged and has no effect: every lookup answers as before the
    crash. *)
Theorem lsm_leftover_table_shadows E mem F W K e k v :
  sane behind ideal faults → rep ideal E mem F W K e → wal_rep mem W e → fresh e → wal_enabled_ e = true → W + 1 < 2 ^ 31 → K < 2 ^ 62 →
  room (tiers_ e) = true → 2 ≤ tier_threshold_ e → is_i64 k → ssize v ≤ MAX_VALUE_SIZE → flush_threshold_bytes_ e ≤ mem_size e + (8 + ssize v) →
  ∃ gen e2 e3 e4, flush_until_built behind ideal faults coins e = (Val gen, e2) ∧
    Open behind faults coins (db_path_ e) (flush_threshold_bytes_ e) (tier_threshold_ e) true (disk e2) = (Val e3, disk e3) ∧
    Put behind ideal faults coins k v e3 = (Val tt, e4) ∧ ∀ k', (Get k' e4).1 = (Get k' e).1.
Proof using Type.
  intros Hsane Hrep Hwal Hfr Hen HW HK Hroom Hth Hk Hv Hfull. set (T := content E <$> concat (tiers_ e)).
  destruct (crash_in_flush behind ideal faults coins E mem F W K e (db_path_ e) (flush_threshold_bytes_ e) (tier_threshold_ e))
    as (gen & e2 & _ & E2 & _ & (e3 & f & Eo & Hrep3 & Hwal3 & Hn3 & Hf & Hsz & Hr3 & Hms3 & Hset3 & Hst3) & _); try done; [lia|].
  destruct (write_locked_ok ideal faults E mem F W K e3 k (Some v) _ _ (put_is_write k v Hk Hv) ltac:(by split) Hrep3 Hwal3)
    as (e3' & Ew & Hrep3' & Hwal3' & Hms' & Hset' & Hts'); [lia|].
  unfold settings in Hset3. injection Hset3 as _ Hthr3 Htier3 _ _. pose proof (numbered_side _ _ Hts') as Hn'. rewrite Hn3 in Hn'.
  unfold numbered in Hn'. injection Hn' as Hid' Hsst'. unfold table_side in Hts'. injection Hts' as Ht' _. destruct (settings_wal _ _ Hset') as [_ Htier'].
  assert (HT : content E <$> concat (tiers_ e3') = T) by (unfold stack in Hst3; injection Hst3 as Hst3; by rewrite Ht').
  destruct (Flush_leftover behind ideal faults coins E (ins k (LSM_Value v) mem) mem F (W + 1) K e3' f) as (e4 & E' & F' & K' & Ef & Hrep4 & Hv4); try done.
  - by rewrite Hsst', Hid', lookup_insert_eq.
  - rewrite HT. pose proof (rp_total _ _ _ _ _ _ _ Hrep) as Hto. fold T in Hto. lia.
  - intros id. rewrite Hid', Hsst'. intros Hlt. rewrite lookup_insert_ne by lia. apply Hfr. lia.
  - clear. destruct mem as [|[k0 v0] mem]; simpl; repeat case_match; done.
  - rewrite Ht'. by apply Hr3.
  - by rewrite Htier', Htier3.
  - exists gen, e2, e3, e4. split_and!; [done|done| |].
    + unfold Put. rewrite (proj2 (Z.ltb_ge _ _)) by done. mrun Ew. rewrite Hthr3, Hms', Hms3. unfold write_size.
      by rewrite (proj2 (Z.leb_le _ _)).
    + intros k'. rewrite (Get_answer _ _ _ _ _ _ _ Hrep4), (Get_answer _ _ _ _ _ _ _ Hrep), Hv4, HT. done.
Qed.
End races.

(** An engine with one write in its memtable. *)
Lemma ex_state :
  ∃ e0 e, Open ex_behind ex_faults ex_coins "db" 16 2 true no_files = (Val e0, disk e0) ∧
    write_locked (put_record 1 "a") (MemTable.Put 1 "a") e0 = (Val false, e) ∧
    rep ex_ideal ∅ [(1, LSM_Value "a")] 0 1 0 e ∧ wal_rep [(1, LSM_Value "a")] 1 e ∧ fresh e ∧ wal_enabled_ e = true ∧ tiers_ e = [] ∧
    mem_size e = 9 ∧ flush_threshold_bytes_ e = 16 ∧ tier_threshold_ e = 2.
Proof.
  destruct (Open_fresh ex_behind ex_ideal ex_faults ex_coins "db" 16 2 true ex_sane) as (e0 & Eo & Hrep & Hwal & Hfr & Hsz & Ht & Hset).
  destruct (write_locked_ok ex_ideal ex_faults ∅ [] 0 0 0 e0 1 (Some "a"%string) (put_record 1 "a") (MemTable.Put 1 "a"))
    as (e & Ew & Hrep' & Hwal' & Hsz' & Hset' & Hts); [by apply put_is_write|by split|done|done|done|].
  unfold settings in Hset. injection Hset as _ Hthr Htier Hen _. rewrite Hsz', Hsz, Hthr in Ew.
  exists e0, e. split_and!; [done|exact Ew|done|done|by apply (fresh_side e0)| | |by rewrite Hsz', Hsz| |].
  - unfold settings in Hset'. injection Hset' as _ _ _ -> _. done.
  - unfold table_side in Hts. by injection Hts as -> _.
  - unfold settings in Hset'. injection Hset' as _ -> _ _ _. done.
  - unfold settings in Hset'. injection Hset' as _ _ -> _ _. done.
Qed.



Lemma lsm_crash_in_flush_loses_writes_witness :
  ∃ e0 e gen e2 e3, Open ex_behind ex_faults ex_coins "db" 16 2 true no_files = (Val e0, disk e0) ∧
    write_locked (put_record 1 "a") (MemTable.Put 1 "a") e0 = (Val false, e) ∧
    flush_until_built ex_behind ex_ideal ex_faults ex_coins e = (Val gen, e2) ∧ flush_retire gen e2 = (Val tt, e3) ∧
    reopens ex_behind ex_faults ex_coins e (disk e2) (view [[(1, LSM_Value "a")]]) ∧ reopens ex_behind ex_faults ex_coins e (disk e3) (λ _, None).
Proof.
  destruct ex_state as (e0 & e & Eo & Ew & Hrep & Hwal & Hfr & Hen & Ht & _).
  destruct (lsm_crash_in_flush_loses_writes ex_behind ex_ideal ex_faults ex_coins ∅ [(1, LSM_Value "a")] 0 1 0 e ex_sane Hrep Hwal Hfr Hen)
    as (gen & e2 & e3 & E2 & E3 & _ & H2 & H3).
  - done.
  - done.
  - rewrite Ht in H2, H3. exists e0, e, gen, e2, e3. split_and!; done.
Defined.

Lemma lsm_leftover_table_shadows_witness :
  ∃ e gen e2 e3 e4, flush_until_built ex_behind ex_ideal ex_faults ex_coins e = (Val gen, e2) ∧
    Open ex_behind ex_faults ex_coins (db_path_ e) (flush_threshold_bytes_ e) (tier_threshold_ e) true (disk e2) = (Val e3, disk e3) ∧
    Put ex_behind ex_ideal ex_faults ex_coins 2 "b" e3 = (Val tt, e4) ∧ (Get 1 e4).1 = Val (Some "a"%string) ∧ (Get 2 e4).1 = Val None.
Proof.
  destruct ex_state as (_ & e & _ & _ & Hrep & Hwal & Hfr & Hen & Ht & Hsz & Hthr & Htier). exists e.
  destruct (lsm_leftover_table_shadows ex_behind ex_ideal ex_faults ex_coins ∅ [(1, LSM_Value "a")] 0 1 0 e 2 "b" ex_sane Hrep Hwal Hfr Hen)
    as (gen & e2 & e3 & e4 & E2 & Eo & Ep & Hg).
  - done.
  - done.
  - by rewrite Ht.
  - by rewrite Htier.
  - done.
  - done.
  - by rewrite Hthr, Hsz.
  - exists gen, e2, e3, e4. rewrite !Hg, !(Get_answer ex_ideal ex_faults _ _ _ _ _ _ _ Hrep). unfold stack. rewrite Ht. split_and!; done.
Defined.

(** C37: the page structs of a table are shorter than a page, and the disk manager
    reads a whole page from each: without memory of its own behind the struct
    on the stack, building any table of at least one entry is undefined. *)
Theorem sstable_build_overreads ideal path e es :
  table_ok ideal (e :: es) → (SSTable.Build (λ _, []) ideal path (e :: es) (DiskManager.File [] [])).1 = Undef.
Proof.
  intros Hok. destruct (filter_ok ideal _ Hok) as (bloom & Hfill & _).
  destruct (SSTable.chunks SSTable.kMaxEntriesPerDataPage (e :: es)) as [|c cs] eqn:Ec.
  { by apply chunks_nil in Ec; [|vm_compute; lia]. }
  assert (Hc : c ∈ SSTable.chunks SSTable.kMaxEntriesPerDataPage (e :: es)) by (rewrite Ec; left).
  destruct (chunk_size SSTable.kMaxEntriesPerDataPage (e :: es) c ltac:(vm_compute; lia) Hc) as [_ Hl].
  assert (He : ∀ x, x ∈ c → entry_ok x).
  { intros x Hx. apply (tk_entries _ _ Hok). by apply (chunk_elem SSTable.kMaxEntriesPerDataPage (e :: es) c); [vm_compute; lia|..]. }
  assert (Hw : ∀ p d, DiskManager.valid_id p → SSTable.write_struct (λ _, []) p (SSTable.data_page c) d = (Undef, d)).
  { intros p d Hp. unfold SSTable.write_struct, DiskManager.WritePage, mbind, M_bind.
    rewrite DiskManager.offset_of_ok by done. by rewrite app_nil_r, blen_data_page by done. }
  unfold SSTable.Build. rewrite (Open_disk _ (DiskManager.File [] []) eq_refl).
  unfold SSTable.write_table. rewrite Ec, Hfill. unfold SSTable.lift. cbn [fmap list_fmap SSTable.write_pages].
  assert (Ea : ∀ d, DiskManager.AllocatePage d = (Val (DiskManager.next_page_id_ d), alloc d)) by done.
  unfold mbind, M_bind. rewrite Ea. cbv beta iota. rewrite Ea. cbv beta iota. by rewrite Hw.
Qed.

Lemma sstable_build_overreads_witness : (SSTable.Build (λ _, []) ex_ideal "t" ex_entries (DiskManager.File [] [])).1 = Undef.
Proof.
  apply (sstable_build_overreads ex_ideal "t").
  split; [|done|done]. intros e He. repeat (apply elem_of_cons in He as [->|He]; [by split|]). by apply elem_of_nil in He.
Defined.
End LsmProps.
