(* ===== verification/WalEngine.v ===== *)
(** * WALBPlusTreeEngine (wal/wal_b_plus_tree_engine.h, wal_b_plus_tree_engine.cpp)

    A B+-tree engine with a logical write-ahead log: transactions, undo by
    compensation records, sharp checkpoints, and recovery when it is opened.
    The order in which an [unordered_map] is walked is unspecified: [order]
    gives it, and may differ from one walk to the next. *)

From S2P Require Import Prelude Entries Bytes Disk Replacer Buffer TreePages BTree Engine BTreeEngine Wal.

Module WALBPlusTreeEngine.

Abbreviation pool := (BufferPoolManager.t LRUKReplacer.t) (only parsing).
Abbreviation tree := (BPlusTree.t (BufferPoolManager.t LRUKReplacer.t)) (only parsing).

Definition kMetaPageId : page_id_t := 0.

(** [MetaPage]: the root, then the last checkpoint. *)
Definition meta_root (d : bytes) : page_id_t := get_i64 d 0.
Definition set_meta_root (p : page_id_t) (d : bytes) : bytes := put64 d 0 p.
Definition meta_checkpoint (d : bytes) : Z := get_i64 d 8.
Definition set_meta_checkpoint (lsn : Z) (d : bytes) : bytes := put64 d 8 lsn.

Record UndoEntry := mkUndo {
  u_op : Z;
  u_key : KeyType;
  u_has_old_value : bool;
  u_old_value : string;
  u_undo_next_lsn : Z;
}.

Record TxnState := mkTxn {
  last_lsn : Z;
  undo_log : list UndoEntry;
}.

(** [log_manager_] is null without a log; [mutex_] makes the calls atomic. *)
Record t := mk {
  tree_ : tree;
  log_manager_ : option LogManager.t;
  wal_enabled_ : bool;
  checkpoint_interval_txns_ : Z;
  txns_since_checkpoint_ : Z;
  checkpoint_count_ : Z;
  next_txn_id_ : Z;
  active_txns_ : gmap Z TxnState;
}.

Definition set_tree (tr : tree) (e : t) : t :=
  mk tr (log_manager_ e) (wal_enabled_ e) (checkpoint_interval_txns_ e) (txns_since_checkpoint_ e) (checkpoint_count_ e) (next_txn_id_ e) (active_txns_ e).
Definition set_log (l : LogManager.t) (e : t) : t :=
  mk (tree_ e) (Some l) (wal_enabled_ e) (checkpoint_interval_txns_ e) (txns_since_checkpoint_ e) (checkpoint_count_ e) (next_txn_id_ e) (active_txns_ e).
Definition set_since (n : Z) (e : t) : t :=
  mk (tree_ e) (log_manager_ e) (wal_enabled_ e) (checkpoint_interval_txns_ e) n (checkpoint_count_ e) (next_txn_id_ e) (active_txns_ e).
Definition set_count (n : Z) (e : t) : t :=
  mk (tree_ e) (log_manager_ e) (wal_enabled_ e) (checkpoint_interval_txns_ e) (txns_since_checkpoint_ e) n (next_txn_id_ e) (active_txns_ e).
Definition set_next_txn (n : Z) (e : t) : t :=
  mk (tree_ e) (log_manager_ e) (wal_enabled_ e) (checkpoint_interval_txns_ e) (txns_since_checkpoint_ e) (checkpoint_count_ e) n (active_txns_ e).
Definition set_active (m : gmap Z TxnState) (e : t) : t :=
  mk (tree_ e) (log_manager_ e) (wal_enabled_ e) (checkpoint_interval_txns_ e) (txns_since_checkpoint_ e) (checkpoint_count_ e) (next_txn_id_ e) m.

(** Calls on the members; a call on the null log is undefined. *)
Definition on_tree {A} (m : M tree A) : M t A := λ e, let '(r, x) := m (tree_ e) in (r, set_tree x e).
Definition on_log {A} (m : M LogManager.t A) : M t A := λ e,
  match log_manager_ e with
  | None => (Undef, e)
  | Some l => let '(r, x) := m l in (r, set_log x e)
  end.
Definition lift {A} (r : res A) : M t A := λ e, (r, e).

(** ** Helpers *)

(** The operation that reverses a logged one, its value, and whether it has one. *)
Definition ComputeCompensation (original_op : Z) (has_old_value : bool) (old_value : string) : Z * string * bool :=
  if original_op =? LogOpType.PUT then
    if has_old_value then (LogOpType.PUT, old_value, true) else (LogOpType.DELETE, EmptyString, false)
  else (LogOpType.PUT, old_value, true).

Section meta.
Context {S : Type} `{!Pool S}.

(** The constructor's access to page 0. *)
Definition load_meta (num_pages : Z) : M S page_id_t :=
  if num_pages =? 0 then
    meta ← pool_new;
    match meta with
    | None => undefined
    | Some meta_id =>
        d ← pool_read meta_id;
        pool_write meta_id (set_meta_checkpoint (-1) (set_meta_root INVALID_PAGE_ID d));;
        _ ← pool_unpin meta_id true;
        mret INVALID_PAGE_ID
    end
  else
    ok ← pool_fetch kMetaPageId;
    if ok : bool then
      d ← pool_read kMetaPageId;
      _ ← pool_unpin kMetaPageId false;
      mret (meta_root d)
    else undefined.

(** [MaybeUpdateRootPageId], on the tree and its pool. *)
Definition update_root : M (BPlusTree.t S) () :=
  BPlusTree.fetch kMetaPageId;;
  mp ← BPlusTree.read kMetaPageId;
  tr ← get;
  let changed := negb (meta_root mp =? BPlusTree.root_page_id_ tr) in
  (if changed then BPlusTree.write kMetaPageId (set_meta_root (BPlusTree.root_page_id_ tr) mp) else mret tt);;
  BPlusTree.unpin kMetaPageId changed.

(** The checkpoint's record in page 0, before it is flushed. *)
Definition record_checkpoint (begin_lsn : Z) : M (BPlusTree.t S) () :=
  BPlusTree.fetch kMetaPageId;;
  mp ← BPlusTree.read kMetaPageId;
  BPlusTree.write kMetaPageId (set_meta_checkpoint begin_lsn mp);;
  BPlusTree.unpin kMetaPageId true.

(** Recovery's look at it. *)
Definition read_checkpoint : M (BPlusTree.t S) Z :=
  BPlusTree.fetch kMetaPageId;;
  mp ← BPlusTree.read kMetaPageId;
  BPlusTree.unpin kMetaPageId false;;
  mret (meta_checkpoint mp).
End meta.

Definition MaybeUpdateRootPageId : M t () := on_tree update_root.

(** Applying an operation to the tree. *)
Definition apply (op : Z) (key : KeyType) (value : string) : M t () :=
  (if op =? LogOpType.PUT
   then _ ← on_tree (BPlusTree.Insert tree_fuel key value); mret tt
   else _ ← on_tree (BPlusTree.Remove tree_fuel key); mret tt);;
  MaybeUpdateRootPageId.

Definition set_txn (txn_id : Z) (f : TxnState → TxnState) : M t () :=
  modify (λ e, set_active (alter f txn_id (active_txns_ e)) e).

(** ** Checkpoints *)

Section engine.
Context (order : Z → list Z → list Z).

(** The entries of an [unordered_map] in the order of a walk. *)
Definition walk {A} (time : Z) (m : gmap Z A) : list (Z * A) :=
  omap (λ k, pair k <$> m !! k) (order time (map_to_list m).*1).

Fixpoint log_active (l : list (Z * TxnState)) : M t () :=
  match l with
  | [] => mret tt
  | (txn_id, state) :: l =>
      _ ← on_log (LogManager.Append (LogRecord.set_active txn_id (last_lsn state)
            (LogRecord.set_header (-1) LogRecordType.ACTIVE_TXN (-1) LogRecord.init)));
      log_active l
  end.

Definition DoCheckpoint : M t () :=
  on_tree (BPlusTree.bpm BufferPoolManager.FlushAllPages);;
  begin_lsn ← on_log (LogManager.Append (LogRecord.set_header (-1) LogRecordType.CHECKPOINT_BEGIN (-1) LogRecord.init));
  e ← get;
  log_active (walk begin_lsn (active_txns_ e));;
  _ ← on_log (LogManager.Append (LogRecord.set_header (-1) LogRecordType.CHECKPOINT_END (-1) LogRecord.init));
  on_log LogManager.Flush;;
  on_tree (record_checkpoint begin_lsn);;
  _ ← on_tree (BPlusTree.bpm (BufferPoolManager.FlushPage kMetaPageId));
  modify (λ e, set_count (checkpoint_count_ e + 1) e).

(** [++txns_since_checkpoint_], an [int], and the checkpoint that may be due. *)
Definition finish_txn : M t () :=
  e ← get;
  if txns_since_checkpoint_ e =? 2 ^ 31 - 1 then undefined else
  modify (set_since (txns_since_checkpoint_ e + 1));;
  if wal_enabled_ e && (checkpoint_interval_txns_ e <=? txns_since_checkpoint_ e + 1) then
    DoCheckpoint;;
    modify (set_since 0)
  else mret tt.

(** ** Transactions *)

Definition Begin : M t Z :=
  e ← get;
  let txn_id := next_txn_id_ e in
  modify (set_next_txn (txn_id + 1));;
  lsn ← (if wal_enabled_ e
         then on_log (LogManager.Append (LogRecord.set_header txn_id LogRecordType.BEGIN (-1) LogRecord.init))
         else mret (-1));
  modify (λ e, set_active (match active_txns_ e !! txn_id with
                           | Some _ => active_txns_ e
                           | None => <[txn_id := mkTxn lsn []]> (active_txns_ e)
                           end) e);;
  mret txn_id.

(** The transaction, or the exception of the method [who]. *)
Definition find_txn (who : string) (txn_id : Z) : M t TxnState :=
  e ← get;
  match active_txns_ e !! txn_id with
  | Some state => mret state
  | None => throw (RuntimeError ("WALBPlusTreeEngine::" +:+ who +:+ ": unknown or already-finished transaction"))
  end.

Definition update_record (txn_id op : Z) (key : KeyType) (prev_lsn : Z) (old new : option string) : res LogRecord.t :=
  let r := LogRecord.set_op op key (LogRecord.set_header txn_id LogRecordType.UPDATE prev_lsn LogRecord.init) in
  r ← match old with Some v => LogRecord.SetOldValue v r | None => Val r end;
  match new with Some v => LogRecord.SetNewValue v r | None => Val r end.

(** Logging an update, and remembering how to undo it. *)
Definition log_update (txn_id op : Z) (key : KeyType) (old new : option string) (state : TxnState) : M t () :=
  e ← get;
  (if wal_enabled_ e then
     rec ← lift (update_record txn_id op key (last_lsn state) old new);
     lsn ← on_log (LogManager.Append rec);
     set_txn txn_id (λ s, mkTxn lsn (undo_log s))
   else mret tt);;
  set_txn txn_id (λ s, mkTxn (last_lsn s)
    (undo_log s ++ [mkUndo op key (bool_decide (is_Some old)) (default EmptyString old) (last_lsn state)])).

Definition PutTxn (txn_id : Z) (key : KeyType) (value : string) : M t () :=
  if MAX_VALUE_SIZE <? ssize value
  then throw (InvalidArgument "WALBPlusTreeEngine::Put: value exceeds MAX_VALUE_SIZE")
  else
    state ← find_txn "Put" txn_id;
    old ← on_tree (BPlusTree.GetValue tree_fuel key);
    log_update txn_id LogOpType.PUT key old (Some value) state;;
    _ ← on_tree (BPlusTree.Insert tree_fuel key value);
    MaybeUpdateRootPageId.

Definition DeleteTxn (txn_id : Z) (key : KeyType) : M t bool :=
  state ← find_txn "Delete" txn_id;
  old ← on_tree (BPlusTree.GetValue tree_fuel key);
  match old with
  | None => mret false
  | Some old_value =>
      log_update txn_id LogOpType.DELETE key (Some old_value) None state;;
      _ ← on_tree (BPlusTree.Remove tree_fuel key);
      MaybeUpdateRootPageId;;
      mret true
  end.

Definition GetTxn (txn_id : Z) (key : KeyType) : M t (option string) :=
  _ ← find_txn "Get" txn_id;
  on_tree (BPlusTree.GetValue tree_fuel key).

Definition Commit (txn_id : Z) : M t () :=
  state ← find_txn "Commit" txn_id;
  e ← get;
  (if wal_enabled_ e then
     _ ← on_log (LogManager.Append (LogRecord.set_header txn_id LogRecordType.COMMIT (last_lsn state) LogRecord.init));
     on_log LogManager.Flush
   else mret tt);;
  modify (λ e, set_active (delete txn_id (active_txns_ e)) e);;
  finish_txn.

Definition clr (txn_id op : Z) (key : KeyType) (prev_lsn undo_next_lsn : Z) (value : string) (has_value : bool) : res LogRecord.t :=
  let r := LogRecord.set_undo_next undo_next_lsn
    (LogRecord.set_op op key (LogRecord.set_header txn_id LogRecordType.CLR prev_lsn LogRecord.init)) in
  if has_value then LogRecord.SetNewValue value r else Val r.

(** The loop of [Abort], over the undo log from its end. *)
Fixpoint undo_entries (txn_id : Z) (entries : list UndoEntry) (last_lsn : Z) : M t () :=
  match entries with
  | [] => mret tt
  | entry :: entries =>
      let '(comp_op, comp_value, comp_has_value) := ComputeCompensation (u_op entry) (u_has_old_value entry) (u_old_value entry) in
      apply comp_op (u_key entry) comp_value;;
      e ← get;
      last_lsn ← (if wal_enabled_ e then
          rec ← lift (clr txn_id comp_op (u_key entry) last_lsn (u_undo_next_lsn entry) comp_value comp_has_value);
          on_log (LogManager.Append rec)
        else mret last_lsn);
      undo_entries txn_id entries last_lsn
  end.

Definition Abort (txn_id : Z) : M t () :=
  state ← find_txn "Abort" txn_id;
  modify (λ e, set_active (delete txn_id (active_txns_ e)) e);;
  e ← get;
  last_lsn ← (if wal_enabled_ e
    then on_log (LogManager.Append (LogRecord.set_header txn_id LogRecordType.ABORT (last_lsn state) LogRecord.init))
    else mret (last_lsn state));
  undo_entries txn_id (reverse (undo_log state)) last_lsn;;
  (if wal_enabled_ e then on_log LogManager.Flush else mret tt);;
  finish_txn.

(** ** The interface of a storage engine: each write a transaction of its own *)

Definition Get (key : KeyType) : M t (option string) := on_tree (BPlusTree.GetValue tree_fuel key).

Definition Put (key : KeyType) (value : string) : M t () :=
  txn_id ← Begin;
  PutTxn txn_id key value;;
  Commit txn_id.

Definition Delete (key : KeyType) : M t bool :=
  txn_id ← Begin;
  existed ← DeleteTxn txn_id key;
  Commit txn_id;;
  mret existed.

Definition Scan (start_key : KeyType) : M t BPlusTree.Iterator :=
  on_tree (if start_key =? INVALID_KEY then BPlusTree.Begin tree_fuel else BPlusTree.Begin_at tree_fuel start_key).

(** [WALBPlusTreeStorageIterator] *)
Definition IsValid (it : BPlusTree.Iterator) : bool := negb (BPlusTree.IsEnd it).
Definition Next (it : BPlusTree.Iterator) : M t BPlusTree.Iterator := on_tree (BPlusTree.Next it).
Definition GetKey (it : BPlusTree.Iterator) : M t KeyType := on_tree (BPlusTree.GetKey it).
Definition GetValue (it : BPlusTree.Iterator) : M t string := on_tree (BPlusTree.it_GetValue it).
Definition Destroy (it : BPlusTree.Iterator) : M t () := on_tree (BPlusTree.Release it).

Definition GetLogSizeBytes (e : t) : res Z :=
  if wal_enabled_ e then match log_manager_ e with Some l => Val (LogManager.GetLogSizeBytes l) | None => Undef end else Val 0.

(** ** Recovery *)

(** The records between a checkpoint's begin and its end; [None] when they are
    malformed. *)
Fixpoint read_bracket (fuel : nat) (lsn : Z) (candidate : list (Z * Z)) : M LogManager.t (option (list (Z * Z))) :=
  match fuel with
  | O => mret None
  | S fuel =>
      rec ← LogManager.ReadRecord lsn;
      if LogRecord.type rec =? LogRecordType.ACTIVE_TXN
      then read_bracket fuel (lsn + 1) (candidate ++ [(LogRecord.active_txn_id rec, LogRecord.active_txn_last_lsn rec)])
      else if LogRecord.type rec =? LogRecordType.CHECKPOINT_END then mret (Some candidate)
      else mret None
  end.

Definition min_lsn (begin_lsn : Z) (active : list (Z * Z)) : Z :=
  foldl (λ m x, if (0 <=? x.2) && (x.2 <? m) then x.2 else m) begin_lsn active.

(** Where redo starts, and the transactions the checkpoint found active. *)
Definition find_checkpoint (begin_lsn : Z) : M LogManager.t (Z * list (Z * Z)) :=
  l ← get;
  let next_lsn := LogManager.GetNextLsn l in
  if negb ((0 <=? begin_lsn) && (begin_lsn <? next_lsn)) then mret (0, []) else
  rec ← LogManager.ReadRecord begin_lsn;
  if negb (LogRecord.type rec =? LogRecordType.CHECKPOINT_BEGIN) then mret (0, []) else
  found ← read_bracket (Z.to_nat (next_lsn - (begin_lsn + 1))) (begin_lsn + 1) [];
  mret match found with
       | Some active => (min_lsn begin_lsn active, active)
       | None => (0, [])
       end.

Definition analyse (active : gmap Z Z) (rec : LogRecord.t) : gmap Z Z :=
  let ty := LogRecord.type rec in
  if (ty =? LogRecordType.BEGIN) || (ty =? LogRecordType.UPDATE) || (ty =? LogRecordType.CLR)
  then <[LogRecord.txn_id rec := LogRecord.lsn rec]> active
  else if ty =? LogRecordType.COMMIT then delete (LogRecord.txn_id rec) active
  else active.

Definition seed (checkpoint_active_txns : list (Z * Z)) : gmap Z Z :=
  foldl (λ m x, <[x.1 := x.2]> m) ∅ checkpoint_active_txns.

Definition redo_record (rec : LogRecord.t) : M t () :=
  if (LogRecord.type rec =? LogRecordType.UPDATE) || (LogRecord.type rec =? LogRecordType.CLR) then
    (if LogRecord.op rec =? LogOpType.PUT then
       v ← lift (LogRecord.NewValue rec);
       _ ← on_tree (BPlusTree.Insert tree_fuel (LogRecord.key rec) v);
       mret tt
     else if LogRecord.op rec =? LogOpType.DELETE then
       _ ← on_tree (BPlusTree.Remove tree_fuel (LogRecord.key rec));
       mret tt
     else mret tt);;
    MaybeUpdateRootPageId
  else mret tt.

Fixpoint redo (records : list LogRecord.t) : M t () :=
  match records with
  | [] => mret tt
  | rec :: records => redo_record rec;; redo records
  end.

(** Undoing one logged update, with its compensation record. *)
Definition undo_record (txn_id : Z) (rec : LogRecord.t) : M t () :=
  old ← lift (LogRecord.OldValue rec);
  let '(comp_op, comp_value, comp_has_value) :=
    ComputeCompensation (LogRecord.op rec) (negb (LogRecord.has_old_value rec =? 0)) old in
  apply comp_op (LogRecord.key rec) comp_value;;
  rec ← lift (clr txn_id comp_op (LogRecord.key rec) (-1) (LogRecord.prev_lsn rec) comp_value comp_has_value);
  _ ← on_log (LogManager.Append rec);
  mret tt.

(** The walk back from [lsn]: a record met twice would be met for ever. *)
Fixpoint undo_chain (fuel : nat) (txn_id lsn : Z) : M t () :=
  if lsn =? -1 then mret tt else
  match fuel with
  | O => λ e, (NoFuel, e)
  | S fuel =>
      rec ← on_log (LogManager.ReadRecord lsn);
      if LogRecord.type rec =? LogRecordType.BEGIN then mret tt else
      if LogRecord.type rec =? LogRecordType.CLR then undo_chain fuel txn_id (LogRecord.undo_next_lsn rec) else
      (if LogRecord.type rec =? LogRecordType.UPDATE then undo_record txn_id rec else mret tt);;
      undo_chain fuel txn_id (LogRecord.prev_lsn rec)
  end.

Definition UndoTransactionFromLog (txn_id start_lsn : Z) : M t () :=
  n ← on_log (λ l, (Val (LogManager.GetNextLsn l), l));
  undo_chain (S (Z.to_nat n)) txn_id start_lsn;;
  on_log LogManager.Flush.

Fixpoint undo_losers (losers : list (Z * Z)) : M t () :=
  match losers with
  | [] => mret tt
  | (txn_id, last_lsn) :: losers => UndoTransactionFromLog txn_id last_lsn;; undo_losers losers
  end.

Definition RecoverOnStartup : M t () :=
  next_lsn ← on_log (λ l, (Val (LogManager.GetNextLsn l), l));
  if next_lsn =? 0 then mret tt else
  begin_lsn ← on_tree read_checkpoint;
  '(redo_start_lsn, checkpoint_active_txns) ← on_log (find_checkpoint begin_lsn);
  records ← on_log (LogManager.ReadFrom redo_start_lsn);
  if bool_decide (records = []) then mret tt else
  let active := foldl analyse (seed checkpoint_active_txns) records in
  redo records;;
  undo_losers (walk next_lsn active).

(** ** Opening and closing *)

(** The database file and the log's. *)
Record files := mkFiles { data_file : DiskManager.file; wal_file : DiskManager.file }.

(** What the files of an engine are; without a log its file is as it was. *)
Definition disk (fs : files) (e : t) : files :=
  mkFiles (BPlusTreeEngine.file_of (BPlusTree.bpm_ (tree_ e)))
    match log_manager_ e with Some l => DiskManager.fd_ (LogManager.disk_manager_ l) | None => wal_file fs end.

(** A constructor that fails destroys its members: the pool flushes. *)
Definition abandon {A} (x : exn) (b : pool) (wal : DiskManager.file) : res A * files :=
  let '(r, f) := BPlusTreeEngine.abandon x b in (r, mkFiles f wal).

(** The log, once the tree is there. *)
Definition start_log (db_path : string) (wal : DiskManager.file) (e : t) : res t * files :=
  let b := BPlusTree.bpm_ (tree_ e) in
  match LogManager.Open (db_path +:+ ".wal") wal with
  | (Exn x, wal) => abandon x b wal
  | (Undef, wal) => (Undef, mkFiles (BPlusTreeEngine.file_of b) wal)
  | (NoFuel, wal) => (NoFuel, mkFiles (BPlusTreeEngine.file_of b) wal)
  | (Val l, wal) =>
      match RecoverOnStartup (set_log l e) with
      | (Exn x, e) => abandon x (BPlusTree.bpm_ (tree_ e)) (wal_file (disk (mkFiles (DiskManager.File [] []) wal) e))
      | (Undef, e) => (Undef, disk (mkFiles (DiskManager.File [] []) wal) e)
      | (NoFuel, e) => (NoFuel, disk (mkFiles (DiskManager.File [] []) wal) e)
      | (Val _, e) => (Val e, disk (mkFiles (DiskManager.File [] []) wal) e)
      end
  end.

Definition Open (db_path : string) (buffer_pool_size : Z) (enable_wal : bool) (checkpoint_interval_txns : Z) (fs : files) :
    res t * files :=
  match DiskManager.Open db_path (data_file fs) with
  | (Exn x, f) => (Exn x, mkFiles f (wal_file fs))
  | (Undef, f) => (Undef, mkFiles f (wal_file fs))
  | (NoFuel, f) => (NoFuel, mkFiles f (wal_file fs))
  | (Val d, f) =>
      match LRUKReplacer.New buffer_pool_size 2 with
      | Exn x => (Exn x, mkFiles f (wal_file fs))
      | Undef => (Undef, mkFiles f (wal_file fs))
      | NoFuel => (NoFuel, mkFiles f (wal_file fs))
      | Val replacer =>
          match load_meta (DiskManager.GetNumPages d) (BufferPoolManager.New buffer_pool_size d replacer) with
          | (Exn x, b) => abandon x b (wal_file fs)
          | (Undef, b) => (Undef, mkFiles (BPlusTreeEngine.file_of b) (wal_file fs))
          | (NoFuel, b) => (NoFuel, mkFiles (BPlusTreeEngine.file_of b) (wal_file fs))
          | (Val root, b) =>
              match BPlusTree.New b root (LeafPage.Capacity - 1) (InternalPage.Capacity - 1) with
              | Exn x => abandon x b (wal_file fs)
              | Undef => (Undef, mkFiles (BPlusTreeEngine.file_of b) (wal_file fs))
              | NoFuel => (NoFuel, mkFiles (BPlusTreeEngine.file_of b) (wal_file fs))
              | Val tr =>
                  let e := mk tr None enable_wal checkpoint_interval_txns 0 0 0 ∅ in
                  if enable_wal then start_log db_path (wal_file fs) e else (Val e, disk fs e)
              end
          end
      end
  end.

(** The destructor: the pool's flushes its pages. *)
Definition Close (fs : files) (e : t) : res () * files :=
  let '(r, f) := BPlusTreeEngine.destroy_pool (BPlusTree.bpm_ (tree_ e)) in (r, mkFiles f (wal_file (disk fs e))).
End engine.

End WALBPlusTreeEngine.

#[global] Instance wal_engine order : StorageEngine WALBPlusTreeEngine.t := {
  Iter := BPlusTree.Iterator;
  Get := WALBPlusTreeEngine.Get;
  Put := WALBPlusTreeEngine.Put order;
  Delete := WALBPlusTreeEngine.Delete order;
  Scan := WALBPlusTreeEngine.Scan;
  IsValid := WALBPlusTreeEngine.IsValid;
  Next := WALBPlusTreeEngine.Next;
  GetKey := WALBPlusTreeEngine.GetKey;
  GetValue := WALBPlusTreeEngine.GetValue;
  Destroy := WALBPlusTreeEngine.Destroy;
}.
