(* ===== verification/WalSpec.v ===== *)
(** * Runs of the WAL B+-tree engine, and what they promise

    The engine promises that the writes of a committed transaction survive
    every restart and those of any other do not.  [store] is what a client
    sees: the committed entries, the current ones, and which transaction wrote
    which keys.  It is what transactions get that keep out of each other's way.
    [ustore] is what the engine keeps for any transactions, as long as it is not
    restarted: the current entries, and for each open transaction the values its
    writes replaced. *)

From S2P Require Import Prelude Entries Bytes Disk Replacer Buffer TreePages BTree Engine BTreeEngine Wal WalEngine.

Module WalSpec.
Import WALBPlusTreeEngine.

Inductive event :=
  | WGet (k : KeyType)
  | WPut (k : KeyType) (v : string)
  | WDelete (k : KeyType)
  | WScan (k : KeyType) (n : nat)
  | WBegin
  | WGetTxn (txn : Z) (k : KeyType)
  | WPutTxn (txn : Z) (k : KeyType) (v : string)
  | WDeleteTxn (txn : Z) (k : KeyType)
  | WCommit (txn : Z)
  | WAbort (txn : Z)
  | WCrash
  | WReopen.

Inductive answer :=
  | ADone
  | AFound (v : option string)
  | ADeleted (b : bool)
  | ARows (rows : list (KeyType * string))
  | ATxn (txn : Z).

(** Reads up to [n] rows. *)
Fixpoint read_rows (n : nat) (it : BPlusTree.Iterator) : M t (BPlusTree.Iterator * list (KeyType * string)) :=
  match n with
  | O => mret (it, [])
  | S n =>
      if negb (IsValid it) then mret (it, []) else
      k ← GetKey it;
      v ← GetValue it;
      it ← Next it;
      '(it, rows) ← read_rows n it;
      mret (it, (k, v) :: rows)
  end.

Section run.
Context (order : Z → list Z → list Z) (db : string) (size interval : Z).

Definition no_files : files := mkFiles (DiskManager.File [] []) (DiskManager.File [] []).

(** The process dies, and the files are opened again. *)
Definition crash : M t () := λ e,
  match Open order db size true interval (disk no_files e) with
  | (Val e', _) => (Val tt, e')
  | (Exn x, _) => (Exn x, e)
  | (Undef, _) => (Undef, e)
  | (NoFuel, _) => (NoFuel, e)
  end.

(** The engine is closed, and the files are opened again. *)
Definition reopen : M t () := λ e,
  match Close no_files e with
  | (Val _, fs) =>
      match Open order db size true interval fs with
      | (Val e', _) => (Val tt, e')
      | (Exn x, _) => (Exn x, e)
      | (Undef, _) => (Undef, e)
      | (NoFuel, _) => (NoFuel, e)
      end
  | (r, _) => (r, e)
  end.

Definition perform (ev : event) : M t answer :=
  match ev with
  | WGet k => v ← Get k; mret (AFound v)
  | WPut k v => Put order k v;; mret ADone
  | WDelete k => b ← Delete order k; mret (ADeleted b)
  | WScan k n =>
      it ← Scan k;
      '(it, rows) ← read_rows n it;
      Destroy it;;
      mret (ARows rows)
  | WBegin => txn ← Begin; mret (ATxn txn)
  | WGetTxn txn k => v ← GetTxn txn k; mret (AFound v)
  | WPutTxn txn k v => PutTxn txn k v;; mret ADone
  | WDeleteTxn txn k => b ← DeleteTxn txn k; mret (ADeleted b)
  | WCommit txn => Commit order txn;; mret ADone
  | WAbort txn => Abort order txn;; mret ADone
  | WCrash => crash;; mret ADone
  | WReopen => reopen;; mret ADone
  end.

Fixpoint run (evs : list event) (e : t) : list (res answer) :=
  match evs with
  | [] => []
  | ev :: evs => let '(r, e) := perform ev e in r :: run evs e
  end.

(** The pages of the database file all have a frame of the pool. *)
Definition fits (e : t) : bool :=
  DiskManager.next_page_id_ (BufferPoolManager.disk_manager_ (BPlusTree.bpm_ (tree_ e))) <=? size.

Fixpoint all_fit (evs : list event) (e : t) : bool :=
  match evs with
  | [] => true
  | ev :: evs => let e := (perform ev e).2 in fits e && all_fit evs e
  end.
End run.

(** ** The specification *)

Record store := mkStore {
  committed : list (KeyType * string);
  current : list (KeyType * string);
  writes : gmap Z (list KeyType);
  next_id : Z;
}.

Definition empty_store : store := mkStore [] [] ∅ 0.

(** [dst] with the keys [ks] as they are in [src]. *)
Definition copy (src : list (KeyType * string)) (ks : list KeyType) (dst : list (KeyType * string)) : list (KeyType * string) :=
  foldr (λ k dst, match look k src with Some v => ins k v dst | None => del k dst end) dst ks.

Definition unknown (who : string) : exn :=
  RuntimeError ("WALBPlusTreeEngine::" +:+ who +:+ ": unknown or already-finished transaction").
Definition too_large : exn := InvalidArgument "WALBPlusTreeEngine::Put: value exceeds MAX_VALUE_SIZE".

Definition begin (s : store) : store :=
  mkStore (committed s) (current s) (<[next_id s := []]> (writes s)) (next_id s + 1).

Definition put_txn (txn : Z) (k : KeyType) (v : string) (s : store) : res answer * store :=
  if MAX_VALUE_SIZE <? ssize v then (Exn too_large, s) else
  match writes s !! txn with
  | None => (Exn (unknown "Put"), s)
  | Some ks => (Val ADone, mkStore (committed s) (ins k v (current s)) (<[txn := ks ++ [k]]> (writes s)) (next_id s))
  end.

Definition delete_txn (txn : Z) (k : KeyType) (s : store) : res answer * store :=
  match writes s !! txn with
  | None => (Exn (unknown "Delete"), s)
  | Some ks =>
      match look k (current s) with
      | None => (Val (ADeleted false), s)
      | Some _ => (Val (ADeleted true), mkStore (committed s) (del k (current s)) (<[txn := ks ++ [k]]> (writes s)) (next_id s))
      end
  end.

(** A commit makes a transaction's writes committed ones. *)
Definition commit (txn : Z) (s : store) : res answer * store :=
  match writes s !! txn with
  | None => (Exn (unknown "Commit"), s)
  | Some ks => (Val ADone, mkStore (copy (current s) ks (committed s)) (current s) (delete txn (writes s)) (next_id s))
  end.

(** An abort takes them back. *)
Definition abort (txn : Z) (s : store) : res answer * store :=
  match writes s !! txn with
  | None => (Exn (unknown "Abort"), s)
  | Some ks => (Val ADone, mkStore (committed s) (copy (committed s) ks (current s)) (delete txn (writes s)) (next_id s))
  end.

(** A restart leaves the committed entries, and no transactions. *)
Definition restart (s : store) : store := mkStore (committed s) (committed s) ∅ 0.

Definition spec (ev : event) (s : store) : res answer * store :=
  match ev with
  | WGet k => (Val (AFound (look k (current s))), s)
  | WPut k v =>
      let '(r, s1) := put_txn (next_id s) k v (begin s) in
      match r with
      | Val _ => commit (next_id s) s1
      | _ => (r, s1)
      end
  | WDelete k =>
      let '(r, s1) := delete_txn (next_id s) k (begin s) in
      (r, (commit (next_id s) s1).2)
  | WScan k n => (Val (ARows (take n (drop (lb k (current s)) (current s)))), s)
  | WBegin => (Val (ATxn (next_id s)), begin s)
  | WGetTxn txn k =>
      match writes s !! txn with
      | None => (Exn (unknown "Get"), s)
      | Some _ => (Val (AFound (look k (current s))), s)
      end
  | WPutTxn txn k v => put_txn txn k v s
  | WDeleteTxn txn k => delete_txn txn k s
  | WCommit txn => commit txn s
  | WAbort txn => abort txn s
  | WCrash | WReopen => (Val ADone, restart s)
  end.

Fixpoint spec_run (evs : list event) (s : store) : list (res answer) :=
  match evs with
  | [] => []
  | ev :: evs => let '(r, s) := spec ev s in r :: spec_run evs s
  end.

(** No other open transaction has written the key. *)
Definition free_for (txn : Z) (k : KeyType) (s : store) : bool :=
  forallb (λ x : Z * list KeyType, (x.1 =? txn) || negb (bool_decide (k ∈ x.2))) (map_to_list (writes s)).

Definition allowed (ev : event) (s : store) : bool :=
  match ev with
  | WPut k _ | WDelete k => free_for (next_id s) k s
  | WPutTxn txn k _ | WDeleteTxn txn k => free_for txn k s
  | _ => true
  end.

(** No transaction writes a key another open one has written. *)
Fixpoint disciplined (evs : list event) (s : store) : bool :=
  match evs with
  | [] => true
  | ev :: evs => allowed ev s && disciplined evs (spec ev s).2
  end.

Definition valid (ev : event) : Prop :=
  match ev with
  | WGet k | WPut k _ | WDelete k | WScan k _ | WGetTxn _ k | WPutTxn _ k _ | WDeleteTxn _ k => is_i64 k
  | WBegin | WCommit _ | WAbort _ | WCrash | WReopen => True
  end.

(** ** Transactions that do not keep apart *)

(** [key := value], or [key] removed. *)
Definition write (w : KeyType * option string) (es : list (KeyType * string)) : list (KeyType * string) :=
  match w.2 with Some v => ins w.1 v es | None => del w.1 es end.

(** Each open transaction has a list of the keys it wrote, oldest first, with
    what they had before. *)
Record ustore := mkUStore {
  now : list (KeyType * string);
  logs : gmap Z (list (KeyType * option string));
  unext : Z;
}.

Definition empty_ustore : ustore := mkUStore [] ∅ 0.

(** The writes of a log are taken back, latest first. *)
Definition rollback (log : list (KeyType * option string)) (es : list (KeyType * string)) : list (KeyType * string) := foldr write es log.

Definition ubegin (u : ustore) : ustore := mkUStore (now u) (<[unext u := []]> (logs u)) (unext u + 1).

(** The transaction with the log [log] writes [key]. *)
Definition uwrite (txn : Z) (log : list (KeyType * option string)) (w : KeyType * option string) (u : ustore) : ustore :=
  mkUStore (write w (now u)) (<[txn := log ++ [(w.1, look w.1 (now u))]]> (logs u)) (unext u).

Definition uput_txn (txn : Z) (k : KeyType) (v : string) (u : ustore) : res answer * ustore :=
  if MAX_VALUE_SIZE <? ssize v then (Exn too_large, u) else
  match logs u !! txn with
  | None => (Exn (unknown "Put"), u)
  | Some log => (Val ADone, uwrite txn log (k, Some v) u)
  end.

Definition udelete_txn (txn : Z) (k : KeyType) (u : ustore) : res answer * ustore :=
  match logs u !! txn with
  | None => (Exn (unknown "Delete"), u)
  | Some log =>
      match look k (now u) with
      | None => (Val (ADeleted false), u)
      | Some _ => (Val (ADeleted true), uwrite txn log (k, None) u)
      end
  end.

(** A commit forgets the log, an abort rolls it back. *)
Definition ucommit (txn : Z) (u : ustore) : res answer * ustore :=
  match logs u !! txn with
  | None => (Exn (unknown "Commit"), u)
  | Some _ => (Val ADone, mkUStore (now u) (delete txn (logs u)) (unext u))
  end.

Definition uabort (txn : Z) (u : ustore) : res answer * ustore :=
  match logs u !! txn with
  | None => (Exn (unknown "Abort"), u)
  | Some log => (Val ADone, mkUStore (rollback log (now u)) (delete txn (logs u)) (unext u))
  end.

(** The event is a call, not a restart. *)
Definition call (ev : event) : bool := match ev with WCrash | WReopen => false | _ => true end.

Definition uspec (ev : event) (u : ustore) : res answer * ustore :=
  match ev with
  | WGet k => (Val (AFound (look k (now u))), u)
  | WPut k v =>
      let '(r, u1) := uput_txn (unext u) k v (ubegin u) in
      match r with
      | Val _ => ucommit (unext u) u1
      | _ => (r, u1)
      end
  | WDelete k =>
      let '(r, u1) := udelete_txn (unext u) k (ubegin u) in
      (r, (ucommit (unext u) u1).2)
  | WScan k n => (Val (ARows (take n (drop (lb k (now u)) (now u)))), u)
  | WBegin => (Val (ATxn (unext u)), ubegin u)
  | WGetTxn txn k =>
      match logs u !! txn with
      | None => (Exn (unknown "Get"), u)
      | Some _ => (Val (AFound (look k (now u))), u)
      end
  | WPutTxn txn k v => uput_txn txn k v u
  | WDeleteTxn txn k => udelete_txn txn k u
  | WCommit txn => ucommit txn u
  | WAbort txn => uabort txn u
  | WCrash | WReopen => (NoFuel, u)
  end.

Fixpoint uspec_run (evs : list event) (u : ustore) : list (res answer) :=
  match evs with
  | [] => []
  | ev :: evs => let '(r, u) := uspec ev u in r :: uspec_run evs u
  end.

(** The store after the events. *)
Definition after (evs : list event) (u : ustore) : ustore := foldl (λ u ev, (uspec ev u).2) u evs.

End WalSpec.
