(* ===== verification/WalPool.v ===== *)
(** * A pool that writes nothing by itself

    As long as every page of the file has a frame of the pool, the pool never
    evicts, and the file changes only when the pool is flushed.  [calm_rel]
    adds that to the relation between a pool and its specification; the
    simulation of the tree carries it through every operation. *)

From stdpp Require Import gmultiset.
From S2P Require Import Prelude Entries Bytes Disk Replacer ReplacerTheory Buffer BufferTheory TreePages TreePagesTheory.
From S2P Require Import LeafTheory InternalTheory BTree Engine BTreeEngine BTreeSim BTreeRep BTreeSteps BTreeLookup BTreeInsert BTreeScan BTreeEngineTheory BTreeReopen WalEngine.

#[local] Open Scope Z_scope.

Import BufferPoolManager.

Section calm.
Context {R : Type} `{!Replacer R, !ReplacerSpec R}.
Implicit Types (b : t R) (F : DiskManager.file).

Definition file b : DiskManager.file := DiskManager.fd_ (disk_manager_ b).
Definition pages_of b : Z := DiskManager.next_page_id_ (disk_manager_ b).

(** The file is still [F], unless the pages have outgrown the pool. *)
Definition calm F b : Prop := pages_of b ≤ pool_size_ b → file b = F.

Definition calm_rel F b (a : APool.t) : Prop := pool_rel [] b a ∧ calm F b.

(** ** Steps that leave the file alone *)

Definition keeps {A} (m : M (t R) A) : Prop := ∀ b r b',
  DiskManager.f_faults (file b) = [] → m b = (r, b') →
  file b' = file b ∧ pool_size_ b' = pool_size_ b ∧ pages_of b ≤ pages_of b'.

Lemma keeps_bind {A B} (m : M (t R) A) (k : A → M (t R) B) : keeps m → (∀ x, keeps (k x)) → keeps (m ≫= k).
Proof.
  intros Hm Hk b r b' Hf. unfold mbind, M_bind. destruct (m b) as [[x| | |] b1] eqn:E; [|by intros [= <- <-]; eapply Hm..].
  destruct (Hm _ _ _ Hf E) as (H1 & H2 & H3). intros E'. destruct (Hk x b1 r b' ltac:(by rewrite H1) E') as (H4 & H5 & H6).
  split_and!; [congruence|congruence|lia].
Qed.

Lemma keeps_same {A} (m : M (t R) A) :
  (∀ b r b', m b = (r, b') → disk_manager_ b' = disk_manager_ b ∧ pool_size_ b' = pool_size_ b) → keeps m.
Proof. intros H b r b' _ E. destruct (H _ _ _ E) as [E1 E2]. unfold file, pages_of. rewrite E1. split_and!; [done|done|lia]. Qed.

Lemma keeps_ret {A} (x : A) : keeps (mret x).
Proof. apply keeps_same. by intros b r b' [= <- <-]. Qed.
Lemma keeps_undef {A} : keeps (undefined : M (t R) A).
Proof. apply keeps_same. by intros b r b' [= <- <-]. Qed.
Lemma keeps_get : keeps get.
Proof. apply keeps_same. by intros b r b' [= <- <-]. Qed.
Lemma keeps_modify f : (∀ b, disk_manager_ (f b) = disk_manager_ b ∧ pool_size_ (f b) = pool_size_ b) → keeps (modify f).
Proof. intros H. apply keeps_same. intros b r b' [= <- <-]. apply H. Qed.
Lemma keeps_page_at f : keeps (page_at f).
Proof. apply keeps_same. intros b r b'. unfold page_at. destruct (f <? 0); [by intros [= <- <-]|]. by destruct (_ !! _); intros [= <- <-]. Qed.
Lemma keeps_set_page f p : keeps (set_page f p).
Proof. by apply keeps_modify. Qed.
Lemma keeps_replacer {A} (m : M R A) : keeps (on_replacer m).
Proof. apply keeps_same. intros b r b'. unfold on_replacer. destruct (m _). by intros [= <- <-]. Qed.
Lemma keeps_alloc : keeps (on_disk DiskManager.AllocatePage).
Proof. intros b r b' _ [= <- <-]. unfold file, pages_of. simpl. split_and!; [done|done|lia]. Qed.

Lemma keeps_read p : keeps (on_disk (DiskManager.ReadPage p)).
Proof.
  intros b r b' Hf. unfold file, pages_of in *. unfold on_disk. destruct (DiskManager.ReadPage p (disk_manager_ b)) as [x d] eqn:E. intros [= <- <-].
  cut (DiskManager.fd_ d = DiskManager.fd_ (disk_manager_ b) ∧ DiskManager.next_page_id_ d = DiskManager.next_page_id_ (disk_manager_ b)).
  { intros [E1 E2]. simpl. rewrite E1, E2. split_and!; [done|done|lia]. }
  destruct (disk_manager_ b) as [[data fs] nm nx nr nw]. simpl in Hf. subst fs. revert E. clear.
  unfold DiskManager.ReadPage, DiskManager.offset_of, mbind, M_bind. destruct (_ && _); [|by intros [= <- <-]].
  unfold DiskManager.on_fd, DiskManager.pread, DiskManager.syscall. cbn -[PAGE_SIZE].
  destruct (p * PAGE_SIZE <? 0); cbn -[PAGE_SIZE]; by intros [= <- <-].
Qed.

Ltac keeps_tac := repeat first
  [ apply keeps_ret | apply keeps_undef | apply keeps_get | apply keeps_page_at | apply keeps_set_page
  | apply keeps_replacer | apply keeps_alloc | apply keeps_read | by apply keeps_modify
  | apply keeps_bind; [|intros ?] | case_match ].

Lemma keeps_unpin p d : keeps (UnpinPage p d).
Proof. unfold UnpinPage. keeps_tac. Qed.
Lemma keeps_delete p : keeps (DeletePage p).
Proof. unfold DeletePage. keeps_tac. Qed.
Lemma keeps_pinned p : keeps (pinned_frame p).
Proof. unfold pinned_frame. keeps_tac. Qed.
Lemma keeps_data p : keeps (GetData p).
Proof. unfold GetData. apply keeps_bind; [apply keeps_pinned|intros; apply keeps_ret]. Qed.
Lemma keeps_set_data p d : keeps (SetData p d).
Proof. unfold SetData. apply keeps_bind; [apply keeps_pinned|intros]. keeps_tac. Qed.

(** ** Taking a frame *)

Lemma resident hole b a :
  pool_rel hole b a → Z.of_nat (size (page_table_ b)) ≤ pages_of b.
Proof.
  intros H. destruct (pr_next _ _ _ H) as [Hn Hn0]. unfold pages_of. rewrite <-Hn.
  rewrite <-(size_dom (page_table_ b)).
  assert (dom (page_table_ b) ⊆ list_to_set (seqZ 0 (APool.next a))) as Hsub%subseteq_size.
  { intros p [f Hp]%elem_of_dom. apply elem_of_list_to_set, elem_of_seqZ.
    destruct (pr_table _ _ _ H _ _ Hp) as [pg Hfo]. pose proof (fo_next _ _ _ _ _ Hfo). destruct (fo_valid _ _ _ _ _ Hfo). lia. }
  rewrite size_list_to_set in Hsub by apply NoDup_seqZ. rewrite length_seqZ in Hsub. lia.
Qed.

(** A page that needs a frame when none is free means more pages than frames. *)
Lemma resident_full b a p :
  pool_rel [] b a → free_list_ b = [] → page_table_ b !! p = None → 0 ≤ p < pages_of b → pool_size_ b < pages_of b.
Proof.
  intros H Hf Hp Hb. destruct (pr_next _ _ _ H) as [Hn Hn0]. pose proof (pr_count _ _ _ H) as Hc. rewrite Hf in Hc. simpl in Hc.
  pose proof (pr_pool _ _ _ H). rewrite <-(size_dom (page_table_ b)) in Hc. unfold pages_of in *. rewrite <-Hn in *.
  assert ({[p]} ∪ dom (page_table_ b) ⊆ list_to_set (seqZ 0 (APool.next a))) as Hsub%subseteq_size.
  { intros q [->%elem_of_singleton|[f Hq]%elem_of_dom]%elem_of_union; apply elem_of_list_to_set, elem_of_seqZ; [lia|].
    destruct (pr_table _ _ _ H _ _ Hq) as [pg Hfo]. pose proof (fo_next _ _ _ _ _ Hfo). destruct (fo_valid _ _ _ _ _ Hfo). lia. }
  rewrite size_union, size_singleton in Hsub by (apply disjoint_singleton_l, not_elem_of_dom; done).
  rewrite size_list_to_set in Hsub by apply NoDup_seqZ. rewrite length_seqZ in Hsub. lia.
Qed.

Lemma acquire_calm b f l : free_list_ b = f :: l → AcquireFrame b = (Val (Some f), set_free l b).
Proof. intros Hf. unfold AcquireFrame. mstep. by rewrite Hf. Qed.

Lemma keeps_new b f l r b' : free_list_ b = f :: l → DiskManager.f_faults (file b) = [] →
  NewPage b = (r, b') → file b' = file b ∧ pool_size_ b' = pool_size_ b ∧ pages_of b ≤ pages_of b'.
Proof.
  intros Hl Hf E. unfold NewPage in E. rewrite (bind_Val _ _ _ _ _ (acquire_calm b f l Hl)) in E.
  eapply (keeps_bind (on_disk DiskManager.AllocatePage)) in E; [exact E|apply keeps_alloc|intros; keeps_tac|done].
Qed.

Lemma keeps_fetch b p r b' :
  (page_table_ b !! p = None → free_list_ b ≠ []) → DiskManager.f_faults (file b) = [] →
  FetchPage p b = (r, b') → file b' = file b ∧ pool_size_ b' = pool_size_ b ∧ pages_of b ≤ pages_of b'.
Proof.
  intros Hl Hf. unfold FetchPage. rewrite bind_get. destruct (page_table_ b !! p) as [f|].
  { intros E. eapply (keeps_bind (page_at f)) in E; [exact E|apply keeps_page_at|intros; keeps_tac|done]. }
  destruct (free_list_ b) as [|f l] eqn:El; [by destruct Hl|]. intros E.
  change (modify (count_miss (R := R))) with (modify (S := t R) (count_miss (R := R))) in E.
  rewrite (bind_Val _ _ b tt (count_miss b) eq_refl) in E. rewrite (bind_Val _ _ _ _ _ (acquire_calm (count_miss b) f l El)) in E.
  eapply (keeps_bind (page_at f)) in E; [exact E|apply keeps_page_at|intros; keeps_tac|done].
Qed.

(** ** The simulation *)

Lemma sim_calm {A} F (m : M (t R) A) (m' : M APool.t A) :
  sim (pool_rel []) m m' →
  (∀ b a r b' a', pool_rel [] b a → m b = (r, b') → m' a = (r, a') → r ≠ Undef → pool_rel [] b' a' →
    pool_size_ b' < pages_of b' ∨ (file b' = file b ∧ pool_size_ b' = pool_size_ b ∧ pages_of b ≤ pages_of b')) →
  sim (calm_rel F) m m'.
Proof.
  intros Hs Hk b a [Hr Hc]. specialize (Hs b a Hr). destruct (m' a) as [r a'] eqn:Ea.
  destruct r; try done; destruct Hs as (b' & E & Hr'); exists b'; (split; [done|split; [done|]]); intros Hsz;
    (destruct (Hk _ _ _ _ _ Hr E Ea ltac:(done) Hr') as [?|(H1 & H2 & H3)]; [lia|]); rewrite H1; apply Hc; lia.
Qed.

Lemma no_faults hole b a : pool_rel hole b a → DiskManager.f_faults (file b) = [].
Proof. intros H. apply (pr_sound _ _ _ H). Qed.

Lemma sim_kept {A} F (m : M (t R) A) (m' : M APool.t A) : keeps m → sim (pool_rel []) m m' → sim (calm_rel F) m m'.
Proof. intros Hk Hs. apply sim_calm; [done|]. intros b a r b' a' Hr E _ _ _. right. apply (Hk _ _ _ (no_faults _ _ _ Hr) E). Qed.

Lemma calm_new F : sim (calm_rel F) pool_new pool_new.
Proof.
  apply sim_calm; [apply sim_new|]. intros b a r b' a' Hr E Ea Hu Hr'. cbn [pool_new bpm_pool apool_pool] in E, Ea.
  destruct (free_list_ b) as [|f l] eqn:Hl.
  2:{ right. unfold mbind, M_bind in E. destruct (NewPage b) as [r1 b1] eqn:E1.
      assert (b' = b1) as -> by (destruct r1; by injection E). by eapply keeps_new; [|eapply no_faults|]. }
  unfold APool.new in Ea. destruct (APool.has_room a) eqn:Hroom; simpl in Ea.
  2:{ right. injection Ea as <- <-. unfold NewPage in E. rewrite bind_assoc, (bind_Val _ _ _ _ _ (AcquireFrame_full _ _ Hr Hroom)) in E.
      injection E as <-. split_and!; [done|done|lia]. }
  left. destruct (APool.addressable _); simpl in Ea; injection Ea as <- <-; [|done].
  destruct (pr_next _ _ _ Hr') as [Hn _]. simpl in Hn. unfold pages_of. rewrite <-Hn.
  pose proof (resident _ _ _ Hr) as Hres. destruct (pr_next _ _ _ Hr) as [Hn0 _]. unfold pages_of in Hres. rewrite <-Hn0 in Hres.
  pose proof (pr_count _ _ _ Hr) as Hc. rewrite Hl in Hc. simpl in Hc. pose proof (pr_pool _ _ _ Hr).
  rewrite <-(pr_cap _ _ _ Hr'). simpl. rewrite (pr_cap _ _ _ Hr). lia.
Qed.

Lemma calm_fetch F p : sim (calm_rel F) (pool_fetch p) (pool_fetch p).
Proof.
  apply sim_calm; [apply sim_fetch|]. intros b a r b' a' Hr E Ea Hu Hr'. cbn [pool_fetch bpm_pool apool_pool] in E, Ea.
  unfold APool.fetch in Ea. destruct (APool.pages a !! p) as [d|] eqn:Hd; [|by injection Ea as <- <-].
  destruct (pr_content _ _ _ Hr p d Hd) as ([Hp0 _] & Hpn & _).
  assert (pool_size_ b < pages_of b ∨ (page_table_ b !! p = None → free_list_ b ≠ [])) as [Hbig|Hfree].
  { destruct (page_table_ b !! p) eqn:Hp; [by right|]. destruct (free_list_ b) eqn:Hl; [left|by right].
    eapply resident_full; [done..|]. unfold pages_of. by rewrite <-(proj1 (pr_next _ _ _ Hr)). }
  - left. unfold pages_of in *. rewrite <-(proj1 (pr_next _ _ _ Hr')). rewrite <-(proj1 (pr_next _ _ _ Hr)) in Hbig.
    rewrite <-(pr_cap _ _ _ Hr'). rewrite <-(pr_cap _ _ _ Hr) in Hbig. destruct (_ || _); by injection Ea as <- <-.
  - right. unfold mbind, M_bind in E. destruct (FetchPage p b) as [r1 b1] eqn:E1.
    assert (b' = b1) as -> by (destruct r1; by injection E). by eapply keeps_fetch; [|eapply no_faults|].
Qed.

#[global] Instance calm_sim F : PoolSim (calm_rel F).
Proof.
  split; [apply calm_new|apply calm_fetch| | | |].
  - intros p d. apply sim_kept; [apply keeps_unpin|apply sim_unpin].
  - intros p. apply sim_kept; [apply keeps_delete|apply sim_delete].
  - intros p. apply sim_kept; [apply keeps_data|apply sim_read].
  - intros p d. apply sim_kept; [apply keeps_set_data|apply sim_write].
Qed.
End calm.
