(* ===== verification/WalTree.v ===== *)
(** * The tree under the WAL engine

    [tree_at F n tr es c]: the tree [tr] holds the entries [es], page 0 names
    the checkpoint [c], and its file is still [F] as long as the pages fit the
    pool. *)

From stdpp Require Import gmultiset.
From S2P Require Import Prelude Entries Bytes Disk Replacer ReplacerTheory Buffer BufferTheory TreePages TreePagesTheory.
From S2P Require Import SkipListTheory LeafTheory InternalTheory BTree Engine BTreeEngine BTreeSim BTreeRep BTreeSteps BTreeLookup BTreeInsert BTreeScan BTreeEngineTheory BTreeReopen WalEngine WalPool.

#[local] Open Scope Z_scope.

Import BPlusTree.

Definition names_checkpoint (c : Z) (d : bytes) : Prop := WALBPlusTreeEngine.meta_checkpoint d = c.

Lemma names_root c d r : blen d = PAGE_SIZE → names_checkpoint c d → names_checkpoint c (BPlusTreeEngine.set_meta_root r d).
Proof.
  intros Hd <-. unfold names_checkpoint, WALBPlusTreeEngine.meta_checkpoint, BPlusTreeEngine.set_meta_root, get_i64, put64.
  by rewrite block_blit_ne by (rewrite ?blen_le_enc, ?Hd; unfold PAGE_SIZE; lia).
Qed.

(** ** Simulations of the engine's accesses to page 0 *)

Section sims.
Context {C D : Type} `{!Pool C, !Pool D} (Rel : C → D → Prop) `{!PoolSim Rel}.

Lemma sim_load_meta n : sim Rel (WALBPlusTreeEngine.load_meta n) (WALBPlusTreeEngine.load_meta n).
Proof.
  unfold WALBPlusTreeEngine.load_meta. destruct (n =? 0).
  - apply sim_bind; [apply ps_new|intros [p|]; [|apply sim_undef]].
    apply sim_bind; [apply ps_read|intros d]. apply sim_bind; [apply ps_write|intros _].
    apply sim_bind; [apply ps_unpin|intros _; apply sim_ret].
  - apply sim_bind; [apply ps_fetch|intros [|]; [|apply sim_undef]].
    apply sim_bind; [apply ps_read|intros d]. apply sim_bind; [apply ps_unpin|intros _; apply sim_ret].
Qed.

Lemma sim_record_checkpoint l :
  sim (tree_rel Rel) (WALBPlusTreeEngine.record_checkpoint l) (WALBPlusTreeEngine.record_checkpoint l).
Proof. unfold WALBPlusTreeEngine.record_checkpoint. sim_tac. Qed.

Lemma sim_read_checkpoint : sim (tree_rel Rel) WALBPlusTreeEngine.read_checkpoint WALBPlusTreeEngine.read_checkpoint.
Proof. unfold WALBPlusTreeEngine.read_checkpoint. sim_tac. Qed.
End sims.

Section tree.
Context (cap : Z).
Hypothesis Hcap : 70 ≤ cap.

Abbreviation tree := WALBPlusTreeEngine.tree (only parsing).
Abbreviation st := (st cap leaf_max internal_max) (only parsing).
Implicit Types (F : DiskManager.file) (tr : tree) (es : list (Z * string)).

Definition pages_at tr : Z := pages_of (bpm_ tr).
Definition file_at tr : DiskManager.file := BPlusTreeEngine.file_of (bpm_ tr).

Definition tree_at F (n : nat) tr es (c : Z) : Prop :=
  ∃ a, tree_rel (calm_rel F) tr a ∧ holds cap (names_checkpoint c) n a es.

Definition scan_at F (n : nat) tr es (c : Z) (it : Iterator) (rest : list (Z * string)) : Prop :=
  ∃ a, tree_rel (calm_rel F) tr a ∧ walks cap (names_checkpoint c) n a es it rest.

Lemma tree_sorted F n tr es c : tree_at F n tr es c → sorted es.
Proof. intros (a & _ & H & nx & r & ps & _ & Hok & _). by eapply ok_sorted. Qed.

Lemma tree_keys F n tr es c x : tree_at F n tr es c → x ∈ es → is_i64 x.1.
Proof. intros (a & _ & H & nx & r & ps & _ & Hok & _). by eapply ok_keys. Qed.

Lemma tree_file F n tr es c : tree_at F n tr es c → pages_at tr ≤ cap → file_at tr = F.
Proof.
  intros (a & [[Hr Hc] _ _ _] & H & nx & r & ps & -> & _) Hp. apply Hc. rewrite <-(pr_cap _ _ _ Hr). done.
Qed.

(** The budget of insertions may be set anew while the pages are few. *)
Lemma tree_budget F n n' tr es c :
  tree_at F n tr es c → pages_at tr ≤ 2 ^ 40 → Z.of_nat n' ≤ 2 ^ 43 → tree_at F n' tr es c.
Proof.
  intros (a & Hr & H & nx & r & ps & -> & [Ht Hi Hn Hs Hk] & Hm) Hp Hn'. eexists. split; [done|]. exists H, nx, r, ps. split_and!; [done| |done].
  assert (nx ≤ 2 ^ 40) by (destruct (pr_next _ _ _ (proj1 (tl_pool _ _ _ Hr))) as [E _]; simpl in E; unfold pages_at, pages_of in Hp; lia).
  split; try done. unfold APool.addressable, put_pages, PAGE_SIZE, int64_max. rewrite andb_true_iff, !Z.leb_le. lia.
Qed.

(** ** Calls *)

Lemma tree_get F n tr es c k :
  tree_at F n tr es c → ∃ tr', GetValue tree_fuel k tr = (Val (look k es), tr') ∧ tree_at F n tr' es c.
Proof using Hcap.
  intros (a & Hr & Hh). destruct (holds_Get cap Hcap _ n a es k Hh) as (a' & E & Hh').
  destruct (sim_Val _ _ _ _ _ _ _ (sim_eng_Get _ k) Hr E) as (tr' & E' & Hr'). exists tr'. split; [done|]. by exists a'.
Qed.

Lemma tree_insert F n tr es c k v :
  tree_at F (S n) tr es c → is_i64 k → ssize v ≤ MAX_VALUE_SIZE →
  ∃ b tr1 tr2, Insert tree_fuel k v tr = (Val b, tr1) ∧ WALBPlusTreeEngine.update_root tr1 = (Val tt, tr2) ∧
    tree_at F n tr2 (ins k v es) c.
Proof using Hcap.
  intros (a & Hr & Hh) Hk Hv. destruct (holds_Put cap Hcap _ (names_root c) n a es k v Hh Hk Hv) as (a' & E & Hh').
  destruct (sim_Val _ _ _ _ _ _ _ (sim_eng_Put _ k v) Hr E) as (tr' & E' & Hr').
  cbn [Put btree_engine] in E'. unfold BPlusTreeEngine.Put, mbind, M_bind in E'.
  destruct (Insert tree_fuel k v tr) as [[b| | |] tr1]; try done. exists b, tr1, tr'. split_and!; [done|exact E'|]. by exists a'.
Qed.

Lemma tree_remove F n tr es c k :
  tree_at F n tr es c →
  ∃ b tr1 tr2, Remove tree_fuel k tr = (Val b, tr1) ∧ WALBPlusTreeEngine.update_root tr1 = (Val tt, tr2) ∧
    tree_at F n tr2 (del k es) c.
Proof using Hcap.
  intros (a & Hr & H & nx & r & ps & -> & Hok & Hm).
  destruct (tree_Remove cap Hcap n k H ∅ ∅ nx r es ps Hok (held_nil _) (room_nil cap 4 ltac:(lia)) ltac:(set_solver))
    as (H1 & U1 & r1 & ps1 & E1 & Hok1 & Hh1 & _ & E0 & _).
  assert (U1 = ∅) as -> by (apply sub_nil; intros x Hx%Hh1; multiset_solver).
  destruct (persist_ok cap (names_checkpoint c) (names_root c) n H1 ∅ ∅ nx r1 _ ps1 r Hok1 (meta_frame _ _ _ _ E0 Hm) (held_nil _) (room_nil cap 1 ltac:(lia)))
    as (H2 & U2 & E2 & Hm2 & ->%sub_nil & Hok2).
  destruct (sim_Val _ _ _ _ _ _ _ (sim_Remove (calm_rel F) tree_fuel k) Hr E1) as (tr1 & F1 & Hr1).
  destruct (sim_Val _ _ _ _ _ _ _ (sim_Persist (calm_rel F)) Hr1 E2) as (tr2 & F2 & Hr2).
  eexists _, tr1, tr2. split_and!; [exact F1|exact F2|]. eexists. split; [exact Hr2|]. by exists H2, nx, r1, ps1.
Qed.

(** ** Checkpoints *)

Lemma tree_read_checkpoint F n tr es c :
  tree_at F n tr es c → ∃ tr', WALBPlusTreeEngine.read_checkpoint tr = (Val c, tr') ∧ tree_at F n tr' es c.
Proof using Hcap.
  intros (a & Hr & H & nx & r & ps & -> & Hok & Hm). pose proof Hm as (d & Hd & Hlen & Hroot & HQ).
  assert (E : WALBPlusTreeEngine.read_checkpoint (st H ∅ ∅ nx r) = (Val c, st H ∅ ∅ nx r)).
  { unfold WALBPlusTreeEngine.read_checkpoint. set (m := WALBPlusTreeEngine.kMetaPageId).
    mrun (fetch_ok cap leaf_max internal_max H ∅ ∅ nx r m ltac:(eauto) (or_intror (room_nil cap 1 ltac:(lia)))).
    mrun (read_ok cap leaf_max internal_max H _ ∅ nx r m d Hd (in_pins ∅ m)).
    mrun (unpin_pinned cap leaf_max internal_max H ∅ ∅ nx r m (held_nil _)). by rewrite HQ. }
  destruct (sim_Val _ _ _ _ _ _ _ (sim_read_checkpoint (calm_rel F)) Hr E) as (tr' & E' & Hr'). exists tr'. split; [done|].
  eexists. split; [exact Hr'|]. by exists H, nx, r, ps.
Qed.

Lemma record_ok H nx r d lsn :
  H !! 0 = Some d → blen d = PAGE_SIZE →
  WALBPlusTreeEngine.record_checkpoint lsn (st H ∅ ∅ nx r) = (Val tt, st (<[0 := WALBPlusTreeEngine.set_meta_checkpoint lsn d]> H) ∅ ∅ nx r).
Proof using Hcap.
  intros Hd Hlen. unfold WALBPlusTreeEngine.record_checkpoint. set (m := WALBPlusTreeEngine.kMetaPageId). change 0 with m in Hd |- *.
  mrun (fetch_ok cap leaf_max internal_max H ∅ ∅ nx r m ltac:(eauto) (or_intror (room_nil cap 1 ltac:(lia)))).
  mrun (read_ok cap leaf_max internal_max H _ ∅ nx r m d Hd (in_pins ∅ m)).
  assert (Hlen' : blen (WALBPlusTreeEngine.set_meta_checkpoint lsn d) = PAGE_SIZE).
  { pose proof (blen_le_enc 8 lsn) as He. unfold WALBPlusTreeEngine.set_meta_checkpoint, put64.
    rewrite blen_blit; [done|..]; unfold PAGE_SIZE in *; lia. }
  destruct (write_ok cap leaf_max internal_max H (∅ ⊎ {[+ m +]}) ∅ nx r m _ (in_pins ∅ m) Hlen') as (U1 & E1 & _ & HU1).
  mrun E1. rewrite unpin_dirty, pin_unpin by apply in_pins. replace (U1 ∖ {[m]}) with (∅ : gset page_id_t) by (clear -HU1; set_solver). done.
Qed.

Lemma record_checkpoint_page lsn r d :
  blen d = PAGE_SIZE → is_i64 lsn → BPlusTreeEngine.meta_root d = r →
  let d' := WALBPlusTreeEngine.set_meta_checkpoint lsn d in
  blen d' = PAGE_SIZE ∧ BPlusTreeEngine.meta_root d' = r ∧ names_checkpoint lsn d'.
Proof.
  intros Hlen Hl <- d'. pose proof (blen_le_enc 8 lsn). unfold d', names_checkpoint, WALBPlusTreeEngine.meta_checkpoint, WALBPlusTreeEngine.set_meta_checkpoint. split_and!.
  - unfold put64. rewrite blen_blit; [done|..]; unfold PAGE_SIZE in *; lia.
  - unfold BPlusTreeEngine.meta_root, get_i64, put64. by rewrite block_blit_ne by (rewrite ?blen_le_enc, ?Hlen; unfold PAGE_SIZE; lia).
  - apply get_put64_eq; [lia|rewrite Hlen; unfold PAGE_SIZE; lia|done].
Qed.

(** Every page of the tree is in the file as it is in the pool. *)
Definition flushed (n : nat) tr es (c : Z) : Prop :=
  ∃ H nx r ps, tree_rel (pool_rel []) tr (st H ∅ ∅ nx r) ∧ tree_ok n H nx r es ps ∧ meta (names_checkpoint c) H r ∧
    ∀ p d, H !! p = Some d → disk_page (bpm_ tr) p = d.

Lemma flushed_saved n tr es c : flushed n tr es c → saved (names_checkpoint c) n (file_at tr) es.
Proof. intros (H & nx & r & ps & Hr & Hok & Hm & Hd). eapply flush_saved; [apply (tl_pool _ _ _ Hr)|done..]. Qed.

Lemma flushed_at n tr es c : flushed n tr es c → tree_at (file_at tr) n tr es c.
Proof.
  intros (H & nx & r & ps & [Hr H1 H2 H3] & Hok & Hm & _). eexists. split; [by split; [split|..]|]. by exists H, nx, r, ps.
Qed.

Lemma tree_flush F n tr es c :
  tree_at F n tr es c →
  ∃ tr', bpm BufferPoolManager.FlushAllPages tr = (Val tt, tr') ∧ flushed n tr' es c ∧ pages_at tr' = pages_at tr.
Proof using Type.
  intros (a & [[Hr _] H1 H2 H3] & H & nx & r & ps & -> & Hok & Hm).
  destruct (FlushAllPages_rel _ _ Hr) as (b & Eb & Hb & Hdisk). simpl in Hdisk. unfold bpm. rewrite Eb. eexists. split; [done|]. split.
  - exists H, nx, r, ps. split_and!; [by split|done|done|]. intros p d Hd. apply Hdisk; [done|clear; set_solver].
  - unfold pages_at, pages_of. simpl. by rewrite <-(proj1 (pr_next _ _ _ Hb)), <-(proj1 (pr_next _ _ _ Hr)).
Qed.

Lemma frame_meta n H nx r es ps d : tree_ok n H nx r es ps → tree_ok n (<[0 := d]> H) nx r es ps.
Proof.
  intros Hok. eapply ok_frame; [|exact Hok]. intros p Hp. pose proof (ok_ids _ _ _ _ _ _ Hok p Hp). by rewrite lookup_insert_ne by lia.
Qed.

(** The end of a checkpoint: its record in page 0, written through. *)
Lemma tree_checkpoint n tr es c lsn :
  flushed n tr es c → is_i64 lsn →
  ∃ tr1 b tr2, WALBPlusTreeEngine.record_checkpoint lsn tr = (Val tt, tr1) ∧
    bpm (BufferPoolManager.FlushPage WALBPlusTreeEngine.kMetaPageId) tr1 = (Val b, tr2) ∧
    tree_at (file_at tr2) n tr2 es lsn ∧ (pages_at tr2 ≤ cap → flushed n tr2 es lsn).
Proof using Hcap.
  intros Hfl Hl. destruct Hfl as (H & nx & r & ps & [Hr H1 H2 H3] & Hok & (d & Hd & Hlen & Hroot & HQ) & Hdisk).
  destruct (record_checkpoint_page lsn r d Hlen Hl Hroot) as (Hlen' & Hroot' & HQ'). set (d' := WALBPlusTreeEngine.set_meta_checkpoint lsn d) in *.
  assert (Hc : tree_rel (calm_rel (file_at tr)) tr (st H ∅ ∅ nx r)) by (by split; [split|..]).
  destruct (sim_Val _ _ _ _ _ _ _ (sim_record_checkpoint (calm_rel (file_at tr)) lsn) Hc (record_ok H nx r d lsn Hd Hlen))
    as (tr1 & E1 & [[Hr1 Hc1] G1 G2 G3]). fold d' in Hr1.
  destruct (FlushPage_rel _ _ WALBPlusTreeEngine.kMetaPageId Hr1) as (b2 & E2 & Hr2 & Hd0 & Hdo).
  eexists tr1, _, _. split; [done|]. split; [unfold bpm; by rewrite E2|].
  assert (Hok' : tree_ok n (<[0 := d']> H) nx r es ps) by (by apply frame_meta).
  assert (Hm' : meta (names_checkpoint lsn) (<[0 := d']> H) r) by (exists d'; by rewrite lookup_insert_eq).
  split.
  - eexists. split; [by split; [split|..]|]. by exists (<[0 := d']> H), nx, r, ps.
  - intros Hp. exists (<[0 := d']> H), nx, r, ps. split_and!; [by split|done|done|]. simpl. intros p x Hx.
    destruct (decide (p = 0)) as [->|Hp0]; [by apply Hd0|]. assert (Hx' := Hx). rewrite lookup_insert_ne in Hx' by done.
    destruct (pr_content _ _ _ Hr2 p x Hx) as ([Hp1 _] & _ & _). rewrite Hdo by done.
    assert (file (bpm_ tr1) = file_at tr) as Ef.
    { apply Hc1. unfold pages_at, pages_of in *. simpl in Hp. rewrite <-(proj1 (pr_next _ _ _ Hr1)), <-(pr_cap _ _ _ Hr1).
      rewrite <-(proj1 (pr_next _ _ _ Hr2)) in Hp. done. }
    rewrite <-(Hdisk p x Hx'). unfold disk_page, DiskManager.contents. unfold file, file_at, BPlusTreeEngine.file_of in Ef. by rewrite Ef.
Qed.

(** ** Opening *)

(** What the constructor does before it looks at the log. *)
Definition opens (name : string) F tr : Prop :=
  ∃ d rp root b, DiskManager.Open name F = (Val d, F) ∧ LRUKReplacer.New cap 2 = Val rp ∧
    WALBPlusTreeEngine.load_meta (DiskManager.GetNumPages d) (BufferPoolManager.New cap d rp) = (Val root, b) ∧
    New b root (LeafPage.Capacity - 1) (InternalPage.Capacity - 1) = Val tr.

Lemma opens_rel name F root a :
  DiskManager.f_faults F = [] → pages_in (blen (DiskManager.f_data F)) * PAGE_SIZE ≤ int64_max →
  WALBPlusTreeEngine.load_meta (pages_in (blen (DiskManager.f_data F))) (booted cap name F) = (Val root, a) →
  ∃ tr, opens name F tr ∧ tree_rel (calm_rel F) tr (mk a root leaf_max internal_max).
Proof using Hcap.
  intros Hf Hmax E. set (d := DiskManager.mk F name (pages_in (blen (DiskManager.f_data F))) 0 0). set (rp := LRUKReplacer.mk cap 2 0 0 ∅).
  assert (LRUKReplacer.New cap 2 = Val rp) as Hnew by done. pose proof (LRUKTheory.rel_new cap 2 rp ltac:(lia) Hnew) as Hrel.
  assert (calm_rel F (BufferPoolManager.New cap d rp) (boot cap d)) as Hpr.
  { split; [|done]. apply pool_rel_new; [lia| | |done| |done|done].
    - split; [done|]. apply pages_in_ge.
    - apply pages_in_nonneg. unfold blen. lia.
    - by exists ∅. }
  destruct (sim_Val _ _ _ _ _ _ _ (sim_load_meta (calm_rel F) _) Hpr E) as (b & Eb & Hb).
  exists (mk b root leaf_max internal_max). split; [|by split]. exists d, rp, root, b. split_and!; [by apply Open_disk|done|done|].
  unfold New. by vm_compute (_ || _).
Qed.

Lemma load_meta_old nx d H :
  nx ≠ 0 → H !! 0 = Some d →
  WALBPlusTreeEngine.load_meta nx (APool.mk cap H ∅ ∅ nx) = (Val (BPlusTreeEngine.meta_root d), APool.mk cap H ∅ ∅ nx).
Proof using Hcap.
  intros Hnx Hd. rewrite <-(load_old cap H nx d ltac:(lia) Hnx Hd). unfold WALBPlusTreeEngine.load_meta, BPlusTreeEngine.load_root.
  by rewrite (proj2 (Z.eqb_neq nx 0)) by done.
Qed.

Lemma tree_open name F n es c : saved (names_checkpoint c) n F es → ∃ tr, opens name F tr ∧ tree_at F n tr es c.
Proof using Hcap.
  intros Hsv. destruct (saved_boot _ n F es name cap Hsv) as (r & ps & Hok & Hm & Hne & Hmax). pose proof Hm as (d & Hd & Hlen & Hroot & HQ).
  destruct (opens_rel name F r (booted cap name F)) as (tr & Ho & Hr); [apply Hsv|done| |].
  { rewrite <-Hroot. by apply (load_meta_old _ d). }
  exists tr. split; [done|]. eexists. split; [exact Hr|]. eexists _, _, r, ps. split_and!; [|exact Hok|exact Hm]. done.
Qed.

Lemma tree_fresh name n :
  Z.of_nat n ≤ 2 ^ 43 → ∃ tr, opens name (DiskManager.File [] []) tr ∧ tree_at (DiskManager.File [] []) n tr [] (-1) ∧ pages_at tr = 1.
Proof using Hcap.
  intros Hn. set (d := WALBPlusTreeEngine.set_meta_checkpoint (-1) (WALBPlusTreeEngine.set_meta_root INVALID_PAGE_ID (zeros PAGE_SIZE))).
  assert (Hlen : blen d = PAGE_SIZE) by (by vm_compute).
  pose proof (room_nil cap 1 ltac:(lia)) as Hroom.
  pose proof (bpm_step _ _ _ _ _ _ _ _ _ _ _ _ _ _ (new_ok cap 3 3 ∅ ∅ ∅ 0 0 Hroom eq_refl)) as E1.
  pose proof (bpm_step _ _ _ _ _ _ _ _ _ _ _ _ _ _
    (read_ok cap 3 3 (<[0 := zeros PAGE_SIZE]> ∅) _ ({[0]} ∪ ∅) 1 0 0 _ (lookup_insert_eq _ _ _) (in_pins ∅ 0))) as E2.
  destruct (write_ok cap 3 3 (<[0 := zeros PAGE_SIZE]> ∅) (∅ ⊎ {[+ 0 +]}) ({[0]} ∪ ∅) 1 0 0 d (in_pins ∅ 0) Hlen) as (U & E3 & _ & HU).
  apply bpm_step in E3. rewrite insert_insert_eq in E3.
  destruct (unpin_step _ _ _ _ _ _ _ _ _ _ _ _ _ _ (unpin_dirty cap 3 3 (<[0 := d]> ∅) _ U 1 0 0 (in_pins ∅ 0))) as (b & E4).
  rewrite pin_unpin in E4. replace (U ∖ {[0]}) with (∅ : gset page_id_t) in E4 by (clear -HU; set_solver).
  assert (E : WALBPlusTreeEngine.load_meta 0 (APool.mk cap ∅ ∅ ∅ 0) = (Val INVALID_PAGE_ID, APool.mk cap {[0 := d]} ∅ ∅ 1)).
  { unfold WALBPlusTreeEngine.load_meta. simpl. mrun E1. mrun E2. mrun E3. by mrun E4. }
  destruct (opens_rel name (DiskManager.File [] []) INVALID_PAGE_ID (APool.mk cap {[0 := d]} ∅ ∅ 1)) as (tr & Ho & Hr); [done|done|exact E|].
  exists tr. split_and!; [done| |].
  - eexists. split; [exact Hr|]. exists {[0 := d]}, 1, INVALID_PAGE_ID, []. split_and!; [done| |].
    + split; [by right|set_solver|done| |set_solver].
      unfold APool.addressable, put_pages, PAGE_SIZE, int64_max. rewrite andb_true_iff, !Z.leb_le. lia.
    + exists d. split_and!; [done|done|by vm_compute|by vm_compute].
  - unfold pages_at, pages_of. by rewrite <-(proj1 (pr_next _ _ _ (proj1 (tl_pool _ _ _ Hr)))).
Qed.

(** ** Scans *)

Lemma tree_scan F n tr es c k :
  tree_at F n tr es c → is_i64 k →
  ∃ tr' it, (if k =? INVALID_KEY then Begin tree_fuel else Begin_at tree_fuel k) tr = (Val it, tr') ∧
    scan_at F n tr' es c it (drop (lb k es) es).
Proof using Hcap.
  intros Ht Hk. pose proof (tree_sorted _ _ _ _ _ Ht) as Hs. destruct Ht as (a & Hr & Hh).
  destruct (holds_Scan cap Hcap _ n a es k Hh Hk) as (a' & it & before & rest & E & Hw & Hes & Hb & Hre).
  destruct (sim_Val _ _ _ _ _ _ _ (sim_eng_Scan (calm_rel F) k) Hr E) as (tr' & E' & Hr'). exists tr', it. split; [exact E'|].
  exists a'. split; [done|]. assert (lb k es = length before) as ->.
  { rewrite Hes, lb_app_lt, (lb_ge k rest) by done. lia. }
  rewrite Hes in Hw |- *. by rewrite drop_app_length.
Qed.

Lemma scan_next F n tr es c it k v rest :
  scan_at F n tr es c it ((k, v) :: rest) →
  ∃ tr1 tr2 tr3 it', GetKey it tr = (Val k, tr1) ∧ it_GetValue it tr1 = (Val v, tr2) ∧ Next it tr2 = (Val it', tr3) ∧
    scan_at F n tr3 es c it' rest.
Proof using Hcap.
  intros (a & Hr & Hw). destruct (walks_GetKey _ _ _ _ _ _ _ _ _ Hw) as [E1 E2].
  destruct (sim_Val _ _ _ _ _ _ _ (sim_GetKey _ it) Hr E1) as (tr1 & F1 & Hr1).
  destruct (sim_Val _ _ _ _ _ _ _ (sim_it_GetValue _ it) Hr1 E2) as (tr2 & F2 & Hr2).
  destruct (walks_Next cap Hcap _ _ _ _ _ _ _ Hw) as (a' & it' & E3 & Hw').
  destruct (sim_Val _ _ _ _ _ _ _ (sim_Next _ it) Hr2 E3) as (tr3 & F3 & Hr3). exists tr1, tr2, tr3, it'. split_and!; [done..|]. by exists a'.
Qed.

Lemma scan_end F n tr es c it rest :
  scan_at F n tr es c it rest → ∃ tr', Release it tr = (Val tt, tr') ∧ tree_at F n tr' es c.
Proof using Hcap.
  intros (a & Hr & Hw). apply (walks_idles cap Hcap) in Hw. destruct (idles_Destroy cap Hcap _ _ _ _ _ Hw) as (a' & E & Hs).
  destruct (sim_Val _ _ _ _ _ _ _ (sim_Release _ it) Hr E) as (tr' & E' & Hr'). exists tr'. split; [done|]. by exists a'.
Qed.

Lemma scan_valid F n tr es c it rest : scan_at F n tr es c it rest → negb (IsEnd it) = bool_decide (rest ≠ []).
Proof. intros (a & Hr & Hw). by apply walks_IsValid in Hw. Qed.
End tree.
