(* ===== verification/WalState.v ===== *)
(** * The log, the file and the open transactions of the WAL engine

    The log as a list of records: the entries its replay gives, the
    transactions analysis finds, the updates a chain of records would undo;
    and the invariant that ties them to the file and the open transactions,
    for as long as the engine lives and across restarts. *)

From S2P Require Import Prelude Entries Bytes Disk Buffer BTree BTreeEngineTheory BTreeReopen Structs Wal WalTheory.
From S2P Require Import WalEngine WalSpec WalTree.

(** * What the log of the WAL engine says *)

Import WALBPlusTreeEngine WalSpec.

Abbreviation entries := (list (KeyType * string)) (only parsing).
Abbreviation records := (list LogRecord.t) (only parsing).

(** ** Replay *)

(** What redoing a record writes. *)
Definition write_of (r : LogRecord.t) : option (KeyType * option string) :=
  if (LogRecord.type r =? LogRecordType.UPDATE) || (LogRecord.type r =? LogRecordType.CLR) then
    if LogRecord.op r =? LogOpType.PUT
    then match LogRecord.NewValue r with Val v => Some (LogRecord.key r, Some v) | _ => None end
    else Some (LogRecord.key r, None)
  else None.

Definition effect (es : entries) (r : LogRecord.t) : entries :=
  match write_of r with Some w => write w es | None => es end.
Definition replay (es : entries) (rs : records) : entries := foldl effect es rs.

(** The last write to a key. *)
Definition note (k : KeyType) (o : option (option string)) (r : LogRecord.t) : option (option string) :=
  match write_of r with Some w => if w.1 =? k then Some w.2 else o | None => o end.
Definition final (k : KeyType) (rs : records) : option (option string) := foldl (note k) None rs.

Lemma sorted_write w es : sorted es → sorted (write w es).
Proof. intros Hs. unfold write. destruct w.2; [by apply sorted_ins|by apply sorted_del]. Qed.

Lemma look_write w es k : sorted es → look k (write w es) = if w.1 =? k then w.2 else look k es.
Proof.
  intros Hs. unfold write. destruct w as [k' [v|]]; simpl; [rewrite look_ins by done|rewrite look_del];
    destruct (Z.eqb_spec k' k); by case_decide.
Qed.

Lemma sorted_effect es r : sorted es → sorted (effect es r).
Proof. unfold effect. destruct (write_of r); [apply sorted_write|done]. Qed.

Lemma sorted_replay rs : ∀ es, sorted es → sorted (replay es rs).
Proof. induction rs as [|r rs IH]; intros es Hs; [done|]. by apply IH, sorted_effect. Qed.

Lemma foldl_note k rs : ∀ o, foldl (note k) o rs = match final k rs with Some x => Some x | None => o end.
Proof.
  unfold final. induction rs as [|r rs IH]; intros o; [done|]. simpl. rewrite (IH (note k o r)), (IH (note k None r)).
  destruct (foldl (note k) None rs); [done|]. unfold note. destruct (write_of r) as [w|]; [|done]. by destruct (w.1 =? k).
Qed.

Lemma final_app k rs rs' : final k (rs ++ rs') = match final k rs' with Some x => Some x | None => final k rs end.
Proof. unfold final at 1. by rewrite foldl_app, foldl_note. Qed.

Lemma final_snoc k rs r : final k (rs ++ [r]) = note k (final k rs) r.
Proof. unfold final. by rewrite foldl_app. Qed.

Lemma look_effect k es r : sorted es → look k (effect es r) = match note k None r with Some x => x | None => look k es end.
Proof.
  intros Hs. unfold effect, note. destruct (write_of r) as [w|]; [|done]. rewrite look_write by done. by destruct (w.1 =? k).
Qed.

Lemma look_replay k rs : ∀ es, sorted es → look k (replay es rs) = match final k rs with Some x => x | None => look k es end.
Proof.
  induction rs as [|r rs IH]; intros es Hs; [done|]. cbn [replay foldl]. fold (replay (effect es r) rs).
  rewrite IH by by apply sorted_effect. rewrite look_effect by done. unfold final. cbn [foldl]. rewrite (foldl_note k rs (note k None r)).
  unfold final. by destruct (foldl (note k) None rs).
Qed.

Lemma final_elem k rs o : final k rs = Some o → ∃ r, r ∈ rs ∧ write_of r = Some (k, o).
Proof.
  induction rs as [|r rs IH] using rev_ind; [done|]. rewrite final_snoc. unfold note. destruct (write_of r) as [w|] eqn:Ew.
  - destruct (Z.eqb_spec w.1 k) as [<-|].
    + intros [= <-]. exists r. split; [set_solver|]. by destruct w.
    + intros (r' & Hr & E)%IH. exists r'. set_solver.
  - intros (r' & Hr & E)%IH. exists r'. set_solver.
Qed.

(** Entries the whole log gives, from entries that differ only where its tail
    writes. *)
Lemma replay_tail es es' rs n :
  sorted es → sorted es' → (∀ k, look k es = default None (final k rs)) →
  (∀ k, final k (drop n rs) = None → look k es' = look k es) → replay es' (drop n rs) = es.
Proof.
  intros Hs Hs' Hall Htail. apply look_ext; [by apply sorted_replay|done|]. intros k. rewrite look_replay by done.
  destruct (final k (drop n rs)) as [o|] eqn:E; [|by apply Htail]. rewrite Hall. rewrite <-(take_drop n rs), final_app. by rewrite E.
Qed.

(** ** Analysis *)

(** The record is one of the transaction that analysis looks at. *)
Definition marks (t : Z) (r : LogRecord.t) : bool :=
  ((LogRecord.type r =? LogRecordType.BEGIN) || (LogRecord.type r =? LogRecordType.UPDATE) || (LogRecord.type r =? LogRecordType.CLR) ||
   (LogRecord.type r =? LogRecordType.COMMIT)) && (LogRecord.txn_id r =? t).

Definition analysed (rs : records) : gmap Z Z := foldl analyse ∅ rs.

Lemma analysed_snoc rs r : analysed (rs ++ [r]) = analyse (analysed rs) r.
Proof. unfold analysed. by rewrite foldl_app. Qed.

Lemma analyse_lookup m r t :
  analyse m r !! t = if marks t r then (if LogRecord.type r =? LogRecordType.COMMIT then None else Some (LogRecord.lsn r)) else m !! t.
Proof.
  unfold analyse, marks. set (ty := LogRecord.type r).
  destruct (Z.eqb_spec ty LogRecordType.COMMIT) as [->|Hc]; simpl.
  - destruct (Z.eqb_spec (LogRecord.txn_id r) t) as [<-|]; by simplify_map_eq.
  - rewrite orb_false_r. destruct ((ty =? _) || _ || _); simpl; [|done].
    destruct (Z.eqb_spec (LogRecord.txn_id r) t) as [<-|]; by simplify_map_eq.
Qed.

(** What a tail of the log says of a transaction does not depend on where
    analysis starts, once the tail has a record of it. *)
Lemma analyse_tail t rs : ∀ m m',
  Exists (λ r, marks t r = true) rs → foldl analyse m rs !! t = foldl analyse m' rs !! t.
Proof.
  induction rs as [|r rs IH] using rev_ind; intros m m' H; [by apply Exists_nil in H|]. rewrite !foldl_app. simpl. rewrite !analyse_lookup.
  destruct (marks t r) eqn:E; [done|]. apply IH. apply Exists_app in H as [?|H]; [done|]. apply Exists_cons in H as [?|H]; [congruence|by apply Exists_nil in H].
Qed.

Lemma analyse_none t rs : ∀ m, ¬ Exists (λ r, marks t r = true) rs → foldl analyse m rs !! t = m !! t.
Proof.
  induction rs as [|r rs IH]; intros m H; [done|]. rewrite Exists_cons in H. simpl. rewrite IH by tauto. rewrite analyse_lookup.
  destruct (marks t r); [|done]. tauto.
Qed.

Section numbered.
Context (rs : records) (Hlsn : ∀ i r, rs !! i = Some r → LogRecord.lsn r = Z.of_nat i).

Lemma analysed_record t l : analysed rs !! t = Some l → ∃ r, 0 ≤ l ∧ rs !! Z.to_nat l = Some r ∧ marks t r = true.
Proof using Hlsn.
  induction rs as [|r rs' IH] using rev_ind; [done|]. rewrite analysed_snoc, analyse_lookup. destruct (marks t r) eqn:E.
  - destruct (_ =? LogRecordType.COMMIT); [done|]. intros [= <-]. exists r.
    rewrite (Hlsn (length rs') r) by (by rewrite lookup_app_r, Nat.sub_diag by done). split_and!; [lia| |done].
    by rewrite Nat2Z.id, lookup_app_r, Nat.sub_diag by done.
  - intros (r' & H0 & Hr' & E')%IH; [exists r'; split_and!; [done| |done]; by apply lookup_app_l_Some|].
    intros i r0 Hi. apply Hlsn. by apply lookup_app_l_Some.
Qed.

(** ** Recovery's view of the transactions *)

(** The transactions a checkpoint lists have records from [start] on. *)
Definition listed (start : Z) (sd : list (Z * Z)) : Prop :=
  ∀ x, x ∈ sd → Exists (λ r, marks x.1 r = true) (drop (Z.to_nat start) rs).

Lemma seed_elem sd t l : seed sd !! t = Some l → ∃ x, x ∈ sd ∧ x.1 = t.
Proof.
  unfold seed. induction sd as [|x sd IH] using rev_ind; [done|]. rewrite foldl_app. simpl.
  destruct (decide (x.1 = t)) as [<-|Hne]; [intros _; exists x; set_solver|]. rewrite lookup_insert_ne by done. intros (y & Hy & E)%IH. exists y. set_solver.
Qed.

Lemma recovered start sd t :
  listed start sd →
  foldl analyse (seed sd) (drop (Z.to_nat start) rs) !! t =
  match analysed rs !! t with Some l => if start <=? l then Some l else None | None => None end.
Proof using Hlsn.
  intros Hsd. set (n := Z.to_nat start). destruct (decide (Exists (λ r, marks t r = true) (drop n rs))) as [He|Hn].
  - rewrite (analyse_tail t (drop n rs) _ (analysed (take n rs)) He). unfold analysed at 1. rewrite <-foldl_app, take_drop. fold (analysed rs).
    destruct (analysed rs !! t) as [l|] eqn:El; [|done]. destruct (Z.leb_spec start l); [done|]. exfalso.
    (* the last record of the transaction is in the tail *)
    assert (analysed rs !! t = foldl analyse ∅ (drop n rs) !! t) as E.
    { rewrite (analyse_tail t (drop n rs) ∅ (analysed (take n rs)) He). unfold analysed at 2. by rewrite <-foldl_app, take_drop. }
    rewrite El in E. symmetry in E. revert E He. clear -Hlsn H.
    assert (Hd : ∀ i r, drop n rs !! i = Some r → start ≤ LogRecord.lsn r).
    { intros i r Hi. rewrite lookup_drop in Hi. rewrite (Hlsn _ _ Hi). lia. }
    revert Hd. generalize (drop n rs) as l'. induction l' as [|r l' IH] using rev_ind; intros Hd E He; [done|].
    rewrite foldl_app in E. simpl in E. rewrite analyse_lookup in E. destruct (marks t r) eqn:Em.
    + destruct (_ =? _); [done|]. injection E as <-. specialize (Hd (length l') r). rewrite lookup_app_r, Nat.sub_diag in Hd by done. specialize (Hd eq_refl). lia.
    + apply IH; [|done|].
      * intros i r' Hi. apply (Hd i). by apply lookup_app_l_Some.
      * apply Exists_app in He as [?|He]; [done|]. apply Exists_cons in He as [?|He]; [congruence|by apply Exists_nil in He].
  - rewrite analyse_none by done. destruct (seed sd !! t) as [l|] eqn:Es.
    { apply seed_elem in Es as (x & Hx & <-). destruct Hn. by apply Hsd. }
    destruct (analysed rs !! t) as [l|] eqn:El; [|done]. destruct (Z.leb_spec start l); [|done]. destruct Hn.
    apply analysed_record in El as (r & H0 & Hr & Hm). apply Exists_exists. exists r. split; [|done].
    apply list_elem_of_lookup. exists (Z.to_nat l - n)%nat. rewrite lookup_drop. replace (n + (Z.to_nat l - n))%nat with (Z.to_nat l) by lia. done.
Qed.
End numbered.

(** * What the log of the WAL engine would undo *)

(** ** Records the engine writes *)

Definition small (o : option string) : Prop := ∀ v, o = Some v → ssize v ≤ MAX_VALUE_SIZE.

(** What an update replaced. *)
Definition old_of (u : UndoEntry) : option string := if u_has_old_value u then Some (u_old_value u) else None.

Definition is_write (r : LogRecord.t) (w : KeyType * option string) : Prop :=
  LogRecord.op r = match w.2 with Some _ => LogOpType.PUT | None => LogOpType.DELETE end ∧ LogRecord.key r = w.1 ∧ is_i64 w.1 ∧ small w.2 ∧
  ∀ v, w.2 = Some v → LogRecord.NewValue r = Val v.

(** An update, the write it made and the entry that undoes it. *)
Record is_update (r : LogRecord.t) (w : KeyType * option string) (u : UndoEntry) : Prop := {
  up_type : LogRecord.type r = LogRecordType.UPDATE;
  up_write : is_write r w;
  up_op : u_op u = LogRecord.op r;
  up_key : u_key u = LogRecord.key r;
  up_old : LogRecord.OldValue r = Val (u_old_value u);
  up_has : negb (LogRecord.has_old_value r =? 0) = u_has_old_value u;
  up_next : u_undo_next_lsn u = LogRecord.prev_lsn r;
  up_small : ssize (u_old_value u) ≤ MAX_VALUE_SIZE;
  up_delete : w.2 = None → u_has_old_value u = true;
}.

Definition is_clr (r : LogRecord.t) (w : KeyType * option string) : Prop := LogRecord.type r = LogRecordType.CLR ∧ is_write r w.

Definition plain (r : LogRecord.t) : Prop := LogRecord.type r ≠ LogRecordType.UPDATE ∧ LogRecord.type r ≠ LogRecordType.CLR.

Inductive good (r : LogRecord.t) : Prop :=
  | good_update w u : is_update r w u → good r
  | good_clr w : is_clr r w → good r
  | good_plain : plain r → good r.

Lemma write_of_write r w :
  LogRecord.type r = LogRecordType.UPDATE ∨ LogRecord.type r = LogRecordType.CLR → is_write r w → write_of r = Some w.
Proof.
  intros Ht (Hop & Hk & _ & _ & Hv). unfold write_of. assert ((LogRecord.type r =? LogRecordType.UPDATE) || (LogRecord.type r =? LogRecordType.CLR) = true) as ->.
  { apply orb_true_iff. rewrite !Z.eqb_eq. tauto. }
  rewrite Hop. destruct w as [k [v|]]; simpl in *; [by rewrite (Hv v), Hk|by rewrite Hk].
Qed.

Lemma write_of_plain r : plain r → write_of r = None.
Proof. intros [H1 H2]. unfold write_of. by rewrite (proj2 (Z.eqb_neq _ _) H1), (proj2 (Z.eqb_neq _ _) H2). Qed.

Lemma good_write r w : good r → write_of r = Some w → is_write r w.
Proof.
  intros [w' u H|w' H|H] E.
  - pose proof (up_write _ _ _ H) as Hw. rewrite (write_of_write r w') in E; [congruence|left; apply H|done].
  - destruct H as [Ht Hw]. rewrite (write_of_write r w') in E; [congruence|by right|done].
  - by rewrite write_of_plain in E.
Qed.

(** ** Chains *)

(** Walking back from the record [l] undoes the entries listed. *)
Inductive chain (rs : records) : Z → list UndoEntry → Prop :=
  | chain_begin l r :
      0 ≤ l → rs !! Z.to_nat l = Some r → LogRecord.type r = LogRecordType.BEGIN → chain rs l []
  | chain_clr l r us :
      0 ≤ l → rs !! Z.to_nat l = Some r → LogRecord.type r = LogRecordType.CLR →
      LogRecord.undo_next_lsn r < l → chain rs (LogRecord.undo_next_lsn r) us → chain rs l us
  | chain_update l r w u us :
      0 ≤ l → rs !! Z.to_nat l = Some r → is_update r w u →
      LogRecord.prev_lsn r < l → chain rs (LogRecord.prev_lsn r) us → chain rs l (u :: us).

Lemma chain_app rs rs' l us : chain rs l us → chain (rs ++ rs') l us.
Proof.
  induction 1 as [l r H0 Hr Ht|l r us H0 Hr Ht Hlt _ IH|l r w u us H0 Hr Hu Hlt _ IH].
  - eapply chain_begin; [done| |done]. by apply lookup_app_l_Some.
  - eapply chain_clr; [done| |done..]. by apply lookup_app_l_Some.
  - eapply chain_update; [done| |done..]. by apply lookup_app_l_Some.
Qed.

Lemma chain_bounds rs l us : chain rs l us → 0 ≤ l < Z.of_nat (length rs).
Proof. intros H. assert (0 ≤ l ∧ is_Some (rs !! Z.to_nat l)) as [? ?%lookup_lt_is_Some] by (destruct H; eauto). lia. Qed.

Lemma chain_next rs l u us : chain rs l (u :: us) → chain rs (u_undo_next_lsn u) us ∧ u_undo_next_lsn u < l.
Proof.
  remember (u :: us) as x. induction 1 as [l r H0 Hr Ht|l r us' H0 Hr Ht Hlt _ IH|l r w u' us' H0 Hr Hu Hlt Hc _]; [done| |].
  - destruct (IH Heqx). split; [done|lia].
  - injection Heqx as -> ->. rewrite (up_next _ _ _ Hu). done.
Qed.

Lemma chain_entry rs l us u : chain rs l us → u ∈ us → ∃ r w, r ∈ rs ∧ is_update r w u.
Proof.
  induction 1 as [l r H0 Hr Ht|l r us H0 Hr Ht Hlt _ IH|l r w u' us H0 Hr Hu Hlt Hc IH]; [set_solver|done|].
  intros [->|?]%elem_of_cons; [|by apply IH]. exists r, w. split; [by eapply list_elem_of_lookup_2|done].
Qed.

(** The updates each transaction would undo. *)
Definition chains (rs : records) (pend : Z → list UndoEntry) : Prop :=
  ∀ t l, analysed rs !! t = Some l → chain rs l (pend t).

Definition pend_of (act : gmap Z TxnState) (t : Z) : list UndoEntry :=
  match act !! t with Some s => reverse (undo_log s) | None => [] end.

(** [pend] with the updates of one transaction replaced. *)
Definition replaced (t : Z) (us : list UndoEntry) (pend : Z → list UndoEntry) (t' : Z) : list UndoEntry :=
  if t' =? t then us else pend t'.

Lemma chains_ext rs p p' : chains rs p → (∀ t, p t = p' t) → chains rs p'.
Proof. intros H E t l Hl. rewrite <-E. by apply H. Qed.

Section snoc.
Context (rs : records) (pend : Z → list UndoEntry) (r : LogRecord.t).
Hypothesis Hc : chains rs pend.
Hypothesis Hlsn : LogRecord.lsn r = Z.of_nat (length rs).

Lemma last_record : (rs ++ [r]) !! Z.to_nat (LogRecord.lsn r) = Some r.
Proof using Hlsn. by rewrite Hlsn, Nat2Z.id, lookup_app_r, Nat.sub_diag by done. Qed.

Lemma chains_skip : (∀ t, marks t r = false) → chains (rs ++ [r]) pend.
Proof using Hc. intros Hm t l. rewrite analysed_snoc, analyse_lookup, Hm. intros Hl. by apply chain_app, Hc. Qed.

Lemma chains_mark us :
  LogRecord.type r = LogRecordType.COMMIT ∨ chain (rs ++ [r]) (LogRecord.lsn r) us →
  chains (rs ++ [r]) (replaced (LogRecord.txn_id r) us pend).
Proof using Hc Hlsn.
  intros H t l. rewrite analysed_snoc, analyse_lookup. unfold replaced. destruct (marks t r) eqn:Em.
  - apply andb_true_iff in Em as [_ <-%Z.eqb_eq]. rewrite Z.eqb_refl. destruct (Z.eqb_spec (LogRecord.type r) LogRecordType.COMMIT) as [|Hn]; [done|].
    intros [= <-]. by destruct H.
  - intros Hl. destruct (Z.eqb_spec t (LogRecord.txn_id r)) as [->|]; [|by apply chain_app, Hc].
    unfold marks in Em. rewrite Z.eqb_refl, andb_true_r in Em. destruct H as [E|H]; [by rewrite E in Em|].
    exfalso. inversion H as [? r' ? Hr' Ht|? r' ? ? Hr' Ht|? r' w u ? ? Hr' Hu]; subst;
      rewrite last_record in Hr'; injection Hr' as ->; [by rewrite Ht in Em|by rewrite Ht in Em|by rewrite (up_type _ _ _ Hu) in Em].
Qed.

Lemma snoc_begin : LogRecord.type r = LogRecordType.BEGIN → chains (rs ++ [r]) (replaced (LogRecord.txn_id r) [] pend).
Proof using Hc Hlsn. intros Ht. apply chains_mark. right. eapply chain_begin; [lia|apply last_record|done]. Qed.

Lemma snoc_update w u us :
  is_update r w u → chain rs (LogRecord.prev_lsn r) us → chains (rs ++ [r]) (replaced (LogRecord.txn_id r) (u :: us) pend).
Proof using Hc Hlsn.
  intros Hu Hch. apply chains_mark. right. pose proof (chain_bounds _ _ _ Hch).
  eapply chain_update; [lia|apply last_record|done|lia|by apply chain_app].
Qed.

Lemma snoc_clr us :
  LogRecord.type r = LogRecordType.CLR → chain rs (LogRecord.undo_next_lsn r) us →
  chains (rs ++ [r]) (replaced (LogRecord.txn_id r) us pend).
Proof using Hc Hlsn.
  intros Ht Hch. apply chains_mark. right. pose proof (chain_bounds _ _ _ Hch).
  eapply chain_clr; [lia|apply last_record|done|lia|by apply chain_app].
Qed.

Lemma snoc_commit us : LogRecord.type r = LogRecordType.COMMIT → chains (rs ++ [r]) (replaced (LogRecord.txn_id r) us pend).
Proof using Hc Hlsn. intros Ht. apply chains_mark. by left. Qed.
End snoc.

(** ** Undoing *)

(** What is written back for an update. *)
Definition entry_of (u : UndoEntry) : KeyType * option string := (u_key u, old_of u).

Definition restore (es : entries) (u : UndoEntry) : entries := write (entry_of u) es.

Definition undo (us : list UndoEntry) (es : entries) : entries := foldl restore es us.

Lemma undo_rollback log es : undo (reverse log) es = rollback (entry_of <$> log) es.
Proof.
  induction log as [|u log IH]; [done|]. rewrite reverse_cons. unfold undo in *. rewrite foldl_app, IH. done.
Qed.

(** What the first update to a key replaced. *)
Fixpoint oldest (k : KeyType) (log : list (KeyType * option string)) : option (option string) :=
  match log with
  | [] => None
  | w :: log => if w.1 =? k then Some w.2 else oldest k log
  end.

Lemma oldest_None k log : oldest k log = None ↔ k ∉ log.*1.
Proof.
  induction log as [|w log IH]; simpl; [set_solver|]. destruct (Z.eqb_spec w.1 k) as [<-|]; [set_solver|]. rewrite IH. set_solver.
Qed.

Lemma oldest_snoc k log w : oldest k (log ++ [w]) = match oldest k log with Some o => Some o | None => if w.1 =? k then Some w.2 else None end.
Proof. induction log as [|w' log IH]; simpl; [done|]. by destruct (w'.1 =? k). Qed.

Lemma sorted_rollback log es : sorted es → sorted (rollback log es).
Proof. intros Hs. induction log as [|w log IH]; [done|]. by apply sorted_write. Qed.

Lemma look_rollback k log es : sorted es → look k (rollback log es) = match oldest k log with Some o => o | None => look k es end.
Proof.
  intros Hs. induction log as [|w log IH]; [done|]. cbn [rollback foldr oldest]. fold (rollback log es).
  rewrite look_write by by apply sorted_rollback. rewrite IH. by destruct (w.1 =? k).
Qed.

(** ** Open transactions that keep apart *)

(** Taking back the open transactions [lg] takes the entries [es] to [cs]. *)
Record open_over (cs es : entries) (lg : gmap Z (list (KeyType * option string))) : Prop := {
  oo_committed : sorted cs;
  oo_current : sorted es;
  oo_oldest : ∀ t log k o, lg !! t = Some log → oldest k log = Some o → o = look k cs;
  oo_apart : ∀ t t' log log' k, lg !! t = Some log → lg !! t' = Some log' → k ∈ log.*1 → k ∈ log'.*1 → t = t';
  oo_same : ∀ k, (∀ t log, lg !! t = Some log → k ∉ log.*1) → look k es = look k cs;
}.

Lemma open_none cs es : open_over cs es ∅ → es = cs.
Proof. intros H. apply look_ext; [apply H|apply H|]. intros k. apply (oo_same _ _ _ H). intros t log Hs. by rewrite lookup_empty in Hs. Qed.

(** A transaction begins. *)
Lemma open_begin cs es lg t : open_over cs es lg → lg !! t = None → open_over cs es (<[t := []]> lg).
Proof.
  intros [H1 H2 H3 H4 H5] Ht. split; [done|done| | |].
  - intros t' log k o [[<- <-]|[Hne Hs]]%lookup_insert_Some; [done|]. by apply (H3 t').
  - intros t1 t2 log1 log2 k [[<- <-]|[Hne1 Hs1]]%lookup_insert_Some [[<- <-]|[Hne2 Hs2]]%lookup_insert_Some; simpl; [done|set_solver|set_solver|].
    by apply (H4 t1 t2 log1 log2 k).
  - intros k Hk. apply H5. intros t' log Hs. apply (Hk t'). rewrite lookup_insert_ne by (intros <-; congruence). done.
Qed.

(** It writes a key no other one has written. *)
Lemma open_write cs es lg t log k o :
  open_over cs es lg → lg !! t = Some log → (∀ t' log', lg !! t' = Some log' → k ∈ log'.*1 → t' = t) →
  open_over cs (write (k, o) es) (<[t := log ++ [(k, look k es)]]> lg).
Proof.
  intros [H1 H2 H3 H4 H5] Hs Hfree.
  split; [done|by apply sorted_write| | |].
  - intros t' log' k' o' [[<- <-]|[Hne Hs']]%lookup_insert_Some; [|by apply (H3 t')]. rewrite oldest_snoc. cbn [fst snd].
    destruct (oldest k' log) as [o0|] eqn:E; [intros [= ->]; by eapply H3|]. destruct (Z.eqb_spec k k') as [<-|]; [|done].
    intros [= <-]. apply H5. intros t' log' Hs' Hin. pose proof (Hfree t' log' Hs' Hin) as ->. apply oldest_None in E. congruence.
  - assert (Hin : ∀ t' log' k', <[t := log ++ [(k, look k es)]]> lg !! t' = Some log' → k' ∈ log'.*1 →
      (k' = k ∧ t' = t) ∨ ∃ log0, lg !! t' = Some log0 ∧ k' ∈ log0.*1).
    { intros t' log' k' [[<- <-]|[Hne Hs']]%lookup_insert_Some; [|by eauto]. rewrite fmap_app, elem_of_app. intros [?|Hin]; [by eauto|].
      left. simpl in Hin. set_solver. }
    intros t1 t2 log1 log2 k' Hs1 Hs2 Hk1 Hk2.
    destruct (Hin _ _ _ Hs1 Hk1) as [[-> ->]|(log1' & Hs1' & Hk1')], (Hin _ _ _ Hs2 Hk2) as [[E E']|(log2' & Hs2' & Hk2')]; subst; [done| | |].
    + symmetry. by eapply Hfree.
    + by eapply Hfree.
    + by eapply H4.
  - intros k' Hk'. rewrite look_write by done. simpl. destruct (Z.eqb_spec k k') as [<-|Hne].
    { destruct (Hk' t _ (lookup_insert_eq _ _ _)). rewrite fmap_app. set_solver. }
    apply H5. intros t' log' Hs'. destruct (decide (t' = t)) as [->|Hnt].
    + intros Hin. apply (Hk' t _ (lookup_insert_eq _ _ _)). rewrite fmap_app. assert (log' = log) as -> by congruence. set_solver.
    + apply (Hk' t'). by rewrite lookup_insert_ne.
Qed.

(** ** Copies *)

Lemma sorted_copy src ks dst : sorted dst → sorted (copy src ks dst).
Proof.
  intros Hs. induction ks as [|k ks IH]; [done|]. simpl. destruct (look k src); [by apply sorted_ins|by apply sorted_del].
Qed.

Lemma look_copy src ks dst k : sorted dst → look k (copy src ks dst) = if bool_decide (k ∈ ks) then look k src else look k dst.
Proof.
  intros Hs. induction ks as [|k' ks IH]; [done|]. simpl. pose proof (sorted_copy src ks dst Hs) as Hc.
  assert (look k match look k' src with Some v => ins k' v (copy src ks dst) | None => del k' (copy src ks dst) end =
    if decide (k' = k) then look k src else look k (copy src ks dst)) as ->.
  { destruct (look k' src) eqn:E; [rewrite look_ins by done|rewrite look_del]; destruct (decide (k' = k)); subst; congruence. }
  rewrite IH. destruct (decide (k' = k)) as [->|Hd]; [by rewrite bool_decide_true by set_solver|]. destruct (decide (k ∈ ks)).
  - by rewrite !bool_decide_true by set_solver.
  - by rewrite !bool_decide_false by set_solver.
Qed.

(** A transaction commits: its writes are committed ones. *)
Lemma open_commit cs es lg t log :
  open_over cs es lg → lg !! t = Some log → open_over (copy es log.*1 cs) es (delete t lg).
Proof.
  intros [H1 H2 H3 H4 H5] Hs. split; [by apply sorted_copy|done| | |].
  - intros t' log' k o [Hne Hs']%lookup_delete_Some Ho. rewrite look_copy by done. rewrite bool_decide_false; [by eapply H3|].
    intros Hin. destruct Hne. eapply (H4 t t'); [done..|]. destruct (decide (k ∈ log'.*1)) as [|Hn]; [done|].
    apply oldest_None in Hn. congruence.
  - intros t1 t2 log1 log2 k [_ Hs1]%lookup_delete_Some [_ Hs2]%lookup_delete_Some. by apply (H4 t1 t2 log1 log2 k).
  - intros k Hk. rewrite look_copy by done. case_bool_decide as Hin; [done|]. apply H5. intros t' log' Hs'.
    destruct (decide (t' = t)) as [->|Hne]; [congruence|]. apply (Hk t'). by rewrite lookup_delete_ne.
Qed.

(** It is taken back: its writes are gone. *)
Lemma open_rollback cs es lg t log :
  open_over cs es lg → lg !! t = Some log →
  rollback log es = copy cs log.*1 es ∧ open_over cs (rollback log es) (delete t lg).
Proof.
  intros [H1 H2 H3 H4 H5] Hs.
  assert (Hl : ∀ k, look k (rollback log es) = if bool_decide (k ∈ log.*1) then look k cs else look k es).
  { intros k. rewrite look_rollback by done. destruct (oldest k log) as [o|] eqn:E.
    - rewrite bool_decide_true; [by eapply H3|]. destruct (decide (k ∈ log.*1)) as [|Hn]; [done|]. apply oldest_None in Hn. congruence.
    - rewrite bool_decide_false; [done|]. by apply oldest_None. }
  split.
  { apply look_ext; [by apply sorted_rollback|by apply sorted_copy|]. intros k. by rewrite Hl, look_copy. }
  split; [done|by apply sorted_rollback| | |].
  - intros t' log' k o [_ Hs']%lookup_delete_Some. by eapply H3.
  - intros t1 t2 log1 log2 k [_ Hs1]%lookup_delete_Some [_ Hs2]%lookup_delete_Some. by apply (H4 t1 t2 log1 log2 k).
  - intros k Hk. rewrite Hl. case_bool_decide as Hin; [done|]. apply H5. intros t' log' Hs'.
    destruct (decide (t' = t)) as [->|Hne]; [congruence|]. apply (Hk t'). by rewrite lookup_delete_ne.
Qed.

(** ** The two specifications *)

(** The store [u] of any transactions is the store [s], their writes being apart. *)
Record apart (u : ustore) (s : store) : Prop := {
  ap_now : now u = current s;
  ap_writes : writes s = (λ log, log.*1) <$> logs u;
  ap_next : unext u = next_id s;
  ap_ids : ∀ t log, logs u !! t = Some log → t < unext u;
  ap_open : open_over (committed s) (current s) (logs u);
}.

Lemma apart_txn u s t : apart u s → writes s !! t = (λ log, log.*1) <$> logs u !! t.
Proof. intros H. rewrite (ap_writes _ _ H). apply lookup_fmap. Qed.

Lemma apart_begin u s : apart u s → apart (ubegin u) (begin s).
Proof.
  intros [H1 H2 H3 H4 H5]. split; cbn [ubegin begin now logs unext current committed writes next_id]; [done| |lia| |].
  - by rewrite H2, H3, fmap_insert.
  - intros t log [[<- _]|[_ Ht%H4]]%lookup_insert_Some; lia.
  - apply open_begin; [done|]. destruct (logs u !! unext u) as [log|] eqn:E; [|done]. apply H4 in E. lia.
Qed.

Lemma apart_free u s t k : apart u s → free_for t k s = true → ∀ t' log, logs u !! t' = Some log → k ∈ log.*1 → t' = t.
Proof.
  intros H Hf t' log Hl Hk. unfold free_for in Hf. rewrite forallb_forall in Hf. specialize (Hf (t', log.*1)). simpl in Hf.
  rewrite orb_true_iff, negb_true_iff, bool_decide_eq_false, Z.eqb_eq in Hf. destruct Hf as [?|?]; [|done|done].
  apply list_elem_of_In, elem_of_map_to_list. by rewrite (apart_txn u s t' H), Hl.
Qed.

Lemma apart_write u s t log w :
  apart u s → free_for t w.1 s = true → logs u !! t = Some log →
  apart (uwrite t log w u) (mkStore (committed s) (write w (current s)) (<[t := log.*1 ++ [w.1]]> (writes s)) (next_id s)).
Proof.
  intros H Hf Hl. pose proof (apart_free u s t w.1 H Hf) as Hfree. destruct H as [H1 H2 H3 H4 H5].
  split; cbn [uwrite now logs unext current committed writes next_id]; [by rewrite H1| |done| |].
  - rewrite H2, fmap_insert. by rewrite fmap_app.
  - intros t' log' [[<- _]|[_ Ht]]%lookup_insert_Some; by eapply H4.
  - rewrite H1. destruct w as [k o]. by apply open_write.
Qed.

Lemma apart_put u s t k v :
  apart u s → free_for t k s = true → (uput_txn t k v u).1 = (put_txn t k v s).1 ∧ apart (uput_txn t k v u).2 (put_txn t k v s).2.
Proof.
  intros H Hf. unfold uput_txn, put_txn. destruct (_ <? _); [done|]. rewrite (apart_txn u s t H). destruct (logs u !! t) as [log|] eqn:E; [|done].
  split; [done|]. by apply (apart_write u s t log (k, Some v)).
Qed.

Lemma apart_delete u s t k :
  apart u s → free_for t k s = true → (udelete_txn t k u).1 = (delete_txn t k s).1 ∧ apart (udelete_txn t k u).2 (delete_txn t k s).2.
Proof.
  intros H Hf. unfold udelete_txn, delete_txn. rewrite (apart_txn u s t H), (ap_now _ _ H). destruct (logs u !! t) as [log|] eqn:E; [|done].
  cbn [fmap option_fmap option_map]. destruct (look k (current s)); [|done]. split; [done|]. by apply (apart_write u s t log (k, None)).
Qed.

Lemma apart_commit u s t : apart u s → (ucommit t u).1 = (commit t s).1 ∧ apart (ucommit t u).2 (commit t s).2.
Proof.
  intros H. unfold ucommit, commit. rewrite (apart_txn u s t H). destruct (logs u !! t) as [log|] eqn:E; [|done]. split; [done|].
  cbn [fmap option_fmap option_map snd]. destruct H as [H1 H2 H3 H4 H5]. split; cbn [now logs unext current committed writes next_id]; [done|by rewrite H2, fmap_delete|done| |].
  - intros t' log' [_ Ht]%lookup_delete_Some. by eapply H4.
  - by apply open_commit.
Qed.

Lemma apart_abort u s t : apart u s → (uabort t u).1 = (abort t s).1 ∧ apart (uabort t u).2 (abort t s).2.
Proof.
  intros H. unfold uabort, abort. rewrite (apart_txn u s t H). destruct (logs u !! t) as [log|] eqn:E; [|done]. split; [done|].
  cbn [fmap option_fmap option_map snd]. destruct H as [H1 H2 H3 H4 H5]. destruct (open_rollback _ _ _ _ _ H5 E) as [Hc Ho].
  split; cbn [now logs unext current committed writes next_id]; [by rewrite H1|by rewrite H2, fmap_delete|done| |].
  - intros t' log' [_ Ht]%lookup_delete_Some. by eapply H4.
  - by rewrite <-Hc.
Qed.

(** A transaction that begins has written nothing. *)
Lemma free_begin s k : free_for (next_id s) k s = true → free_for (next_id s) k (begin s) = true.
Proof.
  intros Hfree. unfold free_for in *. rewrite forallb_forall in *. intros [t ks] Hin. simpl. apply list_elem_of_In, elem_of_map_to_list in Hin. cbn [begin writes] in Hin.
  apply lookup_insert_Some in Hin as [[<- <-]|[Hne Hin]]; [by rewrite Z.eqb_refl|]. apply (Hfree (t, ks)). by apply list_elem_of_In, elem_of_map_to_list.
Qed.

(** As long as the transactions keep apart, both answer the same. *)
Lemma apart_step ev u s :
  apart u s → allowed ev s = true → call ev = true → (uspec ev u).1 = (spec ev s).1 ∧ apart (uspec ev u).2 (spec ev s).2.
Proof.
  intros H Ha Hc. pose proof (ap_now _ _ H) as Hn. pose proof (ap_next _ _ H) as Hx. pose proof (apart_begin u s H) as Hb.
  destruct ev as [k|k v|k|k n| |t k|t k v|t k|t|t| |]; cbn [uspec spec allowed] in *; rewrite ?Hn, ?Hx; try done.
  - destruct (apart_put _ _ (next_id s) k v Hb (free_begin s k Ha)) as [E H1].
    destruct (uput_txn _ _ _ _) as [r1 u1], (put_txn _ _ _ _) as [r2 s1]. cbn [fst snd] in *. subst r1. destruct r2; [|done..].
    by apply apart_commit.
  - destruct (apart_delete _ _ (next_id s) k Hb (free_begin s k Ha)) as [E H1].
    destruct (udelete_txn _ _ _) as [r1 u1], (delete_txn _ _ _) as [r2 s1]. cbn [fst snd] in *. subst r1. split; [done|].
    by apply apart_commit.
  - rewrite (apart_txn u s t H). by destruct (logs u !! t).
  - by apply apart_put.
  - by apply apart_delete.
  - by apply apart_commit.
  - by apply apart_abort.
Qed.

(** ** How much there is to undo *)

Definition total (act : gmap Z TxnState) : nat := sum_list_with (λ x, length (undo_log x.2)) (map_to_list act).

Lemma sum_perm {A} (f : A → nat) l l' : l ≡ₚ l' → sum_list_with f l = sum_list_with f l'.
Proof. induction 1; simpl; lia. Qed.

Lemma total_insert act t s : act !! t = None → total (<[t := s]> act) = (length (undo_log s) + total act)%nat.
Proof. intros Ht. unfold total. rewrite (sum_perm _ _ _ (map_to_list_insert _ _ s Ht)). done. Qed.

Lemma total_delete act t s : act !! t = Some s → total act = (length (undo_log s) + total (delete t act))%nat.
Proof. intros Hs. rewrite <-(total_insert (delete t act) t s) by apply lookup_delete_eq. by rewrite insert_delete_id. Qed.

Lemma total_replace act t s s' : act !! t = Some s → (total (<[t := s']> act) + length (undo_log s) = total act + length (undo_log s'))%nat.
Proof.
  intros Hs. rewrite (total_delete act t s Hs), <-insert_delete_eq, total_insert by apply lookup_delete_eq. lia.
Qed.

(** * The state of the WAL engine *)

(** ** Checkpoints *)

(** The records of a checkpoint, from [c] on: it found [sd] active. *)
Record bracket (rs : records) (c : Z) (sd : list (Z * Z)) : Prop := {
  br_pos : 0 ≤ c;
  br_begin : ∃ r, rs !! Z.to_nat c = Some r ∧ LogRecord.type r = LogRecordType.CHECKPOINT_BEGIN;
  br_active : ∀ i x, sd !! i = Some x → ∃ r, rs !! (Z.to_nat c + 1 + i)%nat = Some r ∧ LogRecord.type r = LogRecordType.ACTIVE_TXN ∧
    LogRecord.active_txn_id r = x.1 ∧ LogRecord.active_txn_last_lsn r = x.2;
  br_end : ∃ r, rs !! (Z.to_nat c + 1 + length sd)%nat = Some r ∧ LogRecord.type r = LogRecordType.CHECKPOINT_END;
}.

Lemma bracket_app rs rs' c sd : bracket rs c sd → bracket (rs ++ rs') c sd.
Proof.
  intros [H0 (r1 & H1 & T1) H2 (r3 & H3 & T3)]. split; [done| | |].
  - exists r1. split; [by apply lookup_app_l_Some|done].
  - intros i x (r & Hr & Ht)%H2. exists r. split; [by apply lookup_app_l_Some|done].
  - exists r3. split; [by apply lookup_app_l_Some|done].
Qed.

Lemma bracket_length rs c sd : bracket rs c sd → c + 1 + Z.of_nat (length sd) < Z.of_nat (length rs).
Proof. intros [H0 _ _ (r & Hr%lookup_lt_Some & _)]. lia. Qed.

Lemma min_lsn_spec sd : ∀ c, 0 ≤ c → 0 ≤ min_lsn c sd ≤ c ∧ ∀ x, x ∈ sd → 0 ≤ x.2 → min_lsn c sd ≤ x.2.
Proof.
  unfold min_lsn. induction sd as [|y sd IH]; intros c Hc; cbn [foldl]; [split; [lia|set_solver]|].
  destruct (Z.leb_spec 0 y.2), (Z.ltb_spec y.2 c); simpl.
  - destruct (IH y.2) as [? Hx]; [done|]. split; [lia|]. intros x [->|?]%elem_of_cons ?; [lia|by apply Hx].
  - destruct (IH c) as [? Hx]; [done|]. split; [lia|]. intros x [->|?]%elem_of_cons ?; [lia|by apply Hx].
  - destruct (IH c) as [? Hx]; [done|]. split; [lia|]. intros x [->|?]%elem_of_cons ?; [lia|by apply Hx].
  - destruct (IH c) as [? Hx]; [done|]. split; [lia|]. intros x [->|?]%elem_of_cons ?; [lia|by apply Hx].
Qed.

(** Page 0 names the checkpoint [c]; recovery starts at [start] with [sd]. *)
Definition marked (rs : records) (c start : Z) (sd : list (Z * Z)) : Prop :=
  (c = -1 ∧ start = 0 ∧ sd = []) ∨ (bracket rs c sd ∧ start = min_lsn c sd).

Lemma marked_app rs rs' c start sd : marked rs c start sd → marked (rs ++ rs') c start sd.
Proof. intros [?|[? ?]]; [by left|right]. split; [by apply bracket_app|done]. Qed.

Lemma marked_start rs c start sd : marked rs c start sd → 0 ≤ start ≤ Z.of_nat (length rs) ∧ (rs ≠ [] → start < Z.of_nat (length rs)).
Proof.
  intros [(_ & -> & _)|[Hb ->]].
  - split; [lia|]. destruct rs; simpl; [done|lia].
  - pose proof (bracket_length _ _ _ Hb). destruct (min_lsn_spec sd c (br_pos _ _ _ Hb)) as [? _]. lia.
Qed.

(** ** The file *)

(** The largest budget of insertions a tree on few pages is given. *)
Definition room : Z := 2 ^ 43.

(** The file holds the entries [ds], and page 0 names the checkpoint [c]. *)
Definition on_file (F : DiskManager.file) (ds : entries) (c : Z) : Prop :=
  (F = DiskManager.File [] [] ∧ ds = [] ∧ c = -1) ∨ ∀ n, Z.of_nat n ≤ room → saved (names_checkpoint c) n F ds.

(** ** Log and file *)

(** The log gives the entries [es]; it would undo [pend]; the file with the
    tail of the log gives [es], too. *)
Record logged (F : DiskManager.file) (c start : Z) (sd : list (Z * Z)) (rs : records) (es : entries)
    (pend : Z → list UndoEntry) (act : gmap Z TxnState) : Prop := {
  lg_lsn : ∀ i r, rs !! i = Some r → LogRecord.lsn r = Z.of_nat i;
  lg_good : Forall good rs;
  lg_sorted : sorted es;
  lg_look : ∀ k, look k es = default None (final k rs);
  lg_chains : chains rs pend;
  lg_last : ∀ t s, act !! t = Some s → analysed rs !! t = Some (last_lsn s);
  lg_from : ∀ t s, act !! t = Some s → start ≤ last_lsn s;
  lg_marked : marked rs c start sd;
  lg_listed : listed rs start sd;
  lg_file : ∃ ds, on_file F ds c ∧ sorted ds ∧ ∀ k, final k (drop (Z.to_nat start) rs) = None → look k ds = look k es;
}.

Lemma drop_snoc (rs : records) n r : (n ≤ length rs)%nat → drop n (rs ++ [r]) = drop n rs ++ [r].
Proof. intros. by rewrite drop_app_le. Qed.

Lemma logged_snoc F c start sd rs es pend act r pend' act' :
  logged F c start sd rs es pend act → LogRecord.lsn r = Z.of_nat (length rs) → good r → chains (rs ++ [r]) pend' →
  (∀ t s, act' !! t = Some s →
    if marks t r then LogRecord.type r ≠ LogRecordType.COMMIT ∧ last_lsn s = LogRecord.lsn r
    else ∃ s0, act !! t = Some s0 ∧ last_lsn s = last_lsn s0) →
  logged F c start sd (rs ++ [r]) (effect es r) pend' act'.
Proof.
  intros [Hlsn Hgood Hs Hlook Hch Hlast Hfrom Hmk Hlist (ds & Hf & Hds & Hd)] Hr Hg Hch' Hact.
  pose proof (marked_start _ _ _ _ Hmk) as [Hst _].
  split; [| |by apply sorted_effect| |done| | |by apply marked_app| |].
  - intros i r' [Hi|[Hge Hi]]%lookup_app_Some; [by apply Hlsn|]. apply list_lookup_singleton_Some in Hi as [Hi <-]. rewrite Hr. lia.
  - apply Forall_app. split; [done|]. by constructor.
  - intros k. rewrite look_effect, final_snoc, Hlook by done. unfold note. destruct (write_of r) as [w|]; [|done]. by destruct (w.1 =? k).
  - intros t s Ht. specialize (Hact t s Ht). rewrite analysed_snoc, analyse_lookup. destruct (marks t r).
    + destruct Hact as [Hn ->]. by rewrite (proj2 (Z.eqb_neq _ _) Hn).
    + destruct Hact as (s0 & Hs0 & ->). by apply Hlast.
  - intros t s Ht. specialize (Hact t s Ht). destruct (marks t r); [destruct Hact as [_ ->]; lia|]. destruct Hact as (s0 & Hs0 & ->). by eapply Hfrom.
  - intros x Hx. rewrite drop_snoc by lia. apply Exists_app. left. by apply Hlist.
  - exists ds. split_and!; [done|done|]. intros k. rewrite drop_snoc by lia. rewrite final_snoc, look_effect by done. unfold note.
    destruct (write_of r) as [w|]; [|apply Hd]. destruct (w.1 =? k); [done|apply Hd].
Qed.

(** A record that neither writes nor belongs to a transaction. *)
Definition idle (r : LogRecord.t) : Prop := plain r ∧ LogRecord.type r ≠ LogRecordType.BEGIN ∧ LogRecord.type r ≠ LogRecordType.COMMIT.

Lemma idle_marks r t : idle r → marks t r = false.
Proof.
  intros ([H1 H2] & H3 & H4). unfold marks.
  by rewrite (proj2 (Z.eqb_neq _ _) H1), (proj2 (Z.eqb_neq _ _) H2), (proj2 (Z.eqb_neq _ _) H3), (proj2 (Z.eqb_neq _ _) H4).
Qed.

Lemma effect_plain es r : plain r → effect es r = es.
Proof. intros H. unfold effect. by rewrite write_of_plain. Qed.

Lemma effect_write es r w :
  LogRecord.type r = LogRecordType.UPDATE ∨ LogRecord.type r = LogRecordType.CLR → is_write r w → effect es r = write w es.
Proof. intros Ht Hw. unfold effect. by rewrite (write_of_write r w). Qed.

Lemma logged_idle F c start sd rs es pend act r :
  logged F c start sd rs es pend act → LogRecord.lsn r = Z.of_nat (length rs) → idle r →
  logged F c start sd (rs ++ [r]) es pend act.
Proof.
  intros Hl Hr Hi. rewrite <-(effect_plain es r) by apply Hi. eapply logged_snoc; [done|done|apply good_plain, Hi| |].
  - apply chains_skip; [apply Hl|]. intros t. by apply idle_marks.
  - intros t s Hs. rewrite (idle_marks r t) by done. by exists s.
Qed.

(** A compensation record of a transaction that is no longer open. *)
Lemma logged_clr F c start sd rs es pend act r t w us us' :
  logged F c start sd rs es (replaced t us' pend) act → LogRecord.lsn r = Z.of_nat (length rs) → act !! t = None →
  LogRecord.txn_id r = t → is_clr r w → chain rs (LogRecord.undo_next_lsn r) us →
  logged F c start sd (rs ++ [r]) (write w es) (replaced t us pend) act.
Proof.
  intros Hl Hr Ht Htx Hc Hch. rewrite <-(effect_write es r w) by (apply Hc || by right; apply Hc).
  eapply logged_snoc; [done|done|by eapply good_clr| |].
  - eapply chains_ext; [eapply snoc_clr; [apply Hl|done|apply Hc|done]|]. intros t'. rewrite Htx. unfold replaced. by destruct (t' =? t).
  - intros t' s Hs. assert (marks t' r = false) as ->; [|by exists s]. apply andb_false_iff. right. apply Z.eqb_neq. congruence.
Qed.

(** ** Transactions in the log *)

Lemma pend_delete act t us t' : replaced t us (pend_of act) t' = replaced t us (pend_of (delete t act)) t'.
Proof. unfold replaced, pend_of. destruct (Z.eqb_spec t' t); [done|]. by rewrite lookup_delete_ne. Qed.

Lemma pend_insert act t s t' : replaced t (reverse (undo_log s)) (pend_of act) t' = pend_of (<[t := s]> act) t'.
Proof. unfold replaced, pend_of. destruct (Z.eqb_spec t' t) as [->|]; [by rewrite lookup_insert_eq|]. by rewrite lookup_insert_ne. Qed.

Lemma pend_id act t t' : replaced t (pend_of act t) (pend_of act) t' = pend_of act t'.
Proof. unfold replaced. by destruct (Z.eqb_spec t' t) as [->|]. Qed.

Lemma marks_txn t r : marks t r = true → LogRecord.txn_id r = t.
Proof. intros [_ H%Z.eqb_eq]%andb_true_iff. done. Qed.

Lemma marks_self r :
  LogRecord.type r ∈ [LogRecordType.BEGIN; LogRecordType.UPDATE; LogRecordType.CLR; LogRecordType.COMMIT] → marks (LogRecord.txn_id r) r = true.
Proof.
  intros H. unfold marks. rewrite Z.eqb_refl, andb_true_r. rewrite !orb_true_iff, !Z.eqb_eq. set_solver.
Qed.

Section steps.
Context (F : DiskManager.file) (c start : Z) (sd : list (Z * Z)) (rs : records) (es : entries) (act : gmap Z TxnState).
Hypothesis Hl : logged F c start sd rs es (pend_of act) act.

Lemma logged_begin r t :
  LogRecord.lsn r = Z.of_nat (length rs) → LogRecord.type r = LogRecordType.BEGIN → LogRecord.txn_id r = t → act !! t = None →
  let act' := <[t := mkTxn (LogRecord.lsn r) []]> act in logged F c start sd (rs ++ [r]) es (pend_of act') act'.
Proof using Hl.
  intros Hr Hty Htx Ht act'.
  assert (Hp : plain r) by (by split; rewrite Hty). rewrite <-(effect_plain es r Hp). eapply logged_snoc; [done|done|by apply good_plain| |].
  - eapply chains_ext; [by eapply snoc_begin; [apply Hl|..]|]. intros t'. rewrite Htx. apply (pend_insert act t (mkTxn (LogRecord.lsn r) [])).
  - intros t' s [[<- <-]|[Hne Hs]]%lookup_insert_Some.
    + rewrite <-Htx, marks_self by (rewrite Hty; set_solver). by rewrite Hty.
    + destruct (marks t' r) eqn:E; [|by exists s]. apply marks_txn in E. congruence.
Qed.

Lemma logged_update r t s w u :
  LogRecord.lsn r = Z.of_nat (length rs) → LogRecord.txn_id r = t → act !! t = Some s → is_update r w u → LogRecord.prev_lsn r = last_lsn s →
  let act' := <[t := mkTxn (LogRecord.lsn r) (undo_log s ++ [u])]> act in logged F c start sd (rs ++ [r]) (write w es) (pend_of act') act'.
Proof using Hl.
  intros Hr Htx Hs Hu Hprev act'. pose proof (up_write _ _ _ Hu) as Hw.
  rewrite <-(effect_write es r w) by (done || left; apply Hu). eapply logged_snoc; [done|done|by eapply good_update| |].
  - eapply chains_ext; [eapply (snoc_update _ _ _ (lg_chains _ _ _ _ _ _ _ _ Hl) Hr _ _ (reverse (undo_log s)) Hu)|].
    + rewrite Hprev. pose proof (lg_chains _ _ _ _ _ _ _ _ Hl t _ (lg_last _ _ _ _ _ _ _ _ Hl t s Hs)) as Hch. unfold pend_of in Hch. by rewrite Hs in Hch.
    + intros t'. unfold act'. rewrite <-pend_insert. simpl. by rewrite Htx, reverse_snoc.
  - intros t' s' [[<- <-]|[Hne Hs']]%lookup_insert_Some.
    + rewrite <-Htx, marks_self by (rewrite (up_type _ _ _ Hu); set_solver). by rewrite (up_type _ _ _ Hu).
    + destruct (marks t' r) eqn:E; [|by exists s']. apply marks_txn in E. congruence.
Qed.

Lemma logged_commit r t :
  LogRecord.lsn r = Z.of_nat (length rs) → LogRecord.type r = LogRecordType.COMMIT → LogRecord.txn_id r = t →
  logged F c start sd (rs ++ [r]) es (pend_of (delete t act)) (delete t act).
Proof using Hl.
  intros Hr Hty Htx.
  assert (Hp : plain r) by (by split; rewrite Hty). rewrite <-(effect_plain es r Hp). eapply logged_snoc; [done|done|by apply good_plain| |].
  - eapply chains_ext; [by eapply (snoc_commit _ _ _ (lg_chains _ _ _ _ _ _ _ _ Hl) Hr [])|]. intros t'. rewrite Htx. unfold replaced, pend_of.
    destruct (Z.eqb_spec t' t) as [->|]; [by rewrite lookup_delete_eq|by rewrite lookup_delete_ne].
  - intros t' s' [Hne Hs']%lookup_delete_Some. destruct (marks t' r) eqn:E; [|by exists s']. apply marks_txn in E. congruence.
Qed.
End steps.

(** The transaction [t] leaves the open ones, to be undone. *)
Lemma logged_leave F c start sd rs es act t :
  logged F c start sd rs es (pend_of act) act →
  logged F c start sd rs es (replaced t (pend_of act t) (pend_of (delete t act))) (delete t act).
Proof.
  intros Hl. assert (Hp : ∀ t', pend_of act t' = replaced t (pend_of act t) (pend_of (delete t act)) t').
  { intros t'. by rewrite <-pend_delete, pend_id. }
  destruct Hl as [? ? ? ? Hch Hlast Hfrom ? ? ?]. split; try done.
  - by eapply chains_ext.
  - intros t' s' [_ Hs']%lookup_delete_Some. by apply Hlast.
  - intros t' s' [_ Hs']%lookup_delete_Some. by eapply Hfrom.
Qed.

Lemma pend_Some act t s : act !! t = Some s → pend_of act t = reverse (undo_log s).
Proof. unfold pend_of. by intros ->. Qed.

(** The logs of the open transactions. *)
Definition logs_of (act : gmap Z TxnState) : gmap Z (list (KeyType * option string)) := (λ s, entry_of <$> undo_log s) <$> act.

Lemma logs_lookup act t : logs_of act !! t = (λ s, entry_of <$> undo_log s) <$> act !! t.
Proof. apply lookup_fmap. Qed.

Lemma open_leave cs es act t : open_over cs es (logs_of act) → open_over cs (undo (pend_of act t) es) (logs_of (delete t act)).
Proof.
  intros Ho. unfold pend_of, logs_of in *. rewrite fmap_delete. destruct (act !! t) as [s|] eqn:Hs.
  - rewrite undo_rollback. apply open_rollback; [done|]. by rewrite lookup_fmap, Hs.
  - rewrite delete_id; [done|]. by rewrite lookup_fmap, Hs.
Qed.

Lemma total_leave act t : total act = (length (pend_of act t) + total (delete t act))%nat.
Proof.
  unfold pend_of. destruct (act !! t) as [s|] eqn:Hs; [rewrite length_reverse; by apply total_delete|]. by rewrite delete_id.
Qed.

(** The file is another one with the entries. *)
Lemma logged_file F c start sd rs es pend act F' : logged F c start sd rs es pend act → on_file F' es c → logged F' c start sd rs es pend act.
Proof. intros [] Hf. split; try done. by exists es. Qed.

(** It has been undone. *)
Lemma logged_left F c start sd rs es act t :
  logged F c start sd rs es (replaced t [] (pend_of (delete t act))) (delete t act) →
  logged F c start sd rs es (pend_of (delete t act)) (delete t act).
Proof.
  intros [? ? ? ? Hch ? ? ? ? ?]. split; try done. eapply chains_ext; [done|]. intros t'. unfold replaced, pend_of.
  destruct (Z.eqb_spec t' t) as [->|]; [by rewrite lookup_delete_eq|done].
Qed.

(** A checkpoint is recorded: the file has the entries. *)
Lemma logged_checkpoint F c start sd rs es pend act F' c' sd' :
  logged F c start sd rs es pend act → bracket rs c' sd' → on_file F' es c' →
  (∀ x, x ∈ sd' ↔ ∃ s, act !! x.1 = Some s ∧ last_lsn s = x.2) →
  logged F' c' (min_lsn c' sd') sd' rs es pend act.
Proof.
  intros Hl Hb Hf Hsd. pose proof (br_pos _ _ _ Hb) as H0. destruct (min_lsn_spec sd' c' H0) as [Hm Hmin].
  destruct Hl as [Hlsn ? ? ? ? Hlast ? ? ? ?].
  assert (Hst : ∀ x, x ∈ sd' → min_lsn c' sd' ≤ x.2 ∧ ∃ r, rs !! Z.to_nat x.2 = Some r ∧ 0 ≤ x.2 ∧ marks x.1 r = true).
  { intros x Hx. pose proof (proj1 (Hsd x) Hx) as (s & Hs & E). destruct (analysed_record rs Hlsn x.1 (last_lsn s) (Hlast _ _ Hs)) as (r & H1 & H2 & H3).
    rewrite E in *. split; [by apply Hmin|]. by exists r. }
  split; try done.
  - intros t s Hs. apply (Hst (t, last_lsn s)). apply Hsd. by exists s.
  - by right.
  - intros x (Hle & r & Hr & Hx0 & Hmk)%Hst. apply Exists_exists. exists r. split; [|done]. apply list_elem_of_lookup.
    exists (Z.to_nat x.2 - Z.to_nat (min_lsn c' sd'))%nat. rewrite lookup_drop. rewrite <-Hr. f_equal. lia.
  - by exists es.
Qed.
