(* ===== verification/WalSteps.v ===== *)
(** * Steps of the WAL engine

    What the engine's calls on its tree and its log do: the records it
    writes, redo, undo and checkpoints. *)

From S2P Require Import Prelude Entries Bytes Disk Replacer Buffer BufferTheory TreePages BTree Engine BTreeEngine BTreeSim.
From S2P Require Import BTreeRep BTreeInsert BTreeEngineTheory BTreeReopen Structs Wal WalTheory WalEngine WalSpec WalPool.
From S2P Require Import WalTree WalState.

(** * Records and calls *)

Import WALBPlusTreeEngine WalSpec LogRecordTheory LogTheory.

(** ** Records *)

Lemma i64_of (z : Z) : - 2 ^ 62 ≤ z ≤ 2 ^ 62 → is_i64 z.
Proof. unfold is_i64, int64_min, int64_max. lia. Qed.

Lemma wf_header t ty prev : is_i64 t → is_i64 prev → is_i32 ty → wf (LogRecord.set_header t ty prev LogRecord.init).
Proof. intros. split; try done; by vm_compute. Qed.

Lemma wf_set_op o k r : wf r → is_i32 o → is_i64 k → wf (LogRecord.set_op o k r).
Proof. intros [] ? ?. by split. Qed.

Lemma wf_set_undo l r : wf r → is_i64 l → wf (LogRecord.set_undo_next l r).
Proof. intros [] ?. by split. Qed.

Lemma wf_set_active t l r : wf r → is_i64 t → is_i64 l → wf (LogRecord.set_active t l r).
Proof. intros [] ? ?. by split. Qed.

(** The operation of a write, and the value it has. *)
Definition op_of (o : option string) : Z := match o with Some _ => LogOpType.PUT | None => LogOpType.DELETE end.

Lemma i32_op o : is_i32 (op_of o).
Proof. by destruct o; vm_compute. Qed.

Lemma update_record_ok t k prev old new :
  is_i64 t → is_i64 k → is_i64 prev → small old → small new → (new = None → is_Some old) →
  ∃ r, update_record t (op_of new) k prev old new = Val r ∧ wf r ∧ LogRecord.txn_id r = t ∧ LogRecord.prev_lsn r = prev ∧
    is_update r (k, new) (mkUndo (op_of new) k (bool_decide (is_Some old)) (default EmptyString old) prev).
Proof.
  intros Ht Hk Hp Hold Hnew Hsome. unfold update_record. set (r0 := LogRecord.set_op _ _ _).
  assert (Hw0 : wf r0) by (apply wf_set_op; [by apply wf_header|apply i32_op|done]).
  assert (∃ r1, match old with Some v => LogRecord.SetOldValue v r0 | None => Val r0 end = Val r1 ∧ wf r1 ∧
    LogRecord.OldValue r1 = Val (default EmptyString old) ∧ negb (LogRecord.has_old_value r1 =? 0) = bool_decide (is_Some old) ∧
    LogRecord.txn_id r1 = t ∧ LogRecord.prev_lsn r1 = prev ∧ LogRecord.type r1 = LogRecordType.UPDATE ∧ LogRecord.op r1 = op_of new ∧ LogRecord.key r1 = k)
    as (r1 & -> & Hw1 & Ho1 & Hh1 & Ht1 & Hp1 & Hty1 & Hop1 & Hk1).
  { destruct old as [v|]; [|by exists r0]. destruct (SetOldValue_ok v r0 Hw0 (Hold v eq_refl)) as (r1 & E & Hw1 & Hv & Er). exists r1.
    split_and!; [done|done|done|by rewrite Er..]. }
  cbn [mbind res_bind].
  assert (∃ r2, match new with Some v => LogRecord.SetNewValue v r1 | None => Val r1 end = Val r2 ∧ wf r2 ∧ (∀ v, new = Some v → LogRecord.NewValue r2 = Val v) ∧
    LogRecord.OldValue r2 = LogRecord.OldValue r1 ∧ LogRecord.has_old_value r2 = LogRecord.has_old_value r1 ∧ LogRecord.txn_id r2 = LogRecord.txn_id r1 ∧
    LogRecord.prev_lsn r2 = LogRecord.prev_lsn r1 ∧ LogRecord.type r2 = LogRecord.type r1 ∧ LogRecord.op r2 = LogRecord.op r1 ∧ LogRecord.key r2 = LogRecord.key r1)
    as (r2 & E2 & Hw2 & Hn2 & Ho2 & Hh2 & Ht2 & Hp2 & Hty2 & Hop2 & Hk2).
  { destruct new as [v|]; [|by exists r1]. destruct (SetNewValue_ok v r1 Hw1 (Hnew v eq_refl)) as (r2 & E & Hw2 & Hv & Er). exists r2.
    split_and!; [done|done|by intros v' [= <-]|by rewrite Er..]. }
  exists r2. split_and!; [done|done|congruence|congruence|]. split; cbn [u_op u_key u_has_old_value u_old_value u_undo_next_lsn fst snd].
  - congruence.
  - split_and!; cbn [fst snd]; [rewrite Hop2, Hop1; by destruct new|congruence|done|done|done].
  - congruence.
  - congruence.
  - congruence.
  - congruence.
  - congruence.
  - destruct old as [v|]; [by apply Hold|]. by vm_compute.
  - intros E. apply bool_decide_true. by apply Hsome.
Qed.

Lemma clr_ok t k prev next o :
  is_i64 t → is_i64 k → is_i64 prev → is_i64 next → small o →
  ∃ r, clr t (op_of o) k prev next (default EmptyString o) (bool_decide (is_Some o)) = Val r ∧ wf r ∧ LogRecord.txn_id r = t ∧
    LogRecord.undo_next_lsn r = next ∧ is_clr r (k, o).
Proof.
  intros Ht Hk Hp Hn Ho. unfold clr. set (r0 := LogRecord.set_undo_next _ _).
  assert (Hw0 : wf r0) by (apply wf_set_undo; [apply wf_set_op; [by apply wf_header|apply i32_op|done]|done]).
  destruct o as [v|].
  - destruct (SetNewValue_ok v r0 Hw0 (Ho v eq_refl)) as (r & E & Hw & Hv & Er). exists r. split_and!; [done|done|by rewrite Er|by rewrite Er|].
    split; [by rewrite Er|]. split_and!; cbn [fst snd]; [by rewrite Er|by rewrite Er|done|done|]. by intros v' [= <-].
  - exists r0. split_and!; [done|done|done|done|]. by split_and!.
Qed.

(** What an abort does about an update is to write back what it replaced. *)
Lemma compensation r w u :
  is_update r w u →
  ComputeCompensation (u_op u) (u_has_old_value u) (u_old_value u) = (op_of (old_of u), default EmptyString (old_of u), bool_decide (is_Some (old_of u))).
Proof.
  intros [_ [Hop _] Hu _ _ _ _ _ Hd]. unfold ComputeCompensation, old_of. rewrite Hu, Hop. destruct w as [k [v|]]; simpl in *.
  - by destruct (u_has_old_value u).
  - by rewrite Hd.
Qed.

Lemma update_old r w u : is_update r w u → small (old_of u) ∧ is_i64 (u_key u).
Proof.
  intros [_ (_ & Hk & Hi & _) _ Hu _ _ _ Hs _]. split.
  - intros v. unfold old_of. destruct (u_has_old_value u); [|done]. by intros [= <-].
  - by rewrite Hu, Hk.
Qed.

Lemma is_update_lsn l r w u : is_update r w u → is_update (LogRecord.set_lsn l r) w u.
Proof. by intros []. Qed.

Lemma is_clr_lsn l r w : is_clr r w → is_clr (LogRecord.set_lsn l r) w.
Proof. done. Qed.

(** ** The log *)

Section steps.
Context (cap interval : Z).
Hypothesis Hcap : 70 ≤ cap.

Abbreviation eng tr l since count next act := (mk tr (Some l) true interval since count next act) (only parsing).
Implicit Types (F : DiskManager.file) (tr : tree) (l : LogManager.t) (since count next : Z) (act : gmap Z TxnState).

Lemma append_step rs tr l since count next act r :
  log_rep rs l → Z.of_nat (length rs) < 2 ^ 50 → wf r →
  ∃ l', on_log (LogManager.Append r) (eng tr l since count next act) = (Val (Z.of_nat (length rs)), eng tr l' since count next act) ∧
    log_rep (rs ++ [LogRecord.set_lsn (Z.of_nat (length rs)) r]) l'.
Proof. intros Hl Hn Hw. destruct (Append_ok rs l r Hl Hn Hw) as (l' & E & Hl'). exists l'. unfold on_log. simpl. by rewrite E. Qed.

Lemma flush_step rs tr l since count next act :
  log_rep rs l →
  ∃ l', on_log LogManager.Flush (eng tr l since count next act) = (Val tt, eng tr l' since count next act) ∧ log_rep rs l'.
Proof.
  intros Hl. exists l. split; [|done]. pose proof (lr_healthy _ _ Hl) as Hh. destruct l as [[[data fs] nm nx nr nw] n p b].
  unfold DiskManager.healthy in Hh. simpl in Hh. by subst fs.
Qed.

Lemma read_step rs tr l since count next act i r :
  log_rep rs l → 0 ≤ i → rs !! Z.to_nat i = Some r →
  ∃ l', on_log (LogManager.ReadRecord i) (eng tr l since count next act) = (Val r, eng tr l' since count next act) ∧ log_rep rs l'.
Proof. intros Hl Hi Hr. destruct (ReadRecord_ok rs l i r Hl Hi Hr) as (l' & E & Hl'). exists l'. unfold on_log. simpl. by rewrite E. Qed.

(** ** The tree *)

Lemma tree_less F n n' tr es c : tree_at cap F n tr es c → (n' ≤ n)%nat → tree_at cap F n' tr es c.
Proof.
  intros (a & Hr & H & nx & r & ps & -> & [Ht Hi Hn Hs Hk] & Hm) Hle. eexists. split; [done|]. exists H, nx, r, ps. split_and!; [done| |done].
  split; try done. eapply addressable_le; [exact Hs|]. unfold put_pages. lia.
Qed.

Lemma get_step F n tr es c l since count next act k :
  tree_at cap F n tr es c →
  ∃ tr', on_tree (BPlusTree.GetValue tree_fuel k) (eng tr l since count next act) = (Val (look k es), eng tr' l since count next act) ∧
    tree_at cap F n tr' es c.
Proof using Hcap. intros Ht. destruct (tree_get cap Hcap F n tr es c k Ht) as (tr' & E & Ht'). exists tr'. unfold on_tree. simpl. by rewrite E. Qed.

Lemma insert_step F n tr es c l since count next act k v :
  tree_at cap F (S n) tr es c → is_i64 k → ssize v ≤ MAX_VALUE_SIZE →
  ∃ tr', (_ ← on_tree (BPlusTree.Insert tree_fuel k v); MaybeUpdateRootPageId) (eng tr l since count next act) = (Val tt, eng tr' l since count next act) ∧
    tree_at cap F n tr' (ins k v es) c.
Proof using Hcap.
  intros Ht Hk Hv. destruct (tree_insert cap Hcap F n tr es c k v Ht Hk Hv) as (b & tr1 & tr2 & E1 & E2 & Ht2). exists tr2. split; [|done].
  unfold MaybeUpdateRootPageId, on_tree, mbind, M_bind. simpl. rewrite E1. simpl. by rewrite E2.
Qed.

Lemma remove_step F n tr es c l since count next act k :
  tree_at cap F n tr es c →
  ∃ tr', (_ ← on_tree (BPlusTree.Remove tree_fuel k); MaybeUpdateRootPageId) (eng tr l since count next act) = (Val tt, eng tr' l since count next act) ∧
    tree_at cap F n tr' (del k es) c.
Proof using Hcap.
  intros Ht. destruct (tree_remove cap Hcap F n tr es c k Ht) as (b & tr1 & tr2 & E1 & E2 & Ht2). exists tr2. split; [|done].
  unfold MaybeUpdateRootPageId, on_tree, mbind, M_bind. simpl. rewrite E1. simpl. by rewrite E2.
Qed.

Lemma apply_step F n tr es c l since count next act k o :
  tree_at cap F (S n) tr es c → is_i64 k → small o →
  ∃ tr', apply (op_of o) k (default EmptyString o) (eng tr l since count next act) = (Val tt, eng tr' l since count next act) ∧
    tree_at cap F n tr' (write (k, o) es) c.
Proof using Hcap.
  intros Ht Hk Ho. unfold apply. destruct o as [v|]; simpl.
  - destruct (insert_step F n tr es c l since count next act k v Ht Hk (Ho v eq_refl)) as (tr' & E & Ht'). exists tr'. split; [|done]. by mstep.
  - apply tree_less with (n' := n) in Ht; [|lia]. destruct (remove_step F n tr es c l since count next act k Ht) as (tr' & E & Ht'). exists tr'. split; [|done]. by mstep.
Qed.

(** Redo applies what the record wrote. *)
Lemma redo_record_ok F n tr es c l since count next act r :
  tree_at cap F (S n) tr es c → good r →
  ∃ tr', redo_record r (eng tr l since count next act) = (Val tt, eng tr' l since count next act) ∧ tree_at cap F n tr' (effect es r) c.
Proof using Hcap.
  intros Ht Hg. unfold redo_record. destruct (_ || _) eqn:Ety.
  - assert (Hty : LogRecord.type r = LogRecordType.UPDATE ∨ LogRecord.type r = LogRecordType.CLR).
    { apply orb_true_iff in Ety as [?%Z.eqb_eq|?%Z.eqb_eq]; tauto. }
    assert (∃ w, is_write r w) as ([k o] & Hw).
    { destruct Hg as [w u Hu|w Hc|[H1 H2]]; [exists w; apply Hu|exists w; apply Hc|tauto]. }
    rewrite (effect_write es r (k, o) Hty Hw). destruct Hw as (Hop & Hk & Hi & Hs & Hv). cbn [fst snd] in *. rewrite Hop, Hk. destruct o as [v|]; simpl.
    + rewrite (Hv v) by done. destruct (insert_step F n tr es c l since count next act k v Ht Hi (Hs v eq_refl)) as (tr' & E & Ht'). exists tr'. split; [|done].
      mrun (eq_refl : lift (Val v) (eng tr l since count next act) = (Val v, _)). done.
    + apply tree_less with (n' := n) in Ht; [|lia]. destruct (remove_step F n tr es c l since count next act k Ht) as (tr' & E & Ht'). exists tr'. split; [|done]. by mstep.
  - exists tr. split; [done|]. rewrite effect_plain; [by eapply tree_less; [done|lia]|]. apply orb_false_iff in Ety as [?%Z.eqb_neq ?%Z.eqb_neq]. done.
Qed.

Lemma redo_ok F c l since count next act rs : ∀ n tr es,
  tree_at cap F (length rs + n) tr es c → Forall good rs →
  ∃ tr', redo rs (eng tr l since count next act) = (Val tt, eng tr' l since count next act) ∧ tree_at cap F n tr' (replay es rs) c.
Proof using Hcap.
  induction rs as [|r rs IH]; intros n tr es Ht Hg; [by exists tr|]. apply Forall_cons in Hg as [Hr Hg].
  destruct (redo_record_ok F _ tr es c l since count next act r Ht Hr) as (tr1 & E1 & Ht1). destruct (IH n tr1 _ Ht1 Hg) as (tr2 & E2 & Ht2).
  exists tr2. cbn [redo]. split; [by mrun E1|done].
Qed.
End steps.

(** * Undo in the WAL engine *)

Section undo.
Context (cap interval : Z).
Hypothesis Hcap : 70 ≤ cap.
Context (F : DiskManager.file) (c start : Z) (sd : list (Z * Z)) (t : Z) (pend : Z → list UndoEntry) (act : gmap Z TxnState).
Hypothesis Ht : is_i64 t.
Hypothesis Hact : act !! t = None.

Abbreviation eng tr l since count next act := (mk tr (Some l) true interval since count next act) (only parsing).
Implicit Types (tr : tree) (l : LogManager.t) (since count next : Z) (ac : gmap Z TxnState).

(** The log [rs], the tree [tr] and what is left to undo of [t]. *)
Record undoing (n : nat) (rs : records) (es : entries) (us : list UndoEntry) tr l : Prop := {
  ud_logged : logged F c start sd rs es (replaced t us pend) act;
  ud_tree : tree_at cap F n tr es c;
  ud_log : log_rep rs l;
}.

(** What is left of the log when [us] has been undone. *)
Definition compensated (rs rs' : records) (us : list UndoEntry) : Prop :=
  length rs' = (length rs + length us)%nat ∧ ∀ t', t' ≠ t → analysed rs' !! t' = analysed rs !! t'.

(** Writing back what one update replaced, and logging it. *)
Lemma compensate n rs es us u tr l since count next ac prev r0 w0 :
  undoing (S n) rs es (u :: us) tr l → is_update r0 w0 u → chain rs (u_undo_next_lsn u) us → is_i64 prev → Z.of_nat (length rs) < 2 ^ 50 →
  ∃ tr' l' r, apply (op_of (old_of u)) (u_key u) (default EmptyString (old_of u)) (eng tr l since count next ac) = (Val tt, eng tr' l since count next ac) ∧
    clr t (op_of (old_of u)) (u_key u) prev (u_undo_next_lsn u) (default EmptyString (old_of u)) (bool_decide (is_Some (old_of u))) = Val r ∧
    on_log (LogManager.Append r) (eng tr' l since count next ac) = (Val (Z.of_nat (length rs)), eng tr' l' since count next ac) ∧
    let rs' := rs ++ [LogRecord.set_lsn (Z.of_nat (length rs)) r] in
    undoing n rs' (restore es u) us tr' l' ∧ compensated rs rs' [u].
Proof using Hcap Ht Hact.
  intros [Hl Htr Hlog] Hu Hch Hprev Hroom. destruct (update_old _ _ _ Hu) as [Hsm Hk]. pose proof (chain_bounds _ _ _ Hch) as Hb.
  destruct (apply_step cap interval Hcap F n tr es c l since count next ac (u_key u) (old_of u) Htr Hk Hsm) as (tr' & E1 & Htr').
  destruct (clr_ok t (u_key u) prev (u_undo_next_lsn u) (old_of u) Ht Hk Hprev) as (r & E2 & Hw & Htx & Hun & Hc); [apply i64_of; lia|done|].
  destruct (append_step interval rs tr' l since count next ac r Hlog Hroom Hw) as (l' & E3 & Hlog').
  exists tr', l', r. split_and!; [done|done|done|]. cbv zeta. split.
  - split; [|done|done]. apply (logged_clr _ _ _ _ _ _ pend act _ t (u_key u, old_of u) us (u :: us)); [done|done|done|exact Htx|exact Hc|].
    simpl. by rewrite Hun.
  - split; [rewrite length_app; simpl; lia|]. intros t' Hne. rewrite analysed_snoc, analyse_lookup.
    assert (marks t' (LogRecord.set_lsn (Z.of_nat (length rs)) r) = false) as ->; [|done].
    apply andb_false_iff. right. apply Z.eqb_neq. simpl. congruence.
Qed.

Lemma compensated_refl rs : compensated rs rs [].
Proof. split; [simpl; lia|done]. Qed.

Lemma compensated_cons rs rs1 rs2 u us : compensated rs rs1 [u] → compensated rs1 rs2 us → compensated rs rs2 (u :: us).
Proof. intros [H1 H2] [H3 H4]. simpl in *. split; [simpl; lia|]. intros t' Hn. by rewrite H4, H2. Qed.

(** The loop of [Abort]. *)
Lemma undo_entries_ok since count next ac us : ∀ n rs es tr l last lsn0,
  undoing (length us + n) rs es us tr l → chain rs lsn0 us → is_i64 last → Z.of_nat (length rs + length us) < 2 ^ 50 →
  ∃ tr' l' rs', undo_entries t us last (eng tr l since count next ac) = (Val tt, eng tr' l' since count next ac) ∧
    undoing n rs' (undo us es) [] tr' l' ∧ compensated rs rs' us.
Proof using Hcap Ht Hact.
  induction us as [|u us IH]; intros n rs es tr l last lsn0 Hud Hch Hlast Hroom.
  { exists tr, l, rs. split_and!; [done|done|apply compensated_refl]. }
  destruct (chain_entry _ _ _ u Hch ltac:(set_solver)) as (r0 & w0 & _ & Hu). destruct (chain_next _ _ _ _ Hch) as [Hnext _]. simpl in Hroom.
  destruct (compensate (length us + n) rs es us u tr l since count next ac last r0 w0 Hud Hu Hnext Hlast ltac:(lia)) as (tr1 & l1 & r & E1 & E2 & E3 & Hud1 & Hcp).
  cbv zeta in *. set (rs1 := rs ++ _) in *.
  destruct (IH n rs1 (restore es u) tr1 l1 (Z.of_nat (length rs)) (u_undo_next_lsn u) Hud1) as (tr2 & l2 & rs2 & E4 & Hud2 & Hcp2).
  { by apply chain_app. }
  { apply i64_of. lia. }
  { unfold rs1. rewrite length_app. simpl. lia. }
  exists tr2, l2, rs2. split_and!; [|done|by eapply compensated_cons]. cbn [undo_entries]. rewrite (compensation _ _ _ Hu). mrun E1.
  cbn [wal_enabled_]. rewrite E2. mrun (eq_refl : lift (Val r) (eng tr1 l since count next ac) = (Val r, _)). by mrun E3.
Qed.

(** Recovery's walk. *)
Lemma undo_chain_ok since count next ac fuel : ∀ us n rs es tr l lsn,
  undoing (length us + n) rs es us tr l → chain rs lsn us → lsn < Z.of_nat fuel → Z.of_nat (length rs + length us) < 2 ^ 50 →
  ∃ tr' l' rs', undo_chain fuel t lsn (eng tr l since count next ac) = (Val tt, eng tr' l' since count next ac) ∧
    undoing n rs' (undo us es) [] tr' l' ∧ compensated rs rs' us.
Proof using Hcap Ht Hact.
  induction fuel as [|fuel IH]; intros us n rs es tr l lsn Hud Hch Hfuel Hroom; pose proof (chain_bounds _ _ _ Hch) as Hb; [lia|].
  cbn [undo_chain]. rewrite (proj2 (Z.eqb_neq lsn (-1))) by lia.
  assert (∃ r, rs !! Z.to_nat lsn = Some r) as (r & Hr) by (destruct Hch; eauto).
  destruct (read_step interval rs tr l since count next ac lsn r (ud_log _ _ _ _ _ _ Hud) ltac:(lia) Hr) as (l1 & E1 & Hl1). mrun E1.
  destruct Hud as [Hlg Htr Hlog].
  inversion Hch as [? r' _ Hr' Hty|? r' ? _ Hr' Hty Hlt Hch'|? r' w u us' _ Hr' Hu Hlt Hch']; subst; rewrite Hr in Hr'; injection Hr' as <-.
  - rewrite Hty. exists tr, l1, rs. split_and!; [done|by split|apply compensated_refl].
  - rewrite Hty. simpl. apply IH; [by split|done|lia|done].
  - rewrite (up_type _ _ _ Hu). simpl. unfold undo_record. rewrite (up_old _ _ _ Hu).
    mrun (eq_refl : lift (Val (u_old_value u)) (eng tr l1 since count next ac) = (Val _, _)).
    rewrite (up_has _ _ _ Hu), <-(up_op _ _ _ Hu), (compensation _ _ _ Hu), <-(up_key _ _ _ Hu), <-(up_next _ _ _ Hu). rewrite <-(up_next _ _ _ Hu) in Hlt, Hch'.
    destruct (compensate (length us' + n) rs es us' u tr l1 since count next ac (-1) r w) as (tr2 & l2 & r2 & E2 & E3 & E4 & Hud2 & Hcp);
      [by split|done|done|by vm_compute|lia|].
    mrun E2. rewrite E3. mrun (eq_refl : lift (Val r2) (eng tr2 l1 since count next ac) = (Val r2, _)). mrun E4. cbv zeta in *. set (rs1 := rs ++ _) in *.
    destruct (IH us' n rs1 (restore es u) tr2 l2 (u_undo_next_lsn u) Hud2) as (tr3 & l3 & rs3 & E5 & Hud3 & Hcp3).
    { by apply chain_app. }
    { lia. }
    { unfold rs1. rewrite length_app. simpl in *. lia. }
    exists tr3, l3, rs3. split_and!; [done|done|by eapply compensated_cons].
Qed.

Lemma UndoTransaction_ok since count next ac us n rs es tr l lsn :
  undoing (length us + n) rs es us tr l → chain rs lsn us → Z.of_nat (length rs + length us) < 2 ^ 50 →
  ∃ tr' l' rs', UndoTransactionFromLog t lsn (eng tr l since count next ac) = (Val tt, eng tr' l' since count next ac) ∧
    undoing n rs' (undo us es) [] tr' l' ∧ compensated rs rs' us.
Proof using Hcap Ht Hact.
  intros Hud Hch Hroom. pose proof (chain_bounds _ _ _ Hch) as Hb. pose proof (lr_next _ _ (ud_log _ _ _ _ _ _ Hud)) as Hn. unfold UndoTransactionFromLog.
  assert (E0 : on_log (λ l, (Val (LogManager.GetNextLsn l), l)) (eng tr l since count next ac) = (Val (Z.of_nat (length rs)), eng tr l since count next ac)).
  { unfold on_log. simpl. unfold LogManager.GetNextLsn. by rewrite Hn. }
  mrun E0. destruct (undo_chain_ok since count next ac (S (Z.to_nat (Z.of_nat (length rs)))) us n rs es tr l lsn Hud Hch ltac:(lia) Hroom)
    as (tr1 & l1 & rs1 & E1 & [Hlg Htr Hlog] & Hcp). mrun E1.
  destruct (flush_step interval rs1 tr1 l1 since count next ac Hlog) as (l2 & E2 & Hl2). rewrite E2.
  exists tr1, l2, rs1. split_and!; [done|by split|done].
Qed.
End undo.

(** * Checkpoints of the WAL engine *)

(** ** Walks over a map *)

Section walk.
Context (order : Z → list Z → list Z).
Hypothesis Horder : ∀ time ks, order time ks ≡ₚ ks.

Lemma walk_perm {A} time (m : gmap Z A) : walk order time m ≡ₚ map_to_list m.
Proof using Horder.
  unfold walk. rewrite Horder.
  assert (H : ∀ l : list (Z * A), (∀ x, x ∈ l → m !! x.1 = Some x.2) → omap (λ k, pair k <$> m !! k) l.*1 = l).
  { induction l as [|x l IH]; intros Hl; [done|]. cbn. rewrite (Hl x ltac:(set_solver)). cbn. f_equal; [by destruct x|]. apply IH. set_solver. }
  rewrite H; [done|]. intros [k v] Hx. by apply elem_of_map_to_list in Hx.
Qed.

Lemma elem_of_walk {A} time (m : gmap Z A) x : x ∈ walk order time m ↔ m !! x.1 = Some x.2.
Proof using Horder. rewrite walk_perm. destruct x as [k v]. apply elem_of_map_to_list. Qed.

Lemma walk_NoDup {A} time (m : gmap Z A) : NoDup (walk order time m).*1.
Proof using Horder. rewrite walk_perm. apply NoDup_fst_map_to_list. Qed.

Lemma walk_length {A} time (m : gmap Z A) : length (walk order time m) = size m.
Proof using Horder. by rewrite walk_perm, length_map_to_list. Qed.
End walk.

(** ** The records of a checkpoint *)

Definition active_record (x : Z * TxnState) : LogRecord.t :=
  LogRecord.set_active x.1 (last_lsn x.2) (LogRecord.set_header (-1) LogRecordType.ACTIVE_TXN (-1) LogRecord.init).

Definition sound_txn (n : Z) (x : Z * TxnState) : Prop := is_i64 x.1 ∧ 0 ≤ last_lsn x.2 < n.

Lemma idle_type ty t prev n : ty ∉ [LogRecordType.UPDATE; LogRecordType.CLR; LogRecordType.BEGIN; LogRecordType.COMMIT] →
  idle (LogRecord.set_lsn n (LogRecord.set_header t ty prev LogRecord.init)).
Proof. intros H. split; [split|split]; simpl; set_solver. Qed.

(** Idle records keep the state. *)
Lemma logged_idles F c start sd es pend act xs : ∀ rs,
  logged F c start sd rs es pend act → (∀ i r, xs !! i = Some r → idle r ∧ LogRecord.lsn r = Z.of_nat (length rs + i)) →
  logged F c start sd (rs ++ xs) es pend act.
Proof.
  induction xs as [|r xs IH]; intros rs Hc Hx; [by rewrite app_nil_r|]. rewrite cons_middle, app_assoc. apply IH.
  - destruct (Hx 0%nat r eq_refl) as [Hi Hr]. apply logged_idle; [done|rewrite Hr; lia|done].
  - intros i r' Hi. destruct (Hx (S i) r' Hi) as [? ->]. split; [done|]. rewrite length_app. simpl. lia.
Qed.

Definition checkpoint_header (ty : Z) : LogRecord.t := LogRecord.set_header (-1) ty (-1) LogRecord.init.

(** The log after a checkpoint found [xs] active. *)
Definition checkpoint_records (n : nat) (xs : list (Z * TxnState)) : records :=
  LogRecord.set_lsn (Z.of_nat n) (checkpoint_header LogRecordType.CHECKPOINT_BEGIN) ::
  imap (λ i x, LogRecord.set_lsn (Z.of_nat (n + 1 + i)) (active_record x)) xs ++
  [LogRecord.set_lsn (Z.of_nat (n + 1 + length xs)) (checkpoint_header LogRecordType.CHECKPOINT_END)].

Lemma checkpoint_records_idle n xs i r : checkpoint_records n xs !! i = Some r → idle r ∧ LogRecord.lsn r = Z.of_nat (n + i).
Proof.
  unfold checkpoint_records. destruct i as [|i]; simpl.
  { intros [= <-]. split; [|simpl; lia]. apply idle_type. set_solver. }
  intros [Hi|[Hge Hi]]%lookup_app_Some.
  - rewrite list_lookup_imap in Hi. destruct (xs !! i) as [x|]; [|done]. injection Hi as <-. split; [|simpl; lia]. by split_and!.
  - apply list_lookup_singleton_Some in Hi as [Hi <-]. rewrite length_imap in Hi, Hge. split; [apply idle_type; set_solver|]. simpl. lia.
Qed.

Definition listing (xs : list (Z * TxnState)) : list (Z * Z) := (λ x, (x.1, last_lsn x.2)) <$> xs.

Lemma checkpoint_bracket rs xs : bracket (rs ++ checkpoint_records (length rs) xs) (Z.of_nat (length rs)) (listing xs).
Proof.
  assert (Hat : ∀ i, (rs ++ checkpoint_records (length rs) xs) !! (length rs + i)%nat = checkpoint_records (length rs) xs !! i).
  { intros i. rewrite lookup_app_r by lia. f_equal. lia. }
  unfold listing. split; rewrite ?Nat2Z.id, ?length_fmap; [lia| | |].
  - pose proof (Hat 0%nat) as E. rewrite Nat.add_0_r in E. rewrite E. by eexists.
  - intros i x Hx. rewrite list_lookup_fmap in Hx. destruct (xs !! i) as [[t s]|] eqn:E; [|done]. injection Hx as <-.
    eexists. rewrite <-Nat.add_assoc, Hat. simpl. rewrite lookup_app_l by (rewrite length_imap; by eapply lookup_lt_Some).
    rewrite list_lookup_imap, E. by split_and!.
  - eexists. rewrite <-Nat.add_assoc, Hat. simpl. rewrite lookup_app_r by (by rewrite length_imap). rewrite length_imap, Nat.sub_diag. by split.
Qed.

Lemma budget_page (n n' : nat) H nx r es ps :
  tree_ok n H nx r es ps → nx ≤ 2 ^ 40 → Z.of_nat n' ≤ room → tree_ok n' H nx r es ps.
Proof.
  intros [Ht Hi Hn Hs Hk] Hnx Hn'. split; try done. unfold APool.addressable, put_pages, PAGE_SIZE, int64_max. unfold room in Hn'.
  rewrite andb_true_iff, !Z.leb_le. lia.
Qed.

Section checkpoint.
Context (order : Z → list Z → list Z) (cap interval : Z).
Hypothesis Horder : ∀ time ks, order time ks ≡ₚ ks.
Hypothesis Hcap : 70 ≤ cap ≤ 2 ^ 40.

Abbreviation eng tr l since count next act := (mk tr (Some l) true interval since count next act) (only parsing).
Implicit Types (tr : tree) (l : LogManager.t) (since count next : Z) (act : gmap Z TxnState).

Lemma log_active_ok tr since count next act xs : ∀ rs l,
  log_rep rs l → Z.of_nat (length rs + length xs) < 2 ^ 50 → Forall (sound_txn (2 ^ 50)) xs →
  ∃ l', log_active xs (eng tr l since count next act) = (Val tt, eng tr l' since count next act) ∧
    log_rep (rs ++ imap (λ i x, LogRecord.set_lsn (Z.of_nat (length rs + i)) (active_record x)) xs) l'.
Proof.
  induction xs as [|[t s] xs IH]; intros rs l Hl Hroom Hs.
  { exists l. simpl. by rewrite app_nil_r. }
  apply Forall_cons in Hs as [[Ht Hls] Hs]. simpl in Hroom, Ht, Hls. change (LogRecord.set_active t (last_lsn s) _) with (active_record (t, s)) in *.
  assert (Hw : wf (active_record (t, s))) by (apply wf_set_active; [by apply wf_header|done|apply i64_of; simpl; lia]).
  destruct (append_step interval rs tr l since count next act (active_record (t, s)) Hl ltac:(lia) Hw) as (l1 & E1 & Hl1).
  destruct (IH _ l1 Hl1) as (l2 & E2 & Hl2); [rewrite length_app; simpl; lia|done|].
  exists l2. split; [cbn [log_active]; by mrun E1|]. rewrite <-app_assoc, length_app in Hl2. simpl in *. rewrite Nat.add_0_r.
  erewrite imap_ext; [exact Hl2|]. intros i x _. simpl. do 2 f_equal. lia.
Qed.

(** ** The checkpoint *)

Lemma flushed_room n tr es c : flushed cap n tr es c → pages_at tr ≤ cap → ∀ n', Z.of_nat n' ≤ room → saved (names_checkpoint c) n' (file_at tr) es.
Proof using Hcap.
  intros (H & nx & r & ps & Hr & Hok & Hm & Hd) Hp n' Hn'. apply (flushed_saved cap). exists H, nx, r, ps. split_and!; [done| |done|done].
  eapply budget_page; [done| |done]. destruct (pr_next _ _ _ (tl_pool _ _ _ Hr)) as [E _]. simpl in E. unfold pages_at, pages_of in Hp. lia.
Qed.

Lemma DoCheckpoint_ok F c start sd rs es act n tr l since count next :
  logged F c start sd rs es (pend_of act) act → tree_at cap F n tr es c → log_rep rs l → Forall (sound_txn (2 ^ 50)) (map_to_list act) →
  Z.of_nat (length rs + size act + 2) < 2 ^ 50 →
  ∃ tr' l' xs, let rs' := rs ++ checkpoint_records (length rs) xs in
    DoCheckpoint order (eng tr l since count next act) = (Val tt, eng tr' l' since (count + 1) next act) ∧
    xs ≡ₚ map_to_list act ∧ log_rep rs' l' ∧
    tree_at cap (file_at tr') n tr' es (Z.of_nat (length rs)) ∧
    (pages_at tr' ≤ cap →
      logged (file_at tr') (Z.of_nat (length rs)) (min_lsn (Z.of_nat (length rs)) (listing xs)) (listing xs) rs' es (pend_of act) act).
Proof using Horder Hcap.
  intros Hlg Htree Hlog Hsound Hroom. set (c' := Z.of_nat (length rs)). set (xs := walk order c' act).
  assert (Hxs : xs ≡ₚ map_to_list act) by (by apply walk_perm). assert (Hlen : length xs = size act) by (by apply walk_length).
  destruct (tree_flush cap F n tr es c Htree) as (tr1 & E1 & Hfl & _).
  assert (E1' : on_tree (BPlusTree.bpm BufferPoolManager.FlushAllPages) (eng tr l since count next act) = (Val tt, eng tr1 l since count next act)).
  { unfold on_tree. simpl. by rewrite E1. }
  destruct (append_step interval rs tr1 l since count next act (checkpoint_header LogRecordType.CHECKPOINT_BEGIN) Hlog ltac:(lia)) as (l1 & E2 & Hl1).
  { by apply wf_header. }
  destruct (log_active_ok tr1 since count next act xs _ l1 Hl1) as (l2 & E3 & Hl2).
  { rewrite length_app. simpl. lia. }
  { by rewrite Hxs. }
  set (rs2 := (rs ++ _) ++ _) in Hl2. assert (Hl2n : length rs2 = (length rs + 1 + length xs)%nat) by (unfold rs2; rewrite !length_app, length_imap; done).
  destruct (append_step interval rs2 tr1 l2 since count next act (checkpoint_header LogRecordType.CHECKPOINT_END) Hl2 ltac:(lia)) as (l3 & E4 & Hl3).
  { by apply wf_header. }
  set (rs' := rs ++ checkpoint_records (length rs) xs).
  assert (Hrs' : rs2 ++ [LogRecord.set_lsn (Z.of_nat (length rs2)) (checkpoint_header LogRecordType.CHECKPOINT_END)] = rs').
  { rewrite Hl2n. unfold rs', rs2, checkpoint_records. rewrite <-!app_assoc. cbn [app]. by rewrite length_app. }
  rewrite Hrs' in Hl3. destruct (flush_step interval rs' tr1 l3 since count next act Hl3) as (l4 & E5 & Hl4).
  destruct (tree_checkpoint cap ltac:(lia) n tr1 es c c' Hfl) as (tr2 & b & tr3 & E6 & E7 & Htr3 & Hfl3); [apply i64_of; unfold c'; lia|].
  assert (E6' : on_tree (record_checkpoint c') (eng tr1 l4 since count next act) = (Val tt, eng tr2 l4 since count next act)) by (unfold on_tree; simpl; by rewrite E6).
  assert (E7' : on_tree (BPlusTree.bpm (BufferPoolManager.FlushPage kMetaPageId)) (eng tr2 l4 since count next act) = (Val b, eng tr3 l4 since count next act))
    by (unfold on_tree; simpl; by rewrite E7).
  exists tr3, l4, xs. cbv zeta. split_and!; [|done|done|done|].
  - unfold DoCheckpoint. mrun E1'. mrun E2. cbn [active_txns_]. fold c' xs. mrun E3. mrun E4. mrun E5. mrun E6'. by mrun E7'.
  - intros Hp. eapply logged_checkpoint; [apply logged_idles; [exact Hlg|apply checkpoint_records_idle]|apply checkpoint_bracket| |].
    + right. by apply (flushed_room n), Hp; apply Hfl3.
    + intros [t lsn]. unfold listing. rewrite list_elem_of_fmap. cbn [fst snd]. split.
      * intros ([t' s] & [= -> ->] & Hin). exists s. split; [|done]. by apply (elem_of_walk order Horder c' act (t', s)).
      * intros (s & Hs & <-). exists (t, s). split; [done|]. by apply (elem_of_walk order Horder c' act (t, s)).
Qed.
End checkpoint.
