(* ===== verification/WalRuns.v ===== *)
(** * Runs of the WAL engine

    The operations, recovery, and whole runs against the specifications of
    transactions.  [inv n m b e u]: the engine [e] is in the state [u] of the
    specification with undo logs; its tree has room for [n] insertions, its log
    at most [b] records, and at most [m] transactions and updates are open.
    Restarts need the transactions to keep apart. *)

From S2P Require Import Prelude Entries Bytes Disk Replacer Buffer TreePages BTree Engine BTreeEngine BTreeReopen Structs.
From S2P Require Import Wal WalTheory WalEngine WalSpec WalPool WalTree WalState WalSteps.

(** * Operations of the WAL engine *)

Import WALBPlusTreeEngine WalSpec LogRecordTheory LogTheory.

Lemma alter_Some {A} (f : A → A) (m : gmap Z A) t x : m !! t = Some x → alter f t m = <[t := f x]> m.
Proof.
  intros Hx. apply map_eq. intros t'. destruct (decide (t' = t)) as [->|Hne].
  - by rewrite lookup_alter_eq, lookup_insert_eq, Hx.
  - by rewrite lookup_alter_ne, lookup_insert_ne by done.
Qed.

Lemma logged_small F c start sd rs es pend act k : logged F c start sd rs es pend act → small (look k es).
Proof.
  intros Hl v Hv. rewrite (lg_look _ _ _ _ _ _ _ _ Hl) in Hv. destruct (final k rs) as [o|] eqn:E; [|done]. simpl in Hv. subst o.
  apply final_elem in E as (r & Hr & Hw). pose proof (proj1 (Forall_forall _ _) (lg_good _ _ _ _ _ _ _ _ Hl) r Hr) as Hg.
  destruct (good_write r _ Hg Hw) as (_ & _ & _ & Hs & _). by apply Hs.
Qed.

Lemma logged_last F c start sd rs es pend act t s :
  logged F c start sd rs es pend act → act !! t = Some s → 0 ≤ last_lsn s < Z.of_nat (length rs).
Proof.
  intros Hl Hs. destruct (analysed_record rs (lg_lsn _ _ _ _ _ _ _ _ Hl) t (last_lsn s) (lg_last _ _ _ _ _ _ _ _ Hl t s Hs)) as (r & H0 & Hr%lookup_lt_Some & _). lia.
Qed.

Section ops.
Context (order : Z → list Z → list Z) (cap interval : Z).
Hypothesis Horder : ∀ time ks, order time ks ≡ₚ ks.
Hypothesis Hcap : 70 ≤ cap ≤ 2 ^ 40.
Hypothesis Hinterval : is_i32 interval.

Abbreviation eng tr l since count next act := (mk tr (Some l) true interval since count next act) (only parsing).
Implicit Types (tr : tree) (l : LogManager.t) (since count next : Z) (act : gmap Z TxnState) (u : ustore).

Record at_state (n m b : nat) u F c start sd rs tr l since act : Prop := {
  as_logged : logged F c start sd rs (now u) (pend_of act) act;
  as_tree : tree_at cap F n tr (now u) c;
  as_log : log_rep rs l;
  as_logs : logs u = logs_of act;
  as_ids : ∀ t x, act !! t = Some x → 0 ≤ t < unext u;
  as_next : 0 ≤ unext u ≤ Z.of_nat m;
  as_size : (size act ≤ m)%nat;
  as_total : (total act ≤ m)%nat;
  as_room : (length rs ≤ b)%nat;
  as_since : 0 ≤ since < Z.max 1 interval;
}.

Definition inv (n m b : nat) (e : t) u : Prop :=
  ∃ F c start sd rs tr l since count act, e = eng tr l since count (unext u) act ∧ at_state n m b u F c start sd rs tr l since act.

(** The numbers an event may reach. *)
Definition within (m b : nat) : Prop := Z.of_nat m < 2 ^ 24 ∧ Z.of_nat b < 2 ^ 44.

Lemma at_state_less n n' m m' b b' u F c start sd rs tr l since act :
  at_state n m b u F c start sd rs tr l since act → (n' ≤ n)%nat → (m ≤ m')%nat → (b ≤ b')%nat → at_state n' m' b' u F c start sd rs tr l since act.
Proof. intros [] ? ? ?. split; try done; try lia. by eapply tree_less. Qed.

Lemma inv_less n n' m m' b b' e u : inv n m b e u → (n' ≤ n)%nat → (m ≤ m')%nat → (b ≤ b')%nat → inv n' m' b' e u.
Proof.
  intros (F & c & start & sd & rs & tr & l & since & count & act & E & H) ? ? ?. exists F, c, start, sd, rs, tr, l, since, count, act.
  split; [done|]. by eapply at_state_less.
Qed.

Lemma at_txn n m b u F c start sd rs tr l since act t :
  at_state n m b u F c start sd rs tr l since act → logs u !! t = (λ x, entry_of <$> undo_log x) <$> act !! t.
Proof. intros H. rewrite (as_logs _ _ _ _ _ _ _ _ _ _ _ _ _ H). apply lookup_fmap. Qed.

Lemma at_sound n m b u F c start sd rs tr l since act :
  at_state n m b u F c start sd rs tr l since act → within m b → Forall (sound_txn (2 ^ 50)) (map_to_list act).
Proof.
  intros H [Hm Hb]. apply Forall_forall. intros [t x] Hx%elem_of_map_to_list.
  pose proof (as_ids _ _ _ _ _ _ _ _ _ _ _ _ _ H t x Hx). pose proof (as_next _ _ _ _ _ _ _ _ _ _ _ _ _ H). pose proof (as_room _ _ _ _ _ _ _ _ _ _ _ _ _ H).
  pose proof (logged_last _ _ _ _ _ _ _ _ t x (as_logged _ _ _ _ _ _ _ _ _ _ _ _ _ H) Hx).
  split; simpl; [apply i64_of|]; lia.
Qed.

(** ** Transactions begin and write *)

Lemma wal_Begin_ok n m b e u :
  inv n m b e u → within m b →
  ∃ e', Begin e = (Val (unext u), e') ∧ inv n (S m) (S b) e' (ubegin u).
Proof using Hcap.
  intros (F & c & start & sd & rs & tr & l & since & count & act & -> & [Hlg Htree Hlog Hlogs Hids Hnext Hsz Htot Hroom Hsince]) [Hm Hb].
  assert (Hnone : act !! unext u = None).
  { destruct (act !! unext u) as [x|] eqn:E; [|done]. apply Hids in E. lia. }
  set (r := LogRecord.set_header (unext u) LogRecordType.BEGIN (-1) LogRecord.init).
  destruct (append_step interval rs tr l since count (unext u + 1) act r Hlog ltac:(lia)) as (l1 & E1 & Hl1).
  { apply wf_header; [apply i64_of; lia|done|done]. }
  set (lsn := Z.of_nat (length rs)) in *.
  exists (eng tr l1 since count (unext u + 1) (<[unext u := mkTxn lsn []]> act)). split.
  { unfold Begin. mstep. cbn [wal_enabled_ next_txn_id_]. change (set_next_txn _ _) with (eng tr l since count (unext u + 1) act). fold r. mrun E1.
    cbn [active_txns_]. rewrite Hnone. done. }
  eexists F, c, start, sd, _, tr, l1, since, count, _. split; [done|]. split; cbn [now logs unext ubegin]; try done.
  - by apply (logged_begin _ _ _ _ _ _ _ Hlg (LogRecord.set_lsn lsn r)).
  - rewrite Hlogs. unfold logs_of. by rewrite fmap_insert.
  - intros t x [[<- _]|[_ Hx%Hids]]%lookup_insert_Some; lia.
  - lia.
  - rewrite map_size_insert_None by done. lia.
  - rewrite total_insert by done. simpl. lia.
  - rewrite length_app. simpl. lia.
Qed.

Lemma find_txn_ok who n m b e u t :
  inv n m b e u →
  match logs u !! t with
  | None => find_txn who t e = (Exn (unknown who), e)
  | Some _ => ∃ x, find_txn who t e = (Val x, e) ∧ active_txns_ e !! t = Some x
  end.
Proof.
  intros (F & c & start & sd & rs & tr & l & since & count & act & -> & H). rewrite (at_txn _ _ _ _ _ _ _ _ _ _ _ _ _ t H). unfold find_txn. rewrite bind_get. simpl.
  destruct (act !! t) as [x|]; simpl; [by exists x|done].
Qed.

(** Logging a write of a transaction and doing it. *)
Lemma log_update_ok n m b u F c start sd rs tr l since count act t x k new :
  at_state (S n) m b u F c start sd rs tr l since act → within m b → act !! t = Some x → is_i64 k → small new →
  (new = None → is_Some (look k (now u))) →
  ∃ l' act', log_update t (op_of new) k (look k (now u)) new x (eng tr l since count (unext u) act) = (Val tt, eng tr l' since count (unext u) act') ∧
    ∀ tr', tree_at cap F n tr' (write (k, new) (now u)) c →
      ∃ rs', at_state n (S m) (S b) (uwrite t (entry_of <$> undo_log x) (k, new) u) F c start sd rs' tr' l' since act'.
Proof using Hcap.
  intros Has [Hm Hb] Hx Hk Hnew Hdel. destruct Has as [Hlg Htree Hlog Hlogs Hids Hnext Hsz Htot Hroom Hsince].
  pose proof (logged_last _ _ _ _ _ _ _ _ t x Hlg Hx) as Hlast. specialize (Hids t x Hx) as Hid. set (old := look k (now u)) in *.
  assert (Hold : small old) by (by eapply logged_small).
  destruct (update_record_ok t k (last_lsn x) old new) as (r & Er & Hw & Htx & Hprev & Hu); [apply i64_of; lia|done|apply i64_of; lia|done|done|done|].
  destruct (append_step interval rs tr l since count (unext u) act r Hlog ltac:(lia) Hw) as (l1 & E1 & Hl1). set (lsn := Z.of_nat (length rs)) in *.
  set (un := mkUndo _ _ _ _ _) in Hu. exists l1, (<[t := mkTxn lsn (undo_log x ++ [un])]> act). split.
  - unfold log_update. rewrite bind_get. cbn [wal_enabled_]. rewrite Er. mrun (eq_refl : lift (Val r) (eng tr l since count (unext u) act) = (Val r, _)). mrun E1.
    unfold set_txn. mstep. unfold modify, WALBPlusTreeEngine.set_active.
    cbn [tree_ log_manager_ wal_enabled_ checkpoint_interval_txns_ txns_since_checkpoint_ checkpoint_count_ next_txn_id_ active_txns_].
    rewrite (alter_Some _ _ _ _ Hx). erewrite alter_Some by apply lookup_insert_eq. rewrite insert_insert_eq. done.
  - intros tr' Htr'. exists (rs ++ [LogRecord.set_lsn lsn r]). split; cbn [uwrite now logs unext fst]; try done.
    + apply (logged_update _ _ _ _ _ _ _ Hlg (LogRecord.set_lsn lsn r) t x (k, new) un); try done. by apply is_update_lsn.
    + rewrite Hlogs. unfold logs_of. rewrite fmap_insert. cbn [undo_log]. rewrite fmap_app. do 3 f_equal.
      unfold entry_of, old_of, un. simpl. fold old. by destruct old.
    + intros t' x' [[<- _]|[_ Hx'%Hids]]%lookup_insert_Some; lia.
    + lia.
    + rewrite map_size_insert_Some by eauto. lia.
    + pose proof (total_replace act t x (mkTxn lsn (undo_log x ++ [un])) Hx) as Ht. simpl in Ht. rewrite length_app in Ht. simpl in Ht. lia.
    + rewrite length_app. simpl. lia.
Qed.

Lemma wal_PutTxn_ok n m b e u t k v :
  inv (S n) m b e u → within m b → is_i64 k →
  match uput_txn t k v u with
  | (Val _, u') => ∃ e', PutTxn t k v e = (Val tt, e') ∧ inv n (S m) (S b) e' u'
  | (Exn x, u') => PutTxn t k v e = (Exn x, e) ∧ u' = u
  | _ => False
  end.
Proof using Hcap.
  intros Hinv Hwi Hk. pose proof (find_txn_ok "Put" _ _ _ _ _ t Hinv) as Hfind. unfold uput_txn, PutTxn.
  destruct (Z.ltb_spec MAX_VALUE_SIZE (ssize v)) as [Hbig|Hsmall]; [done|]. destruct (logs u !! t) as [ks|] eqn:Ew.
  - destruct Hfind as (x & E0 & Hx). destruct Hinv as (F & c & start & sd & rs & tr & l & since & count & act & -> & Has). simpl in Hx.
    rewrite (at_txn _ _ _ _ _ _ _ _ _ _ _ _ _ t Has), Hx in Ew. injection Ew as <-. mrun E0.
    destruct (get_step cap interval ltac:(lia) F _ tr (now u) c l since count (unext u) act k (as_tree _ _ _ _ _ _ _ _ _ _ _ _ _ Has)) as (tr1 & E1 & Ht1). mrun E1.
    assert (Has1 : at_state (S n) m b u F c start sd rs tr1 l since act) by (by destruct Has; split).
    destruct (log_update_ok n m b u F c start sd rs tr1 l since count act t x k (Some v) Has1 Hwi Hx Hk) as (l2 & act2 & E2 & Hpost); [by intros v' [= <-]|done|].
    change (op_of (Some v)) with LogOpType.PUT in E2. mrun E2.
    destruct (insert_step cap interval ltac:(lia) F n tr1 (now u) c l2 since count (unext u) act2 k v Ht1 Hk Hsmall) as (tr3 & E3 & Ht3).
    destruct (Hpost tr3 Ht3) as (rs' & Has'). eexists. split; [exact E3|]. by exists F, c, start, sd, rs', tr3, l2, since, count, act2.
  - split; [|done]. unfold mbind at 1, M_bind. by rewrite Hfind.
Qed.

Lemma wal_DeleteTxn_ok n m b e u t k :
  inv (S n) m b e u → within m b → is_i64 k →
  match udelete_txn t k u with
  | (Val (ADeleted d), u') => ∃ e', DeleteTxn t k e = (Val d, e') ∧ inv n (S m) (S b) e' u'
  | (Exn x, u') => DeleteTxn t k e = (Exn x, e) ∧ u' = u
  | _ => False
  end.
Proof using Hcap.
  intros Hinv Hwi Hk. pose proof (find_txn_ok "Delete" _ _ _ _ _ t Hinv) as Hfind. unfold udelete_txn, DeleteTxn. destruct (logs u !! t) as [ks|] eqn:Ew.
  - destruct Hfind as (x & E0 & Hx). destruct Hinv as (F & c & start & sd & rs & tr & l & since & count & act & -> & Has). simpl in Hx.
    rewrite (at_txn _ _ _ _ _ _ _ _ _ _ _ _ _ t Has), Hx in Ew. injection Ew as <-.
    destruct (get_step cap interval ltac:(lia) F _ tr (now u) c l since count (unext u) act k (as_tree _ _ _ _ _ _ _ _ _ _ _ _ _ Has)) as (tr1 & E1 & Ht1).
    assert (Has1 : at_state (S n) m b u F c start sd rs tr1 l since act) by (by destruct Has; split).
    destruct (look k (now u)) as [old|] eqn:Elook.
    + destruct (log_update_ok n m b u F c start sd rs tr1 l since count act t x k None Has1 Hwi Hx Hk) as (l2 & act2 & E2 & Hpost); [done|by rewrite Elook|].
      rewrite Elook in E2. change (op_of None) with LogOpType.DELETE in E2.
      destruct (remove_step cap interval ltac:(lia) F n tr1 (now u) c l2 since count (unext u) act2 k) as (tr3 & E3 & Ht3); [by eapply tree_less; [done|lia]|].
      destruct (Hpost tr3 Ht3) as (rs' & Has'). eexists. split; [|by exists F, c, start, sd, rs', tr3, l2, since, count, act2].
      mrun E0. mrun E1. mrun E2. rewrite <-bind_assoc. by rewrite (bind_Val _ _ _ _ _ E3).
    + eexists. split; [mrun E0; by mrun E1|]. eapply inv_less; [by exists F, c, start, sd, rs, tr1, l, since, count, act|lia|lia|lia].
  - split; [|done]. unfold mbind at 1, M_bind. by rewrite Hfind.
Qed.

Lemma wal_GetTxn_ok n m b e u t k :
  inv n m b e u →
  match logs u !! t with
  | None => GetTxn t k e = (Exn (unknown "Get"), e)
  | Some _ => ∃ e', GetTxn t k e = (Val (look k (now u)), e') ∧ inv n m b e' u
  end.
Proof using Hcap.
  intros Hinv. pose proof (find_txn_ok "Get" _ _ _ _ _ t Hinv) as Hfind. unfold GetTxn. destruct (logs u !! t) as [ks|].
  - destruct Hfind as (x & E0 & _). destruct Hinv as (F & c & start & sd & rs & tr & l & since & count & act & -> & Has). mrun E0.
    destruct (get_step cap interval ltac:(lia) F _ tr (now u) c l since count (unext u) act k (as_tree _ _ _ _ _ _ _ _ _ _ _ _ _ Has)) as (tr1 & E1 & Ht1).
    eexists. split; [exact E1|]. exists F, c, start, sd, rs, tr1, l, since, count, act. split; [done|]. by destruct Has; split.
  - unfold mbind at 1, M_bind. by rewrite Hfind.
Qed.

(** ** Transactions end *)

Abbreviation fits_pool e := (pages_at (tree_ e) ≤ cap) (only parsing).

Lemma finish_ok n m b u F c start sd rs tr l since count act :
  at_state n m b u F c start sd rs tr l since act → within m b →
  ∃ e', finish_txn order (eng tr l since count (unext u) act) = (Val tt, e') ∧ (fits_pool e' → inv n m (b + m + 2) e' u).
Proof using Horder Hcap Hinterval.
  intros Has Hwi. pose proof (at_sound _ _ _ _ _ _ _ _ _ _ _ _ _ Has Hwi) as Hsound. destruct Hwi as [Hm Hb].
  pose proof (as_since _ _ _ _ _ _ _ _ _ _ _ _ _ Has) as Hs. unfold is_i32 in Hinterval. unfold finish_txn. rewrite bind_get. cbn [txns_since_checkpoint_ wal_enabled_ checkpoint_interval_txns_].
  rewrite (proj2 (Z.eqb_neq since (2 ^ 31 - 1))) by lia. mstep. cbn [andb]. change (set_since ?x _) with (eng tr l x count (unext u) act).
  destruct (Z.leb_spec interval (since + 1)) as [Hdue|Hnot].
  - destruct Has as [Hlg Htree Hlog Hlogs Hids Hnext Hsz Htot Hroom Hsince].
    destruct (DoCheckpoint_ok order cap interval Horder Hcap F c start sd rs _ act n tr l (since + 1) count (unext u) Hlg Htree Hlog Hsound ltac:(lia))
      as (tr' & l' & xs & E1 & Hxs & Hl' & Ht' & Hlg'). mrun E1. eexists. split; [done|]. cbn [tree_]. intros Hfit.
    eexists _, _, _, _, _, tr', l', 0, (count + 1), act. split; [done|]. split; [by apply Hlg'|done|done|done|done|done|done|done| |lia].
    unfold checkpoint_records. rewrite length_app. simpl. rewrite length_app, length_imap, Hxs, length_map_to_list. simpl. lia.
  - eexists. split; [done|]. intros _. exists F, c, start, sd, rs, tr, l, (since + 1), count, act. split; [done|].
    destruct Has. split; try done; lia.
Qed.

Lemma wal_Commit_ok n m b e u t :
  inv n m b e u → within m (S b) →
  match ucommit t u with
  | (Val _, u') => ∃ e', Commit order t e = (Val tt, e') ∧ (fits_pool e' → inv n m (b + m + 3) e' u')
  | (Exn x, u') => Commit order t e = (Exn x, e) ∧ u' = u
  | _ => False
  end.
Proof using Horder Hcap Hinterval.
  intros Hinv Hwi. pose proof (find_txn_ok "Commit" _ _ _ _ _ t Hinv) as Hfind. unfold ucommit, Commit. destruct (logs u !! t) as [ks|] eqn:Ew.
  - destruct Hfind as (x & E0 & Hx). destruct Hinv as (F & c & start & sd & rs & tr & l & since & count & act & -> & Has). simpl in Hx.
    rewrite (at_txn _ _ _ _ _ _ _ _ _ _ _ _ _ t Has), Hx in Ew. injection Ew as <-. mrun E0. cbn [wal_enabled_].
    destruct Has as [Hlg Htree Hlog Hlogs Hids Hnext Hsz Htot Hroom Hsince]. pose proof Hwi as [Hm Hb].
    pose proof (logged_last _ _ _ _ _ _ _ _ t x Hlg Hx) as Hlast. specialize (Hids t x Hx) as Hid.
    set (r := LogRecord.set_header t LogRecordType.COMMIT (last_lsn x) LogRecord.init).
    destruct (append_step interval rs tr l since count (unext u) act r Hlog ltac:(lia)) as (l1 & E1 & Hl1); [apply wf_header; [apply i64_of; lia..|done]|]. mrun E1.
    destruct (flush_step interval _ tr l1 since count (unext u) act Hl1) as (l2 & E2 & Hl2). mrun E2.
    pose proof (total_delete act t x Hx). pose proof (map_size_delete_Some t act (mk_is_Some _ _ Hx)).
    set (u' := mkUStore _ _ _). change (WALBPlusTreeEngine.set_active _ _) with (eng tr l2 since count (unext u') (delete t act)).
    destruct (finish_ok n m (S b) u' F c start sd (rs ++ [LogRecord.set_lsn (Z.of_nat (length rs)) r]) tr l2 since count (delete t act)) as (e' & E3 & Hfin); [|done|].
    + split; cbn [now logs unext u']; try done.
      * by apply (logged_commit _ _ _ _ _ _ _ Hlg (LogRecord.set_lsn (Z.of_nat (length rs)) r) t).
      * rewrite Hlogs. unfold logs_of. by rewrite fmap_delete.
      * intros t' x' [_ Hx']%lookup_delete_Some. by eapply Hids.
      * lia.
      * lia.
      * rewrite length_app. simpl. lia.
    + exists e'. split; [done|]. intros Hfit. eapply inv_less; [by apply Hfin|lia|lia|lia].
  - split; [|done]. unfold mbind at 1, M_bind. by rewrite Hfind.
Qed.

Lemma wal_Abort_ok n m b e u t :
  inv (m + n) m b e u → within m (S b + m) →
  match uabort t u with
  | (Val _, u') => ∃ e', Abort order t e = (Val tt, e') ∧ (fits_pool e' → inv n m (b + m + m + 3) e' u')
  | (Exn x, u') => Abort order t e = (Exn x, e) ∧ u' = u
  | _ => False
  end.
Proof using Horder Hcap Hinterval.
  intros Hinv Hwi. pose proof (find_txn_ok "Abort" _ _ _ _ _ t Hinv) as Hfind. unfold uabort, Abort. destruct (logs u !! t) as [ks|] eqn:Ew.
  - destruct Hfind as (x & E0 & Hx). destruct Hinv as (F & c & start & sd & rs & tr & l & since & count & act & -> & Has). simpl in Hx.
    rewrite (at_txn _ _ _ _ _ _ _ _ _ _ _ _ _ t Has), Hx in Ew. injection Ew as <-. mrun E0. cbn [wal_enabled_].
    destruct Has as [Hlg Htree Hlog Hlogs Hids Hnext Hsz Htot Hroom Hsince]. pose proof Hwi as [Hm Hb].
    pose proof (logged_last _ _ _ _ _ _ _ _ t x Hlg Hx) as Hlast. specialize (Hids t x Hx) as Hid.
    pose proof (total_delete act t x Hx) as Htd. pose proof (map_size_delete_Some t act (mk_is_Some _ _ Hx)) as Hsd.
    change (WALBPlusTreeEngine.set_active _ _) with (eng tr l since count (unext u) (delete t act)). cbn [wal_enabled_].
    set (r := LogRecord.set_header t LogRecordType.ABORT (last_lsn x) LogRecord.init).
    destruct (append_step interval rs tr l since count (unext u) (delete t act) r Hlog ltac:(lia)) as (l1 & E1 & Hl1); [apply wf_header; [apply i64_of; lia..|done]|]. mrun E1.
    set (r1 := LogRecord.set_lsn (Z.of_nat (length rs)) r) in *. set (us := reverse (undo_log x)).
    assert (Hlen : length us = length (undo_log x)) by apply length_reverse.
    assert (Hlg1 : logged F c start sd (rs ++ [r1]) (now u) (pend_of act) act) by (apply logged_idle; [done|done|apply idle_type; set_solver]).
    assert (Hch : chain (rs ++ [r1]) (last_lsn x) us).
    { pose proof (lg_chains _ _ _ _ _ _ _ _ Hlg1 t _ (lg_last _ _ _ _ _ _ _ _ Hlg1 t x Hx)) as Hc. unfold pend_of in Hc. by rewrite Hx in Hc. }
    destruct (undo_entries_ok cap interval ltac:(lia) F c start sd t (pend_of (delete t act)) (delete t act) ltac:(apply i64_of; lia) ltac:(apply lookup_delete_eq)
      since count (unext u) (delete t act) us n (rs ++ [r1]) (now u) tr l1 (Z.of_nat (length rs)) (last_lsn x)) as (tr2 & l2 & rs2 & E2 & Hud & Hcp).
    { split; [unfold us; rewrite <-(pend_Some act t x Hx); by apply logged_leave|by eapply tree_less; [done|lia]|done]. }
    { done. }
    { apply i64_of. lia. }
    { rewrite length_app. simpl. lia. }
    mrun E2. destruct Hud as [Hlg2 Ht2 Hl2]. destruct Hcp as [Hlen2 _]. rewrite length_app in Hlen2. simpl in Hlen2.
    destruct (flush_step interval _ tr2 l2 since count (unext u) (delete t act) Hl2) as (l3 & E3 & Hl3). mrun E3.
    set (u' := mkUStore _ _ _). change (eng tr2 l3 since count (unext u) (delete t act)) with (eng tr2 l3 since count (unext u') (delete t act)).
    destruct (finish_ok n m (S b + m) u' F c start sd rs2 tr2 l3 since count (delete t act)) as (e' & E4 & Hfin); [|done|].
    + unfold us in Hlg2, Ht2. rewrite undo_rollback in Hlg2, Ht2. split; cbn [now logs unext u']; try done.
      * by apply logged_left.
      * rewrite Hlogs. unfold logs_of. by rewrite fmap_delete.
      * intros t' x' [_ Hx']%lookup_delete_Some. by eapply Hids.
      * lia.
      * lia.
      * lia.
    + exists e'. split; [done|]. intros Hfit. eapply inv_less; [by apply Hfin|lia|lia|lia].
  - split; [|done]. unfold mbind at 1, M_bind. by rewrite Hfind.
Qed.
End ops.

(** * Recovery of the WAL engine *)

(** ** The checkpoint *)

Lemma read_bracket_ok rs c sd : ∀ rest seen fuel l,
  log_rep rs l → bracket rs c sd → sd = seen ++ rest → (length rest < fuel)%nat →
  ∃ l', read_bracket fuel (c + 1 + Z.of_nat (length seen)) seen l = (Val (Some sd), l') ∧ log_rep rs l'.
Proof.
  induction rest as [|x rest IH]; intros seen fuel l Hl Hb Hsd Hf; (destruct fuel as [|fuel]; [simpl in Hf; lia|]); pose proof (br_pos _ _ _ Hb) as Hc.
  - destruct (br_end _ _ _ Hb) as (r & Hr & Hty). rewrite app_nil_r in Hsd. subst seen.
    destruct (ReadRecord_ok rs l (c + 1 + Z.of_nat (length sd)) r Hl ltac:(lia)) as (l1 & E1 & Hl1); [rewrite <-Hr; f_equal; lia|].
    exists l1. cbn [read_bracket]. mrun E1. by rewrite Hty.
  - destruct (br_active _ _ _ Hb (length seen) x) as (r & Hr & Hty & Hid & Hlast); [by rewrite Hsd, lookup_app_r, Nat.sub_diag by done|].
    destruct (ReadRecord_ok rs l (c + 1 + Z.of_nat (length seen)) r Hl ltac:(lia)) as (l1 & E1 & Hl1); [rewrite <-Hr; f_equal; lia|].
    destruct (IH (seen ++ [x]) fuel l1 Hl1 Hb) as (l2 & E2 & Hl2); [by rewrite <-app_assoc|simpl in Hf; lia|].
    exists l2. split; [|done]. cbn [read_bracket]. mrun E1. rewrite Hty, Hid, Hlast. simpl. rewrite length_app in E2. simpl in E2.
    replace (c + 1 + Z.of_nat (length seen) + 1) with (c + 1 + Z.of_nat (length seen + 1)) by lia. by destruct x.
Qed.

Lemma find_checkpoint_ok rs c start sd l :
  marked rs c start sd → log_rep rs l → ∃ l', find_checkpoint c l = (Val (start, sd), l') ∧ log_rep rs l'.
Proof.
  intros [(-> & -> & ->)|[Hb ->]] Hl; unfold find_checkpoint; rewrite bind_get; [by exists l|].
  pose proof (br_pos _ _ _ Hb) as Hc. pose proof (bracket_length _ _ _ Hb) as Hlen. unfold LogManager.GetNextLsn. rewrite (lr_next _ _ Hl).
  rewrite (proj2 (Z.leb_le 0 c)), (proj2 (Z.ltb_lt c _)) by lia. simpl. destruct (br_begin _ _ _ Hb) as (r & Hr & Hty).
  destruct (ReadRecord_ok rs l c r Hl Hc Hr) as (l1 & E1 & Hl1). mrun E1. rewrite Hty. simpl.
  destruct (read_bracket_ok rs c sd sd [] (Z.to_nat (Z.of_nat (length rs) - (c + 1))) l1 Hl1 Hb eq_refl ltac:(lia)) as (l2 & E2 & Hl2).
  replace (c + 1 + Z.of_nat (length [])) with (c + 1) in E2 by (simpl; lia). mrun E2. by exists l2.
Qed.

Section recover.
Context (order : Z → list Z → list Z) (cap interval : Z).
Hypothesis Horder : ∀ time ks, order time ks ≡ₚ ks.
Hypothesis Hcap : 70 ≤ cap ≤ 2 ^ 40.

Abbreviation eng tr l since count next act := (mk tr (Some l) true interval since count next act) (only parsing).
Implicit Types (tr : tree) (l : LogManager.t) (act : gmap Z TxnState).

(** ** Undoing the losers *)

Lemma undo_losers_ok F c start sd cs n xs : ∀ rs es act tr l,
  logged F c start sd rs es (pend_of act) act → open_over cs es (logs_of act) → tree_at cap F (total act + n) tr es c → log_rep rs l → Z.of_nat (length rs + total act) < 2 ^ 50 →
  NoDup xs.*1 → (∀ x, x ∈ xs → analysed rs !! x.1 = Some x.2) → (∀ t s, act !! t = Some s → t ∈ xs.*1) →
  ∃ tr' l' rs', undo_losers xs (eng tr l 0 0 0 ∅) = (Val tt, eng tr' l' 0 0 0 ∅) ∧ logged F c start sd rs' cs (pend_of ∅) ∅ ∧
    tree_at cap F n tr' cs c ∧ log_rep rs' l' ∧ (length rs' ≤ length rs + total act)%nat.
Proof using Hcap.
  induction xs as [|[t lsn] xs IH]; intros rs es act tr l Hlg Ho Htr Hlog Hroom Hnd Hx Hact.
  { assert (act = ∅) as ->.
    { apply map_eq. intros t. destruct (act !! t) as [s|] eqn:E; [|done]. apply Hact in E. by apply elem_of_nil in E. }
    pose proof (open_none _ _ Ho) as ->. exists tr, l, rs. split_and!; [done|done|done|done|lia]. }
  apply NoDup_cons in Hnd as [Hnt Hnd]. pose proof (total_leave act t) as Htot.
  pose proof (Hx (t, lsn) (proj2 (elem_of_cons _ _ _) (or_introl eq_refl))) as Ht. simpl in Ht.
  assert (Hid : is_i64 t).
  { destruct (analysed_record rs (lg_lsn _ _ _ _ _ _ _ _ Hlg) t lsn Ht) as (r & _ & Hr & <-%marks_txn). apply (wf_txn _ (proj1 (lr_wf _ _ Hlog _ _ Hr))). }
  destruct (UndoTransaction_ok cap interval ltac:(lia) F c start sd t (pend_of (delete t act)) (delete t act) Hid ltac:(apply lookup_delete_eq)
    0 0 0 ∅ (pend_of act t) (total (delete t act) + n) rs es tr l lsn) as (tr1 & l1 & rs1 & E1 & [Hlg1 Htr1 Hlog1] & Hlen & Hoth).
  { split; [by apply logged_leave|eapply tree_less; [done|lia]|done]. }
  { by apply (lg_chains _ _ _ _ _ _ _ _ Hlg). }
  { lia. }
  destruct (IH rs1 (undo (pend_of act t) es) (delete t act) tr1 l1) as (tr2 & l2 & rs2 & E2 & Hcore2 & Htr2 & Hlog2 & Hlen2).
  { by apply logged_left. }
  { by apply open_leave. }
  { done. }
  { done. }
  { lia. }
  { done. }
  { intros x Hin. rewrite Hoth by (intros E; apply Hnt; simpl; rewrite <-E; by apply (list_elem_of_fmap_2 fst)). apply Hx, elem_of_cons. by right. }
  { intros t' s [Hne Hs]%lookup_delete_Some. apply Hact in Hs. simpl in Hs. apply elem_of_cons in Hs as [->|?]; [done|done]. }
  exists tr2, l2, rs2. split_and!; [cbn [undo_losers]; by mrun E1|done|done|done|lia].
Qed.

(** ** Recovery *)

Lemma wal_recover_ok F c start sd rs cs es act ds tr l :
  logged F c start sd rs es (pend_of act) act → open_over cs es (logs_of act) → log_rep rs l → Z.of_nat (length rs + total act) < 2 ^ 50 →
  sorted ds → (∀ k, final k (drop (Z.to_nat start) rs) = None → look k ds = look k es) →
  tree_at cap F (length rs + total act) tr ds c →
  ∃ tr' l' rs', RecoverOnStartup order (eng tr l 0 0 0 ∅) = (Val tt, eng tr' l' 0 0 0 ∅) ∧ logged F c start sd rs' cs (pend_of ∅) ∅ ∧
    tree_at cap F 0 tr' cs c ∧ log_rep rs' l' ∧ (length rs' ≤ length rs + total act)%nat.
Proof using Horder Hcap.
  intros Hlg Ho Hlog Hroom Hds Htail Htr. pose proof (lr_next _ _ Hlog) as Hnext.
  destruct (marked_start _ _ _ _ (lg_marked _ _ _ _ _ _ _ _ Hlg)) as [Hst Hst'].
  pose proof (replay_tail es ds rs (Z.to_nat start) (lg_sorted _ _ _ _ _ _ _ _ Hlg) Hds (lg_look _ _ _ _ _ _ _ _ Hlg) Htail) as Hreplay.
  assert (E0 : ∀ tr l, LogManager.next_lsn_ l = Z.of_nat (length rs) →
    on_log (λ l, (Val (LogManager.GetNextLsn l), l)) (eng tr l 0 0 0 ∅) = (Val (Z.of_nat (length rs)), eng tr l 0 0 0 ∅)).
  { intros tr' l' E. unfold on_log. simpl. unfold LogManager.GetNextLsn. by rewrite E. }
  unfold RecoverOnStartup. mrun (E0 tr l Hnext). destruct (Z.eqb_spec (Z.of_nat (length rs)) 0) as [Hz|Hnz].
  - assert (rs = []) as -> by (by destruct rs). assert (act = ∅) as ->.
    { apply map_eq. intros t. destruct (act !! t) as [s|] eqn:E; [|done]. by apply (lg_last _ _ _ _ _ _ _ _ Hlg) in E. }
    assert (ds = es) as -> by (rewrite <-Hreplay; by rewrite drop_nil). pose proof (open_none _ _ Ho) as ->.
    exists tr, l, []. split_and!; [done|done|by eapply tree_less; [done|lia]|done|lia].
  - destruct (tree_read_checkpoint cap ltac:(lia) F _ tr ds c Htr) as (tr1 & E1 & Htr1).
    assert (E1' : on_tree read_checkpoint (eng tr l 0 0 0 ∅) = (Val c, eng tr1 l 0 0 0 ∅)) by (unfold on_tree; simpl; by rewrite E1). mrun E1'.
    destruct (find_checkpoint_ok rs c start sd l (lg_marked _ _ _ _ _ _ _ _ Hlg) Hlog) as (l1 & E2 & Hl1).
    assert (E2' : on_log (find_checkpoint c) (eng tr1 l 0 0 0 ∅) = (Val (start, sd), eng tr1 l1 0 0 0 ∅)) by (unfold on_log; simpl; by rewrite E2). mrun E2'.
    destruct (ReadFrom_ok rs l1 start Hl1 ltac:(lia)) as (l2 & E3 & Hl2).
    assert (E3' : on_log (LogManager.ReadFrom start) (eng tr1 l1 0 0 0 ∅) = (Val (drop (Z.to_nat start) rs), eng tr1 l2 0 0 0 ∅)) by (unfold on_log; simpl; by rewrite E3).
    mrun E3'. rewrite bool_decide_false; cycle 1.
    { intros E%(f_equal length). rewrite length_drop in E. simpl in E. specialize (Hst' ltac:(by intros ->)). lia. }
    set (active := foldl analyse (seed sd) (drop (Z.to_nat start) rs)).
    assert (Hactive : ∀ t, active !! t = match analysed rs !! t with Some x => if start <=? x then Some x else None | None => None end).
    { intros t. apply recovered; [apply Hlg|apply Hlg]. }
    destruct (redo_ok cap interval ltac:(lia) F c l2 0 0 0 ∅ (drop (Z.to_nat start) rs) (total act) tr1 ds) as (tr3 & E4 & Htr3).
    { eapply tree_less; [done|]. rewrite length_drop. lia. }
    { apply Forall_drop, Hlg. }
    rewrite Hreplay in Htr3. mrun E4.
    destruct (undo_losers_ok F c start sd cs 0 (walk order (Z.of_nat (length rs)) active) rs es act tr3 l2 Hlg Ho) as (tr4 & l4 & rs4 & E5 & Hlg4 & Htr4 & Hlog4 & Hlen4).
    { by rewrite Nat.add_0_r. }
    { done. }
    { done. }
    { by apply walk_NoDup. }
    { intros x Hin%(elem_of_walk order Horder). rewrite Hactive in Hin. destruct (analysed rs !! x.1); [|done]. by destruct (start <=? _). }
    { intros t s Hs. apply list_elem_of_fmap. exists (t, last_lsn s). split; [done|]. apply (elem_of_walk order Horder). simpl.
      rewrite Hactive, (lg_last _ _ _ _ _ _ _ _ Hlg t s Hs). by rewrite (proj2 (Z.leb_le _ _) (lg_from _ _ _ _ _ _ _ _ Hlg t s Hs)). }
    by exists tr4, l4, rs4.
Qed.

(** ** Opening *)

Lemma file_tree F ds c n name : on_file F ds c → Z.of_nat n ≤ room → ∃ tr, opens cap name F tr ∧ tree_at cap F n tr ds c.
Proof using Hcap.
  intros [(-> & -> & ->)|Hsv] Hn.
  - destruct (tree_fresh cap ltac:(lia) name n) as (tr & Ho & Ht & _); [unfold room in Hn; lia|]. by exists tr.
  - apply (tree_open cap ltac:(lia)). by apply Hsv.
Qed.

Lemma opens_start name F tr W : opens cap name F tr → Open order name cap true interval (mkFiles F W) = start_log order name W (mk tr None true interval 0 0 0 ∅).
Proof. intros (d & rp & root & bp & E1 & E2 & E3 & E4). unfold Open. cbn [data_file wal_file]. by rewrite E1, E2, E3, E4. Qed.

Lemma wal_Open_ok F c start sd rs cs es act l m b name :
  logged F c start sd rs es (pend_of act) act → open_over cs es (logs_of act) → log_rep rs l → within m b → (length rs ≤ b)%nat → (total act ≤ m)%nat →
  Z.of_nat (b + m) ≤ room →
  ∃ e fs, Open order name cap true interval (mkFiles F (DiskManager.fd_ (LogManager.disk_manager_ l))) = (Val e, fs) ∧ inv cap interval 0 m (b + m) e (mkUStore cs ∅ 0).
Proof using Horder Hcap.
  intros Hlg Ho' Hlog [Hm Hb] Hlen Htot Hroom. destruct (lg_file _ _ _ _ _ _ _ _ Hlg) as (ds & Hf & Hds & Htail).
  destruct (file_tree F ds c (length rs + total act) name Hf) as (tr & Ho & Htr); [lia|]. rewrite (opens_start _ _ _ _ Ho). unfold start_log.
  destruct (log_Open_ok rs l (name +:+ ".wal") Hlog) as (l1 & f1 & E1 & Hl1). rewrite E1.
  change (set_log l1 _) with (eng tr l1 0 0 0 ∅).
  destruct (wal_recover_ok F c start sd rs cs es act ds tr l1 Hlg Ho' Hl1 ltac:(lia) Hds Htail Htr) as (tr2 & l2 & rs2 & E2 & Hlg2 & Htr2 & Hl2 & Hlen2).
  rewrite E2. eexists _, _. split; [done|]. exists F, c, start, sd, rs2, tr2, l2, 0, 0, ∅. split; [done|]. split; cbn [now logs unext]; try done; rewrite ?map_size_empty; try (change (total ∅) with 0%nat); lia.
Qed.
End recover.

(** * Runs of the WAL engine against the specification of its transactions *)

Section runs.
Context (order : Z → list Z → list Z) (db : string) (cap interval : Z).
Hypothesis Horder : ∀ time ks, order time ks ≡ₚ ks.
Hypothesis Hcap : 70 ≤ cap ≤ 2 ^ 40.
Hypothesis Hinterval : is_i32 interval.

Abbreviation eng tr l since count next act := (mk tr (Some l) true interval since count next act) (only parsing).
Abbreviation inv := (inv cap interval) (only parsing).
Implicit Types (u : ustore) (s : store).

(** After [i] events: at most two transactions or updates more per event, and
    at most [2 ^ 23] records. *)
Definition log_bound (i : nat) : nat := Z.to_nat (Z.of_nat i * 2 ^ 23).

Record settled (i : nat) (e : t) u : Prop := {
  se_inv : inv 0 (2 * i) (log_bound i) e u;
  se_fits : pages_at (tree_ e) ≤ cap;
}.

Lemma bound_Z i : Z.of_nat (log_bound i) = Z.of_nat i * 2 ^ 23.
Proof. unfold log_bound. lia. Qed.

Lemma settled_room i e u n : settled i e u → Z.of_nat n ≤ room → inv n (2 * i) (log_bound i) e u.
Proof using Hcap.
  intros [(F & c & start & sd & rs & tr & l & since & count & act & -> & H) Hfit] Hn. exists F, c, start, sd, rs, tr, l, since, count, act. split; [done|].
  destruct H. split; try done. eapply tree_budget; [done|simpl in Hfit; lia|done].
Qed.

Lemma settled_within i e u : settled i e u → Z.of_nat i < 2 ^ 20 → within (2 * i + 2) (log_bound i + 2 * i + 4).
Proof using Type. intros _ Hi. split; [lia|]. pose proof (bound_Z i). lia. Qed.

Lemma fits_pages e : fits cap e = true ↔ pages_at (tree_ e) ≤ cap.
Proof. unfold fits. apply Z.leb_le. Qed.

(** A bound reached within the event. *)
Lemma next_settled i e u n m b :
  inv n m b e u → (m ≤ 2 * i + 2)%nat → (b ≤ log_bound i + 4 * i + 16)%nat → Z.of_nat i < 2 ^ 20 → pages_at (tree_ e) ≤ cap → settled (S i) e u.
Proof using Type.
  intros Hinv Hm Hb Hi Hfit. split; [|done]. eapply inv_less; [done|lia|lia|]. pose proof (bound_Z i). pose proof (bound_Z (S i)). lia.
Qed.

(** ** Scans *)

Lemma wal_read_rows_ok F b es c l since count next act n : ∀ tr it rest,
  scan_at cap F b tr es c it rest →
  ∃ tr' it', read_rows n it (eng tr l since count next act) = (Val (it', take n rest), eng tr' l since count next act) ∧
    ∃ rest', scan_at cap F b tr' es c it' rest'.
Proof using Hcap.
  induction n as [|n IH]; intros tr it rest Hs; [by exists tr, it; eauto|]. cbn [read_rows]. unfold IsValid. rewrite (scan_valid _ _ _ _ _ _ _ _ Hs).
  destruct rest as [|[k v] rest]; [by exists tr, it; eauto|]. simpl.
  destruct (scan_next cap ltac:(lia) F b tr es c it k v rest Hs) as (tr1 & tr2 & tr3 & it' & E1 & E2 & E3 & Hs').
  assert (E1' : GetKey it (eng tr l since count next act) = (Val k, eng tr1 l since count next act)) by (unfold GetKey, on_tree; simpl; by rewrite E1).
  assert (E2' : GetValue it (eng tr1 l since count next act) = (Val v, eng tr2 l since count next act)) by (unfold GetValue, on_tree; simpl; by rewrite E2).
  assert (E3' : Next it (eng tr2 l since count next act) = (Val it', eng tr3 l since count next act)) by (unfold Next, on_tree; simpl; by rewrite E3).
  mrun E1'. mrun E2'. mrun E3'. destruct (IH tr3 it' rest Hs') as (tr4 & it4 & E4 & Hs4). mrun E4. by exists tr4, it4.
Qed.

Lemma wal_scan_ok n m b e u k rows :
  inv n m b e u → is_i64 k →
  ∃ e', (it ← Scan k; '(it, rows) ← read_rows rows it; Destroy it;; mret (ARows rows)) e =
    (Val (ARows (take rows (drop (lb k (now u)) (now u)))), e') ∧ inv n m b e' u.
Proof using Hcap.
  intros (F & c & start & sd & rs & tr & l & since & count & act & -> & Has) Hk.
  destruct (tree_scan cap ltac:(lia) F n tr (now u) c k (as_tree _ _ _ _ _ _ _ _ _ _ _ _ _ _ _ Has) Hk) as (tr1 & it & E1 & Hs1).
  assert (E1' : Scan k (eng tr l since count (unext u) act) = (Val it, eng tr1 l since count (unext u) act)) by (unfold Scan, on_tree; simpl; by rewrite E1). mrun E1'.
  destruct (wal_read_rows_ok F n (now u) c l since count (unext u) act rows tr1 it _ Hs1) as (tr2 & it2 & E2 & rest & Hs2). mrun E2.
  destruct (scan_end cap ltac:(lia) F n tr2 (now u) c it2 rest Hs2) as (tr3 & E3 & Ht3).
  assert (E3' : Destroy it2 (eng tr2 l since count (unext u) act) = (Val tt, eng tr3 l since count (unext u) act)) by (unfold Destroy, on_tree; simpl; by rewrite E3).
  mrun E3'. eexists. split; [done|]. exists F, c, start, sd, rs, tr3, l, since, count, act. split; [done|]. by destruct Has; split.
Qed.

Lemma wal_Get_ok n m b e u k :
  inv n m b e u → ∃ e', Get k e = (Val (look k (now u)), e') ∧ inv n m b e' u.
Proof using Hcap.
  intros (F & c & start & sd & rs & tr & l & since & count & act & -> & Has).
  destruct (get_step cap interval ltac:(lia) F _ tr (now u) c l since count (unext u) act k (as_tree _ _ _ _ _ _ _ _ _ _ _ _ _ _ _ Has)) as (tr1 & E1 & Ht1).
  eexists. split; [exact E1|]. exists F, c, start, sd, rs, tr1, l, since, count, act. split; [done|]. by destruct Has; split.
Qed.

(** ** Restarts *)

(** Transactions that have kept apart are atomic. *)
Lemma apart_restart s : sorted (committed s) → apart (mkUStore (committed s) ∅ 0) (restart s).
Proof using Type.
  intros Hs. split; cbn [now logs unext restart current committed writes next_id]; [done|by rewrite fmap_empty|done|by intros t log ?%lookup_empty_Some|].
  split; try done; intros t log; by rewrite lookup_empty.
Qed.

Lemma wal_crash_ok i e u s :
  settled i e u → apart u s → Z.of_nat i < 2 ^ 20 →
  ∃ e', crash order db cap interval e = (Val tt, e') ∧ inv 0 (2 * i) (log_bound i + 2 * i) e' (mkUStore (committed s) ∅ 0).
Proof using Horder Hcap.
  intros [(F & c & start & sd & rs & tr & l & since & count & act & -> & [Hlg Htree Hlog Hlogs Hids Hnext Hsz Htot Hroom Hsince]) Hfit] [Hn _ _ _ Ho] Hi. simpl in Hfit.
  pose proof (bound_Z i). pose proof (tree_file cap F 0 tr _ c Htree Hfit) as HF. unfold crash, disk. cbn [tree_ log_manager_]. fold (file_at tr). rewrite HF.
  rewrite Hlogs, <-Hn in Ho.
  destruct (wal_Open_ok order cap interval Horder Hcap F c start sd rs _ _ act l (2 * i) (log_bound i) db Hlg Ho Hlog) as (e' & fs & E & Hinv);
    [split; lia|done|done|unfold room; lia|].
  rewrite E. by exists e'.
Qed.

Lemma wal_reopen_ok i e u s :
  settled i e u → apart u s → Z.of_nat i < 2 ^ 20 →
  ∃ e', reopen order db cap interval e = (Val tt, e') ∧ inv 0 (2 * i) (log_bound i + 2 * i) e' (mkUStore (committed s) ∅ 0).
Proof using Horder Hcap.
  intros [(F & c & start & sd & rs & tr & l & since & count & act & -> & [Hlg Htree Hlog Hlogs Hids Hnext Hsz Htot Hroom Hsince]) Hfit] [Hn _ _ _ Ho] Hi. simpl in Hfit.
  pose proof (bound_Z i). destruct (tree_flush cap F 0 tr _ c Htree) as (tr1 & E1 & Hfl & Hp). rewrite <-Hp in Hfit.
  assert (E1' : BPlusTreeEngine.destroy_pool (BPlusTree.bpm_ tr) = (Val tt, file_at tr1)).
  { unfold BPlusTree.bpm in E1. unfold BPlusTreeEngine.destroy_pool. destruct (BufferPoolManager.FlushAllPages (BPlusTree.bpm_ tr)) as [[[]| | |] bp]; try done. by injection E1 as <-. }
  assert (Hlg1 : logged (file_at tr1) c start sd rs (now u) (pend_of act) act).
  { eapply logged_file; [done|]. right. by apply (flushed_room cap Hcap 0). }
  unfold reopen, Close, disk. cbn [tree_ log_manager_ wal_file]. rewrite E1'. rewrite Hlogs, <-Hn in Ho.
  destruct (wal_Open_ok order cap interval Horder Hcap (file_at tr1) c start sd rs _ _ act l (2 * i) (log_bound i) db Hlg1 Ho Hlog) as (e' & fs & E & Hinv);
    [split; lia|done|done|unfold room; lia|].
  rewrite E. by exists e'.
Qed.

(** ** Events *)

Lemma wal_put_ok i e u k v :
  settled i e u → Z.of_nat i < 2 ^ 20 → is_i64 k →
  ∃ e', perform order db cap interval (WPut k v) e = ((uspec (WPut k v) u).1, e') ∧ (pages_at (tree_ e') ≤ cap → settled (S i) e' (uspec (WPut k v) u).2).
Proof using Horder Hcap Hinterval.
  intros Hrd Hi Hk. pose proof (settled_within _ _ _ Hrd Hi) as [Hm Hb]. pose proof (bound_Z i).
  destruct (wal_Begin_ok cap interval Hcap 1 (2 * i) (log_bound i) e u) as (e1 & E1 & Hinv1); [by apply settled_room|split; lia|].
  cbn [perform]. unfold Put. mrun E1. cbn [uspec].
  pose proof (wal_PutTxn_ok cap interval Hcap 0 _ _ e1 (ubegin u) (unext u) k v Hinv1 ltac:(split; lia) Hk) as Hput.
  destruct (uput_txn (unext u) k v (ubegin u)) as [[a|x| |] u1] eqn:Ep; [|..|done|done].
  - destruct Hput as (e2 & E2 & Hinv2). mrun E2.
    pose proof (wal_Commit_ok order cap interval Horder Hcap Hinterval 0 _ _ e2 u1 (unext u) Hinv2 ltac:(split; lia)) as Hc.
    unfold uput_txn in Ep. destruct (MAX_VALUE_SIZE <? ssize v); [done|]. cbn [ubegin logs] in Ep. rewrite lookup_insert_eq in Ep. injection Ep as <- <-.
    unfold ucommit in *. cbn [uwrite logs] in *. rewrite lookup_insert_eq in *. destruct Hc as (e3 & E3 & Hinv3). mrun E3. exists e3. split; [done|].
    intros Hfit. eapply next_settled; [by apply Hinv3|lia|lia|done|done].
  - destruct Hput as [E2 ->]. exists e1. split; [|intros Hfit; eapply next_settled; [done|lia|lia|done|done]].
    unfold mbind, M_bind. by rewrite E2.
Qed.

Lemma wal_delete_ok i e u k :
  settled i e u → Z.of_nat i < 2 ^ 20 → is_i64 k →
  ∃ e', perform order db cap interval (WDelete k) e = ((uspec (WDelete k) u).1, e') ∧ (pages_at (tree_ e') ≤ cap → settled (S i) e' (uspec (WDelete k) u).2).
Proof using Horder Hcap Hinterval.
  intros Hrd Hi Hk. pose proof (settled_within _ _ _ Hrd Hi) as [Hm Hb]. pose proof (bound_Z i).
  destruct (wal_Begin_ok cap interval Hcap 1 (2 * i) (log_bound i) e u) as (e1 & E1 & Hinv1); [by apply settled_room|split; lia|].
  cbn [perform]. unfold Delete. mrun E1. cbn [uspec].
  pose proof (wal_DeleteTxn_ok cap interval Hcap 0 _ _ e1 (ubegin u) (unext u) k Hinv1 ltac:(split; lia) Hk) as Hdel.
  assert (∃ d u1 ks, udelete_txn (unext u) k (ubegin u) = (Val (ADeleted d), u1) ∧ logs u1 !! unext u = Some ks) as (d & u1 & ks & Ed & Ew).
  { unfold udelete_txn. cbn [ubegin logs now]. rewrite lookup_insert_eq. destruct (look k (now u)); eexists _, _, _; (split; [done|]); simpl; by rewrite lookup_insert_eq. }
  rewrite Ed in *. destruct Hdel as (e2 & E2 & Hinv2). mrun E2.
  pose proof (wal_Commit_ok order cap interval Horder Hcap Hinterval 0 _ _ e2 u1 (unext u) Hinv2 ltac:(split; lia)) as Hc. unfold ucommit in *. rewrite Ew in *.
  destruct Hc as (e3 & E3 & Hinv3). mrun E3. exists e3. split; [done|]. intros Hfit. eapply next_settled; [by apply Hinv3|lia|lia|done|done].
Qed.

Lemma wal_call_ok i e u ev :
  settled i e u → Z.of_nat i < 2 ^ 20 → valid ev → call ev = true →
  ∃ e', perform order db cap interval ev e = ((uspec ev u).1, e') ∧ (pages_at (tree_ e') ≤ cap → settled (S i) e' (uspec ev u).2).
Proof using Horder Hcap Hinterval.
  intros Hrd Hi Hv Hal. pose proof (settled_within _ _ _ Hrd Hi) as [Hm Hb]. pose proof (bound_Z i) as Hbd. pose proof (se_inv _ _ _ Hrd) as Hinv.
  assert (Hstay : ∀ e' n m b u', inv n m b e' u' → (m ≤ 2 * i + 2)%nat → (b ≤ log_bound i + 4 * i + 16)%nat → pages_at (tree_ e') ≤ cap → settled (S i) e' u').
  { intros. by eapply next_settled. }
  destruct ev as [k|k v|k|k n| |t k|t k v|t k|t|t| |]; simpl in Hv, Hal.
  - destruct (wal_Get_ok _ _ _ _ _ k Hinv) as (e' & E & Hinv'). exists e'. cbn [perform uspec]. mrun E. split; [done|]. eapply Hstay; [done|lia..].
  - by apply wal_put_ok.
  - by apply wal_delete_ok.
  - destruct (wal_scan_ok _ _ _ _ _ k n Hinv Hv) as (e' & E & Hinv'). exists e'. split; [exact E|]. eapply Hstay; [done|lia..].
  - destruct (wal_Begin_ok cap interval Hcap _ _ _ e u Hinv ltac:(split; lia)) as (e' & E & Hinv'). exists e'. cbn [perform uspec]. mrun E. split; [done|]. eapply Hstay; [done|lia..].
  - pose proof (wal_GetTxn_ok cap interval Hcap _ _ _ e u t k Hinv) as Hg. cbn [perform uspec]. destruct (logs u !! t).
    + destruct Hg as (e' & E & Hinv'). exists e'. mrun E. split; [done|]. eapply Hstay; [done|lia..].
    + exists e. split; [by apply bind_Exn|]. eapply Hstay; [done|lia..].
  - pose proof (wal_PutTxn_ok cap interval Hcap 0 _ _ e u t k v (settled_room _ _ _ 1 Hrd ltac:(done)) ltac:(split; lia) Hv) as Hp. cbn [perform uspec].
    assert (∀ a u', uput_txn t k v u = (Val a, u') → a = ADone) as Hans.
    { unfold uput_txn. intros a u'. destruct (_ <? _); [done|]. destruct (logs u !! t); [by intros [= <- _]|done]. }
    destruct (uput_txn t k v u) as [[a|x| |] u']; [|..|done|done].
    + destruct Hp as (e' & E & Hinv'). exists e'. mrun E. rewrite (Hans a u') by done. split; [done|]. eapply Hstay; [done|lia..].
    + destruct Hp as [E ->]. exists e. split; [by apply bind_Exn|]. eapply Hstay; [done|lia..].
  - pose proof (wal_DeleteTxn_ok cap interval Hcap 0 _ _ e u t k (settled_room _ _ _ 1 Hrd ltac:(done)) ltac:(split; lia) Hv) as Hd. cbn [perform uspec].
    destruct (udelete_txn t k u) as [[[]|x| |] u']; try done.
    + destruct Hd as (e' & E & Hinv'). exists e'. mrun E. split; [done|]. eapply Hstay; [done|lia..].
    + destruct Hd as [E ->]. exists e. split; [by apply bind_Exn|]. eapply Hstay; [done|lia..].
  - pose proof (wal_Commit_ok order cap interval Horder Hcap Hinterval _ _ _ e u t Hinv ltac:(split; lia)) as Hc. cbn [perform uspec].
    assert (∀ a u', ucommit t u = (Val a, u') → a = ADone) as Hans by (unfold ucommit; destruct (logs u !! t); congruence).
    destruct (ucommit t u) as [[a|x| |] u']; [|..|done|done].
    + destruct Hc as (e' & E & Hinv'). exists e'. mrun E. rewrite (Hans a u') by done. split; [done|]. intros Hfit. eapply Hstay; [by apply Hinv'|lia..].
    + destruct Hc as [E ->]. exists e. split; [by apply bind_Exn|]. eapply Hstay; [done|lia..].
  - pose proof (wal_Abort_ok order cap interval Horder Hcap Hinterval 0 (2 * i) (log_bound i) e u t
      ltac:(apply settled_room; [done|unfold room; lia]) ltac:(split; lia)) as Ha. cbn [perform uspec].
    assert (∀ a u', uabort t u = (Val a, u') → a = ADone) as Hans by (unfold uabort; destruct (logs u !! t); congruence).
    destruct (uabort t u) as [[a|x| |] u']; [|..|done|done].
    + destruct Ha as (e' & E & Hinv'). exists e'. mrun E. rewrite (Hans a u') by done. split; [done|]. intros Hfit. eapply Hstay; [by apply Hinv'|lia..].
    + destruct Ha as [E ->]. exists e. split; [by apply bind_Exn|]. eapply Hstay; [done|lia..].
  - done.
  - done.
Qed.

(** Any calls are answered with undo logs, ... *)
Lemma wal_calls_ok evs : ∀ i e u,
  settled i e u → Z.of_nat (i + length evs) < 2 ^ 20 → Forall valid evs → forallb call evs = true →
  all_fit order db cap interval evs e = true → run order db cap interval evs e = uspec_run evs u.
Proof using Horder Hcap Hinterval.
  induction evs as [|ev evs IH]; intros i e u Hrd Hi Hv Hc Hf; [done|]. apply Forall_cons in Hv as [Hv1 Hv]. simpl in Hi.
  cbn [forallb all_fit run uspec_run] in *. apply andb_true_iff in Hc as [Hc1 Hc]. destruct (wal_call_ok i e u ev Hrd ltac:(lia) Hv1 Hc1) as (e' & E & Hrd').
  rewrite E in *. cbn [snd] in Hf. apply andb_true_iff in Hf as [Hf1%fits_pages Hf]. destruct (uspec ev u) as [r u']. cbn [fst snd] in *. f_equal.
  apply (IH (S i)); [by apply Hrd'|lia|done|done|done].
Qed.

(** ... and transactions that keep apart as atomic ones, restarts included. *)
Lemma wal_perform_ok i e u s ev :
  settled i e u → apart u s → Z.of_nat i < 2 ^ 20 → valid ev → allowed ev s = true →
  ∃ e' u', perform order db cap interval ev e = ((spec ev s).1, e') ∧ apart u' (spec ev s).2 ∧ (pages_at (tree_ e') ≤ cap → settled (S i) e' u').
Proof using Horder Hcap Hinterval.
  intros Hrd Hap Hi Hv Hal. destruct (call ev) eqn:Hc.
  - destruct (wal_call_ok i e u ev Hrd Hi Hv Hc) as (e' & E & Hrd'). destruct (apart_step ev u s Hap Hal Hc) as [Ha Hap'].
    exists e', (uspec ev u).2. by rewrite <-Ha.
  - pose proof (apart_restart s (oo_committed _ _ _ (ap_open _ _ Hap))) as Hap'. pose proof (bound_Z i).
    assert (∃ e', perform order db cap interval ev e = (Val ADone, e') ∧ inv 0 (2 * i) (log_bound i + 2 * i) e' (mkUStore (committed s) ∅ 0)) as (e' & E & Hinv).
    { destruct ev; try done; cbn [perform].
      - destruct (wal_crash_ok i e u s Hrd Hap Hi) as (e' & E & Hinv'). exists e'. by mrun E.
      - destruct (wal_reopen_ok i e u s Hrd Hap Hi) as (e' & E & Hinv'). exists e'. by mrun E. }
    exists e', (mkUStore (committed s) ∅ 0). assert (spec ev s = (Val ADone, restart s)) as -> by (by destruct ev). split_and!; [done|done|].
    intros Hfit. eapply next_settled; [done|lia|lia|done|done].
Qed.

Lemma wal_run_ok evs : ∀ i e u s,
  settled i e u → apart u s → Z.of_nat (i + length evs) < 2 ^ 20 → Forall valid evs → disciplined evs s = true →
  all_fit order db cap interval evs e = true → run order db cap interval evs e = spec_run evs s.
Proof using Horder Hcap Hinterval.
  induction evs as [|ev evs IH]; intros i e u s Hrd Hap Hi Hv Hd Hf; [done|]. apply Forall_cons in Hv as [Hv1 Hv]. simpl in Hi.
  cbn [disciplined all_fit run spec_run] in *. apply andb_true_iff in Hd as [Hd1 Hd].
  destruct (wal_perform_ok i e u s ev Hrd Hap ltac:(lia) Hv1 Hd1) as (e' & u' & E & Hap' & Hrd').
  rewrite E in *. cbn [snd] in Hf. apply andb_true_iff in Hf as [Hf1%fits_pages Hf]. destruct (spec ev s) as [r s']. cbn [fst snd] in *. f_equal.
  apply (IH (S i) e' u'); [by apply Hrd'|done|lia|done|done|done].
Qed.

Lemma apart_empty : apart empty_ustore empty_store.
Proof using Type. apply (apart_restart empty_store). constructor. Qed.

Lemma settled_open : ∃ e fs, Open order db cap true interval no_files = (Val e, fs) ∧ settled 0 e empty_ustore.
Proof using Horder Hcap.
  destruct (Open_empty (db +:+ ".wal")) as (l & f & El & Hl). destruct (tree_fresh cap ltac:(lia) db 0 ltac:(done)) as (tr & Ho & Ht & Hp).
  pose proof (opens_start order cap interval db _ tr (DiskManager.File [] []) Ho) as E. unfold no_files. rewrite E. unfold start_log. rewrite El.
  pose proof (lr_next _ _ Hl) as Hn. simpl in Hn. unfold RecoverOnStartup, on_log, mbind, M_bind. simpl. unfold LogManager.GetNextLsn. rewrite Hn. simpl.
  eexists _, _. split; [done|]. split; [|simpl; lia]. eexists (DiskManager.File [] []), (-1), 0, [], [], tr, l, 0, 0, ∅. split; [done|].
  split; try done; rewrite ?map_size_empty; try (change (total ∅) with 0%nat); try lia.
  split; try done; [constructor|by left| |].
  - intros x Hx. by apply elem_of_nil in Hx.
  - exists []. split_and!; [by left|constructor|done].
Qed.
End runs.
