(* ===== verification/WalEngineProps.v ===== *)
(** * The WAL B+-tree engine: properties *)

From S2P Require Import Prelude Entries Bytes Structs Disk Replacer Buffer TreePages BTree Engine BTreeEngine Wal WalEngine WalSpec WalState WalRuns.

Module WalEngineProps.
Import WALBPlusTreeEngine WalSpec.

#[local] Opaque MAX_VALUE_SIZE.

(** C3: transactions are atomic and durable.  An engine opened on no files, with
    a log and any checkpoint interval, answers every sequence of calls,
    crashes and restarts as the specification does: reads see the current
    entries, an abort takes back what its transaction wrote, and after a
    crash or a restart exactly the writes of the committed transactions are
    there, whatever the order in which hash maps are walked.  It holds for a
    pool of at least 70 frames and fewer than 2^20 events, as long as the pages
    of the database all fit the pool ([all_fit], which rules evictions out) and
    no transaction writes a key another open one has written ([disciplined]).
    Both conditions are needed: [wal_recovery_overwrites_commit] and
    [wal_eviction_breaks_recovery] show a run each that breaks the promise. *)
Theorem wal_engine_atomic_durable order db size interval evs :
  (∀ time ks, order time ks ≡ₚ ks) → 70 ≤ size ≤ 2 ^ 40 → is_i32 interval → Z.of_nat (length evs) < 2 ^ 20 →
  Forall valid evs → disciplined evs empty_store = true →
  ∃ e, (Open order db size true interval no_files).1 = Val e ∧
    (all_fit order db size interval evs e = true → run order db size interval evs e = spec_run evs empty_store).
Proof.
  intros Horder Hsize Hint Hlen Hv Hd. destruct (settled_open order db size interval Horder Hsize) as (e & fs & E & Hs).
  exists e. rewrite E. split; [done|]. intros Hf.
  by apply (wal_run_ok order db size interval Horder Hsize Hint evs 0 e empty_ustore empty_store Hs apart_empty).
Qed.

(** C33: whatever keys the transactions write, an engine with a log answers
    every sequence of calls (no restart among them) with undo logs: reads see the
    current entries, a commit forgets what the writes of its transaction
    replaced, and an abort writes that back, latest first, over whatever other
    transactions have written and committed since.  Pool and run are as large as
    in the theorem above, and the pages fit the pool. *)
Theorem wal_calls_refine_undo_logs order db size interval evs :
  (∀ time ks, order time ks ≡ₚ ks) → 70 ≤ size ≤ 2 ^ 40 → is_i32 interval → Z.of_nat (length evs) < 2 ^ 20 →
  Forall valid evs → forallb call evs = true →
  ∃ e, (Open order db size true interval no_files).1 = Val e ∧
    (all_fit order db size interval evs e = true → run order db size interval evs e = uspec_run evs empty_ustore).
Proof.
  intros Horder Hsize Hint Hlen Hv Hc. destruct (settled_open order db size interval Horder Hsize) as (e & fs & E & Hs).
  exists e. rewrite E. split; [done|]. intros Hf. by apply (wal_calls_ok order db size interval Horder Hsize Hint evs 0 e empty_ustore Hs).
Qed.

(** A walk in the order of the map. *)
Definition in_order (time : Z) (ks : list Z) : list Z := ks.

(** Two open transactions across a checkpoint; one is aborted, the other lost
    in a crash. *)
Definition ex_events : list event :=
  [WPut 1 "a"; WPut 2 "b"; WBegin; WPutTxn 2 1 "c"; WBegin; WPutTxn 3 5 "e"; WDeleteTxn 2 2; WPut 7 "g"; WAbort 3; WScan int64_min 9;
   WCrash; WScan int64_min 9; WBegin; WPutTxn 0 2 "h"; WCommit 0; WReopen; WGet 2].

Lemma wal_engine_atomic_durable_witness :
  ∃ e, (Open in_order "db" 80 true 2 no_files).1 = Val e ∧ all_fit in_order "db" 80 2 ex_events e = true ∧
    run in_order "db" 80 2 ex_events e = spec_run ex_events empty_store.
Proof.
  destruct (wal_engine_atomic_durable in_order "db" 80 2 ex_events) as (e & E & H).
  - done.
  - done.
  - done.
  - by vm_compute.
  - repeat constructor; done.
  - by vm_compute.
  - exists e. split; [exact E|].
    assert (F : match (Open in_order "db" 80 true 2 no_files).1 with Val e => all_fit in_order "db" 80 2 ex_events e | _ => false end = true) by (by vm_compute).
    rewrite E in F. split; [exact F|exact (H F)].
Defined.

(** Two transactions that write the same keys. *)
Definition ex_calls : list event :=
  [WPut 1 "a"; WBegin; WPutTxn 1 1 "b"; WBegin; WDeleteTxn 2 1; WPutTxn 1 1 "c"; WPut 3 "d"; WCommit 2; WAbort 1; WScan int64_min 9].

Lemma wal_calls_refine_undo_logs_witness :
  ∃ e, (Open in_order "db" 80 true 2 no_files).1 = Val e ∧ all_fit in_order "db" 80 2 ex_calls e = true ∧
    run in_order "db" 80 2 ex_calls e = uspec_run ex_calls empty_ustore ∧
    last (run in_order "db" 80 2 ex_calls e) = Some (Val (ARows [(1, "a"%string); (3, "d"%string)])).
Proof.
  destruct (wal_calls_refine_undo_logs in_order "db" 80 2 ex_calls) as (e & E & H).
  - done.
  - done.
  - done.
  - by vm_compute.
  - repeat constructor; done.
  - done.
  - exists e. split; [exact E|].
    assert (F : match (Open in_order "db" 80 true 2 no_files).1 with Val e => all_fit in_order "db" 80 2 ex_calls e | _ => false end = true) by (by vm_compute).
    rewrite E in F. split; [exact F|]. rewrite (H F). split; [done|by vm_compute].
Defined.

(** ** Where the promise ends *)

Lemma uspec_run_app evs evs' : ∀ u, uspec_run (evs ++ evs') u = uspec_run evs u ++ uspec_run evs' (after evs u).
Proof.
  induction evs as [|ev evs IH]; intros u; [done|]. cbn [app uspec_run after foldl]. fold (after evs (uspec ev u).2).
  destruct (uspec ev u) as [r u']. simpl. by rewrite IH.
Qed.

Lemma after_app evs evs' u : after (evs ++ evs') u = after evs' (after evs u).
Proof. apply foldl_app. Qed.

Lemma sorted_uspec ev u : sorted (now u) → sorted (now (uspec ev u).2).
Proof.
  intros Hs.
  assert (Hp : ∀ t k v u, sorted (now u) → sorted (now (uput_txn t k v u).2)).
  { intros t k v u' Hs'. unfold uput_txn. destruct (_ <? _); [done|]. destruct (logs u' !! t); [|done]. by apply sorted_write. }
  assert (Hd : ∀ t k u, sorted (now u) → sorted (now (udelete_txn t k u).2)).
  { intros t k u' Hs'. unfold udelete_txn. destruct (logs u' !! t); [|done]. destruct (look k (now u')); [|done]. by apply sorted_write. }
  assert (Hc : ∀ t u, sorted (now u) → sorted (now (ucommit t u).2)) by (intros t u' Hs'; unfold ucommit; by destruct (logs u' !! t)).
  destruct ev as [k|k v|k|k n| |t k|t k v|t k|t|t| |]; cbn [uspec]; try done.
  - specialize (Hp (unext u) k v (ubegin u) Hs). destruct (uput_txn _ _ _ _) as [[] u1]; [by apply Hc|done..].
  - specialize (Hd (unext u) k (ubegin u) Hs). destruct (udelete_txn _ _ _) as [r u1]. by apply Hc.
  - by destruct (logs u !! t).
  - by apply Hp.
  - by apply Hd.
  - by apply Hc.
  - unfold uabort. destruct (logs u !! t); [|done]. by apply sorted_rollback.
Qed.

Lemma sorted_now evs : ∀ u, sorted (now u) → sorted (now (after evs u)).
Proof. induction evs as [|ev evs IH]; intros u Hs; [done|]. by apply IH, sorted_uspec. Qed.

(** The log of an open transaction is its own: puts of others leave it. *)
Lemma log_kept_put t log k v u :
  logs u !! t = Some log → t < unext u → logs (uspec (WPut k v) u).2 !! t = Some log ∧ t < unext (uspec (WPut k v) u).2.
Proof.
  intros Hl Ht. cbn [uspec]. unfold uput_txn. destruct (_ <? _); cbn [ubegin logs unext snd].
  - rewrite lookup_insert_ne by lia. split; [done|lia].
  - rewrite lookup_insert_eq. unfold ucommit. cbn [uwrite logs unext snd]. rewrite lookup_insert_eq. cbn [logs unext snd].
    rewrite lookup_delete_ne, lookup_insert_ne by lia. cbn [ubegin logs unext]. rewrite lookup_insert_ne by lia. split; [done|lia].
Qed.

Lemma log_kept t log ps : ∀ u,
  logs u !! t = Some log → t < unext u → logs (after ((λ p : KeyType * string, WPut p.1 p.2) <$> ps) u) !! t = Some log.
Proof.
  induction ps as [|[k v] ps IH]; intros u Hl Ht; [done|]. destruct (log_kept_put t log k v u Hl Ht) as [Hl' Ht']. by apply IH.
Qed.

(** An abort writes back the value a key had when the transaction wrote it, also
    when others have written the key and committed since: whatever the calls
    before, and whatever is put in between, the value before is there again. *)
Theorem wal_undo_overwrites_commit order db size interval evs k v ps :
  let u := after evs empty_ustore in
  let all := evs ++ WBegin :: WPutTxn (unext u) k v :: ((λ p : KeyType * string, WPut p.1 p.2) <$> ps) ++ [WAbort (unext u); WGet k] in
  (∀ time ks, order time ks ≡ₚ ks) → 70 ≤ size ≤ 2 ^ 40 → is_i32 interval → Z.of_nat (length all) < 2 ^ 20 →
  Forall valid all → forallb call all = true → ssize v ≤ MAX_VALUE_SIZE →
  ∃ e, (Open order db size true interval no_files).1 = Val e ∧
    (all_fit order db size interval all e = true → last (run order db size interval all e) = Some (Val (AFound (look k (now u))))).
Proof.
  intros u all Horder Hsize Hint Hlen Hv Hc Hsm. destruct (settled_open order db size interval Horder Hsize) as (e & fs & E & Hs).
  exists e. rewrite E. split; [done|]. intros Hf. rewrite (wal_calls_ok order db size interval Horder Hsize Hint all 0 e empty_ustore Hs) by done.
  unfold all. rewrite uspec_run_app. fold u. assert (Hu : sorted (now u)) by (apply sorted_now; constructor).
  set (u2 := uwrite (unext u) [] (k, Some v) (ubegin u)).
  assert (E2 : uspec_run (WBegin :: WPutTxn (unext u) k v :: ((λ p : KeyType * string, WPut p.1 p.2) <$> ps) ++ [WAbort (unext u); WGet k]) u =
    Val (ATxn (unext u)) :: Val ADone :: uspec_run (((λ p : KeyType * string, WPut p.1 p.2) <$> ps) ++ [WAbort (unext u); WGet k]) u2).
  { cbn [uspec_run uspec]. unfold uput_txn. rewrite (proj2 (Z.ltb_ge _ _)) by done. cbn [ubegin logs]. rewrite lookup_insert_eq. done. }
  rewrite E2, uspec_run_app. set (u3 := after _ u2).
  assert (Hl3 : logs u3 !! unext u = Some [(k, look k (now u))]).
  { apply log_kept; [|cbn; lia]. cbn [u2 uwrite logs]. by rewrite lookup_insert_eq. }
  assert (Hs3 : sorted (now u3)) by (by apply sorted_now, sorted_write).
  cbn [uspec_run uspec]. unfold uabort. rewrite Hl3. cbn [rollback foldr now].
  rewrite last_app, !last_cons, last_app. cbn [last]. do 3 f_equal. rewrite look_write by done. simpl. by rewrite Z.eqb_refl.
Qed.

Definition outcome (size interval : Z) (evs : list event) : list (res answer) :=
  match Open in_order "db" size true interval no_files with
  | (Val e, _) => run in_order "db" size interval evs e
  | _ => []
  end.

(** Recovery does the same with a transaction a crash has left open. *)
Theorem wal_recovery_overwrites_commit :
  last (outcome 80 100 [WPut 1 "a"; WBegin; WPutTxn 1 1 "b"; WPut 1 "c"; WCrash; WGet 1]) = Some (Val (AFound (Some "a"%string))).
Proof. by vm_compute. Qed.

(** The keys of the rows a scan has answered. *)
Definition keys_of (r : res answer) : list KeyType := match r with Val (ARows rows) => rows.*1 | _ => [] end.

Definition puts (n : nat) : list event := (λ i, WPut (Z.of_nat i) "v") <$> seq 0 n.

(** Recovery relies on a file nothing was written to since the last
    checkpoint, but the pool writes pages back when it needs their frames.
    With three frames and seventy-six puts, the file a crash leaves has some
    pages from before a split and some from after, and the engine recovered
    from it scans 25 keys twice. *)
Theorem wal_eviction_breaks_recovery :
  keys_of <$> last (outcome 3 100000 (puts 76 ++ [WCrash; WScan int64_min 200])) = Some ((Z.of_nat <$> seq 0 76) ++ (Z.of_nat <$> seq 50 25)).
Proof. by vm_compute. Qed.

(** A value one byte too long. *)
Definition too_long : string := of_chars (zeros 65).

(** A refused implicit [Put] has begun its transaction and leaves it open: it
    can still be committed, and every checkpoint lists it until then. *)
Theorem wal_refused_put_stays_open : outcome 80 100 [WPut 1 too_long; WCommit 0] = [Exn too_large; Val ADone].
Proof. by vm_compute. Qed.

End WalEngineProps.
